(* ===== verification/_CoqProject ===== *)
-Q . S2P
Prelude.v
Core.v
Text.v
TenantContext.v
TenantRegistry.v
KernelArgs.v
Primitives.v
Artifacts.v
KernelCache.v
JitDispatch.v
Trampoline.v
Ir.v
PtxEmit.v
Rewrite.v
Snapshot.v
DeviceMem.v
WasiGpu.v
MemPool.v
Executor.v
Auth.v
LinearMemory.v
LoweredIr.v
Lowering.v
LoweringSem.v
LoweringFacts.v
LoweringCorrect.v
LoweringSsa.v
Pliron.v
Host.v
HostFacts.v
SignedKernels.v
Routes.v
OpenAi.v
Gateway.v
RoutesFacts.v
OpenAiFacts.v
RouteStream.v
