(* ===== verification/Prelude.v ===== *)
(** * TensorWasm verification library

    TensorWasm (the crates under [src/crates/]) runs WebAssembly guests of
    several tenants in one process and offloads their vector code to a GPU.
    This library translates its decision-making parts to executable Rocq
    functions and step functions and proves what each part promises to the
    others.

    ** The program and its model

    A request enters through the API gateway (authentication, tenant scope, the
    native or the OpenAI route), is run by the executor on a fresh or warm
    instance inside the tenant's quotas, and uses linear memory carved out of a shared slab.  At spawn the
    JIT may replace functions of the module by trampolines, which call host
    functions that launch a kernel from the kernel cache.  Guests may also use
    the GPU directly through host functions.  Instances can be captured to
    snapshots, kept in a content-addressed store.

    - [Prelude] (this file): machine integers, the [result] monad, bytes,
      sums over lists, interleavings, tactics and hints.
    - [Core]: [tensor-wasm-core] [types.rs], [error.rs], [mem_pool.rs]:
      identifiers, the error type, the redaction scanner, the driver-pool trait
      as a class.
    - [Text]: what the code uses of Rust's strings: UTF-8 validity, encoding
      and lossy decoding, boundaries, substrings.
    - [TenantContext]: [tensor-wasm-tenant/src/context.rs].  [Cas] is the
      compare-and-swap loops as steps of a pool of threads, [TokenBucket] the
      rate limiter, [Context] the operations of a tenant context.
    - [TenantRegistry]: [registry.rs] of the same crate; the heap of contexts,
      outside handles and tombstones are explicit.  [Mps] is the MPS probe.
    - [KernelArgs]: [tensor-wasm-wasi-gpu] [abi.rs], [kernel_args.rs].
    - [Primitives]: blake3, HMAC-SHA256 and zstd as a class of parameters with
      their documented laws, and an instance that satisfies them.
    - [Artifacts]: [tensor-wasm-artifacts/src/lib.rs] over a directory model;
      the disk store and the in-memory store.
    - [KernelCache]: [tensor-wasm-jit/src/cache.rs], the in-memory level; the
      disk level is the class [KernelDisk].
    - [JitDispatch]: [tensor-wasm-exec/src/jit_dispatch.rs], the host side of
      a trampoline: scratch arena and dispatch.
    - [Trampoline], [Rewrite]: [tensor-wasm-jit/src/rewrite.rs]; [Trampoline]
      generates the code and executes it against [JitDispatch], [Rewrite] is
      the module analysis and rewriting on top of [Ir], [PtxEmit] and
      [KernelCache].
    - [Ir]: [ir.rs], [detector.rs], [clif_lower.rs], [deopt.rs] of the JIT.
    - [LoweredIr], [Lowering]: the part of Cranelift's IR the lowering reads,
      [lowered_ir.rs], [reject_list.rs]; [lowering_builder.rs],
      [lower_*.rs], [lowering_driver.rs], [blueprint_adapter.rs].
      [LoweringSem] gives both languages a semantics; [LoweringFacts] (one
      instruction), [LoweringCorrect] (whole functions) and [LoweringSsa] (the
      results) relate them.
    - [Pliron]: [pliron_lowering.rs], [pliron_ptx.rs] over an arena of
      operations.
    - [SignedKernels]: [tensor-wasm-jit/src/registry.rs], the signed manifests
      and both kernel registries, the disk one over [Artifacts].
    - [PtxEmit]: [ptx_emit.rs] to the exact text, the reference interpreter of
      [differential.rs], and an execution of the emitted instructions.
    - [Snapshot]: [format.rs], [aead.rs], [writer.rs], [reader.rs] of
      [tensor-wasm-snapshot], using [Artifacts] for the envelope form.
    - [DeviceMem], [WasiGpu]: [device_mem.rs]; [registry.rs],
      [async_dispatch.rs], [scheduler.rs], [streaming.rs] of
      [tensor-wasm-wasi-gpu].
    - [Host]: [host.rs] of the same crate, the nine GPU functions a guest may
      import, over [KernelArgs], [DeviceMem] and [WasiGpu]; [HostFacts] the
      theorems.
    - [MemPool], [LinearMemory]: [pool.rs]; [wasm_memory.rs] of
      [tensor-wasm-mem], the second on top of the first.
    - [Executor]: [executor.rs] and [instance_pool.rs] of [tensor-wasm-exec].
    - [Auth]: [token_scope.rs] and the gates of [middleware.rs],
      [rate_limit.rs], [routes.rs] of [tensor-wasm-api].
    - [Routes], [OpenAi]: the handlers of [routes.rs], and of [openai.rs] with
      [openai_translator.rs], as trees of atomic actions on the shared state.
      [Gateway] runs them behind the layers of [Auth], with the tasks they
      detach, under any schedule; [RoutesFacts] has the program logic, the
      invariant and the results, [OpenAiFacts] those of the OpenAI routes.
    - [RouteStream]: the writers of the streamed responses of both.

    Concurrent code is a program counter per task and a [tick] that performs
    the next access to shared memory; a schedule is a list of events and the
    theorems hold for every schedule.  Atomics are sequentially consistent in
    the model.  Weak compare-exchanges may fail spuriously.  Times, fault
    points and what wasmtime decides are inputs of the schedule.  Modules
    whose name ends in [Facts], [Claims] or [Refinement] hold the theorems
    about the module of the same stem.

    ** What is proved

    - Tenancy: at most one live context per tenant; quotas and caps hold in
      every interleaving and the loops linearise to sequential functions; the
      token bucket of a burst below 2^64 / 10^6 never exceeds its rate and
      admits after the wait it names; redaction masks exactly the pointers,
      paths and keys of an error text.
    - Storage: without faults and within its payload limit the disk store
      refines the in-memory store; reads return only authentic content; garbage
      collection meets its policy; what a writer captures a reader restores,
      plain, signed or encrypted, and what a keyed reader restores was signed.
    - JIT: the argument codec accepts exactly the encodings; emitted code
      computes the reference semantics (one lane) and declares the registers
      it uses; a lowered Cranelift function terminates, has the form of SSA, and
      -- when stack slots are touched in the entry block and there is no
      [bitselect] -- keeps definitions before uses on every path and computes
      what its source does; its pliron graph mirrors it; the kernel registry on
      disk, one operation at a time, is one map through listings and restarts;
      the cache serves a tenant only its own kernels within its bounds; a
      rewrite into a cache with room leaves a kernel and a trampoline of the
      declared type for every offloaded function; a trampoline run stores,
      dispatches and loads as its layout says, and traps on failure; arena
      slots are disjoint and in bounds.
    - Instances: instance caps hold through every interleaving of invokes,
      terminations, pool builds, releases, shutdown and dropped futures, and at
      rest the counters are the instances that exist plus those stranded in
      dropped channels; the pool serves a request only with an instance built
      for it; without a pool nothing is left behind.
    - Memory: slab allocations are disjoint, in bounds and zeroed; a guest's
      memory is the zero-initialised growable array WebAssembly prescribes,
      alone or beside others on one slab.
    - GPU: a kernel is launched only after every check, and guest memory is
      written only by kernels and, by the host, where the arguments say; the
      byte and process budgets of the device hold, a registry passes its
      allocation count by less than the number of threads; the permits and the
      stream caps hold; a device operation left alone returns; a completion
      never loses its waker.
    - Gateway: a printed allowlist parses back; the gates let through exactly
      the requests they document; in every interleaving of requests, tasks,
      panics and dropped futures tenants are isolated (except that a dispatch
      may evict any tenant's record from the bounded job table), clients are
      shown their own runs, the gauge of outstanding jobs is exact and a poll
      shows the job's one run; evictions keep the newest records; a saved
      snapshot restores for its own tenant; streams are complete and end; the
      OpenAI translation accepts exactly what it can honour, and a buffered
      completion is the guest's text.

    Lemmas with a concrete schedule or input record where the code does not do
    what its comments say, for example [second_build_strands_instance],
    [failed_build_keeps_slots], [stray_comma_mints_wildcard_bearer],
    [vector_kernels_miscompiled], [launch_geometry_swapped],
    [dropped_registry_leaks_budget], [panicked_job_stays_pending],
    [openai_tasks_uncounted], [dead_task_reads_complete],
    [saturated_bucket_overadmits], [count_check_is_stale],
    [small_cache_evicts_kernels].

    ** Bounds and fuel

    Fuel is the length of the input where a scanner consumes at least one
    byte per step ([Core.Redact], [KernelArgs.parse_loop]); the lemmas prove
    the result for any fuel at least that long.  [DeviceMem.alone] bounds a
    single task's steps and its termination theorem says how many are enough.
    [LinearMemory.allocate_alone] takes the eight accesses an uncontended
    allocation makes.  Handle counters of 64 bits are not modelled as
    wrapping.  [usize] has 64 bits.  Lowered functions run with as much fuel as
    they have blocks, which [lower_function_terminates] proves enough; UTF-8
    decoding takes the length of the input, a character being at least one
    byte.  Handlers are finite trees and need no fuel.

    ** Not modelled

    - The CUDA driver and the backends around it, GPU restore of snapshots:
      foreign code; the driver the host functions call, and what running kernels
      write to guest memory, is a parameter.
    - wasmtime, wasmparser, wasm-encoder, tokio, axum, serde, bincode, base64,
      uuid, pliron's passes, the cryptographic libraries: parameters with
      documented laws, or inputs of a schedule.
    - The JIT's disk cache: the laws of [KernelDisk] would need its file names
      not to collide, and no hash of fixed length is injective.
    - The API rate limiter and the success rates: computed in [f64] with
      rounding, which the model's integers do not follow.
    - The module cache and compilation path of the executor: decisions of
      wasmtime.
    - The HTTP side of the kernel routes, the audit log, configuration from the
      environment, router wiring beyond its gates, metrics, telemetry, the
      command line, benchmarks: input and output around the parts above, which
      no decision of those parts reads back. *)

From stdpp Require Export base tactics option list numbers gmap strings relations.
From Stdlib Require Export ZArith Lia.
From Stdlib Require Strings.Byte.

(** ** Machine integers

    Every integer of the sources is a [Z] kept in the range of its Rust type;
    the operations below are the checked, saturating and wrapping forms the
    sources use.  [usize] is the 64-bit [usize] of the supported targets. *)

Declare Scope twasm_scope.
Delimit Scope twasm_scope with twasm.

Abbreviation u8_max := 255%Z.
Abbreviation u32_max := 4294967295%Z.
Abbreviation u64_max := 18446744073709551615%Z.
Abbreviation usize_max := 18446744073709551615%Z.
Abbreviation u128_max := 340282366920938463463374607431768211455%Z.
Abbreviation i32_max := 2147483647%Z.

#[global] Open Scope Z_scope.

(** A value that fits an unsigned type whose largest value is [m]. *)
Definition fits (m z : Z) : Prop := 0 <= z <= m.

Definition checked_add (m a b : Z) : option Z :=
  if a + b <=? m then Some (a + b) else None.

Definition checked_sub (a b : Z) : option Z :=
  if b <=? a then Some (a - b) else None.

Definition checked_mul (m a b : Z) : option Z :=
  if a * b <=? m then Some (a * b) else None.

Definition sat_add (m a b : Z) : Z := Z.min (a + b) m.
Definition sat_sub (a b : Z) : Z := Z.max (a - b) 0.
Definition sat_mul (m a b : Z) : Z := Z.min (a * b) m.

(** [x as i32] for an unsigned 32-bit [x], and [x as u32] for an [i32]. *)
Definition as_signed (w z : Z) : Z :=
  if z mod 2 ^ w <? 2 ^ (w - 1) then z mod 2 ^ w else z mod 2 ^ w - 2 ^ w.
Definition as_i32 (z : Z) : Z := as_signed 32 z.
Definition as_i64 (z : Z) : Z := as_signed 64 z.
Definition as_u32 (z : Z) : Z := z mod 2 ^ 32.
Definition as_u64 (z : Z) : Z := z mod 2 ^ 64.

(** [try_from(z).unwrap_or(m)] for an unsigned target whose maximum is [m]. *)
Definition try_from_or (m d z : Z) : Z := if z <=? m then z else d.

(** Integer tests as propositions. *)
Ltac bool_props0 :=
  repeat match goal with
  | H : (_ <=? _) = true |- _ => apply Z.leb_le in H
  | H : (_ <=? _) = false |- _ => apply Z.leb_gt in H
  | H : (_ <? _) = true |- _ => apply Z.ltb_lt in H
  | H : (_ <? _) = false |- _ => apply Z.ltb_ge in H
  | H : (_ =? _) = true |- _ => apply Z.eqb_eq in H
  | H : (_ =? _) = false |- _ => apply Z.eqb_neq in H
  | H : negb _ = true |- _ => apply negb_true_iff in H
  | H : negb _ = false |- _ => apply negb_false_iff in H
  | H : (_ && _)%bool = true |- _ => apply andb_true_iff in H as [? ?]
  | H : (_ || _)%bool = false |- _ => apply orb_false_iff in H as [? ?]
  | H : bool_decide _ = true |- _ => apply bool_decide_eq_true in H
  | H : bool_decide _ = false |- _ => apply bool_decide_eq_false in H
  end.

Lemma checked_add_Some m a b c :
  checked_add m a b = Some c <-> c = a + b /\ a + b <= m.
Proof.
  unfold checked_add. case_match; bool_props0; (split; [intros [=]|intros [-> ?]]); try done; lia.
Qed.

Lemma checked_add_None m a b : checked_add m a b = None <-> m < a + b.
Proof. unfold checked_add. case_match; bool_props0; naive_solver lia. Qed.

Lemma checked_add_fits m a b : a + b <= m -> checked_add m a b = Some (a + b).
Proof. intros. by apply checked_add_Some. Qed.

Lemma checked_sub_Some a b c : checked_sub a b = Some c <-> c = a - b /\ b <= a.
Proof.
  unfold checked_sub. case_match; bool_props0; (split; [intros [=]|intros [-> ?]]); try done; lia.
Qed.

Lemma checked_sub_None a b : checked_sub a b = None <-> a < b.
Proof. unfold checked_sub. case_match; bool_props0; naive_solver lia. Qed.

(** Two's complement: the cast picks the representative of the signed range. *)
Lemma as_signed_spec w z :
  0 < w -> - 2 ^ (w - 1) <= as_signed w z < 2 ^ (w - 1) /\ as_signed w z mod 2 ^ w = z mod 2 ^ w.
Proof.
  intros Hw. unfold as_signed. assert (0 < 2 ^ (w - 1)) by (apply Z.pow_pos_nonneg; lia).
  assert (2 ^ w = 2 * 2 ^ (w - 1)) as Hp by (rewrite <-Z.pow_succ_r by lia; f_equal; lia).
  pose proof (Z.mod_pos_bound z (2 ^ w) ltac:(lia)). case_match; bool_props0.
  - split; [lia|]. apply Z.mod_mod. lia.
  - split; [lia|]. rewrite <-(Z.mod_mod z (2 ^ w)) at 2 by lia.
    rewrite <-(Z.mod_add (z mod 2 ^ w - 2 ^ w) 1) by lia. f_equal. lia.
Qed.

Lemma as_signed_id w z :
  0 < w -> - 2 ^ (w - 1) <= z < 2 ^ (w - 1) -> as_signed w (z mod 2 ^ w) = z.
Proof.
  intros Hw Hz. assert (0 < 2 ^ (w - 1)) by (apply Z.pow_pos_nonneg; lia).
  assert (2 ^ w = 2 * 2 ^ (w - 1)) as Hp by (rewrite <-Z.pow_succ_r by lia; f_equal; lia).
  destruct (as_signed_spec w (z mod 2 ^ w) Hw) as [Hr Hm]. rewrite Z.mod_mod in Hm by lia.
  set (r := as_signed w (z mod 2 ^ w)) in *. clearbody r.
  pose proof (Z.div_mod r (2 ^ w) ltac:(lia)). pose proof (Z.div_mod z (2 ^ w) ltac:(lia)).
  assert (r / 2 ^ w = z / 2 ^ w) by nia. congruence.
Qed.

(** ** Results

    Rust's [Result<A, E>], with the error first so that it is a monad. *)

Inductive result (E A : Type) : Type :=
| Ok (a : A)
| Err (e : E).
Arguments Ok {E A} a.
Arguments Err {E A} e.

#[global] Instance result_ret {E} : MRet (result E) := fun A a => Ok a.
#[global] Instance result_bind {E} : MBind (result E) := fun A B f m =>
  match m with Ok a => f a | Err e => Err e end.
#[global] Instance result_fmap {E} : FMap (result E) := fun A B f m =>
  match m with Ok a => Ok (f a) | Err e => Err e end.

#[global] Instance result_eq_dec {E A} `{EqDecision E, EqDecision A} : EqDecision (result E A).
Proof. solve_decision. Defined.

(** [.ok_or(e)] and [.is_ok()] *)
Definition ok_or {E A} (e : E) (o : option A) : result E A :=
  match o with Some a => Ok a | None => Err e end.

Definition is_ok {E A} (r : result E A) : bool :=
  match r with Ok _ => true | Err _ => false end.

Definition ok {E A} (r : result E A) : option A :=
  match r with Ok a => Some a | Err _ => None end.

Lemma bind_Ok_inv {E A B} (m : result E A) (f : A -> result E B) (b : B) :
  m ≫= f = Ok b -> exists a, m = Ok a /\ f a = Ok b.
Proof. destruct m; [eauto|done]. Qed.

(** Peel one [?] off a hypothesis [m ≫= f = Ok _]. *)
Ltac inv_bind H :=
  let a := fresh "a" in let E := fresh "E" in
  apply bind_Ok_inv in H as (a & E & H).

(** Code that threads a state through fallible steps; an error keeps the state
    reached. *)
Definition stM (S E A : Type) : Type := S -> result E A * S.

#[global] Instance stM_ret {S E} : MRet (stM S E) := fun A a s => (Ok a, s).
#[global] Instance stM_bind {S E} : MBind (stM S E) := fun A B f m s =>
  match m s with
  | (Ok a, s) => f a s
  | (Err e, s) => (Err e, s)
  end.
Definition lift {S E A} (r : result E A) : stM S E A := fun s => (r, s).
Definition fail {S E A} (e : E) : stM S E A := fun s => (Err e, s).
Definition get_state {S E} : stM S E S := fun s => (Ok s, s).
Definition put_state {S E} (s : S) : stM S E () := fun _ => (Ok (), s).

(** Integer tests and machine-integer operations as propositions. *)
Ltac bool_props :=
  repeat match goal with
  | H : checked_add _ _ _ = Some _ |- _ => apply checked_add_Some in H as [? ?]
  | H : checked_add _ _ _ = None |- _ => apply checked_add_None in H
  | H : checked_sub _ _ = Some _ |- _ => apply checked_sub_Some in H as [? ?]
  | H : checked_sub _ _ = None |- _ => apply checked_sub_None in H
  | _ => progress bool_props0
  end.

(** Case analysis along the guards of a handler, from the outside in. *)
Ltac guards := repeat (case_match; simplify_eq/=); bool_props.

(** ** Bytes and little-endian words *)

Abbreviation u8 := Byte.byte.

#[global] Instance u8_eq_dec : EqDecision u8 := Byte.byte_eq_dec.

#[global] Instance u8_countable : Countable u8.
Proof. apply (inj_countable Byte.to_N Byte.of_N Byte.of_to_N). Defined.

Definition u8_of_Z (z : Z) : u8 := default Byte.x00 (Byte.of_N (Z.to_N (z mod 256))).
Definition u8_to_Z (b : u8) : Z := Z.of_N (Byte.to_N b).

Lemma u8_to_Z_range b : 0 <= u8_to_Z b < 256.
Proof. unfold u8_to_Z. pose proof (Byte.to_N_bounded b). lia. Qed.

Lemma u8_of_to_Z b : u8_of_Z (u8_to_Z b) = b.
Proof.
  unfold u8_of_Z. rewrite Z.mod_small by apply u8_to_Z_range.
  unfold u8_to_Z. rewrite N2Z.id, Byte.of_to_N. done.
Qed.

Lemma u8_to_of_Z z : u8_to_Z (u8_of_Z z) = z mod 256.
Proof.
  unfold u8_to_Z, u8_of_Z. pose proof (Z.mod_pos_bound z 256).
  destruct (Byte.of_N (Z.to_N (z mod 256))) as [b|] eqn:Hb; simpl.
  - apply Byte.to_of_N_iff in Hb. rewrite Hb. rewrite Z2N.id; lia.
  - apply Byte.of_N_None_iff in Hb. lia.
Qed.

#[global] Instance u8_to_Z_inj : Inj (=) (=) u8_to_Z.
Proof. intros a b H. rewrite <-(u8_of_to_Z a), <-(u8_of_to_Z b). by rewrite H. Qed.

(** [z.to_le_bytes()] at width [n] bytes, and [from_le_bytes]. *)
Fixpoint to_le_bytes (n : nat) (z : Z) : list u8 :=
  match n with
  | O => []
  | S n => u8_of_Z z :: to_le_bytes n (z / 256)
  end.

Fixpoint from_le_bytes (l : list u8) : Z :=
  match l with
  | [] => 0
  | b :: l => u8_to_Z b + 256 * from_le_bytes l
  end.

Lemma length_to_le_bytes n z : length (to_le_bytes n z) = n.
Proof. revert z. induction n as [|n IH]; intros; simpl; [done|]. by rewrite IH. Qed.

Lemma from_to_le_bytes_mod n z : from_le_bytes (to_le_bytes n z) = z mod 256 ^ Z.of_nat n.
Proof.
  revert z. induction n as [|n IH]; intros z; simpl.
  - by rewrite Z.mod_1_r.
  - rewrite IH, u8_to_of_Z.
    replace (256 ^ Z.of_nat (S n)) with (256 * 256 ^ Z.of_nat n) by (rewrite Nat2Z.inj_succ, Z.pow_succ_r; lia).
    rewrite Z.rem_mul_r by lia. lia.
Qed.

Lemma from_to_le_bytes n z : 0 <= z < 256 ^ Z.of_nat n -> from_le_bytes (to_le_bytes n z) = z.
Proof. intros. rewrite from_to_le_bytes_mod. by apply Z.mod_small. Qed.

Lemma to_le_bytes_mod n z : to_le_bytes n (z mod 256 ^ Z.of_nat n) = to_le_bytes n z.
Proof.
  revert z. induction n as [|n IH]; intros z; simpl; [done|].
  assert (256 ^ Z.of_nat (S n) = 256 * 256 ^ Z.of_nat n) as ->
    by (rewrite Nat2Z.inj_succ, Z.pow_succ_r; lia).
  assert (0 < 256 ^ Z.of_nat n) by lia.
  rewrite Z.rem_mul_r by lia. f_equal.
  - unfold u8_of_Z. by rewrite Z.mul_comm, Z.mod_add, Z.mod_mod by lia.
  - rewrite <-(IH (z / 256)). f_equal.
    rewrite Z.mul_comm, Z.div_add, Z.div_small by (try apply Z.mod_pos_bound; lia).
    lia.
Qed.

Lemma from_le_bytes_range l : 0 <= from_le_bytes l < 256 ^ Z.of_nat (length l).
Proof.
  induction l as [|b l IH]; simpl; [lia|].
  rewrite Nat2Z.inj_succ, Z.pow_succ_r by lia. pose proof (u8_to_Z_range b). lia.
Qed.

Lemma to_from_le_bytes l : to_le_bytes (length l) (from_le_bytes l) = l.
Proof.
  induction l as [|b l IH]; simpl; [done|].
  pose proof (u8_to_Z_range b). pose proof (from_le_bytes_range l).
  assert ((u8_to_Z b + 256 * from_le_bytes l) / 256 = from_le_bytes l) as ->.
  { rewrite Z.mul_comm, Z.div_add by lia. rewrite Z.div_small; lia. }
  rewrite IH. f_equal. unfold u8_of_Z.
  rewrite Z.mul_comm, Z.mod_add by lia. fold (u8_of_Z (u8_to_Z b)). apply u8_of_to_Z.
Qed.

(** ** Slices: [&l[a..b]] *)

Definition slice {A} (a b : nat) (l : list A) : list A := take (b - a) (drop a l).

Lemma slice_length {A} a b (l : list A) :
  (a <= b)%nat -> (b <= length l)%nat -> length (slice a b l) = (b - a)%nat.
Proof. intros. unfold slice. rewrite length_take, length_drop. lia. Qed.

(** The middle of an append, the form every header parser meets. *)
Lemma slice_app {A} (l1 l2 l3 : list A) a b :
  a = length l1 -> b = (length l1 + length l2)%nat -> slice a b (l1 ++ l2 ++ l3) = l2.
Proof.
  intros -> ->. unfold slice. rewrite drop_app_length.
  replace (length l1 + length l2 - length l1)%nat with (length l2) by lia.
  apply take_app_length.
Qed.

(** Cutting a list at a known split point. *)
Lemma slice_cat {A} a b c (l : list A) :
  (a <= b)%nat -> (b <= c)%nat -> slice a b l ++ slice b c l = slice a c l.
Proof.
  intros. unfold slice.
  replace (drop b l) with (drop (b - a) (drop a l)) by (rewrite drop_drop; f_equal; lia).
  rewrite take_take_drop. f_equal. lia.
Qed.

Lemma slice_take {A} n (l : list A) : slice 0 n l = take n l.
Proof. unfold slice. by rewrite Nat.sub_0_r. Qed.

Lemma slice_drop {A} n (l : list A) : slice n (length l) l = drop n l.
Proof. unfold slice. apply take_ge. rewrite length_drop. lia. Qed.

(** Reading a prefix's window inside the whole. *)
Lemma slice_of_take {A} a b n (l : list A) : (b <= n)%nat -> slice a b (take n l) = slice a b l.
Proof. intros. unfold slice. rewrite skipn_firstn_comm, take_take. f_equal. lia. Qed.

Lemma slice_of_drop {A} a b n (l : list A) : slice a b (drop n l) = slice (n + a) (n + b) l.
Proof. unfold slice. rewrite drop_drop. by replace (n + b - (n + a))%nat with (b - a)%nat by lia. Qed.

Lemma slice_app_l {A} a b (l1 l2 : list A) : (b <= length l1)%nat -> slice a b (l1 ++ l2) = slice a b l1.
Proof.
  intros Hb. destruct (decide (a <= b)%nat).
  - unfold slice. rewrite drop_app_le by lia. apply take_app_le. rewrite length_drop. lia.
  - unfold slice. by replace (b - a)%nat with 0%nat by lia.
Qed.

Lemma slice_app_r {A} a b (l1 l2 : list A) :
  (length l1 <= a)%nat -> slice a b (l1 ++ l2) = slice (a - length l1) (b - length l1) l2.
Proof. intros Ha. unfold slice. rewrite drop_app_ge by lia. f_equal. lia. Qed.

Lemma drop_split {A} (l a b : list A) : l = a ++ b -> drop (length a) l = b.
Proof. intros ->. apply drop_app_length. Qed.

Lemma take_split {A} (l a b : list A) : l = a ++ b -> take (length l - length b) l = a.
Proof. intros ->. rewrite length_app, Nat.add_sub. apply take_app_length. Qed.

Lemma lookup_insert_cases {A} (l : list A) i j x y :
  <[i := x]> l !! j = Some y -> (j = i /\ y = x) \/ (j <> i /\ l !! j = Some y).
Proof. rewrite list_lookup_insert_Some. intros [(-> & -> & _)|[? ?]]; auto. Qed.

(** [b"..."] literals *)
Definition bytes_of (s : string) : list u8 := String.list_byte_of_string s.

(** ** Sums *)

Definition sumZ {A} (f : A -> Z) (l : list A) : Z := foldr (fun x acc => f x + acc) 0 l.

Lemma sumZ_app {A} (f : A -> Z) l1 l2 : sumZ f (l1 ++ l2) = sumZ f l1 + sumZ f l2.
Proof. unfold sumZ. induction l1 as [|x l1 IH]; simpl; [done|]. rewrite IH. lia. Qed.

Lemma sumZ_nonneg {A} (f : A -> Z) l : Forall (fun x => 0 <= f x) l -> 0 <= sumZ f l.
Proof. induction 1 as [|x l Hx Hl IH]; simpl in *; unfold sumZ in *; simpl; lia. Qed.

Lemma sumZ_zero {A} (f : A -> Z) l : (forall x, f x = 0) -> sumZ f l = 0.
Proof.
  intros Hf. unfold sumZ. induction l as [|x l IH]; simpl; [done|]. by rewrite Hf, IH.
Qed.

Lemma sumZ_all_zero {A} (f : A -> Z) l : (forall x, x ∈ l -> f x = 0) -> sumZ f l = 0.
Proof.
  intros Hf. unfold sumZ. induction l as [|x l IH]; simpl; [done|].
  rewrite Hf by left. rewrite IH; [done|]. intros y Hy. apply Hf. by right.
Qed.

Lemma sumZ_ext {A} (f g : A -> Z) l : (forall x, x ∈ l -> f x = g x) -> sumZ f l = sumZ g l.
Proof.
  intros Hf. unfold sumZ. induction l as [|x l IH]; simpl; [done|].
  rewrite Hf by left. rewrite IH; [done|]. intros y Hy. apply Hf. by right.
Qed.

Lemma sumZ_sub {A} (f g : A -> Z) l : sumZ (fun x => f x - g x) l = sumZ f l - sumZ g l.
Proof. unfold sumZ. induction l as [|x l IH]; simpl; [done|]. rewrite IH. lia. Qed.

Lemma sumZ_insert {A} (f : A -> Z) (l : list A) i x y :
  l !! i = Some x -> sumZ f (<[i := y]> l) = sumZ f l - f x + f y.
Proof.
  unfold sumZ. revert i. induction l as [|z l IH]; intros i Hi; [done|].
  destruct i as [|i]; simplify_eq/=; [lia|]. rewrite (IH _ Hi). lia.
Qed.

Lemma sumZ_lookup_le {A} (f : A -> Z) (l : list A) i x :
  (forall y, y ∈ l -> 0 <= f y) -> l !! i = Some x -> f x <= sumZ f l.
Proof.
  intros Hf Hi. rewrite <-(take_drop_middle l i x Hi), sumZ_app.
  assert (0 <= sumZ f (take i l) /\ 0 <= sumZ f (drop (S i) l)) as [??].
  { split; apply sumZ_nonneg, Forall_forall; intros y Hy; apply Hf.
    - by apply elem_of_take in Hy as (? & ?%list_elem_of_lookup_2 & _).
    - apply list_elem_of_lookup in Hy as [j Hy]. rewrite lookup_drop in Hy. by eapply list_elem_of_lookup_2. }
  change (sumZ f (x :: drop (S i) l)) with (f x + sumZ f (drop (S i) l)). lia.
Qed.

Lemma sumZ_Permutation {A} (f : A -> Z) l1 l2 : l1 ≡ₚ l2 -> sumZ f l1 = sumZ f l2.
Proof. unfold sumZ. induction 1; simpl in *; lia. Qed.

Lemma sumZ_fmap {A B} (g : A -> B) (f : B -> Z) l : sumZ f (g <$> l) = sumZ (f ∘ g) l.
Proof. unfold sumZ. induction l as [|x l IH]; csimpl; [done|]. by rewrite IH. Qed.

(** Sum of a measure over the values of a finite map. *)
Definition sum_map {K A} `{Countable K} (f : A -> Z) (m : gmap K A) : Z :=
  sumZ (fun kv => f kv.2) (map_to_list m).

Section sum_map.
Context {K A : Type} `{Countable K} (f : A -> Z).
Implicit Types m : gmap K A.

Lemma sum_map_empty : sum_map f (∅ : gmap K A) = 0.
Proof. unfold sum_map. by rewrite map_to_list_empty. Qed.

Lemma sum_map_insert_None m k v :
  m !! k = None -> sum_map f (<[k := v]> m) = f v + sum_map f m.
Proof.
  intros Hk. unfold sum_map.
  by rewrite (sumZ_Permutation _ _ _ (map_to_list_insert m k v Hk)).
Qed.

Lemma sum_map_delete m k v :
  m !! k = Some v -> sum_map f (delete k m) = sum_map f m - f v.
Proof.
  intros Hk. rewrite <-(insert_delete_id m k v Hk) at 2.
  rewrite sum_map_insert_None by apply lookup_delete_eq. lia.
Qed.

Lemma sum_map_insert_Some m k v w :
  m !! k = Some v -> sum_map f (<[k := w]> m) = sum_map f m - f v + f w.
Proof.
  intros Hk. rewrite <-(insert_delete_eq m k w).
  rewrite sum_map_insert_None by apply lookup_delete_eq.
  rewrite (sum_map_delete _ _ _ Hk). lia.
Qed.

Lemma sum_map_nonneg m : (forall k v, m !! k = Some v -> 0 <= f v) -> 0 <= sum_map f m.
Proof.
  intros Hf. apply sumZ_nonneg, Forall_forall. intros [k v] Hkv.
  apply elem_of_map_to_list in Hkv. by apply (Hf k).
Qed.

Lemma sum_map_lookup_le m k v :
  (forall k v, m !! k = Some v -> 0 <= f v) -> m !! k = Some v -> f v <= sum_map f m.
Proof.
  intros Hf Hk. pose proof (sum_map_delete _ _ _ Hk).
  assert (0 <= sum_map f (delete k m)); [|lia].
  apply sum_map_nonneg. intros k' v' [_ Hk']%lookup_delete_Some. by apply (Hf k').
Qed.
End sum_map.

(** ** Interleavings

    A pool of threads over one shared state: a step of the pool is a step of
    one thread.  [rtc] of [pool_step] is every schedule. *)

Section interleave.
Context {Sh Th : Type} (thread_step : Sh -> Th -> Sh -> Th -> Prop).

Inductive pool_step : Sh * list Th -> Sh * list Th -> Prop :=
| pool_step_intro s ts i t s' t' :
    ts !! i = Some t -> thread_step s t s' t' ->
    pool_step (s, ts) (s', <[i := t']> ts).

(** Rule induction over a schedule, for an invariant of the whole pool. *)
Lemma pool_invariant (I : Sh -> list Th -> Prop) :
  (forall s ts i t s' t', I s ts -> ts !! i = Some t -> thread_step s t s' t' ->
     I s' (<[i := t']> ts)) ->
  forall s ts s' ts', rtc pool_step (s, ts) (s', ts') -> I s ts -> I s' ts'.
Proof.
  intros Hstep s ts s' ts' Hrtc.
  remember (s, ts) as c eqn:Hc. remember (s', ts') as c' eqn:Hc'.
  revert s ts Hc. induction Hrtc as [|c1 c2 c3 H12 _ IH]; intros s ts ->; [by simplify_eq|].
  inversion H12; simplify_eq. intros HI. eapply IH; eauto.
Qed.
End interleave.

(** ** Automation shared by the components *)

#[global] Arguments to_le_bytes : simpl never.
#[global] Arguments from_le_bytes : simpl never.

Create HintDb twasm.
#[export] Hint Resolve u8_to_Z_range from_le_bytes_range sumZ_nonneg : twasm.

Create Rewrite HintDb twasm.
#[export] Hint Rewrite length_to_le_bytes @length_app @length_take @length_drop : twasm.

Ltac len := autorewrite with twasm in *; simpl in *; try lia.
