(* ===== verification/Core.v ===== *)
(** * [tensor-wasm-core]: identifiers, errors and redaction

    Models [crates/tensor-wasm-core/src/types.rs] (tenant identifiers),
    [error.rs] (the error type every crate returns, its retry classification,
    the shared allocation predicate and the scanner that masks sensitive
    tokens before a diagnostic reaches an operator log) and the
    [DriverMemPool] trait of [mem_pool.rs].  Strings are their UTF-8 bytes;
    every character the scanner tests is ASCII, so byte and character scans
    agree. *)

From S2P Require Import Prelude.

Abbreviation str := (list u8).

(** ** Tenant identifiers *)

Module Types.
Definition RESERVED_TENANT_ID : Z := u64_max.

Definition try_new (id : Z) : result Z Z :=
  if id =? RESERVED_TENANT_ID then Err id else Ok id.

Definition is_reserved (id : Z) : bool := id =? RESERVED_TENANT_ID.
Definition is_valid (id : Z) : bool := negb (is_reserved id).
End Types.

(** ** Errors *)

Inductive ErrorKind :=
| NotFound | PermissionDenied | ConnectionRefused | ConnectionReset
| ConnectionAborted | NotConnected | AddrInUse | AddrNotAvailable
| BrokenPipe | AlreadyExists | WouldBlock | InvalidInput | InvalidData
| TimedOut | WriteZero | Interrupted | Unsupported | UnexpectedEof
| OutOfMemory | OtherKind.

#[global] Instance ErrorKind_eq_dec : EqDecision ErrorKind.
Proof. solve_decision. Defined.

Inductive TensorWasmError :=
| CudaError (s : str)
| WasmTrap (s : str)
| WasmCompile (s : str)
| MemoryExhausted (requested limit : Z)
| GpuMemoryExhausted (requested limit current : Z)
| KernelTimeout (elapsed_ms deadline_ms : Z)
| TenantIsolationViolation (tenant_id : Z) (resource : str)
| Io (kind : ErrorKind)
| Serialization (s : str)
| SnapshotTooOld (created_unix_ms now_unix_ms max_age_ms : Z).

#[global] Instance TensorWasmError_eq_dec : EqDecision TensorWasmError.
Proof. solve_decision. Defined.

Definition is_retryable_io_kind (k : ErrorKind) : bool :=
  match k with
  | WouldBlock | TimedOut | Interrupted | WriteZero
  | ConnectionReset | ConnectionAborted | BrokenPipe => true
  | _ => false
  end.

Definition is_retryable (e : TensorWasmError) : bool :=
  match e with
  | KernelTimeout _ _ | MemoryExhausted _ _ => true
  | Io k => is_retryable_io_kind k
  | _ => false
  end.

(** [TensorWasmError::inner] *)
Definition inner (e : TensorWasmError) : option str :=
  match e with
  | CudaError s | WasmTrap s | WasmCompile s | Serialization s => Some s
  | _ => None
  end.

Definition check_allocation (current requested cap : Z) : result TensorWasmError unit :=
  if default false ((fun new_total => new_total <=? cap) <$> checked_add u64_max current requested)
  then Ok ()
  else Err (GpuMemoryExhausted requested cap current).

Lemma check_allocation_Ok current requested cap :
  cap <= u64_max -> check_allocation current requested cap = Ok () <-> current + requested <= cap.
Proof.
  intros. unfold check_allocation.
  destruct (checked_add u64_max current requested) as [t|] eqn:Ht; simpl; bool_props.
  - subst. case_match; bool_props; split; intros; try done; lia.
  - split; [done|lia].
Qed.

(** ** Redaction of diagnostics *)

Module Redact.
Local Open Scope byte_scope.

Definition LONG_HEX_THRESHOLD : nat := 16.

Definition is_ascii_digit (b : u8) : bool :=
  (u8_to_Z "0" <=? u8_to_Z b)%Z && (u8_to_Z b <=? u8_to_Z "9")%Z.
Definition is_ascii_lower (b : u8) : bool :=
  (u8_to_Z "a" <=? u8_to_Z b)%Z && (u8_to_Z b <=? u8_to_Z "z")%Z.
Definition is_ascii_upper (b : u8) : bool :=
  (u8_to_Z "A" <=? u8_to_Z b)%Z && (u8_to_Z b <=? u8_to_Z "Z")%Z.
Definition is_ascii_alphabetic (b : u8) : bool := is_ascii_lower b || is_ascii_upper b.

(** [u8::is_ascii_whitespace]: space, tab, line feed, form feed, carriage return *)
Definition is_ascii_whitespace (b : u8) : bool :=
  match b with
  | Byte.x20 | Byte.x09 | Byte.x0a | Byte.x0c | Byte.x0d => true
  | _ => false
  end.

Definition is_hex_digit (b : u8) : bool :=
  is_ascii_digit b
  || ((u8_to_Z "a" <=? u8_to_Z b)%Z && (u8_to_Z b <=? u8_to_Z "f")%Z)
  || ((u8_to_Z "A" <=? u8_to_Z b)%Z && (u8_to_Z b <=? u8_to_Z "F")%Z).

Definition is_token_separator (c : u8) : bool :=
  match c with
  | "[" | "]" | "(" | ")" | "{" | "}" | "=" | "," | ";" => true
  | _ => false
  end.

(** [0x22] is the double quote *)
Definition is_peelable_punct (c : u8) : bool :=
  match c with
  | ":" | "," | ";" | "." | "(" | ")" | "[" | "]" | "{" | "}" | "'" | Byte.x22 | "`" => true
  | _ => false
  end.

Definition is_delimiter (b : u8) : bool := is_ascii_whitespace b || is_token_separator b.

(** The longest prefix whose bytes satisfy [p], and what follows it. *)
Fixpoint span (p : u8 -> bool) (s : str) : str * str :=
  match s with
  | [] => ([], [])
  | b :: s' => if p b then (b :: (span p s').1, (span p s').2) else ([], s)
  end.

Definition trim_start_matches (p : u8 -> bool) (s : str) : str := (span p s).2.
Definition trim_end_matches (p : u8 -> bool) (s : str) : str :=
  reverse (trim_start_matches p (reverse s)).

Definition MASK : str := bytes_of "<redacted>".

(** The shape rules of [redact_token], on a token with its punctuation peeled. *)
Definition is_sensitive (core : str) : bool :=
  match core with
  | b0 :: b1 :: b2 :: rest =>
      (bool_decide (b0 = "0") && (bool_decide (b1 = "x") || bool_decide (b1 = "X"))
       && forallb is_hex_digit (b2 :: rest))
      || (is_ascii_alphabetic b0 && bool_decide (b1 = ":")
          && (bool_decide (b2 = "\") || bool_decide (b2 = "/"))
          && negb (bool_decide (rest = [])))
      || (bool_decide (b0 = "\") && bool_decide (b1 = "\"))
  | _ => false
  end
  || match core with
     | b0 :: rest => bool_decide (b0 = "/") && existsb (fun b => bool_decide (b = "/")) rest
     | [] => false
     end
  || ((LONG_HEX_THRESHOLD <=? length core)%nat && forallb is_hex_digit core).

(** The peeled core of a token, with the punctuation around it. *)
Definition after_trailing (token : str) : str := trim_end_matches is_peelable_punct token.
Definition core_of (token : str) : str :=
  trim_start_matches is_peelable_punct (after_trailing token).
Definition suffix_of (token : str) : str := drop (length (after_trailing token)) token.
Definition prefix_of (token : str) : str :=
  take (length (after_trailing token) - length (core_of token)) (after_trailing token).

Definition redact_token (token : str) : str :=
  match core_of token with
  | [] => token
  | core => if is_sensitive core then prefix_of token ++ MASK ++ suffix_of token else token
  end.

Fixpoint redact_go (fuel : nat) (s : str) : str :=
  match fuel, s with
  | S fuel, b :: s' =>
      if is_delimiter b then b :: redact_go fuel s'
      else let '(token, rest) := span (fun b => negb (is_delimiter b)) s in
           redact_token token ++ redact_go fuel rest
  | _, _ => []
  end.

Definition redact (s : str) : str := redact_go (length s) s.
End Redact.

(** [TensorWasmError::redacted_inner] *)
Definition redacted_inner (e : TensorWasmError) : option str := Redact.redact <$> inner e.

(** ** The driver pool a tenant context may be given

    [DriverMemPool] is implemented by CUDA-only code; the accounting layer
    relies on nothing but its signature. *)

Inductive MemPoolError :=
| Create (s : str)
| SetAttribute (s : str)
| NotInitialized
| Device (s : str).

Class DriverMemPool (P : Type) := {
  set_release_threshold : P -> Z -> result MemPoolError () * P;
  release_threshold : P -> option Z;
}.

(** ** What redaction guarantees

    [pieces] cuts a string the way [redact] scans it: single delimiters and
    the maximal delimiter-free runs between them. *)

Module RedactFacts.
Import Redact.

Inductive piece :=
| Delim (b : u8)
| Token (t : str).

Definition render1 (p : piece) : str :=
  match p with Delim b => [b] | Token t => t end.
Definition render (ps : list piece) : str := concat (render1 <$> ps).

Fixpoint pieces_go (fuel : nat) (s : str) : list piece :=
  match fuel, s with
  | S fuel, b :: s' =>
      if is_delimiter b then Delim b :: pieces_go fuel s'
      else let '(token, rest) := span (fun b => negb (is_delimiter b)) s in
           Token token :: pieces_go fuel rest
  | _, _ => []
  end.

Definition pieces (s : str) : list piece := pieces_go (length s) s.

Definition redact_piece (p : piece) : piece :=
  match p with Delim b => Delim b | Token t => Token (redact_token t) end.

Lemma redact_go_render fuel s :
  redact_go fuel s = render (redact_piece <$> pieces_go fuel s).
Proof.
  revert s. induction fuel as [|fuel IH]; intros [|b s]; try done.
  cbn [redact_go pieces_go]. destruct (is_delimiter b).
  - rewrite IH. done.
  - destruct (span _ _). rewrite IH. done.
Qed.

Lemma span_app p s : s = (span p s).1 ++ (span p s).2.
Proof. induction s as [|b s IH]; simpl; [done|]. destruct (p b); simpl; congruence. Qed.

Lemma span_fst p s : Forall (fun b => p b = true) (span p s).1.
Proof. induction s as [|b s IH]; simpl; [by constructor|]. destruct (p b) eqn:E; simpl; by constructor. Qed.

Lemma span_snd p s : match (span p s).2 with [] => True | b :: _ => p b = false end.
Proof. induction s as [|b s IH]; simpl; [done|]. destruct (p b) eqn:E; simpl; done. Qed.

(** [span] stops exactly at the first byte that fails the test. *)
Lemma span_stop p a b :
  Forall (fun b => p b = true) a -> match b with [] => True | x :: _ => p x = false end ->
  span p (a ++ b) = (a, b).
Proof.
  intros Ha Hb. induction Ha as [|x a Hx Ha IH]; simpl.
  - destruct b; simpl; [done|]. by rewrite Hb.
  - by rewrite Hx, IH.
Qed.

Definition starts_token (ps : list piece) : Prop :=
  match ps with Token _ :: _ => True | _ => False end.

(** The shape of every list [pieces] returns. *)
Fixpoint wf_pieces (ps : list piece) : Prop :=
  match ps with
  | [] => True
  | Delim b :: ps => is_delimiter b = true /\ wf_pieces ps
  | Token t :: ps =>
      t <> [] /\ Forall (fun b => negb (is_delimiter b) = true) t /\ ~ starts_token ps /\ wf_pieces ps
  end.

Lemma render_head ps :
  wf_pieces ps -> ~ starts_token ps ->
  match render ps with [] => True | x :: _ => negb (is_delimiter x) = false end.
Proof.
  destruct ps as [|[b|t] ps]; simpl; [done| |done].
  intros [-> _] _. done.
Qed.

Lemma pieces_render fuel ps :
  wf_pieces ps -> (length (render ps) <= fuel)%nat -> pieces_go fuel (render ps) = ps.
Proof.
  revert fuel. induction ps as [|[b|t] ps IH]; intros fuel Hwf Hlen.
  - by destruct fuel.
  - destruct Hwf as [Hb Hwf]. unfold render in Hlen |- *; csimpl in *. fold (render ps) in *.
    destruct fuel as [|fuel]; [lia|]. cbn. rewrite Hb. f_equal. apply IH; [done|lia].
  - destruct Hwf as (Hne & Ht & Hstart & Hwf).
    unfold render in Hlen |- *; csimpl in *. fold (render ps) in *.
    rewrite length_app in Hlen.
    destruct t as [|b t]; [done|].
    destruct fuel as [|fuel]; [simpl in Hlen; lia|].
    assert (is_delimiter b = false) as Hb by (inversion Ht; subst; by apply negb_true_iff).
    cbn [pieces_go app]. rewrite Hb. change (b :: t ++ render ps) with ((b :: t) ++ render ps).
    rewrite span_stop; [|done|by apply render_head].
    f_equal. apply IH; [done|]. simpl in Hlen. lia.
Qed.

Lemma pieces_wf fuel s : wf_pieces (pieces_go fuel s).
Proof.
  revert s. induction fuel as [|fuel IH]; intros [|b s]; try done.
  cbn [pieces_go]. destruct (is_delimiter b) eqn:Hb; [by split|].
  destruct (span _ (b :: s)) as [t rest] eqn:Hs.
  pose proof (span_fst (fun b => negb (is_delimiter b)) (b :: s)) as H1.
  pose proof (span_snd (fun b => negb (is_delimiter b)) (b :: s)) as H2.
  rewrite Hs in H1, H2. simpl in *. rewrite Hb in Hs. simpl in Hs.
  split_and!; [by simplify_eq|done| |done].
  destruct fuel as [|fuel], rest as [|x rest]; try tauto.
  cbn. apply negb_false_iff in H2. rewrite H2. simpl. tauto.
Qed.

(** A token is its prefix, its core and its suffix. *)
Lemma trailing_split token :
  token = after_trailing token ++ reverse (span is_peelable_punct (reverse token)).1.
Proof.
  pose proof (span_app is_peelable_punct (reverse token)) as H.
  apply (f_equal reverse) in H. by rewrite reverse_involutive, reverse_app in H.
Qed.

Lemma suffix_of_eq token : suffix_of token = reverse (span is_peelable_punct (reverse token)).1.
Proof. apply drop_split, trailing_split. Qed.

Lemma prefix_of_eq token : prefix_of token = (span is_peelable_punct (after_trailing token)).1.
Proof. apply take_split, span_app. Qed.

Lemma token_split token : token = (prefix_of token ++ core_of token) ++ suffix_of token.
Proof.
  rewrite suffix_of_eq, prefix_of_eq. rewrite (trailing_split token) at 1.
  f_equal. apply span_app.
Qed.

Lemma suffix_peelable token : Forall (fun b => is_peelable_punct b = true) (suffix_of token).
Proof. rewrite suffix_of_eq. apply Forall_reverse, span_fst. Qed.

Lemma prefix_peelable token : Forall (fun b => is_peelable_punct b = true) (prefix_of token).
Proof. rewrite prefix_of_eq. apply span_fst. Qed.

(** Peeling a masked token gives back the mask. *)
Lemma core_of_masked pre suf :
  Forall (fun b => is_peelable_punct b = true) pre ->
  Forall (fun b => is_peelable_punct b = true) suf ->
  core_of (pre ++ MASK ++ suf) = MASK.
Proof.
  intros Hpre Hsuf. unfold core_of, after_trailing, trim_end_matches, trim_start_matches.
  rewrite !reverse_app, <-app_assoc. rewrite span_stop; [|by apply Forall_reverse|done].
  cbn [snd]. rewrite reverse_app, !reverse_involutive. by rewrite span_stop.
Qed.

Lemma redact_token_clean token : is_sensitive (core_of (redact_token token)) = false.
Proof.
  unfold redact_token. destruct (core_of token) as [|b core] eqn:Hc; [by rewrite Hc|].
  destruct (is_sensitive (b :: core)) eqn:Hs; [|by rewrite Hc].
  rewrite core_of_masked; [done|apply prefix_peelable|apply suffix_peelable].
Qed.

Lemma redact_token_id token : is_sensitive (core_of token) = false -> redact_token token = token.
Proof.
  intros Hs. unfold redact_token. destruct (core_of token); [done|]. by rewrite Hs.
Qed.

Lemma redact_token_wf token :
  token <> [] -> Forall (fun b => negb (is_delimiter b) = true) token ->
  redact_token token <> [] /\ Forall (fun b => negb (is_delimiter b) = true) (redact_token token).
Proof.
  intros Hne Ht. unfold redact_token.
  destruct (core_of token) as [|b core]; [done|]. destruct (is_sensitive _); [|done].
  split; [by destruct (prefix_of token)|].
  rewrite (token_split token) in Ht. apply Forall_app in Ht as [[Hp _]%Forall_app Hsuf].
  rewrite !Forall_app. split_and!; [done| |done]. by repeat constructor.
Qed.

Lemma redact_pieces_wf ps : wf_pieces ps -> wf_pieces (redact_piece <$> ps).
Proof.
  induction ps as [|[b|t] ps IH]; [done| |].
  - intros [Hb Hwf]. split; [done|by apply IH].
  - intros (Hne & Ht & Hst & Hwf). destruct (redact_token_wf t Hne Ht) as [Hne' Ht'].
    csimpl. split_and!; [done..| |by apply IH]. by destruct ps as [|[]].
Qed.

(** Scanning the output of [redact] finds the scanned pieces of its input,
    each redacted. *)
Lemma redact_pieces s : pieces (redact s) = redact_piece <$> pieces s.
Proof.
  unfold pieces, redact. rewrite redact_go_render.
  apply pieces_render; [|done]. apply redact_pieces_wf, pieces_wf.
Qed.

Lemma pieces_render_id fuel s : (length s <= fuel)%nat -> render (pieces_go fuel s) = s.
Proof.
  revert s. induction fuel as [|fuel IH]; intros [|b s] Hlen; try done; [simpl in *; lia|].
  cbn [pieces_go]. destruct (is_delimiter b) eqn:Hb.
  - unfold render. csimpl. f_equal. apply IH. simpl in Hlen. lia.
  - pose proof (span_app (fun b => negb (is_delimiter b)) (b :: s)) as Hs.
    destruct (span _ (b :: s)) as [t rest] eqn:E. simpl in Hs.
    unfold render. csimpl. fold (render (pieces_go fuel rest)).
    rewrite IH; [done|]. simpl in E. rewrite Hb in E. simplify_eq/=.
    apply (f_equal length) in Hs. rewrite length_app in Hs. simpl in *. lia.
Qed.

Lemma redact_clean_id s :
  Forall (fun p => match p with Token t => is_sensitive (core_of t) = false | _ => True end)
    (pieces s) -> redact s = s.
Proof.
  intros Hall. unfold redact. rewrite redact_go_render. fold (pieces s).
  transitivity (render (pieces s)); [|by apply pieces_render_id]. f_equal.
  induction Hall as [|[b|t] ps Hp _ IH]; csimpl; [done|by rewrite IH|].
  by rewrite IH, (redact_token_id _ Hp).
Qed.

(** ** What is secret

    The shapes, delimiters and punctuation that the documentation of
    [redacted_inner] lists, spelled out on bytes. *)
Definition delimiters : list u8 := [Byte.x20; Byte.x09; Byte.x0a; Byte.x0c; Byte.x0d] ++ bytes_of "[](){}=,;".
Definition punctuation : list u8 := Byte.x22 :: bytes_of ":,;.()[]{}'`".
Definition hex_digits : list u8 := bytes_of "0123456789abcdefABCDEF".
Definition letters : list u8 := bytes_of "abcdefghijklmnopqrstuvwxyzABCDEFGHIJKLMNOPQRSTUVWXYZ".

Inductive secret : str -> Prop :=
| secret_pointer x ds : x ∈ bytes_of "xX" -> ds <> [] -> Forall (.∈ hex_digits) ds -> secret (bytes_of "0" ++ x :: ds)
| secret_path body rest : secret (bytes_of "/" ++ body ++ bytes_of "/" ++ rest)
| secret_drive l sep body : l ∈ letters -> sep ∈ bytes_of "\/" -> body <> [] -> secret (l :: bytes_of ":" ++ sep :: body)
| secret_unc body : body <> [] -> secret (bytes_of "\\" ++ body)
| secret_hex ds : (16 <= length ds)%nat -> Forall (.∈ hex_digits) ds -> secret ds.

(** [s] is [a], a delimiter-free run and [b], cut at delimiters or the ends of
    the text; the run is [core] with the punctuation [pre] and [suf] around it. *)
Record token_at (s a pre core suf b : str) : Prop := {
  ta_split : s = a ++ (pre ++ core ++ suf) ++ b;
  ta_left x : last a = Some x -> x ∈ delimiters;
  ta_right x : head b = Some x -> x ∈ delimiters;
  ta_run : Forall (.∉ delimiters) (pre ++ core ++ suf);
  ta_pre : Forall (.∈ punctuation) pre;
  ta_suf : Forall (.∈ punctuation) suf;
  ta_core : core <> [];
  ta_first x : head core = Some x -> x ∉ punctuation;
  ta_last x : last core = Some x -> x ∉ punctuation;
}.

Lemma is_delimiter_spec b : is_delimiter b = bool_decide (b ∈ delimiters).
Proof. by destruct b. Qed.

Lemma is_peelable_spec b : is_peelable_punct b = bool_decide (b ∈ punctuation).
Proof. by destruct b. Qed.

Lemma is_hex_digit_spec b : is_hex_digit b = bool_decide (b ∈ hex_digits).
Proof. by destruct b. Qed.

Lemma is_alphabetic_spec b : is_ascii_alphabetic b = bool_decide (b ∈ letters).
Proof. by destruct b. Qed.

Lemma forallb_hex ds : forallb is_hex_digit ds = true <-> Forall (.∈ hex_digits) ds.
Proof.
  rewrite forallb_forall, Forall_forall. setoid_rewrite <-list_elem_of_In. setoid_rewrite is_hex_digit_spec.
  by setoid_rewrite bool_decide_eq_true.
Qed.

Lemma sensitive_secret core : is_sensitive core = true -> secret core.
Proof.
  unfold is_sensitive. rewrite !orb_true_iff, !andb_true_iff, forallb_hex, Nat.leb_le.
  intros [[H|H]|[? ?]]; [| |by apply secret_hex].
  - destruct core as [|b0 [|b1 [|b2 rest]]]; try done.
    rewrite !orb_true_iff, !andb_true_iff, !orb_true_iff, forallb_hex, is_alphabetic_spec, negb_true_iff in H.
    rewrite !bool_decide_eq_true, bool_decide_eq_false in H.
    destruct H as [[[[-> Hx] Hd]|[[[Hl ->] Hs] Hr]]|[-> ->]].
    + apply (secret_pointer b1); [|done..]. destruct Hx as [-> | ->]; by apply (bool_decide_unpack _).
    + apply (secret_drive b0 b2); [done| |done]. destruct Hs as [-> | ->]; by apply (bool_decide_unpack _).
    + by apply (secret_unc (b2 :: rest)).
  - destruct core as [|b0 core]; [done|]. apply andb_true_iff in H as [->%bool_decide_eq_true H].
    apply existsb_exists in H as (x & Hx & ->%bool_decide_eq_true).
    apply list_elem_of_In, list_elem_of_split in Hx as (l1 & l2 & ->). apply (secret_path l1 l2).
Qed.

Lemma secret_sensitive core : secret core -> is_sensitive core = true.
Proof.
  destruct 1 as [x ds Hx Hne Hd|body rest|l sep body Hl Hs Hb|body Hb|ds Hlen Hd]; unfold is_sensitive;
    rewrite !orb_true_iff, !andb_true_iff.
  - left; left. destruct ds as [|d ds]; [done|].
    change (bytes_of "0" ++ x :: d :: ds) with (Byte.x30 :: x :: d :: ds). cbv beta iota. rewrite (proj2 (forallb_hex _) Hd).
    by apply list_elem_of_In in Hx as [<-|[<-|[]]].
  - left; right. cbn. apply existsb_exists. exists Byte.x2f. split; [apply in_or_app; right; by left|done].
  - left; left. destruct body as [|d body]; [done|].
    change (l :: bytes_of ":" ++ sep :: d :: body) with (l :: Byte.x3a :: sep :: d :: body). cbv beta iota.
    rewrite is_alphabetic_spec, (bool_decide_true _ Hl).
    apply list_elem_of_In in Hs as [<-|[<-|[]]]; cbn; by rewrite ?orb_true_r.
  - left; left. destruct body as [|d body]; [done|]. cbn. by rewrite ?orb_true_r.
  - right. by rewrite Nat.leb_le, forallb_hex.
Qed.

Lemma secret_spec core : is_sensitive core = true <-> secret core.
Proof. split; [apply sensitive_secret|apply secret_sensitive]. Qed.

(** *** Tokens and pieces *)
Lemma peel_forall bs : Forall (.∈ punctuation) bs <-> Forall (fun b => is_peelable_punct b = true) bs.
Proof. apply Forall_iff. intros b. by rewrite is_peelable_spec, bool_decide_eq_true. Qed.

Lemma run_forall bs : Forall (.∉ delimiters) bs <-> Forall (fun b => negb (is_delimiter b) = true) bs.
Proof. apply Forall_iff. intros b. by rewrite is_delimiter_spec, negb_true_iff, bool_decide_eq_false. Qed.

Lemma kept_punctuation b : b ∉ punctuation -> is_peelable_punct b = false.
Proof. by rewrite is_peelable_spec, bool_decide_eq_false. Qed.

(** Peeling finds the core of a token. *)
Lemma core_of_token s a pre core suf b : token_at s a pre core suf b -> core_of (pre ++ core ++ suf) = core.
Proof.
  intros [_ _ _ _ Hpre%peel_forall Hsuf%peel_forall Hne Hfirst Hlast].
  unfold core_of, after_trailing, trim_end_matches, trim_start_matches.
  rewrite !reverse_app, <-app_assoc, span_stop; [|by apply Forall_reverse|].
  - cbn [snd]. rewrite reverse_app, !reverse_involutive, span_stop; [done..|]. cbn.
    destruct core; [done|]. by apply kept_punctuation, Hfirst.
  - destruct core as [|x core] using rev_ind; [done|]. rewrite reverse_snoc. cbn.
    apply kept_punctuation, Hlast. by rewrite last_snoc.
Qed.

Lemma prefix_suffix_token s a pre core suf b :
  token_at s a pre core suf b -> prefix_of (pre ++ core ++ suf) = pre /\ suffix_of (pre ++ core ++ suf) = suf.
Proof.
  intros Ht. pose proof (core_of_token _ _ _ _ _ _ Ht) as Hcore. destruct Ht as [_ _ _ _ _ Hsuf%peel_forall Hne _ Hlast].
  assert (after_trailing (pre ++ core ++ suf) = pre ++ core) as Hat.
  { unfold after_trailing, trim_end_matches, trim_start_matches.
    rewrite !reverse_app, <-app_assoc, span_stop; [|by apply Forall_reverse|].
    - cbn [snd]. by rewrite reverse_app, !reverse_involutive.
    - destruct core as [|x core] using rev_ind; [done|]. rewrite reverse_snoc. cbn.
      apply kept_punctuation, Hlast. by rewrite last_snoc. }
  unfold prefix_of, suffix_of. rewrite Hat, Hcore. split.
  - rewrite length_app, Nat.add_sub. apply take_app_length.
  - rewrite app_assoc. apply drop_app_length.
Qed.

Lemma render_app ps qs : render (ps ++ qs) = render ps ++ render qs.
Proof. unfold render. by rewrite fmap_app, concat_app. Qed.

Lemma pieces_id s : render (pieces s) = s.
Proof. by apply pieces_render_id. Qed.

Lemma redact_render s : redact s = render (redact_piece <$> pieces s).
Proof. apply redact_go_render. Qed.

Definition ends_token (ps : list piece) : Prop := match last ps with Some (Token _) => True | _ => False end.

Lemma wf_app ps qs : wf_pieces ps -> wf_pieces qs -> (ends_token ps -> ~ starts_token qs) -> wf_pieces (ps ++ qs).
Proof.
  unfold ends_token. intros Hp Hq Hj. induction ps as [|[x|t] ps IH]; [done|..]; cbn in *.
  - split; [apply Hp|]. apply IH; [apply Hp|]. by destruct ps.
  - destruct Hp as (? & ? & Hst & Hp). split_and!; try done.
    + destruct ps as [|[]]; cbn in *; [by apply Hj|done..].
    + apply IH; [done|]. by destruct ps.
Qed.

Lemma wf_app_r ps qs : wf_pieces (ps ++ qs) -> wf_pieces qs.
Proof. induction ps as [|[] ps IH]; cbn; naive_solver. Qed.

Lemma last_piece ps x : wf_pieces ps -> ends_token ps -> last (render ps) = Some x -> x ∉ delimiters.
Proof.
  unfold ends_token. destruct ps as [|p ps _] using rev_ind; [done|]. rewrite last_snoc. destruct p as [|t]; [done|].
  intros (Hne & Ht%run_forall & _)%wf_app_r _.
  rewrite render_app. unfold render at 2. cbn. rewrite app_nil_r. destruct t as [|y t _] using rev_ind; [done|].
  rewrite app_assoc, last_snoc. intros [= <-]. apply Forall_app in Ht as [_ Ht]. by apply Forall_cons in Ht as [].
Qed.

Lemma first_piece ps x : wf_pieces ps -> starts_token ps -> head (render ps) = Some x -> x ∉ delimiters.
Proof.
  destruct ps as [|[|t] ps]; [done..|]. intros (Hne & Ht%run_forall & _) _. unfold render. cbn.
  destruct t; [done|]. cbn. intros [= <-]. by apply Forall_cons in Ht as [].
Qed.

Lemma pieces_of_wf s ps : wf_pieces ps -> s = render ps -> pieces s = ps.
Proof. intros Hwf ->. by apply pieces_render. Qed.

(** A delimited run of a text is one of its pieces. *)
Lemma pieces_at s a pre core suf b :
  token_at s a pre core suf b -> pieces s = pieces a ++ Token (pre ++ core ++ suf) :: pieces b.
Proof.
  intros [Hs Hl Hr Hrun _ _ Hne _ _]. apply pieces_of_wf.
  - apply wf_app; [apply pieces_wf| |].
    + cbn. split_and!; [by destruct pre, core|by apply run_forall| |apply pieces_wf].
      intros Hst. destruct (head b) as [x|] eqn:Hb; [|by destruct b].
      apply (first_piece (pieces b) x); [apply pieces_wf|done|by rewrite pieces_id|by apply Hr].
    + intros Hend _. destruct (last a) as [x|] eqn:Ha; [|apply last_None in Ha; by subst].
      apply (last_piece (pieces a) x); [apply pieces_wf|done|by rewrite pieces_id|by apply Hl].
  - change (Token ?t :: ?ps) with ([Token t] ++ ps). rewrite !render_app, !pieces_id. unfold render. cbn.
    by rewrite app_nil_r.
Qed.

Lemma redact_at s a pre core suf b :
  token_at s a pre core suf b -> redact s = redact a ++ redact_token (pre ++ core ++ suf) ++ redact b.
Proof.
  intros Ht. rewrite (redact_render s), (pieces_at _ _ _ _ _ _ Ht), fmap_app, render_app, <-redact_render. f_equal.
  by rewrite (redact_render b).
Qed.

Lemma ends_delimited ps t qs x :
  wf_pieces (ps ++ Token t :: qs) -> last (render ps) = Some x -> x ∈ delimiters.
Proof.
  destruct ps as [|p ps _] using rev_ind; [done|]. rewrite <-app_assoc. intros Hwf%wf_app_r.
  rewrite render_app. destruct p as [y|t']; [|by destruct Hwf as (_ & _ & [] & _)]. destruct Hwf as [Hy _].
  unfold render at 2. cbn [render1 fmap list_fmap concat app]. rewrite last_snoc. intros [= <-].
  rewrite is_delimiter_spec in Hy. by apply bool_decide_eq_true in Hy.
Qed.

Lemma core_first t x : head (core_of t) = Some x -> x ∉ punctuation.
Proof.
  unfold core_of, trim_start_matches. pose proof (span_snd is_peelable_punct (after_trailing t)) as Hs.
  destruct (span _ _).2; [done|]. intros [= <-]. rewrite is_peelable_spec in Hs. by apply bool_decide_eq_false in Hs.
Qed.

Lemma core_last t x : last (core_of t) = Some x -> x ∉ punctuation.
Proof.
  intros Hx. assert (last (after_trailing t) = Some x) as Hl.
  { rewrite (span_app is_peelable_punct (after_trailing t)). change (span _ _).2 with (core_of t).
    by rewrite last_app, Hx. }
  unfold after_trailing, trim_end_matches, trim_start_matches in Hl. rewrite last_reverse in Hl.
  pose proof (span_snd is_peelable_punct (reverse t)) as Hs. destruct (span _ _).2; [done|]. injection Hl as ->.
  rewrite is_peelable_spec in Hs. by apply bool_decide_eq_false in Hs.
Qed.

(** A sensitive piece is a delimited run with a secret core. *)
Lemma sensitive_at s t :
  Token t ∈ pieces s -> is_sensitive (core_of t) = true ->
  exists a b, token_at s a (prefix_of t) (core_of t) (suffix_of t) b.
Proof.
  intros Hin Hs. apply list_elem_of_split in Hin as (ps & qs & Hp). pose proof (pieces_wf (length s) s) as Hwf.
  fold (pieces s) in Hwf. rewrite Hp in Hwf. exists (render ps), (render qs).
  pose proof (wf_app_r _ _ Hwf) as (_ & Hrun & Hnst & Hq). pose proof (token_split t) as Ht. rewrite <-app_assoc in Ht.
  split; eauto using ends_delimited, core_first, core_last.
  - by rewrite <-Ht, <-(pieces_id s), Hp, render_app.
  - intros x Hx. apply render_head in Hnst; [|done]. destruct (render qs); [done|]. injection Hx as ->.
    rewrite is_delimiter_spec in Hnst. by apply negb_false_iff, bool_decide_eq_true in Hnst.
  - rewrite <-Ht. by apply run_forall.
  - apply peel_forall, prefix_peelable.
  - apply peel_forall, suffix_peelable.
  - by intros Hnil; rewrite Hnil in Hs.
Qed.

(** C23: redaction hides exactly the secrets.  A delimited run of the text whose
    core -- the run without the punctuation around it -- is a pointer, a Unix,
    Windows or UNC path or a run of sixteen or more hex digits becomes
    [<redacted>] with its punctuation kept; a run with any other core is copied,
    and the text around it is redacted on its own.  No secret is left in the
    result, and a text without one is not changed. *)
Theorem redact_hides_secrets s :
  (forall a pre core suf b, token_at s a pre core suf b ->
     (secret core -> redact s = redact a ++ (pre ++ bytes_of "<redacted>" ++ suf) ++ redact b) /\
     (~ secret core -> redact s = redact a ++ (pre ++ core ++ suf) ++ redact b)) /\
  (forall a pre core suf b, token_at (redact s) a pre core suf b -> ~ secret core) /\
  ((forall a pre core suf b, token_at s a pre core suf b -> ~ secret core) -> redact s = s).
Proof.
  split_and!.
  - intros a pre core suf b Ht. rewrite (redact_at _ _ _ _ _ _ Ht). unfold redact_token.
    rewrite (core_of_token _ _ _ _ _ _ Ht). destruct (prefix_suffix_token _ _ _ _ _ _ Ht) as [-> ->].
    pose proof (ta_core _ _ _ _ _ _ Ht). destruct core as [|x core]; [done|]. rewrite <-secret_spec.
    by destruct (is_sensitive _).
  - intros a pre core suf b Ht Hs%secret_spec. pose proof (pieces_at _ _ _ _ _ _ Ht) as Hp. rewrite redact_pieces in Hp.
    assert (Token (pre ++ core ++ suf) ∈ redact_piece <$> pieces s) as Hin by (rewrite Hp; set_solver).
    apply list_elem_of_fmap in Hin as ([|t] & Heq & _); [done|]. injection Heq as Heq.
    pose proof (redact_token_clean t) as Hc. rewrite <-Heq, (core_of_token _ _ _ _ _ _ Ht) in Hc. congruence.
  - intros Hclean. apply redact_clean_id, Forall_forall. intros [|t] Hin; [done|].
    destruct (is_sensitive (core_of t)) eqn:Hs; [|done]. destruct (sensitive_at s t Hin Hs) as (a & b & Ht).
    destruct (Hclean _ _ _ _ _ Ht). by apply secret_spec.
Qed.

Lemma redact_example :
  redact (bytes_of "at '0x7ffe', addr=C:/x/y (/dev/shm/t); 1 / 2") =
  bytes_of "at '<redacted>', addr=<redacted> (<redacted>); 1 / 2".
Proof. by vm_compute. Qed.

(** redaction is idempotent and leaves the layout alone: delimiters are
    copied through in place, a token that is not sensitive is copied
    verbatim, and redacting twice changes nothing more. *)
Theorem redact_idempotent s :
  redact (redact s) = redact s /\
  (Forall (fun p => match p with Token t => is_sensitive (core_of t) = false | _ => True end)
     (pieces s) -> redact s = s).
Proof.
  split; [|by apply redact_clean_id].
  apply redact_clean_id, Forall_forall. intros [b|t] Hin; [done|].
  apply list_elem_of_In in Hin. rewrite redact_pieces in Hin.
  apply in_map_iff in Hin as ([b|t'] & Ht & _); simplify_eq/=. apply redact_token_clean.
Qed.

Lemma redact_idempotent_witness :
  redact (redact (bytes_of "at 0x7ffe: /a/b")) = redact (bytes_of "at 0x7ffe: /a/b") /\
  redact (bytes_of "byte 42") = bytes_of "byte 42".
Proof.
  split; [apply (proj1 (redact_idempotent _))|].
  apply (proj2 (redact_idempotent _)). vm_compute. by repeat constructor.
Defined.
End RedactFacts.
