(* ===== verification/Text.v ===== *)
(** * Strings of the standard library

    What the code uses of [str]: UTF-8 validity, encoding and lossy decoding,
    character boundaries and substring search, on bytes.  [truncate_chars] is the idiom with which the
    code shortens a message without splitting a character. *)

From S2P Require Import Prelude.

Module Utf8.
Definition in_range (lo hi : Z) (b : u8) : bool := (lo <=? u8_to_Z b) && (u8_to_Z b <=? hi).

(** A continuation byte. *)
Definition cont : u8 -> bool := in_range 128 191.

(** The length of the first character, if the bytes start with one. *)
Definition char_len (s : list u8) : option nat :=
  match s with
  | [] => None
  | b0 :: r =>
      let two lo hi := match r with b1 :: _ => in_range lo hi b1 | _ => false end in
      let third := match r with _ :: b2 :: _ => cont b2 | _ => false end in
      let fourth := match r with _ :: _ :: b3 :: _ => cont b3 | _ => false end in
      if in_range 0 127 b0 then Some 1%nat
      else if in_range 194 223 b0 then if two 128 191 then Some 2%nat else None
      else if in_range 224 224 b0 then if two 160 191 && third then Some 3%nat else None
      else if in_range 237 237 b0 then if two 128 159 && third then Some 3%nat else None
      else if in_range 225 239 b0 then if two 128 191 && third then Some 3%nat else None
      else if in_range 240 240 b0 then if two 144 191 && third && fourth then Some 4%nat else None
      else if in_range 241 243 b0 then if two 128 191 && third && fourth then Some 4%nat else None
      else if in_range 244 244 b0 then if two 128 143 && third && fourth then Some 4%nat else None
      else None
  end.

Fixpoint valid_from (fuel : nat) (s : list u8) : bool :=
  match s with
  | [] => true
  | _ =>
      match fuel with
      | O => false
      | S fuel => match char_len s with Some n => valid_from fuel (drop n s) | None => false end
      end
  end.

(** [str::from_utf8] succeeds.  Every character takes at least one byte. *)
Definition valid (s : list u8) : bool := valid_from (length s) s.

(** [str::is_char_boundary] *)
Definition is_char_boundary (s : list u8) (i : nat) : bool :=
  (i =? 0)%nat || match s !! i with Some b => negb (cont b) | None => (i =? length s)%nat end.

(** The largest boundary up to [n]. *)
Fixpoint last_boundary (s : list u8) (n : nat) : nat :=
  if is_char_boundary s n then n else match n with O => O | S n => last_boundary s n end.

Definition ellipsis : list u8 := [Byte.xe2; Byte.x80; Byte.xa6].

(** At most [max] bytes, cut at a boundary, with an ellipsis when cut. *)
Definition truncate_chars (max : nat) (s : list u8) : list u8 :=
  if (max <? length s)%nat then take (last_boundary s max) s ++ ellipsis else s.

(** The characters of a string are Unicode scalar values. *)
Definition scalar (c : Z) : bool := ((0 <=? c) && (c <? 0xD800)) || ((0xE000 <=? c) && (c <? 0x110000)).

Definition encode_char (c : Z) : list u8 :=
  let cont sh := u8_of_Z (0x80 + Z.land (Z.shiftr c sh) 0x3F) in
  if c <? 0x80 then [u8_of_Z c]
  else if c <? 0x800 then [u8_of_Z (0xC0 + Z.shiftr c 6); cont 0]
  else if c <? 0x10000 then [u8_of_Z (0xE0 + Z.shiftr c 12); cont 6; cont 0]
  else [u8_of_Z (0xF0 + Z.shiftr c 18); cont 12; cont 6; cont 0].
Definition encode_utf8 (s : list Z) : list u8 := concat (encode_char <$> s).

Definition decode_char (s : list u8) : Z :=
  let low n b := Z.land (u8_to_Z b) (Z.ones n) in
  match s with
  | [b0] => u8_to_Z b0
  | [b0; b1] => low 5 b0 * 64 + low 6 b1
  | [b0; b1; b2] => (low 4 b0 * 64 + low 6 b1) * 64 + low 6 b2
  | [b0; b1; b2; b3] => ((low 3 b0 * 64 + low 6 b1) * 64 + low 6 b2) * 64 + low 6 b3
  | _ => 0
  end.

Definition REPLACEMENT_CHARACTER : Z := 0xFFFD.

(** How many bytes that start no character one replacement stands for: the
    longest beginning of a character among them. *)
Definition bad_len (s : list u8) : nat :=
  match s with
  | b0 :: b1 :: r =>
      let second :=
        if in_range 224 224 b0 then in_range 160 191 b1
        else if in_range 237 237 b0 then in_range 128 159 b1
        else if in_range 240 240 b0 then in_range 144 191 b1
        else if in_range 244 244 b0 then in_range 128 143 b1
        else cont b1 in
      if in_range 224 244 b0 && second then
        if in_range 240 244 b0 && match r with b2 :: _ => cont b2 | [] => false end then 3%nat else 2%nat
      else 1%nat
  | _ => 1%nat
  end.

Fixpoint lossy_from (fuel : nat) (s : list u8) : list Z :=
  match fuel, s with
  | S fuel, _ :: _ =>
      match char_len s with
      | Some n => decode_char (take n s) :: lossy_from fuel (drop n s)
      | None => REPLACEMENT_CHARACTER :: lossy_from fuel (drop (bad_len s) s)
      end
  | _, _ => []
  end.

(** [String::from_utf8_lossy]; every turn takes at least one byte. *)
Definition from_utf8_lossy (s : list u8) : list Z := lossy_from (length s) s.
End Utf8.

(** [str::contains] with a string pattern. *)
Fixpoint starts_with (p s : list u8) : bool :=
  match p, s with
  | [], _ => true
  | a :: p, b :: s => bool_decide (a = b) && starts_with p s
  | _, [] => false
  end.

Fixpoint contains_str (p s : list u8) : bool :=
  starts_with p s || match s with [] => false | _ :: s => contains_str p s end.

Lemma starts_with_spec p s : starts_with p s = true <-> exists t, s = p ++ t.
Proof.
  revert s. induction p as [|a p IH]; intros [|b s]; simpl; split; try done; eauto.
  - by intros [t ?].
  - rewrite andb_true_iff, bool_decide_eq_true, IH. intros [-> [t ->]]. eauto.
  - intros [t [= -> ->]]. rewrite andb_true_iff, bool_decide_eq_true, IH. eauto.
Qed.

Lemma contains_str_spec p s : contains_str p s = true <-> exists l r, s = l ++ p ++ r.
Proof.
  induction s as [|b s IH].
  - simpl. rewrite orb_false_r, starts_with_spec. split; [intros [t ->]; by exists [], t|].
    intros (l & r & H). symmetry in H. apply app_eq_nil in H as [_ [-> ->]%app_eq_nil]. by exists [].
  - cbn [contains_str]. rewrite orb_true_iff, starts_with_spec, IH. split.
    + intros [[t ->]|(l & r & ->)]; [by exists [], t|by exists (b :: l), r].
    + intros ([|x l] & r & H); simplify_eq/=; eauto.
Qed.

Module Utf8Facts.
Import Utf8.

(** A character: its first byte starts one, the others continue it. *)
Lemma char_len_spec s n :
  char_len s = Some n ->
  (1 <= n <= length s)%nat /\ (forall i b, s !! i = Some b -> (0 < i < n)%nat -> cont b = true) /\
  forall b, s !! 0%nat = Some b -> cont b = false.
Proof.
  destruct s as [|b0 r]; [done|]. unfold char_len, cont, in_range. intros H.
  assert (forall b, (b0 :: r) !! 0%nat = Some b -> (128 <=? u8_to_Z b) && (u8_to_Z b <=? 191) = false) as H0.
  { simpl. intros b [= <-]. repeat (case_match; simplify_eq); bool_props; lia. }
  split; [|split; [|exact H0]]; clear H0.
  - destruct r as [|b1 [|b2 [|b3 r]]]; simpl; repeat (case_match; simplify_eq/=); lia.
  - intros i b Hi Hn.
    destruct r as [|b1 [|b2 [|b3 r]]]; destruct i as [|[|[|[|i]]]]; simplify_eq/=; try lia;
      repeat (case_match; simplify_eq/=); bool_props; lia.
Qed.

Lemma valid_from_enough n m s : (length s <= n)%nat -> (length s <= m)%nat -> valid_from n s = valid_from m s.
Proof.
  revert m s. induction n as [|n IH]; intros m [|b s] Hn Hm; try (simpl in Hn; lia); [by destruct m|by destruct m|].
  destruct m as [|m]; [simpl in Hm; lia|]. cbn [valid_from]. destruct (char_len (b :: s)) as [k|] eqn:Hk; [|done].
  apply char_len_spec in Hk as ([Hk _] & _). apply IH; rewrite length_drop; simpl in *; lia.
Qed.

(** Validity, character by character. *)
Lemma valid_char b s : valid (b :: s) = match char_len (b :: s) with Some n => valid (drop n (b :: s)) | None => false end.
Proof.
  unfold valid. cbn [length valid_from]. destruct (char_len (b :: s)) as [k|] eqn:Hk; [|done].
  apply char_len_spec in Hk as ([Hk _] & _). apply valid_from_enough; rewrite length_drop; simpl; lia.
Qed.

(** Induction over the characters of a valid string. *)
Lemma valid_ind (P : list u8 -> Prop) :
  P [] -> (forall c s, char_len (c ++ s) = Some (length c) -> valid s = true -> P s -> P (c ++ s)) ->
  forall s, valid s = true -> P s.
Proof.
  intros H0 Hc s. remember (length s) as n eqn:Hn. revert s Hn. induction (lt_wf n) as [n _ IH]. intros [|b s] Hn Hv; [done|].
  rewrite valid_char in Hv. destruct (char_len (b :: s)) as [k|] eqn:Hk; [|done].
  pose proof (char_len_spec _ _ Hk) as ([Hk1 Hk2] & _). rewrite <-(take_drop k (b :: s)) in Hk |- *.
  apply Hc; [|done|].
  - rewrite Hk, length_take. f_equal. lia.
  - eapply IH; [|reflexivity|done]. rewrite length_drop. lia.
Qed.

Lemma char_len_app c s t : char_len (c ++ s) = Some (length c) -> char_len (c ++ t) = Some (length c).
Proof.
  intros H. pose proof (char_len_spec _ _ H) as ([Hl _] & _). revert H. unfold char_len.
  destruct c as [|b0 [|b1 [|b2 [|b3 [|b4 c]]]]]; simpl in *; [lia|..]; intros H;
    repeat (case_match; simplify_eq/=); try done; try (bool_props; congruence).
Qed.

Lemma valid_cons_char c s : char_len (c ++ s) = Some (length c) -> valid (c ++ s) = valid s.
Proof.
  intros H. pose proof (char_len_spec _ _ H) as ([Hl _] & _). destruct c as [|b c]; [simpl in Hl; lia|].
  cbn [app]. rewrite valid_char. cbn [app] in H. rewrite H. change (b :: c ++ s) with ((b :: c) ++ s). by rewrite drop_app_length.
Qed.

Lemma valid_app a b : valid a = true -> valid b = true -> valid (a ++ b) = true.
Proof.
  intros Ha Hb. revert a Ha. apply valid_ind; [done|]. intros c s Hc Hs IH.
  rewrite <-app_assoc. rewrite valid_cons_char; [done|]. by eapply char_len_app.
Qed.

(** A prefix up to a boundary is valid. *)
Lemma valid_take s i : valid s = true -> is_char_boundary s i = true -> valid (take i s) = true.
Proof.
  intros Hv. revert s Hv i. apply (valid_ind (fun s => forall i, is_char_boundary s i = true -> valid (take i s) = true)).
  { intros i _. by rewrite take_nil. }
  intros c s Hc Hs IH i Hi.
  pose proof (char_len_spec _ _ Hc) as ([Hl _] & Hcont & Hstart). destruct i as [|i]; [done|].
  unfold is_char_boundary in Hi. rewrite (proj2 (Nat.eqb_neq (S i) 0)) in Hi by lia. cbn [orb] in Hi. destruct (decide (S i < length c)%nat) as [Hlt|Hge].
  - destruct (lookup_lt_is_Some_2 (c ++ s) (S i)) as [b Hb]; [rewrite length_app; lia|]. rewrite Hb in Hi.
    rewrite (Hcont _ _ Hb) in Hi by lia. done.
  - rewrite take_app_ge by lia. rewrite valid_cons_char by (by eapply char_len_app). apply IH.
    unfold is_char_boundary. rewrite lookup_app_r in Hi by lia. destruct (decide (S i = length c)) as [->|Hne].
    { by rewrite Nat.sub_diag. }
    rewrite (proj2 (Nat.eqb_neq (S i - length c) 0)) by lia. cbn [orb]. destruct (s !! _); [done|].
    rewrite length_app in Hi. apply Nat.eqb_eq in Hi. apply Nat.eqb_eq. lia.
Qed.

Lemma last_boundary_le s n : (last_boundary s n <= n)%nat.
Proof. induction n as [|n IH]; cbn [last_boundary]; case_match; lia. Qed.

Lemma last_boundary_ok s n : is_char_boundary s (last_boundary s n) = true.
Proof. induction n as [|n IH]; cbn [last_boundary]; case_match; done. Qed.

(** Shortening keeps a string valid and bounds its length. *)
Lemma truncate_chars_ok max s :
  valid s = true -> valid (truncate_chars max s) = true /\ (length (truncate_chars max s) <= max + 3)%nat.
Proof.
  intros Hv. unfold truncate_chars. case_match eqn:Hl.
  - split; [apply valid_app; [by apply valid_take, last_boundary_ok|done]|].
    rewrite length_app, length_take. pose proof (last_boundary_le s max). simpl. lia.
  - apply Nat.ltb_ge in Hl. split; [done|lia].
Qed.

Lemma u8_of_Z_small z : 0 <= z < 256 -> u8_to_Z (u8_of_Z z) = z.
Proof. intros. rewrite u8_to_of_Z. by apply Z.mod_small. Qed.

(** The bytes of a character, by its range. *)
Lemma encode_char_spec c s :
  scalar c = true ->
  char_len (encode_char c ++ s) = Some (length (encode_char c)) /\ decode_char (encode_char c) = c.
Proof.
  unfold scalar, encode_char. intros Hc. change 0x3F with (Z.ones 6). rewrite !Z.land_ones, !Z.shiftr_div_pow2 by lia.
  destruct (c <? 0x80) eqn:H1; [|destruct (c <? 0x800) eqn:H2; [|destruct (c <? 0x10000) eqn:H3]];
    unfold char_len, decode_char, cont, in_range; cbn [app length]; rewrite ?Z.land_ones by lia;
    rewrite !u8_of_Z_small by (bool_props; Z.to_euclidean_division_equations; lia); (split; [|bool_props; Z.to_euclidean_division_equations; lia]).
  all: repeat (case_match; try done); exfalso; bool_props; Z.to_euclidean_division_equations; lia.
Qed.

Lemma lossy_from_enough n m s : (length s <= n)%nat -> (length s <= m)%nat -> lossy_from n s = lossy_from m s.
Proof.
  revert m s. induction n as [|n IH]; intros m [|b s] Hn Hm; try (simpl in Hn; lia); [by destruct m|by destruct m|].
  destruct m as [|m]; [simpl in Hm; lia|]. cbn [lossy_from]. destruct (char_len (b :: s)) as [k|] eqn:Hk; f_equal.
  - apply char_len_spec in Hk as ([Hk _] & _). apply IH; rewrite length_drop; simpl in *; lia.
  - assert (1 <= bad_len (b :: s))%nat by (unfold bad_len; repeat case_match; lia).
    apply IH; rewrite length_drop; simpl in *; lia.
Qed.

(** Decoding what was encoded loses nothing. *)
Lemma from_utf8_lossy_encode s : forallb scalar s = true -> from_utf8_lossy (encode_utf8 s) = s.
Proof.
  induction s as [|c s IH]; [done|]. cbn [forallb]. rewrite andb_true_iff. intros [Hc Hs].
  destruct (encode_char_spec c (encode_utf8 s) Hc) as [Hl Hd]. unfold encode_utf8 in *. cbn [fmap list_fmap concat].
  pose proof (char_len_spec _ _ Hl) as ([Hl1 _] & _). unfold from_utf8_lossy.
  destruct (encode_char c ++ concat (encode_char <$> s)) as [|b r] eqn:E; [by apply app_eq_nil in E as [E _]; rewrite E in Hl1; simpl in Hl1; lia|].
  cbn [length lossy_from]. rewrite Hl, <-E, take_app_length, drop_app_length, Hd. f_equal. rewrite <-IH at 2 by done.
  apply lossy_from_enough; [|done]. apply (f_equal length) in E. rewrite length_app in E. simpl in E. lia.
Qed.
End Utf8Facts.
