(* ===== verification/TenantContext.v ===== *)
(** * [tensor-wasm-tenant/src/context.rs]: per-tenant quotas

    A [TenantContext] guards a tenant's host-memory quota, its GPU-memory cap
    and its operation rate.  The counters are atomics updated by
    compare-and-swap loops that any number of threads run at once, so they are
    modelled twice: [Cas] gives the loops as a step relation over a pool of
    threads (with the spurious failures [compare_exchange_weak] allows) and
    proves that every schedule linearises to the sequential functions; the
    context's operations then use the sequential functions.  [TokenBucket] is
    the mutex-guarded rate limiter (instants are nanoseconds since an
    arbitrary origin) and [Context] the context itself, with its builder and
    its capability checks. *)

From S2P Require Import Prelude Core.

(** ** The compare-and-swap loops *)

Module Cas.
(** Outcome of a release: how much was subtracted, and whether the request
    exceeded the balance. *)
Record ReleaseOutcome := mkReleaseOutcome { released : Z; clamped : bool }.

(** One pass of the consume loop's body on the value [current] it holds. *)
Definition consume_attempt (limit current n : Z) : result TensorWasmError Z :=
  match checked_add u64_max current n with
  | Some v => if v <=? limit then Ok v else Err (MemoryExhausted n limit)
  | None => Err (MemoryExhausted n limit)
  end.

Definition consume_cas (counter n limit : Z) : result TensorWasmError Z * Z :=
  match consume_attempt limit counter n with
  | Ok next => (Ok next, next)
  | Err e => (Err e, counter)
  end.

Definition release_outcome (current bytes : Z) : ReleaseOutcome :=
  mkReleaseOutcome (current - sat_sub current bytes) (current <? bytes).

Definition release_cas (counter bytes : Z) : (ReleaseOutcome * Z) * Z :=
  ((release_outcome counter bytes, sat_sub counter bytes), sat_sub counter bytes).

(** The sentinel the uncapped GPU counter saturates to. *)
Definition GPU_BYTES_OVERFLOW_SENTINEL : Z := u64_max.

(** One pass of the GPU consume loop, whose cap is optional. *)
Definition consume_gpu_attempt (cap : option Z) (current n : Z) : result TensorWasmError Z :=
  next ← match checked_add u64_max current n with
         | Some v => Ok v
         | None =>
             match cap with
             | None => Ok GPU_BYTES_OVERFLOW_SENTINEL
             | Some c => Err (GpuMemoryExhausted n c current)
             end
         end;
  match cap with
  | Some c => if c <? next then Err (GpuMemoryExhausted n c current) else Ok next
  | None => Ok next
  end.

(** A call of one of the two loops, and where a thread running it stands:
    before the initial load, in the loop with the value it last observed, or
    returned. *)
Inductive cas_call := Consume (n : Z) | Release (bytes : Z).

Inductive cas_result :=
| Consumed (next : Z)
| Refused (e : TensorWasmError)
| Released (o : ReleaseOutcome) (next : Z).

Inductive cas_thread :=
| Start (c : cas_call)
| Loop (c : cas_call) (current : Z)
| Done (c : cas_call) (r : cas_result).

(** The loops are the same up to the body of the consume, [attempt]. *)
Section machine.
Context (attempt : Z -> Z -> result TensorWasmError Z).

Inductive cas_step : Z -> cas_thread -> Z -> cas_thread -> Prop :=
| step_load counter c :
    cas_step counter (Start c) counter (Loop c counter)
| step_refuse counter n current e :
    attempt current n = Err e ->
    cas_step counter (Loop (Consume n) current) counter (Done (Consume n) (Refused e))
| step_consume counter n next :
    attempt counter n = Ok next ->
    cas_step counter (Loop (Consume n) counter) next (Done (Consume n) (Consumed next))
| step_consume_retry counter n current next :
    attempt current n = Ok next ->
    cas_step counter (Loop (Consume n) current) counter (Loop (Consume n) counter)
| step_release counter bytes :
    cas_step counter (Loop (Release bytes) counter) (sat_sub counter bytes)
      (Done (Release bytes) (Released (release_outcome counter bytes) (sat_sub counter bytes)))
| step_release_retry counter bytes current :
    cas_step counter (Loop (Release bytes) current) counter (Loop (Release bytes) counter).

(** The sequential meaning of a call: its result and the counter after it. *)
Definition run_call (counter : Z) (c : cas_call) : cas_result * Z :=
  match c with
  | Consume n =>
      match attempt counter n with
      | Ok next => (Consumed next, next)
      | Err e => (Refused e, counter)
      end
  | Release bytes =>
      (Released (release_outcome counter bytes) (sat_sub counter bytes), sat_sub counter bytes)
  end.
End machine.

(** What a thread has added to the balance so far. *)
Definition ledger (t : cas_thread) : Z :=
  match t with
  | Done (Consume n) (Consumed _) => n
  | Done (Release _) (Released o _) => - released o
  | _ => 0
  end.

Definition call_ok (c : cas_call) : Prop :=
  match c with Consume n => fits u64_max n | Release b => fits u64_max b end.

Definition call_of (t : cas_thread) : cas_call :=
  match t with Start c | Loop c _ | Done c _ => c end.
End Cas.

Module CasFacts.
Import Cas.

Lemma release_outcome_released current bytes :
  released (release_outcome current bytes) = Z.min current bytes \/ current < 0.
Proof. unfold release_outcome, sat_sub; simpl. lia. Qed.

(** A consume body that adds exactly what was asked and stays within a limit. *)
Definition bounded_attempt (limit : Z) (attempt : Z -> Z -> result TensorWasmError Z) : Prop :=
  forall current n next, attempt current n = Ok next -> next = current + n /\ next <= limit.

Lemma consume_attempt_bounded limit : bounded_attempt limit (consume_attempt limit).
Proof. intros current n next. unfold consume_attempt. intros. guards; lia. Qed.

Lemma consume_gpu_attempt_bounded cap : bounded_attempt cap (consume_gpu_attempt (Some cap)).
Proof.
  intros current n next. unfold consume_gpu_attempt. intros H. inv_bind H. guards; lia.
Qed.

Section schedules.
Context (limit : Z) (attempt : Z -> Z -> result TensorWasmError Z).
Hypothesis Hattempt : bounded_attempt limit attempt.

(** The balance is exactly the bytes of the consumes that returned [Ok]
    minus the bytes the releases report as released, and it never leaves
    [0 .. limit], whatever the schedule. *)
Lemma ledger_invariant counter ts counter' ts' :
  rtc (pool_step (cas_step attempt)) (counter, ts) (counter', ts') ->
  0 <= counter <= limit -> Forall (fun t => call_ok (call_of t)) ts ->
  0 <= counter' <= limit /\ counter' - sumZ ledger ts' = counter - sumZ ledger ts.
Proof.
  intros Hrtc Hc Hts.
  cut (0 <= counter' <= limit /\ Forall (fun t => call_ok (call_of t)) ts' /\
       counter' - sumZ ledger ts' = counter - sumZ ledger ts); [tauto|].
  revert Hrtc.
  set (I := fun c us => 0 <= c <= limit /\ Forall (fun t => call_ok (call_of t)) us /\
                        c - sumZ ledger us = counter - sumZ ledger ts).
  intros Hrtc. change (I counter' ts'). eapply pool_invariant; [|exact Hrtc|done].
  clear counter' ts' Hrtc. intros c us i t c' t' (Hc' & Hus & Heq) Hi Hstep.
  assert (call_ok (call_of t)) as Ht by exact (Forall_lookup_1 _ _ _ _ Hus Hi).
  assert (call_of t' = call_of t) as Hcall by (by destruct Hstep).
  split; [|split; [apply Forall_insert; [done|by rewrite Hcall]|]].
  - destruct Hstep; simpl in *; try lia.
    + destruct (Hattempt _ _ _ H). unfold fits in *. lia.
    + unfold fits, sat_sub in *. lia.
  - rewrite (sumZ_insert ledger _ _ _ _ Hi).
    destruct Hstep; simpl in *; try lia. destruct (Hattempt _ _ _ H). lia.
Qed.
End schedules.

(** The same statement from an idle pool, the form the theorems use. *)
Lemma ledger_from_start limit attempt calls counter ts :
  bounded_attempt limit attempt -> 0 <= limit -> Forall call_ok calls ->
  rtc (pool_step (cas_step attempt)) (0, Start <$> calls) (counter, ts) ->
  0 <= counter <= limit /\ counter = sumZ ledger ts.
Proof.
  intros Hatt Hlim Hcalls Hrtc.
  destruct (ledger_invariant limit attempt Hatt _ _ _ _ Hrtc) as [Hc Heq].
  - lia.
  - by apply Forall_fmap.
  - split; [done|]. rewrite sumZ_fmap, (sumZ_zero _ calls) in Heq by done. lia.
Qed.

(** C12: under every interleaving of any number of threads running the
    consume and release loops on the host-memory counter, spurious
    [compare_exchange_weak] failures included, the counter stays within
    [0 .. limit] and equals the bytes of the consumes that returned [Ok]
    minus the bytes the completed releases report as released: no update is
    lost and the quota is never exceeded. *)
Theorem cas_quota_safe limit calls counter ts :
  fits u64_max limit -> Forall call_ok calls ->
  rtc (pool_step (cas_step (consume_attempt limit))) (0, Start <$> calls) (counter, ts) ->
  0 <= counter <= limit /\ counter = sumZ ledger ts.
Proof.
  intros Hlim Hcalls. apply ledger_from_start; [apply consume_attempt_bounded| |done].
  by destruct Hlim.
Qed.

(** Two threads each asking for 60 of 100 bytes: one is refused. *)
Lemma cas_quota_safe_witness :
  0 <= 60 <= 100 /\
  60 = sumZ ledger [Done (Consume 60) (Consumed 60); Done (Consume 60) (Refused (MemoryExhausted 60 100))].
Proof.
  apply (cas_quota_safe 100 [Consume 60; Consume 60]); [done|by repeat constructor|].
  eapply rtc_l. { apply (pool_step_intro _ _ _ 0 (Start (Consume 60))); [done|]. apply step_load. }
  eapply rtc_l. { apply (pool_step_intro _ _ _ 1 (Start (Consume 60))); [done|]. apply step_load. }
  eapply rtc_l. { eapply (pool_step_intro _ _ _ 0 (Loop (Consume 60) 0)); [done|]. by apply step_consume. }
  eapply rtc_l. { eapply (pool_step_intro _ _ _ 1 (Loop (Consume 60) 0)); [done|]. by apply (step_consume_retry _ _ _ _ 60). }
  eapply rtc_l. { eapply (pool_step_intro _ _ _ 1 (Loop (Consume 60) 60)); [done|]. by apply step_refuse. }
  apply rtc_refl.
Defined.

(** the same for the GPU counter of a tenant with a cap: no schedule of
    [consume_gpu_bytes] and [release_gpu_bytes] loops takes it above the
    cap or loses an update. *)
Theorem gpu_cap_safe cap calls counter ts :
  fits u64_max cap -> Forall call_ok calls ->
  rtc (pool_step (cas_step (consume_gpu_attempt (Some cap)))) (0, Start <$> calls) (counter, ts) ->
  0 <= counter <= cap /\ counter = sumZ ledger ts.
Proof.
  intros Hcap Hcalls. apply ledger_from_start; [apply consume_gpu_attempt_bounded| |done].
  by destruct Hcap.
Qed.

Lemma gpu_cap_safe_witness :
  0 <= 7 <= 10 /\ 7 = sumZ ledger [Done (Consume 7) (Consumed 7); Start (Release 7)].
Proof.
  apply (gpu_cap_safe 10 [Consume 7; Release 7]); [done|by repeat constructor|].
  eapply rtc_l. { apply (pool_step_intro _ _ _ 0 (Start (Consume 7))); [done|]. apply step_load. }
  eapply rtc_l. { eapply (pool_step_intro _ _ _ 0 (Loop (Consume 7) 0)); [done|]. by apply step_consume. }
  apply rtc_refl.
Defined.

Section linearise.
Context (attempt : Z -> Z -> result TensorWasmError Z).
Abbreviation step := (pool_step (cas_step attempt)).

(** A thread's result was produced at one moment of the schedule by the
    sequential function on the counter of that moment. *)
Definition linearised (s0 s : Z * list cas_thread) (c : cas_call) (r : cas_result) : Prop :=
  exists s1 s2, rtc step s0 s1 /\ (s1 = s2 \/ step s1 s2) /\ rtc step s2 s /\
                run_call attempt s1.1 c = (r, s2.1).

(** What is known of a thread in state [s], reached from [s0]. *)
Definition justified (s0 s : Z * list cas_thread) (t : cas_thread) : Prop :=
  match t with
  | Start _ => True
  | Loop _ current => exists us, rtc step s0 (current, us) /\ rtc step (current, us) s
  | Done c r => linearised s0 s c r
  end.

Lemma justified_step s0 s s' t : justified s0 s t -> step s s' -> justified s0 s' t.
Proof.
  intros Ht Hstep. destruct t; simpl in *; [done| |].
  - destruct Ht as (us & H1 & H2). exists us. split; [done|]. by eapply rtc_r.
  - destruct Ht as (s1 & s2 & H1 & H12 & H2 & Hrun). exists s1, s2.
    split_and!; [done..| |done]. by eapply rtc_r.
Qed.

Lemma justified_moved s0 s t c' t' us :
  rtc step s0 s -> justified s0 s t -> cas_step attempt s.1 t c' t' ->
  step s (c', us) -> justified s0 (c', us) t'.
Proof.
  intros Hr Ht Hc Hstep. destruct s as [c ts]. simpl in Hc.
  destruct Hc; simpl in *.
  1, 4, 6: by exists us; split; [by eapply rtc_r|].
  - destruct Ht as (vs & H1 & H2). exists (current, vs), (current, vs).
    split_and!; [done|by left|by eapply rtc_r|]. simpl. by rewrite H.
  - exists (counter, ts), (next, us). split_and!; [done|by right|done|]. simpl. by rewrite H.
  - exists (counter, ts), (sat_sub counter bytes, us). split_and!; [done|by right|done|done].
Qed.

Lemma all_justified s0 s :
  rtc step s0 s -> Forall (justified s0 s0) s0.2 -> Forall (justified s0 s) s.2.
Proof.
  intros Hr H0. revert s Hr.
  apply (rtc_ind_r (fun s => Forall (justified s0 s) s.2)); [done|].
  intros s s' Hr Hstep IH.
  inversion Hstep as [c ts i t c' t' Hi Hc Heq1 Heq2]; subst. simpl in *.
  apply Forall_insert.
  - eapply Forall_impl; [exact IH|]. intros u Hu. by eapply justified_step.
  - eapply (justified_moved s0 (c, ts)); [done| |done|done]. exact (Forall_lookup_1 _ _ _ _ IH Hi).
Qed.
End linearise.

(** the loops are linearisable.  In every schedule, whatever a thread
    returned is what the sequential function returns on the value the
    counter held at one moment between the start and now; a success changed
    the counter at that moment, atomically, to the value the sequential
    function computes, and a refusal was justified by a value the counter
    really held. *)
Theorem cas_linearisable attempt counter0 calls counter ts i c r :
  rtc (pool_step (cas_step attempt)) (counter0, Start <$> calls) (counter, ts) ->
  ts !! i = Some (Done c r) ->
  linearised attempt (counter0, Start <$> calls) (counter, ts) c r.
Proof.
  intros Hr Hi.
  pose proof (all_justified attempt _ _ Hr) as Hall. simpl in Hall.
  refine (Forall_lookup_1 _ _ _ _ (Hall _) Hi).
  apply Forall_fmap, Forall_true. done.
Qed.

Lemma cas_linearisable_witness :
  linearised (consume_attempt 10) (0, Start <$> [Consume 4]) (4, [Done (Consume 4) (Consumed 4)])
    (Consume 4) (Consumed 4).
Proof.
  apply (cas_linearisable _ _ _ _ _ 0); [|done].
  eapply rtc_l. { apply (pool_step_intro _ _ _ 0 (Start (Consume 4))); [done|]. apply step_load. }
  eapply rtc_l. { eapply (pool_step_intro _ _ _ 0 (Loop (Consume 4) 0)); [done|]. by apply step_consume. }
  apply rtc_refl.
Defined.
End CasFacts.

(** ** The operation-rate limiter *)

Definition MICRO_PER_TOKEN : Z := 1000000.

Record RateLimited := mkRateLimited {
  requested : Z;
  available : Z;
  limit_ops_per_sec : Z;
  limit_burst : Z;
}.

Module TokenBucket.
Record t := mk {
  ops_per_sec : Z;
  burst : Z;
  capacity_micros : Z;
  micro_tokens : Z;
  last_refill : Z;
}.

(** [now] is the [Instant::now] of the call. *)
Definition new (ops_per_sec burst now : Z) : t :=
  let burst := Z.max burst 1 in
  let ops_per_sec := Z.max ops_per_sec 1 in
  let capacity_micros := sat_mul u64_max burst MICRO_PER_TOKEN in
  mk ops_per_sec burst capacity_micros capacity_micros now.

Definition refilled_micros (b : t) (current elapsed_nanos : Z) : Z :=
  let credit_micros :=
    sat_mul u128_max (sat_mul u128_max elapsed_nanos (ops_per_sec b)) MICRO_PER_TOKEN
    / 1000000000 in
  let credit_micros := try_from_or u64_max u64_max credit_micros in
  Z.min (sat_add u64_max current credit_micros) (capacity_micros b).

Definition admit_locked (b : t) (n now : Z) : result RateLimited () * t :=
  let now := Z.max now (last_refill b) in
  let elapsed := now - last_refill b in
  let available_micros := refilled_micros b (micro_tokens b) elapsed in
  let need_micros := sat_mul u64_max n MICRO_PER_TOKEN in
  if available_micros <? need_micros then
    (Err (mkRateLimited n (available_micros / MICRO_PER_TOKEN) (ops_per_sec b) (burst b)), b)
  else
    (Ok (), mk (ops_per_sec b) (burst b) (capacity_micros b) (available_micros - need_micros) now).

(** The lock is taken, the clock read once, and the request decided. *)
Definition try_acquire_now (b : t) (n now : Z) : result RateLimited () * t :=
  admit_locked b n now.

(** A run of requests [(n, now)], as the calls that took the lock in order,
    with the operations admitted. *)
Fixpoint acquire_all (b : t) (reqs : list (Z * Z)) : Z * t :=
  match reqs with
  | [] => (0, b)
  | (n, now) :: reqs =>
      let '(r, b) := try_acquire_now b n now in
      let '(admitted, b) := acquire_all b reqs in
      ((if is_ok r then n else 0) + admitted, b)
  end.

(** Well-formedness: what [new] builds and every request preserves. *)
Record wf (b : t) : Prop := {
  wf_ops : 1 <= ops_per_sec b <= u64_max;
  wf_burst : 1 <= burst b <= u64_max;
  wf_capacity : capacity_micros b = sat_mul u64_max (burst b) MICRO_PER_TOKEN;
  wf_micros : 0 <= micro_tokens b <= capacity_micros b;
}.
End TokenBucket.

Module TokenBucketFacts.
Import TokenBucket.

Lemma new_wf ops bst now : fits u64_max ops -> fits u64_max bst -> wf (new ops bst now).
Proof.
  unfold fits. intros. constructor; simpl; unfold sat_mul, MICRO_PER_TOKEN; lia.
Qed.

(** The refill is never more than the exact rate allows, and never takes
    tokens away. *)
Lemma refilled_bounds b current elapsed :
  wf b -> 0 <= elapsed -> 0 <= current <= capacity_micros b ->
  current <= refilled_micros b current elapsed <= capacity_micros b /\
  (refilled_micros b current elapsed - current) * 1000000000 <= elapsed * ops_per_sec b * MICRO_PER_TOKEN.
Proof.
  intros [Hops Hburst Hcap Hm] He Hc.
  unfold refilled_micros, try_from_or, fits, sat_add, sat_mul in *. unfold MICRO_PER_TOKEN in *.
  assert (0 <= elapsed * ops_per_sec b) by (apply Z.mul_nonneg_nonneg; lia).
  set (p := Z.min (Z.min (elapsed * ops_per_sec b) u128_max * 1000000) u128_max).
  assert (0 <= p <= elapsed * ops_per_sec b * 1000000) as Hp by (unfold p; lia).
  pose proof (Z.mul_div_le p 1000000000 ltac:(lia)).
  pose proof (Z.div_pos p 1000000000 ltac:(lia) ltac:(lia)).
  case_match; bool_props; split; lia.
Qed.

(** ... and it is the full exact credit, up to the capacity: the
    saturations are never reached before the capacity is. *)
Lemma refilled_complete b current elapsed k :
  wf b -> 0 <= elapsed -> 0 <= current <= capacity_micros b ->
  0 <= k <= capacity_micros b -> k * 1000000000 <= elapsed * ops_per_sec b * MICRO_PER_TOKEN ->
  k <= refilled_micros b current elapsed.
Proof.
  intros [Hops Hburst Hcap Hm] He Hc Hk Hel.
  unfold refilled_micros, try_from_or, fits, sat_add, sat_mul in *. unfold MICRO_PER_TOKEN in *.
  assert (0 <= elapsed * ops_per_sec b) by (apply Z.mul_nonneg_nonneg; lia).
  set (p := Z.min (Z.min (elapsed * ops_per_sec b) u128_max * 1000000) u128_max).
  assert (k * 1000000000 <= p) as Hp by (unfold p; lia).
  apply Z.div_le_mono with (c := 1000000000) in Hp; [|lia]. rewrite Z.div_mul in Hp by lia.
  case_match; bool_props; lia.
Qed.

(** What a request does to the bucket, in the exact arithmetic the limits
    are stated in. *)
Lemma admit_spec b n now :
  wf b -> 0 <= n -> burst b * MICRO_PER_TOKEN < u64_max ->
  let '(r, b') := admit_locked b n now in
  ops_per_sec b' = ops_per_sec b /\ burst b' = burst b /\
  last_refill b <= last_refill b' <= Z.max now (last_refill b) /\
  ((if is_ok r then n else 0) * MICRO_PER_TOKEN + micro_tokens b' - micro_tokens b) * 1000000000
    <= (last_refill b' - last_refill b) * ops_per_sec b * MICRO_PER_TOKEN.
Proof.
  intros Hb Hn Hcap. unfold admit_locked.
  destruct (refilled_bounds b (micro_tokens b) (Z.max now (last_refill b) - last_refill b));
    [done|lia|apply Hb|].
  pose proof (Z.le_max_r now (last_refill b)).
  remember (Z.max now (last_refill b)) as now' eqn:Hnow'.
  destruct Hb as [? ? Hc ?]. unfold sat_mul, MICRO_PER_TOKEN in *.
  destruct (_ <? _) eqn:?; bool_props; simpl; split_and!; try done; lia.
Qed.

Lemma admit_wf b n now : wf b -> 0 <= n -> wf (admit_locked b n now).2.
Proof.
  intros Hb Hn. unfold admit_locked. case_match; [done|]. bool_props.
  destruct (refilled_bounds b (micro_tokens b) (Z.max now (last_refill b) - last_refill b));
    [done|lia|apply Hb|].
  destruct Hb. constructor; simpl; [done..|]. unfold sat_mul, MICRO_PER_TOKEN in *. lia.
Qed.

(** The accounting of a whole run: what was admitted plus what is left is
    what there was plus the exact credit of the time the run spans. *)
Lemma acquire_all_spec b reqs horizon :
  wf b -> burst b * MICRO_PER_TOKEN < u64_max -> last_refill b <= horizon ->
  Forall (fun q => 0 <= q.1 /\ q.2 <= horizon) reqs ->
  let '(admitted, b') := acquire_all b reqs in
  wf b' /\ ops_per_sec b' = ops_per_sec b /\ last_refill b <= last_refill b' <= horizon /\
  (admitted * MICRO_PER_TOKEN + micro_tokens b' - micro_tokens b) * 1000000000
    <= (last_refill b' - last_refill b) * ops_per_sec b * MICRO_PER_TOKEN.
Proof.
  revert b. induction reqs as [|[n now] reqs IH]; intros b Hb Hcap Hh Hreqs; simpl.
  - split_and!; try done; lia.
  - apply Forall_cons_1 in Hreqs as [[Hn Hnow] Hreqs]. simpl in *. unfold try_acquire_now.
    pose proof (admit_spec b n now Hb Hn Hcap) as Hspec.
    pose proof (admit_wf b n now Hb Hn) as Hwf.
    destruct (admit_locked b n now) as [r b1]. destruct Hspec as (Hops & Hbu & Hl & Hacc).
    specialize (IH b1 Hwf). rewrite Hbu, Hops in IH. specialize (IH Hcap ltac:(lia) Hreqs).
    destruct (acquire_all b1 reqs) as [admitted b2]. destruct IH as (? & ? & ? & ?).
    split_and!; [done|congruence|lia|lia|lia].
Qed.

(** C22: a tenant is never admitted more operations than its burst plus the
    steady rate over the time that passed, in any run of requests, whatever
    the clock readings (non-monotonic ones included), for every burst below
    2^64 / 10^6. *)
Theorem rate_never_exceeded b reqs horizon :
  wf b -> burst b * MICRO_PER_TOKEN < u64_max -> last_refill b <= horizon ->
  Forall (fun q => 0 <= q.1 /\ q.2 <= horizon) reqs ->
  (acquire_all b reqs).1 * 1000000000
    <= burst b * 1000000000 + ops_per_sec b * (horizon - last_refill b).
Proof.
  intros Hb Hcap Hh Hreqs.
  pose proof (acquire_all_spec b reqs horizon Hb Hcap Hh Hreqs) as Hrun.
  destruct (acquire_all b reqs) as [admitted b']. destruct Hrun as (Hwf & _ & Hl & Hacc).
  assert ((last_refill b' - last_refill b) * ops_per_sec b
          <= (horizon - last_refill b) * ops_per_sec b)
    by (apply Z.mul_le_mono_nonneg_r; destruct Hb; lia).
  destruct Hb as [? ? Hc ?], Hwf. unfold sat_mul, MICRO_PER_TOKEN in *. simpl. lia.
Qed.

(** A bucket of burst 2 refilled at 1 op/s: three requests at once, then one
    a second later; the third is refused. *)
Lemma rate_never_exceeded_witness :
  (acquire_all (new 1 2 0) [(1, 0); (1, 0); (1, 5); (1, 1000000000)]).1 = 3 /\
  3 * 1000000000 <= 2 * 1000000000 + 1 * (1000000000 - 0).
Proof.
  split; [reflexivity|].
  apply (rate_never_exceeded (new 1 2 0) [(1, 0); (1, 0); (1, 5); (1, 1000000000)] 1000000000).
  - by apply new_wf.
  - done.
  - done.
  - repeat constructor; done.
Defined.

(** With a burst of 2^64 / 10^6 or more the bucket's capacity saturates, and so
    does the price of a request of that size: a bucket of burst 2^45 admits
    2^64 - 1 operations at once. *)
Lemma saturated_bucket_overadmits :
  (acquire_all (new 1 (2 ^ 45) 0) [(u64_max, 0)]).1 = u64_max /\ 2 ^ 45 < u64_max.
Proof. by vm_compute. Qed.

(** no starvation.  A request of at most [burst] operations is admitted
    as soon as the time since the last admission, at the steady rate, covers
    it, whatever the bucket holds; a refused request leaves the bucket
    untouched, and the refusal reports fewer available operations than were
    requested. *)
Theorem rate_admits_after_wait b n now :
  wf b -> 0 <= n <= u64_max ->
  match try_acquire_now b n now with
  | (Ok _, b') => wf b' /\ last_refill b' = Z.max now (last_refill b)
  | (Err e, b') =>
      b' = b /\ requested e = n /\ 0 <= available e < n /\
      (n <= burst b -> ops_per_sec b * (now - last_refill b) < n * 1000000000)
  end.
Proof.
  intros Hb Hn. pose proof (admit_wf b n now Hb ltac:(lia)) as Hwf.
  unfold try_acquire_now, admit_locked in *.
  set (elapsed := Z.max now (last_refill b) - last_refill b) in *.
  pose proof (refilled_bounds b (micro_tokens b) elapsed Hb ltac:(lia) (wf_micros _ Hb)) as [? _].
  pose proof (refilled_complete b (micro_tokens b) elapsed (sat_mul u64_max n MICRO_PER_TOKEN) Hb
                ltac:(lia) (wf_micros _ Hb)) as Hcomplete.
  destruct Hb as [? ? Hc ?]. unfold sat_mul, MICRO_PER_TOKEN in *.
  destruct (_ <? _) eqn:?; bool_props; simpl in *; [|done]. split_and!; [done..| | |].
  - apply Z.div_pos; lia.
  - apply Z.div_lt_upper_bound; lia.
  - intros. apply Z.nle_gt. intros Hle.
    assert (ops_per_sec b * (now - last_refill b) <= elapsed * ops_per_sec b)
      by (rewrite Z.mul_comm; apply Z.mul_le_mono_nonneg_r; lia).
    lia.
Qed.

(** An empty bucket refilled at 4 op/s refuses two operations just before
    half a second and admits them then. *)
Lemma rate_admits_after_wait_witness :
  let b := mk 4 3 3000000 0 0 in
  try_acquire_now b 2 499999999 = (Err (mkRateLimited 2 1 4 3), b) /\
  (is_ok (try_acquire_now b 2 500000000).1 = true /\
   (2 <= 3 -> 4 * (499999999 - 0) < 2 * 1000000000)).
Proof.
  assert (try_acquire_now (mk 4 3 3000000 0 0) 2 499999999 =
          (Err (mkRateLimited 2 1 4 3), mk 4 3 3000000 0 0)) as E by (vm_compute; reflexivity).
  assert (wf (mk 4 3 3000000 0 0)) as Hwf by by constructor.
  pose proof (rate_admits_after_wait (mk 4 3 3000000 0 0) 2 499999999 Hwf ltac:(lia)) as H.
  rewrite E in H. split; [exact E|]. split; [vm_compute; reflexivity|]. exact (proj2 (proj2 (proj2 H))).
Defined.
End TokenBucketFacts.

(** ** The context *)

Inductive IsolationKind := Shared | StreamIsolated | ContextIsolated.

#[global] Instance IsolationKind_eq_dec : EqDecision IsolationKind.
Proof. solve_decision. Defined.

(** A capability; [cap_token] is the identity of the minting registry's token
    allocation, which is all [Arc::ptr_eq] looks at. *)
Record TenantCapability := mkTenantCapability { cap_tenant_id : Z; cap_token : nat }.

Module Context.
Import Cas.

(** The cells of the two per-tenant gauge families under this tenant's label. *)
Record Gauges := mkGauges { cpu_gauge : option Z; gpu_gauge : option Z }.

Record t (P : Type) := mk {
  tenant_id : Z;
  isolation : IsolationKind;
  stream_id : Z;
  memory_quota_bytes : Z;
  bytes_in_use : Z;
  gpu_memory_bytes_cap : option Z;
  gpu_bytes_in_use : Z;
  cuda_mem_pool_quota_bytes : option Z;
  driver_mem_pool : option P;
  driver_pool_pinned : bool;
  rate_limiter : option TokenBucket.t;
  cu_context : bool;
  metrics : option Gauges;
  registry_token : option nat;
}.
#[global] Arguments mk {P}.
#[global] Arguments tenant_id {P}.
#[global] Arguments isolation {P}.
#[global] Arguments stream_id {P}.
#[global] Arguments memory_quota_bytes {P}.
#[global] Arguments bytes_in_use {P}.
#[global] Arguments gpu_memory_bytes_cap {P}.
#[global] Arguments gpu_bytes_in_use {P}.
#[global] Arguments cuda_mem_pool_quota_bytes {P}.
#[global] Arguments driver_mem_pool {P}.
#[global] Arguments driver_pool_pinned {P}.
#[global] Arguments rate_limiter {P}.
#[global] Arguments cu_context {P}.
#[global] Arguments metrics {P}.
#[global] Arguments registry_token {P}.

(** The mutable cells, one setter each (the atomics, the limiter's mutex, the
    shared gauge cells and the pool behind its [Arc]). *)
Definition set_bytes_in_use {P} (v : Z) (c : t P) : t P :=
  mk (tenant_id c) (isolation c) (stream_id c) (memory_quota_bytes c) v
    (gpu_memory_bytes_cap c) (gpu_bytes_in_use c) (cuda_mem_pool_quota_bytes c)
    (driver_mem_pool c) (driver_pool_pinned c) (rate_limiter c) (cu_context c)
    (metrics c) (registry_token c).
Definition set_gpu_bytes_in_use {P} (v : Z) (c : t P) : t P :=
  mk (tenant_id c) (isolation c) (stream_id c) (memory_quota_bytes c) (bytes_in_use c)
    (gpu_memory_bytes_cap c) v (cuda_mem_pool_quota_bytes c)
    (driver_mem_pool c) (driver_pool_pinned c) (rate_limiter c) (cu_context c)
    (metrics c) (registry_token c).
Definition set_driver {P} (pool : option P) (pinned : bool) (c : t P) : t P :=
  mk (tenant_id c) (isolation c) (stream_id c) (memory_quota_bytes c) (bytes_in_use c)
    (gpu_memory_bytes_cap c) (gpu_bytes_in_use c) (cuda_mem_pool_quota_bytes c)
    pool pinned (rate_limiter c) (cu_context c) (metrics c) (registry_token c).
Definition set_rate_limiter {P} (l : option TokenBucket.t) (c : t P) : t P :=
  mk (tenant_id c) (isolation c) (stream_id c) (memory_quota_bytes c) (bytes_in_use c)
    (gpu_memory_bytes_cap c) (gpu_bytes_in_use c) (cuda_mem_pool_quota_bytes c)
    (driver_mem_pool c) (driver_pool_pinned c) l (cu_context c) (metrics c) (registry_token c).
Definition set_metrics {P} (m : option Gauges) (c : t P) : t P :=
  mk (tenant_id c) (isolation c) (stream_id c) (memory_quota_bytes c) (bytes_in_use c)
    (gpu_memory_bytes_cap c) (gpu_bytes_in_use c) (cuda_mem_pool_quota_bytes c)
    (driver_mem_pool c) (driver_pool_pinned c) (rate_limiter c) (cu_context c)
    m (registry_token c).
(** [register_with_capability] stamps the context before it is shared. *)
Definition set_registry_token {P} (token : nat) (c : t P) : t P :=
  mk (tenant_id c) (isolation c) (stream_id c) (memory_quota_bytes c) (bytes_in_use c)
    (gpu_memory_bytes_cap c) (gpu_bytes_in_use c) (cuda_mem_pool_quota_bytes c)
    (driver_mem_pool c) (driver_pool_pinned c) (rate_limiter c) (cu_context c)
    (metrics c) (Some token).

Definition publish_memory_gauge {P} (new_total : Z) (c : t P) : t P :=
  match metrics c with
  | Some g => set_metrics (Some (mkGauges (Some new_total) (gpu_gauge g))) c
  | None => c
  end.

Definition publish_gpu_memory_gauge {P} (new_total : Z) (c : t P) : t P :=
  match metrics c with
  | Some g => set_metrics (Some (mkGauges (cpu_gauge g) (Some new_total))) c
  | None => c
  end.

Definition effective_driver_cap {P} (c : t P) : option Z :=
  match gpu_memory_bytes_cap c with
  | Some cap => Some cap
  | None => cuda_mem_pool_quota_bytes c
  end.

Definition check_capability {P} (c : t P) (cap : TenantCapability) (resource : string) :
    result TensorWasmError () :=
  if negb (cap_tenant_id cap =? tenant_id c) then
    Err (TenantIsolationViolation (cap_tenant_id cap) (bytes_of resource))
  else
    match registry_token c with
    | Some ctx_token =>
        if bool_decide (ctx_token = cap_token cap) then Ok ()
        else Err (TenantIsolationViolation (cap_tenant_id cap) (bytes_of resource))
    | None => Err (TenantIsolationViolation (cap_tenant_id cap) (bytes_of resource))
    end.

Section ops.
Context {P : Type} `{!DriverMemPool P}.

(** A failing driver call is logged and retried on the next consume. *)
Definition pin_driver_pool (c : t P) : t P :=
  if driver_pool_pinned c then c
  else
    match driver_mem_pool c, effective_driver_cap c with
    | Some pool, Some cap =>
        match set_release_threshold pool cap with
        | (Ok _, pool') => set_driver (Some pool') true c
        | (Err _, pool') => set_driver (Some pool') false c
        end
    | _, _ => c
    end.

Definition consume_gpu_bytes (c : t P) (n : Z) : result TensorWasmError () * t P :=
  match consume_gpu_attempt (gpu_memory_bytes_cap c) (gpu_bytes_in_use c) n with
  | Err e => (Err e, c)
  | Ok next => (Ok (), pin_driver_pool (publish_gpu_memory_gauge next (set_gpu_bytes_in_use next c)))
  end.

Definition release_gpu_bytes_inner (c : t P) (bytes : Z) : ReleaseOutcome * t P :=
  let '((outcome, after), counter) := release_cas (gpu_bytes_in_use c) bytes in
  (outcome, publish_gpu_memory_gauge after (set_gpu_bytes_in_use counter c)).

Definition release_gpu_bytes (c : t P) (bytes : Z) : t P :=
  (release_gpu_bytes_inner c bytes).2.

Definition consume_gpu_bytes_with_capability (c : t P) (cap : TenantCapability) (n : Z) :
    result TensorWasmError () * t P :=
  match check_capability c cap "quota.consume_gpu_bytes" with
  | Err e => (Err e, c)
  | Ok _ => consume_gpu_bytes c n
  end.

Definition release_gpu_bytes_with_capability (c : t P) (cap : TenantCapability) (bytes : Z) :
    result TensorWasmError ReleaseOutcome * t P :=
  match check_capability c cap "quota.release_gpu_bytes" with
  | Err e => (Err e, c)
  | Ok _ => let '(o, c) := release_gpu_bytes_inner c bytes in (Ok o, c)
  end.

Definition consume_bytes_inner (c : t P) (n : Z) : result TensorWasmError () * t P :=
  match consume_cas (bytes_in_use c) n (memory_quota_bytes c) with
  | (Err e, _) => (Err e, c)
  | (Ok next, counter) => (Ok (), publish_memory_gauge next (set_bytes_in_use counter c))
  end.

Definition consume_bytes (c : t P) (n : Z) : result TensorWasmError () * t P :=
  consume_bytes_inner c n.

Definition consume_bytes_with_capability (c : t P) (cap : TenantCapability) (n : Z) :
    result TensorWasmError () * t P :=
  match check_capability c cap "quota.consume_bytes" with
  | Err e => (Err e, c)
  | Ok _ => consume_bytes_inner c n
  end.

Definition release_bytes_inner (c : t P) (bytes : Z) : ReleaseOutcome * t P :=
  let '((outcome, after), counter) := release_cas (bytes_in_use c) bytes in
  (outcome, publish_memory_gauge after (set_bytes_in_use counter c)).

Definition release_bytes (c : t P) (bytes : Z) : t P := (release_bytes_inner c bytes).2.

Definition release_bytes_with_capability (c : t P) (cap : TenantCapability) (bytes : Z) :
    result TensorWasmError ReleaseOutcome * t P :=
  match check_capability c cap "quota.release_bytes" with
  | Err e => (Err e, c)
  | Ok _ => let '(o, c) := release_bytes_inner c bytes in (Ok o, c)
  end.

Definition try_acquire_ops (c : t P) (n now : Z) : result RateLimited () * t P :=
  match rate_limiter c with
  | Some bucket =>
      let '(r, bucket) := TokenBucket.try_acquire_now bucket n now in
      (r, set_rate_limiter (Some bucket) c)
  | None => (Ok (), c)
  end.

Definition try_acquire_op (c : t P) (now : Z) : result RateLimited () * t P :=
  try_acquire_ops c 1 now.
End ops.

(** The builder. *)
Record TenantContextBuilder (P : Type) := mkBuilder {
  b_tenant_id : Z;
  b_isolation : IsolationKind;
  b_stream_id : Z;
  b_memory_quota_bytes : Z;
  b_cuda_mem_pool_quota_bytes : option Z;
  b_gpu_memory_bytes_cap : option Z;
  b_driver_mem_pool : option P;
  b_rate_limit : option (Z * Z);
  b_metrics : option Gauges;
}.
#[global] Arguments mkBuilder {P}.
#[global] Arguments b_tenant_id {P}.
#[global] Arguments b_isolation {P}.
#[global] Arguments b_stream_id {P}.
#[global] Arguments b_memory_quota_bytes {P}.
#[global] Arguments b_cuda_mem_pool_quota_bytes {P}.
#[global] Arguments b_gpu_memory_bytes_cap {P}.
#[global] Arguments b_driver_mem_pool {P}.
#[global] Arguments b_rate_limit {P}.
#[global] Arguments b_metrics {P}.

Definition DEFAULT_QUOTA_BYTES : Z := 8 * 1024 * 1024 * 1024.

Definition builder_new {P} (id : Z) : TenantContextBuilder P :=
  mkBuilder id StreamIsolated 0 DEFAULT_QUOTA_BYTES None None None None None.

(** [cuda] is the result of [build_cuda_context] in a build with the [cuda]
    feature ([None] without the feature); [now] is the limiter's
    [Instant::now]; the second component is the number of downgrades the
    call adds to [ISOLATION_DOWNGRADE_COUNT]. *)
Definition build {P} `{!DriverMemPool P} (b : TenantContextBuilder P) (cuda : option bool) (now : Z) :
    t P * Z :=
  let downgraded :=
    match cuda with
    | Some built => bool_decide (b_isolation b = ContextIsolated) && negb built
    | None => false
    end in
  let ctx :=
    mk (b_tenant_id b) (if downgraded then StreamIsolated else b_isolation b) (b_stream_id b)
      (b_memory_quota_bytes b) 0 (b_gpu_memory_bytes_cap b) 0 (b_cuda_mem_pool_quota_bytes b)
      (b_driver_mem_pool b) false
      ((fun '(ops, burst) => TokenBucket.new ops burst now) <$> b_rate_limit b)
      (default false cuda) (b_metrics b) None in
  (pin_driver_pool ctx, if downgraded then 1 else 0).

Definition has_real_context {P} (c : t P) : bool := cu_context c.
End Context.

Module ContextFacts.
Import Cas Context.

(** Every mutating entry point of the context, as one interface. *)
Inductive op :=
| OpConsume (cap : option TenantCapability) (n : Z)
| OpRelease (cap : option TenantCapability) (n : Z)
| OpConsumeGpu (cap : option TenantCapability) (n : Z)
| OpReleaseGpu (cap : option TenantCapability) (n : Z)
| OpAcquire (n now : Z).

Inductive reply :=
| RConsume (r : result TensorWasmError ())
| RRelease (r : result TensorWasmError ReleaseOutcome)
| RDone
| RAcquire (r : result RateLimited ()).

Definition run_op {P} `{!DriverMemPool P} (c : t P) (o : op) : reply * t P :=
  match o with
  | OpConsume None n => let '(r, c) := consume_bytes c n in (RConsume r, c)
  | OpConsume (Some cap) n => let '(r, c) := consume_bytes_with_capability c cap n in (RConsume r, c)
  | OpRelease None n => (RDone, release_bytes c n)
  | OpRelease (Some cap) n => let '(r, c) := release_bytes_with_capability c cap n in (RRelease r, c)
  | OpConsumeGpu None n => let '(r, c) := consume_gpu_bytes c n in (RConsume r, c)
  | OpConsumeGpu (Some cap) n =>
      let '(r, c) := consume_gpu_bytes_with_capability c cap n in (RConsume r, c)
  | OpReleaseGpu None n => (RDone, release_gpu_bytes c n)
  | OpReleaseGpu (Some cap) n =>
      let '(r, c) := release_gpu_bytes_with_capability c cap n in (RRelease r, c)
  | OpAcquire n now => let '(r, c) := try_acquire_ops c n now in (RAcquire r, c)
  end.

Fixpoint run_ops {P} `{!DriverMemPool P} (c : t P) (os : list op) : list reply * t P :=
  match os with
  | [] => ([], c)
  | o :: os => let '(r, c) := run_op c o in let '(rs, c) := run_ops c os in (r :: rs, c)
  end.

Definition op_ok (o : op) : Prop :=
  match o with
  | OpConsume _ n | OpRelease _ n | OpConsumeGpu _ n | OpReleaseGpu _ n | OpAcquire n _ => fits u64_max n
  end.

Definition in_sync (gauge : option Z) (v : Z) : Prop := forall w, gauge = Some w -> w = v.

Record ctx_ok {P} (c : t P) : Prop := {
  ok_quota : memory_quota_bytes c <= u64_max;
  ok_bytes : 0 <= bytes_in_use c <= memory_quota_bytes c;
  ok_gpu : 0 <= gpu_bytes_in_use c <= u64_max;
  ok_gpu_cap : forall cap, gpu_memory_bytes_cap c = Some cap -> gpu_bytes_in_use c <= cap;
  ok_rate : forall b, rate_limiter c = Some b -> TokenBucket.wf b;
  ok_gauges : forall g, metrics c = Some g ->
    in_sync (cpu_gauge g) (bytes_in_use c) /\ in_sync (gpu_gauge g) (gpu_bytes_in_use c);
}.

Record builder_ok {P} (b : TenantContextBuilder P) : Prop := {
  bok_quota : fits u64_max (b_memory_quota_bytes b);
  bok_cap : forall cap, b_gpu_memory_bytes_cap b = Some cap -> fits u64_max cap;
  bok_rate : forall ops burst, b_rate_limit b = Some (ops, burst) -> fits u64_max ops /\ fits u64_max burst;
  bok_metrics : forall g, b_metrics b = Some g -> g = mkGauges None None;
}.

(** Everything of the context but the pool and its pinned flag. *)
Definition accounting {P} (c : t P) : t unit :=
  mk (tenant_id c) (isolation c) (stream_id c) (memory_quota_bytes c) (bytes_in_use c)
    (gpu_memory_bytes_cap c) (gpu_bytes_in_use c) (cuda_mem_pool_quota_bytes c)
    None false (rate_limiter c) (cu_context c) (metrics c) (registry_token c).

(** A host without a driver pool: never called. *)
#[local] Instance no_driver : DriverMemPool unit := {
  set_release_threshold p _ := (Err NotInitialized, p);
  release_threshold _ := None;
}.

Section facts.
Context {P : Type} `{!DriverMemPool P}.
Implicit Types c : t P.

Lemma accounting_pin c : accounting (pin_driver_pool c) = accounting c.
Proof. unfold pin_driver_pool. repeat case_match; done. Qed.

Lemma accounting_ok c : ctx_ok (accounting c) <-> ctx_ok c.
Proof. split; intros []; constructor; done. Qed.

Lemma accounting_publish_gpu v w c :
  accounting (publish_gpu_memory_gauge v (set_gpu_bytes_in_use w c))
  = publish_gpu_memory_gauge v (set_gpu_bytes_in_use w (accounting c)).
Proof. unfold publish_gpu_memory_gauge; simpl. by case_match. Qed.

Lemma accounting_publish v w c :
  accounting (publish_memory_gauge v (set_bytes_in_use w c))
  = publish_memory_gauge v (set_bytes_in_use w (accounting c)).
Proof. unfold publish_memory_gauge; simpl. by case_match. Qed.

(** Without a pool the pin does nothing. *)
Lemma pin_no_pool (c : t unit) : driver_mem_pool c = None -> pin_driver_pool c = c.
Proof. unfold pin_driver_pool. intros ->. by case_match. Qed.

Lemma publish_gpu_no_pool v (c : t unit) :
  driver_mem_pool c = None -> driver_mem_pool (publish_gpu_memory_gauge v c) = None.
Proof. unfold publish_gpu_memory_gauge. by case_match. Qed.

Lemma consume_gpu_accounting c n :
  consume_gpu_bytes (accounting c) n
  = ((consume_gpu_bytes c n).1, accounting (consume_gpu_bytes c n).2).
Proof.
  unfold consume_gpu_bytes; simpl. case_match; [|done]. simpl.
  rewrite accounting_pin, accounting_publish_gpu. f_equal.
  apply pin_no_pool. by apply publish_gpu_no_pool.
Qed.

Lemma release_gpu_accounting c n :
  release_gpu_bytes_inner (accounting c) n
  = ((release_gpu_bytes_inner c n).1, accounting (release_gpu_bytes_inner c n).2).
Proof. unfold release_gpu_bytes_inner; simpl. by rewrite accounting_publish_gpu. Qed.

Lemma consume_accounting c n :
  consume_bytes_inner (accounting c) n
  = ((consume_bytes_inner c n).1, accounting (consume_bytes_inner c n).2).
Proof.
  unfold consume_bytes_inner; simpl. repeat case_match; simplify_eq/=; [|done].
  by rewrite accounting_publish.
Qed.

Lemma release_accounting c n :
  release_bytes_inner (accounting c) n
  = ((release_bytes_inner c n).1, accounting (release_bytes_inner c n).2).
Proof. unfold release_bytes_inner; simpl. by rewrite accounting_publish. Qed.

Lemma acquire_accounting c n now :
  try_acquire_ops (accounting c) n now
  = ((try_acquire_ops c n now).1, accounting (try_acquire_ops c n now).2).
Proof. unfold try_acquire_ops; simpl. case_match; [|done]. by case_match. Qed.

(** Each operation computes its reply and the accounting from the
    accounting alone. *)
Lemma run_op_accounting c o :
  run_op (accounting c) o = ((run_op c o).1, accounting (run_op c o).2).
Proof.
  destruct o as [[cap|] n|[cap|] n|[cap|] n|[cap|] n|n now]; simpl;
    unfold consume_bytes_with_capability, release_bytes_with_capability,
      consume_gpu_bytes_with_capability, release_gpu_bytes_with_capability,
      release_bytes, release_gpu_bytes, consume_bytes;
    rewrite ?consume_gpu_accounting, ?release_gpu_accounting, ?consume_accounting,
      ?release_accounting, ?acquire_accounting;
    try change (check_capability (accounting c)) with (check_capability c);
    repeat case_match; simplify_eq/=; done.
Qed.

Lemma run_ops_accounting c os :
  run_ops (accounting c) os = ((run_ops c os).1, accounting (run_ops c os).2).
Proof.
  revert c. induction os as [|o os IH]; intros c; simpl; [done|].
  rewrite run_op_accounting. destruct (run_op c o) as [r c1]; simpl.
  rewrite IH. by destruct (run_ops c1 os).
Qed.

(** The invariant, counter by counter. *)
Lemma publish_ok v c :
  ctx_ok c -> 0 <= v <= memory_quota_bytes c ->
  ctx_ok (publish_memory_gauge v (set_bytes_in_use v c)).
Proof.
  intros [? ? ? ? ? Hg] Hv. unfold publish_memory_gauge; simpl. case_match; constructor; simpl; try done.
  - intros g' [= <-]; simpl. split; [by intros w [= <-]|]. by destruct (Hg _ eq_refl).
  - congruence.
Qed.

Lemma publish_gpu_ok v c :
  ctx_ok c -> 0 <= v <= u64_max -> (forall cap, gpu_memory_bytes_cap c = Some cap -> v <= cap) ->
  ctx_ok (publish_gpu_memory_gauge v (set_gpu_bytes_in_use v c)).
Proof.
  intros [? ? ? ? ? Hg] Hv ?. unfold publish_gpu_memory_gauge; simpl.
  case_match; constructor; simpl; try done.
  - intros g' [= <-]; simpl. split; [|by intros w [= <-]]. by destruct (Hg _ eq_refl).
  - congruence.
Qed.

Lemma consume_gpu_attempt_range cap current n next :
  0 <= current <= u64_max -> fits u64_max n ->
  consume_gpu_attempt cap current n = Ok next ->
  current <= next <= u64_max /\ (forall limit, cap = Some limit -> next <= limit).
Proof.
  unfold consume_gpu_attempt, fits. intros Hc Hn H. inv_bind H. guards;
    (split; [unfold GPU_BYTES_OVERFLOW_SENTINEL; lia|]); intros; simplify_eq; lia.
Qed.

Lemma consume_ok c n : ctx_ok c -> fits u64_max n -> ctx_ok (consume_bytes_inner c n).2.
Proof.
  unfold consume_bytes_inner, consume_cas. intros Hok Hn.
  destruct (consume_attempt _ _ _) eqn:Hatt; simpl; [|done].
  destruct (CasFacts.consume_attempt_bounded _ _ _ _ Hatt). apply publish_ok; [done|].
  destruct Hok, Hn. lia.
Qed.

Lemma release_ok c n : ctx_ok c -> fits u64_max n -> ctx_ok (release_bytes_inner c n).2.
Proof.
  intros Hok Hn. simpl. apply publish_ok; [done|].
  destruct Hok. unfold fits, sat_sub in *. lia.
Qed.

Lemma consume_gpu_ok c n : ctx_ok c -> fits u64_max n -> ctx_ok (consume_gpu_bytes c n).2.
Proof.
  unfold consume_gpu_bytes. intros Hok Hn.
  destruct (consume_gpu_attempt _ _ _) eqn:Hatt; simpl; [|done].
  apply consume_gpu_attempt_range in Hatt as [Hr Hcap]; [|apply Hok|done].
  apply accounting_ok. rewrite accounting_pin. apply accounting_ok.
  apply publish_gpu_ok; [done| |done]. destruct Hok. lia.
Qed.

Lemma release_gpu_ok c n : ctx_ok c -> fits u64_max n -> ctx_ok (release_gpu_bytes_inner c n).2.
Proof.
  intros Hok Hn. simpl. unfold fits in Hn. apply publish_gpu_ok; [done|..];
    destruct Hok as [? ? ? Hcap ? ?]; unfold sat_sub; [lia|].
  intros cap Hc. specialize (Hcap cap Hc). lia.
Qed.

Lemma acquire_ok c n now : ctx_ok c -> fits u64_max n -> ctx_ok (try_acquire_ops c n now).2.
Proof.
  unfold try_acquire_ops. intros Hok [Hn _].
  destruct (rate_limiter c) as [b|] eqn:Hb; [|done].
  pose proof (TokenBucketFacts.admit_wf b n now (ok_rate _ Hok _ Hb) Hn) as Hwf.
  unfold TokenBucket.try_acquire_now. destruct (TokenBucket.admit_locked b n now) as [r b'].
  destruct Hok. constructor; simpl; try done. by intros b2 [= <-].
Qed.

Lemma let_snd {A B C} (p : A * B) (f : A -> C) : (let '(r, c) := p in (f r, c)).2 = p.2.
Proof. by destruct p. Qed.

Lemma run_op_ok c o : ctx_ok c -> op_ok o -> ctx_ok (run_op c o).2.
Proof.
  intros Hok Ho.
  destruct o as [[cap|] n|[cap|] n|[cap|] n|[cap|] n|n now]; simpl in Ho |- *; rewrite ?let_snd;
    unfold consume_bytes_with_capability, release_bytes_with_capability,
      consume_gpu_bytes_with_capability, release_gpu_bytes_with_capability,
      release_bytes, release_gpu_bytes, consume_bytes;
    try (destruct (check_capability _ _ _); [rewrite ?let_snd|done]);
    auto using consume_ok, release_ok, consume_gpu_ok, release_gpu_ok, acquire_ok.
Qed.

Lemma publish_gpu_identity v w c :
  let c' := publish_gpu_memory_gauge v (set_gpu_bytes_in_use w c) in
  tenant_id c' = tenant_id c /\ registry_token c' = registry_token c.
Proof. unfold publish_gpu_memory_gauge. by case_match. Qed.

Lemma publish_identity v w c :
  let c' := publish_memory_gauge v (set_bytes_in_use w c) in
  tenant_id c' = tenant_id c /\ registry_token c' = registry_token c.
Proof. unfold publish_memory_gauge. by case_match. Qed.

Lemma pin_identity c :
  tenant_id (pin_driver_pool c) = tenant_id c /\
  registry_token (pin_driver_pool c) = registry_token c.
Proof. unfold pin_driver_pool. by repeat case_match. Qed.

(** No operation changes whose context it is. *)
Lemma run_op_identity c o :
  tenant_id (run_op c o).2 = tenant_id c /\ registry_token (run_op c o).2 = registry_token c.
Proof.
  destruct o as [[cap|] n|[cap|] n|[cap|] n|[cap|] n|n now]; simpl; rewrite ?let_snd;
    unfold consume_bytes_with_capability, release_bytes_with_capability,
      consume_gpu_bytes_with_capability, release_gpu_bytes_with_capability,
      release_bytes, release_gpu_bytes, consume_bytes, consume_bytes_inner, release_bytes_inner,
      release_gpu_bytes_inner, consume_gpu_bytes, try_acquire_ops;
    repeat (case_match || rewrite let_snd); simplify_eq/=; try done;
    rewrite ?(proj1 (pin_identity _)), ?(proj2 (pin_identity _));
    first [apply publish_identity | apply publish_gpu_identity].
Qed.

Lemma run_ops_ok c os : ctx_ok c -> Forall op_ok os -> ctx_ok (run_ops c os).2.
Proof.
  intros Hok Hos. revert c Hok. induction Hos as [|o os Ho Hos IH]; intros c Hok; simpl; [done|].
  pose proof (run_op_ok c o Hok Ho) as H. destruct (run_op c o) as [r c1].
  specialize (IH c1 H). by destruct (run_ops c1 os).
Qed.

Lemma build_ok (b : TenantContextBuilder P) cuda now : builder_ok b -> ctx_ok (build b cuda now).1.
Proof.
  intros [Hq Hcap Hrate Hm]. unfold build; simpl.
  apply accounting_ok. rewrite accounting_pin. apply accounting_ok.
  constructor; simpl; try (unfold fits in *; lia).
  - intros cap Hc. by destruct (Hcap _ Hc).
  - intros bk Hb. apply fmap_Some in Hb as ([ops burst] & Hb & ->).
    destruct (Hrate _ _ Hb). by apply TokenBucketFacts.new_wf.
  - intros g Hg. by rewrite (Hm g Hg).
Qed.
End facts.

(** from the builder through any sequence of operations, capability
    checked or not, in any order, the host-memory balance stays within the
    quota, the GPU balance within the cap (and within u64 without one), the
    rate limiter well formed, and the published gauges equal to the
    counters. *)
Theorem context_invariant {P} `{!DriverMemPool P} (b : TenantContextBuilder P) cuda now os :
  builder_ok b -> Forall op_ok os -> ctx_ok (run_ops (build b cuda now).1 os).2.
Proof. intros Hb Hos. apply run_ops_ok; [by apply build_ok|done]. Qed.

Lemma context_invariant_witness :
  let b := mkBuilder (P := unit) 7 StreamIsolated 0 100 None (Some 50) None (Some (10, 2))
             (Some (mkGauges None None)) in
  ctx_ok (run_ops (build b None 0).1
            [OpConsume None 60; OpConsume None 60; OpConsumeGpu None 50; OpRelease None 70; OpAcquire 1 5]).2.
Proof.
  apply context_invariant; [|by repeat constructor].
  by constructor; simpl; intros; simplify_eq.
Defined.

(** the driver pool never influences accounting.  Whatever the pool does
    (succeed, fail, in any pattern), every operation of every sequence
    replies exactly as it would for the same tenant built with no pool, and
    leaves the same counters, gauges and limiter. *)
Theorem driver_never_changes_accounting {P} `{!DriverMemPool P} (b : TenantContextBuilder P) cuda now os :
  let no_pool := mkBuilder (P := unit) (b_tenant_id b) (b_isolation b) (b_stream_id b) (b_memory_quota_bytes b)
                   (b_cuda_mem_pool_quota_bytes b) (b_gpu_memory_bytes_cap b) None (b_rate_limit b) (b_metrics b) in
  (run_ops (build b cuda now).1 os).1 = (run_ops (build no_pool cuda now).1 os).1 /\
  accounting (run_ops (build b cuda now).1 os).2 = (run_ops (build no_pool cuda now).1 os).2.
Proof.
  intros no_pool.
  assert ((build no_pool cuda now).1 = accounting (build b cuda now).1) as ->.
  { unfold build; simpl. rewrite accounting_pin. by rewrite pin_no_pool. }
  by rewrite run_ops_accounting.
Qed.

(** The four capability-checked operations. *)
Definition checked_op (o : op) (cap : TenantCapability) (resource : string) : Prop :=
  (exists n, o = OpConsume (Some cap) n /\ resource = "quota.consume_bytes"%string) \/
  (exists n, o = OpRelease (Some cap) n /\ resource = "quota.release_bytes"%string) \/
  (exists n, o = OpConsumeGpu (Some cap) n /\ resource = "quota.consume_gpu_bytes"%string) \/
  (exists n, o = OpReleaseGpu (Some cap) n /\ resource = "quota.release_gpu_bytes"%string).

(** The same operation without the check. *)
Definition unchecked (o : op) : op :=
  match o with
  | OpConsume _ n => OpConsume None n
  | OpRelease _ n => OpRelease None n
  | OpConsumeGpu _ n => OpConsumeGpu None n
  | OpReleaseGpu _ n => OpReleaseGpu None n
  | OpAcquire n now => OpAcquire n now
  end.

Lemma check_capability_spec {P} (c : t P) cap resource :
  (cap_tenant_id cap = tenant_id c /\ registry_token c = Some (cap_token cap) /\
   check_capability c cap resource = Ok ()) \/
  (~ (cap_tenant_id cap = tenant_id c /\ registry_token c = Some (cap_token cap)) /\
   check_capability c cap resource
   = Err (TenantIsolationViolation (cap_tenant_id cap) (bytes_of resource))).
Proof.
  unfold check_capability. repeat case_match; bool_props;
    first [by left; split_and!; congruence | right; split; [intros []; congruence|done]].
Qed.

(** the four [*_with_capability] operations act, as the unchecked
    operation does, exactly when the capability names this tenant and was
    minted by the registry that registered this context; every other
    capability (another tenant's, another registry's, or any at all on an
    unregistered context) is refused with [TenantIsolationViolation] naming
    the operation, and the context is left untouched. *)
Theorem capability_required {P} `{!DriverMemPool P} (c : t P) o cap resource :
  checked_op o cap resource ->
  (if bool_decide (cap_tenant_id cap = tenant_id c /\ registry_token c = Some (cap_token cap)) then
     run_op c o =
       (match o with
        | OpRelease _ n => RRelease (Ok (release_outcome (bytes_in_use c) n))
        | OpReleaseGpu _ n => RRelease (Ok (release_outcome (gpu_bytes_in_use c) n))
        | _ => (run_op c (unchecked o)).1
        end, (run_op c (unchecked o)).2)
   else
     run_op c o =
       (let e := TenantIsolationViolation (cap_tenant_id cap) (bytes_of resource) in
        match o with OpRelease _ _ | OpReleaseGpu _ _ => RRelease (Err e) | _ => RConsume (Err e) end, c)).
Proof.
  intros Ho. destruct (check_capability_spec c cap resource) as [(H1 & H2 & Hok)|[Hno Herr]].
  - rewrite bool_decide_eq_true_2 by done.
    destruct Ho as [(n & -> & ->)|[(n & -> & ->)|[(n & -> & ->)|(n & -> & ->)]]]; simpl;
      unfold consume_bytes_with_capability, release_bytes_with_capability,
        consume_gpu_bytes_with_capability, release_gpu_bytes_with_capability;
      rewrite Hok; unfold consume_bytes;
      repeat (destruct (consume_bytes_inner _ _) || destruct (consume_gpu_bytes _ _)); done.
  - rewrite bool_decide_eq_false_2 by done.
    destruct Ho as [(n & -> & ->)|[(n & -> & ->)|[(n & -> & ->)|(n & -> & ->)]]]; simpl;
      unfold consume_bytes_with_capability, release_bytes_with_capability,
        consume_gpu_bytes_with_capability, release_gpu_bytes_with_capability;
      rewrite Herr; done.
Qed.

(** Registry 1's capability for tenant 7 against a context of registry 2. *)
Lemma capability_required_witness :
  let c := set_registry_token 2 (build (builder_new (P := unit) 7) None 0).1 in
  run_op c (OpConsume (Some (mkTenantCapability 7 1)) 5)
  = (RConsume (Err (TenantIsolationViolation 7 (bytes_of "quota.consume_bytes"))), c).
Proof.
  apply (capability_required (set_registry_token 2 (build (builder_new (P := unit) 7) None 0).1)
           (OpConsume (Some (mkTenantCapability 7 1)) 5) (mkTenantCapability 7 1) "quota.consume_bytes").
  left. by exists 5.
Defined.
End ContextFacts.
