(* ===== verification/TenantRegistry.v ===== *)
(** * [tensor-wasm-tenant/src/registry.rs]: the tenant registry

    The registry maps tenant ids to contexts behind [Arc]s, keeps a weak
    tombstone for every context it has unregistered, and refuses to register
    a tenant again while a handle to its previous context is alive.  The model
    keeps the heap of contexts and counts the handles held outside the
    registry, so [strong_count] is the number of handles there are.  Each
    operation is the critical section the code runs under the [inner] shard
    lock of the id, and [reg_step] interleaves them with clients cloning,
    dropping and using their handles. *)

From S2P Require Import Prelude Core TenantContext.

Inductive RegistryError :=
| AlreadyRegistered (id : Z)
| OrphanStillAlive (id : Z)
| CapabilityFromForeignRegistry.

(** An admin capability is the identity of the registry's token. *)
Record RegistryAdminCapability := mkAdminCap { admin_token : nat }.

Module Registry.
Section registry.
Context {P : Type}.

(** [handles] counts, per context, the [Arc]s outside [inner]. *)
Record t := mk {
  inner : gmap Z nat;
  tombstones : gmap Z nat;
  registry_token : nat;
  heap : gmap nat (Context.t P);
  handles : gmap nat Z;
  FOREIGN_CAP_REJECTIONS : Z;
}.

Definition PRUNE_TOMBSTONE_THRESHOLD : nat := 1024.

Definition new (token : nat) : t * RegistryAdminCapability :=
  (mk ∅ ∅ token ∅ ∅ 0, mkAdminCap token).

Definition held (s : t) (a : nat) : Z := default 0 (handles s !! a).

(** [Weak::strong_count] *)
Definition strong_count (s : t) (a : nat) : Z :=
  held s a + Z.of_nat (size (filter (fun kv : Z * nat => kv.2 = a) (inner s))).

Definition with_handle (a : nat) (s : t) : t :=
  mk (inner s) (tombstones s) (registry_token s) (heap s) (<[a := held s a + 1]> (handles s))
    (FOREIGN_CAP_REJECTIONS s).

Definition set_tombstones (m : gmap Z nat) (s : t) : t :=
  mk (inner s) m (registry_token s) (heap s) (handles s) (FOREIGN_CAP_REJECTIONS s).

Definition prune_dead_tombstones_except (skip_id : Z) (s : t) : t :=
  set_tombstones
    (filter (fun kv : Z * nat => kv.1 = skip_id \/ 0 < strong_count s kv.2) (tombstones s)) s.

Definition maybe_prune_dead_tombstones_except (skip_id : Z) (s : t) : t :=
  if bool_decide (PRUNE_TOMBSTONE_THRESHOLD < size (tombstones s))%nat
  then prune_dead_tombstones_except skip_id s else s.

(** The section of [register_with_capability] under the entry guards; the
    returned handle is the caller's. *)
Definition register_locked (ctx : Context.t P) (s : t) :
    result RegistryError (nat * TenantCapability) * t :=
  let id := Context.tenant_id ctx in
  match inner s !! id with
  | Some _ => (Err (AlreadyRegistered id), s)
  | None =>
      let commit (m : gmap Z nat) :=
        let a := fresh (dom (heap s)) in
        (Ok (a, mkTenantCapability id (registry_token s)),
         mk (<[id := a]> (inner s)) m (registry_token s)
           (<[a := Context.set_registry_token (registry_token s) ctx]> (heap s))
           (<[a := 1]> (handles s)) (FOREIGN_CAP_REJECTIONS s)) in
      match tombstones s !! id with
      | Some tomb =>
          if 0 <? strong_count s tomb then (Err (OrphanStillAlive id), s)
          else commit (delete id (tombstones s))
      | None => commit (tombstones s)
      end
  end.

Definition register_with_capability (ctx : Context.t P) (s : t) :
    result RegistryError (nat * TenantCapability) * t :=
  let '(outcome, s) := register_locked ctx s in
  (outcome,
   if is_ok outcome then maybe_prune_dead_tombstones_except (Context.tenant_id ctx) s else s).

Definition register (ctx : Context.t P) (s : t) : result RegistryError nat * t :=
  let '(outcome, s) := register_with_capability ctx s in (fst <$> outcome, s).

Definition check_admin_cap (cap : RegistryAdminCapability) (s : t) : result RegistryError () * t :=
  if bool_decide (registry_token s = admin_token cap) then (Ok (), s)
  else (Err CapabilityFromForeignRegistry,
        mk (inner s) (tombstones s) (registry_token s) (heap s) (handles s)
          ((FOREIGN_CAP_REJECTIONS s + 1) mod 2 ^ 64)).

(** [get_strict]; [get] drops the error. *)
Definition get_strict (id : Z) (cap : RegistryAdminCapability) (s : t) :
    result RegistryError (option nat) * t :=
  match check_admin_cap cap s with
  | (Err e, s) => (Err e, s)
  | (Ok _, s) =>
      match inner s !! id with
      | Some a => (Ok (Some a), with_handle a s)
      | None => (Ok None, s)
      end
  end.

Definition get (id : Z) (cap : RegistryAdminCapability) (s : t) : option nat * t :=
  let '(r, s) := get_strict id cap s in (match r with Ok o => o | Err _ => None end, s).

(** The section of [unregister] under the entry guard: the tombstone is
    planted before the entry goes, and the entry's handle moves to the
    caller. *)
Definition unregister_locked (id : Z) (s : t) : option nat * t :=
  match inner s !! id with
  | None => (None, s)
  | Some a =>
      (Some a,
       mk (delete id (inner s)) (<[id := a]> (tombstones s)) (registry_token s) (heap s)
         (<[a := held s a + 1]> (handles s)) (FOREIGN_CAP_REJECTIONS s))
  end.

Definition unregister_strict (id : Z) (cap : RegistryAdminCapability) (s : t) :
    result RegistryError (option nat) * t :=
  match check_admin_cap cap s with
  | (Err e, s) => (Err e, s)
  | (Ok _, s) =>
      let '(removed, s) := unregister_locked id s in
      (Ok removed,
       match removed with Some _ => maybe_prune_dead_tombstones_except id s | None => s end)
  end.

Definition unregister (id : Z) (cap : RegistryAdminCapability) (s : t) : option nat * t :=
  let '(r, s) := unregister_strict id cap s in (match r with Ok o => o | Err _ => None end, s).

Definition collect_tombstones (cap : RegistryAdminCapability) (s : t) : Z * t :=
  match check_admin_cap cap s with
  | (Err _, s) => (0, s)
  | (Ok _, s) =>
      let dead := filter (fun kv : Z * nat => strong_count s kv.2 = 0) (tombstones s) in
      let live := filter (fun kv : Z * nat => ~ strong_count s kv.2 = 0) (tombstones s) in
      (Z.of_nat (size dead), set_tombstones live s)
  end.

Definition tombstone_count (s : t) : Z := Z.of_nat (size (tombstones s)).

Definition len (cap : RegistryAdminCapability) (s : t) : Z * t :=
  match check_admin_cap cap s with
  | (Err _, s) => (0, s)
  | (Ok _, s) => (Z.of_nat (size (inner s)), s)
  end.

Definition is_empty (s : t) : bool := bool_decide (inner s = ∅).

(** [tenants] clones every handle; the iteration order is the map's. *)
Definition tenants (cap : RegistryAdminCapability) (s : t) : list nat * t :=
  match check_admin_cap cap s with
  | (Err _, s) => ([], s)
  | (Ok _, s) =>
      let arcs := (map_to_list (inner s)).*2 in (arcs, foldr with_handle s arcs)
  end.

Definition tenant_ids (cap : RegistryAdminCapability) (s : t) : list Z * t :=
  match check_admin_cap cap s with
  | (Err _, s) => ([], s)
  | (Ok _, s) => ((map_to_list (inner s)).*1, s)
  end.

(** One atomic action: a critical section of the registry, or a client
    using a handle it holds (cloning it, dropping it, or running an
    operation of the context behind it). *)
Inductive reg_step `{!DriverMemPool P} : t -> t -> Prop :=
| step_register ctx s : reg_step s (register_locked ctx s).2
| step_prune id s : reg_step s (maybe_prune_dead_tombstones_except id s)
| step_check cap s : reg_step s (check_admin_cap cap s).2
| step_get id s a : inner s !! id = Some a -> reg_step s (with_handle a s)
| step_unregister id s : reg_step s (unregister_locked id s).2
| step_collect cap s : reg_step s (collect_tombstones cap s).2
| step_clone a s : 0 < held s a -> reg_step s (with_handle a s)
| step_drop a s :
    0 < held s a ->
    reg_step s (mk (inner s) (tombstones s) (registry_token s) (heap s)
                  (<[a := held s a - 1]> (handles s)) (FOREIGN_CAP_REJECTIONS s))
| step_use a c o s :
    0 < held s a -> heap s !! a = Some c ->
    reg_step s (mk (inner s) (tombstones s) (registry_token s)
                  (<[a := (ContextFacts.run_op c o).2]> (heap s)) (handles s)
                  (FOREIGN_CAP_REJECTIONS s)).

(** A live context: some handle to it exists, in the registry or outside. *)
Definition live (s : t) (a : nat) : Prop := 0 < strong_count s a.

Record inv (s : t) : Prop := {
  inv_held : forall a, 0 <= held s a;
  inv_held_heap : forall a, 0 < held s a -> is_Some (heap s !! a);
  inv_inner : forall id a, inner s !! id = Some a ->
    exists c, heap s !! a = Some c /\ Context.tenant_id c = id /\
              Context.registry_token c = Some (registry_token s);
  inv_tomb : forall id a, tombstones s !! id = Some a ->
    exists c, heap s !! a = Some c /\ Context.tenant_id c = id;
  inv_disjoint : forall id, is_Some (inner s !! id) -> tombstones s !! id = None;
  inv_live : forall a c, heap s !! a = Some c -> 0 < held s a ->
    inner s !! Context.tenant_id c = Some a \/ tombstones s !! Context.tenant_id c = Some a;
}.
End registry.
#[global] Arguments t : clear implicits.
End Registry.

(** ** The multi-process-service probe

    [exists_] is [Path::exists]; a Unix path is absolute when it starts with a
    slash, and [join] adds one unless the directory ends with it. *)

Module Mps.
Local Open Scope byte_scope.

Inductive MpsDecision := Mps (dir : str) | Fallback.

Definition MPS_CONTROL_PATH : str := bytes_of "/tmp/nvidia-mps".

Definition is_absolute (p : str) : bool :=
  match p with "/" :: _ => true | _ => false end.

Definition join (dir file : str) : str :=
  match last dir with
  | Some "/" | None => dir ++ file
  | _ => dir ++ "/" :: file
  end.

Definition probe_mps_env_and_disk (env_dir : option str) (exists_ : str -> bool) : MpsDecision :=
  let probe dir := if exists_ (join dir (bytes_of "control")) then Mps dir else Fallback in
  match env_dir with
  | Some d => if negb (is_absolute d) then Fallback else probe d
  | None => probe MPS_CONTROL_PATH
  end.
End Mps.

Module RegistryFacts.
Import Registry.

Section facts.
Context {P : Type} `{!DriverMemPool P}.
Implicit Types s : t P.

(** A registered context is live, and so is one somebody holds. *)
Lemma live_cases s a :
  (forall a, 0 <= held s a) ->
  live s a <-> 0 < held s a \/ exists id, inner s !! id = Some a.
Proof.
  intros Hheld. unfold live, strong_count. specialize (Hheld a). split.
  - intros H. destruct (decide (0 < held s a)); [by left|right].
    assert (filter (fun kv : Z * nat => kv.2 = a) (inner s) <> ∅) as Hne.
    { intros He. rewrite He, map_size_empty in H. lia. }
    apply map_choose in Hne as (id & b & Hb).
    apply map_lookup_filter_Some in Hb as [Hb Heq]. simpl in Heq. subst. by exists id.
  - intros [H|(id & Hid)]; [lia|].
    assert (size (filter (fun kv : Z * nat => kv.2 = a) (inner s)) <> 0%nat); [|lia].
    apply map_size_ne_0_lookup. exists id, a.
    by apply map_lookup_filter_Some.
Qed.

Lemma held_insert s m toks tok (h : gmap nat (Context.t P)) r a b v :
  held (mk m toks tok h (<[a := v]> (handles s)) r) b = if decide (a = b) then v else held s b.
Proof.
  unfold held; simpl. case_decide; subst.
  - by rewrite lookup_insert_eq.
  - by rewrite lookup_insert_ne.
Qed.

Lemma new_inv token : inv (P := P) (new token).1.
Proof.
  constructor; unfold held; simpl; intros *; rewrite ?lookup_empty; simpl; try done; try lia.
Qed.

(** Changing the number of handles of a context that is in the heap and
    stays accounted for. *)
Lemma inv_handles s a v :
  inv s -> 0 <= v -> is_Some (heap s !! a) ->
  (forall c, heap s !! a = Some c -> 0 < v ->
     inner s !! Context.tenant_id c = Some a \/ tombstones s !! Context.tenant_id c = Some a) ->
  inv (mk (inner s) (tombstones s) (registry_token s) (heap s) (<[a := v]> (handles s))
         (FOREIGN_CAP_REJECTIONS s)).
Proof.
  intros [H1 H2 H3 H4 H5 H6] Hv Ha Hcov. constructor; simpl; try done; intros *;
    rewrite held_insert; case_decide; subst; eauto.
Qed.

Lemma inv_tombstones s m :
  inv s -> m ⊆ tombstones s ->
  (forall id a, tombstones s !! id = Some a -> live s a -> m !! id = Some a) ->
  inv (set_tombstones m s).
Proof.
  intros [H1 H2 H3 H4 H5 H6] Hsub Hlive. constructor; simpl; try done.
  - intros id a Hm. eapply H4, lookup_weaken; eauto.
  - intros id Hin. specialize (H5 id Hin). destruct (m !! id) eqn:E; [|done].
    by rewrite (lookup_weaken _ _ _ _ E Hsub) in H5.
  - intros a c Ha Hheld. destruct (H6 a c Ha Hheld) as [|Ht]; [by left|right].
    apply Hlive; [done|]. apply live_cases; [done|by left].
Qed.

Lemma inv_prune s id : inv s -> inv (maybe_prune_dead_tombstones_except id s).
Proof.
  intros Hinv. unfold maybe_prune_dead_tombstones_except. case_bool_decide; [|done].
  apply inv_tombstones; [done|apply map_filter_subseteq|].
  intros id' a Ha Hl. apply map_lookup_filter_Some. split; [done|by right].
Qed.

Lemma inv_check s cap : inv s -> inv (check_admin_cap cap s).2.
Proof.
  intros [H1 H2 H3 H4 H5 H6]. unfold check_admin_cap. case_bool_decide; constructor; done.
Qed.

Lemma inv_collect s cap : inv s -> inv (collect_tombstones cap s).2.
Proof.
  intros Hinv. pose proof (inv_check s cap Hinv) as Hc. unfold collect_tombstones.
  destruct (check_admin_cap cap s) as [[[]|] s']; simpl in *; [|done].
  apply inv_tombstones; [done|apply map_filter_subseteq|].
  intros id' a Ha Hl. apply map_lookup_filter_Some. split; [done|].
  unfold live in Hl. simpl. lia.
Qed.

Lemma inv_with_handle s a : inv s -> live s a -> inv (with_handle a s).
Proof.
  intros Hinv Hl. pose proof (inv_held _ Hinv a). apply live_cases in Hl; [|apply Hinv].
  apply inv_handles; [done|lia|..].
  - destruct Hl as [Hh|(id & Hid)]; [by apply Hinv|].
    destruct (inv_inner _ Hinv _ _ Hid) as (c & -> & _). by exists c.
  - intros c Hc _. destruct Hl as [Hh|(id & Hid)]; [by apply Hinv|].
    destruct (inv_inner _ Hinv _ _ Hid) as (c' & Hc' & <- & _). simplify_eq. by left.
Qed.

Lemma inv_drop s a :
  inv s -> 0 < held s a ->
  inv (mk (inner s) (tombstones s) (registry_token s) (heap s) (<[a := held s a - 1]> (handles s))
         (FOREIGN_CAP_REJECTIONS s)).
Proof.
  intros Hinv Hh. apply inv_handles; [done|lia|by apply Hinv|]. intros c Hc _. by apply Hinv.
Qed.

Lemma inv_use s a c o :
  inv s -> heap s !! a = Some c ->
  inv (mk (inner s) (tombstones s) (registry_token s) (<[a := (ContextFacts.run_op c o).2]> (heap s))
         (handles s) (FOREIGN_CAP_REJECTIONS s)).
Proof.
  intros [H1 H2 H3 H4 H5 H6] Ha. destruct (ContextFacts.run_op_identity c o) as [Hid Htok].
  constructor; simpl; try done.
  - intros b Hb. rewrite lookup_insert_is_Some'. right. by apply H2.
  - intros id b Hb. destruct (H3 _ _ Hb) as (c' & Hc' & ? & ?).
    destruct (decide (a = b)) as [->|]; simplify_eq.
    + rewrite lookup_insert_eq. eexists. split_and!; [done|congruence|congruence].
    + rewrite lookup_insert_ne by done. eauto.
  - intros id b Hb. destruct (H4 _ _ Hb) as (c' & Hc' & ?).
    destruct (decide (a = b)) as [->|]; simplify_eq.
    + rewrite lookup_insert_eq. eauto.
    + rewrite lookup_insert_ne by done. eauto.
  - intros b c'. destruct (decide (a = b)) as [->|].
    + rewrite lookup_insert_eq. intros [= <-] Hh. rewrite Hid. by apply H6.
    + rewrite lookup_insert_ne by done. apply H6.
Qed.

Lemma inv_unregister s id : inv s -> inv (unregister_locked id s).2.
Proof.
  intros [H1 H2 H3 H4 H5 H6]. unfold unregister_locked.
  destruct (inner s !! id) as [a|] eqn:Hid; [|by constructor].
  destruct (H3 _ _ Hid) as (c & Hc & Htid & Htok).
  constructor; simpl; intros *; rewrite ?held_insert.
  - case_decide; [specialize (H1 a); lia|done].
  - case_decide; subst; eauto.
  - intros [_ Hb]%lookup_delete_Some. eauto.
  - destruct (decide (id = id0)) as [<-|]; [rewrite lookup_insert_eq; intros [= <-]; eauto|].
    rewrite lookup_insert_ne by done. eauto.
  - intros [b [Hne Hb]%lookup_delete_Some]. rewrite lookup_insert_ne by done. eauto.
  - intros Hc0 Hh. destruct (decide (id = Context.tenant_id c0)) as [->|Hne].
    + right. rewrite lookup_insert_eq. case_decide; [congruence|].
      specialize (H5 _ ltac:(eauto)). destruct (H6 _ _ Hc0 Hh); congruence.
    + rewrite lookup_delete_ne, lookup_insert_ne by done.
      case_decide; [congruence|eauto].
Qed.

(** The state after a successful registration. *)
Lemma inv_commit s ctx a m :
  inv s -> let id := Context.tenant_id ctx in
  inner s !! id = None -> heap s !! a = None ->
  m = delete id (tombstones s) ->
  (forall b, tombstones s !! id = Some b -> ~ live s b) ->
  inv (mk (<[id := a]> (inner s)) m (registry_token s)
         (<[a := Context.set_registry_token (registry_token s) ctx]> (heap s))
         (<[a := 1]> (handles s)) (FOREIGN_CAP_REJECTIONS s)).
Proof.
  intros [H1 H2 H3 H4 H5 H6] id Hin Ha -> Hdead.
  constructor; simpl; intros *; rewrite ?held_insert.
  - case_decide; [lia|done].
  - case_decide; [intros _; rewrite lookup_insert_is_Some'; by left|].
    rewrite lookup_insert_is_Some'. eauto.
  - destruct (decide (id = id0)) as [<-|].
    + rewrite lookup_insert_eq. intros [= <-]. eexists. by rewrite lookup_insert_eq.
    + rewrite lookup_insert_ne by done. intros Hb. destruct (H3 _ _ Hb) as (c & Hc & ? & ?).
      assert (a <> a0) by congruence. rewrite lookup_insert_ne by done. eauto.
  - intros [_ Hb]%lookup_delete_Some. destruct (H4 _ _ Hb) as (c & Hc & ?).
    assert (a <> a0) by congruence. rewrite lookup_insert_ne by done. eauto.
  - destruct (decide (id = id0)) as [<-|]; [by rewrite lookup_delete_eq|].
    rewrite lookup_insert_ne, lookup_delete_ne by done. apply H5.
  - intros Hc Hh. destruct (decide (a = a0)) as [<-|].
    + rewrite lookup_insert_eq in Hc. simplify_eq/=. left. apply lookup_insert_eq.
    + rewrite lookup_insert_ne in Hc by done.
      destruct (decide (id = Context.tenant_id c)) as [E|].
      * destruct (H6 _ _ Hc Hh) as [|Ht]; [congruence|]. rewrite <-E in Ht.
        destruct (Hdead _ Ht). apply live_cases; [done|by left].
      * rewrite lookup_insert_ne, lookup_delete_ne by done. eauto.
Qed.

Lemma inv_register s ctx : inv s -> inv (register_locked ctx s).2.
Proof.
  intros Hinv. unfold register_locked.
  destruct (inner s !! _) eqn:Hin; [done|].
  assert (heap s !! fresh (dom (heap s)) = None) as Hfresh
    by (apply not_elem_of_dom, is_fresh).
  destruct (tombstones s !! _) as [tomb|] eqn:Ht.
  - case_match; bool_props; [done|]. apply inv_commit; [done..|].
    intros b Hb. unfold live. replace b with tomb by congruence. lia.
  - apply inv_commit; try done; [by rewrite delete_id|congruence].
Qed.

Lemma inv_step s s' : inv s -> reg_step s s' -> inv s'.
Proof.
  intros Hinv Hstep. destruct Hstep;
    auto using inv_register, inv_prune, inv_check, inv_unregister, inv_collect, inv_drop, inv_use.
  - apply inv_with_handle; [done|]. apply live_cases; [apply Hinv|eauto].
  - apply inv_with_handle; [done|]. apply live_cases; [apply Hinv|eauto].
Qed.

Lemma inv_reachable token s : rtc reg_step (new token).1 s -> inv s.
Proof.
  intros Hr. pose proof (new_inv token) as H0.
  induction Hr as [|s1 s2 s3 H12 _ IH]; [done|]. by eapply IH, inv_step.
Qed.

(** Where a live context of a tenant is. *)
Lemma live_place s a c :
  inv s -> heap s !! a = Some c -> live s a ->
  inner s !! Context.tenant_id c = Some a \/
  (inner s !! Context.tenant_id c = None /\ tombstones s !! Context.tenant_id c = Some a).
Proof.
  intros Hinv Hc Hl. apply live_cases in Hl; [|apply Hinv].
  destruct (inner s !! Context.tenant_id c) as [b|] eqn:Hin.
  - left. destruct Hl as [Hh|(id & Hid)].
    + destruct (inv_live _ Hinv _ _ Hc Hh) as [|Ht]; [congruence|].
      by rewrite (inv_disjoint _ Hinv) in Ht by eauto.
    + destruct (inv_inner _ Hinv _ _ Hid) as (c' & Hc' & <- & _). congruence.
  - right. split; [done|]. destruct Hl as [Hh|(id & Hid)].
    + destruct (inv_live _ Hinv _ _ Hc Hh) as [|Ht]; [congruence|done].
    + destruct (inv_inner _ Hinv _ _ Hid) as (c' & Hc' & <- & _). congruence.
Qed.

Lemma own_capability_passes (ctx : Context.t P) token resource :
  Context.check_capability (Context.set_registry_token token ctx)
    (mkTenantCapability (Context.tenant_id ctx) token) resource = Ok ().
Proof.
  unfold Context.check_capability; simpl. rewrite Z.eqb_refl; simpl.
  by rewrite bool_decide_eq_true_2.
Qed.

(** The branches of the registration's critical section. *)
Lemma register_locked_cases s ctx :
  let id := Context.tenant_id ctx in
  (register_locked ctx s = (Err (AlreadyRegistered id), s) /\ exists b, inner s !! id = Some b) \/
  (register_locked ctx s = (Err (OrphanStillAlive id), s) /\ inner s !! id = None /\
   exists b, tombstones s !! id = Some b /\ live s b) \/
  (exists a s', register_locked ctx s = (Ok (a, mkTenantCapability id (registry_token s)), s') /\
   heap s !! a = None /\ inner s !! id = None /\
   (forall b, tombstones s !! id = Some b -> ~ live s b) /\
   inner s' = <[id := a]> (inner s) /\
   heap s' = <[a := Context.set_registry_token (registry_token s) ctx]> (heap s) /\
   handles s' = <[a := 1]> (handles s)).
Proof.
  intros id. unfold register_locked. fold id.
  assert (heap s !! fresh (dom (heap s)) = None) as Hfresh by (apply not_elem_of_dom, is_fresh).
  destruct (inner s !! id) as [b|] eqn:Hin; [left; eauto|right].
  destruct (tombstones s !! id) as [b|] eqn:Ht.
  - destruct (0 <? strong_count s b) eqn:Hl; bool_props; [left; eauto 6|right].
    eexists _, _. split_and!; try done. intros b' [= <-]. unfold live. lia.
  - right. eexists _, _. by split_and!.
Qed.

Lemma prune_bound s id :
  let s' := maybe_prune_dead_tombstones_except id s in
  (size (tombstones s') <= PRUNE_TOMBSTONE_THRESHOLD)%nat \/
  (forall id' a, tombstones s' !! id' = Some a -> id' <> id -> live s' a).
Proof.
  unfold maybe_prune_dead_tombstones_except. case_bool_decide; [right|left; lia].
  intros id' a [_ [|H']]%map_lookup_filter_Some Hne; [done|exact H'].
Qed.

(** Pruning keeps everything but dead tombstones. *)
Lemma prune_keeps s id :
  let s' := maybe_prune_dead_tombstones_except id s in
  inner s' = inner s /\ heap s' = heap s /\ handles s' = handles s /\
  registry_token s' = registry_token s.
Proof. unfold maybe_prune_dead_tombstones_except. by case_bool_decide. Qed.
End facts.

(** C5: at every moment of every interleaving of registry operations (by any
    number of threads) with clients cloning, dropping and using their
    handles, a tenant has at most one live context: an unregistered context
    that someone still holds blocks re-registration, so a tenant's quota
    cannot be doubled by unregistering and registering again. *)
Theorem one_live_context_per_tenant {P} `{!DriverMemPool P} token (s : t P) a b ca cb :
  rtc reg_step (new token).1 s ->
  heap s !! a = Some ca -> heap s !! b = Some cb ->
  Context.tenant_id ca = Context.tenant_id cb -> live s a -> live s b -> a = b.
Proof.
  intros Hinv%inv_reachable Ha Hb Hid Hla Hlb.
  destruct (live_place _ _ _ Hinv Ha Hla), (live_place _ _ _ Hinv Hb Hlb);
    rewrite Hid in *; destruct_and?; congruence.
Qed.

(** A host with no driver pool, for the concrete runs. *)
#[local] Instance no_pool : DriverMemPool unit := {
  set_release_threshold p _ := (Err NotInitialized, p);
  release_threshold _ := None;
}.
Definition ctx7 : Context.t unit := (Context.build (Context.builder_new 7) None 0).1.
Definition reg1 : t unit := (register_locked ctx7 (new 3).1).2.
Definition reg2 : t unit := (unregister_locked 7 reg1).2.
Definition reg3 : t unit := (register_locked ctx7 reg2).2.

Lemma reg3_reachable : rtc reg_step (new 3).1 reg3.
Proof.
  eapply rtc_l; [apply (step_register ctx7)|]. eapply rtc_l; [apply (step_unregister 7)|].
  eapply rtc_l; [apply (step_register ctx7)|]. apply rtc_refl.
Qed.

Lemma one_live_context_per_tenant_witness :
  is_ok (register_locked ctx7 reg2).1 = false /\
  (forall b cb, heap reg3 !! b = Some cb -> Context.tenant_id cb = 7 -> live reg3 b -> 0%nat = b).
Proof.
  split; [reflexivity|]. intros b cb Hb Hid Hl.
  apply (one_live_context_per_tenant 3 reg3 0 b (Context.set_registry_token 3 ctx7) cb reg3_reachable);
    [reflexivity|done|by rewrite Hid|reflexivity|done].
Defined.

(** registration in a reachable state.  It succeeds exactly when the id
    has no live context (neither registered nor orphaned), and then the
    capability it mints passes the check of the context it registered; it
    fails with [AlreadyRegistered] or [OrphanStillAlive] according to where
    the live context is, and changes nothing. *)
Theorem register_outcome {P} `{!DriverMemPool P} token (s : t P) ctx :
  rtc reg_step (new token).1 s ->
  let id := Context.tenant_id ctx in
  match register_with_capability ctx s with
  | (Ok (a, cap), s') =>
      heap s !! a = None /\ inner s' = <[id := a]> (inner s) /\ live s' a /\
      (forall b c, heap s !! b = Some c -> Context.tenant_id c = id -> ~ live s b) /\
      exists c, heap s' !! a = Some c /\ forall resource, Context.check_capability c cap resource = Ok ()
  | (Err e, s') =>
      s' = s /\ exists b c, heap s !! b = Some c /\ Context.tenant_id c = id /\ live s b /\
      e = if bool_decide (inner s !! id = Some b) then AlreadyRegistered id else OrphanStillAlive id
  end.
Proof.
  intros Hr id. pose proof (inv_reachable _ _ Hr) as Hinv. unfold register_with_capability. fold id.
  destruct (register_locked_cases s ctx) as [(-> & b & Hin)|[(-> & Hin & b & Ht & Hl)|Hok]]; simpl.
  - split; [done|]. destruct (inv_inner _ Hinv _ _ Hin) as (c & Hc & Hid & _).
    exists b, c. split_and!; [done..| |by rewrite bool_decide_eq_true_2].
    apply live_cases; [apply Hinv|eauto].
  - split; [done|]. destruct (inv_tomb _ Hinv _ _ Ht) as (c & Hc & Hid).
    exists b, c. split_and!; [done..|]. subst id. by rewrite Hin, bool_decide_eq_false_2.
  - destruct Hok as (a & s1 & Hreg & Ha & Hin & Hdead & Hi1 & Hh1 & Hhd1). rewrite Hreg. simpl.
    destruct (prune_keeps s1 id) as (Hi & Hh & Hhd & _). fold id in Hi1. split_and!.
    + done.
    + by rewrite Hi.
    + apply live_cases; [by apply inv_prune; pose proof (inv_register _ ctx Hinv) as H; rewrite Hreg in H|].
      right. exists id. by rewrite Hi, Hi1, lookup_insert_eq.
    + intros b c Hc Hid Hl. destruct (live_place _ _ _ Hinv Hc Hl) as [Hi'|[_ Ht]]; rewrite Hid in *; subst id; [congruence|].
      by eapply Hdead.
    + eexists. rewrite Hh, Hh1, lookup_insert_eq. split; [done|]. intros resource.
      apply own_capability_passes.
Qed.

Lemma register_outcome_witness :
  is_ok (register_with_capability ctx7 reg1).1 = false /\
  exists b c, heap reg1 !! b = Some c /\ Context.tenant_id c = 7 /\ live reg1 b /\
    AlreadyRegistered 7 = (if bool_decide (inner reg1 !! 7 = Some b) then AlreadyRegistered 7 else OrphanStillAlive 7).
Proof.
  split; [reflexivity|].
  assert (rtc reg_step (new 3).1 reg1) as Hr.
  { eapply rtc_l; [apply (step_register ctx7)|]. apply rtc_refl. }
  exact (proj2 (register_outcome 3 reg1 ctx7 Hr)).
Defined.

(** an admin capability of another registry opens nothing: every admin
    operation returns its empty answer, the registry's maps, heap and
    handles are untouched, and each refusal is counted. *)
Theorem foreign_admin_cap_refused {P} (s : t P) cap id :
  admin_token cap <> registry_token s ->
  let refused := mk (inner s) (tombstones s) (registry_token s) (heap s) (handles s)
                   ((FOREIGN_CAP_REJECTIONS s + 1) mod 2 ^ 64) in
  get id cap s = (None, refused) /\ unregister id cap s = (None, refused) /\
  get_strict id cap s = (Err CapabilityFromForeignRegistry, refused) /\
  unregister_strict id cap s = (Err CapabilityFromForeignRegistry, refused) /\
  collect_tombstones cap s = (0, refused) /\ len cap s = (0, refused) /\
  tenants cap s = ([], refused) /\ tenant_ids cap s = ([], refused).
Proof.
  intros Hcap refused.
  assert (check_admin_cap cap s = (Err CapabilityFromForeignRegistry, refused)) as Hc.
  { unfold check_admin_cap. by rewrite bool_decide_eq_false_2 by congruence. }
  unfold get, unregister, get_strict, unregister_strict, collect_tombstones, len, tenants, tenant_ids.
  by rewrite Hc.
Qed.

Lemma foreign_admin_cap_refused_witness :
  (unregister 7 (mkAdminCap 4) reg1).1 = None /\ is_Some (inner (unregister 7 (mkAdminCap 4) reg1).2 !! 7).
Proof.
  destruct (foreign_admin_cap_refused reg1 (mkAdminCap 4) 7) as (_ & -> & _); [done|].
  split; [done|]. by exists 0%nat.
Defined.

(** the tombstone map stays bounded.  After every registration or
    removal it holds at most [PRUNE_TOMBSTONE_THRESHOLD] entries, unless
    every entry but the one just touched is a context somebody still
    holds. *)
Theorem tombstones_bounded {P} (s : t P) id cap :
  (unregister id cap s).1 <> None ->
  let s' := (unregister id cap s).2 in
  (size (tombstones s') <= PRUNE_TOMBSTONE_THRESHOLD)%nat \/
  (forall id' a, tombstones s' !! id' = Some a -> id' <> id -> live s' a).
Proof.
  unfold unregister, unregister_strict. intros Hne.
  destruct (check_admin_cap cap s) as [[[]|] s1]; [|done].
  destruct (unregister_locked id s1) as [[a|] s2]; [|done]. simpl.
  apply prune_bound.
Qed.

Lemma tombstones_bounded_witness :
  (size (tombstones (unregister 7 (mkAdminCap 3) reg1).2) <= PRUNE_TOMBSTONE_THRESHOLD)%nat \/
  (forall id' a, tombstones (unregister 7 (mkAdminCap 3) reg1).2 !! id' = Some a -> id' <> 7 ->
     live (unregister 7 (mkAdminCap 3) reg1).2 a).
Proof. apply (tombstones_bounded reg1 7 (mkAdminCap 3)). vm_compute. discriminate. Defined.
End RegistryFacts.

Module MpsFacts.
Import Mps.

(** The probe stops at the directory the environment names: when its control
    pipe is absent the answer is [Fallback], even where the default
    directory has one. *)
Lemma env_dir_hides_default :
  let on_disk p := bool_decide (p = bytes_of "/tmp/nvidia-mps/control") in
  probe_mps_env_and_disk None on_disk = Mps MPS_CONTROL_PATH /\
  probe_mps_env_and_disk (Some (bytes_of "/run/mps")) on_disk = Fallback.
Proof. split; reflexivity. Qed.
End MpsFacts.
