(* ===== verification/KernelArgs.v ===== *)
(** * [tensor-wasm-wasi-gpu/src/kernel_args.rs]: the kernel argument codec

    A guest launches a kernel with a buffer of tagged values.  [parse_argv]
    bounds-checks every pointer argument against the guest's linear memory
    (whose bytes live at host address [base]) and lowers the buffer to
    [LoweredArg]s; [build_kernel_param_storage] lays the values out for
    [cuLaunchKernel].  Floats are their bit patterns, a [Ptr]'s host pointer an
    address.  [AbiError] is from [abi.rs]. *)

From S2P Require Import Prelude Core.

Inductive AbiError :=
| NotAvailable | InvalidPointer | InvalidKernel | MalformedPtx | LaunchFailed
| QuotaExceeded | Internal | InvalidDimensions | InvalidArgs
| KernelArgsUnsupported | InvalidHandle.

#[global] Instance AbiError_eq_dec : EqDecision AbiError.
Proof. solve_decision. Defined.

Definition code (e : AbiError) : Z :=
  match e with
  | NotAvailable => -1 | InvalidPointer => -2 | InvalidKernel => -3 | MalformedPtx => -4
  | LaunchFailed => -5 | QuotaExceeded => -6 | Internal => -7 | InvalidDimensions => -8
  | InvalidArgs => -9 | KernelArgsUnsupported => -10 | InvalidHandle => -11
  end.

Module KernelArgs.
Definition MAX_KERNEL_ARGS : nat := 128.
Definition MAX_KERNEL_ARGS_BYTES : nat := 4 * 1024.

Inductive ArgTag := TI32 | TI64 | TF32 | TF64 | TU32 | TU64 | TPtr.

Definition from_byte (b : u8) : result AbiError ArgTag :=
  match b with
  | Byte.x01 => Ok TI32
  | Byte.x02 => Ok TI64
  | Byte.x03 => Ok TF32
  | Byte.x04 => Ok TF64
  | Byte.x05 => Ok TU32
  | Byte.x06 => Ok TU64
  | Byte.x07 => Ok TPtr
  | _ => Err InvalidArgs
  end.

(** The [#[repr(u8)]] discriminants. *)
Definition tag_byte (t : ArgTag) : u8 :=
  match t with
  | TI32 => Byte.x01 | TI64 => Byte.x02 | TF32 => Byte.x03 | TF64 => Byte.x04
  | TU32 => Byte.x05 | TU64 => Byte.x06 | TPtr => Byte.x07
  end.

Definition value_bytes (t : ArgTag) : nat :=
  match t with
  | TI32 | TF32 | TU32 => 4
  | TI64 | TF64 | TU64 => 8
  | TPtr => 8
  end.

Inductive LoweredArg :=
| I32 (v : Z)
| I64 (v : Z)
| F32 (bits : Z)
| F64 (bits : Z)
| U32 (v : Z)
| U64 (v : Z)
| Ptr (host_ptr len guest_offset : Z).

Inductive LoweredArgSnapshot :=
| SI32 (v : Z) | SI64 (v : Z) | SF32 (bits : Z) | SF64 (bits : Z) | SU32 (v : Z) | SU64 (v : Z)
| SPtr (len guest_offset : Z).

Definition snapshot_from (arg : LoweredArg) : LoweredArgSnapshot :=
  match arg with
  | I32 v => SI32 v
  | I64 v => SI64 v
  | F32 v => SF32 v
  | F64 v => SF64 v
  | U32 v => SU32 v
  | U64 v => SU64 v
  | Ptr _ len guest_offset => SPtr len guest_offset
  end.

Definition ptr_for_encoding (guest_offset len : Z) : LoweredArg := Ptr 0 len guest_offset.

(** The arm of the parse loop for [tag], on its [value_bytes] bytes. *)
Definition lower_value (base mem_len : Z) (tag : ArgTag) (val : list u8) :
    result AbiError LoweredArg :=
  match tag with
  | TI32 => Ok (I32 (as_i32 (from_le_bytes val)))
  | TI64 => Ok (I64 (as_i64 (from_le_bytes val)))
  | TF32 => Ok (F32 (from_le_bytes val))
  | TF64 => Ok (F64 (from_le_bytes val))
  | TU32 => Ok (U32 (from_le_bytes val))
  | TU64 => Ok (U64 (from_le_bytes val))
  | TPtr =>
      let guest_offset := from_le_bytes (slice 0 4 val) in
      let len := from_le_bytes (slice 4 8 val) in
      let start := guest_offset in
      end_ ← ok_or InvalidPointer (checked_add usize_max start len);
      if mem_len <? end_ then Err InvalidPointer
      else Ok (Ptr (base + start) len guest_offset)
  end.

(** The [while i < buf.len()] loop, on the bytes from [i] on.  Every pass
    consumes at least the tag, so [length rest] passes are enough. *)
Fixpoint parse_loop (base mem_len : Z) (fuel : nat) (rest : list u8) (out : list LoweredArg) :
    result AbiError (list LoweredArg) :=
  match fuel, rest with
  | S fuel, b :: rest =>
      if bool_decide (MAX_KERNEL_ARGS <= length out)%nat then Err KernelArgsUnsupported
      else
        tag ← from_byte b;
        let need := value_bytes tag in
        if bool_decide (length rest < need)%nat then Err InvalidArgs
        else
          arg ← lower_value base mem_len tag (take need rest);
          parse_loop base mem_len fuel (drop need rest) (out ++ [arg])
  | _, _ => Ok out
  end.

Definition parse_argv (base mem_len : Z) (buf : list u8) : result AbiError (list LoweredArg) :=
  if bool_decide (MAX_KERNEL_ARGS_BYTES < length buf)%nat then Err KernelArgsUnsupported
  else parse_loop base mem_len (length buf) buf [].

Definition encode_arg (a : LoweredArg) : list u8 :=
  match a with
  | I32 v => tag_byte TI32 :: to_le_bytes 4 v
  | I64 v => tag_byte TI64 :: to_le_bytes 8 v
  | F32 v => tag_byte TF32 :: to_le_bytes 4 v
  | F64 v => tag_byte TF64 :: to_le_bytes 8 v
  | U32 v => tag_byte TU32 :: to_le_bytes 4 v
  | U64 v => tag_byte TU64 :: to_le_bytes 8 v
  | Ptr _ len guest_offset => tag_byte TPtr :: to_le_bytes 4 guest_offset ++ to_le_bytes 4 len
  end.

Definition encode_argv (args : list LoweredArg) : list u8 := concat (encode_arg <$> args).

(** Native alignment and little-endian bytes of the value a slot holds. *)
Definition slot_align (a : LoweredArg) : Z :=
  match a with
  | I32 _ | F32 _ | U32 _ => 4
  | I64 _ | F64 _ | U64 _ | Ptr _ _ _ => 8
  end.

Definition slot_bytes (a : LoweredArg) : list u8 :=
  match a with
  | I32 v | F32 v | U32 v => to_le_bytes 4 v
  | I64 v | F64 v | U64 v => to_le_bytes 8 v
  | Ptr host_ptr _ _ => to_le_bytes 8 host_ptr
  end.

Definition estimated_cap (args : list LoweredArg) : Z :=
  sumZ (fun a =>
    match a with
    | I32 _ | F32 _ | U32 _ => 4 - 1 + 4
    | I64 _ | F64 _ | U64 _ => 8 - 1 + 8
    | Ptr _ _ _ => 8 - 1 + 8
    end) args.

(** [backing.resize(unpadded + padding, 0)] with
    [padding = unpadded.wrapping_neg() & (align - 1)], then the bytes. *)
Definition push_slot (st : list u8 * list Z) (align : Z) (bytes : list u8) : list u8 * list Z :=
  let '(backing, offsets) := st in
  let unpadded := Z.of_nat (length backing) in
  let padding := Z.land ((- unpadded) mod 2 ^ 64) (align - 1) in
  let backing := backing ++ replicate (Z.to_nat padding) Byte.x00 in
  (backing ++ bytes, offsets ++ [Z.of_nat (length backing)]).

Record KernelParamStorage := mkStorage { backing : list u8; slots : list Z }.

(** [data] is the address the allocator gave the buffer. *)
Definition build_kernel_param_storage (data : Z) (args : list LoweredArg) : KernelParamStorage :=
  let '(bytes, offsets) :=
    fold_left (fun st a => push_slot st (slot_align a) (slot_bytes a)) args ([], []) in
  mkStorage bytes ((fun off => data + off) <$> offsets).
End KernelArgs.

Module KernelArgsFacts.
Import KernelArgs.

(** An argument the guest can name: values of their width, a pointer window
    inside linear memory, and the host pointer the window's first byte. *)
Definition arg_ok (base mem_len : Z) (a : LoweredArg) : Prop :=
  match a with
  | I32 v => - 2 ^ 31 <= v < 2 ^ 31
  | I64 v => - 2 ^ 63 <= v < 2 ^ 63
  | F32 v | U32 v => 0 <= v < 2 ^ 32
  | F64 v | U64 v => 0 <= v < 2 ^ 64
  | Ptr host_ptr len guest_offset =>
      0 <= len < 2 ^ 32 /\ 0 <= guest_offset < 2 ^ 32 /\ guest_offset + len <= mem_len /\
      host_ptr = base + guest_offset
  end.

Definition tag_of (a : LoweredArg) : ArgTag :=
  match a with
  | I32 _ => TI32 | I64 _ => TI64 | F32 _ => TF32 | F64 _ => TF64
  | U32 _ => TU32 | U64 _ => TU64 | Ptr _ _ _ => TPtr
  end.

Definition payload (a : LoweredArg) : list u8 := tail (encode_arg a).

Lemma encode_arg_split a : encode_arg a = tag_byte (tag_of a) :: payload a.
Proof. by destruct a. Qed.

Lemma length_payload a : length (payload a) = value_bytes (tag_of a).
Proof. destruct a; unfold payload; simpl; len. Qed.

Lemma from_byte_tag t : from_byte (tag_byte t) = Ok t.
Proof. by destruct t. Qed.

Lemma from_byte_inv b t : from_byte b = Ok t -> b = tag_byte t.
Proof. destruct b; simpl; intros; by simplify_eq. Qed.

Section codec.
Context (base mem_len : Z).
Abbreviation ok := (arg_ok base mem_len).

Lemma lower_payload a : ok a -> lower_value base mem_len (tag_of a) (payload a) = Ok a.
Proof.
  destruct a as [v|v|v|v|v|v|hp l off]; unfold payload; simpl; intros Hok.
  1: by rewrite (from_to_le_bytes_mod 4); unfold as_i32; rewrite as_signed_id.
  1: by rewrite (from_to_le_bytes_mod 8); unfold as_i64; rewrite as_signed_id.
  1-4: by rewrite from_to_le_bytes.
  destruct Hok as (Hl & Ho & Hin & ->).
  pose proof (slice_app [] (to_le_bytes 4 off) (to_le_bytes 4 l) 0 4 eq_refl eq_refl) as H1.
  pose proof (slice_app (to_le_bytes 4 off) (to_le_bytes 4 l) [] 4 8 eq_refl eq_refl) as H2.
  rewrite app_nil_r in H2. simpl in H1, H2. rewrite H1, H2.
  rewrite !from_to_le_bytes by done. unfold checked_add.
  destruct (off + l <=? _) eqn:?; bool_props; [|lia]. simpl.
  by destruct (mem_len <? off + l) eqn:?; bool_props; [lia|].
Qed.

Lemma lower_inv tag val a :
  length val = value_bytes tag -> lower_value base mem_len tag val = Ok a ->
  tag_of a = tag /\ payload a = val /\ ok a.
Proof.
  intros Hlen H. pose proof (from_le_bytes_range val) as Hr. rewrite Hlen in Hr.
  destruct tag; simpl in Hlen, Hr, H; simplify_eq; unfold payload; simpl.
  - destruct (as_signed_spec 32 (from_le_bytes val) ltac:(lia)) as [? Hm]. split; [done|]; split; [|done].
    rewrite <-(to_le_bytes_mod 4). change (256 ^ Z.of_nat 4) with (2 ^ 32). unfold as_i32. rewrite Hm.
    change (2 ^ 32) with (256 ^ Z.of_nat 4). rewrite to_le_bytes_mod, <-Hlen. apply to_from_le_bytes.
  - destruct (as_signed_spec 64 (from_le_bytes val) ltac:(lia)) as [? Hm]. split; [done|]; split; [|done].
    rewrite <-(to_le_bytes_mod 8). change (256 ^ Z.of_nat 8) with (2 ^ 64). unfold as_i64. rewrite Hm.
    change (2 ^ 64) with (256 ^ Z.of_nat 8). rewrite to_le_bytes_mod, <-Hlen. apply to_from_le_bytes.
  - rewrite <-Hlen, to_from_le_bytes. split_and!; try done; lia.
  - rewrite <-Hlen, to_from_le_bytes. split_and!; try done; lia.
  - rewrite <-Hlen, to_from_le_bytes. split_and!; try done; lia.
  - rewrite <-Hlen, to_from_le_bytes. split_and!; try done; lia.
  - inv_bind H. unfold ok_or in E.
    destruct (checked_add _ _ _) eqn:Hadd; simplify_eq. bool_props.
    destruct (mem_len <? _) eqn:Hlt; simplify_eq; bool_props.
    assert (length (slice 0 4 val) = 4%nat) as Hl1 by (apply slice_length; lia).
    assert (length (slice 4 8 val) = 4%nat) as Hl2 by (apply slice_length; lia).
    pose proof (from_le_bytes_range (slice 0 4 val)) as Hr1. rewrite Hl1 in Hr1.
    pose proof (from_le_bytes_range (slice 4 8 val)) as Hr2. rewrite Hl2 in Hr2.
    split; [done|]. split; [|simpl; lia].
    pose proof (to_from_le_bytes (slice 0 4 val)) as E1. rewrite Hl1 in E1.
    pose proof (to_from_le_bytes (slice 4 8 val)) as E2. rewrite Hl2 in E2.
    transitivity (to_le_bytes 4 (from_le_bytes (slice 0 4 val))
                    ++ to_le_bytes 4 (from_le_bytes (slice 4 8 val))); [done|].
    rewrite E1, E2. unfold slice; simpl.
    rewrite (take_ge (drop 4 val)) by (rewrite length_drop; lia). apply take_drop.
Qed.

Lemma encode_argv_cons a args : encode_argv (a :: args) = encode_arg a ++ encode_argv args.
Proof. done. Qed.

Lemma parse_encoded args : forall fuel out,
  Forall ok args -> (length out + length args <= MAX_KERNEL_ARGS)%nat ->
  (length (encode_argv args) <= fuel)%nat ->
  parse_loop base mem_len fuel (encode_argv args) out = Ok (out ++ args).
Proof.
  induction args as [|a args IH]; intros fuel out Hok Hn Hfuel.
  - rewrite app_nil_r. by destruct fuel.
  - apply Forall_cons_1 in Hok as [Ha Hargs].
    rewrite encode_argv_cons, encode_arg_split in Hfuel |- *. simpl in Hfuel, Hn.
    destruct fuel as [|fuel]; [lia|]. rewrite length_app in Hfuel. simpl.
    rewrite bool_decide_eq_false_2 by lia. rewrite from_byte_tag; simpl.
    rewrite bool_decide_eq_false_2 by (rewrite length_app, length_payload; lia).
    rewrite <-length_payload, take_app_length, drop_app_length, lower_payload by done. simpl.
    rewrite IH; [by rewrite <-app_assoc|done|rewrite length_app; simpl; lia|lia].
Qed.

Lemma parse_inv : forall fuel rest out res,
  (length rest <= fuel)%nat -> (length out <= MAX_KERNEL_ARGS)%nat ->
  parse_loop base mem_len fuel rest out = Ok res ->
  exists args, res = out ++ args /\ encode_argv args = rest /\ Forall ok args /\
               (length res <= MAX_KERNEL_ARGS)%nat.
Proof.
  induction fuel as [|fuel IH]; intros [|b rest] out res Hfuel Hout H; simpl in H, Hfuel; try lia;
    try (simplify_eq; exists []; rewrite app_nil_r; done).
  case_bool_decide as Hmax; [done|]. inv_bind H. apply from_byte_inv in E as ->.
  case_bool_decide as Hneed; [done|]. inv_bind H.
  assert (length (take (value_bytes a) rest) = value_bytes a) as Hlen by (rewrite length_take; lia).
  destruct (lower_inv _ _ _ Hlen E) as (Htag & Hpay & Hok).
  apply IH in H as (args & -> & Henc & Hargs & Hl); [|rewrite length_drop; lia|rewrite length_app; simpl; lia].
  exists (a0 :: args). split_and!.
  - by rewrite <-app_assoc.
  - rewrite encode_argv_cons, encode_arg_split, Htag, Hpay, Henc. simpl. by rewrite take_drop.
  - by constructor.
  - done.
Qed.
End codec.

(** C11: the parser accepts exactly the encodings.  [parse_argv] returns
    [args] if and only if the buffer is [encode_argv args], the two caps
    hold, every value has its declared width, and every pointer argument's
    window lies inside the guest's linear memory and is lowered to that
    window's host address.  So parsing and encoding are inverse, the wire
    format has one encoding per argument list, and no buffer makes the host
    form a pointer outside the guest's memory. *)
Theorem parse_argv_exact base mem_len buf args :
  parse_argv base mem_len buf = Ok args <->
  encode_argv args = buf /\ (length buf <= MAX_KERNEL_ARGS_BYTES)%nat /\
  (length args <= MAX_KERNEL_ARGS)%nat /\ Forall (arg_ok base mem_len) args.
Proof.
  unfold parse_argv. split.
  - case_bool_decide as Hcap; [done|]. intros H.
    apply parse_inv in H as (args' & -> & Henc & Hok & Hl); [|done|simpl; lia].
    simpl in *. split_and!; [done|lia|done..].
  - intros (<- & Hcap & Hn & Hok). rewrite bool_decide_eq_false_2 by lia.
    by rewrite parse_encoded by (simpl; auto).
Qed.

(** ** The parameter buffer *)

Definition slot_size (a : LoweredArg) : Z := Z.of_nat (length (slot_bytes a)).

(** Slots [offs] of [bs] hold the values of [args]: aligned, in bounds, in
    order without overlap, and within the capacity reserved for them. *)
Record laid_out (args : list LoweredArg) (bs : list u8) (offs : list Z) : Prop := {
  lo_length : length offs = length args;
  lo_slot : forall i a off, args !! i = Some a -> offs !! i = Some off ->
    0 <= off /\ off mod slot_align a = 0 /\
    off + slot_size a <= Z.of_nat (length bs) /\
    slice (Z.to_nat off) (Z.to_nat (off + slot_size a)) bs = slot_bytes a;
  lo_disjoint : forall i j a off off', (i < j)%nat -> args !! i = Some a ->
    offs !! i = Some off -> offs !! j = Some off' -> off + slot_size a <= off';
  lo_capacity : Z.of_nat (length bs) <= estimated_cap args;
}.

Lemma padding_spec (u k : Z) :
  0 <= k <= 64 -> Z.land ((- u) mod 2 ^ 64) (2 ^ k - 1) = (- u) mod 2 ^ k.
Proof.
  intros Hk. replace (2 ^ k - 1) with (Z.ones k) by (rewrite Z.ones_equiv; lia).
  rewrite Z.land_ones by lia. apply Z.mod_mod_divide.
  exists (2 ^ (64 - k)). rewrite <-Z.pow_add_r by lia. f_equal. lia.
Qed.

Lemma slot_align_pow a : exists k, 2 <= k <= 3 /\ slot_align a = 2 ^ k.
Proof. destruct a; (by exists 2) || by exists 3. Qed.

(** The padding takes the length to the next multiple of the alignment. *)
Lemma padded (u align : Z) a :
  align = slot_align a ->
  let padding := Z.land ((- u) mod 2 ^ 64) (align - 1) in
  0 <= padding < align /\ (u + padding) mod align = 0.
Proof.
  intros ->. destruct (slot_align_pow a) as (k & Hk & ->). simpl.
  assert (0 < 2 ^ k) by (apply Z.pow_pos_nonneg; lia).
  rewrite padding_spec by lia. split; [apply Z.mod_pos_bound; lia|].
  rewrite Z.add_mod_idemp_r by lia. by rewrite Z.add_opp_diag_r, Z.mod_0_l by lia.
Qed.

Lemma estimated_cap_snoc args a :
  estimated_cap (args ++ [a]) = estimated_cap args + (slot_align a - 1 + slot_size a).
Proof. unfold estimated_cap. rewrite sumZ_app. by destruct a. Qed.

Lemma push_slot_laid args bs offs a :
  laid_out args bs offs ->
  let '(bs', offs') := push_slot (bs, offs) (slot_align a) (slot_bytes a) in
  laid_out (args ++ [a]) bs' offs'.
Proof.
  intros [Hlen Hslot Hdis Hcap]. unfold push_slot.
  destruct (padded (Z.of_nat (length bs)) (slot_align a) a eq_refl) as [Hp Hal]. simpl in Hp, Hal.
  remember (Z.land _ _) as p eqn:Heqp. clear Heqp.
  assert (length (bs ++ replicate (Z.to_nat p) Byte.x00) = (length bs + Z.to_nat p)%nat) as Hpl
    by (rewrite length_app, length_replicate; lia).
  assert (0 <= slot_size a) by (unfold slot_size; lia).
  constructor.
  - rewrite !length_app. simpl. lia.
  - intros i b off Hb Hoff.
    apply lookup_snoc_Some in Hb as [[Hi Hb]|[Hi <-]]; apply lookup_snoc_Some in Hoff as [[Hi' Hoff]|[Hi' <-]];
      try lia.
    + destruct (Hslot _ _ _ Hb Hoff) as (? & ? & ? & Hs).
      split_and!; [done..|rewrite !length_app; lia|]. rewrite <-Hs, <-app_assoc.
      assert (0 <= slot_size b) by (unfold slot_size; lia). apply slice_app_l; lia.
    + rewrite Hpl. split_and!; [lia| |rewrite !length_app, length_replicate; unfold slot_size; lia|].
      * rewrite <-Hal. f_equal. lia.
      * pose proof (slice_app (bs ++ replicate (Z.to_nat p) Byte.x00) (slot_bytes a) []) as Hsl.
        rewrite app_nil_r in Hsl. apply Hsl; unfold slot_size; lia.
  - intros i j b off off' Hij Hb Hoff Hoff'.
    assert (j <= length offs)%nat as Hj.
    { apply lookup_lt_Some in Hoff'. rewrite length_app in Hoff'. simpl in Hoff'. lia. }
    rewrite lookup_app_l in Hb by lia. rewrite lookup_app_l in Hoff by lia.
    apply lookup_snoc_Some in Hoff' as [[_ Hoff']|[_ <-]]; [by eapply Hdis|].
    destruct (Hslot _ _ _ Hb Hoff) as (? & ? & ? & _). lia.
  - rewrite estimated_cap_snoc, length_app, Hpl. unfold slot_size in *. lia.
Qed.

Lemma build_laid args : forall done bs offs,
  laid_out done bs offs ->
  let '(bs', offs') :=
    fold_left (fun st a => push_slot st (slot_align a) (slot_bytes a)) args (bs, offs) in
  laid_out (done ++ args) bs' offs'.
Proof.
  induction args as [|a args IH]; intros done bs offs H; [by rewrite app_nil_r|].
  cbn [fold_left]. pose proof (push_slot_laid _ _ _ a H) as Hp.
  destruct (push_slot (bs, offs) (slot_align a) (slot_bytes a)) as [bs1 offs1].
  specialize (IH _ _ _ Hp). by rewrite <-app_assoc in IH.
Qed.

Lemma nothing_laid : laid_out [] [] [].
Proof. by constructor. Qed.

(** the launch buffer.  For every argument list, slot [i] of the table
    points at the bytes of argument [i] inside the buffer, at an offset
    that is a multiple of the argument's native alignment, no two slots
    overlap, and the buffer fits the capacity reserved up front (so it is
    never reallocated while it is filled).  The pointers themselves are
    aligned whenever the allocation is 8-byte aligned. *)
Theorem kernel_params_laid_out data args :
  let st := build_kernel_param_storage data args in
  exists offs, slots st = (fun off => data + off) <$> offs /\ laid_out args (backing st) offs /\
    (data mod 8 = 0 -> forall i a p, args !! i = Some a -> slots st !! i = Some p -> p mod slot_align a = 0).
Proof.
  unfold build_kernel_param_storage.
  pose proof (build_laid args [] [] [] nothing_laid) as H. simpl in H.
  destruct (fold_left _ args ([], [])) as [bs offs]. exists offs. split_and!; [done..|].
  simpl. intros Hdata i a p Ha Hp. apply list_lookup_fmap_Some in Hp as (off & -> & Hoff).
  destruct (lo_slot _ _ _ H _ _ _ Ha Hoff) as (_ & Hmod & _).
  assert (data mod slot_align a = 0) as Hd.
  { apply Z.mod_divide in Hdata as [q ->]; [|lia].
    destruct a; simpl; [change 8 with (2 * 4)|change 8 with (1 * 8)|change 8 with (2 * 4)|change 8 with (1 * 8)
      |change 8 with (2 * 4)|change 8 with (1 * 8)|change 8 with (1 * 8)];
      rewrite Z.mul_assoc; apply Z.mod_mul; lia. }
  assert (0 < slot_align a) by (destruct a; simpl; lia).
  by rewrite Z.add_mod, Hmod, Hd, Z.mod_0_l by lia.
Qed.

(** The buffer is a byte allocation, so an odd address is allowed, and an
    [F64] slot in it is then misaligned. *)
Lemma misaligned_slot :
  slots (build_kernel_param_storage 4097 [F64 0]) = [4097] /\ 4097 mod slot_align (F64 0) <> 0.
Proof. split; [reflexivity|done]. Qed.
End KernelArgsFacts.
