(* ===== verification/Primitives.v ===== *)
(** * Third-party code as parameters

    The hash, the MAC and the compressor the stores and caches call.
    [PrimitivesOk] states the documented behaviour the theorems rely on, and
    [Toy] is a concrete instance, which shows that it can hold. *)

From S2P Require Import Prelude Core.

(** [zstd_encode] takes the sequence of writes the encoder received;
    [zstd_stream] is the decoder's output and the error, if any, that ends it;
    [zstd_pulled] is how many bytes of the body the decoder has pulled from its
    reader when it stops. *)
Class Primitives := {
  blake3 : list u8 -> list u8;
  hmac_sha256 : list u8 -> list u8 -> list u8;
  zstd_encode : Z -> list (list u8) -> list u8;
  zstd_stream : list u8 -> list u8 * option str;
  zstd_pulled : list u8 -> nat;
}.

Class PrimitivesOk `{!Primitives} : Prop := {
  blake3_length m : length (blake3 m) = 32%nat;
  hmac_length k m : length (hmac_sha256 k m) = 32%nat;
  zstd_roundtrip level chunks : zstd_stream (zstd_encode level chunks) = (concat chunks, None);
}.

(** None of it is meant to be secure. *)
Module Toy.
#[export] Instance toy : Primitives := {
  blake3 m := to_le_bytes 32 (from_le_bytes m);
  hmac_sha256 k m := to_le_bytes 32 (from_le_bytes (k ++ m));
  zstd_encode _ chunks := concat chunks;
  zstd_stream b := (b, None);
  zstd_pulled b := length b;
}.

#[export] Instance toy_ok : PrimitivesOk.
Proof.
  split; cbv [blake3 hmac_sha256 zstd_encode zstd_stream toy]; intros *.
  1, 2: apply length_to_le_bytes.
  done.
Qed.
End Toy.
