(* ===== verification/Artifacts.v ===== *)
(** * [tensor-wasm-artifacts/src/lib.rs]: the content-addressed artifact store

    Blobs live in a directory as files [<hash>.<key fingerprint>.bin], each an
    envelope: magic, version, content hash, zstd body, HMAC over all of it.
    The directory is a finite map from file names to contents and
    modification times ([None] before it exists).  blake3, HMAC-SHA256, zstd
    ([Primitives]) and serde_json ([SidecarCodec]) are parameters.  The streaming readers and writers are
    modelled by the bytes they pass on, and the [MacReader]/[MacWriter]
    adapters by the bytes they feed the MAC.  [put_fault] names the
    point at which a [put] meets an I/O error. *)

From Stdlib Require Import Sorting.Sorted.
From S2P Require Import Prelude Core Primitives.

Inductive ArtifactError :=
| NotFoundArtifact (hash : str)
| BadMagic
| BadVersion (v : Z)
| BadHmac
| HashMismatch (expected actual : str)
| Decompression (e : str)
| Metadata (e : str)
| TooLarge (actual limit : Z)
| IoError.

#[global] Instance ArtifactError_eq_dec : EqDecision ArtifactError.
Proof. solve_decision. Defined.

Record ArtifactMetadata := mkMetadata {
  created_unix_ms : Z;
  original_len : Z;
  source_tier : str;
}.

(** serde_json on the sidecar. *)
Class SidecarCodec := {
  json_encode : ArtifactMetadata -> list u8;
  json_decode : list u8 -> result str ArtifactMetadata;
}.

Class SidecarCodecOk `{!SidecarCodec} : Prop := {
  json_roundtrip m : json_decode (json_encode m) = Ok m;
}.

Module Artifacts.
Definition ARTIFACT_MAGIC : list u8 := bytes_of "twasm-artifact01".
Definition ARTIFACT_VERSION : Z := 1.
Definition ARTIFACT_HMAC_LEN : nat := 32.
Definition ARTIFACT_HEADER_LEN : nat := 16 + 4 + 32.
Definition DEFAULT_ZSTD_LEVEL : Z := 3.
Definition MAX_PAYLOAD_LEN : Z := 256 * 1024 * 1024.
Definition MAX_DECOMPRESSED_LEN : Z := MAX_PAYLOAD_LEN + 8 * 1024.

Definition zlen {A} (l : list A) : Z := Z.of_nat (length l).

(** ** Names *)

Definition HEX_LUT : list u8 := bytes_of "0123456789abcdef".
Definition lut (i : Z) : u8 := default Byte.x00 (HEX_LUT !! Z.to_nat i).

Definition hex_byte (b : u8) : list u8 :=
  [lut (Z.shiftr (u8_to_Z b) 4); lut (Z.land (u8_to_Z b) 15)].

Definition hex_into (bytes : list u8) : str := concat (hex_byte <$> bytes).

(** [ContentHash]'s [Display], [to_hex] and [hex_of]. *)
Definition to_hex (hash : list u8) : str := hex_into hash.

Definition is_lower_hex (b : u8) : bool :=
  let z := u8_to_Z b in ((48 <=? z) && (z <=? 57)) || ((97 <=? z) && (z <=? 102)).

Definition validated_hash_segment (hash : list u8) : result ArtifactError str :=
  let hash_hex := to_hex hash in
  if bool_decide (length hash_hex = 64%nat) && forallb is_lower_hex hash_hex
  then Ok hash_hex else Err BadMagic.

Definition hex_val (b : u8) : option Z :=
  let z := u8_to_Z b in
  if (48 <=? z) && (z <=? 57) then Some (z - 48)
  else if (97 <=? z) && (z <=? 102) then Some (z - 97 + 10)
  else None.

Fixpoint parse_hex_pairs (s : str) : option (list u8) :=
  match s with
  | hi :: lo :: s =>
      hi ← hex_val hi; lo ← hex_val lo; rest ← parse_hex_pairs s;
      Some (u8_of_Z (Z.lor (Z.shiftl hi 4) lo) :: rest)
  | [] => Some []
  | _ => None
  end.

Definition parse_hash_hex (hash_hex : str) : option (list u8) :=
  if bool_decide (length hash_hex = 64%nat) then parse_hex_pairs hash_hex else None.

Definition strip_suffix (suffix s : str) : option str :=
  let n := (length s - length suffix)%nat in
  if bool_decide (drop n s = suffix) then Some (take n s) else None.

(** [rfind('.')] and the two slices around it. *)
Fixpoint rsplit_dot (s : str) : option (str * str) :=
  match s with
  | [] => None
  | b :: s =>
      match rsplit_dot s with
      | Some (l, r) => Some (b :: l, r)
      | None => if bool_decide (b = Byte.x2e) then Some ([], s) else None
      end
  end.

Definition parse_blob_filename (name : str) : option (list u8 * str) :=
  stem ← strip_suffix (bytes_of ".bin") name;
  '(hash_hex, fp) ← rsplit_dot stem;
  hash ← parse_hash_hex hash_hex;
  Some (hash, fp).

(** ** Keys *)

Record KeyProvider := mkKeyProvider { active_key : list u8; read_keys : list (list u8) }.
Definition SingleKeyProvider (key : list u8) : KeyProvider := mkKeyProvider key [key].
Definition RotatingKeyProvider (active : list u8) (also_accept : list (list u8)) : KeyProvider :=
  mkKeyProvider active (active :: also_accept).

Inductive DurabilityPolicy := Full | NoSync.

#[global] Instance DurabilityPolicy_eq_dec : EqDecision DurabilityPolicy.
Proof. solve_decision. Defined.

Record GcPolicy := mkGcPolicy { max_age : option Z; max_total_bytes : option Z }.
Record GcOutcome := mkGcOutcome { removed_by_age : Z; removed_by_size : Z; bytes_after : Z }.

(** ** The directory *)

Record FileEntry := mkFile { data : list u8; modified : option Z }.
Definition Dir := option (gmap str FileEntry).

Definition files (d : Dir) : gmap str FileEntry := default ∅ d.

(** Where an I/O error can stop a [put]. *)
Inductive put_fault := FCreateDir | FTempfile | FWrite | FSync | FPersist.

#[global] Instance put_fault_eq_dec : EqDecision put_fault.
Proof. solve_decision. Defined.

Definition io (fault : option put_fault) (here : put_fault) : result ArtifactError () :=
  if bool_decide (fault = Some here) then Err IoError else Ok ().

(** [decoder.take(limit).read_to_end]: the error is met only when it comes
    before [limit] bytes. *)
Definition read_to_end_take (limit : Z) (s : list u8 * option str) : result str (list u8) :=
  if limit <=? zlen s.1 then Ok (take (Z.to_nat limit) s.1)
  else match s.2 with Some e => Err e | None => Ok s.1 end.

Definition probe_limit (cap : Z) : Z := default u64_max (checked_add u64_max cap 1).

(** The in-memory store's entries. *)
Abbreviation MemStore := (gmap (list u8) (list u8)).

Section store.
Context `{!Primitives}.

Definition key_fingerprint_hex (key : list u8) : str := hex_into (take 8 (blake3 key)).

Record DiskArtifactStore := mkStore {
  hmac_key : list u8;
  key_fp_hex : str;
  key_provider : KeyProvider;
  zstd_level : Z;
  durability : DurabilityPolicy;
}.

Definition build (key_provider : KeyProvider) (zstd_level : Z) (durability : DurabilityPolicy) :
    DiskArtifactStore :=
  let active := active_key key_provider in
  mkStore active (key_fingerprint_hex active) key_provider zstd_level durability.

Definition with_key_provider (key_provider : KeyProvider) : DiskArtifactStore :=
  build key_provider DEFAULT_ZSTD_LEVEL Full.

Definition new (hmac_key : list u8) : DiskArtifactStore :=
  with_key_provider (SingleKeyProvider hmac_key).

Definition path_for_key (hash : list u8) (fp : str) : result ArtifactError str :=
  hash_hex ← validated_hash_segment hash;
  Ok (hash_hex ++ bytes_of "." ++ fp ++ bytes_of ".bin").

Definition meta_path_for_key (hash : list u8) (fp : str) : result ArtifactError str :=
  hash_hex ← validated_hash_segment hash;
  Ok (hash_hex ++ bytes_of "." ++ fp ++ bytes_of ".meta.json").

Definition path_for (st : DiskArtifactStore) (hash : list u8) := path_for_key hash (key_fp_hex st).
Definition meta_path_for (st : DiskArtifactStore) (hash : list u8) :=
  meta_path_for_key hash (key_fp_hex st).

(** ** Envelopes in memory *)

Definition header (hash : list u8) : list u8 :=
  ARTIFACT_MAGIC ++ to_le_bytes 4 ARTIFACT_VERSION ++ hash.

Definition encode_envelope_to_vec (payload key : list u8) : result ArtifactError (list u8) :=
  if MAX_PAYLOAD_LEN <? zlen payload then Err (TooLarge (zlen payload) MAX_PAYLOAD_LEN)
  else
    let hash := blake3 payload in
    let mac := header hash ++ zstd_encode DEFAULT_ZSTD_LEVEL [payload] in
    Ok (mac ++ hmac_sha256 key mac).

Definition decode_envelope_from_bytes_with_cap (bytes key : list u8) (max_decompressed : Z) :
    result ArtifactError (list u8) :=
  if bool_decide (length bytes < ARTIFACT_HEADER_LEN + ARTIFACT_HMAC_LEN)%nat then Err BadMagic
  else if negb (bool_decide (take 16 bytes = ARTIFACT_MAGIC)) then Err BadMagic
  else
    let version := from_le_bytes (slice 16 20 bytes) in
    if negb (version =? ARTIFACT_VERSION) then Err (BadVersion version)
    else
      let hash_on_disk := slice 20 52 bytes in
      let hmac_start := (length bytes - ARTIFACT_HMAC_LEN)%nat in
      let prefix := take hmac_start bytes in
      let tag_bytes := drop hmac_start bytes in
      if negb (bool_decide (hmac_sha256 key prefix = tag_bytes)) then Err BadHmac
      else
        let body := drop ARTIFACT_HEADER_LEN prefix in
        match read_to_end_take (probe_limit max_decompressed) (zstd_stream body) with
        | Err e => Err (Decompression e)
        | Ok payload =>
            if max_decompressed <? zlen payload then Err (TooLarge (zlen payload) max_decompressed)
            else if negb (bool_decide (blake3 payload = hash_on_disk)) then
              Err (HashMismatch (to_hex hash_on_disk) (to_hex (blake3 payload)))
            else Ok payload
        end.

Definition decode_envelope_from_bytes (bytes key : list u8) : result ArtifactError (list u8) :=
  decode_envelope_from_bytes_with_cap bytes key MAX_DECOMPRESSED_LEN.

(** ** Writing *)

Definition create_dir_all (fault : option put_fault) : stM Dir ArtifactError () :=
  _ ← lift (io fault FCreateDir); d ← get_state; put_state (Some (files d)).

(** [sync_all] (under [Full]), the rename into place, and the best-effort
    directory sync, which cannot fail. *)
Definition persist (st : DiskArtifactStore) (fault : option put_fault) (path : str)
    (bytes : list u8) (now : option Z) : stM Dir ArtifactError () :=
  _ ← (if bool_decide (durability st = Full) then lift (io fault FSync) else mret ());
  _ ← lift (io fault FPersist);
  d ← get_state;
  put_state (Some (<[path := mkFile bytes now]> (files d))).

Definition put (st : DiskArtifactStore) (fault : option put_fault) (now : option Z)
    (payload : list u8) : stM Dir ArtifactError (list u8) :=
  if MAX_PAYLOAD_LEN <? zlen payload then fail (TooLarge (zlen payload) MAX_PAYLOAD_LEN)
  else
    _ ← create_dir_all fault;
    let hash := blake3 payload in
    final_path ← lift (path_for st hash);
    _ ← lift (io fault FTempfile);
    let mac := ARTIFACT_MAGIC in
    let mac := mac ++ to_le_bytes 4 ARTIFACT_VERSION in
    let mac := mac ++ hash in
    let mac := mac ++ zstd_encode (zstd_level st) [payload] in
    let tag := hmac_sha256 (hmac_key st) mac in
    _ ← lift (io fault FWrite);
    _ ← persist st fault final_path (mac ++ tag) now;
    mret hash.

(** [put_from]'s read loop over the chunks the source yields: the total is
    checked before a chunk is hashed and compressed. *)
Fixpoint pump (chunks written : list (list u8)) (uncompressed_len : Z) :
    result ArtifactError (list (list u8)) :=
  match chunks with
  | [] => Ok written
  | c :: chunks =>
      let uncompressed_len := sat_add u64_max uncompressed_len (zlen c) in
      if MAX_PAYLOAD_LEN <? uncompressed_len then
        Err (TooLarge (Z.min uncompressed_len usize_max) MAX_PAYLOAD_LEN)
      else pump chunks (written ++ [c]) uncompressed_len
  end.

Definition put_from (st : DiskArtifactStore) (fault : option put_fault) (now : option Z)
    (src : list (list u8)) : stM Dir ArtifactError (list u8) :=
  _ ← create_dir_all fault;
  _ ← lift (io fault FTempfile);
  written ← lift (pump src [] 0);
  let hash := blake3 (concat written) in
  let body := zstd_encode (zstd_level st) written in
  final_path ← lift (path_for st hash);
  _ ← lift (io fault FWrite);
  let mac := header hash ++ body in
  _ ← persist st fault final_path (mac ++ hmac_sha256 (hmac_key st) mac) now;
  mret hash.

Definition put_with_metadata `{!SidecarCodec} (st : DiskArtifactStore) (fault meta_fault : option put_fault)
    (now : option Z) (payload : list u8) (metadata : ArtifactMetadata) :
    stM Dir ArtifactError (list u8) :=
  hash ← put st fault now payload;
  let encoded := json_encode metadata in
  meta_path ← lift (meta_path_for st hash);
  _ ← lift (io meta_fault FTempfile);
  _ ← lift (io meta_fault FWrite);
  _ ← persist st meta_fault meta_path encoded now;
  mret hash.

(** ** Reading *)

Fixpoint resolve_in (d : Dir) (hash : list u8) (keys : list (list u8)) :
    result ArtifactError (option (str * list u8)) :=
  match keys with
  | [] => Ok None
  | key :: keys =>
      path ← path_for_key hash (key_fingerprint_hex key);
      match files d !! path with
      | Some _ => Ok (Some (path, key))
      | None => resolve_in d hash keys
      end
  end.

Definition resolve_read_key (st : DiskArtifactStore) (hash : list u8) (d : Dir) :=
  resolve_in d hash (read_keys (key_provider st)).

Definition metadata `{!SidecarCodec} (st : DiskArtifactStore) (hash : list u8) (d : Dir) :
    result ArtifactError ArtifactMetadata :=
  found ← resolve_read_key st hash d;
  '(_, key) ← ok_or (NotFoundArtifact (to_hex hash)) found;
  meta_path ← meta_path_for_key hash (key_fingerprint_hex key);
  f ← ok_or (NotFoundArtifact (to_hex hash)) (files d !! meta_path);
  match json_decode (data f) with
  | Ok m => Ok m
  | Err e => Err (Metadata e)
  end.

Definition get (st : DiskArtifactStore) (hash : list u8) (d : Dir) :
    result ArtifactError (list u8) :=
  found ← resolve_read_key st hash d;
  '(path, key) ← ok_or (NotFoundArtifact (to_hex hash)) found;
  file ← ok_or (NotFoundArtifact (to_hex hash)) (files d !! path);
  let file_len := length (data file) in
  if bool_decide (file_len < ARTIFACT_HEADER_LEN + ARTIFACT_HMAC_LEN)%nat then Err BadMagic
  else
    let prefix_end := (file_len - ARTIFACT_HMAC_LEN)%nat in
    let body_len := (prefix_end - ARTIFACT_HEADER_LEN)%nat in
    let header := take ARTIFACT_HEADER_LEN (data file) in
    let reader := drop ARTIFACT_HEADER_LEN (data file) in
    if negb (bool_decide (take 16 header = ARTIFACT_MAGIC)) then Err BadMagic
    else
      let version := from_le_bytes (slice 16 20 header) in
      if negb (version =? ARTIFACT_VERSION) then Err (BadVersion version)
      else
        let hash_on_disk := slice 20 52 header in
        let mac := header in
        (* the decode pass: the MAC sees what the decoder pulled *)
        let body := take body_len reader in
        let decode_result := read_to_end_take (probe_limit MAX_DECOMPRESSED_LEN) (zstd_stream body) in
        let pulled := take (zstd_pulled body) body in
        let mac := mac ++ pulled in
        let consumed := (ARTIFACT_HEADER_LEN + length pulled)%nat in
        let reader := drop (length pulled) reader in
        (* the tail the decoder left is drained through the MAC *)
        let gap := (prefix_end - consumed)%nat in
        let mac := mac ++ take gap reader in
        let reader := drop gap reader in
        let tag_bytes := take ARTIFACT_HMAC_LEN reader in
        if negb (bool_decide (hmac_sha256 key mac = tag_bytes)) then Err BadHmac
        else
          match decode_result with
          | Err e => Err (Decompression e)
          | Ok payload =>
              if MAX_DECOMPRESSED_LEN <? zlen payload then
                Err (TooLarge (zlen payload) MAX_DECOMPRESSED_LEN)
              else
                let recomputed := blake3 payload in
                if negb (bool_decide (recomputed = hash_on_disk)) then
                  Err (HashMismatch (to_hex hash_on_disk) (to_hex recomputed))
                else if negb (bool_decide (recomputed = hash)) then
                  Err (HashMismatch (to_hex hash) (to_hex recomputed))
                else Ok payload
          end.

(** ** Streaming reads *)

Record VerifiedBlob := mkVerified { hash_on_disk : list u8; body_len : nat }.

Definition verify_blob (file : list u8) (key : list u8) : result ArtifactError VerifiedBlob :=
  if bool_decide (length file < ARTIFACT_HEADER_LEN + ARTIFACT_HMAC_LEN)%nat then Err BadMagic
  else
    let prefix_end := (length file - ARTIFACT_HMAC_LEN)%nat in
    let body_len := (prefix_end - ARTIFACT_HEADER_LEN)%nat in
    let header := take ARTIFACT_HEADER_LEN file in
    let reader := drop ARTIFACT_HEADER_LEN file in
    if negb (bool_decide (take 16 header = ARTIFACT_MAGIC)) then Err BadMagic
    else
      let version := from_le_bytes (slice 16 20 header) in
      if negb (version =? ARTIFACT_VERSION) then Err (BadVersion version)
      else
        let mac := header ++ take body_len reader in
        let tag_bytes := take ARTIFACT_HMAC_LEN (drop body_len reader) in
        if negb (bool_decide (hmac_sha256 key mac = tag_bytes)) then Err BadHmac
        else Ok (mkVerified (slice 20 52 header) body_len).

(** The result and the bytes the writer received, which on a decode error
    are those before it. *)
Definition decode_to_writer (file : list u8) (verified : VerifiedBlob) (requested : list u8) :
    result ArtifactError Z * list u8 :=
  let cap := MAX_DECOMPRESSED_LEN in
  let body := take (body_len verified) (drop ARTIFACT_HEADER_LEN file) in
  let decoded := zstd_stream body in
  let out := take (Z.to_nat (probe_limit cap)) decoded.1 in
  match read_to_end_take (probe_limit cap) decoded with
  | Err e => (Err (Decompression e), out)
  | Ok written =>
      (if cap <? zlen written then Err (TooLarge (zlen written) cap)
       else
         let recomputed := blake3 written in
         if negb (bool_decide (recomputed = hash_on_disk verified)) then
           Err (HashMismatch (to_hex (hash_on_disk verified)) (to_hex recomputed))
         else if negb (bool_decide (recomputed = requested)) then
           Err (HashMismatch (to_hex requested) (to_hex recomputed))
         else Ok (zlen written), out)
  end.

Definition get_to (st : DiskArtifactStore) (hash : list u8) (d : Dir) :
    result ArtifactError Z * list u8 :=
  match resolve_read_key st hash d with
  | Err e => (Err e, [])
  | Ok None => (Err (NotFoundArtifact (to_hex hash)), [])
  | Ok (Some (path, key)) =>
      match files d !! path with
      | None => (Err (NotFoundArtifact (to_hex hash)), [])
      | Some file =>
          match verify_blob (data file) key with
          | Err e => (Err e, [])
          | Ok verified => decode_to_writer (data file) verified hash
          end
      end
  end.

Definition contains (st : DiskArtifactStore) (hash : list u8) (d : Dir) :
    result ArtifactError bool :=
  found ← resolve_read_key st hash d; Ok (match found with Some _ => true | None => false end).

(** ** Enumeration, removal and collection *)

Record Blob := mkBlob { blob_hash : list u8; blob_len : Z; blob_modified : option Z }.

Definition accepted (st : DiskArtifactStore) : list str :=
  key_fingerprint_hex <$> read_keys (key_provider st).

(** The body of [for_each_blob]'s loop: what it calls its closure with for
    a directory entry, if anything. *)
Definition blob_of (st : DiskArtifactStore) (entry : str * FileEntry) : option Blob :=
  match parse_blob_filename entry.1 with
  | None => None
  | Some (hash_bytes, fp) =>
      if negb (bool_decide (fp ∈ accepted st)) then None
      else if bool_decide (length (data entry.2) < ARTIFACT_HEADER_LEN + ARTIFACT_HMAC_LEN)%nat then None
      else Some (mkBlob hash_bytes (zlen (data entry.2)) (modified entry.2))
  end.

Definition for_each_blob (st : DiskArtifactStore) (d : Dir) : list Blob :=
  omap (blob_of st) (map_to_list (files d)).

Definition list_ (st : DiskArtifactStore) (d : Dir) : gset (list u8) :=
  list_to_set (blob_hash <$> for_each_blob st d).

Definition total_bytes (st : DiskArtifactStore) (d : Dir) : Z :=
  fold_left (fun total b => sat_add u64_max total (blob_len b)) (for_each_blob st d) 0.

Definition remove (st : DiskArtifactStore) (hash : list u8) : stM Dir ArtifactError bool :=
  d ← get_state;
  found ← lift (resolve_read_key st hash d);
  match found with
  | None => mret false
  | Some (path, key) =>
      (* the probe has just seen the file, so the unlink succeeds *)
      _ ← put_state (Some (delete path (files d)));
      match meta_path_for_key hash (key_fingerprint_hex key) with
      | Err _ => mret true
      | Ok meta_path =>
          d ← get_state;
          _ ← put_state (Some (delete meta_path (files d)));
          mret true
      end
  end.

Fixpoint remove_all (st : DiskArtifactStore) (victims : list (list u8)) (removed : Z) :
    stM Dir ArtifactError Z :=
  match victims with
  | [] => mret removed
  | hash :: victims =>
      r ← remove st hash; remove_all st victims (if r : bool then removed + 1 else removed)
  end.

Definition prune_older_than (st : DiskArtifactStore) (cutoff : Z) : stM Dir ArtifactError Z :=
  d ← get_state;
  let victims := omap (fun b => match blob_modified b with
                                | Some mtime => if mtime <? cutoff then Some (blob_hash b) else None
                                | None => None
                                end) (for_each_blob st d) in
  remove_all st victims 0.

(** The stable [sort_by_key] on the modification time. *)
Definition blob_time (b : Blob) : Z := default 0 (blob_modified b).

Fixpoint insert_blob (b : Blob) (bs : list Blob) : list Blob :=
  match bs with
  | [] => [b]
  | c :: bs => if blob_time b <=? blob_time c then b :: c :: bs else c :: insert_blob b bs
  end.
Definition sort_by_mtime (bs : list Blob) : list Blob := foldr insert_blob [] bs.

Fixpoint evict_until (st : DiskArtifactStore) (blobs : list Blob) (max_total total removed : Z) :
    stM Dir ArtifactError Z :=
  match blobs with
  | [] => mret removed
  | b :: blobs =>
      if total <=? max_total then mret removed
      else
        r ← remove st (blob_hash b);
        if r : bool then evict_until st blobs max_total (sat_sub total (blob_len b)) (removed + 1)
        else evict_until st blobs max_total total removed
  end.

(** [now] is the collection's [SystemTime::now], in nanoseconds; the
    seconds of a [SystemTime] are an [i64]. *)
Definition systime_checked_sub (now age : Z) : option Z :=
  if - 2 ^ 63 * 1000000000 <=? now - age then Some (now - age) else None.

Definition gc (st : DiskArtifactStore) (now : Z) (policy : GcPolicy) :
    stM Dir ArtifactError GcOutcome :=
  by_age ← match max_age policy with
           | Some age => prune_older_than st (default 0 (systime_checked_sub now age))
           | None => mret 0
           end;
  by_size ← match max_total_bytes policy with
            | Some max_total =>
                d ← get_state;
                let blobs := for_each_blob st d in
                let total := fold_left (fun t b => sat_add u64_max t (blob_len b)) blobs 0 in
                if max_total <? total then evict_until st (sort_by_mtime blobs) max_total total 0
                else mret 0
            | None => mret 0
            end;
  d ← get_state;
  mret (mkGcOutcome by_age by_size (total_bytes st d)).

(** ** The in-memory store *)

Definition mem_put (payload : list u8) (m : MemStore) : result ArtifactError (list u8) * MemStore :=
  let hash := blake3 payload in (Ok hash, <[hash := payload]> m).
Definition mem_get (hash : list u8) (m : MemStore) : result ArtifactError (list u8) :=
  ok_or (NotFoundArtifact (to_hex hash)) (m !! hash).
Definition mem_get_to (hash : list u8) (m : MemStore) : result ArtifactError Z * list u8 :=
  match m !! hash with
  | Some bytes => (Ok (zlen bytes), bytes)
  | None => (Err (NotFoundArtifact (to_hex hash)), [])
  end.
Definition mem_list (m : MemStore) : gset (list u8) := dom m.
Definition mem_contains (hash : list u8) (m : MemStore) : bool := bool_decide (is_Some (m !! hash)).
Definition mem_remove (hash : list u8) (m : MemStore) : bool * MemStore :=
  (bool_decide (is_Some (m !! hash)), delete hash m).
End store.
End Artifacts.

Module ArtifactNames.
Import Artifacts.

Lemma hex_byte_parse b rest :
  parse_hex_pairs (hex_byte b ++ rest) = (fun r => b :: r) <$> parse_hex_pairs rest.
Proof. destruct b; simpl; by destruct (parse_hex_pairs rest). Qed.

Lemma hex_byte_ok b : forallb is_lower_hex (hex_byte b) = true /\ Byte.x2e ∉ hex_byte b.
Proof.
  split; [by destruct b|]. apply (bool_decide_unpack (Byte.x2e ∉ hex_byte b)). by destruct b.
Qed.

Lemma hex_parse bs : parse_hex_pairs (hex_into bs) = Some bs.
Proof.
  unfold hex_into. induction bs as [|b bs IH]; [done|].
  cbn [fmap list_fmap concat]. by rewrite hex_byte_parse, IH.
Qed.

Lemma hex_length bs : length (hex_into bs) = (2 * length bs)%nat.
Proof.
  unfold hex_into. induction bs as [|b bs IH]; [done|]. cbn [fmap list_fmap concat].
  rewrite length_app, IH. simpl. lia.
Qed.

Lemma hex_lower bs : forallb is_lower_hex (hex_into bs) = true.
Proof.
  unfold hex_into. induction bs as [|b bs IH]; [done|]. cbn [fmap list_fmap concat].
  by rewrite forallb_app, (proj1 (hex_byte_ok b)), IH.
Qed.

Lemma hex_no_dot bs : Byte.x2e ∉ hex_into bs.
Proof.
  unfold hex_into. induction bs as [|b bs IH]; [by apply not_elem_of_nil|].
  cbn [fmap list_fmap concat]. rewrite elem_of_app. intros [H|H]; [|done].
  by destruct (hex_byte_ok b).
Qed.

Lemma hex_inj bs bs' : hex_into bs = hex_into bs' -> bs = bs'.
Proof. intros H. apply (f_equal parse_hex_pairs) in H. rewrite !hex_parse in H. by simplify_eq. Qed.

Lemma validated_ok hash : length hash = 32%nat -> validated_hash_segment hash = Ok (to_hex hash).
Proof.
  intros Hl. unfold validated_hash_segment, to_hex. rewrite hex_lower, bool_decide_eq_true_2; [done|].
  rewrite hex_length. lia.
Qed.

Lemma hex_val_spec b v : hex_val b = Some v -> 0 <= v < 16 /\ lut v = b.
Proof. destruct b; cbv; intros Hv; simplify_eq; by split. Qed.

Lemma hex_byte_of_digits v w :
  0 <= v < 16 -> 0 <= w < 16 -> hex_byte (u8_of_Z (Z.lor (Z.shiftl v 4) w)) = [lut v; lut w].
Proof.
  intros Hv Hw.
  assert (forallb (fun v => forallb (fun w => bool_decide
    (hex_byte (u8_of_Z (Z.lor (Z.shiftl v 4) w)) = [lut v; lut w])) (seqZ 0 16)) (seqZ 0 16) = true)
    as Hall by (vm_compute; reflexivity).
  rewrite forallb_forall in Hall.
  specialize (Hall v ltac:(apply list_elem_of_In, elem_of_seqZ; lia)). rewrite forallb_forall in Hall.
  specialize (Hall w ltac:(apply list_elem_of_In, elem_of_seqZ; lia)). by bool_props.
Qed.

Lemma parse_hex_inv s : forall bs, parse_hex_pairs s = Some bs -> hex_into bs = s.
Proof.
  induction s as [s IH] using (induction_ltof1 _ length). unfold ltof in IH.
  destruct s as [|hi [|lo s]]; intros bs Hp; simpl in Hp; [by simplify_eq|done|].
  apply bind_Some in Hp as (v & [Hv Hhi]%hex_val_spec & Hp).
  apply bind_Some in Hp as (w & [Hw Hlo]%hex_val_spec & Hp).
  apply bind_Some in Hp as (rest & Hrest & Hp). simplify_eq.
  apply IH in Hrest; [|simpl; lia]. unfold hex_into in *. cbn [fmap list_fmap concat].
  by rewrite hex_byte_of_digits, Hrest.
Qed.

Lemma parse_hash_inv s bs : parse_hash_hex s = Some bs -> hex_into bs = s /\ length bs = 32%nat.
Proof.
  unfold parse_hash_hex. case_bool_decide as Hl; [|done]. intros Hp%parse_hex_inv. split; [done|].
  rewrite <-Hp, hex_length in Hl. lia.
Qed.

Lemma strip_suffix_inv suffix s l : strip_suffix suffix s = Some l -> s = l ++ suffix.
Proof.
  unfold strip_suffix. case_bool_decide as Hd; [|done]. intros [= <-].
  rewrite <-(take_drop (length s - length suffix) s) at 1. by rewrite Hd.
Qed.

Lemma strip_suffix_app l suffix : strip_suffix suffix (l ++ suffix) = Some l.
Proof.
  unfold strip_suffix. rewrite length_app, Nat.add_sub, drop_app_length, take_app_length.
  by rewrite bool_decide_eq_true_2.
Qed.

Lemma rsplit_dot_app l r : Byte.x2e ∉ r -> rsplit_dot (l ++ Byte.x2e :: r) = Some (l, r).
Proof.
  intros Hr. assert (rsplit_dot r = None) as Hn.
  { clear l. induction r as [|b r IH]; [done|]. apply not_elem_of_cons in Hr as [? Hr].
    simpl. by rewrite IH, bool_decide_eq_false_2 by done. }
  induction l as [|b l IH]; simpl; [by rewrite Hn|by rewrite IH].
Qed.

Definition blob_name (hash : list u8) (fp : str) : str :=
  to_hex hash ++ bytes_of "." ++ fp ++ bytes_of ".bin".
Definition meta_name (hash : list u8) (fp : str) : str :=
  to_hex hash ++ bytes_of "." ++ fp ++ bytes_of ".meta.json".

(** The name of a blob gives back its hash and key fingerprint. *)
Lemma parse_blob_name hash fp :
  length hash = 32%nat -> Byte.x2e ∉ fp -> parse_blob_filename (blob_name hash fp) = Some (hash, fp).
Proof.
  intros Hl Hfp. unfold parse_blob_filename, blob_name. rewrite !app_assoc, strip_suffix_app.
  cbn [mbind option_bind]. rewrite <-app_assoc.
  change (bytes_of "." ++ fp) with (Byte.x2e :: fp). rewrite rsplit_dot_app by done. simpl. unfold parse_hash_hex, to_hex.
  rewrite hex_parse, bool_decide_eq_true_2; [done|]. rewrite hex_length. lia.
Qed.

(** A sidecar is never taken for a blob. *)
Lemma parse_meta_name hash fp : parse_blob_filename (meta_name hash fp) = None.
Proof.
  unfold parse_blob_filename, meta_name, strip_suffix. rewrite !app_assoc.
  set (l := (to_hex hash ++ bytes_of ".") ++ fp).
  change (bytes_of ".meta.json") with (bytes_of ".meta." ++ bytes_of "json").
  rewrite app_assoc, length_app, Nat.add_sub, drop_app_length. done.
Qed.

Lemma rsplit_dot_inv s l r : rsplit_dot s = Some (l, r) -> s = l ++ Byte.x2e :: r.
Proof.
  revert l r. induction s as [|b s IH]; intros l r Hs; simpl in Hs; [done|].
  destruct (rsplit_dot s) as [[l' r']|]; [simplify_eq; simpl; by rewrite (IH l' r)|].
  case_bool_decide; by simplify_eq.
Qed.

(** Only the name [blob_name] builds parses to a hash and fingerprint. *)
Lemma parse_blob_inv name hash fp :
  parse_blob_filename name = Some (hash, fp) -> name = blob_name hash fp /\ length hash = 32%nat.
Proof.
  unfold parse_blob_filename. intros Hp. apply bind_Some in Hp as (stem & Hstem & Hp).
  apply strip_suffix_inv in Hstem as ->. apply bind_Some in Hp as ([l r] & Hdot & Hp).
  apply rsplit_dot_inv in Hdot as ->. apply bind_Some in Hp as (h & Hh & Hp). simplify_eq.
  apply parse_hash_inv in Hh as [<- Hl]. split; [|done].
  unfold blob_name, to_hex. by rewrite <-app_assoc.
Qed.

Lemma blob_name_inj hash hash' fp fp' :
  length hash = 32%nat -> length hash' = 32%nat -> Byte.x2e ∉ fp -> Byte.x2e ∉ fp' ->
  blob_name hash fp = blob_name hash' fp' -> hash = hash' /\ fp = fp'.
Proof.
  intros Hl Hl' Hf Hf' H. apply (f_equal parse_blob_filename) in H.
  rewrite !parse_blob_name in H by done. by simplify_eq.
Qed.
End ArtifactNames.

Module EnvelopeFacts.
Import Artifacts.

Section envelope.
Context `{!Primitives}.

(** The bytes of an envelope over [body] that claims [hash]. *)
Definition sealed (key hash body : list u8) : list u8 :=
  (header hash ++ body) ++ hmac_sha256 key (header hash ++ body).

Lemma probe_limit_spec cap : 0 <= cap < u64_max -> probe_limit cap = cap + 1.
Proof. intros Hc. unfold probe_limit, checked_add. case_match; bool_props; [done|lia]. Qed.

(** Reading one byte past the cap is enough to know the whole stream. *)
Lemma read_within_cap cap s p :
  0 <= cap < u64_max ->
  (read_to_end_take (probe_limit cap) s = Ok p /\ zlen p <= cap) <-> (s = (p, None) /\ zlen p <= cap).
Proof.
  intros Hcap. rewrite probe_limit_spec by done. unfold read_to_end_take, zlen.
  destruct s as [out [e|]]; simpl; (split; [intros [HR ?]|intros [[= ->] ?]]);
    repeat case_match; bool_props; simplify_eq; try done; try lia.
  - rewrite length_take in *. lia.
  - rewrite length_take in *. lia.
Qed.

Lemma envelope_split (bytes : list u8) :
  (84 <= length bytes)%nat ->
  bytes = (take 16 bytes ++ slice 16 20 bytes ++ slice 20 52 bytes ++
           drop 52 (take (length bytes - 32) bytes)) ++ drop (length bytes - 32) bytes.
Proof.
  intros Hlen. rewrite <-(take_drop (length bytes - 32) bytes) at 1. f_equal.
  set (p := take (length bytes - 32) bytes).
  assert (length p = (length bytes - 32)%nat) as Hp by (unfold p; rewrite length_take; lia).
  rewrite <-(take_drop 16 p) at 1. rewrite <-!(slice_of_take _ _ (length bytes - 32) bytes) by lia.
  fold p. replace (take 16 bytes) with (take 16 p) by (unfold p; rewrite take_take; f_equal; lia).
  f_equal. rewrite <-(slice_drop 52 p), !slice_cat by lia. by rewrite slice_drop.
Qed.

Lemma version_bytes (l : list u8) :
  length l = 4%nat -> from_le_bytes l = ARTIFACT_VERSION -> l = to_le_bytes 4 ARTIFACT_VERSION.
Proof. intros Hl <-. rewrite <-Hl. symmetry. apply to_from_le_bytes. Qed.

(** Tamper evidence: whatever decodes is an envelope sealed under the key. *)
Lemma decode_inv bytes key cap p :
  0 <= cap < u64_max -> decode_envelope_from_bytes_with_cap bytes key cap = Ok p ->
  zlen p <= cap /\ exists body, bytes = sealed key (blake3 p) body /\ zstd_stream body = (p, None).
Proof.
  intros Hcap. unfold decode_envelope_from_bytes_with_cap, ARTIFACT_HEADER_LEN, ARTIFACT_HMAC_LEN.
  case_bool_decide as Hlen; [done|].
  case_bool_decide as Hmagic; [|done]. simpl.
  destruct (from_le_bytes (slice 16 20 bytes) =? ARTIFACT_VERSION) eqn:Hver; [|done]. bool_props.
  cbn [negb]. set (prefix := take (length bytes - 32) bytes).
  case_bool_decide as Hmac; [|done]. cbn [negb].
  destruct (read_to_end_take _ _) as [p'|] eqn:Hread; [|done].
  destruct (cap <? zlen p') eqn:Hsz; [done|]. bool_props.
  case_bool_decide as Hh; [|done]. simpl. intros [= <-].
  destruct (proj1 (read_within_cap cap _ p' Hcap) (conj Hread Hsz)) as [Hs _].
  split; [done|]. exists (drop 52 prefix). split; [|done].
  assert (prefix = header (blake3 p') ++ drop 52 prefix) as Hpre.
  { unfold header. rewrite Hh, <-Hmagic.
    rewrite <-(version_bytes (slice 16 20 bytes)) by (done || apply slice_length; lia).
    pose proof (envelope_split bytes ltac:(lia)) as Hs'.
    rewrite <-(take_drop (length bytes - 32) bytes) in Hs' at 1.
    apply app_inj_2 in Hs' as [Hs' _]; [|done]. unfold prefix at 1. rewrite Hs', <-!app_assoc. done. }
  unfold sealed. rewrite <-Hpre, Hmac. unfold prefix. by rewrite take_drop.
Qed.
End envelope.

Section roundtrip.
Context `{!Primitives, !PrimitivesOk}.

Lemma header_length hash : length hash = 32%nat -> length (header hash) = 52%nat.
Proof. intros Hh. unfold header. rewrite !length_app, length_to_le_bytes, Hh. done. Qed.

(** The fields of a sealed envelope, where the decoders look for them. *)
Lemma sealed_fields key hash body :
  length hash = 32%nat -> let bytes := sealed key hash body in
  length bytes = (84 + length body)%nat /\ take 16 bytes = ARTIFACT_MAGIC /\
  slice 16 20 bytes = to_le_bytes 4 ARTIFACT_VERSION /\ slice 20 52 bytes = hash /\
  take (length bytes - 32) bytes = header hash ++ body /\
  drop (length bytes - 32) bytes = hmac_sha256 key (header hash ++ body).
Proof.
  intros Hh bytes. pose proof (header_length hash Hh) as Hhl.
  pose proof (hmac_length key (header hash ++ body)) as Hm.
  assert (length bytes = (84 + length body)%nat) as Hl
    by (unfold bytes, sealed; rewrite !length_app, Hm, Hhl; lia).
  assert (length bytes - 32 = length (header hash ++ body))%nat as Hpre
    by (rewrite length_app, Hhl, Hl; lia).
  split_and!; [done| | | |by rewrite Hpre; apply take_app_length|by rewrite Hpre; apply drop_app_length].
  - unfold bytes, sealed, header. by rewrite <-!app_assoc, take_app_length'.
  - unfold bytes, sealed, header. rewrite <-!app_assoc. by apply slice_app.
  - unfold bytes, sealed, header. rewrite <-!app_assoc, (app_assoc ARTIFACT_MAGIC).
    apply slice_app; rewrite length_app, length_to_le_bytes; [done|by rewrite Hh].
Qed.

Lemma decode_sealed key cap p body :
  0 <= cap < u64_max -> zlen p <= cap -> zstd_stream body = (p, None) ->
  decode_envelope_from_bytes_with_cap (sealed key (blake3 p) body) key cap = Ok p.
Proof.
  intros Hcap Hp Hbody. unfold decode_envelope_from_bytes_with_cap, ARTIFACT_HEADER_LEN, ARTIFACT_HMAC_LEN.
  destruct (sealed_fields key (blake3 p) body (blake3_length p)) as (Hl & Hm & Hv & Hh & Hpre & Htag).
  rewrite Hpre, Htag, Hm, Hv, Hh.
  rewrite bool_decide_eq_false_2 by lia. rewrite bool_decide_eq_true_2 by done. cbn [negb].
  rewrite (from_to_le_bytes 4 ARTIFACT_VERSION), Z.eqb_refl by done. cbn [negb].
  rewrite bool_decide_eq_true_2 by done. cbn [negb].
  change (16 + 4 + 32)%nat with 52%nat.
  assert (drop 52 (header (blake3 p) ++ body) = body) as ->.
  { rewrite <-(header_length (blake3 p)) by apply blake3_length. apply drop_app_length. }
  destruct (proj2 (read_within_cap cap (zstd_stream body) p Hcap) (conj Hbody Hp)) as [-> _].
  destruct (cap <? zlen p) eqn:?; bool_props; [lia|]. by rewrite bool_decide_eq_true_2.
Qed.
End roundtrip.
End EnvelopeFacts.

Module ReadFacts.
Import Artifacts EnvelopeFacts.

Section read.
Context `{!Primitives}.

(** What a read is, in one piece: resolve the key, decode the whole file as
    an envelope under it, and compare with the hash that was asked for. *)
Definition get_reference (st : DiskArtifactStore) (hash : list u8) (d : Dir) :
    result ArtifactError (list u8) :=
  found ← resolve_read_key st hash d;
  '(path, key) ← ok_or (NotFoundArtifact (to_hex hash)) found;
  file ← ok_or (NotFoundArtifact (to_hex hash)) (files d !! path);
  payload ← decode_envelope_from_bytes (data file) key;
  if bool_decide (blake3 payload = hash) then Ok payload
  else Err (HashMismatch (to_hex hash) (to_hex (blake3 payload))).

(** However much the decoder pulled, the drain completes the MAC to the
    whole prefix and leaves the reader at the tag. *)
Lemma mac_stream (file : list u8) (k : nat) :
  (84 <= length file)%nat ->
  let body := take (length file - 32 - 52) (drop 52 file) in
  let pulled := take k body in
  let gap := (length file - 32 - (52 + length pulled))%nat in
  let rest := drop (length pulled) (drop 52 file) in
  (take 52 file ++ pulled) ++ take gap rest = take (length file - 32) file /\
  take 32 (drop gap rest) = drop (length file - 32) file.
Proof.
  intros Hlen body pulled gap rest.
  assert (length pulled <= length file - 84)%nat as Hk
    by (unfold pulled, body; rewrite !length_take, length_drop; lia).
  assert (pulled = take (length pulled) (drop 52 file)) as Hpull.
  { unfold pulled, body at 1. rewrite take_take. unfold body. rewrite !length_take, length_drop.
    rewrite (take_take (drop 52 file)) || idtac. f_equal. lia. }
  split.
  - rewrite Hpull at 1. unfold rest. rewrite <-app_assoc, take_take_drop, take_take_drop. f_equal. lia.
  - unfold rest. rewrite !drop_drop. rewrite take_ge; [f_equal; lia|]. rewrite length_drop. lia.
Qed.

Lemma body_of_file (file : list u8) :
  take (length file - 32 - 52) (drop 52 file) = drop 52 (take (length file - 32) file).
Proof. by rewrite skipn_firstn_comm. Qed.

(** The header's fields do not depend on reading it separately. *)
Lemma header_fields (file : list u8) :
  take 16 (take 52 file) = take 16 file /\ slice 16 20 (take 52 file) = slice 16 20 file /\
  slice 20 52 (take 52 file) = slice 20 52 file.
Proof. rewrite take_take, !slice_of_take by lia. done. Qed.

Lemma get_eq st hash d : get st hash d = get_reference st hash d.
Proof.
  unfold get, get_reference. destruct (resolve_read_key st hash d) as [[[path key]|]|]; [|done..].
  cbn [mbind result_bind ok_or].
  destruct (files d !! path) as [[file m]|]; [|done]. cbn [mbind result_bind ok_or data].
  unfold decode_envelope_from_bytes, decode_envelope_from_bytes_with_cap, ARTIFACT_HEADER_LEN, ARTIFACT_HMAC_LEN.
  change (16 + 4 + 32)%nat with 52%nat.
  case_bool_decide as Hlen; [done|]. destruct (header_fields file) as (-> & -> & ->).
  case_bool_decide as Hmagic; [|done]. cbn [negb].
  destruct (_ =? ARTIFACT_VERSION); [|done]. cbn [negb].
  destruct (mac_stream file (zstd_pulled (take (length file - 32 - 52) (drop 52 file))) ltac:(lia)) as [-> ->].
  rewrite body_of_file. case_bool_decide; [|done]. cbn [negb].
  destruct (read_to_end_take _ _); [|done]. case_match; [done|].
  case_bool_decide; [|done]. cbn [negb mbind result_bind]. by case_bool_decide.
Qed.

Lemma verify_stream (file : list u8) :
  (84 <= length file)%nat ->
  take 52 file ++ take (length file - 32 - 52) (drop 52 file) = take (length file - 32) file /\
  take 32 (drop (length file - 32 - 52) (drop 52 file)) = drop (length file - 32) file.
Proof.
  intros Hlen. rewrite take_take_drop, drop_drop. split; [f_equal; lia|].
  rewrite take_ge; [f_equal; lia|]. rewrite length_drop. lia.
Qed.

Lemma read_take_Ok limit s p :
  0 <= limit -> read_to_end_take limit s = Ok p -> take (Z.to_nat limit) s.1 = p.
Proof.
  unfold read_to_end_take, zlen. intros Hl. repeat case_match; intros; simplify_eq; bool_props; [done|].
  apply take_ge. lia.
Qed.

(** The streaming variant agrees, and its writer gets nothing before the
    MAC has been checked and exactly the payload on success. *)
Lemma get_to_eq st hash d :
  (get_to st hash d).1 = (zlen <$> get_reference st hash d) /\
  (forall p, get_reference st hash d = Ok p -> (get_to st hash d).2 = p) /\
  ((get_to st hash d).1 = Err BadHmac -> (get_to st hash d).2 = []).
Proof.
  unfold get_to, get_reference. destruct (resolve_read_key st hash d) as [[[path key]|]|]; [|done..].
  cbn [mbind result_bind ok_or].
  destruct (files d !! path) as [[file m]|]; [|done]. cbn [mbind result_bind ok_or data].
  unfold decode_envelope_from_bytes, decode_envelope_from_bytes_with_cap, verify_blob, decode_to_writer,
    ARTIFACT_HEADER_LEN, ARTIFACT_HMAC_LEN.
  change (16 + 4 + 32)%nat with 52%nat.
  case_bool_decide as Hlen; [done|]. destruct (header_fields file) as (-> & -> & ->).
  case_bool_decide as Hmagic; [|done]. cbn [negb].
  destruct (_ =? ARTIFACT_VERSION); [|done]. cbn [negb].
  destruct (verify_stream file ltac:(lia)) as [-> ->].
  case_bool_decide; [|done]. cbn [negb hash_on_disk body_len]. rewrite body_of_file.
  destruct (read_to_end_take _ _) as [p|] eqn:Hread; [|done].
  apply read_take_Ok in Hread; [|done].
  destruct (MAX_DECOMPRESSED_LEN <? zlen p); [done|].
  case_bool_decide; [|done]. cbn [negb mbind result_bind].
  case_bool_decide; [|done]. cbn [negb]. split_and!; [done| |done]. intros ? [= <-]. exact Hread.
Qed.
End read.

(** streaming changes nothing.  [get], which decompresses while it
    computes the MAC and then drains what the decoder left unread, returns
    for every directory (tampered ones included), every key provider and
    every amount the decoder happens to pull, exactly what decoding the
    whole file as an envelope and comparing the hash returns, errors
    included; [get_to] agrees with it, hands its writer exactly the payload
    when it succeeds, and writes nothing when the MAC does not verify. *)
Theorem streaming_reads_agree `{!Primitives} st hash d :
  get st hash d = get_reference st hash d /\
  (get_to st hash d).1 = (zlen <$> get st hash d) /\
  (forall p, get st hash d = Ok p -> (get_to st hash d).2 = p) /\
  ((get_to st hash d).1 = Err BadHmac -> (get_to st hash d).2 = []).
Proof. rewrite get_eq. split; [done|]. apply get_to_eq. Qed.

(** C13: tamper evidence.  Whatever the directory contains, a successful read
    of [hash] returns a payload whose blake3 hash is [hash], from a file that
    is, byte for byte, an envelope sealed under one of the provider's read
    keys around a compressed form of that payload, and no larger than the
    cap. *)
Theorem get_authentic `{!Primitives} st hash d p :
  get st hash d = Ok p ->
  blake3 p = hash /\ zlen p <= MAX_DECOMPRESSED_LEN /\
  exists path key body f, key ∈ read_keys (key_provider st) /\ files d !! path = Some f /\
    data f = sealed key hash body /\ zstd_stream body = (p, None).
Proof.
  rewrite get_eq. unfold get_reference. intros Hget.
  destruct (resolve_read_key st hash d) as [[[path key]|]|] eqn:Hres; [|done..].
  cbn [mbind result_bind ok_or] in Hget. destruct (files d !! path) as [f|] eqn:Hf; [|done].
  cbn [mbind result_bind ok_or] in Hget. inv_bind Hget. case_bool_decide as Hh; simplify_eq.
  apply decode_inv in E as (Hlen & body & Hdata & Hz); [|done].
  split_and!; [done..|]. exists path, key, body, f. split_and!; [|done..].
  unfold resolve_read_key in Hres. revert Hres. generalize (read_keys (key_provider st)).
  induction l as [|k ks IH]; simpl; [done|]. intros Hres. inv_bind Hres.
  case_match; simplify_eq; [by left|right; auto].
Qed.
End ReadFacts.

(** ** The disk store against the in-memory one *)

Module Refinement.
Import Artifacts ArtifactNames EnvelopeFacts ReadFacts.

(** The [ArtifactStore] interface, as one operation type. *)
Inductive store_op :=
| OpPut (fault : option put_fault) (now : option Z) (payload : list u8)
| OpPutFrom (fault : option put_fault) (now : option Z) (src : list (list u8))
| OpGet (hash : list u8)
| OpGetTo (hash : list u8)
| OpList
| OpContains (hash : list u8)
| OpRemove (hash : list u8).

Inductive store_reply :=
| RHash (r : result ArtifactError (list u8))
| RBytes (r : result ArtifactError (list u8))
| RStream (r : result ArtifactError Z) (out : list u8)
| RSet (s : gset (list u8))
| RBool (r : result ArtifactError bool).

Section refine.
Context `{!Primitives}.

Definition disk_step (st : DiskArtifactStore) (o : store_op) (d : Dir) : store_reply * Dir :=
  match o with
  | OpPut fault now payload => let '(r, d) := put st fault now payload d in (RHash r, d)
  | OpPutFrom fault now src => let '(r, d) := put_from st fault now src d in (RHash r, d)
  | OpGet hash => (RBytes (get st hash d), d)
  | OpGetTo hash => let '(r, out) := get_to st hash d in (RStream r out, d)
  | OpList => (RSet (list_ st d), d)
  | OpContains hash => (RBool (contains st hash d), d)
  | OpRemove hash => let '(r, d) := remove st hash d in (RBool r, d)
  end.

(** [put_from] has no in-memory override: it is a [put] of the whole. *)
Definition mem_step (o : store_op) (m : MemStore) : store_reply * MemStore :=
  match o with
  | OpPut _ _ payload => let '(r, m) := mem_put payload m in (RHash r, m)
  | OpPutFrom _ _ src => let '(r, m) := mem_put (concat src) m in (RHash r, m)
  | OpGet hash => (RBytes (mem_get hash m), m)
  | OpGetTo hash => let '(r, out) := mem_get_to hash m in (RStream r out, m)
  | OpList => (RSet (mem_list m), m)
  | OpContains hash => (RBool (Ok (mem_contains hash m)), m)
  | OpRemove hash => let '(r, m) := mem_remove hash m in (RBool (Ok r), m)
  end.

(** Hashes are 32-byte arrays, payloads are within the cap, and the disk
    does not fail. *)
Definition op_ok (o : store_op) : Prop :=
  match o with
  | OpPut fault _ payload => fault = None /\ zlen payload <= MAX_PAYLOAD_LEN
  | OpPutFrom fault _ src => fault = None /\ zlen (concat src) <= MAX_PAYLOAD_LEN
  | OpGet hash | OpGetTo hash | OpContains hash | OpRemove hash => length hash = 32%nat
  | OpList => True
  end.

Fixpoint run {S} (step : store_op -> S -> store_reply * S) (os : list store_op) (s : S) :
    list store_reply * S :=
  match os with
  | [] => ([], s)
  | o :: os => let '(r, s) := step o s in let '(rs, s) := run step os s in (r :: rs, s)
  end.

(** The directory holds, under the store's fingerprint, exactly an
    authentic envelope for every entry; anything else in it (sidecars,
    other keys' blobs, temporary files) is not a blob of this store. *)
Record represents (key : list u8) (d : Dir) (m : MemStore) : Prop := {
  rep_blob : forall h p, m !! h = Some p ->
    h = blake3 p /\ zlen p <= MAX_PAYLOAD_LEN /\
    exists body now, files d !! blob_name h (key_fingerprint_hex key)
                     = Some (mkFile (sealed key h body) now) /\ zstd_stream body = (p, None);
  rep_only : forall name f, files d !! name = Some f ->
    (exists h, is_Some (m !! h) /\ name = blob_name h (key_fingerprint_hex key)) \/
    (forall h, parse_blob_filename name <> Some (h, key_fingerprint_hex key));
}.
End refine.

Section proofs.
Context `{!Primitives, !PrimitivesOk} (key : list u8) (level : Z) (dur : DurabilityPolicy).
Abbreviation fp := (key_fingerprint_hex key).
Abbreviation st := (build (SingleKeyProvider key) level dur).
Abbreviation rep := (represents key).

Lemma fp_no_dot : Byte.x2e ∉ fp.
Proof. apply hex_no_dot. Qed.

Lemma rep_length d m h : rep d m -> is_Some (m !! h) -> length h = 32%nat.
Proof. intros Hrep [p Hp]. destruct (rep_blob _ _ _ Hrep _ _ Hp) as [-> _]. apply blake3_length. Qed.

Lemma rep_absent d m h :
  rep d m -> length h = 32%nat -> m !! h = None -> files d !! blob_name h fp = None.
Proof.
  intros Hrep Hl Hm. destruct (files d !! blob_name h fp) as [f|] eqn:Hf; [|done].
  destruct (rep_only _ _ _ Hrep _ _ Hf) as [(h' & Hh' & Heq)|Hno].
  - apply blob_name_inj in Heq as [-> _]; eauto using rep_length, fp_no_dot. by destruct Hh'; simplify_eq.
  - by destruct (Hno h); apply parse_blob_name; [|apply fp_no_dot].
Qed.

Lemma path_ok h : length h = 32%nat -> path_for_key h fp = Ok (blob_name h fp).
Proof. intros Hl. unfold path_for_key. by rewrite validated_ok. Qed.

Lemma resolve_single h d :
  length h = 32%nat ->
  resolve_read_key st h d
  = Ok (match files d !! blob_name h fp with Some _ => Some (blob_name h fp, key) | None => None end).
Proof.
  intros Hl. unfold resolve_read_key. simpl. rewrite path_ok by done. simpl. by case_match.
Qed.

Lemma get_represented d m h :
  rep d m -> length h = 32%nat -> get_reference st h d = mem_get h m.
Proof.
  intros Hrep Hl. unfold get_reference, mem_get. rewrite resolve_single by done.
  destruct (m !! h) as [p|] eqn:Hm.
  - destruct (rep_blob _ _ _ Hrep _ _ Hm) as (-> & Hp & body & now & Hf & Hz).
    rewrite Hf. cbn [mbind result_bind ok_or data]. rewrite Hf. cbn [mbind result_bind ok_or data].
    unfold decode_envelope_from_bytes. rewrite decode_sealed; [|done| |done].
    + cbn [mbind result_bind]. by rewrite bool_decide_eq_true_2.
    + unfold MAX_DECOMPRESSED_LEN. unfold MAX_PAYLOAD_LEN in *. lia.
  - by rewrite (rep_absent d m) by done.
Qed.

(** What a fault-free write leaves on disk. *)
Definition written (d : Dir) (p body : list u8) (now : option Z) : Dir :=
  Some (<[blob_name (blake3 p) fp := mkFile (sealed key (blake3 p) body) now]> (files d)).

Lemma put_written p now d :
  zlen p <= MAX_PAYLOAD_LEN ->
  put st None now p d = (Ok (blake3 p), written d p (zstd_encode level [p]) now).
Proof.
  intros Hp. unfold put. destruct (MAX_PAYLOAD_LEN <? zlen p) eqn:?; bool_props; [lia|].
  unfold path_for. simpl. unfold mbind, stM_bind. simpl. rewrite path_ok by apply blake3_length. simpl.
  unfold persist, mbind, stM_bind. simpl. destruct dur; simpl; unfold written, sealed, header;
    by rewrite <-!app_assoc.
Qed.

(** A write that reports success wrote its envelope, whatever else went on. *)
Lemma put_Ok_written fault now p d h d' :
  put st fault now p d = (Ok h, d') ->
  zlen p <= MAX_PAYLOAD_LEN /\ h = blake3 p /\ d' = written d p (zstd_encode level [p]) now.
Proof.
  destruct (decide (zlen p <= MAX_PAYLOAD_LEN)) as [Hp|Hp].
  - destruct (decide (fault = None)) as [->|Hf].
    + rewrite (put_written p now d Hp). by intros [= <- <-].
    + intros Hput. cut ((Ok h, d') = put st None now p d).
      { rewrite (put_written p now d Hp). by intros [= -> ->]. }
      rewrite <-Hput. revert Hput. unfold put.
      destruct (_ <? _); [done|]. unfold path_for. unfold mbind, stM_bind. simpl.
      rewrite path_ok by apply blake3_length. unfold persist, mbind, stM_bind.
      destruct fault as [[]|], dur; simpl; rewrite ?path_ok by apply blake3_length; simpl; done.
  - unfold put. rewrite (proj2 (Z.ltb_lt _ _)) by lia. done.
Qed.

(** A blob that is still there is what was written. *)
Lemma get_written p d d' now :
  zlen p <= MAX_PAYLOAD_LEN ->
  files d' !! blob_name (blake3 p) fp
  = files (written d p (zstd_encode level [p]) now) !! blob_name (blake3 p) fp ->
  get st (blake3 p) d' = Ok p.
Proof.
  intros Hp Hd. simpl in Hd. rewrite lookup_insert_eq in Hd.
  rewrite get_eq. unfold get_reference. rewrite resolve_single, Hd by apply blake3_length.
  cbn [mbind result_bind ok_or data]. rewrite Hd. cbn [mbind result_bind ok_or data].
  unfold decode_envelope_from_bytes. rewrite decode_sealed; [|done| |].
  - cbn [mbind result_bind]. by rewrite bool_decide_eq_true_2.
  - unfold MAX_DECOMPRESSED_LEN. unfold MAX_PAYLOAD_LEN in *. lia.
  - by rewrite zstd_roundtrip, concat_cons, app_nil_r.
Qed.

Lemma pump_within src : forall done total,
  0 <= total -> total + zlen (concat src) <= MAX_PAYLOAD_LEN -> pump src done total = Ok (done ++ src).
Proof.
  induction src as [|c src IH]; intros done total Ht Hle; simpl; [by rewrite app_nil_r|].
  unfold zlen in *. simpl in Hle. rewrite length_app in Hle. unfold sat_add.
  unfold MAX_PAYLOAD_LEN in *.
  destruct (_ <? _) eqn:?; bool_props; [lia|]. rewrite IH by lia. by rewrite <-app_assoc.
Qed.

Lemma put_from_written src now d :
  zlen (concat src) <= MAX_PAYLOAD_LEN ->
  put_from st None now src d = (Ok (blake3 (concat src)), written d (concat src) (zstd_encode level src) now).
Proof.
  intros Hp. unfold put_from, path_for. unfold mbind, stM_bind. simpl.
  rewrite pump_within by (done || lia). simpl. rewrite path_ok by apply blake3_length. simpl.
  unfold persist, mbind, stM_bind. simpl. by destruct dur.
Qed.

Lemma rep_written d m p body now :
  rep d m -> zlen p <= MAX_PAYLOAD_LEN -> zstd_stream body = (p, None) ->
  rep (written d p body now) (<[blake3 p := p]> m).
Proof.
  intros Hrep Hp Hz. split; simpl.
  - intros h q. destruct (decide (blake3 p = h)) as [<-|Hne].
    + rewrite lookup_insert_eq. intros Hq. simplify_eq. split_and!; [done..|]. exists body, now.
      by rewrite lookup_insert_eq.
    + rewrite lookup_insert_ne by done. intros Hq.
      destruct (rep_blob _ _ _ Hrep _ _ Hq) as (Hh & ? & body' & now' & Hf & ?).
      split_and!; [done..|]. exists body', now'. rewrite lookup_insert_ne; [done|].
      intros Heq%blob_name_inj; [by destruct Heq| | |apply fp_no_dot..]; subst; apply blake3_length.
  - intros name f [[<- <-]|[Hne Hf]]%lookup_insert_Some.
    + left. exists (blake3 p). by rewrite lookup_insert_eq.
    + destruct (rep_only _ _ _ Hrep _ _ Hf) as [(h & Hh & ->)|]; [left|by right].
      exists h. split; [|done]. rewrite lookup_insert_is_Some'. by right.
Qed.

(** Removing the blob and its sidecar. *)
Definition unlinked (d : Dir) (h : list u8) : Dir :=
  Some (delete (meta_name h fp) (delete (blob_name h fp) (files d))).

Lemma remove_single h d :
  length h = 32%nat ->
  remove st h d = match files d !! blob_name h fp with
                  | Some _ => (Ok true, unlinked d h)
                  | None => (Ok false, d)
                  end.
Proof.
  intros Hl. unfold remove, mbind, stM_bind. cbn [get_state lift]. rewrite resolve_single by done.
  destruct (files d !! blob_name h fp); [|done]. cbn.
  unfold meta_path_for_key. rewrite validated_ok by done. done.
Qed.

Lemma rep_unlinked d m h : rep d m -> length h = 32%nat -> rep (unlinked d h) (delete h m).
Proof.
  intros Hrep Hl. split; simpl.
  - intros h' q [Hne Hq]%lookup_delete_Some.
    destruct (rep_blob _ _ _ Hrep _ _ Hq) as (Hh & ? & body' & now' & Hf & ?).
    assert (length h' = 32%nat) by (subst; apply blake3_length).
    split_and!; [done..|]. exists body', now'. split; [|done]. rewrite !lookup_delete_ne; [done|..].
    + intros Heq%blob_name_inj; [by destruct Heq|done|done|apply fp_no_dot..].
    + intros Heq. apply (f_equal parse_blob_filename) in Heq.
      by rewrite parse_meta_name, parse_blob_name in Heq by (done || apply fp_no_dot).
  - intros name f [Hmeta [Hne Hf]%lookup_delete_Some]%lookup_delete_Some.
    destruct (rep_only _ _ _ Hrep _ _ Hf) as [(h' & Hh' & ->)|]; [left|by right].
    exists h'. split; [|done]. rewrite lookup_delete_is_Some. split; [congruence|done].
Qed.

Lemma elem_of_blobs d b :
  b ∈ for_each_blob st d <->
  exists name f, files d !! name = Some f /\ parse_blob_filename name = Some (blob_hash b, fp) /\
    (84 <= length (data f))%nat /\ blob_len b = zlen (data f) /\ blob_modified b = modified f.
Proof.
  unfold for_each_blob, blob_of. rewrite list_elem_of_omap. split.
  - intros ([name f] & Hin & Hb). apply elem_of_map_to_list in Hin. exists name, f. simpl in Hb.
    destruct (parse_blob_filename name) as [[h fp']|]; [|done].
    case_bool_decide as Hfp; [|done]. simpl in Hb. case_bool_decide as Hlen; [done|].
    apply list_elem_of_singleton in Hfp as ->. simplify_eq. split_and!; try done.
    unfold ARTIFACT_HEADER_LEN, ARTIFACT_HMAC_LEN in Hlen. lia.
  - intros (name & f & Hf & Hparse & Hlen & Hl & Hm). exists (name, f).
    split; [by apply elem_of_map_to_list|]. simpl. rewrite Hparse. destruct b. simpl in *. subst.
    rewrite bool_decide_eq_true_2 by (apply list_elem_of_singleton; done). simpl.
    rewrite bool_decide_eq_false_2; [done|].
    unfold ARTIFACT_HEADER_LEN, ARTIFACT_HMAC_LEN. lia.
Qed.

Lemma sealed_length h body : length h = 32%nat -> (84 <= length (sealed key h body))%nat.
Proof. intros Hl. destruct (sealed_fields key h body Hl) as (-> & _). lia. Qed.

Lemma list_represented d m : rep d m -> list_ st d = mem_list m.
Proof.
  intros Hrep. apply set_eq. intros h. unfold list_, mem_list.
  rewrite elem_of_list_to_set, list_elem_of_fmap, elem_of_dom. split.
  - intros (b & -> & (name & f & Hf & Hparse & _)%elem_of_blobs).
    destruct (rep_only _ _ _ Hrep _ _ Hf) as [(h & Hh & ->)|Hno]; [|by destruct (Hno (blob_hash b))].
    rewrite parse_blob_name in Hparse; [by simplify_eq|by eapply rep_length|apply fp_no_dot].
  - intros [p Hp]. pose proof (rep_length _ _ h Hrep (ex_intro _ p Hp)) as Hl.
    destruct (rep_blob _ _ _ Hrep _ _ Hp) as (Hh & _ & body & now & Hf & _).
    exists (mkBlob h (zlen (sealed key h body)) now). split; [done|]. apply elem_of_blobs.
    eexists _, _. split_and!; [exact Hf| |by apply sealed_length|done..].
    by apply parse_blob_name; [|apply fp_no_dot].
Qed.

(** One operation: equal replies, related stores. *)
Lemma step_refines o d m :
  rep d m -> op_ok o ->
  (disk_step st o d).1 = (mem_step o m).1 /\ rep (disk_step st o d).2 (mem_step o m).2.
Proof.
  intros Hrep Ho. destruct o as [fault now p|fault now src|h|h| |h|h]; simpl in Ho; cbn [disk_step mem_step].
  - destruct Ho as [-> Hp]. rewrite put_written by done. split; [done|].
    apply rep_written; [done..|]. rewrite zstd_roundtrip. simpl. by rewrite app_nil_r.
  - destruct Ho as [-> Hp]. rewrite put_from_written by done. split; [done|].
    apply rep_written; [done..|]. apply zstd_roundtrip.
  - rewrite get_eq, (get_represented d m) by done. done.
  - destruct (get_to_eq st h d) as (Hr & Hout & _). rewrite (get_represented d m) in * by done.
    unfold mem_get_to, mem_get in *. destruct (m !! h) as [p|] eqn:Hm.
    + by rewrite (surjective_pairing (get_to st h d)), Hr, (Hout p eq_refl).
    + unfold get_to. by rewrite resolve_single, (rep_absent d m) by done.
  - rewrite (list_represented d m) by done. done.
  - unfold contains, mem_contains. rewrite resolve_single by done. simpl. split; [|done].
    do 2 f_equal. destruct (m !! h) as [p|] eqn:Hm.
    + destruct (rep_blob _ _ _ Hrep _ _ Hm) as (_ & _ & body & now & -> & _).
      by rewrite bool_decide_eq_true_2.
    + rewrite (rep_absent d m) by done. by rewrite bool_decide_eq_false_2 by (by intros []).
  - rewrite remove_single by done. unfold mem_remove. destruct (m !! h) as [p|] eqn:Hm.
    + destruct (rep_blob _ _ _ Hrep _ _ Hm) as (_ & _ & body & now & -> & _).
      rewrite bool_decide_eq_true_2 by done. split; [done|]. by apply rep_unlinked.
    + rewrite (rep_absent d m) by done. rewrite bool_decide_eq_false_2 by (by intros []).
      split; [done|]. simpl. by rewrite delete_id.
Qed.

Lemma run_refines os : forall d m,
  rep d m -> Forall op_ok os ->
  (run (disk_step st) os d).1 = (run mem_step os m).1 /\
  rep (run (disk_step st) os d).2 (run mem_step os m).2.
Proof.
  induction os as [|o os IH]; intros d m Hrep Hos; [done|]. apply Forall_cons_1 in Hos as [Ho Hos].
  simpl. destruct (step_refines o d m Hrep Ho) as [Hr Hrep'].
  destruct (disk_step st o d) as [r1 d1], (mem_step o m) as [r2 m1]. simpl in *.
  specialize (IH d1 m1 Hrep' Hos).
  destruct (run (disk_step st) os d1), (run mem_step os m1). simpl in *.
  destruct IH as [-> ?]. by rewrite Hr.
Qed.
End proofs.

(** C6: the disk store implements the in-memory store.  Started in any
    directory that holds no blob under its key's fingerprint, a store with
    one key gives exactly the replies of a hash map from content hash to
    payload (the listing as a set), on every sequence of put, streaming put,
    get, streaming get, list, contains and remove in which no file operation
    fails, payloads are at most [MAX_PAYLOAD_LEN] (256 MiB) and the hashes asked
    for have 32 bytes: every payload that was put and not removed reads back,
    and nothing else does.  Beyond these conditions the two differ: the disk
    store answers [TooLarge] to a payload that the map takes. *)
Theorem disk_store_refines_memory `{!Primitives, !PrimitivesOk} key level dur d os :
  (forall name f h, files d !! name = Some f ->
     parse_blob_filename name <> Some (h, key_fingerprint_hex key)) ->
  Forall op_ok os ->
  (run (disk_step (build (SingleKeyProvider key) level dur)) os d).1 = (run mem_step os ∅).1.
Proof.
  intros Hd Hos. refine (proj1 (run_refines key level dur os d ∅ _ Hos)). split.
  - intros h p Hp. by rewrite lookup_empty in Hp.
  - intros name f Hf. right. intros h. by eapply Hd.
Qed.

Lemma get_authentic_witness :
  let st := build (H := Toy.toy) (SingleKeyProvider []) 3 Full in
  let d := (disk_step (H := Toy.toy) st (OpPut None (Some 5) [Byte.x01]) None).2 in
  get (H := Toy.toy) st (to_le_bytes 32 1) d = Ok [Byte.x01] /\
  exists path key body f, key ∈ [[]] /\ files d !! path = Some f /\
    data f = sealed (H := Toy.toy) key (to_le_bytes 32 1) body /\
    zstd_stream (Primitives := Toy.toy) body = ([Byte.x01], None).
Proof.
  set (st := build (H := Toy.toy) (SingleKeyProvider []) 3 Full).
  set (d := (disk_step (H := Toy.toy) st (OpPut None (Some 5) [Byte.x01]) None).2).
  assert (get (H := Toy.toy) st (to_le_bytes 32 1) d = Ok [Byte.x01]) as Hget by (vm_compute; reflexivity).
  split; [exact Hget|].
  destruct (get_authentic (H := Toy.toy) st (to_le_bytes 32 1) d [Byte.x01] Hget) as (_ & _ & Hex). exact Hex.
Defined.

Definition toy_ops : list store_op :=
  [OpPut None (Some 5) [Byte.x01]; OpPutFrom None (Some 6) [[Byte.x02]; [Byte.x03]];
   OpGet (to_le_bytes 32 1); OpRemove (to_le_bytes 32 1); OpGet (to_le_bytes 32 1); OpList].

Lemma disk_store_refines_memory_witness :
  let _ := Toy.toy in
  (run (disk_step (build (SingleKeyProvider []) 3 Full)) toy_ops None).1 = (run mem_step toy_ops ∅).1.
Proof.
  apply (disk_store_refines_memory (H := Toy.toy) (H0 := Toy.toy_ok) [] 3 Full None).
  - intros name f h Hf. unfold files in Hf. simpl in Hf. by rewrite lookup_empty in Hf.
  - repeat constructor; done.
Defined.

(** a failed write leaves every blob alone.  Whatever step of [put] or
    [put_from] meets an I/O error, and whenever the payload is refused as
    too large, the directory's files are exactly those before the call; and
    a [put] that succeeds changes one file. *)
Theorem failed_put_changes_nothing `{!Primitives} st fault now payload src d :
  (is_ok (put st fault now payload d).1 = false -> files (put st fault now payload d).2 = files d) /\
  (is_ok (put_from st fault now src d).1 = false -> files (put_from st fault now src d).2 = files d) /\
  (is_ok (put st fault now payload d).1 = true ->
   exists path f, files (put st fault now payload d).2 = <[path := f]> (files d)).
Proof.
  unfold put, put_from, create_dir_all, persist, mbind, stM_bind, lift, fail, get_state, put_state, mret, stM_ret.
  split_and!; repeat (case_match; simplify_eq/=); try done; intros _; eexists _, _; reflexivity.
Qed.
End Refinement.

(** ** Garbage collection *)

Module GcFacts.
Import Artifacts ArtifactNames EnvelopeFacts Refinement.

Section sorting.
Lemma insert_blob_perm b bs : insert_blob b bs ≡ₚ b :: bs.
Proof.
  induction bs as [|c bs IH]; simpl; [done|]. case_match; [done|].
  rewrite IH. apply Permutation_swap.
Qed.

Lemma sort_perm bs : sort_by_mtime bs ≡ₚ bs.
Proof. induction bs as [|b bs IH]; simpl; [done|]. by rewrite insert_blob_perm, IH. Qed.

Definition older (b c : Blob) : Prop := blob_time b <= blob_time c.

Lemma insert_blob_sorted b bs : StronglySorted older bs -> StronglySorted older (insert_blob b bs).
Proof.
  induction 1 as [|c bs Hs IH Hall]; simpl; [by repeat constructor|].
  case_match; bool_props.
  - constructor; [by constructor|]. constructor; [done|].
    eapply Forall_impl; [exact Hall|]. unfold older. intros; lia.
  - constructor; [done|]. rewrite insert_blob_perm. constructor; [unfold older; lia|done].
Qed.

Lemma sort_sorted bs : StronglySorted older (sort_by_mtime bs).
Proof. induction bs; simpl; [constructor|by apply insert_blob_sorted]. Qed.
End sorting.

(** Older than the cutoff, for certain. *)
Definition expired (cutoff : Z) (b : Blob) : Prop :=
  match blob_modified b with Some mtime => mtime < cutoff | None => False end.
#[export] Instance expired_dec cutoff b : Decision (expired cutoff b).
Proof. unfold expired. destruct (blob_modified b); apply _. Defined.

Section gc.
Context `{!Primitives, !PrimitivesOk} (key : list u8) (level : Z) (dur : DurabilityPolicy).
Abbreviation fp := (key_fingerprint_hex key).
Abbreviation st := (build (SingleKeyProvider key) level dur).
Abbreviation blobs := (for_each_blob st).

Definition bytes (bs : list Blob) : Z := sumZ blob_len bs.

Lemma bytes_perm bs bs' : bs ≡ₚ bs' -> bytes bs = bytes bs'.
Proof. apply sumZ_Permutation. Qed.

Lemma blobs_nonneg d : Forall (fun b => 0 <= blob_len b) (blobs d).
Proof.
  apply Forall_forall. intros b Hb. apply elem_of_blobs in Hb as (name & f & _ & _ & _ & -> & _).
  unfold zlen. lia.
Qed.

(** Unlinking a blob takes exactly that blob out of the enumeration. *)
Lemma blobs_unlinked d b :
  b ∈ blobs d ->
  length (blob_hash b) = 32%nat /\ is_Some (files d !! blob_name (blob_hash b) fp) /\
  b :: blobs (unlinked key d (blob_hash b)) ≡ₚ blobs d.
Proof.
  intros Hb. pose proof Hb as (name & f & Hf & Hparse & Hlen & Hl & Hm)%elem_of_blobs.
  destruct (parse_blob_inv _ _ _ Hparse) as [-> H32]. split_and!; [done|by eauto|].
  assert (blob_of st (blob_name (blob_hash b) fp, f) = Some b) as Hob.
  { unfold blob_of. simpl. rewrite Hparse. rewrite bool_decide_eq_true_2 by by apply list_elem_of_singleton.
    simpl. rewrite bool_decide_eq_false_2 by (unfold ARTIFACT_HEADER_LEN, ARTIFACT_HMAC_LEN; lia).
    destruct b; simpl in *. by subst. }
  unfold for_each_blob, unlinked. simpl. set (m := delete (blob_name (blob_hash b) fp) (files d)).
  assert (omap (blob_of st) (map_to_list (delete (meta_name (blob_hash b) fp) m))
          ≡ₚ omap (blob_of st) (map_to_list m)) as ->.
  { destruct (m !! meta_name (blob_hash b) fp) as [g|] eqn:Hg; [|by rewrite delete_id].
    rewrite <-(map_to_list_delete m _ _ Hg). cbn [omap list_omap].
    unfold blob_of at 2. simpl. by rewrite parse_meta_name. }
  rewrite <-(map_to_list_delete (files d) _ _ Hf). cbn [omap list_omap]. by rewrite Hob.
Qed.

Lemma remove_blob d b :
  b ∈ blobs d -> remove st (blob_hash b) d = (Ok true, unlinked key d (blob_hash b)).
Proof.
  intros (Hl & [f Hf] & _)%blobs_unlinked. rewrite remove_single by done. by rewrite Hf.
Qed.

Lemma remove_all_blobs vs : forall rest removed d,
  vs ++ rest ≡ₚ blobs d ->
  exists d', remove_all st (blob_hash <$> vs) removed d = (Ok (removed + zlen vs), d') /\ rest ≡ₚ blobs d'.
Proof.
  induction vs as [|b vs IH]; intros rest removed d Hp; cbn [fmap list_fmap remove_all].
  - exists d. split; [|done]. unfold zlen. simpl. by rewrite Z.add_0_r.
  - assert (b ∈ blobs d) as Hb by (rewrite <-Hp; left).
    destruct (blobs_unlinked d b Hb) as (_ & _ & Hperm).
    destruct (IH rest (removed + 1) (unlinked key d (blob_hash b))) as (d' & Hr & Hrest).
    { apply (Permutation_cons_inv (a := b)). by rewrite Hperm. }
    exists d'. split; [|done]. unfold mbind, stM_bind. rewrite (remove_blob d b Hb), Hr.
    do 2 f_equal. unfold zlen. simpl. lia.
Qed.

Lemma prune_spec cutoff d :
  exists d', prune_older_than st cutoff d = (Ok (zlen (filter (expired cutoff) (blobs d))), d') /\
             filter (fun b => ~ expired cutoff b) (blobs d) ≡ₚ blobs d'.
Proof.
  unfold prune_older_than, mbind, stM_bind, get_state.
  assert (omap (fun b => match blob_modified b with
                         | Some mtime => if mtime <? cutoff then Some (blob_hash b) else None
                         | None => None end) (blobs d)
          = blob_hash <$> filter (expired cutoff) (blobs d)) as ->.
  { induction (blobs d) as [|b bs IH]; [done|]. cbn [omap list_omap]. rewrite filter_cons.
    case_decide as He; unfold expired in He; destruct (blob_modified b) as [t|]; try done.
    - destruct (t <? cutoff) eqn:?; bool_props; [by rewrite IH|lia].
    - destruct (t <? cutoff) eqn:?; bool_props; [lia|done]. }
  destruct (remove_all_blobs (filter (expired cutoff) (blobs d))
              (filter (fun b => ~ expired cutoff b) (blobs d)) 0 d) as (d' & Hr & Hp).
  - apply filter_app_complement.
  - exists d'. by rewrite Hr.
Qed.

Lemma fold_bytes bs : forall acc,
  0 <= acc -> Forall (fun b => 0 <= blob_len b) bs -> acc + bytes bs <= u64_max ->
  fold_left (fun t b => sat_add u64_max t (blob_len b)) bs acc = acc + bytes bs.
Proof.
  unfold bytes. induction bs as [|b bs IH]; intros acc Ha Hbs Hle; simpl in *; [lia|].
  apply Forall_cons_1 in Hbs as [Hb Hbs]. pose proof (sumZ_nonneg _ _ Hbs).
  unfold sumZ in *. simpl in *. unfold sat_add at 2. rewrite IH; [lia|lia|done|lia].
Qed.

(** The eviction loop removes the shortest prefix of the list that brings
    the total within the budget. *)
Lemma evict_spec max_total bs : forall removed d,
  0 <= max_total -> bs ≡ₚ blobs d ->
  exists d' k, evict_until st bs max_total (bytes bs) removed d = (Ok (removed + Z.of_nat k), d') /\
    (k <= length bs)%nat /\ drop k bs ≡ₚ blobs d' /\ bytes (drop k bs) <= max_total /\
    (k = 0%nat \/ max_total < bytes (drop (k - 1) bs)).
Proof.
  induction bs as [|b bs IH]; intros removed d Hmax Hp; cbn [evict_until].
  - exists d, 0%nat. split_and!; [by rewrite Z.add_0_r|done|done|done|by left].
  - destruct (bytes (b :: bs) <=? max_total) eqn:Hle; bool_props.
    + exists d, 0%nat. split_and!; [by rewrite Z.add_0_r|lia|done|done|by left].
    + assert (b ∈ blobs d) as Hb by (rewrite <-Hp; left).
      destruct (blobs_unlinked d b Hb) as (_ & _ & Hperm).
      pose proof (blobs_nonneg d) as Hnn. rewrite <-Hp in Hnn. apply Forall_cons_1 in Hnn as [_ Hnn].
      pose proof (sumZ_nonneg _ _ Hnn).
      assert (sat_sub (bytes (b :: bs)) (blob_len b) = bytes bs) as Hsub
        by (unfold sat_sub, bytes, sumZ in *; simpl in *; lia).
      destruct (IH (removed + 1) (unlinked key d (blob_hash b)) Hmax) as (d' & k & Hr & Hk & Hd & Hm & Hmin).
      { apply (Permutation_cons_inv (a := b)). by rewrite Hperm. }
      exists d', (S k). unfold mbind, stM_bind. rewrite (remove_blob d b Hb), Hsub, Hr.
      split_and!; [do 2 f_equal; lia|simpl; lia|done|done|right].
      destruct Hmin as [->|Hmin]; [done|]. destruct k; [done|]. simpl in *. by rewrite Nat.sub_0_r in Hmin.
Qed.

Lemma budget_spec max_total d :
  0 <= max_total -> bytes (blobs d) <= u64_max ->
  exists d' k,
    (let bs := blobs d in
     let total := fold_left (fun t b => sat_add u64_max t (blob_len b)) bs 0 in
     if max_total <? total then evict_until st (sort_by_mtime bs) max_total total 0 d
     else (Ok 0, d)) = (Ok (Z.of_nat k), d') /\
    (k <= length (blobs d))%nat /\ drop k (sort_by_mtime (blobs d)) ≡ₚ blobs d' /\ bytes (blobs d') <= max_total /\
    (k = 0%nat \/ max_total < bytes (drop (k - 1) (sort_by_mtime (blobs d)))).
Proof.
  intros Hmax Hu. simpl. rewrite fold_bytes by (done || apply blobs_nonneg). rewrite Z.add_0_l.
  destruct (max_total <? bytes (blobs d)) eqn:Hlt; bool_props.
  - rewrite <-(bytes_perm _ _ (sort_perm (blobs d))).
    destruct (evict_spec max_total (sort_by_mtime (blobs d)) 0 d Hmax (sort_perm _))
      as (d' & k & Hr & Hk & Hd & Hm & Hmin).
    exists d', k. rewrite Hr. split_and!; [done|by rewrite <-(sort_perm (blobs d))|done| |done].
    by rewrite <-(bytes_perm _ _ Hd).
  - exists d, 0%nat. split_and!; [done|lia|apply sort_perm|lia|by left].
Qed.
End gc.

(** C21: garbage collection of a single-key store does what its policy says.
    It succeeds; the blobs older than the cutoff go and are counted; of the
    rest, in order of modification time, the oldest are evicted, and no
    more of them than needed, until the store's bytes are within the
    budget; the outcome reports the numbers and the bytes left. *)
Theorem gc_enforces_policy `{!Primitives, !PrimitivesOk} key level dur now age max_total d :
  let st := build (SingleKeyProvider key) level dur in
  let cutoff := default 0 (systime_checked_sub now age) in
  fits u64_max max_total -> bytes (for_each_blob st d) <= u64_max ->
  exists d1 d' k,
    gc st now (mkGcPolicy (Some age) (Some max_total)) d
    = (Ok (mkGcOutcome (zlen (filter (expired cutoff) (for_each_blob st d))) (Z.of_nat k)
             (bytes (for_each_blob st d'))), d') /\
    filter (fun b => ~ expired cutoff b) (for_each_blob st d) ≡ₚ for_each_blob st d1 /\
    StronglySorted older (sort_by_mtime (for_each_blob st d1)) /\
    drop k (sort_by_mtime (for_each_blob st d1)) ≡ₚ for_each_blob st d' /\
    bytes (for_each_blob st d') <= max_total /\
    (k = 0%nat \/ max_total < bytes (drop (k - 1) (sort_by_mtime (for_each_blob st d1)))).
Proof.
  intros st cutoff [Hmax Hmax'] Hu.
  destruct (prune_spec key level dur cutoff d) as (d1 & Hpr & Hp1). fold st in Hpr, Hp1.
  assert (bytes (for_each_blob st d1) <= bytes (for_each_blob st d)) as Hle.
  { rewrite <-(bytes_perm _ _ Hp1), <-(bytes_perm _ _ (filter_app_complement (expired cutoff) (for_each_blob st d))).
    unfold bytes. rewrite sumZ_app. 
    assert (0 <= sumZ blob_len (filter (expired cutoff) (for_each_blob st d))); [|lia].
    apply sumZ_nonneg, Forall_forall. intros b [_ Hb]%list_elem_of_filter.
    by apply (proj1 (Forall_forall _ _) (blobs_nonneg key level dur d)). }
  assert (bytes (for_each_blob st d1) <= u64_max) as Hu1 by lia.
  destruct (budget_spec key level dur max_total d1 Hmax Hu1) as (d' & k & Hb & Hk & Hd & Hm & Hmin).
  exists d1, d', k. split_and!; [|done|apply sort_sorted|done..].
  unfold gc, mbind, stM_bind, get_state. cbn [max_age max_total_bytes]. fold st cutoff. unfold st in *.
  rewrite Hpr. cbv zeta in Hb. simpl in Hb |- *.
  destruct (max_total <? _); [rewrite Hb|simplify_eq/=];
    unfold total_bytes; rewrite fold_bytes by (apply blobs_nonneg || lia); rewrite Z.add_0_l;
    unfold mret, stM_ret; congruence.
Qed.

(** Three blobs of 85 bytes written at times 1, 2 and 3, collected at time 3
    with an age of 1 and room for one. *)
Definition gc_dir : Dir :=
  (run (disk_step (H := Toy.toy) (build (H := Toy.toy) (SingleKeyProvider []) 3 Full))
     [OpPut None (Some 1) [Byte.x01]; OpPut None (Some 2) [Byte.x02]; OpPut None (Some 3) [Byte.x03]] None).2.

Lemma gc_enforces_policy_witness :
  let st := build (H := Toy.toy) (SingleKeyProvider []) 3 Full in
  (gc (H := Toy.toy) st 3 (mkGcPolicy (Some 1) (Some 100)) gc_dir).1 = Ok (mkGcOutcome 1 1 85) /\
  exists d' : Dir, bytes (for_each_blob (H := Toy.toy) st d') <= 100.
Proof.
  split; [vm_compute; reflexivity|].
  assert (bytes (for_each_blob (H := Toy.toy) (build (H := Toy.toy) (SingleKeyProvider []) 3 Full) gc_dir)
          <= u64_max) as Hu by (vm_compute; discriminate).
  destruct (gc_enforces_policy (H := Toy.toy) (H0 := Toy.toy_ok) [] 3 Full 3 1 100 gc_dir ltac:(done) Hu)
    as (d1 & d' & k & _ & _ & _ & _ & Hb & _).
  by exists d'.
Defined.

(** With two read keys the collector and [remove] disagree on which file a
    hash is: pruning the stale copy of a blob that was re-put under the new
    key deletes the fresh copy and keeps the stale one. *)
Definition rotated_dir : Dir :=
  let put_under keys now :=
    disk_step (H := Toy.toy) (build (H := Toy.toy) keys 3 Full) (OpPut None (Some now) [Byte.x09]) in
  (put_under (SingleKeyProvider [Byte.x02]) 100 (put_under (SingleKeyProvider [Byte.x01]) 1 None).2).2.

Lemma prune_removes_fresh_copy :
  let st := build (H := Toy.toy) (RotatingKeyProvider [Byte.x02] [[Byte.x01]]) 3 Full in
  let before := for_each_blob (H := Toy.toy) st rotated_dir in
  let after := for_each_blob (H := Toy.toy) st (prune_older_than (H := Toy.toy) st 50 rotated_dir).2 in
  Permutation (blob_modified <$> before) [Some 1; Some 100] /\ (blob_modified <$> after) = [Some 1].
Proof.
  split; [|vm_compute; reflexivity].
  assert ((blob_modified <$> for_each_blob (H := Toy.toy)
             (build (H := Toy.toy) (RotatingKeyProvider [Byte.x02] [[Byte.x01]]) 3 Full) rotated_dir)
          = [Some 1; Some 100] \/
          (blob_modified <$> for_each_blob (H := Toy.toy)
             (build (H := Toy.toy) (RotatingKeyProvider [Byte.x02] [[Byte.x01]]) 3 Full) rotated_dir)
          = [Some 100; Some 1]) as [-> | ->]
    by (vm_compute; auto); [done|apply Permutation_swap].
Qed.
End GcFacts.
