(* ===== verification/KernelCache.v ===== *)
(** * [tensor-wasm-jit/src/cache.rs]: the kernel cache

    The in-memory level of the JIT's cache of compiled kernels: a concurrent
    map, a least-recently-used policy queue (most recent first here), a
    running byte total and counters.  Every operation is modelled as one
    atomic step; whether [get] found the policy lock free is an argument.  The
    on-disk level is behind the interface [KernelDisk], and the kernel registry
    and its resolver are arguments of the fallback. *)

From S2P Require Import Prelude Core Primitives.

Record CacheKey := mkCacheKey {
  tenant_id : Z;
  blueprint : Z;
  sm_version : Z;
  emit_config_hash : Z;
}.

#[global] Instance CacheKey_eq_dec : EqDecision CacheKey.
Proof. solve_decision. Defined.

#[global] Instance CacheKey_countable : Countable CacheKey.
Proof.
  apply (inj_countable' (fun k => (tenant_id k, blueprint k, sm_version k, emit_config_hash k))
           (fun '(t, b, s, e) => mkCacheKey t b s e)).
  by intros [].
Defined.

Definition for_tenant (tenant_id blueprint sm_version : Z) : CacheKey :=
  mkCacheKey tenant_id blueprint sm_version 0.

Record EmittedPtx := mkPtx { text : str; launch_geometry : Z * Z }.

Record CachedKernel := mkKernel {
  fingerprint : Z;
  ptx : EmittedPtx;
  integrity_hash : list u8;
}.

(** What the second level promises the first: a store of kernels by key.
    [held d key kernel] is that [d] would return [kernel] for [key]. *)
Class KernelDisk (D : Type) := {
  disk_put : CacheKey -> CachedKernel -> D -> result str () * D;
  disk_get : CacheKey -> D -> result str (option CachedKernel) * D;
  held : D -> CacheKey -> CachedKernel -> Prop;
  disk_put_held key kernel d r d' : disk_put key kernel d = (r, d') ->
    forall key' kernel', held d' key' kernel' -> held d key' kernel' \/ (key' = key /\ kernel' = kernel);
  disk_get_held key d kernel d' : disk_get key d = (Ok (Some kernel), d') -> held d key kernel;
  disk_get_keeps key d r d' : disk_get key d = (r, d') ->
    forall key' kernel', held d' key' kernel' -> held d key' kernel';
}.

Module KernelCache.
Section cache.
Context `{!Primitives} {D : Type} `{!KernelDisk D}.

Definition kernel_new (fingerprint : Z) (ptx : EmittedPtx) : CachedKernel :=
  mkKernel fingerprint ptx (blake3 (text ptx)).

Definition verify_integrity (k : CachedKernel) : bool :=
  bool_decide (blake3 (text (ptx k)) = integrity_hash k).

Definition DEFAULT_CAPACITY : Z := 256.

Record KernelCacheConfig := mkConfig {
  capacity : Z;
  max_total_bytes : option Z;
  verify_on_get : bool;
}.

Definition default_config : KernelCacheConfig := mkConfig DEFAULT_CAPACITY None true.

Record t := mk {
  storage : gmap CacheKey CachedKernel;
  lru : list CacheKey;
  config : KernelCacheConfig;
  disk : option D;
  total_bytes : Z;
  verify_skipped_total : Z;
  cache_hits_total : Z;
  cache_misses_total : Z;
  integrity_reject_total : Z;
}.

Definition with_config (c : KernelCacheConfig) : t :=
  mk ∅ [] (mkConfig (Z.max (capacity c) 1) (max_total_bytes c) (verify_on_get c)) None 0 0 0 0 0.

Definition with_disk_persistence (d : D) (s : t) : t :=
  mk (storage s) (lru s) (config s) (Some d) (total_bytes s) (verify_skipped_total s)
    (cache_hits_total s) (cache_misses_total s) (integrity_reject_total s).

(** The mutable cells. *)
Definition set_l1 (st : gmap CacheKey CachedKernel) (q : list CacheKey) (total : Z) (s : t) : t :=
  mk st q (config s) (disk s) total (verify_skipped_total s)
    (cache_hits_total s) (cache_misses_total s) (integrity_reject_total s).
Definition set_disk (d : option D) (s : t) : t :=
  mk (storage s) (lru s) (config s) d (total_bytes s) (verify_skipped_total s)
    (cache_hits_total s) (cache_misses_total s) (integrity_reject_total s).
Definition count (skipped hits misses rejects : Z) (s : t) : t :=
  mk (storage s) (lru s) (config s) (disk s) (total_bytes s)
    (as_u64 (verify_skipped_total s + skipped)) (as_u64 (cache_hits_total s + hits))
    (as_u64 (cache_misses_total s + misses)) (as_u64 (integrity_reject_total s + rejects)).

Definition entry_bytes (k : CachedKernel) : Z := Z.of_nat (length (text (ptx k))).

Definition evict_key (key : CacheKey) (s : t) : t :=
  match storage s !! key with
  | Some removed =>
      set_l1 (delete key (storage s)) (lru s) (as_u64 (total_bytes s - entry_bytes removed)) s
  | None => s
  end.

(** [LruCache::push] on a queue of the configured capacity: an existing key is
    promoted (and returned); a new one may push the oldest out. *)
Definition lru_push (key : CacheKey) (s : t) : option CacheKey * t :=
  let set q := set_l1 (storage s) q (total_bytes s) s in
  if bool_decide (key ∈ lru s) then
    (Some key, set (key :: filter (fun k => k <> key) (lru s)))
  else if Z.of_nat (length (lru s)) <? capacity (config s) then (None, set (key :: lru s))
  else (last (lru s), set (key :: take (length (lru s) - 1) (lru s))).

(** [LruCache::get]: promote if present. *)
Definition lru_get (key : CacheKey) (s : t) : t :=
  if bool_decide (key ∈ lru s)
  then set_l1 (storage s) (key :: filter (fun k => k <> key) (lru s)) (total_bytes s) s else s.

Definition pop_lru (s : t) : option (CacheKey * t) :=
  match last (lru s) with
  | Some key => Some (key, set_l1 (storage s) (take (length (lru s) - 1) (lru s)) (total_bytes s) s)
  | None => None
  end.

(** The two eviction loops; each pass pops the queue, so its length bounds
    them. *)
Fixpoint evict_while (go : t -> bool) (fuel : nat) (s : t) : t :=
  match fuel with
  | O => s
  | S fuel =>
      if go s then
        match pop_lru s with
        | Some (key, s) => evict_while go fuel (evict_key key s)
        | None => s
        end
      else s
  end.

Definition over_bytes (cap : Z) (s : t) : bool :=
  (cap <? total_bytes s) && (1 <? Z.of_nat (size (storage s))).

Definition enforce_byte_cap (s : t) : t :=
  match max_total_bytes (config s) with
  | Some cap =>
      if cap <? total_bytes s then evict_while (over_bytes cap) (S (length (lru s))) s else s
  | None => s
  end.

Definition over_capacity (s : t) : bool := capacity (config s) <? Z.of_nat (size (storage s)).

(** The insert both [put] and the disk promotion perform. *)
Definition insert_l1 (key : CacheKey) (kernel : CachedKernel) (s : t) : t :=
  let total := as_u64 (total_bytes s + entry_bytes kernel) in
  let total := match storage s !! key with
               | Some old => as_u64 (total - entry_bytes old)
               | None => total
               end in
  let s := set_l1 (<[key := kernel]> (storage s)) (lru s) total s in
  let '(evicted, s) := lru_push key s in
  match evicted with
  | Some evicted_key => if bool_decide (evicted_key <> key) then evict_key evicted_key s else s
  | None => s
  end.

Definition put (key : CacheKey) (kernel : CachedKernel) (s : t) : t :=
  if negb (verify_integrity kernel) then s
  else
    let s := match disk s with
             | Some d => set_disk (Some (disk_put key kernel d).2) s
             | None => s
             end in
    let s := insert_l1 key kernel s in
    let s := if over_capacity s then evict_while over_capacity (S (length (lru s))) s else s in
    enforce_byte_cap s.

(** [lock_free]: the policy lock was not contended. *)
Definition get (lock_free : bool) (key : CacheKey) (s : t) : option CachedKernel * t :=
  let s := if lock_free then lru_get key s else s in
  match storage s !! key with
  | Some kernel =>
      if verify_on_get (config s) then
        if verify_integrity kernel then (Some kernel, count 0 1 0 0 s)
        else (None, count 0 0 1 1 (evict_key key s))
      else if bool_decide (integrity_hash kernel = replicate 32 Byte.x00)
      then (None, count 1 0 1 1 (evict_key key s))
      else (Some kernel, count 1 1 0 0 s)
  | None =>
      match disk s with
      | Some d =>
          match disk_get key d with
          | (Ok (Some kernel), d) =>
              (Some kernel, count 0 1 0 0 (enforce_byte_cap (insert_l1 key kernel (set_disk (Some d) s))))
          | (_, d) => (None, count 0 0 1 0 (set_disk (Some d) s))
          end
      | None => (None, count 0 0 1 0 s)
      end
  end.

(** The registry's entry is its declared geometry and its PTX text. *)
Definition get_with_registry_fallback (lock_free : bool) (key : CacheKey)
    (resolve : Z -> Z -> option (str * str))
    (registry : option (str * str -> option (option (Z * Z) * str))) (s : t) :
    option CachedKernel * t :=
  match get lock_free key s with
  | (Some hit, s) => (Some hit, s)
  | (None, s) =>
      match registry with
      | None => (None, s)
      | Some lookup =>
          match resolve (blueprint key) (sm_version key) with
          | None => (None, s)
          | Some name_version =>
              match lookup name_version with
              | None => (None, s)
              | Some (geometry, text) =>
                  let cached := kernel_new (blueprint key) (mkPtx text (default (0, 0) geometry)) in
                  (Some cached, put key cached s)
              end
          end
      end
  end.

Definition len (s : t) : Z := Z.of_nat (size (storage s)).
End cache.
#[global] Arguments t : clear implicits.
End KernelCache.

Module KernelCacheFacts.
Import KernelCache.

Section facts.
Context `{!Primitives} {D : Type} `{!KernelDisk D}.
Implicit Types s : t D.

(** Bytes really stored. *)
Definition stored (s : t D) : Z := sum_map entry_bytes (storage s).

(** The queue has no duplicates, covers the map, and respects the capacity;
    the running total is the sum of the entries' bytes (as a u64). *)
Record inv (s : t D) : Prop := {
  inv_capacity : 1 <= capacity (config s);
  inv_nodup : NoDup (lru s);
  inv_queued : forall key, is_Some (storage s !! key) -> key ∈ lru s;
  inv_length : Z.of_nat (length (lru s)) <= capacity (config s);
  inv_total : total_bytes s = as_u64 (stored s);
}.

Lemma with_config_inv c : inv (with_config (D := D) c).
Proof.
  constructor; simpl.
  - lia.
  - constructor.
  - intros key. rewrite lookup_empty. by intros [].
  - lia.
  - unfold stored. simpl. by rewrite sum_map_empty.
Qed.

Lemma as_u64_add_l a b : as_u64 (as_u64 a + b) = as_u64 (a + b).
Proof. unfold as_u64. by rewrite Z.add_mod_idemp_l. Qed.

Lemma as_u64_sub_l a b : as_u64 (as_u64 a - b) = as_u64 (a - b).
Proof. unfold as_u64. by rewrite Zminus_mod_idemp_l. Qed.

Lemma evict_key_storage key s : storage (evict_key key s) = delete key (storage s).
Proof. unfold evict_key. case_match; [done|]. by rewrite delete_id. Qed.

Lemma evict_key_rest key s :
  lru (evict_key key s) = lru s /\ config (evict_key key s) = config s /\ disk (evict_key key s) = disk s.
Proof. unfold evict_key. by case_match. Qed.

(** Everything but the queue's coverage survives an eviction. *)
Lemma evict_key_total key s :
  total_bytes s = as_u64 (stored s) -> total_bytes (evict_key key s) = as_u64 (stored (evict_key key s)).
Proof.
  intros Ht. unfold evict_key, stored. destruct (storage s !! key) as [k|] eqn:Hk; [|done]. simpl.
  rewrite (sum_map_delete _ _ _ _ Hk), Ht. apply as_u64_sub_l.
Qed.

Lemma evict_key_inv key s :
  1 <= capacity (config s) -> NoDup (lru s) -> Z.of_nat (length (lru s)) <= capacity (config s) ->
  (forall k, is_Some (storage s !! k) -> k = key \/ k ∈ lru s) -> total_bytes s = as_u64 (stored s) ->
  inv (evict_key key s).
Proof.
  intros Hc Hn Hl Hq Ht. destruct (evict_key_rest key s) as (Hlru & Hcfg & _).
  constructor; rewrite ?Hlru, ?Hcfg; [done..| |done|by apply evict_key_total].
  intros k. rewrite evict_key_storage, lookup_delete_is_Some. intros [Hne Hk].
  by destruct (Hq k Hk).
Qed.

Lemma size_le_lru s : inv s -> (size (storage s) <= length (lru s))%nat.
Proof.
  intros Hinv. rewrite <-size_dom.
  assert (dom (storage s) ⊆ list_to_set (C := gset CacheKey) (lru s)) as Hsub.
  { intros k Hk%elem_of_dom. apply elem_of_list_to_set. by apply Hinv. }
  apply subseteq_size in Hsub. rewrite size_list_to_set in Hsub by apply Hinv. done.
Qed.

Lemma last_take_split {A} (l : list A) x :
  last l = Some x -> l = take (length l - 1) l ++ [x].
Proof.
  intros Hx. apply last_Some in Hx as [l' ->]. rewrite length_app. simpl.
  by rewrite Nat.add_sub, take_app_length.
Qed.

(** Popping the queue and evicting what was popped. *)
Lemma pop_evict_inv s key s1 : inv s -> pop_lru s = Some (key, s1) -> inv (evict_key key s1).
Proof.
  intros [Hc Hn Hq Hl Ht] Hpop. unfold pop_lru in Hpop.
  destruct (last (lru s)) as [x|] eqn:Hlast; simplify_eq.
  apply last_take_split in Hlast. rewrite Hlast in Hn. apply NoDup_app in Hn as (Hn & _ & _).
  apply evict_key_inv; simpl; [done|done|rewrite length_take; lia| |done].
  intros k Hk. specialize (Hq k Hk). rewrite Hlast, elem_of_app, list_elem_of_singleton in Hq.
  tauto.
Qed.

Lemma evict_while_inv go fuel s : inv s -> inv (evict_while go fuel s).
Proof.
  revert s. induction fuel as [|fuel IH]; intros s Hinv; simpl; [done|].
  destruct (go s); [|done]. destruct (pop_lru s) as [[key s1]|] eqn:Hpop; [|done].
  apply IH. by eapply pop_evict_inv.
Qed.

Lemma pop_shorter s key s1 : pop_lru s = Some (key, s1) -> length (lru s1) = (length (lru s) - 1)%nat.
Proof.
  unfold pop_lru. destruct (last (lru s)); [|done]. intros. simplify_eq. simpl. rewrite length_take. lia.
Qed.

(** Enough fuel: the loop stops because its condition is false. *)
Lemma evict_while_done go fuel s :
  inv s -> (forall s, inv s -> lru s = [] -> go s = false) -> (length (lru s) < fuel)%nat ->
  go (evict_while go fuel s) = false.
Proof.
  intros Hinv Hempty. revert s Hinv. induction fuel as [|fuel IH]; intros s Hinv Hf; [lia|]. simpl.
  destruct (go s) eqn:Hgo; [|done]. destruct (pop_lru s) as [[key s1]|] eqn:Hpop.
  - apply IH; [by eapply pop_evict_inv|]. destruct (evict_key_rest key s1) as (-> & _ & _).
    rewrite (pop_shorter _ _ _ Hpop). unfold pop_lru in Hpop.
    destruct (lru s); [by rewrite last_nil in Hpop|simpl in *; lia].
  - apply Hempty; [done|].
    unfold pop_lru in Hpop. destruct (last (lru s)) eqn:E; [done|]. by apply last_None in E.
Qed.

Lemma lru_empty_size s : inv s -> lru s = [] -> size (storage s) = 0%nat.
Proof. intros Hinv He. pose proof (size_le_lru s Hinv) as Hs. rewrite He in Hs. simpl in Hs. lia. Qed.

Lemma filter_ne_notin (key : CacheKey) (q : list CacheKey) : key ∉ q -> filter (fun k => k <> key) q = q.
Proof.
  induction q as [|k q IH]; [done|]. intros [Hne Hnotin]%not_elem_of_cons. rewrite filter_cons.
  rewrite decide_True by congruence. by rewrite IH.
Qed.

Lemma length_filter_ne (key : CacheKey) (q : list CacheKey) :
  NoDup q -> key ∈ q -> S (length (filter (fun k => k <> key) q)) = length q.
Proof.
  induction q as [|k q IH]; [by intros _ Hk%not_elem_of_nil|]. intros [Hk Hn]%NoDup_cons Hin.
  rewrite filter_cons. case_decide as Hne.
  - simpl. apply elem_of_cons in Hin as [->|Hin]; [done|]. by rewrite IH.
  - assert (k = key) as -> by (destruct (decide (k = key)); naive_solver).
    by rewrite filter_ne_notin.
Qed.

(** Promoting a queued key keeps the queue's properties. *)
Lemma promoted (key : CacheKey) (q : list CacheKey) :
  NoDup q -> key ∈ q ->
  NoDup (key :: filter (fun k => k <> key) q) /\
  length (key :: filter (fun k => k <> key) q) = length q /\
  (forall k, k ∈ q -> k ∈ key :: filter (fun k => k <> key) q).
Proof.
  intros Hn Hin. split_and!.
  - constructor; [|by apply NoDup_filter]. by intros [? _]%list_elem_of_filter.
  - simpl. by apply length_filter_ne.
  - intros k Hk. destruct (decide (k = key)) as [->|]; [left|right]. by apply list_elem_of_filter.
Qed.

Lemma lru_get_inv key s : inv s -> inv (lru_get key s).
Proof.
  intros [Hc Hn Hq Hl Ht]. unfold lru_get. case_bool_decide as Hin; [|by constructor].
  destruct (promoted key (lru s) Hn Hin) as (Hn' & Hl' & Hq').
  constructor; simpl in *; [done|done|auto|lia|done].
Qed.

(** The insert: the key is the most recent, the kernel is stored, the
    invariant holds. *)
Lemma insert_l1_spec key kernel s :
  inv s ->
  inv (insert_l1 key kernel s) /\ head (lru (insert_l1 key kernel s)) = Some key /\
  storage (insert_l1 key kernel s) !! key = Some kernel.
Proof.
  intros [Hc Hn Hq Hl Ht]. unfold insert_l1.
  set (s1 := set_l1 (<[key := kernel]> (storage s)) (lru s) _ s).
  assert (total_bytes s1 = as_u64 (stored s1)) as Ht1.
  { unfold s1, stored. simpl. rewrite Ht. destruct (storage s !! key) as [old|] eqn:Hk.
    - rewrite (sum_map_insert_Some _ _ _ _ _ Hk), as_u64_add_l, as_u64_sub_l. f_equal. unfold stored. lia.
    - rewrite (sum_map_insert_None _ _ _ _ Hk), as_u64_add_l. f_equal. unfold stored. lia. }
  assert (forall k, is_Some (storage s1 !! k) -> k = key \/ k ∈ lru s) as Hq1.
  { intros k. unfold s1. simpl. rewrite lookup_insert_is_Some. intros [->|[_ Hk]]; auto. }
  assert (storage s1 !! key = Some kernel) as Hkey by apply lookup_insert_eq.
  unfold lru_push. change (lru s1) with (lru s). change (config s1) with (config s).
  case_bool_decide as Hin.
  - destruct (promoted key (lru s) Hn Hin) as (Hn' & Hl' & Hq').
    rewrite bool_decide_eq_false_2 by (intros Hne; by apply Hne). split_and!; [|done..].
    constructor; simpl in *; [done|done| |lia|done]. intros k Hk. apply Hq'. by destruct (Hq1 k Hk) as [->|].
  - destruct (Z.of_nat (length (lru s)) <? capacity (config s)) eqn:Hroom; bool_props.
    + split_and!; [|done..]. constructor; simpl; [done|by constructor| |lia|done].
      intros k Hk. apply elem_of_cons. by destruct (Hq1 k Hk); [left|right].
    + destruct (last (lru s)) as [old|] eqn:Hlast.
      2:{ apply last_None in Hlast. rewrite Hlast in Hroom. simpl in Hroom. lia. }
      apply last_take_split in Hlast. remember (take (length (lru s) - 1) (lru s)) as q eqn:Heqq.
      assert (NoDup (q ++ [old])) as Hnq by by rewrite <-Hlast.
      apply NoDup_app in Hnq as (Hnq & Hdis & _).
      assert (key ∉ q ++ [old]) as Hnk by by rewrite <-Hlast. rewrite elem_of_app, list_elem_of_singleton in Hnk.
      assert (length (q ++ [old]) = length (lru s)) as Hlen by by rewrite <-Hlast.
      rewrite length_app in Hlen. simpl in Hlen.
      rewrite bool_decide_eq_true_2 by naive_solver. split_and!.
      * apply evict_key_inv; simpl; [done|constructor; [naive_solver|done]|lia| |done].
        intros k Hk. destruct (Hq1 k Hk) as [->|Hk']; [right; left|].
        rewrite Hlast, elem_of_app, list_elem_of_singleton in Hk'. destruct Hk'; [right; by right|by left].
      * by rewrite (proj1 (evict_key_rest old _)).
      * rewrite evict_key_storage. simpl. rewrite lookup_delete_ne; [done|naive_solver].
Qed.

(** The most recent entry survives the byte cap, however small: the loop keeps
    at least one entry and pops from the other end. *)
Lemma evict_keeps_head go fuel s key kernel :
  inv s -> (forall s, go s = true -> (1 < size (storage s))%nat) ->
  head (lru s) = Some key -> storage s !! key = Some kernel ->
  head (lru (evict_while go fuel s)) = Some key /\ storage (evict_while go fuel s) !! key = Some kernel.
Proof.
  intros Hinv Hgo. revert s Hinv. induction fuel as [|fuel IH]; intros s Hinv Hh Hk; simpl; [done|].
  destruct (go s) eqn:Eg; [|done]. destruct (pop_lru s) as [[k s1]|] eqn:Hpop; [|done].
  pose proof (size_le_lru s Hinv) as Hsz. specialize (Hgo s Eg).
  pose proof (pop_evict_inv _ _ _ Hinv Hpop) as Hinv1.
  unfold pop_lru in Hpop. destruct (last (lru s)) as [x|] eqn:Hlast; simplify_eq.
  pose proof (inv_nodup _ Hinv) as Hn.
  destruct (lru s) as [|a [|b q]] eqn:Hq; simpl in Hsz, Hh; [lia|lia|]. simplify_eq.
  assert (key <> k) as Hne.
  { intros ->. apply NoDup_cons in Hn as [Hnotin _]. apply Hnotin.
    rewrite last_cons_cons in Hlast. by apply last_Some_elem_of in Hlast. }
  apply IH; [done| |].
  - rewrite (proj1 (evict_key_rest k _)). simpl. done.
  - rewrite evict_key_storage. simpl. by rewrite lookup_delete_ne.
Qed.

Lemma over_bytes_size cap s : over_bytes cap s = true -> (1 < size (storage s))%nat.
Proof. unfold over_bytes. intros. bool_props. lia. Qed.

Lemma enforce_inv s : inv s -> inv (enforce_byte_cap s).
Proof.
  intros Hinv. unfold enforce_byte_cap. repeat case_match; [|done..]. by apply evict_while_inv.
Qed.

Lemma evict_while_config go fuel s : config (evict_while go fuel s) = config s.
Proof.
  revert s. induction fuel as [|fuel IH]; intros s; simpl; [done|]. destruct (go s); [|done].
  destruct (pop_lru s) as [[k s1]|] eqn:Hpop; [|done]. rewrite IH, (proj1 (proj2 (evict_key_rest _ _))).
  unfold pop_lru in Hpop. destruct (last (lru s)); by simplify_eq.
Qed.

Lemma enforce_bound s cap :
  inv s -> max_total_bytes (config s) = Some cap ->
  total_bytes (enforce_byte_cap s) <= cap \/ (size (storage (enforce_byte_cap s)) <= 1)%nat.
Proof.
  intros Hinv Hcap. unfold enforce_byte_cap. rewrite Hcap.
  destruct (cap <? total_bytes s) eqn:Hlt; bool_props; [|by left].
  pose proof (evict_while_done (over_bytes cap) (S (length (lru s))) s Hinv) as Hdone.
  unfold over_bytes at 2 in Hdone. destruct (_ <? total_bytes _) eqn:H1, (1 <? _) eqn:H2; bool_props; try lia.
  exfalso. assert (true && true = false) as Hf; [|done]. apply Hdone; [|lia].
  intros s' Hinv' He. unfold over_bytes. rewrite (lru_empty_size s' Hinv' He). by rewrite andb_false_r.
Qed.

Lemma enforce_keeps_head s key kernel :
  inv s -> head (lru s) = Some key -> storage s !! key = Some kernel ->
  storage (enforce_byte_cap s) !! key = Some kernel.
Proof.
  intros Hinv Hh Hk. unfold enforce_byte_cap. repeat case_match; [|done..].
  by apply (evict_keeps_head _ _ _ _ kernel Hinv (over_bytes_size _)).
Qed.

(** The count loop of [put] never runs in a sequential history. *)
Lemma not_over_capacity s : inv s -> over_capacity s = false.
Proof.
  intros Hinv. unfold over_capacity. apply Z.ltb_ge. pose proof (size_le_lru s Hinv). destruct Hinv. lia.
Qed.

Lemma set_disk_inv d s : inv s -> inv (set_disk d s).
Proof. intros []. by constructor. Qed.

Lemma count_inv a b c d s : inv s -> inv (count a b c d s).
Proof. intros []. by constructor. Qed.

Lemma put_inv key kernel s : inv s -> inv (put key kernel s).
Proof.
  intros Hinv. unfold put. case_match; [done|]. apply enforce_inv.
  assert (inv (match disk s with Some d => set_disk (Some (disk_put key kernel d).2) s | None => s end))
    as Hd by (case_match; [by apply set_disk_inv|done]).
  destruct (insert_l1_spec key kernel _ Hd) as [Hi _]. by rewrite not_over_capacity.
Qed.

Lemma get_inv lock key s : inv s -> inv (get lock key s).2.
Proof.
  intros Hinv. unfold get.
  assert (inv (if lock then lru_get key s else s)) as Hl by (destruct lock; [by apply lru_get_inv|done]).
  set (s1 := if lock then lru_get key s else s) in *. clearbody s1.
  assert (inv (evict_key key s1)) as He.
  { destruct Hl. apply evict_key_inv; auto. }
  destruct (storage s1 !! key) as [kernel|]; [repeat case_match; by apply count_inv|].
  destruct (disk s1) as [d|]; [|by apply count_inv].
  destruct (disk_get key d) as [[[kernel|]|] d']; apply count_inv; [|by apply set_disk_inv..].
  apply enforce_inv. by apply insert_l1_spec, set_disk_inv.
Qed.

(** What the cache could serve: its map, or its disk. *)
Definition known (s : t D) (key : CacheKey) (kernel : CachedKernel) : Prop :=
  storage s !! key = Some kernel \/ exists d, disk s = Some d /\ held d key kernel.

Lemma known_sub s s' :
  storage s' ⊆ storage s -> disk s' = disk s -> forall k v, known s' k v -> known s k v.
Proof.
  intros Hst Hd k v [Hk|Hk]; [left; by eapply lookup_weaken|right]. by rewrite <-Hd.
Qed.

Lemma evict_key_sub key s : storage (evict_key key s) ⊆ storage s.
Proof. rewrite evict_key_storage. apply delete_subseteq. Qed.

Lemma evict_while_sub go fuel s :
  storage (evict_while go fuel s) ⊆ storage s /\ disk (evict_while go fuel s) = disk s.
Proof.
  revert s. induction fuel as [|fuel IH]; intros s; simpl; [done|]. destruct (go s); [|done].
  destruct (pop_lru s) as [[k s1]|] eqn:Hpop; [|done]. destruct (IH (evict_key k s1)) as [Hst Hd].
  assert (storage s1 = storage s /\ disk s1 = disk s) as [<- <-]
    by (unfold pop_lru in Hpop; destruct (last (lru s)); by simplify_eq).
  rewrite Hd. split; [|apply evict_key_rest]. etrans; [exact Hst|apply evict_key_sub].
Qed.

Lemma enforce_known s k v : known (enforce_byte_cap s) k v -> known s k v.
Proof.
  unfold enforce_byte_cap. repeat case_match; [|done..]. apply known_sub; apply evict_while_sub.
Qed.

Lemma insert_l1_known key kernel s k v :
  known (insert_l1 key kernel s) k v -> known s k v \/ (k = key /\ v = kernel).
Proof.
  unfold insert_l1. set (s1 := set_l1 (<[key := kernel]> (storage s)) (lru s) _ s). intros Hk.
  assert (known s1 k v) as [Hs|(d & Hd & Hh)].
  { destruct (lru_push key s1) as [ev s2] eqn:Hp.
    assert (storage s2 = storage s1 /\ disk s2 = disk s1) as [Hst Hd]
      by (unfold lru_push in Hp; repeat case_match; by simplify_eq).
    revert Hk. apply known_sub; rewrite <-?Hst, <-?Hd; repeat case_match;
      first [done|apply evict_key_sub|apply evict_key_rest]. }
  - unfold s1 in Hs. simpl in Hs.
    apply lookup_insert_Some in Hs as [[-> ->]|[_ Hs]]; [by right|left; by left].
  - left. right. eauto.
Qed.

Lemma put_known key kernel s k v :
  known (put key kernel s) k v -> known s k v \/ (k = key /\ v = kernel).
Proof.
  unfold put. case_match; [by left|]. intros Hk%enforce_known.
  set (s0 := match disk s with Some d => set_disk (Some (disk_put key kernel d).2) s | None => s end) in *.
  assert (known (insert_l1 key kernel s0) k v) as [Hs0|]%insert_l1_known; [| |by right].
  { revert Hk. case_match; [|done]. apply known_sub; apply evict_while_sub. }
  unfold s0 in Hs0. destruct (disk s) as [d|] eqn:Hd; [|by left].
  destruct Hs0 as [Hs0|(d' & [= <-] & Hh)]; [left; by left|].
  destruct (disk_put key kernel d) as [r d'] eqn:Hput. simpl in Hh.
  destruct (disk_put_held _ _ _ _ _ Hput _ _ Hh); [left; right; eauto|by right].
Qed.

Lemma get_known lock key s :
  (forall v, (get lock key s).1 = Some v -> known s key v) /\
  (forall k v, known (get lock key s).2 k v -> known s k v).
Proof.
  unfold get. set (s1 := if lock then lru_get key s else s).
  assert (storage s1 = storage s /\ disk s1 = disk s) as [Hst Hd].
  { unfold s1, lru_get. by destruct lock; [case_bool_decide|]. }
  assert (forall k v, known s1 k v -> known s k v) as Hs1 by (apply known_sub; by rewrite ?Hst).
  assert (forall k v, known (evict_key key s1) k v -> known s1 k v) as Hev.
  { apply known_sub; [apply evict_key_sub|apply evict_key_rest]. }
  destruct (storage s1 !! key) as [kernel|] eqn:Hk.
  - assert (known s key kernel) by (left; by rewrite <-Hst).
    repeat case_match; simpl; split; intros; simplify_eq; try done; auto.
  - destruct (disk s1) as [d|] eqn:Hdd; [|simpl; split; [done|auto]].
    destruct (disk_get key d) as [r d'] eqn:Hg.
    assert (forall k v, known (set_disk (Some d') s1) k v -> known s k v) as Hset.
    { intros k v [Hx|(d2 & [= <-] & Hh)]; [apply Hs1; by left|].
      apply Hs1. right. exists d. split; [done|]. by eapply disk_get_keeps. }
    destruct r as [[kernel|]|]; simpl; [|split; [done|exact Hset]..].
    apply disk_get_held in Hg.
    assert (known s key kernel) as Hkn by (right; exists d; by rewrite <-Hd).
    split; [intros v [= <-]; done|]. intros k v Hx.
    change (known (enforce_byte_cap (insert_l1 key kernel (set_disk (Some d') s1))) k v) in Hx.
    apply enforce_known, insert_l1_known in Hx as [Hx|[-> ->]]; auto.
Qed.

Inductive cache_op := CPut (key : CacheKey) (kernel : CachedKernel) | CGet (lock_free : bool) (key : CacheKey).

Definition step (s : t D) (o : cache_op) : t D :=
  match o with
  | CPut key kernel => put key kernel s
  | CGet lock_free key => (get lock_free key s).2
  end.

Lemma run_inv os s : inv s -> inv (fold_left step os s).
Proof.
  revert s. induction os as [|[key kernel|lock key] os IH]; intros s Hinv; simpl; [done|..]; apply IH;
    [by apply put_inv|by apply get_inv].
Qed.

Lemma insert_l1_config key kernel s : config (insert_l1 key kernel s) = config s.
Proof.
  unfold insert_l1. set (s1 := set_l1 _ _ _ s). destruct (lru_push key s1) as [ev s2] eqn:Hp.
  assert (config s2 = config s) as Hc by (unfold lru_push in Hp; repeat case_match; by simplify_eq).
  rewrite <-Hc. repeat case_match; [apply evict_key_rest|done..].
Qed.

Lemma enforce_config s : config (enforce_byte_cap s) = config s.
Proof. unfold enforce_byte_cap. repeat case_match; [apply evict_while_config|done..]. Qed.

Lemma step_config s o : config (step s o) = config s.
Proof.
  destruct o as [key kernel|lock key]; simpl.
  - unfold put. case_match; [done|]. rewrite enforce_config. case_match; rewrite ?evict_while_config;
      rewrite insert_l1_config; by case_match.
  - unfold get. set (s1 := if lock then lru_get key s else s).
    assert (config s1 = config s) as <- by (unfold s1, lru_get; by destruct lock; [case_bool_decide|]).
    repeat case_match; simpl; rewrite ?enforce_config, ?insert_l1_config; try done; apply evict_key_rest.
Qed.

Lemma run_config os s : config (fold_left step os s) = config s.
Proof. revert s. induction os as [|o os IH]; intros s; simpl; [done|]. by rewrite IH, step_config. Qed.

(** A [put] of an intact kernel is an insert at the front followed by the byte
    cap. *)
Lemma put_stages key kernel s :
  inv s -> verify_integrity kernel = true ->
  exists s1, put key kernel s = enforce_byte_cap s1 /\ inv s1 /\ config s1 = config s /\
             head (lru s1) = Some key /\ storage s1 !! key = Some kernel.
Proof.
  intros Hinv Hver. unfold put. rewrite Hver. cbn [negb].
  set (s0 := match disk s with Some d => set_disk (Some (disk_put key kernel d).2) s | None => s end).
  assert (inv s0 /\ config s0 = config s) as [H0 Hc]
    by (unfold s0; case_match; [split; [by apply set_disk_inv|done]|done]).
  destruct (insert_l1_spec key kernel s0 H0) as (Hi & Hh & Hk).
  exists (insert_l1 key kernel s0). rewrite not_over_capacity by done.
  split_and!; [done|done|by rewrite insert_l1_config|done|done].
Qed.

(** With room left and no byte cap, a [put] evicts nothing. *)
Lemma put_room key kernel s :
  inv s -> verify_integrity kernel = true -> Z.of_nat (length (lru s)) < capacity (config s) ->
  max_total_bytes (config s) = None ->
  storage (put key kernel s) = <[key := kernel]> (storage s) /\
  (length (lru (put key kernel s)) <= S (length (lru s)))%nat.
Proof.
  intros Hinv Hver Hroom Hcap. unfold put. rewrite Hver. cbn [negb].
  set (s0 := match disk s with Some d => set_disk (Some (disk_put key kernel d).2) s | None => s end).
  assert (inv s0 /\ config s0 = config s /\ storage s0 = storage s /\ lru s0 = lru s) as (H0 & Hc & Hst & Hl)
    by (unfold s0; case_match; [split; [by apply set_disk_inv|done]|done]).
  destruct (insert_l1_spec key kernel s0 H0) as (Hi & _). rewrite not_over_capacity by done.
  unfold enforce_byte_cap. rewrite insert_l1_config, Hc, Hcap.
  unfold insert_l1, lru_push. simpl. rewrite Hl, Hst, Hc. case_bool_decide as Hin.
  - rewrite bool_decide_eq_false_2 by (intros Hne; by apply Hne). simpl. split; [done|].
    destruct (promoted key (lru s) (inv_nodup _ Hinv) Hin) as (_ & Hlen & _). simpl in Hlen. lia.
  - rewrite (proj2 (Z.ltb_lt _ _)) by done. done.
Qed.

Lemma get_serves lock key kernel s :
  storage s !! key = Some kernel -> verify_on_get (config s) = true -> verify_integrity kernel = true ->
  (get lock key s).1 = Some kernel.
Proof.
  intros Hk Hv Hver. unfold get.
  assert (storage (if lock then lru_get key s else s) = storage s /\
          config (if lock then lru_get key s else s) = config s) as [-> ->]
    by (unfold lru_get; by destruct lock; [case_bool_decide|]).
  by rewrite Hk, Hv, Hver.
Qed.

Lemma run_known os s k v :
  known (fold_left step os s) k v -> known s k v \/ CPut k v ∈ os.
Proof.
  revert s. induction os as [|o os IH]; intros s; simpl; [by left|].
  intros [Hk|Hk]%IH; [|right; by right].
  destruct o as [key kernel|lock key]; simpl in Hk.
  - apply put_known in Hk as [|[-> ->]]; [by left|right; by left].
  - left. by eapply get_known.
Qed.
End facts.

(** the cache never serves a kernel under a key it was not put under.
    After any sequence of puts and gets, with or without a disk level (whose
    operations may fail in any pattern), what [get] returns for a key was put
    under exactly that key, tenant, blueprint, SM version and emitter
    configuration included, or was on the disk under it to begin with. *)
Theorem cache_serves_own_key `{!Primitives} {D} `{!KernelDisk D} config (disk0 : option D) os lock key kernel :
  let s0 := match disk0 with
            | Some d => with_disk_persistence d (with_config config)
            | None => with_config config
            end in
  (get lock key (fold_left step os s0)).1 = Some kernel ->
  CPut key kernel ∈ os \/ exists d, disk0 = Some d /\ held d key kernel.
Proof.
  intros s0 Hget. apply get_known, run_known in Hget as [[Hs|(d & Hd & Hh)]|]; [| |by left].
  - unfold s0 in Hs. destruct disk0; simpl in Hs; by rewrite lookup_empty in Hs.
  - right. unfold s0 in Hd. destruct disk0 as [d0|]; simpl in Hd; simplify_eq. eauto.
Qed.

(** putting an intact kernel.  In every state reachable from an empty
    cache, with any disk, the entry count stays within the capacity, the byte
    total equals the sum over the entries (as a u64), the byte cap holds
    unless a single entry is left, and the kernel just put is served by the
    next [get], whatever the caps. *)
Theorem put_bounds_and_serves `{!Primitives} {D} `{!KernelDisk D} config disk0 os key kernel lock :
  let s0 := set_disk (D := D) disk0 (with_config config) in
  let s := put key kernel (fold_left step os s0) in
  verify_integrity kernel = true ->
  Z.of_nat (size (storage s)) <= Z.max (capacity config) 1 /\
  total_bytes s = as_u64 (stored s) /\
  (forall cap, max_total_bytes config = Some cap ->
     total_bytes s <= cap \/ (size (storage s) <= 1)%nat) /\
  (verify_on_get config = true -> (get lock key s).1 = Some kernel).
Proof.
  intros s0 s Hver.
  assert (inv (fold_left step os s0)) as Hinv by (apply run_inv, set_disk_inv, with_config_inv).
  pose proof (put_inv key kernel _ Hinv) as Hs. fold s in Hs.
  assert (KernelCache.config s = mkConfig (Z.max (capacity config) 1) (max_total_bytes config) (verify_on_get config))
    as Hcfg by (unfold s; etrans; [apply (step_config _ (CPut key kernel))|by rewrite run_config]).
  pose proof (size_le_lru s Hs) as Hsz. pose proof (inv_length _ Hs) as Hl. rewrite Hcfg in Hl. simpl in Hl.
  destruct (put_stages key kernel _ Hinv Hver) as (s1 & Hput & Hinv1 & Hcfg1 & Hh & Hk).
  split_and!; [lia|by apply Hs| |].
  - intros cap Hcap. unfold s. rewrite Hput. apply enforce_bound; [done|]. by rewrite Hcfg1, run_config.
  - intros Hv. pose proof (enforce_keeps_head _ _ _ Hinv1 Hh Hk) as Hk'. rewrite <-Hput in Hk'. fold s in Hk'.
    apply get_serves; [done|by rewrite Hcfg|done].
Qed.

(** A disk that remembers everything, for the concrete runs. *)
#[local] Instance map_disk : KernelDisk (gmap CacheKey CachedKernel).
Proof.
  refine {| disk_put key kernel d := (Ok (), <[key := kernel]> d);
            disk_get key d := (Ok (d !! key), d);
            held d key kernel := d !! key = Some kernel |}.
  - intros key kernel d r d' [= <- <-] key' kernel' [[-> ->]|[_ Hk]]%lookup_insert_Some; auto.
  - by intros key d kernel d' [= Hk <-].
  - by intros key d r d' [= <- <-].
Defined.

Definition toy_kernel (n : Z) : CachedKernel :=
  kernel_new (H := Toy.toy) n (mkPtx (bytes_of "ptx") (1, 1)).

(** Capacity 1: the second put evicts the first kernel to the disk, from which
    the get brings it back. *)
Definition toy_cache_ops : list cache_op :=
  [CPut (for_tenant 1 10 80) (toy_kernel 10); CPut (for_tenant 2 10 80) (toy_kernel 11)].

Lemma cache_serves_own_key_witness :
  CPut (for_tenant 1 10 80) (toy_kernel 10) ∈ toy_cache_ops \/
  exists d, Some (∅ : gmap CacheKey CachedKernel) = Some d /\ held d (for_tenant 1 10 80) (toy_kernel 10).
Proof.
  apply (cache_serves_own_key (H := Toy.toy) (D := gmap CacheKey CachedKernel) (mkConfig 1 None true) (Some ∅)
           toy_cache_ops true (for_tenant 1 10 80) (toy_kernel 10)).
  vm_compute. reflexivity.
Defined.

Lemma put_bounds_and_serves_witness :
  let s := put (H := Toy.toy) (for_tenant 3 12 80) (toy_kernel 12)
             (fold_left (step (H := Toy.toy)) toy_cache_ops
                (set_disk (Some (∅ : gmap CacheKey CachedKernel)) (with_config (mkConfig 2 (Some 4) true)))) in
  total_bytes s <= 4 \/ (size (storage s) <= 1)%nat.
Proof.
  apply (put_bounds_and_serves (H := Toy.toy) (D := gmap CacheKey CachedKernel) (mkConfig 2 (Some 4) true) (Some ∅) toy_cache_ops
           (for_tenant 3 12 80) (toy_kernel 12) true); [vm_compute|]; reflexivity.
Defined.
End KernelCacheFacts.
