(* ===== verification/JitDispatch.v ===== *)
(** * [tensor-wasm-exec/src/jit_dispatch.rs]: the trampolines' host functions

    An offloaded guest function calls three host imports: [alloc] and [free],
    a stack allocator over the top 64 KiB of the guest's linear memory, and
    [dispatch], which looks the kernel up in the cache and launches it on the
    scratch region.  The guest controls every argument.  The launch itself is
    CUDA code: [launch] is a parameter, [None] in builds without the [cuda]
    feature.  Linear memory is its bytes and the page limit [memory.grow]
    respects. *)

From S2P Require Import Prelude Core Primitives KernelCache.

Definition DISPATCH_OK : Z := 0.
Definition DISPATCH_CACHE_MISS : Z := -1.
Definition DISPATCH_BAD_SCRATCH : Z := -2.
Definition SCRATCH_ARENA_BYTES : Z := 64 * 1024.
Definition DEFAULT_DISPATCH_SM_VERSION : Z := 80.

(** ** Linear memory *)

Module Memory.
Record t := mk { data : list u8; max_pages : Z }.

Definition PAGE : Z := 65536.

Definition len (m : t) : Z := Z.of_nat (length (data m)).

(** [Memory::grow]: new pages are zero. *)
Definition grow (m : t) (pages : Z) : option t :=
  if len m / PAGE + pages <=? max_pages m
  then Some (mk (data m ++ replicate (Z.to_nat (pages * PAGE)) Byte.x00) (max_pages m))
  else None.

(** [n] bytes at [addr], if they are in bounds. *)
Definition read (m : t) (addr : Z) (n : nat) : option (list u8) :=
  if (0 <=? addr) && (addr + Z.of_nat n <=? len m)
  then Some (slice (Z.to_nat addr) (Z.to_nat addr + n) (data m)) else None.

Definition write (m : t) (addr : Z) (bs : list u8) : option t :=
  if (0 <=? addr) && (addr + Z.of_nat (length bs) <=? len m)
  then Some (mk (take (Z.to_nat addr) (data m) ++ bs ++ drop (Z.to_nat addr + length bs) (data m)) (max_pages m))
  else None.
End Memory.

Module MemoryFacts.
Import Memory.

Lemma write_Some m addr bs m' :
  write m addr bs = Some m' <->
  0 <= addr /\ addr + Z.of_nat (length bs) <= len m /\
  m' = mk (take (Z.to_nat addr) (data m) ++ bs ++ drop (Z.to_nat addr + length bs) (data m)) (max_pages m).
Proof.
  unfold write. destruct (0 <=? addr) eqn:?, (_ <=? len m) eqn:?; simpl; bool_props;
    (split; [intros [= <-]|intros (? & ? & ->)]); try done; lia.
Qed.

Lemma write_len m addr bs m' : write m addr bs = Some m' -> len m' = len m.
Proof.
  intros (? & ? & ->)%write_Some. unfold len in *. simpl.
  rewrite !length_app, length_take, length_drop. lia.
Qed.

Lemma read_write m addr bs m' : write m addr bs = Some m' -> read m' addr (length bs) = Some bs.
Proof.
  intros Hw. pose proof (write_len _ _ _ _ Hw) as Hlen. apply write_Some in Hw as (? & ? & ->).
  unfold read. rewrite Hlen. rewrite (proj2 (Z.leb_le _ _)), (proj2 (Z.leb_le _ _)) by lia. simpl. f_equal.
  unfold len in *. apply slice_app; rewrite length_take; lia.
Qed.

Lemma read_write_other m addr bs m' a n :
  write m addr bs = Some m' -> a + Z.of_nat n <= addr \/ addr + Z.of_nat (length bs) <= a ->
  read m' a n = read m a n.
Proof.
  intros Hw Hdis. pose proof (write_len _ _ _ _ Hw) as Hlen. apply write_Some in Hw as (? & ? & ->).
  unfold read. rewrite Hlen. destruct (0 <=? a) eqn:?; [|done]. destruct (_ <=? len m) eqn:?; [|done].
  bool_props. simpl. f_equal. unfold len in *. destruct Hdis.
  - rewrite slice_app_l by (rewrite length_take; lia). apply slice_of_take. lia.
  - rewrite app_assoc, slice_app_r by (rewrite length_app, length_take; lia).
    rewrite length_app, length_take, slice_of_drop. f_equal; lia.
Qed.
End MemoryFacts.

Module JitDispatch.
Import Memory.

(** Slots in the order they were allocated. *)
Record ArenaState := mkArena {
  bump_cursor : option Z;
  arena_floor : Z;
  live : list (Z * Z);
}.

Definition arena_default : ArenaState := mkArena None 0 [].

(** What the host functions see of the caller: its exported memory, if any,
    its arena and its tenant. *)
Record Caller := mkCaller {
  memory : option Memory.t;
  jit_arena : ArenaState;
  caller_tenant : Z;
}.

Definition set_memory (m : Memory.t) (c : Caller) : Caller := mkCaller (Some m) (jit_arena c) (caller_tenant c).
Definition set_arena (a : ArenaState) (c : Caller) : Caller := mkCaller (memory c) a (caller_tenant c).

(** The first allocation makes room for the arena and places it at the top. *)
Definition init_arena (m : Memory.t) (a : ArenaState) : option (Z * Memory.t * ArenaState) :=
  match bump_cursor a with
  | Some c => Some (c, m, a)
  | None =>
      let grown :=
        if len m <? SCRATCH_ARENA_BYTES then
          let pages_needed := sat_sub ((SCRATCH_ARENA_BYTES + 65535) / 65536) (len m / 65536) in
          if 0 <? pages_needed then grow m pages_needed else Some m
        else Some m in
      m ← grown;
      let top := try_from_or u32_max u32_max (len m) in
      let floor := sat_sub top SCRATCH_ARENA_BYTES in
      Some (top, m, mkArena (Some top) floor (live a))
  end.

Definition align8 (size : Z) : Z := Z.land (size + 7) (Z.lnot 7).

(** The returned [i32] is given as the guest will hold it, a u32. *)
Definition alloc (size : Z) (caller : Caller) : Z * Caller :=
  let fail := as_u32 (-1) in
  if as_i32 size <=? 0 then (fail, caller)
  else
    match memory caller with
    | None => (fail, caller)
    | Some m =>
        match init_arena m (jit_arena caller) with
        | None => (fail, caller)
        | Some (cursor, m, st) =>
            let caller := set_arena st (set_memory m caller) in
            let aligned_size := align8 size in
            match checked_sub cursor aligned_size with
            | None => (fail, caller)
            | Some ptr =>
                if ptr <? arena_floor st then (fail, caller)
                else
                  (ptr, set_arena (mkArena (Some ptr) (arena_floor st) (live st ++ [(ptr, aligned_size)])) caller)
            end
        end
    end.

Definition free (ptr size : Z) (caller : Caller) : Caller :=
  if (as_i32 ptr <=? 0) || (as_i32 size <=? 0) then caller
  else
    let st := jit_arena caller in
    match last (live st) with
    | Some (top_ptr, top_size) =>
        if top_ptr =? ptr then
          set_arena (mkArena (Some (top_ptr + top_size)) (arena_floor st)
                       (take (length (live st) - 1) (live st))) caller
        else caller
    | None => caller
    end.

(** [lookup] is the kernel cache's [get]; [launch cached mem scratch alen rlen]
    runs the kernel on the region and returns the memory it leaves. *)
Definition dispatch (lookup : CacheKey -> option CachedKernel)
    (launch : option (CachedKernel -> Memory.t -> Z -> Z -> Z -> result str Memory.t))
    (sm_version fingerprint_lo fingerprint_hi scratch_ptr args_len results_len : Z)
    (caller : Caller) : Z * Caller :=
  let lo := Z.land fingerprint_lo 4294967295 in
  let hi := Z.land fingerprint_hi 4294967295 in
  let fp := Z.lor lo (Z.shiftl hi 32) in
  let key := for_tenant (caller_tenant caller) fp sm_version in
  match lookup key with
  | None => (DISPATCH_CACHE_MISS, caller)
  | Some cached =>
      if (as_i32 scratch_ptr <? 0) || (as_i32 args_len <? 0) || (as_i32 results_len <? 0)
      then (DISPATCH_BAD_SCRATCH, caller)
      else
        match memory caller with
        | None =>
            if (args_len =? 0) && (results_len =? 0) then (DISPATCH_OK, caller)
            else (DISPATCH_BAD_SCRATCH, caller)
        | Some mem =>
            match (end_ ← checked_add usize_max scratch_ptr args_len;
                   checked_add usize_max end_ results_len) with
            | None => (DISPATCH_BAD_SCRATCH, caller)
            | Some end_ =>
                if len mem <? end_ then (DISPATCH_BAD_SCRATCH, caller)
                else
                  match launch with
                  | None => (DISPATCH_CACHE_MISS, caller)
                  | Some launch =>
                      match launch cached mem scratch_ptr args_len results_len with
                      | Ok mem => (DISPATCH_OK, set_memory mem caller)
                      | Err _ => (DISPATCH_CACHE_MISS, caller)
                      end
                  end
            end
        end
  end.

(** [launch_cached_kernel]'s grid and block sizes, from the cached geometry. *)
Definition launch_dims (cached : CachedKernel) : Z * Z :=
  let '(block_hint, grid_hint) := launch_geometry (ptx cached) in
  let block_x := Z.max block_hint 1 in
  let grid_x := Z.max grid_hint 1 in
  (grid_x, block_x).
End JitDispatch.

Module ArenaFacts.
Import Memory JitDispatch.

Lemma align8_spec size :
  0 <= size -> size <= align8 size < size + 8 /\ align8 size mod 8 = 0.
Proof.
  intros Hs. unfold align8. change (Z.lnot 7) with (Z.lnot (Z.ones 3)).
  rewrite <-Z.ldiff_land, Z.ldiff_ones_r, Z.shiftl_mul_pow2, Z.shiftr_div_pow2 by lia.
  change (2 ^ 3) with 8. split.
  - pose proof (Z.div_mod (size + 7) 8 ltac:(lia)). pose proof (Z.mod_pos_bound (size + 7) 8 ltac:(lia)). lia.
  - apply Z.mod_mul. lia.
Qed.

(** The live slots are stacked downwards from [top], without gaps, to
    [cursor]. *)
Fixpoint stacked (top : Z) (slots : list (Z * Z)) (cursor : Z) : Prop :=
  match slots with
  | [] => cursor = top
  | (ptr, size) :: slots => ptr + size = top /\ 0 < size /\ size mod 8 = 0 /\ stacked ptr slots cursor
  end.

Lemma stacked_snoc top slots cursor ptr size :
  stacked top (slots ++ [(ptr, size)]) cursor <->
  exists mid, stacked top slots mid /\ ptr + size = mid /\ 0 < size /\ size mod 8 = 0 /\ cursor = ptr.
Proof.
  revert top. induction slots as [|[p s] slots IH]; intros top; simpl.
  - split; [intros (? & ? & ? & ?); eauto 8|intros (mid & -> & ? & ? & ? & ->); eauto].
  - rewrite IH. split; [intros (? & ? & ? & mid & ?); exists mid; tauto|intros (mid & ?); split_and!; try tauto; exists mid; tauto].
Qed.

Lemma stacked_le top slots cursor : stacked top slots cursor -> cursor <= top.
Proof.
  revert top. induction slots as [|[p s] slots IH]; intros top; simpl; [lia|].
  intros (? & ? & ? & H%IH). lia.
Qed.

Lemma stacked_slot top slots cursor i p s :
  stacked top slots cursor -> slots !! i = Some (p, s) ->
  cursor <= p /\ 0 < s /\ s mod 8 = 0 /\ p + s <= top.
Proof.
  revert top i. induction slots as [|[p' s'] slots IH]; intros top i; simpl; [done|].
  intros (Hp & Hs & Hm & Hst). destruct i as [|i]; simpl.
  - intros. simplify_eq. apply stacked_le in Hst. lia.
  - intros Hi. specialize (IH p' i Hst Hi). lia.
Qed.

Lemma stacked_disjoint top slots cursor i j p s p' s' :
  stacked top slots cursor -> (i < j)%nat ->
  slots !! i = Some (p, s) -> slots !! j = Some (p', s') -> p' + s' <= p.
Proof.
  revert top i j. induction slots as [|[q t] slots IH]; intros top i j; simpl; [done|].
  intros (Hp & Hs & Hm & Hst) Hij. destruct j as [|j]; [lia|]. destruct i as [|i]; simpl.
  - intros [= <- <-] Hj. destruct (stacked_slot _ _ _ _ _ _ Hst Hj) as (_ & _ & _ & ?). done.
  - apply IH with q; [done|lia].
Qed.

Lemma stacked_total top slots cursor :
  stacked top slots cursor -> sumZ snd slots = top - cursor.
Proof.
  unfold sumZ. revert top. induction slots as [|[p s] slots IH]; intros top; simpl; [lia|].
  intros (? & ? & ? & H%IH). lia.
Qed.

(** The arena's invariant, for a memory of [mem_len] bytes. *)
Definition arena_ok (mem_len : Z) (a : ArenaState) : Prop :=
  match bump_cursor a with
  | None => live a = []
  | Some cursor => exists top, top <= mem_len /\ top <= u32_max /\
      arena_floor a = sat_sub top SCRATCH_ARENA_BYTES /\ stacked top (live a) cursor /\ arena_floor a <= cursor
  end.

Lemma grow_len m pages m' : 0 <= pages -> grow m pages = Some m' -> len m' = len m + pages * PAGE.
Proof.
  unfold grow, len, PAGE. intros Hp. case_match; [|done]. intros [= <-]. simpl.
  rewrite length_app, length_replicate. lia.
Qed.

Lemma init_arena_ok m a cursor m' a' :
  arena_ok (len m) a -> init_arena m a = Some (cursor, m', a') ->
  bump_cursor a' = Some cursor /\ arena_ok (len m') a' /\ len m <= len m' /\
  (is_Some (bump_cursor a) -> m' = m /\ a' = a).
Proof.
  intros Hok. unfold init_arena. destruct (bump_cursor a) as [c|] eqn:Hc.
  { intros [= <- <- <-]. rewrite Hc. done. }
  intros H. apply bind_Some in H as (m1 & Hm1 & H). simplify_eq. simpl.
  assert (len m <= len m') as Hle.
  { repeat case_match; simplify_eq; try done. bool_props. unfold sat_sub in *.
    apply grow_len in Hm1; [unfold PAGE in *; lia|lia]. }
  split_and!; [done| |done|by intros []].
  unfold arena_ok in *. simpl. rewrite Hc in Hok. exists (try_from_or u32_max u32_max (len m')).
  assert (0 <= len m') by apply Nat2Z.is_nonneg. rewrite Hok.
  unfold try_from_or, sat_sub, SCRATCH_ARENA_BYTES. destruct (len m' <=? _) eqn:?; bool_props; simpl; split_and!; lia.
Qed.

(** Calls a guest can make, with whatever arguments it likes, and growing its
    memory in between. *)
Inductive arena_call := CallAlloc (size : Z) | CallFree (ptr size : Z) | GuestGrow (pages : Z).

Definition call_step (c : Caller) (call : arena_call) : Caller :=
  match call with
  | CallAlloc size => (alloc size c).2
  | CallFree ptr size => free ptr size c
  | GuestGrow pages =>
      match memory c with
      | Some m => match grow m pages with Some m => set_memory m c | None => c end
      | None => c
      end
  end.

Definition call_ok (call : arena_call) : Prop :=
  match call with
  | CallAlloc size => fits u32_max size
  | CallFree ptr size => fits u32_max ptr /\ fits u32_max size
  | GuestGrow pages => 0 <= pages
  end.

Definition caller_ok (c : Caller) : Prop :=
  match memory c with Some m => arena_ok (len m) (jit_arena c) | None => jit_arena c = arena_default end.

Lemma as_i32_pos z : 0 <= z <= u32_max -> 0 < as_i32 z -> 0 < z < 2 ^ 31.
Proof.
  intros Hz. unfold as_i32, as_signed. rewrite Z.mod_small by lia. case_match; bool_props; lia.
Qed.

Lemma arena_ok_grow len1 len2 a : len1 <= len2 -> arena_ok len1 a -> arena_ok len2 a.
Proof.
  intros Hle. unfold arena_ok. case_match; [|done]. intros (top & ? & ? & ? & ? & ?). exists top. split_and!; try done. lia.
Qed.

(** A successful allocation pushes one slot that covers the request. *)
Lemma alloc_cases size c m :
  memory c = Some m -> arena_ok (len m) (jit_arena c) -> fits u32_max size ->
  (exists c', alloc size c = (as_u32 (-1), c') /\ caller_ok c' /\ live (jit_arena c') = live (jit_arena c)) \/
  (exists ptr m' st, alloc size c = (ptr, mkCaller (Some m') (mkArena (Some ptr) (arena_floor st)
                       (live (jit_arena c) ++ [(ptr, align8 size)])) (caller_tenant c)) /\
     init_arena m (jit_arena c) = Some (ptr + align8 size, m', st) /\
     arena_ok (len m') (mkArena (Some ptr) (arena_floor st) (live (jit_arena c) ++ [(ptr, align8 size)])) /\
     0 <= ptr /\ 0 < size < 2 ^ 31).
Proof.
  intros Hm Hok Hsz. unfold alloc. destruct (as_i32 size <=? 0) eqn:Hpos; bool_props.
  { left. exists c. unfold caller_ok. by rewrite Hm. }
  rewrite Hm. apply as_i32_pos in Hpos; [|done].
  destruct (init_arena m (jit_arena c)) as [[[cursor m'] st]|] eqn:Hinit.
  2:{ left. exists c. unfold caller_ok. by rewrite Hm. }
  destruct (init_arena_ok _ _ _ _ _ Hok Hinit) as (Hcur & Hst & Hle & Hsame).
  assert (live st = live (jit_arena c)) as Hlive.
  { unfold init_arena in Hinit. destruct (bump_cursor (jit_arena c)); [by simplify_eq|].
    apply bind_Some in Hinit as (? & ? & ?). by simplify_eq. }
  destruct (checked_sub cursor (align8 size)) as [ptr|] eqn:Hsub; bool_props.
  2:{ left. eexists. by split_and!. }
  destruct (ptr <? arena_floor st) eqn:Hfl; bool_props.
  { left. eexists. by split_and!. }
  right. exists ptr, m', st. subst ptr. rewrite Hlive in *.
  assert (cursor - align8 size + align8 size = cursor) as -> by lia.
  destruct (align8_spec size ltac:(lia)) as [Hal Hmod].
  split_and!; [done|done| |lia|lia|lia].
  unfold arena_ok in *. rewrite Hcur in Hst. destruct Hst as (top & ? & ? & Hfloor & Hstk & ?).
  simpl. exists top. split_and!; [done|done|done| |done].
  apply stacked_snoc. exists cursor. rewrite Hlive in Hstk. split_and!; try done; lia.
Qed.

Lemma init_arena_live m a cursor m' st : init_arena m a = Some (cursor, m', st) -> live st = live a.
Proof.
  unfold init_arena. destruct (bump_cursor a); [by intros [= <- <- <-]|].
  intros (? & ? & ?)%bind_Some. by simplify_eq.
Qed.

(** A slot just allocated lies inside memory, and freeing it restores the
    arena [alloc] started from (once initialised). *)
Lemma alloc_usable size c m ptr c1 :
  memory c = Some m -> arena_ok (len m) (jit_arena c) -> fits u32_max size ->
  alloc size c = (ptr, c1) -> 0 < ptr < 2 ^ 31 ->
  exists m1 st, init_arena m (jit_arena c) = Some (ptr + align8 size, m1, st) /\
    memory c1 = Some m1 /\ caller_tenant c1 = caller_tenant c /\ 0 < size < 2 ^ 31 /\ ptr + size <= len m1 /\
    forall c2, jit_arena c2 = jit_arena c1 -> free ptr size c2 = set_arena st c2.
Proof.
  intros Hm Hok Hs Ha Hp. destruct (alloc_cases size c m Hm Hok Hs) as [(c' & Ha' & _)|(ptr' & m1 & st & Ha' & Hi & Hok1 & ? & ?)];
    rewrite Ha in Ha'; simplify_eq; [change (as_u32 (-1)) with 4294967295 in *; lia|].
  exists m1, st. destruct (align8_spec size ltac:(lia)) as [? _].
  pose proof (init_arena_live _ _ _ _ _ Hi) as Hlive. destruct (init_arena_ok _ _ _ _ _ Hok Hi) as (Hcur & _).
  split_and!; try done; try lia.
  - unfold arena_ok in Hok1. simpl in Hok1. destruct Hok1 as (top & ? & _ & _ & (mid & Hst & <- & _)%stacked_snoc & _).
    apply stacked_le in Hst. lia.
  - intros c2 Hc2. unfold free. rewrite Hc2. simpl. rewrite last_snoc, Z.eqb_refl, length_app. simpl.
    rewrite Nat.add_sub, take_app_length. unfold as_i32, as_signed. rewrite !Z.mod_small by lia.
    rewrite (proj2 (Z.ltb_lt ptr' _)), (proj2 (Z.ltb_lt size _)) by lia.
    rewrite (proj2 (Z.leb_gt ptr' 0)), (proj2 (Z.leb_gt size 0)) by lia. simpl. f_equal.
    destruct st. simpl in *. congruence.
Qed.

Lemma free_ok ptr size c : caller_ok c -> caller_ok (free ptr size c).
Proof.
  intros Hok. unfold free. case_match; [done|].
  destruct (last (live (jit_arena c))) as [[tp ts]|] eqn:Hlast; [|done].
  case_match; [|done]. unfold caller_ok in *. simpl. destruct (memory c) as [m|].
  2:{ by rewrite Hok in Hlast. }
  unfold arena_ok in *. destruct (bump_cursor (jit_arena c)) as [cur|]; simpl.
  2:{ by rewrite Hok in Hlast. }
  apply last_Some in Hlast as [slots Hl]. rewrite Hl in *.
  destruct Hok as (top & ? & ? & ? & (mid & Hmid & Heq & ? & ? & ->)%stacked_snoc & ?).
  exists top. rewrite length_app. simpl. rewrite Nat.add_sub, take_app_length. subst mid.
  split_and!; try done. lia.
Qed.

Lemma call_step_ok c call : caller_ok c -> call_ok call -> caller_ok (call_step c call).
Proof.
  intros Hok Hcall. destruct call as [size|ptr size|pages]; simpl in *.
  - destruct (memory c) as [m|] eqn:Hm.
    + unfold caller_ok in Hok. rewrite Hm in Hok.
      destruct (alloc_cases size c m Hm Hok Hcall) as [(c' & -> & ? & _)|(ptr & m' & st & -> & _ & ? & _)]; done.
    + unfold alloc. case_match; [done|]. by rewrite Hm.
  - by apply free_ok.
  - unfold caller_ok in *. destruct (memory c) as [m|] eqn:Hm; [|by rewrite Hm].
    destruct (grow m pages) as [m'|] eqn:Hg; [|by rewrite Hm]. simpl.
    eapply arena_ok_grow; [|exact Hok]. apply grow_len in Hg; [unfold PAGE in *; lia|done].
Qed.

Lemma run_ok calls c : caller_ok c -> Forall call_ok calls -> caller_ok (fold_left call_step calls c).
Proof.
  intros Hok Hcalls. revert c Hok. induction Hcalls; intros c Hok; simpl; [done|].
  by apply IHHcalls, call_step_ok.
Qed.

Lemma call_step_memory c call : is_Some (memory c) -> is_Some (memory (call_step c call)).
Proof.
  intros [m Hm]. destruct call as [size|ptr size|pages]; simpl.
  - unfold alloc. rewrite Hm. repeat case_match; simpl; eauto.
  - unfold free. repeat case_match; simpl; eauto.
  - rewrite Hm. case_match; simpl; eauto.
Qed.

Lemma run_memory calls c : is_Some (memory c) -> is_Some (memory (fold_left call_step calls c)).
Proof. revert c. induction calls; intros c Hc; simpl; [done|]. by apply IHcalls, call_step_memory. Qed.

(** C17: the scratch arena is safe against its guest.  After any sequence of
    [alloc] and [free] calls with arbitrary arguments (bogus pointers, double
    and out-of-order frees) and memory growth, the live slots are pairwise
    disjoint, 8-byte sized, inside linear memory and inside the 64 KiB arena,
    which they never exceed in total. *)
Theorem arena_slots_safe mem0 tenant calls :
  Forall call_ok calls ->
  let c := fold_left call_step calls (mkCaller (Some mem0) arena_default tenant) in
  let a := jit_arena c in
  exists m, memory c = Some m /\
  (forall i j p s p' s', (i < j)%nat -> live a !! i = Some (p, s) -> live a !! j = Some (p', s') -> p' + s' <= p) /\
  (forall i p s, live a !! i = Some (p, s) ->
     arena_floor a <= p /\ 0 < s /\ s mod 8 = 0 /\ p + s <= len m) /\
  sumZ snd (live a) <= SCRATCH_ARENA_BYTES.
Proof.
  intros Hcalls c a. destruct (run_memory calls (mkCaller (Some mem0) arena_default tenant)) as [m Hm]; [done|].
  fold c in Hm. exists m. split; [done|]. assert (caller_ok c) as Hok by (by apply run_ok). unfold caller_ok in Hok. rewrite Hm in Hok.
  fold a in Hok. unfold arena_ok in Hok. destruct (bump_cursor a) as [cur|].
  2:{ rewrite Hok. split_and!; [done..|]. unfold sumZ. simpl. unfold SCRATCH_ARENA_BYTES. lia. }
  destruct Hok as (top & Htop & _ & Hfloor & Hst & Hcur). split_and!.
  - intros *. by apply stacked_disjoint with top cur.
  - intros i p s Hi. destruct (stacked_slot _ _ _ _ _ _ Hst Hi) as (? & ? & ? & ?). split_and!; try done; lia.
  - rewrite (stacked_total _ _ _ Hst). unfold sat_sub, SCRATCH_ARENA_BYTES in *. lia.
Qed.

Lemma arena_slots_safe_witness :
  let c := fold_left call_step [CallAlloc 12; CallAlloc 3; CallFree 9 1; CallFree 65520 12]
             (mkCaller (Some (Memory.mk [] 2)) arena_default 7) in
  live (jit_arena c) = [(65520, 16); (65512, 8)] /\ sumZ snd (live (jit_arena c)) <= SCRATCH_ARENA_BYTES.
Proof.
  set (calls := [CallAlloc 12; CallAlloc 3; CallFree 9 1; CallFree 65520 12]).
  assert (Forall call_ok calls) as Hcalls by (by repeat constructor).
  split; [vm_compute; reflexivity|].
  by destruct (arena_slots_safe (Memory.mk [] 2) 7 calls Hcalls) as (m & _ & _ & _ & Hsum).
Defined.
End ArenaFacts.

Module DispatchFacts.
Import KernelCache Memory JitDispatch.

(** The two halves a trampoline passes are the fingerprint it was built for. *)
Lemma fingerprint_halves fp :
  fits u64_max fp ->
  Z.lor (Z.land (Z.land fp 4294967295) 4294967295) (Z.shiftl (Z.land (Z.shiftr fp 32) 4294967295) 32) = fp.
Proof.
  intros Hfp. unfold fits in Hfp. change 4294967295 with (Z.ones 32). rewrite !Z.land_ones by lia.
  rewrite Z.mod_mod by lia. rewrite Z.shiftr_div_pow2 by lia.
  assert (fp / 2 ^ 32 < 2 ^ 32) by (apply Z.div_lt_upper_bound; lia).
  assert (0 <= fp / 2 ^ 32) by (apply Z.div_pos; lia).
  rewrite (Z.mod_small (fp / 2 ^ 32)) by lia. rewrite <-Z.shiftr_div_pow2, <-Z.land_ones by lia.
  apply Z.bits_inj'. intros n Hn. rewrite Z.lor_spec, Z.land_spec, Z.testbit_ones_nonneg by lia.
  destruct (Z.ltb_spec n 32).
  - rewrite Z.shiftl_spec_low by lia. by rewrite andb_true_r, orb_false_r.
  - rewrite Z.shiftl_spec_high, Z.shiftr_spec by lia. rewrite andb_false_r. simpl. f_equal. lia.
Qed.

Lemma dispatch_inv lookup launch sm lo hi scratch alen rlen c rc c' :
  dispatch lookup launch sm lo hi scratch alen rlen c = (rc, c') ->
  ((rc = DISPATCH_CACHE_MISS \/ rc = DISPATCH_BAD_SCRATCH) /\ c' = c) \/
  (rc = DISPATCH_OK /\
   exists cached, lookup (for_tenant (caller_tenant c)
                    (Z.lor (Z.land lo 4294967295) (Z.shiftl (Z.land hi 4294967295) 32)) sm) = Some cached /\
     ((memory c = None /\ alen = 0 /\ rlen = 0 /\ c' = c) \/
      exists m m' run, memory c = Some m /\ launch = Some run /\ scratch + alen + rlen <= len m /\
        run cached m scratch alen rlen = Ok m' /\ c' = set_memory m' c)).
Proof.
  unfold dispatch. destruct (lookup _) as [cached|] eqn:Hl; [|intros [= <- <-]; auto].
  destruct (_ || _)%bool; [intros [= <- <-]; auto|].
  destruct (memory c) as [m|] eqn:Hm.
  2:{ destruct (_ && _)%bool eqn:Hz; intros [= <- <-]; [|auto]. bool_props. right. eauto 10. }
  destruct (_ ≫= _) as [end_|] eqn:He; [|intros [= <- <-]; auto].
  apply bind_Some in He as (mid & ? & ?). bool_props.
  destruct (len m <? end_) eqn:Hlt; [intros [= <- <-]; auto|]. bool_props.
  destruct launch as [run|]; [|intros [= <- <-]; auto].
  destruct (run cached m scratch alen rlen) as [m'|] eqn:Hrun; intros [= <- <-]; [|auto].
  right. split; [done|]. exists cached. split; [done|]. right. exists m, m', run. split_and!; try done. lia.
Qed.

(** [dispatch] answers OK only when the caller's own tenant has a kernel
    cached under the fingerprint it named, and that kernel ran on a region
    inside the caller's memory (or there was no memory and nothing to pass);
    every other answer leaves the caller untouched. *)
Theorem dispatch_ok_means_launched lookup launch sm lo hi scratch alen rlen c rc c' :
  fits u32_max scratch ->
  dispatch lookup launch sm lo hi scratch alen rlen c = (rc, c') ->
  (rc <> DISPATCH_OK /\ c' = c) \/
  (rc = DISPATCH_OK /\
   exists cached, lookup (for_tenant (caller_tenant c)
                    (Z.lor (Z.land lo 4294967295) (Z.shiftl (Z.land hi 4294967295) 32)) sm) = Some cached /\
     ((memory c = None /\ alen = 0 /\ rlen = 0 /\ c' = c) \/
      exists m m' run, memory c = Some m /\ launch = Some run /\
        0 <= scratch /\ scratch + alen + rlen <= len m /\
        run cached m scratch alen rlen = Ok m' /\ c' = set_memory m' c)).
Proof.
  intros Hs [[[-> | ->] ->]|(-> & cached & Hl & Hrun)]%dispatch_inv; [by left..|right].
  split; [done|]. exists cached. split; [done|]. destruct Hrun as [?|(m & m' & run & ? & ? & ? & ? & ?)]; [by left|].
  right. exists m, m', run. unfold fits in Hs. split_and!; try done; lia.
Qed.

Definition toy_entry : CachedKernel := kernel_new (H := Toy.toy) 12 (mkPtx (bytes_of "ptx") (1, 1)).

(** A launch that copies the first argument byte into the results. *)
Definition toy_launch (k : CachedKernel) (m : Memory.t) (scratch alen rlen : Z) : result str Memory.t :=
  match read m scratch 1 with
  | Some bs => ok_or (bytes_of "oob") (write m (scratch + alen) bs)
  | None => Err (bytes_of "oob")
  end.

Lemma dispatch_ok_means_launched_witness :
  let c := mkCaller (Some (Memory.mk [Byte.x05; Byte.x06; Byte.x07] 1)) arena_default 7 in
  let lookup key := if bool_decide (key = for_tenant 7 12 80) then Some toy_entry else None in
  let r := dispatch lookup (Some toy_launch) 80 12 0 1 1 1 c in
  r.1 = DISPATCH_OK /\ memory r.2 = Some (Memory.mk [Byte.x05; Byte.x06; Byte.x06] 1) /\
  lookup (for_tenant 7 12 80) = Some toy_entry.
Proof.
  intros c lookup r. split_and!; [vm_compute; reflexivity..|].
  destruct (dispatch_ok_means_launched lookup (Some toy_launch) 80 12 0 1 1 1 c r.1 r.2)
    as [[Hbad _]|(_ & cached & Hl & _)]; [done..| |].
  - destruct Hbad. vm_compute. reflexivity.
  - vm_compute. reflexivity.
Defined.
End DispatchFacts.
