(* ===== verification/Trampoline.v ===== *)
(** * [tensor-wasm-jit/src/rewrite.rs]: the dispatch trampolines

    The body the rewriter gives an offloaded function: it allocates a scratch
    slot, stores the arguments, calls the host's [dispatch], loads the results
    and frees the slot.  [Layout] is the packing of arguments and results,
    [Trampoline] the code generator, and [Wasm] an interpreter of the
    instructions it uses, with the host functions of [JitDispatch] as its
    imports.  The memory the host functions find under the export [memory] and
    memory 0, which the generated loads and stores address, are taken to be the
    same.  [TrampolineFacts] runs the generated code. *)

From S2P Require Import Prelude Core Primitives KernelCache JitDispatch.

Inductive ValType := TI32 | TI64 | TF32 | TF64 | TV128 | TRef.

#[global] Instance ValType_eq_dec : EqDecision ValType.
Proof. solve_decision. Defined.

Inductive RewriteError :=
| UnsupportedType (t : ValType)
| OffsetOverflow
| ScratchOverflow
| ScratchTooLarge (size : Z)
| ParseError (msg : str)
| ReencodeError (msg : str).

Module Layout.
Definition is_supported_primitive (v : ValType) : bool :=
  match v with TI32 | TI64 | TF32 | TF64 => true | _ => false end.

Definition val_type_size (v : ValType) : result RewriteError Z :=
  match v with
  | TI32 | TF32 => Ok 4
  | TI64 | TF64 => Ok 8
  | _ => Err (UnsupportedType v)
  end.

Definition aligned_advance (off : Z) (v : ValType) : result RewriteError Z :=
  align ← val_type_size v;
  let mask := align - 1 in
  summed ← ok_or OffsetOverflow (checked_add u32_max off mask);
  Ok (Z.land summed (Z.lnot mask)).

Record PackedLayout := mkLayout { offsets : list Z; total_bytes : Z }.

(** The loop of [pack_layout], from cursor [off]. *)
Fixpoint pack_from (off : Z) (types : list ValType) : result RewriteError (list Z * Z) :=
  match types with
  | [] => Ok ([], off)
  | t :: types =>
      aligned ← aligned_advance off t;
      size ← val_type_size t;
      off ← ok_or OffsetOverflow (checked_add u32_max aligned size);
      '(offs, off) ← pack_from off types;
      Ok (aligned :: offs, off)
  end.

Definition pack_layout (types : list ValType) : result RewriteError PackedLayout :=
  '(offs, off) ← pack_from 0 types;
  total ← ok_or OffsetOverflow (checked_add u32_max off 7);
  Ok (mkLayout offs (Z.land total (Z.lnot 7))).

Definition log2_align (v : ValType) : Z :=
  match v with TI32 | TF32 => 2 | TI64 | TF64 => 3 | _ => 0 end.
End Layout.

(** The instructions the trampolines use; [Store] and [Load] carry the value
    type that [i32.store], [f64.load] and so on have in their names. *)
Record MemArg := mkMemArg { offset : Z; align : Z }.

Inductive Instr :=
| I32Const (n : Z)
| I64Const (n : Z)
| LocalGet (i : nat)
| LocalSet (i : nat)
| LocalTee (i : nat)
| Call (f : Z)
| Store (ty : ValType) (m : MemArg)
| Load (ty : ValType) (m : MemArg)
| I32Ne
| If
| Unreachable
| End.

Module Trampoline.
Import Layout.

Record DispatchImports := mkImports { dispatch : Z; alloc : Z; free : Z }.

Definition store_param (scratch_local_idx : nat) (i : nat) (p : ValType * Z) : list Instr :=
  let '(ty, off) := p in
  [LocalGet scratch_local_idx; LocalGet i; Store ty (mkMemArg off (log2_align ty))].

Definition load_result (scratch_local_idx : nat) (args_total : Z) (p : ValType * Z) : list Instr :=
  let '(ty, roff) := p in
  let off := args_total + roff in
  [LocalGet scratch_local_idx; Load ty (mkMemArg off (log2_align ty))].

(** Allocate the scratch slot. *)
Definition prologue (imports : DispatchImports) (scratch_size : Z) (scratch_local_idx : nat) : list Instr :=
  [I32Const scratch_size; Call (alloc imports); LocalSet scratch_local_idx].

(** Call [dispatch]; on a non-zero code free the slot and trap. *)
Definition call_dispatch (fingerprint : Z) (imports : DispatchImports)
    (args_total results_total scratch_size : Z) (scratch_local_idx rc_local_idx : nat) : list Instr :=
  let fp_lo := Z.land fingerprint 4294967295 in
  let fp_hi := Z.shiftr fingerprint 32 in
  [I64Const fp_lo; I64Const fp_hi; LocalGet scratch_local_idx;
   I32Const args_total; I32Const results_total;
   Call (dispatch imports); LocalTee rc_local_idx; I32Const 0; I32Ne; If;
   LocalGet scratch_local_idx; I32Const scratch_size; Call (free imports); Unreachable; End].

Definition epilogue (imports : DispatchImports) (scratch_size : Z) (scratch_local_idx : nat) : list Instr :=
  [LocalGet scratch_local_idx; I32Const scratch_size; Call (free imports); End].

(** [offsets[i]] is read in step with the type it belongs to. *)
Definition build_trampoline (fingerprint : Z) (imports : DispatchImports)
    (params results : list ValType) : result RewriteError (list Instr) :=
  match list_find (fun t => is_supported_primitive t = false) (params ++ results) with
  | Some (_, t) => Err (UnsupportedType t)
  | None =>
      args_layout ← pack_layout params;
      results_layout ← pack_layout results;
      let args_total := total_bytes args_layout in
      let results_total := total_bytes results_layout in
      scratch_size ← ok_or ScratchOverflow (checked_add u32_max args_total results_total);
      if i32_max <? scratch_size then Err (ScratchTooLarge scratch_size)
      else
        let scratch_local_idx := length params in
        let rc_local_idx := S scratch_local_idx in
        Ok (prologue imports scratch_size scratch_local_idx ++
            concat (imap (store_param scratch_local_idx) (zip params (offsets args_layout))) ++
            call_dispatch fingerprint imports args_total results_total scratch_size scratch_local_idx rc_local_idx ++
            (zip results (offsets results_layout) ≫= load_result scratch_local_idx args_total) ++
            epilogue imports scratch_size scratch_local_idx)
  end.

(** Where [rewrite_wasm] puts the three imports. *)
Definition imports_after (num_function_imports : Z) : DispatchImports :=
  mkImports num_function_imports (num_function_imports + 1) (num_function_imports + 2).
End Trampoline.

(** ** WebAssembly's meaning of those instructions *)

Module Wasm.
(** A value is its type and its bits, an unsigned integer. *)
Record val := mkVal { vty : ValType; bits : Z }.

#[global] Instance val_eq_dec : EqDecision val.
Proof. solve_decision. Defined.

Definition val_bytes (ty : ValType) : nat :=
  match ty with TI32 | TF32 => 4 | TI64 | TF64 => 8 | _ => 16 end.

Definition val_ok (v : val) : Prop := 0 <= bits v < 256 ^ Z.of_nat (val_bytes (vty v)).

Record state := mkState { stack : list val; locals : list val; caller : JitDispatch.Caller }.

(** [Stuck] is code the validator would have refused. *)
Inductive outcome := Returned (results : list val) (c : JitDispatch.Caller) | Trapped (c : JitDispatch.Caller) | Stuck.

Inductive step_outcome := Next (s : state) | Trap (c : JitDispatch.Caller) | Wrong.

Section Run.
Context (imports : Trampoline.DispatchImports).
Context (lookup : CacheKey -> option CachedKernel).
Context (launch : option (CachedKernel -> Memory.t -> Z -> Z -> Z -> result str Memory.t)).
Context (sm_version : Z).

Definition call (f : Z) (s : state) : step_outcome :=
  if f =? Trampoline.alloc imports then
    match stack s with
    | mkVal TI32 size :: st =>
        let '(ptr, c) := JitDispatch.alloc size (caller s) in
        Next (mkState (mkVal TI32 ptr :: st) (locals s) c)
    | _ => Wrong
    end
  else if f =? Trampoline.free imports then
    match stack s with
    | mkVal TI32 size :: mkVal TI32 ptr :: st =>
        Next (mkState st (locals s) (JitDispatch.free ptr size (caller s)))
    | _ => Wrong
    end
  else if f =? Trampoline.dispatch imports then
    match stack s with
    | mkVal TI32 rlen :: mkVal TI32 alen :: mkVal TI32 scratch :: mkVal TI64 hi :: mkVal TI64 lo :: st =>
        let '(rc, c) := JitDispatch.dispatch lookup launch sm_version lo hi scratch alen rlen (caller s) in
        Next (mkState (mkVal TI32 (as_u32 rc) :: st) (locals s) c)
    | _ => Wrong
    end
  else Wrong.

(** The effective address is the operand plus the immediate, unwrapped. *)
Definition store (ty : ValType) (off : Z) (s : state) : step_outcome :=
  match stack s with
  | v :: mkVal TI32 addr :: st =>
      if bool_decide (vty v = ty) then
        match JitDispatch.memory (caller s) ≫= fun m =>
              Memory.write m (addr + off) (to_le_bytes (val_bytes ty) (bits v)) with
        | Some m => Next (mkState st (locals s) (JitDispatch.set_memory m (caller s)))
        | None => Trap (caller s)
        end
      else Wrong
  | _ => Wrong
  end.

Definition load (ty : ValType) (off : Z) (s : state) : step_outcome :=
  match stack s with
  | mkVal TI32 addr :: st =>
      match JitDispatch.memory (caller s) ≫= fun m => Memory.read m (addr + off) (val_bytes ty) with
      | Some bs => Next (mkState (mkVal ty (from_le_bytes bs) :: st) (locals s) (caller s))
      | None => Trap (caller s)
      end
  | _ => Wrong
  end.

Definition step (i : Instr) (s : state) : step_outcome :=
  match i with
  | I32Const n => Next (mkState (mkVal TI32 (as_u32 n) :: stack s) (locals s) (caller s))
  | I64Const n => Next (mkState (mkVal TI64 (as_u64 n) :: stack s) (locals s) (caller s))
  | LocalGet i =>
      match locals s !! i with
      | Some v => Next (mkState (v :: stack s) (locals s) (caller s))
      | None => Wrong
      end
  | LocalSet i =>
      match stack s with
      | v :: st => if (i <? length (locals s))%nat then Next (mkState st (<[i := v]> (locals s)) (caller s)) else Wrong
      | [] => Wrong
      end
  | LocalTee i =>
      match stack s with
      | v :: st => if (i <? length (locals s))%nat then Next (mkState (v :: st) (<[i := v]> (locals s)) (caller s)) else Wrong
      | [] => Wrong
      end
  | Call f => call f s
  | Store ty m => store ty (offset m) s
  | Load ty m => load ty (offset m) s
  | I32Ne =>
      match stack s with
      | mkVal TI32 b :: mkVal TI32 a :: st =>
          Next (mkState (mkVal TI32 (if a =? b then 0 else 1) :: st) (locals s) (caller s))
      | _ => Wrong
      end
  | Unreachable => Trap (caller s)
  | If | End => Wrong
  end.

(** [skip] counts the blocks still open in a branch that is not taken; the
    [End] of a taken branch, and of the function, does nothing. *)
Fixpoint run (code : list Instr) (skip : nat) (s : state) : outcome :=
  match code with
  | [] => Returned (rev (stack s)) (caller s)
  | i :: code =>
      match skip with
      | S k => run code (match i with If => S skip | End => k | _ => skip end) s
      | O =>
          match i with
          | If =>
              match stack s with
              | mkVal TI32 b :: st => run code (if b =? 0 then 1%nat else 0%nat) (mkState st (locals s) (caller s))
              | _ => Stuck
              end
          | End => run code 0 s
          | _ =>
              match step i s with
              | Next s => run code 0 s
              | Trap c => Trapped c
              | Wrong => Stuck
              end
          end
      end
  end.

(** Calling a function with a trampoline body: two i32 locals follow the
    parameters. *)
Definition invoke (body : list Instr) (args : list val) (c : JitDispatch.Caller) : outcome :=
  run body 0 (mkState [] (args ++ [mkVal TI32 0; mkVal TI32 0]) c).
End Run.
End Wasm.

Module LayoutFacts.
Import Layout Wasm.

Lemma val_type_size_supported t :
  is_supported_primitive t = true -> val_type_size t = Ok (Z.of_nat (val_bytes t)).
Proof. by destruct t. Qed.

Lemma val_type_size_Ok t n :
  val_type_size t = Ok n -> is_supported_primitive t = true /\ n = Z.of_nat (val_bytes t) /\ (n = 4 \/ n = 8).
Proof. destruct t; intros [= <-]; auto. Qed.

(** Rounding up with a power-of-two mask. *)
Lemma round_up_mask off k :
  0 <= k -> 0 <= off ->
  let r := Z.land (off + (2 ^ k - 1)) (Z.lnot (2 ^ k - 1)) in
  off <= r < off + 2 ^ k /\ r mod 2 ^ k = 0.
Proof.
  intros Hk Ho r. unfold r. replace (2 ^ k - 1) with (Z.ones k) by (rewrite Z.ones_equiv; lia).
  rewrite <-Z.ldiff_land, Z.ldiff_ones_r, Z.shiftl_mul_pow2, Z.shiftr_div_pow2 by lia.
  rewrite Z.ones_equiv. assert (0 < 2 ^ k) by (apply Z.pow_pos_nonneg; lia). split.
  - pose proof (Z.div_mod (off + Z.pred (2 ^ k)) (2 ^ k) ltac:(lia)).
    pose proof (Z.mod_pos_bound (off + Z.pred (2 ^ k)) (2 ^ k) ltac:(lia)). lia.
  - apply Z.mod_mul. lia.
Qed.

Lemma round_up_size off n :
  n = 4 \/ n = 8 -> 0 <= off ->
  off <= Z.land (off + (n - 1)) (Z.lnot (n - 1)) < off + n /\ Z.land (off + (n - 1)) (Z.lnot (n - 1)) mod n = 0.
Proof. intros [-> | ->] Ho; [apply (round_up_mask off 2)|apply (round_up_mask off 3)]; lia. Qed.

Lemma aligned_advance_Ok off t r :
  0 <= off -> aligned_advance off t = Ok r ->
  let n := Z.of_nat (val_bytes t) in off <= r < off + n /\ r mod n = 0.
Proof.
  intros Ho H. unfold aligned_advance in H. inv_bind H. apply val_type_size_Ok in E as (_ & -> & Hcase).
  inv_bind H. destruct (checked_add u32_max off _) as [s|] eqn:Hs; simplify_eq/=. bool_props. subst.
  by apply round_up_size.
Qed.

(** Offsets follow one another from [off] to [stop], each at its alignment. *)
Fixpoint packed (off : Z) (types : list ValType) (offs : list Z) (stop : Z) : Prop :=
  match types, offs with
  | [], [] => off = stop
  | t :: types, o :: offs =>
      let n := Z.of_nat (val_bytes t) in
      n <= 8 /\ off <= o < off + n /\ o mod n = 0 /\ packed (o + n) types offs stop
  | _, _ => False
  end.

Lemma pack_from_packed types off offs stop :
  0 <= off -> pack_from off types = Ok (offs, stop) ->
  packed off types offs stop /\ Forall (fun t => is_supported_primitive t = true) types.
Proof.
  revert off offs stop. induction types as [|t types IH]; intros off offs stop Ho H; [by simplify_eq/=|].
  cbn [pack_from] in H. inv_bind H. inv_bind H. inv_bind H. inv_bind H. destruct a2 as [offs' stop']. simplify_eq.
  apply aligned_advance_Ok in E as [? ?]; [|done]. apply val_type_size_Ok in E0 as (? & -> & ?).
  destruct (checked_add _ a _) eqn:Hc; simplify_eq/=. bool_props. subst.
  apply IH in E2 as [? ?]; [|lia]. split; [|by constructor]. simpl. split_and!; try done; lia.
Qed.

Lemma packed_length off types offs stop : packed off types offs stop -> length offs = length types.
Proof.
  revert off offs. induction types as [|t types IH]; intros off [|o offs]; simpl; try done.
  intros (_ & _ & _ & H). f_equal. by eapply IH.
Qed.

Lemma packed_stop off types offs stop :
  packed off types offs stop -> off <= stop <= off + 16 * Z.of_nat (length types).
Proof.
  revert off offs. induction types as [|t types IH]; intros off [|o offs]; simpl; try done; [lia|].
  intros (? & ? & _ & H%IH). lia.
Qed.

Lemma packed_lookup off types offs stop i t o :
  packed off types offs stop -> types !! i = Some t -> offs !! i = Some o ->
  off <= o /\ o + Z.of_nat (val_bytes t) <= stop /\ o mod Z.of_nat (val_bytes t) = 0.
Proof.
  revert off offs i. induction types as [|t' types IH]; intros off [|o' offs] i; simpl; try done.
  intros (? & ? & ? & H). destruct i as [|i]; simpl.
  - intros [= ->] [= ->]. apply packed_stop in H. split_and!; try done; lia.
  - intros Ht Ho. destruct (IH _ _ _ H Ht Ho) as (? & ? & ?). split_and!; try done; lia.
Qed.

Lemma packed_disjoint off types offs stop i j t o o' :
  packed off types offs stop -> (i < j)%nat ->
  types !! i = Some t -> offs !! i = Some o -> offs !! j = Some o' -> o + Z.of_nat (val_bytes t) <= o'.
Proof.
  revert off offs i j. induction types as [|t' types IH]; intros off [|o1 offs] i j; simpl; try done.
  intros (? & ? & ? & H) Hij. destruct j as [|j]; [lia|]. destruct i as [|i]; simpl.
  - intros [= ->] [= ->] Hj. pose proof (packed_length _ _ _ _ H) as Hl.
    destruct (lookup_lt_is_Some_2 types j) as [tj Htj]; [rewrite <-Hl; by eapply lookup_lt_Some|].
    by destruct (packed_lookup _ _ _ _ _ _ _ H Htj Hj).
  - apply (IH _ _ _ _ H). lia.
Qed.

Lemma pack_layout_Ok types l :
  pack_layout types = Ok l ->
  exists stop, packed 0 types (offsets l) stop /\ stop <= total_bytes l < stop + 8 /\
    total_bytes l mod 8 = 0 /\ Forall (fun t => is_supported_primitive t = true) types.
Proof.
  unfold pack_layout. intros H. inv_bind H. destruct a as [offs stop]. inv_bind H. simplify_eq.
  apply pack_from_packed in E as [Hp ?]; [|lia]. pose proof (packed_stop _ _ _ _ Hp).
  destruct (checked_add _ _ _) eqn:Hc; simplify_eq/=. bool_props. subst.
  exists stop. destruct (round_up_mask stop 3) as [? ?]; [lia..|]. eauto.
Qed.

Lemma pack_from_succeeds types off :
  Forall (fun t => is_supported_primitive t = true) types -> 0 <= off ->
  off + 16 * Z.of_nat (length types) <= u32_max -> is_ok (pack_from off types) = true.
Proof.
  intros Hall. revert off. induction Hall as [|t types Ht Hall IH]; intros off Ho Hb; [done|].
  cbn [pack_from length] in *. unfold aligned_advance. rewrite val_type_size_supported by done.
  cbn [mbind result_bind]. assert (Z.of_nat (val_bytes t) = 4 \/ Z.of_nat (val_bytes t) = 8) as Hn by (by destruct t; auto).
  destruct (checked_add u32_max off _) as [s|] eqn:Hs; bool_props; [|lia]. cbn [mbind result_bind ok_or].
  assert (s <= off + 7 /\ Z.land s (Z.lnot (Z.of_nat (val_bytes t) - 1)) <= off + 7 /\
          0 <= Z.land s (Z.lnot (Z.of_nat (val_bytes t) - 1))) as (? & ? & ?).
  { subst s. pose proof (round_up_size off _ Hn Ho). lia. }
  destruct (checked_add u32_max (Z.land _ _) _) as [e|] eqn:He; bool_props; [|lia]. cbn [mbind result_bind ok_or].
  specialize (IH e ltac:(lia) ltac:(lia)). by destruct (pack_from e types) as [[? ?]|].
Qed.

(** [pack_layout] gives every value of a signature its own naturally
    aligned place: the offsets do not overlap, lie below [total_bytes], and
    [total_bytes] is a multiple of 8; it succeeds on every supported signature
    whose size fits. *)
Theorem pack_layout_sound types :
  (Forall (fun t => is_supported_primitive t = true) types /\ 16 * Z.of_nat (length types) + 7 <= u32_max ->
   is_ok (pack_layout types) = true) /\
  (forall l, pack_layout types = Ok l ->
   length (offsets l) = length types /\ total_bytes l mod 8 = 0 /\
   (forall i t o, types !! i = Some t -> offsets l !! i = Some o ->
      val_type_size t = Ok (Z.of_nat (val_bytes t)) /\
      0 <= o /\ o + Z.of_nat (val_bytes t) <= total_bytes l /\ o mod Z.of_nat (val_bytes t) = 0) /\
   (forall i j t o o', (i < j)%nat -> types !! i = Some t -> offsets l !! i = Some o ->
      offsets l !! j = Some o' -> o + Z.of_nat (val_bytes t) <= o')).
Proof.
  split.
  - intros [Hall Hb]. pose proof (pack_from_succeeds types 0 Hall ltac:(lia) ltac:(lia)) as Hok.
    unfold pack_layout. destruct (pack_from 0 types) as [[offs stop]|] eqn:Hp; [|done].
    cbn [mbind result_bind]. apply pack_from_packed in Hp as [Hp _]; [|lia]. apply packed_stop in Hp.
    destruct (checked_add _ _ _) eqn:?; bool_props; [done|lia].
  - intros l (stop & Hp & ? & Hmod & Hall)%pack_layout_Ok.
    split_and!; [by eapply packed_length|done| |].
    + intros i t o Ht Ho. destruct (packed_lookup _ _ _ _ _ _ _ Hp Ht Ho) as (? & ? & ?).
      split_and!; [|done|lia|done]. by eapply val_type_size_supported, (Forall_lookup_1 _ _ _ _ Hall).
    + intros *. by apply packed_disjoint with 0 stop.
Qed.
End LayoutFacts.

Module MarshalFacts.
Import Layout Trampoline Wasm LayoutFacts MemoryFacts JitDispatch.

(** What the argument stores leave in memory. *)
Fixpoint store_args (m : Memory.t) (ptr : Z) (places : list (ValType * Z)) (args : list val) : option Memory.t :=
  match places, args with
  | (t, o) :: places, v :: args =>
      m ← Memory.write m (ptr + o) (to_le_bytes (val_bytes t) (bits v));
      store_args m ptr places args
  | _, _ => Some m
  end.

Fixpoint load_results (m : Memory.t) (ptr base : Z) (places : list (ValType * Z)) : option (list val) :=
  match places with
  | [] => Some []
  | (t, o) :: places =>
      bs ← Memory.read m (ptr + (base + o)) (val_bytes t);
      vs ← load_results m ptr base places;
      Some (mkVal t (from_le_bytes bs) :: vs)
  end.

(** [m'] is [m] with [args] at their offsets from [ptr] and nothing else
    changed outside the argument area. *)
Record marshalled (m m' : Memory.t) (ptr total : Z) (offs : list Z) (args : list val) : Prop := {
  marshalled_len : Memory.len m' = Memory.len m;
  marshalled_arg : forall i v o, args !! i = Some v -> offs !! i = Some o ->
    Memory.read m' (ptr + o) (val_bytes (vty v)) = Some (to_le_bytes (val_bytes (vty v)) (bits v));
  marshalled_frame : forall a n, a + Z.of_nat n <= ptr \/ ptr + total <= a ->
    Memory.read m' a n = Memory.read m a n;
}.

Lemma store_args_packed off stop offs args m ptr :
  packed off (map vty args) offs stop -> 0 <= ptr + off -> ptr + stop <= Memory.len m ->
  exists m', store_args m ptr (zip (map vty args) offs) args = Some m' /\
    Memory.len m' = Memory.len m /\
    (forall i v o, args !! i = Some v -> offs !! i = Some o ->
       Memory.read m' (ptr + o) (val_bytes (vty v)) = Some (to_le_bytes (val_bytes (vty v)) (bits v))) /\
    (forall a n, a + Z.of_nat n <= ptr + off \/ ptr + stop <= a -> Memory.read m' a n = Memory.read m a n).
Proof.
  revert off offs m. induction args as [|v args IH]; intros off [|o offs] m; simpl; try done.
  { intros. exists m. by split_and!. }
  intros (? & ? & ? & Hp) Hlo Hhi. pose proof (packed_stop _ _ _ _ Hp).
  destruct (Memory.write m (ptr + o) _) as [m1|] eqn:Hw.
  2:{ exfalso. apply eq_None_not_Some in Hw. apply Hw. eexists. apply write_Some. rewrite length_to_le_bytes. split_and!; [lia..|done]. }
  pose proof (write_len _ _ _ _ Hw) as Hl1.
  destruct (IH _ _ m1 Hp) as (m' & Hst & Hl & Hargs & Hfr); [lia..|].
  exists m'. split; [done|]. split; [congruence|]. split.
  - intros [|i] v' o'; simpl; [|apply Hargs]. intros [= <-] [= <-].
    rewrite Hfr by lia. pose proof (read_write _ _ _ _ Hw) as Hr. by rewrite length_to_le_bytes in Hr.
  - intros a n Ha. rewrite Hfr by lia. eapply read_write_other; [done|]. rewrite length_to_le_bytes. lia.
Qed.

Lemma store_args_marshalled args l m ptr :
  pack_layout (map vty args) = Ok l -> 0 <= ptr -> ptr + total_bytes l <= Memory.len m ->
  exists m', store_args m ptr (zip (map vty args) (offsets l)) args = Some m' /\
    marshalled m m' ptr (total_bytes l) (offsets l) args.
Proof.
  intros (stop & Hp & ? & _ & _)%pack_layout_Ok ? ?.
  destruct (store_args_packed _ _ _ _ m ptr Hp) as (m' & ? & ? & ? & Hfr); [lia..|].
  exists m'. split; [done|]. constructor; [done..|]. intros a n Ha. apply Hfr. lia.
Qed.

Lemma load_results_packed types off offs stop m ptr base :
  packed off types offs stop -> 0 <= ptr + base + off -> ptr + base + stop <= Memory.len m ->
  exists vs, load_results m ptr base (zip types offs) = Some vs /\ map vty vs = types /\
    (forall i t o, types !! i = Some t -> offs !! i = Some o -> exists bs,
       Memory.read m (ptr + base + o) (val_bytes t) = Some bs /\ vs !! i = Some (mkVal t (from_le_bytes bs))).
Proof.
  revert off offs. induction types as [|t types IH]; intros off [|o offs]; simpl; try done.
  { intros. exists []. by split_and!. }
  intros (? & ? & ? & Hp) Hlo Hhi. pose proof (packed_stop _ _ _ _ Hp).
  destruct (IH _ _ Hp) as (vs & -> & Hty & Hvs); [lia..|].
  destruct (Memory.read m (ptr + (base + o)) (val_bytes t)) as [bs|] eqn:Hr.
  2:{ exfalso. unfold Memory.read in Hr. rewrite (proj2 (Z.leb_le _ _)), (proj2 (Z.leb_le _ _)) in Hr by lia. done. }
  eexists. split; [done|]. simpl. rewrite Hty. split; [done|]. intros [|i] t' o'; simpl; [|apply Hvs].
  intros [= <-] [= <-]. exists bs. by rewrite <-Z.add_assoc.
Qed.

Section Code.
Context (imports : DispatchImports) (lookup : CacheKey -> option CachedKernel).
Context (launch : option (CachedKernel -> Memory.t -> Z -> Z -> Z -> result str Memory.t)) (sm : Z).
Abbreviation run := (run imports lookup launch sm).

(** The store loop performs [store_args], or traps. *)
Lemma run_stores f places args k sl ptr locals st c m rest :
  (forall i p, f i p = store_param sl (k + i) p) ->
  locals !! sl = Some (mkVal TI32 ptr) -> map vty args = map fst places ->
  (forall i v, args !! i = Some v -> locals !! (k + i)%nat = Some v) ->
  memory c = Some m ->
  match store_args m ptr places args with
  | Some m' => run (concat (imap f places) ++ rest) 0 (mkState st locals c) = run rest 0 (mkState st locals (set_memory m' c))
  | None => exists c', run (concat (imap f places) ++ rest) 0 (mkState st locals c) = Trapped c' /\ jit_arena c' = jit_arena c
  end.
Proof.
  intros Hf Hsl. revert f k args c m Hf.
  induction places as [|[t o] places IH]; intros f k args c m Hf Hty Hargs Hm; destruct args as [|v args]; simplify_eq/=.
  { destruct c. simpl in *. by subst. }
  rewrite Hf. simpl. rewrite Hsl. simpl. rewrite Nat.add_0_r. pose proof (Hargs 0%nat v eq_refl) as Hv.
  rewrite Nat.add_0_r in Hv. rewrite Hv. simpl. unfold store. simpl.
  rewrite bool_decide_eq_true_2 by done. rewrite Hm. simpl.
  destruct (Memory.write m _ _) as [m1|]; simpl; [|eauto].
  specialize (IH (f ∘ S) (S k) args (set_memory m1 c) m1).
  apply IH; [|done| |done].
  - intros i p. unfold compose. rewrite Hf. f_equal. lia.
  - intros i v' Hi. replace (S k + i)%nat with (k + S i)%nat by lia. by apply Hargs.
Qed.

Lemma run_loads places sl ptr base locals st c m rest :
  locals !! sl = Some (mkVal TI32 ptr) -> memory c = Some m ->
  run ((places ≫= load_result sl base) ++ rest) 0 (mkState st locals c) =
  match load_results m ptr base places with
  | Some vs => run rest 0 (mkState (rev vs ++ st) locals c)
  | None => Trapped c
  end.
Proof.
  intros Hsl Hm. revert st. induction places as [|[t o] places IH]; intros st; [done|].
  simpl. rewrite Hsl. simpl. unfold load. simpl. rewrite Hm. simpl.
  destruct (Memory.read m _ _) as [bs|]; simpl; [|done].
  rewrite IH. destruct (load_results m ptr base places) as [vs|]; simpl; [|done]. by rewrite <-app_assoc.
Qed.
End Code.
End MarshalFacts.

Module TrampolineFacts.
Import Layout Trampoline Wasm LayoutFacts MarshalFacts JitDispatch ArenaFacts.

Lemma build_trampoline_Ok fp imports params results body :
  build_trampoline fp imports params results = Ok body ->
  exists al rl, pack_layout params = Ok al /\ pack_layout results = Ok rl /\
    0 <= total_bytes al /\ 0 <= total_bytes rl /\ total_bytes al + total_bytes rl <= i32_max /\
    let size := total_bytes al + total_bytes rl in
    body = prologue imports size (length params) ++
           concat (imap (store_param (length params)) (zip params (offsets al))) ++
           call_dispatch fp imports (total_bytes al) (total_bytes rl) size (length params) (S (length params)) ++
           (zip results (offsets rl) ≫= load_result (length params) (total_bytes al)) ++
           epilogue imports size (length params).
Proof.
  unfold build_trampoline. destruct (list_find _ _) as [[? ?]|]; [done|]. intros H.
  inv_bind H. inv_bind H. inv_bind H. destruct (checked_add _ _ _) eqn:Hc; simplify_eq/=. bool_props. subst.
  destruct (_ <? _) eqn:Hs; simplify_eq. bool_props. exists a, a0.
  destruct (pack_layout_Ok _ _ E) as (? & ?%packed_stop & ? & _).
  destruct (pack_layout_Ok _ _ E0) as (? & ?%packed_stop & ? & _). split_and!; try done; lia.
Qed.

Lemma fst_zip_layout types l : pack_layout types = Ok l -> types = map fst (zip types (offsets l)).
Proof. intros (? & ?%packed_length & _)%pack_layout_Ok. rewrite fst_zip; [done|lia]. Qed.

Lemma load_results_types m ptr base places vs :
  load_results m ptr base places = Some vs -> map vty vs = map fst places.
Proof.
  revert vs. induction places as [|[t o] places IH]; intros vs Hvs; simpl in Hvs; [by simplify_eq|].
  apply bind_Some in Hvs as (bs & _ & Hvs). apply bind_Some in Hvs as (vs' & ? & ?). simplify_eq/=.
  f_equal. by apply IH.
Qed.

Lemma alloc_tenant size c : caller_tenant (alloc size c).2 = caller_tenant c.
Proof. unfold alloc. by repeat case_match. Qed.

Lemma free_memory ptr size c : memory (free ptr size c) = memory c.
Proof. unfold free. by repeat case_match. Qed.

Section Run.
Context (n : Z) (lookup : CacheKey -> option CachedKernel).
Context (launch : option (CachedKernel -> Memory.t -> Z -> Z -> Z -> result str Memory.t)) (sm : Z).
Abbreviation imports := (imports_after n).
Abbreviation run := (run imports lookup launch sm).

(** The locals of a trampoline: its arguments, the scratch pointer, the code. *)
Definition frame (args : list val) (ptr rc : Z) : list val := args ++ [mkVal TI32 ptr; mkVal TI32 rc].

Lemma frame_scratch args ptr rc : frame args ptr rc !! length args = Some (mkVal TI32 ptr).
Proof. unfold frame. by rewrite list_lookup_middle. Qed.

Lemma frame_arg args ptr rc i v : args !! i = Some v -> frame args ptr rc !! i = Some v.
Proof. intros. by apply lookup_app_l_Some. Qed.

Lemma frame_length args ptr rc : length (frame args ptr rc) = S (S (length args)).
Proof. unfold frame. rewrite length_app. simpl. lia. Qed.

Lemma frame_set_scratch args p q rc : <[length args := mkVal TI32 q]> (frame args p rc) = frame args q rc.
Proof. unfold frame. rewrite insert_app_r_alt by lia. by rewrite Nat.sub_diag. Qed.

Lemma frame_set_rc args p q rc : <[S (length args) := mkVal TI32 q]> (frame args p rc) = frame args p q.
Proof. unfold frame. rewrite insert_app_r_alt by lia. by replace (S (length args) - length args)%nat with 1%nat by lia. Qed.

Lemma run_prologue size args c rest :
  fits u32_max size ->
  run (prologue imports size (length args) ++ rest) 0 (mkState [] (frame args 0 0) c) =
  run rest 0 (mkState [] (frame args (alloc size c).1 0) (alloc size c).2).
Proof.
  intros Hs. simpl. unfold call. simpl. rewrite Z.eqb_refl. simpl.
  unfold as_u32. rewrite Z.mod_small by (unfold fits in *; lia). destruct (alloc size c) as [ptr c1]. simpl.
  rewrite frame_length. rewrite (proj2 (Nat.ltb_lt _ _)) by lia. by rewrite frame_set_scratch.
Qed.

Lemma run_free size args ptr rc st c rest :
  fits u32_max size ->
  run ([LocalGet (length args); I32Const size; Call (Trampoline.free imports)] ++ rest) 0
    (mkState st (frame args ptr rc) c) =
  run rest 0 (mkState st (frame args ptr rc) (free ptr size c)).
Proof.
  intros Hs. simpl. rewrite frame_scratch. simpl. unfold call. simpl.
  rewrite (proj2 (Z.eqb_neq (n + 2) (n + 1))), Z.eqb_refl by lia. simpl.
  unfold as_u32. by rewrite Z.mod_small by (unfold fits in *; lia).
Qed.

Lemma run_call_dispatch fp A R size args ptr c rest :
  fits u64_max fp -> 0 <= A -> 0 <= R -> A + R = size -> size <= i32_max ->
  let '(rc, c') := dispatch lookup launch sm (Z.land fp 4294967295) (Z.shiftr fp 32) ptr A R c in
  run (call_dispatch fp imports A R size (length args) (S (length args)) ++ rest) 0
    (mkState [] (frame args ptr 0) c) =
  if as_u32 rc =? 0 then run rest 0 (mkState [] (frame args ptr (as_u32 rc)) c')
  else Trapped (free ptr size c').
Proof.
  intros Hfp ? ? ? ?. assert (as_u64 (Z.land fp 4294967295) = Z.land fp 4294967295) as Hlo.
  { unfold as_u64. change 4294967295 with (Z.ones 32). rewrite Z.land_ones by lia.
    apply Z.mod_small. pose proof (Z.mod_pos_bound fp (2 ^ 32)). lia. }
  assert (as_u64 (Z.shiftr fp 32) = Z.shiftr fp 32) as Hhi.
  { unfold as_u64, fits in *. rewrite Z.shiftr_div_pow2 by lia. apply Z.mod_small. split; [apply Z.div_pos; lia|].
    apply Z.le_lt_trans with fp; [apply Z.div_le_upper_bound; lia|lia]. }
  destruct (dispatch _ _ _ _ _ _ _ _ _) as [rc c'] eqn:Hd. unfold call_dispatch.
  simpl. rewrite frame_scratch. simpl. unfold call. simpl. rewrite Hlo, Hhi.
  rewrite (proj2 (Z.eqb_neq n (n + 1))), (proj2 (Z.eqb_neq n (n + 2))), Z.eqb_refl by lia. simpl.
  unfold as_u32 at 1 2. rewrite !(Z.mod_small A), !(Z.mod_small R) by lia. rewrite Hd. simpl.
  rewrite frame_length, (proj2 (Nat.ltb_lt _ _)) by lia. rewrite frame_set_rc. simpl.
  change (as_u32 0) with 0. destruct (as_u32 rc =? 0); simpl; [done|].
  by apply (run_free size args ptr (as_u32 rc) [] c' (Unreachable :: End :: rest)); unfold fits; lia.
Qed.

Lemma as_u32_0 z : - 2 ^ 31 <= z < 2 ^ 31 -> as_u32 z = 0 <-> z = 0.
Proof.
  intros Hz. unfold as_u32. split; [|by intros ->]. intros H%Z.mod_divide; [|lia]. destruct H as [k ?]. lia.
Qed.

(** The guarded launch, when the kernel is there and succeeds. *)
Lemma dispatch_launches kernel fp ptr A R c m m' cached :
  launch = Some kernel -> fits u64_max fp -> memory c = Some m ->
  lookup (for_tenant (caller_tenant c) fp sm) = Some cached ->
  0 <= ptr < 2 ^ 31 -> 0 <= A -> 0 <= R -> A + R <= i32_max -> ptr + (A + R) <= Memory.len m ->
  kernel cached m ptr A R = Ok m' ->
  dispatch lookup launch sm (Z.land fp 4294967295) (Z.shiftr fp 32) ptr A R c = (DISPATCH_OK, set_memory m' c).
Proof.
  intros -> Hfp Hm Hl ? ? ? ? ? Hk. unfold dispatch. rewrite DispatchFacts.fingerprint_halves by done.
  rewrite Hl, Hm. unfold as_i32, as_signed. rewrite !Z.mod_small by lia.
  rewrite (proj2 (Z.ltb_lt ptr _)), (proj2 (Z.ltb_lt A _)), (proj2 (Z.ltb_lt R _)) by lia.
  rewrite (proj2 (Z.ltb_ge ptr 0)), (proj2 (Z.ltb_ge A 0)), (proj2 (Z.ltb_ge R 0)) by lia. simpl.
  unfold checked_add. rewrite (proj2 (Z.leb_le (ptr + A) _)) by lia. simpl.
  rewrite (proj2 (Z.leb_le (ptr + A + R) _)) by lia.
  rewrite (proj2 (Z.ltb_ge (Memory.len m) _)) by lia. by rewrite Hk.
Qed.
End Run.

(** C7: a trampoline does what the function it replaces is meant to: called
    with arguments of its signature, when its slot can be allocated and the
    kernel cached for its fingerprint runs, it passes the kernel a memory that
    holds exactly the arguments at their offsets and is otherwise the
    caller's, returns the values the kernel left in the result area, with the
    signature's types, and leaves the arena as it found it. *)
Theorem trampoline_correct n lookup kernel sm fp params results body args c m al rl ptr c1 cached :
  let A := total_bytes al in
  let R := total_bytes rl in
  fits u64_max fp ->
  build_trampoline fp (imports_after n) params results = Ok body ->
  pack_layout params = Ok al -> pack_layout results = Ok rl ->
  map vty args = params ->
  memory c = Some m -> arena_ok (Memory.len m) (jit_arena c) ->
  alloc (A + R) c = (ptr, c1) -> 0 < ptr < 2 ^ 31 ->
  lookup (for_tenant (caller_tenant c) fp sm) = Some cached ->
  (forall m1 m2, memory c1 = Some m1 -> marshalled m1 m2 ptr A (offsets al) args ->
     exists m3, kernel cached m2 ptr A R = Ok m3 /\ Memory.len m3 = Memory.len m2) ->
  exists m1 m2 m3 st vs,
    init_arena m (jit_arena c) = Some (ptr + align8 (A + R), m1, st) /\
    marshalled m1 m2 ptr A (offsets al) args /\
    kernel cached m2 ptr A R = Ok m3 /\
    invoke (imports_after n) lookup (Some kernel) sm body args c =
      Returned vs (mkCaller (Some m3) st (caller_tenant c)) /\
    map vty vs = results /\
    (forall i t o, results !! i = Some t -> offsets rl !! i = Some o -> exists bs,
       Memory.read m3 (ptr + A + o) (val_bytes t) = Some bs /\ vs !! i = Some (mkVal t (from_le_bytes bs))).
Proof.
  intros A R Hfp Hb Hal Hrl <- Hm Hok Ha Hptr Hl Hk.
  destruct (build_trampoline_Ok _ _ _ _ _ Hb) as (al' & rl' & Hal' & Hrl' & HA & HR & HS & ->).
  rewrite Hal in Hal'. rewrite Hrl in Hrl'. injection Hal' as <-. injection Hrl' as <-. fold A R in HA, HR, HS |- *.
  assert (fits u32_max (A + R)) as Hfits by (unfold fits; lia).
  destruct (alloc_usable _ _ _ _ _ Hm Hok Hfits Ha Hptr) as (m1 & st & Hi & Hm1 & Ht1 & ? & Hin & Hfree).
  destruct (store_args_marshalled args al m1 ptr Hal) as (m2 & Hst & Hmar); [lia|fold A; lia|].
  destruct (Hk m1 m2 Hm1 Hmar) as (m3 & Hk3 & Hl3). pose proof (marshalled_len _ _ _ _ _ _ Hmar) as Hl2.
  destruct (pack_layout_Ok _ _ Hrl) as (stop & Hp & Hstop & _ & _). fold R in Hstop.
  destruct (load_results_packed _ _ _ _ m3 ptr A Hp) as (vs & Hvs & Hty & Hread); [lia|lia|].
  exists m1, m2, m3, st, vs. split_and!; try done.
  unfold invoke. rewrite length_map. rewrite (run_prologue n lookup (Some kernel) sm (A + R) args c) by done. rewrite Ha. cbn [fst snd].
  pose proof (run_stores (imports_after n) lookup (Some kernel) sm (store_param (length args))
    (zip (map vty args) (offsets al)) args 0 (length args) ptr (frame args ptr 0) [] c1 m1) as Hrun.
  rewrite Hst in Hrun. rewrite Hrun; [|done|apply frame_scratch|by apply fst_zip_layout|intros; by apply frame_arg|done].
  pose proof (run_call_dispatch n lookup (Some kernel) sm fp A R (A + R) args ptr (set_memory m2 c1)) as Hdis.
  rewrite (dispatch_launches lookup (Some kernel) sm kernel fp ptr A R (set_memory m2 c1) m2 m3 cached) in Hdis;
    try done; try lia; [|by simpl; rewrite Ht1].
  rewrite Hdis by (done || lia). cbn [as_u32 Z.eqb].
  rewrite (run_loads _ _ _ _ _ _ ptr A _ [] _ m3), Hvs by (done || apply frame_scratch).
  unfold epilogue. rewrite (run_free n lookup (Some kernel) sm (A + R) args ptr _ _ _ [End]) by done. simpl.
  rewrite app_nil_r, rev_involutive. rewrite Hfree by done. unfold set_arena, set_memory. simpl. by rewrite Ht1.
Qed.

(** C18: a trampoline fails closed: whatever the caches, the driver and the
    guest's earlier calls did to the arena, it either traps or returns after
    the kernel cached for its own tenant and fingerprint ran, in the memory
    that kernel left.  It never returns made-up results, and its code is never
    ill-typed. *)
Theorem trampoline_fails_closed n lookup launch sm fp params results body args c m al rl :
  fits u64_max fp ->
  build_trampoline fp (imports_after n) params results = Ok body ->
  pack_layout params = Ok al -> pack_layout results = Ok rl ->
  map vty args = params -> memory c = Some m ->
  (exists c', invoke (imports_after n) lookup launch sm body args c = Trapped c') \/
  (exists vs c' cached kernel ptr m2 m3,
     invoke (imports_after n) lookup launch sm body args c = Returned vs c' /\ map vty vs = results /\
     lookup (for_tenant (caller_tenant c) fp sm) = Some cached /\ launch = Some kernel /\
     kernel cached m2 ptr (total_bytes al) (total_bytes rl) = Ok m3 /\ memory c' = Some m3).
Proof.
  intros Hfp Hb Hal Hrl <- Hm.
  destruct (build_trampoline_Ok _ _ _ _ _ Hb) as (al' & rl' & Hal' & Hrl' & HA & HR & HS & ->).
  rewrite Hal in Hal'. rewrite Hrl in Hrl'. injection Hal' as <-. injection Hrl' as <-.
  set (A := total_bytes al) in *. set (R := total_bytes rl) in *.
  unfold invoke. rewrite length_map. rewrite (run_prologue n lookup launch sm (A + R) args c) by (unfold fits; lia).
  destruct (call_step_memory c (CallAlloc (A + R)) ltac:(eauto)) as [m1 Hm1]. simpl in Hm1.
  pose proof (alloc_tenant (A + R) c) as Ht1.
  destruct (alloc (A + R) c) as [ptr c1]. cbn [fst snd] in *.
  pose proof (run_stores (imports_after n) lookup launch sm (store_param (length args))
    (zip (map vty args) (offsets al)) args 0 (length args) ptr (frame args ptr 0) [] c1 m1) as Hrun.
  destruct (store_args m1 ptr _ args) as [m2|] eqn:Hst.
  2:{ left. edestruct Hrun as (c' & -> & _); [done|apply frame_scratch|by apply fst_zip_layout|
        intros; by apply frame_arg|done|eauto]. }
  rewrite Hrun; [|done|apply frame_scratch|by apply fst_zip_layout|intros; by apply frame_arg|done].
  pose proof (run_call_dispatch n lookup launch sm fp A R (A + R) args ptr (set_memory m2 c1)) as Hdis.
  destruct (dispatch lookup launch sm _ _ ptr A R _) as [rc c2] eqn:Hd.
  rewrite Hdis by (done || lia).
  destruct (DispatchFacts.dispatch_inv _ _ _ _ _ _ _ _ _ _ _ Hd)
    as [[[-> | ->] ->]|(-> & cached & Hl & Hcase)]; [left; eauto..|].
  destruct Hcase as [(? & _)|(? & m3 & kernel & ? & -> & Hin & Hk & ->)]; simplify_eq/=.
  rewrite DispatchFacts.fingerprint_halves in Hl by done.
  rewrite (run_loads _ _ _ _ _ _ ptr A _ [] _ m3) by (done || apply frame_scratch).
  destruct (load_results m3 ptr A _) as [vs|] eqn:Hvs; [|eauto].
  right. unfold epilogue. rewrite (run_free n lookup _ sm (A + R) args ptr _ _ _ [End]) by (unfold fits; lia). simpl.
  eexists vs, _, cached, kernel, ptr, _, m3. rewrite app_nil_r, rev_involutive. split_and!; [done| |by rewrite <-Ht1|done|done|].
  - rewrite (load_results_types _ _ _ _ _ Hvs). symmetry. by apply fst_zip_layout.
  - by rewrite free_memory.
Qed.

(** A kernel that answers 42, for the concrete runs. *)
Definition toy_kernel (k : CachedKernel) (m : Memory.t) (scratch alen rlen : Z) : result str Memory.t :=
  ok_or (bytes_of "oob") (Memory.write m (scratch + alen) (to_le_bytes 4 42)).

Definition toy_lookup (key : CacheKey) : option CachedKernel :=
  if bool_decide (key = for_tenant 7 12 80) then Some DispatchFacts.toy_entry else None.

Definition toy_caller : Caller := mkCaller (Some (Memory.mk [] 2)) arena_default 7.

Definition toy_args : list val := [mkVal TI32 5; mkVal TI64 6].

Definition toy_body : list Instr :=
  default [] (ok (build_trampoline 12 (imports_after 3) [TI32; TI64] [TI32])).

Lemma alloc_memory size c m ptr c1 x m1 st :
  memory c = Some m -> arena_ok (Memory.len m) (jit_arena c) -> fits u32_max size ->
  alloc size c = (ptr, c1) -> 0 < ptr < 2 ^ 31 -> init_arena m (jit_arena c) = Some (x, m1, st) -> memory c1 = Some m1.
Proof.
  intros Hm Hok Hs Ha Hp Hi. destruct (alloc_usable _ _ _ _ _ Hm Hok Hs Ha Hp) as (m1' & st' & Hi' & Hm1 & _). congruence.
Qed.

Lemma toy_fits : fits u32_max 24.
Proof. done. Qed.

Lemma toy_range : 0 < 65512 < 2 ^ 31.
Proof. done. Qed.

Lemma toy_alloc : alloc 24 toy_caller = (65512, (alloc 24 toy_caller).2).
Proof.
  assert ((alloc 24 toy_caller).1 = 65512) as H by (vm_compute; reflexivity).
  revert H. by destruct (alloc 24 toy_caller) as [ptr c]; simpl; intros ->.
Qed.

Lemma toy_kernel_runs m1 m2 :
  memory (alloc 24 toy_caller).2 = Some m1 ->
  marshalled m1 m2 65512 16 [0; 8] toy_args ->
  exists m3, toy_kernel DispatchFacts.toy_entry m2 65512 16 8 = Ok m3 /\ Memory.len m3 = Memory.len m2.
Proof.
  intros Hm1 Hmar. assert (Memory.len m1 = 65536) as Hlen.
  { assert (Memory.len <$> memory (alloc 24 toy_caller).2 = Some 65536) as He by (vm_compute; reflexivity).
    rewrite Hm1 in He. by injection He. }
  rewrite <-(marshalled_len _ _ _ _ _ _ Hmar) in Hlen. unfold toy_kernel.
  destruct (Memory.write m2 _ _) as [m3|] eqn:Hw.
  - exists m3. split; [done|]. by eapply MemoryFacts.write_len.
  - exfalso. apply eq_None_not_Some in Hw. apply Hw. eexists. apply MemoryFacts.write_Some.
    rewrite length_to_le_bytes. split_and!; [lia..|done].
Qed.

Lemma trampoline_correct_witness :
  match invoke (imports_after 3) toy_lookup (Some toy_kernel) 80 toy_body toy_args toy_caller with
  | Returned vs _ => vs = [mkVal TI32 42] | _ => False
  end /\
  exists m1 m2, memory (alloc 24 toy_caller).2 = Some m1 /\ marshalled m1 m2 65512 16 [0; 8] toy_args.
Proof.
  split; [vm_compute; reflexivity|].
  destruct (trampoline_correct 3 toy_lookup toy_kernel 80 12 [TI32; TI64] [TI32] toy_body toy_args toy_caller
    (Memory.mk [] 2) (mkLayout [0; 8] 16) (mkLayout [0] 8) 65512 (alloc 24 toy_caller).2 DispatchFacts.toy_entry)
    as (m1 & m2 & m3 & st & vs & Hi & Hmar & _);
    [done|reflexivity..|exact toy_alloc|done|reflexivity|exact toy_kernel_runs|].
  exists m1, m2. split; [|exact Hmar].
  exact (alloc_memory 24 toy_caller (Memory.mk [] 2) 65512 (alloc 24 toy_caller).2 _ m1 st
    eq_refl eq_refl toy_fits toy_alloc toy_range Hi).
Defined.

Lemma trampoline_fails_closed_witness :
  exists c', invoke (imports_after 3) toy_lookup None 80 toy_body toy_args toy_caller = Trapped c'.
Proof.
  destruct (trampoline_fails_closed 3 toy_lookup None 80 12 [TI32; TI64] [TI32] toy_body toy_args toy_caller
    (Memory.mk [] 2) (mkLayout [0; 8] 16) (mkLayout [0] 8)) as [Htrap|(? & ? & ? & ? & ? & ? & ? & _ & _ & _ & Hno & _)];
    [done|reflexivity..|exact Htrap|discriminate].
Defined.

(** A signature without parameters or results needs a slot of size 0, which
    [alloc] refuses: the trampoline traps even when its kernel is cached and
    runs. *)
Lemma nullary_trampoline_traps n lookup launch sm fp c :
  fits u64_max fp ->
  exists body, build_trampoline fp (imports_after n) [] [] = Ok body /\
    invoke (imports_after n) lookup launch sm body [] c = Trapped c.
Proof.
  intros Hfp. exists (prologue (imports_after n) 0 0 ++ call_dispatch fp (imports_after n) 0 0 0 0 1 ++ epilogue (imports_after n) 0 0).
  split; [reflexivity|]. unfold invoke.
  rewrite (run_prologue n lookup launch sm 0 [] c) by done. change (alloc 0 c) with (as_u32 (-1), c). cbn [fst snd].
  pose proof (run_call_dispatch n lookup launch sm fp 0 0 0 [] (as_u32 (-1)) c (epilogue (imports_after n) 0 0) Hfp) as Hd.
  specialize (Hd ltac:(lia) ltac:(lia) ltac:(lia) ltac:(lia)).
  destruct (dispatch _ _ _ _ _ _ _ _ _) as [rc c'] eqn:Hrc. etransitivity; [exact Hd|].
  unfold dispatch in Hrc. destruct (lookup _); injection Hrc as <- <-; done.
Qed.

(** A slot at or above 2 GiB is a negative [i32]: [dispatch] refuses it, and
    [free] ignores it, so the slot stays live. *)
Lemma high_slot_unusable lookup launch sm lo hi ptr alen rlen size c :
  2 ^ 31 <= ptr < 2 ^ 32 ->
  (dispatch lookup launch sm lo hi ptr alen rlen c).1 <> DISPATCH_OK /\ free ptr size c = c.
Proof.
  intros Hp. assert (as_i32 ptr < 0) as Hneg.
  { unfold as_i32, as_signed. rewrite Z.mod_small by lia. rewrite (proj2 (Z.ltb_ge _ _)); lia. }
  split.
  - unfold dispatch. destruct (lookup _); [|done]. by rewrite (proj2 (Z.ltb_lt _ _) Hneg).
  - unfold free. by rewrite (proj2 (Z.leb_le (as_i32 ptr) 0)) by lia.
Qed.
End TrampolineFacts.
