(* ===== verification/Ir.v ===== *)
(** * [tensor-wasm-jit]: kernel blueprints, the detector and the lowering

    [Ir] is [ir.rs] (element types, operations, launch hints, the blueprint and
    its fingerprint), [Detector] is [detector.rs] (which blocks are offloaded;
    its f32 ratio is computed in IEEE binary32), [Lower] is [clif_lower.rs]
    (detector operations to blueprint operations) and [Deopt] is [deopt.rs].
    [FingerprintFacts] and [LowerFacts] hold the theorems. *)

From Stdlib Require Import SpecFloat.
From stdpp Require Import pretty.
From S2P Require Import Prelude Core Primitives.

(** Numbers as [format!] prints them. *)
Definition dec (z : Z) : str := bytes_of (pretty (Z.to_N z)).

Definition signed_dec (z : Z) : str := if z <? 0 then bytes_of "-" ++ dec (- z) else dec z.

Module Ir.
Inductive ElemType := I8 | I16 | I32 | I64 | F32 | F64.

#[global] Instance ElemType_eq_dec : EqDecision ElemType.
Proof. solve_decision. Defined.

Definition byte_width (e : ElemType) : Z :=
  match e with I8 => 1 | I16 => 2 | I32 | F32 => 4 | I64 | F64 => 8 end.

Definition is_float (e : ElemType) : bool :=
  match e with F32 | F64 => true | _ => false end.

Definition fingerprint_tag (e : ElemType) : Z :=
  match e with I8 => 0 | I16 => 1 | I32 => 2 | I64 => 3 | F32 => 4 | F64 => 5 end.

Definition elem_name (e : ElemType) : str :=
  match e with
  | I8 => bytes_of "i8" | I16 => bytes_of "i16" | I32 => bytes_of "i32"
  | I64 => bytes_of "i64" | F32 => bytes_of "f32" | F64 => bytes_of "f64"
  end.

Inductive TensorWasmOp :=
| VecAdd (elem : ElemType) (lanes : Z)
| VecMul (elem : ElemType) (lanes : Z)
| VecFma (elem : ElemType) (lanes : Z)
| MatMul (m n k : Z)
| LoadUnified (elem : ElemType) (lanes : Z)
| StoreUnified (elem : ElemType) (lanes : Z)
| Barrier.

#[global] Instance TensorWasmOp_eq_dec : EqDecision TensorWasmOp.
Proof. solve_decision. Defined.

Record GridHint := mkGridHint { total_threads : Z; preferred_block_size : Z }.

Definition default_grid_hint : GridHint := mkGridHint 256 128.

(** [(grid, block)] *)
Definition launch_geometry (h : GridHint) : Z * Z :=
  let block := Z.max (preferred_block_size h) 1 in
  let grid := (total_threads h + block - 1) / block in
  (Z.max grid 1, block).

Record TensorWasmKernelBlueprint := mkBlueprint {
  entry : str;
  ops : list TensorWasmOp;
  grid_hint : GridHint;
  shared_mem_bytes : Z;
}.

Definition blueprint_new (entry : str) : TensorWasmKernelBlueprint := mkBlueprint entry [] default_grid_hint 0.

Definition push (op : TensorWasmOp) (b : TensorWasmKernelBlueprint) : TensorWasmKernelBlueprint :=
  mkBlueprint (entry b) (ops b ++ [op]) (grid_hint b) (shared_mem_bytes b).

Definition with_grid (hint : GridHint) (b : TensorWasmKernelBlueprint) : TensorWasmKernelBlueprint :=
  mkBlueprint (entry b) (ops b) hint (shared_mem_bytes b).

Definition with_shared_mem (bytes : Z) (b : TensorWasmKernelBlueprint) : TensorWasmKernelBlueprint :=
  mkBlueprint (entry b) (ops b) (grid_hint b) bytes.

(** What one operation feeds the hasher. *)
Definition op_bytes (op : TensorWasmOp) : list u8 :=
  let lane_op tag elem lanes := to_le_bytes 1 tag ++ to_le_bytes 1 (fingerprint_tag elem) ++ to_le_bytes 4 lanes in
  match op with
  | VecAdd elem lanes => lane_op 0 elem lanes
  | VecMul elem lanes => lane_op 1 elem lanes
  | VecFma elem lanes => lane_op 2 elem lanes
  | MatMul m n k => to_le_bytes 1 3 ++ to_le_bytes 4 m ++ to_le_bytes 4 n ++ to_le_bytes 4 k
  | LoadUnified elem lanes => lane_op 4 elem lanes
  | StoreUnified elem lanes => lane_op 5 elem lanes
  | Barrier => to_le_bytes 1 6
  end.

(** Everything [digest] feeds the hasher, in order. *)
Definition preimage (b : TensorWasmKernelBlueprint) : list u8 :=
  bytes_of "tensor-wasm-jit::ir::v2" ++ [Byte.x00] ++
  to_le_bytes 8 (Z.of_nat (length (entry b))) ++ entry b ++
  to_le_bytes 8 (Z.of_nat (length (ops b))) ++ (ops b ≫= op_bytes) ++
  to_le_bytes 4 (total_threads (grid_hint b)) ++
  to_le_bytes 4 (preferred_block_size (grid_hint b)) ++
  to_le_bytes 4 (shared_mem_bytes b).

Section Digest.
Context `{!Primitives}.

Definition digest (b : TensorWasmKernelBlueprint) : list u8 := blake3 (preimage b).
Definition fingerprint (b : TensorWasmKernelBlueprint) : Z := from_le_bytes (take 8 (digest b)).
Definition fingerprint128 (b : TensorWasmKernelBlueprint) : Z := from_le_bytes (slice 0 16 (digest b)).
End Digest.
End Ir.

Module Detector.
Import Ir.

Inductive Op :=
| V128Add (lane_ty : ElemType) (lanes : Z)
| V128Mul (lane_ty : ElemType) (lanes : Z)
| V128Fma (lane_ty : ElemType) (lanes : Z)
| ScalarAdd | ScalarMul | Load | Store | Branch | Call | Other.

#[global] Instance Op_eq_dec : EqDecision Op.
Proof. solve_decision. Defined.

Definition is_v128 (o : Op) : bool :=
  match o with V128Add _ _ | V128Mul _ _ | V128Fma _ _ => true | _ => false end.

Record BlockIR := mkBlock { ops : list Op; loop_trip_count : option Z; name : str }.

Definition BlockIR_new (name : str) (ops : list Op) (loop_trip_count : option Z) : BlockIR :=
  mkBlock ops loop_trip_count name.

Inductive DetectorVerdict := Offload | KeepOnCpu.

#[global] Instance DetectorVerdict_eq_dec : EqDecision DetectorVerdict.
Proof. solve_decision. Defined.

(** An [f32]: precision 24, largest exponent 128. *)
Abbreviation f32 := spec_float.
Definition f32_of_usize (n : nat) : f32 := binary_normalize 24 128 (Z.of_nat n) 0 false.
Definition f32_div : f32 -> f32 -> f32 := SFdiv 24 128.
Definition f32_ge (a b : f32) : bool :=
  match SFcompare a b with Some Gt | Some Eq => true | _ => false end.

Record DetectorConfig := mkDetectorConfig { v128_ratio_threshold : f32; min_trip_count : Z }.

(** The literal [0.8], 13421773 * 2^-24. *)
Definition f32_0_8 : f32 := S754_finite false 13421773 (-24).

Definition default_config : DetectorConfig := mkDetectorConfig f32_0_8 64.

Definition v128_ratio_of (ops : list Op) : f32 :=
  match ops with
  | [] => S754_zero false
  | _ => f32_div (f32_of_usize (length (filter (fun o => is_v128 o = true) ops))) (f32_of_usize (length ops))
  end.

Definition classify_ops (ops : list Op) (loop_trip_count : option Z) (cfg : DetectorConfig) : DetectorVerdict :=
  let ratio := v128_ratio_of ops in
  let trip_ok := match loop_trip_count with Some n => min_trip_count cfg <=? n | None => false end in
  if f32_ge ratio (v128_ratio_threshold cfg) && trip_ok then Offload else KeepOnCpu.

Definition classify (block : BlockIR) (cfg : DetectorConfig) : DetectorVerdict :=
  classify_ops (ops block) (loop_trip_count block) cfg.

Definition classify_default (block : BlockIR) : DetectorVerdict := classify block default_config.
End Detector.

Module Lower.
Import Ir.

Inductive LowerError :=
| UnsupportedOp (block : str) (op : Detector.Op)
| OutOfBoundsMemory (block : str)
| MixedElementTypes (block : str) (first second : ElemType).

Definition DEFAULT_LANES : Z := 4.

Record MemRef := mkMemRef { offset : Z; len : Z }.

(** The loop of [infer_block_shape], with the shape seen so far. *)
Fixpoint infer_from (block : str) (shape : option (ElemType * Z)) (ops : list Detector.Op) :
    result LowerError (ElemType * Z) :=
  match ops with
  | [] => Ok (default (F32, DEFAULT_LANES) shape)
  | (Detector.V128Add ty lanes | Detector.V128Mul ty lanes | Detector.V128Fma ty lanes) :: ops =>
      match shape with
      | None => infer_from block (Some (ty, lanes)) ops
      | Some (seen_ty, _) =>
          if bool_decide (seen_ty <> ty) then Err (MixedElementTypes block seen_ty ty)
          else infer_from block shape ops
      end
  | _ :: ops => infer_from block shape ops
  end.

Definition infer_block_shape (block : Detector.BlockIR) : result LowerError (ElemType * Z) :=
  infer_from (Detector.name block) None (Detector.ops block).

Definition lower_op (block : str) (mem_elem : ElemType) (mem_lanes : Z) (op : Detector.Op) :
    result LowerError TensorWasmOp :=
  match op with
  | Detector.V128Add ty lanes => Ok (VecAdd ty lanes)
  | Detector.V128Mul ty lanes => Ok (VecMul ty lanes)
  | Detector.V128Fma ty lanes => Ok (VecFma ty lanes)
  | Detector.Load => Ok (LoadUnified mem_elem mem_lanes)
  | Detector.Store => Ok (StoreUnified mem_elem mem_lanes)
  | unsupported => Err (UnsupportedOp block unsupported)
  end.

Fixpoint lower_ops (block : str) (mem_elem : ElemType) (mem_lanes : Z) (ops : list Detector.Op) :
    result LowerError (list TensorWasmOp) :=
  match ops with
  | [] => Ok []
  | op :: ops =>
      lo ← lower_op block mem_elem mem_lanes op;
      los ← lower_ops block mem_elem mem_lanes ops;
      Ok (lo :: los)
  end.

Definition lower_block (block : Detector.BlockIR) : result LowerError TensorWasmKernelBlueprint :=
  '(mem_elem, mem_lanes) ← infer_block_shape block;
  los ← lower_ops (Detector.name block) mem_elem mem_lanes (Detector.ops block);
  let total := try_from_or u32_max u32_max (default 256 (Detector.loop_trip_count block)) in
  Ok (mkBlueprint (Detector.name block) los (mkGridHint total 128) 0).

Definition out_of_bounds (memory_bytes : Z) (r : MemRef) : bool :=
  match checked_add u64_max (offset r) (len r) with
  | Some end_ => memory_bytes <? end_
  | None => true
  end.

Definition lower_block_checked (block : Detector.BlockIR) (mem_refs : list MemRef) (memory_bytes : Z) :
    result LowerError TensorWasmKernelBlueprint :=
  if existsb (out_of_bounds memory_bytes) mem_refs then Err (OutOfBoundsMemory (Detector.name block))
  else lower_block block.
End Lower.

Module Deopt.
Inductive DeoptReason := CudaError (e : str) | NumericalDivergence | AssemblyFailed (e : str).

(** The counters are wrapping 64-bit atomics; the metrics mirror them. *)
Record DeoptGuard := mk { deopted : gmap Z DeoptReason; success_total : Z; fallback_total : Z }.

Definition new : DeoptGuard := mk ∅ 0 0.
Definition is_deopted (fp : Z) (g : DeoptGuard) : bool := bool_decide (is_Some (deopted g !! fp)).
Definition record_deopt (fp : Z) (reason : DeoptReason) (g : DeoptGuard) : DeoptGuard :=
  mk (<[fp := reason]> (deopted g)) (success_total g) (as_u64 (fallback_total g + 1)).
Definition record_success (g : DeoptGuard) : DeoptGuard :=
  mk (deopted g) (as_u64 (success_total g + 1)) (fallback_total g).
Definition clear_deopt (fp : Z) (g : DeoptGuard) : option DeoptReason * DeoptGuard :=
  (deopted g !! fp, mk (delete fp (deopted g)) (success_total g) (fallback_total g)).
Definition reason (fp : Z) (g : DeoptGuard) : option DeoptReason := deopted g !! fp.
End Deopt.

Module FingerprintFacts.
Import Ir.

Definition op_ok (op : TensorWasmOp) : Prop :=
  match op with
  | VecAdd _ l | VecMul _ l | VecFma _ l | LoadUnified _ l | StoreUnified _ l => fits u32_max l
  | MatMul m n k => fits u32_max m /\ fits u32_max n /\ fits u32_max k
  | Barrier => True
  end.

(** Every blueprint a Rust value can hold. *)
Definition blueprint_ok (b : TensorWasmKernelBlueprint) : Prop :=
  Z.of_nat (length (entry b)) <= u64_max /\ Z.of_nat (length (ops b)) <= u64_max /\ Forall op_ok (ops b) /\
  fits u32_max (total_threads (grid_hint b)) /\ fits u32_max (preferred_block_size (grid_hint b)) /\
  fits u32_max (shared_mem_bytes b).

Lemma le_prefix_inj n a b r1 r2 :
  0 <= a < 256 ^ Z.of_nat n -> 0 <= b < 256 ^ Z.of_nat n ->
  to_le_bytes n a ++ r1 = to_le_bytes n b ++ r2 -> a = b /\ r1 = r2.
Proof.
  intros Ha Hb Heq. apply app_inj_1 in Heq as [He ?]; [|by rewrite !length_to_le_bytes].
  split; [|done]. by rewrite <-(from_to_le_bytes n a), <-(from_to_le_bytes n b), He.
Qed.

Lemma fingerprint_tag_inj a b : fingerprint_tag a = fingerprint_tag b -> a = b.
Proof. by destruct a, b. Qed.

Lemma fingerprint_tag_range e : 0 <= fingerprint_tag e < 6.
Proof. by destruct e. Qed.

(** The variant's tag and its payload, as numbers of known widths. *)
Definition op_fields (op : TensorWasmOp) : list (nat * Z) :=
  match op with
  | VecAdd e l => [(1%nat, 0); (1%nat, fingerprint_tag e); (4%nat, l)]
  | VecMul e l => [(1%nat, 1); (1%nat, fingerprint_tag e); (4%nat, l)]
  | VecFma e l => [(1%nat, 2); (1%nat, fingerprint_tag e); (4%nat, l)]
  | MatMul m n k => [(1%nat, 3); (4%nat, m); (4%nat, n); (4%nat, k)]
  | LoadUnified e l => [(1%nat, 4); (1%nat, fingerprint_tag e); (4%nat, l)]
  | StoreUnified e l => [(1%nat, 5); (1%nat, fingerprint_tag e); (4%nat, l)]
  | Barrier => [(1%nat, 6)]
  end.

Lemma op_bytes_fields op : op_bytes op = op_fields op ≫= fun f => to_le_bytes f.1 f.2.
Proof. by destruct op. Qed.

Definition field_ok (f : nat * Z) : Prop := 0 <= f.2 < 256 ^ Z.of_nat f.1.

Lemma op_fields_ok op : op_ok op -> Forall field_ok (op_fields op).
Proof.
  unfold op_ok, fits, field_ok.
  destruct op as [e l|e l|e l|m n k|e l|e l|]; simpl; intros Hok; try pose proof (fingerprint_tag_range e);
    repeat constructor; simpl; lia.
Qed.

(** Fields of the same widths are read back. *)
Lemma fields_inj fs gs r1 r2 :
  map fst fs = map fst gs -> Forall field_ok fs -> Forall field_ok gs ->
  (fs ≫= fun f => to_le_bytes f.1 f.2) ++ r1 = (gs ≫= fun f => to_le_bytes f.1 f.2) ++ r2 ->
  fs = gs /\ r1 = r2.
Proof.
  revert gs. induction fs as [|[n a] fs IH]; intros [|[n' b] gs] Hw Hf Hg Heq; simplify_eq/=; [done|].
  inversion_clear Hf. inversion_clear Hg. rewrite <-!app_assoc in Heq.
  apply le_prefix_inj in Heq as [-> Heq]; [|done..]. apply IH in Heq as [-> ->]; done.
Qed.

Lemma op_fields_inj a b : op_fields a = op_fields b -> a = b.
Proof. destruct a, b; simpl; intros; simplify_eq; f_equal; by apply fingerprint_tag_inj. Qed.

(** Operations delimit themselves: the tag fixes the widths. *)
Lemma op_bytes_inj a b r1 r2 :
  op_ok a -> op_ok b -> op_bytes a ++ r1 = op_bytes b ++ r2 -> a = b /\ r1 = r2.
Proof.
  intros Ha Hb Heq. rewrite !op_bytes_fields in Heq.
  assert (map fst (op_fields a) = map fst (op_fields b)) as Hw by (by destruct a, b).
  apply fields_inj in Heq as [He ?]; [|done|by apply op_fields_ok..]. split; [|done]. by apply op_fields_inj.
Qed.

Lemma ops_bytes_inj xs ys r1 r2 :
  length xs = length ys -> Forall op_ok xs -> Forall op_ok ys ->
  (xs ≫= op_bytes) ++ r1 = (ys ≫= op_bytes) ++ r2 -> xs = ys /\ r1 = r2.
Proof.
  revert ys. induction xs as [|x xs IH]; intros [|y ys] Hl Hx Hy Heq; simplify_eq/=; [done|].
  inversion_clear Hx. inversion_clear Hy. rewrite <-!app_assoc in Heq.
  apply op_bytes_inj in Heq as [-> Heq]; [|done..]. apply IH in Heq as [-> ->]; done.
Qed.

Lemma preimage_inj a b : blueprint_ok a -> blueprint_ok b -> preimage a = preimage b -> a = b.
Proof.
  unfold blueprint_ok, fits. intros (? & ? & ? & ? & ? & ?) (? & ? & ? & ? & ? & ?) Heq. unfold preimage in Heq.
  apply app_inv_head, app_inv_head in Heq.
  apply le_prefix_inj in Heq as [Hlen Heq]; [|simpl; lia..].
  apply app_inj_1 in Heq as [Hentry Heq]; [|lia].
  apply le_prefix_inj in Heq as [Hops Heq]; [|simpl; lia..].
  apply ops_bytes_inj in Heq as [Hos Heq]; [|lia|done..].
  apply le_prefix_inj in Heq as [Ht Heq]; [|simpl; lia..].
  apply le_prefix_inj in Heq as [Hb Heq]; [|simpl; lia..].
  rewrite <-(app_nil_r (to_le_bytes 4 (shared_mem_bytes a))), <-(app_nil_r (to_le_bytes 4 (shared_mem_bytes b))) in Heq.
  apply le_prefix_inj in Heq as [Hs _]; [|simpl; lia..].
  destruct a as [? ? [] ?], b as [? ? [] ?]. simpl in *. congruence.
Qed.

(** C24: the fingerprint's preimage determines the blueprint: two blueprints
    that differ anywhere (in an element type, a lane count, the order of
    operations, the entry name, the launch hints) feed the hash different
    bytes, so they can share a kernel-cache key only through a collision of
    the hash itself. *)
Theorem preimage_determines_blueprint a b :
  blueprint_ok a -> blueprint_ok b -> preimage a = preimage b <-> a = b.
Proof. intros Ha Hb. split; [by apply preimage_inj|by intros ->]. Qed.

Lemma preimage_determines_blueprint_witness :
  let a := push (VecAdd I32 4) (blueprint_new (bytes_of "f")) in
  let b := push (VecAdd F32 4) (blueprint_new (bytes_of "f")) in
  a <> b /\ preimage a <> preimage b.
Proof.
  intros a b. assert (a <> b) as Hne by done. split; [done|].
  assert (blueprint_ok a /\ blueprint_ok b) as [Ha Hb] by (split; repeat constructor; vm_compute; congruence).
  intros Heq. by apply Hne, (preimage_determines_blueprint a b Ha Hb).
Defined.
End FingerprintFacts.

Module LowerFacts.
Import Ir Lower.

(** The element type of an operation that has lanes. *)
Definition op_elem (op : TensorWasmOp) : option ElemType :=
  match op with
  | VecAdd e _ | VecMul e _ | VecFma e _ | LoadUnified e _ | StoreUnified e _ => Some e
  | _ => None
  end.

Definition lane_ty (op : Detector.Op) : option ElemType :=
  match op with
  | Detector.V128Add e _ | Detector.V128Mul e _ | Detector.V128Fma e _ => Some e
  | _ => None
  end.

(** Operations the lowering knows. *)
Definition lowerable (op : Detector.Op) : bool :=
  Detector.is_v128 op || bool_decide (op = Detector.Load) || bool_decide (op = Detector.Store).

Lemma infer_from_agrees block shape ops elem lanes :
  infer_from block shape ops = Ok (elem, lanes) ->
  (forall op e, op ∈ ops -> lane_ty op = Some e -> e = elem) /\
  (forall e l, shape = Some (e, l) -> e = elem).
Proof.
  revert shape. induction ops as [|op ops IH]; intros shape H; simpl in H.
  { split; [intros ? ? []%elem_of_nil|]. intros e l ->. by simplify_eq/=. }
  assert (forall sh, infer_from block sh ops = Ok (elem, lanes) ->
            (forall e, lane_ty op = Some e -> exists l, sh = Some (e, l)) ->
            (forall e l, shape = Some (e, l) -> exists l', sh = Some (e, l')) ->
            (forall op0 e, op0 ∈ op :: ops -> lane_ty op0 = Some e -> e = elem) /\
            (forall e l, shape = Some (e, l) -> e = elem)) as Hstep.
  { intros sh [Hops Hsh]%IH Hop Hshape. split.
    - intros op0 e [-> | Hin]%elem_of_cons He; [|by eapply Hops]. destruct (Hop e He) as [l ?]. by eapply Hsh.
    - intros e l He. destruct (Hshape e l He) as [l' ?]. by eapply Hsh. }
  destruct op; try (apply (Hstep shape H); simpl; eauto; done);
    (destruct shape as [[e l]|]; [destruct (bool_decide _) eqn:Hb; [done|]; bool_props; apply dec_stable in Hb; subst|];
      (eapply Hstep; [exact H| |]; simpl; intros; simplify_eq; eauto)).
Qed.

Lemma infer_from_succeeds block shape ops :
  (forall op e, op ∈ ops -> lane_ty op = Some e -> forall op' e', op' ∈ ops -> lane_ty op' = Some e' -> e = e') ->
  (forall op e, op ∈ ops -> lane_ty op = Some e -> forall e' l, shape = Some (e', l) -> e = e') ->
  is_ok (infer_from block shape ops) = true.
Proof.
  revert shape. induction ops as [|op ops IH]; intros shape Hagree Hsh; [done|].
  assert (forall sh, (forall e l, sh = Some (e, l) -> lane_ty op = Some e \/ shape = Some (e, l)) ->
            is_ok (infer_from block sh ops) = true) as Hstep.
  { intros sh Hs. apply IH.
    - intros. eapply (Hagree op0 e _ H0 op' e'); [by right|done]. Unshelve. by right.
    - intros o e Ho He e' l He'. destruct (Hs _ _ He') as [Hop|Hshape].
      + by eapply (Hagree o e ltac:(by right) He op e' ltac:(by left)).
      + by eapply (Hsh o e ltac:(by right) He). }
  simpl. destruct op; try (apply Hstep; eauto; done);
    (destruct shape as [[e l]|];
      [rewrite bool_decide_eq_false_2; [apply Hstep; eauto|];
       intros Hne; apply Hne; symmetry; by eapply (Hsh _ _ ltac:(by left)) |
       apply Hstep; intros; simplify_eq; eauto]).
Qed.

Lemma lower_ops_Ok block elem lanes ops los :
  lower_ops block elem lanes ops = Ok los -> Forall2 (fun op lo => lower_op block elem lanes op = Ok lo) ops los.
Proof.
  revert los. induction ops as [|op ops IH]; intros los H; simpl in H; [by simplify_eq|].
  inv_bind H. inv_bind H. simplify_eq. constructor; [done|]. by apply IH.
Qed.

Lemma lower_ops_succeeds block elem lanes ops :
  Forall (fun op => lowerable op = true) ops -> is_ok (lower_ops block elem lanes ops) = true.
Proof.
  induction 1 as [|op ops Hop _ IH]; [done|]. simpl.
  assert (is_ok (lower_op block elem lanes op) = true) as Ho by (by destruct op).
  destruct (lower_op _ _ _ op); [|done]. simpl. by destruct (lower_ops _ _ _ ops).
Qed.

Lemma lower_op_Ok block elem lanes op lo :
  lower_op block elem lanes op = Ok lo ->
  lowerable op = true /\ op_elem lo = Some (default elem (lane_ty op)).
Proof. destruct op; intros [= <-]; done. Qed.

(** [lower_block] is the homogeneous translation it documents.  It
    succeeds exactly on blocks of vector arithmetic, loads and stores whose
    vector operations share one element type, and then it keeps the
    operations in order, one for one, all with that element type (loads and
    stores included), names the kernel after the block and asks for one
    thread per loop trip. *)
Theorem lower_block_homogeneous block :
  (is_ok (lower_block block) = true <->
     Forall (fun op => lowerable op = true) (Detector.ops block) /\
     (forall op e op' e', op ∈ Detector.ops block -> lane_ty op = Some e ->
        op' ∈ Detector.ops block -> lane_ty op' = Some e' -> e = e')) /\
  (forall bp, lower_block block = Ok bp ->
     entry bp = Detector.name block /\
     total_threads (grid_hint bp) = try_from_or u32_max u32_max (default 256 (Detector.loop_trip_count block)) /\
     exists elem lanes, Forall2 (fun op lo => lower_op (Detector.name block) elem lanes op = Ok lo /\ op_elem lo = Some elem)
       (Detector.ops block) (ops bp)).
Proof.
  assert (forall bp, lower_block block = Ok bp ->
     entry bp = Detector.name block /\
     total_threads (grid_hint bp) = try_from_or u32_max u32_max (default 256 (Detector.loop_trip_count block)) /\
     exists elem lanes, infer_block_shape block = Ok (elem, lanes) /\
       Forall2 (fun op lo => lower_op (Detector.name block) elem lanes op = Ok lo /\ op_elem lo = Some elem)
         (Detector.ops block) (ops bp)) as Hsucc.
  { intros bp H. unfold lower_block in H. inv_bind H. destruct a as [elem lanes]. inv_bind H. simplify_eq. simpl.
    split_and!; [done..|]. exists elem, lanes. split; [done|]. apply infer_from_agrees in E as [Hag _].
    apply lower_ops_Ok in E0. apply Forall2_same_length_lookup_2; [by eapply Forall2_length|].
    intros i op lo Hop Hi. pose proof (Forall2_lookup_lr _ _ _ _ _ _ E0 Hop Hi) as Hlo. simpl in Hlo. split; [done|].
    destruct (lower_op_Ok _ _ _ _ _ Hlo) as [_ He]. rewrite He. destruct (lane_ty op) eqn:Ht; [|done].
    f_equal. simpl. eapply Hag; [by eapply list_elem_of_lookup_2|done]. }
  split; [split|].
  - intros Hok. destruct (lower_block block) as [bp|] eqn:Hbp; [|done].
    destruct (Hsucc bp eq_refl) as (_ & _ & elem & lanes & Hsh & Hops). apply infer_from_agrees in Hsh as [Hag _]. split.
    + apply Forall_forall. intros op [i Hi]%list_elem_of_lookup.
      destruct (Forall2_lookup_l _ _ _ _ _ Hops Hi) as (lo & _ & Hlo & _). by eapply lower_op_Ok.
    + intros op e op' e' Hin He Hin' He'. by rewrite (Hag op e Hin He), (Hag op' e' Hin' He').
  - intros [Hall Hag]. unfold lower_block.
    assert (is_ok (infer_block_shape block) = true) as Hi by (apply infer_from_succeeds; [eauto|done]).
    destruct (infer_block_shape block) as [[elem lanes]|]; [|done]. simpl.
    pose proof (lower_ops_succeeds (Detector.name block) elem lanes _ Hall) as Hl.
    by destruct (lower_ops _ _ _ _).
  - intros bp (? & ? & elem & lanes & _ & ?)%Hsucc. eauto 10.
Qed.
End LowerFacts.
