(* ===== verification/PtxEmit.v ===== *)
(** * [tensor-wasm-jit/src/ptx_emit.rs]: the PTX emitter

    [PtxEmit] translates a blueprint to PTX.  The body is kept as a list of
    instructions, which [render] prints as the source's [writeln!]s do, so the
    emitted text is exact and the body can also be executed.  [Differential] is
    the CPU reference interpreter of [differential.rs], and [Ptx] executes an
    emitted body for one thread. *)

From stdpp Require Import pretty.
From S2P Require Import Prelude Core Primitives KernelCache JitDispatch Ir.

Module PtxEmit.
Import Ir.

Inductive RegClass := F | S.

#[global] Instance RegClass_eq_dec : EqDecision RegClass.
Proof. solve_decision. Defined.

#[global] Instance RegClass_countable : Countable RegClass.
Proof.
  apply (inj_countable' (fun c => match c with F => true | S => false end) (fun b : bool => if b then F else S)).
  by intros [].
Defined.

Definition for_elem (elem : ElemType) : RegClass := if is_float elem then F else S.
Definition prefix (c : RegClass) : str := match c with F => bytes_of "f" | S => bytes_of "r" end.

Inductive EmitError :=
| NotYetImplemented (what : str)
| InvalidEntryName (entry : str)
| TooManyRegisters
| EmissionBudgetExceeded (what : str).

Inductive Mnemonic := AddF32 | AddS32 | MulF32 | MulLoS32 | FmaRnF32.

Definition mnemonic_text (m : Mnemonic) : str :=
  match m with
  | AddF32 => bytes_of "add.f32" | AddS32 => bytes_of "add.s32" | MulF32 => bytes_of "mul.f32"
  | MulLoS32 => bytes_of "mul.lo.s32" | FmaRnF32 => bytes_of "fma.rn.f32"
  end.

Definition add_mnemonic (elem : ElemType) : result EmitError Mnemonic :=
  match elem with
  | F32 => Ok AddF32
  | I32 => Ok AddS32
  | _ => Err (NotYetImplemented (bytes_of "PTX add for this SIMD element width is not yet emittable"))
  end.

Definition mul_mnemonic (elem : ElemType) : result EmitError Mnemonic :=
  match elem with
  | F32 => Ok MulF32
  | I32 => Ok MulLoS32
  | _ => Err (NotYetImplemented (bytes_of "PTX mul for this SIMD element width is not yet emittable"))
  end.

Definition fma_mnemonic (elem : ElemType) : result EmitError Mnemonic :=
  match elem with
  | F32 => Ok FmaRnF32
  | _ => Err (NotYetImplemented (bytes_of "PTX fma for this SIMD element width is not yet emittable"))
  end.

Definition load_store_type (elem : ElemType) : str := if is_float elem then bytes_of "f32" else bytes_of "u32".

Definition MAX_PTX_IDENTIFIER_LEN : Z := 1024.

Definition in_range (lo hi : string) (b : u8) : bool :=
  match bytes_of lo, bytes_of hi with
  | [l], [h] => (u8_to_Z l <=? u8_to_Z b) && (u8_to_Z b <=? u8_to_Z h)
  | _, _ => false
  end.
Definition is_ascii_alphabetic (b : u8) : bool := in_range "a" "z" b || in_range "A" "Z" b.
Definition is_ascii_alphanumeric (b : u8) : bool := is_ascii_alphabetic b || in_range "0" "9" b.

Definition is_valid_ptx_identifier (s : str) : bool :=
  match s with
  | [] => false
  | first :: rest =>
      if MAX_PTX_IDENTIFIER_LEN <? Z.of_nat (length s) then false
      else if negb (is_ascii_alphabetic first || in_range "_" "_" first) then false
      else forallb (fun b => is_ascii_alphanumeric b || in_range "_" "_" b || in_range "$" "$" b) rest
  end.

Definition WMMA_OPERAND_FRAG_REGS : Z := 8.
Definition WMMA_ACC_FRAG_REGS : Z := 8.
Definition WMMA_TILE_DIM : Z := 16.
Definition MAX_LANES : Z := 1024.
Definition MAX_EMITTED_OPS : Z := 2 ^ 20.

Record EmitConfig := mkEmitConfig {
  target : str;
  ptx_version : str;
  launch_bounds : bool;
  enable_experimental_matmul : bool;
}.

Definition default_emit_config : EmitConfig := mkEmitConfig (bytes_of "sm_80") (bytes_of "8.0") true false.

(** The lines of a body; [Line] is one with nothing to execute here (comments
    and the experimental [wmma] instructions). *)
Inductive PtxInstr :=
| Line (s : str)
| Arith (m : Mnemonic) (class : RegClass) (dst : Z) (srcs : list Z)
| LdGlobal (ty : str) (class : RegClass) (dst : Z) (off : Z)
| StGlobal (ty : str) (class : RegClass) (off : Z) (src : Z)
| BarSync.

Definition nl : str := [Byte.x0a].
Definition reg (class : RegClass) (r : Z) : str := bytes_of "%" ++ prefix class ++ dec r.
Definition address (base : string) (off : Z) : str :=
  if off =? 0 then bytes_of "[" ++ bytes_of base ++ bytes_of "]"
  else bytes_of "[" ++ bytes_of base ++ bytes_of "+" ++ dec off ++ bytes_of "]".

Fixpoint join (sep : str) (l : list str) : str :=
  match l with
  | [] => []
  | [x] => x
  | x :: l => x ++ sep ++ join sep l
  end.

Definition render (i : PtxInstr) : str :=
  match i with
  | Line s => bytes_of "    " ++ s ++ nl
  | Arith m c dst srcs =>
      bytes_of "    " ++ mnemonic_text m ++ bytes_of " " ++
      join (bytes_of ", ") (map (reg c) (dst :: srcs)) ++ bytes_of ";" ++ nl
  | LdGlobal ty c dst off =>
      bytes_of "    ld.global.lu." ++ ty ++ bytes_of " " ++ reg c dst ++ bytes_of ", " ++
      address "%rd0" off ++ bytes_of ";" ++ nl
  | StGlobal ty c off src =>
      bytes_of "    st.global.cs." ++ ty ++ bytes_of " " ++ address "%rd1" off ++ bytes_of ", " ++
      reg c src ++ bytes_of ";" ++ nl
  | BarSync => bytes_of "    bar.sync 0;" ++ nl
  end.

(** [lower_body]'s variables; the value stack's top is its head. *)
Record LowerState := mkLower {
  body : list PtxInstr;
  value_stack : list Z;
  next_f : Z;
  next_r : Z;
  max_s64 : Z;
  max_b32 : Z;
  in_off : Z;
  out_off : Z;
}.

Definition init_state : LowerState := mkLower [] [] 0 1 2 0 0 0.

Definition M := stM LowerState EmitError.

Definition modify (f : LowerState -> LowerState) : M () := fun s => (Ok (), f s).

Definition writeln (i : PtxInstr) : M () :=
  modify (fun s => mkLower (body s ++ [i]) (value_stack s) (next_f s) (next_r s) (max_s64 s) (max_b32 s) (in_off s) (out_off s)).

Definition push_value (r : Z) : M () :=
  modify (fun s => mkLower (body s) (r :: value_stack s) (next_f s) (next_r s) (max_s64 s) (max_b32 s) (in_off s) (out_off s)).

Definition alloc (class : RegClass) : M Z := fun s =>
  match class with
  | F =>
      match checked_add u32_max (next_f s) 1 with
      | Some n => (Ok (next_f s), mkLower (body s) (value_stack s) n (next_r s) (max_s64 s) (max_b32 s) (in_off s) (out_off s))
      | None => (Err TooManyRegisters, s)
      end
  | S =>
      match checked_add u32_max (next_r s) 1 with
      | Some n => (Ok (next_r s), mkLower (body s) (value_stack s) (next_f s) n (max_s64 s) (max_b32 s) (in_off s) (out_off s))
      | None => (Err TooManyRegisters, s)
      end
  end.

Definition pop_or_alloc (class : RegClass) : M Z := fun s =>
  match value_stack s with
  | idx :: rest => (Ok idx, mkLower (body s) rest (next_f s) (next_r s) (max_s64 s) (max_b32 s) (in_off s) (out_off s))
  | [] => alloc class s
  end.

Definition advance_in (width : Z) : M () := fun s =>
  match checked_add u32_max (in_off s) width with
  | Some n => (Ok (), mkLower (body s) (value_stack s) (next_f s) (next_r s) (max_s64 s) (max_b32 s) n (out_off s))
  | None => (Err TooManyRegisters, s)
  end.

Definition advance_out (width : Z) : M () := fun s =>
  match checked_add u32_max (out_off s) width with
  | Some n => (Ok (), mkLower (body s) (value_stack s) (next_f s) (next_r s) (max_s64 s) (max_b32 s) (in_off s) n)
  | None => (Err TooManyRegisters, s)
  end.

(** [for _ in 0..lanes] *)
Fixpoint repeat_m (n : nat) (m : M ()) : M () :=
  match n with
  | O => mret ()
  | Datatypes.S n => m ≫= fun _ => repeat_m n m
  end.

Definition lane_comment (what : string) (elem : ElemType) (lanes : Z) (more : str) : PtxInstr :=
  Line (bytes_of "// " ++ bytes_of what ++ bytes_of "." ++ elem_name elem ++ bytes_of "[" ++ dec lanes ++
        bytes_of "] lanes" ++ more).

(** One lane of a two-operand operation. *)
Definition binary_lane (class : RegClass) (m : Mnemonic) : M () :=
  b ← pop_or_alloc class;
  a ← pop_or_alloc class;
  dst ← alloc class;
  writeln (Arith m class dst [a; b]);;
  push_value dst.

Definition fma_lane (class : RegClass) (m : Mnemonic) : M () :=
  c ← pop_or_alloc class;
  b ← pop_or_alloc class;
  a ← pop_or_alloc class;
  dst ← alloc class;
  writeln (Arith m class dst [a; b; c]);;
  push_value dst.

Definition load_lane (class : RegClass) (ld_ty : str) (width : Z) : M () :=
  dst ← alloc class;
  s ← get_state;
  writeln (LdGlobal ld_ty class dst (in_off s));;
  advance_in width;;
  push_value dst.

Definition store_lane (class : RegClass) (ld_ty : str) (width : Z) : M () :=
  src ← pop_or_alloc class;
  s ← get_state;
  writeln (StGlobal ld_ty class (out_off s) src);;
  advance_out width.

Definition frag_list (base count : Z) (prefix : string) : str :=
  bytes_of "{" ++
  join (bytes_of ", ") (map (fun i => bytes_of "%" ++ bytes_of prefix ++ dec (base + Z.of_nat i)) (seq 0 (Z.to_nat count))) ++
  bytes_of "}".

Definition lower_wmma_m16n16k16 : M () := fun s =>
  let a_frag_base := max_b32 s in
  match checked_add u32_max a_frag_base WMMA_OPERAND_FRAG_REGS with
  | None => (Err TooManyRegisters, s)
  | Some b_frag_base =>
  match checked_add u32_max b_frag_base WMMA_OPERAND_FRAG_REGS with
  | None => (Err TooManyRegisters, s)
  | Some max_b32' =>
  let acc_frag_base := next_f s in
  match checked_add u32_max acc_frag_base WMMA_ACC_FRAG_REGS with
  | None => (Err TooManyRegisters, s)
  | Some next_f' =>
  let b_base := max_s64 s in
  let c_base := b_base + 1 in
  match checked_add u32_max c_base 1 with
  | None => (Err TooManyRegisters, s)
  | Some max_s64' =>
  let stride := dec WMMA_TILE_DIM in
  let A_TILE_BYTES := WMMA_TILE_DIM * WMMA_TILE_DIM * 2 in
  let B_TILE_BYTES := WMMA_TILE_DIM * WMMA_TILE_DIM * 2 in
  let a_list := frag_list a_frag_base WMMA_OPERAND_FRAG_REGS "rb" in
  let b_list := frag_list b_frag_base WMMA_OPERAND_FRAG_REGS "rb" in
  let acc_list := frag_list acc_frag_base WMMA_ACC_FRAG_REGS "f" in
  let lines :=
    [ bytes_of "// EXPERIMENTAL / UNVERIFIED ON HARDWARE: wmma m16n16k16 (row.col, f16xf16->f32)";
      bytes_of "add.s64 %rd" ++ dec b_base ++ bytes_of ", %rd0, " ++ dec A_TILE_BYTES ++ bytes_of ";";
      bytes_of "add.s64 %rd" ++ dec c_base ++ bytes_of ", %rd0, " ++ dec (A_TILE_BYTES + B_TILE_BYTES) ++ bytes_of ";";
      bytes_of "wmma.load.a.sync.aligned.row.m16n16k16.global.f16 " ++ a_list ++ bytes_of ", [%rd0], " ++ stride ++ bytes_of ";";
      bytes_of "wmma.load.b.sync.aligned.col.m16n16k16.global.f16 " ++ b_list ++ bytes_of ", [%rd" ++ dec b_base ++ bytes_of "], " ++ stride ++ bytes_of ";";
      bytes_of "wmma.load.c.sync.aligned.row.m16n16k16.global.f32 " ++ acc_list ++ bytes_of ", [%rd" ++ dec c_base ++ bytes_of "], " ++ stride ++ bytes_of ";";
      bytes_of "wmma.mma.sync.aligned.row.col.m16n16k16.f32.f32 " ++ acc_list ++ bytes_of ", " ++ a_list ++ bytes_of ", " ++ b_list ++ bytes_of ", " ++ acc_list ++ bytes_of ";";
      bytes_of "wmma.store.d.sync.aligned.row.m16n16k16.global.f32 [%rd1], " ++ acc_list ++ bytes_of ", " ++ stride ++ bytes_of ";" ] in
  (Ok (), mkLower (body s ++ map Line lines) (value_stack s) next_f' (next_r s) max_s64' max_b32' (in_off s) (out_off s))
  end end end end.

Definition lower_op (cfg : EmitConfig) (op : TensorWasmOp) : M () :=
  match op with
  | VecAdd elem lanes =>
      let class := for_elem elem in
      writeln (lane_comment "vec_add" elem lanes []);;
      mnemonic ← lift (add_mnemonic elem);
      repeat_m (Z.to_nat lanes) (binary_lane class mnemonic)
  | VecMul elem lanes =>
      let class := for_elem elem in
      writeln (lane_comment "vec_mul" elem lanes []);;
      mnemonic ← lift (mul_mnemonic elem);
      repeat_m (Z.to_nat lanes) (binary_lane class mnemonic)
  | VecFma elem lanes =>
      if negb (is_float elem) then fail (NotYetImplemented (bytes_of "integer VecFma has no single-rounding PTX form"))
      else
        let class := for_elem elem in
        writeln (lane_comment "vec_fma" elem lanes []);;
        mnemonic ← lift (fma_mnemonic elem);
        repeat_m (Z.to_nat lanes) (fma_lane class mnemonic)
  | MatMul m n k =>
      if negb (enable_experimental_matmul cfg) then fail (NotYetImplemented (bytes_of "MatMul lowering deferred to v0.4"))
      else if bool_decide ((m, n, k) <> (WMMA_TILE_DIM, WMMA_TILE_DIM, WMMA_TILE_DIM))
      then fail (NotYetImplemented (bytes_of "experimental wmma lowering only models m16n16k16"))
      else lower_wmma_m16n16k16
  | LoadUnified elem lanes =>
      let class := for_elem elem in
      s ← get_state;
      writeln (lane_comment "load_unified" elem lanes (bytes_of " (.lu cache hint) from %rd0+" ++ dec (in_off s)));;
      repeat_m (Z.to_nat lanes) (load_lane class (load_store_type elem) (byte_width elem))
  | StoreUnified elem lanes =>
      let class := for_elem elem in
      s ← get_state;
      writeln (lane_comment "store_unified" elem lanes (bytes_of " (.cs cache hint) to %rd1+" ++ dec (out_off s)));;
      repeat_m (Z.to_nat lanes) (store_lane class (load_store_type elem) (byte_width elem))
  | Barrier => writeln BarSync
  end.

Fixpoint lower_ops (cfg : EmitConfig) (ops : list TensorWasmOp) : M () :=
  match ops with
  | [] => mret ()
  | op :: ops => lower_op cfg op ;; lower_ops cfg ops
  end.

(** The final state holds the body and the counters the header declares. *)
Definition lower_body (blueprint : TensorWasmKernelBlueprint) (cfg : EmitConfig) : result EmitError LowerState :=
  match lower_ops cfg (ops blueprint) init_state with
  | (Ok _, s) => Ok s
  | (Err e, _) => Err e
  end.

Definition max_f (s : LowerState) : Z := Z.max (next_f s) 1.
Definition max_s32 (s : LowerState) : Z := Z.max (next_r s) 1.
Definition max_pred : Z := 2.

Definition op_lanes (op : TensorWasmOp) : Z :=
  match op with
  | VecAdd _ lanes | VecMul _ lanes | VecFma _ lanes | LoadUnified _ lanes | StoreUnified _ lanes => lanes
  | MatMul _ _ _ | Barrier => 0
  end.

(** The budget loop. *)
Fixpoint check_budget (emitted_budget : Z) (ops : list TensorWasmOp) : result EmitError () :=
  match ops with
  | [] => Ok ()
  | op :: ops =>
      let lanes := op_lanes op in
      if MAX_LANES <? lanes then Err (EmissionBudgetExceeded (bytes_of "single op `lanes` exceeds MAX_LANES"))
      else
        let emitted_budget := sat_add u64_max emitted_budget lanes in
        if MAX_EMITTED_OPS <? emitted_budget
        then Err (EmissionBudgetExceeded (bytes_of "aggregate ops * lanes exceeds MAX_EMITTED_OPS"))
        else check_budget emitted_budget ops
  end.

Definition line (parts : list str) : str := concat parts ++ nl.

Definition kernel_text (blueprint : TensorWasmKernelBlueprint) (cfg : EmitConfig) (block_size : Z) (s : LowerState) : str :=
  let e := entry blueprint in
  line [bytes_of "//"] ++
  line [bytes_of "// Auto-emitted by tensor-wasm-jit::ptx_emit"] ++
  line [bytes_of "// entry: "; e] ++
  line [bytes_of "// ops:   "; dec (Z.of_nat (length (ops blueprint)))] ++
  line [bytes_of "//"] ++ line [] ++
  line [bytes_of ".version "; ptx_version cfg] ++
  line [bytes_of ".target "; target cfg] ++
  line [bytes_of ".address_size 64"] ++ line [] ++
  line [bytes_of ".visible .entry "; e; bytes_of "("] ++
  line [bytes_of "    .param .u64 "; e; bytes_of "_param_in_ptr,"] ++
  line [bytes_of "    .param .u64 "; e; bytes_of "_param_out_ptr,"] ++
  line [bytes_of "    .param .u32 "; e; bytes_of "_param_n"] ++
  line [bytes_of ")"] ++
  (if launch_bounds cfg then line [bytes_of ".maxntid "; dec block_size; bytes_of ", 1, 1"] else []) ++
  line [bytes_of "{"] ++
  line [bytes_of "    .reg .pred  %p<"; dec max_pred; bytes_of ">;"] ++
  line [bytes_of "    .reg .s32   %r<"; dec (max_s32 s); bytes_of ">;"] ++
  line [bytes_of "    .reg .s64   %rd<"; dec (max_s64 s); bytes_of ">;"] ++
  line [bytes_of "    .reg .f32   %f<"; dec (max_f s); bytes_of ">;"] ++
  (if 0 <? max_b32 s then line [bytes_of "    .reg .b32   %rb<"; dec (max_b32 s); bytes_of ">;"] else []) ++
  line [] ++
  line [bytes_of "    ld.param.u64 %rd0, ["; e; bytes_of "_param_in_ptr];"] ++
  line [bytes_of "    ld.param.u64 %rd1, ["; e; bytes_of "_param_out_ptr];"] ++
  line [bytes_of "    ld.param.u32 %r0, ["; e; bytes_of "_param_n];"] ++
  line [] ++
  (body s ≫= render) ++
  line [] ++ line [bytes_of "    ret;"] ++ line [bytes_of "}"].

Definition emit_with (blueprint : TensorWasmKernelBlueprint) (cfg : EmitConfig) : result EmitError EmittedPtx :=
  if negb (is_valid_ptx_identifier (entry blueprint)) then Err (InvalidEntryName (entry blueprint))
  else
    _ ← check_budget 0 (ops blueprint);
    let '(grid_size, block_size) := Ir.launch_geometry (grid_hint blueprint) in
    s ← lower_body blueprint cfg;
    Ok (mkPtx (kernel_text blueprint cfg block_size s) (grid_size, block_size)).

Definition emit (blueprint : TensorWasmKernelBlueprint) : result EmitError EmittedPtx :=
  emit_with blueprint default_emit_config.
End PtxEmit.

(** ** [differential.rs]: the reference the emitted code is meant to match

    The three f32 operations are arguments, on bit patterns: both sides use
    the hardware's. *)

Record F32Ops := mkF32Ops { f32_add : Z -> Z -> Z; f32_mul : Z -> Z -> Z; f32_mul_add : Z -> Z -> Z -> Z }.

Module Differential.
Import Ir.

Inductive ReferenceEvalError := UnsupportedOp | InputTooShort | StackUnderflow.

(** Stack (top last, as the source's [Vec]), output and input cursor. *)
Record RefState := mkRef { stack : list Z; output : list u8; in_cursor : Z }.

Section Eval.
Context (fops : F32Ops) (inputs : list u8).

Fixpoint load_lanes (lanes : nat) (s : RefState) : result ReferenceEvalError RefState :=
  match lanes with
  | O => Ok s
  | S lanes =>
      end_ ← ok_or InputTooShort (checked_add usize_max (in_cursor s) 4);
      if Z.of_nat (length inputs) <? end_ then Err InputTooShort
      else
        let v := from_le_bytes (slice (Z.to_nat (in_cursor s)) (Z.to_nat end_) inputs) in
        load_lanes lanes (mkRef (stack s ++ [v]) (output s) end_)
  end.

Definition pop_lane_vector (lanes : nat) (stack : list Z) : result ReferenceEvalError (list Z * list Z) :=
  if (length stack <? lanes)%nat then Err StackUnderflow
  else Ok (drop (length stack - lanes) stack, take (length stack - lanes) stack).

Definition eval_op (op : TensorWasmOp) (s : RefState) : result ReferenceEvalError RefState :=
  match op with
  | LoadUnified elem lanes =>
      if bool_decide (elem <> F32) then Err UnsupportedOp else load_lanes (Z.to_nat lanes) s
  | StoreUnified elem lanes =>
      if bool_decide (elem <> F32) then Err UnsupportedOp
      else
        '(vs, rest) ← pop_lane_vector (Z.to_nat lanes) (stack s);
        Ok (mkRef rest (output s ++ (vs ≫= to_le_bytes 4)) (in_cursor s))
  | VecAdd elem lanes =>
      if bool_decide (elem <> F32) then Err UnsupportedOp
      else
        '(b, rest) ← pop_lane_vector (Z.to_nat lanes) (stack s);
        '(a, rest) ← pop_lane_vector (Z.to_nat lanes) rest;
        Ok (mkRef (rest ++ zip_with (f32_add fops) a b) (output s) (in_cursor s))
  | VecMul elem lanes =>
      if bool_decide (elem <> F32) then Err UnsupportedOp
      else
        '(b, rest) ← pop_lane_vector (Z.to_nat lanes) (stack s);
        '(a, rest) ← pop_lane_vector (Z.to_nat lanes) rest;
        Ok (mkRef (rest ++ zip_with (f32_mul fops) a b) (output s) (in_cursor s))
  | VecFma elem lanes =>
      if bool_decide (elem <> F32) then Err UnsupportedOp
      else
        '(c, rest) ← pop_lane_vector (Z.to_nat lanes) (stack s);
        '(b, rest) ← pop_lane_vector (Z.to_nat lanes) rest;
        '(a, rest) ← pop_lane_vector (Z.to_nat lanes) rest;
        Ok (mkRef (rest ++ zip_with (fun f x => f x) (zip_with (f32_mul_add fops) a b) c) (output s) (in_cursor s))
  | Barrier => Ok s
  | MatMul _ _ _ => Err UnsupportedOp
  end.

Fixpoint eval_ops (ops : list TensorWasmOp) (s : RefState) : result ReferenceEvalError RefState :=
  match ops with
  | [] => Ok s
  | op :: ops => s ← eval_op op s; eval_ops ops s
  end.

Definition reference_eval (bp : TensorWasmKernelBlueprint) : result ReferenceEvalError (list u8) :=
  output <$> eval_ops (ops bp) (mkRef [] [] 0).
End Eval.
End Differential.

(** ** One thread of an emitted kernel

    [%rd0] is the input buffer and [%rd1] the output; registers hold bit
    patterns.  Reading a register that was never written is [None]. *)

Module Ptx.
Import PtxEmit.

Record state := mkState { regs : gmap (RegClass * Z) Z; out : list (Z * Z) }.

Section Exec.
Context (fops : F32Ops) (inputs : list u8).

Definition arith (m : Mnemonic) (vs : list Z) : option Z :=
  match m, vs with
  | AddF32, [a; b] => Some (f32_add fops a b)
  | MulF32, [a; b] => Some (f32_mul fops a b)
  | FmaRnF32, [a; b; c] => Some (f32_mul_add fops a b c)
  | AddS32, [a; b] => Some (as_u32 (a + b))
  | MulLoS32, [a; b] => Some (as_u32 (a * b))
  | _, _ => None
  end.

Definition ld (off : Z) : option Z :=
  if (0 <=? off) && (off + 4 <=? Z.of_nat (length inputs))
  then Some (from_le_bytes (slice (Z.to_nat off) (Z.to_nat off + 4) inputs)) else None.

Definition exec1 (i : PtxInstr) (m : state) : option state :=
  match i with
  | Line _ | BarSync => Some m
  | Arith mn c dst srcs =>
      vs ← mapM (fun r => regs m !! (c, r)) srcs;
      v ← arith mn vs;
      Some (mkState (<[(c, dst) := v]> (regs m)) (out m))
  | LdGlobal _ c dst off => v ← ld off; Some (mkState (<[(c, dst) := v]> (regs m)) (out m))
  | StGlobal _ c off src => v ← regs m !! (c, src); Some (mkState (regs m) (out m ++ [(off, v)]))
  end.

Fixpoint exec (body : list PtxInstr) (m : state) : option state :=
  match body with
  | [] => Some m
  | i :: body => m ← exec1 i m; exec body m
  end.

Definition run_kernel (body : list PtxInstr) : option (list (Z * Z)) := out <$> exec body (mkState ∅ []).
End Exec.
End Ptx.

Module EmitFacts.
Import Ir PtxEmit.

(** [m] from a state in [P] either fails or ends in [Q]. *)
Definition triple {A} (P : LowerState -> Prop) (m : M A) (Q : A -> LowerState -> Prop) : Prop :=
  forall s, P s -> match m s with (Ok a, s') => Q a s' | (Err _, _) => True end.

Lemma triple_bind {A B} P (m : M A) (f : A -> M B) Q R :
  triple P m Q -> (forall a, triple (Q a) (f a) R) -> triple P (m ≫= f) R.
Proof.
  intros Hm Hf s Hs. specialize (Hm s Hs). unfold mbind, stM_bind. destruct (m s) as [[a|e] s']; [|done].
  by apply Hf.
Qed.

Lemma triple_repeat P m n : triple P m (fun _ => P) -> triple P (repeat_m n m) (fun _ => P).
Proof. intros Hm. induction n as [|n IH]; [by intros s|]. simpl. eapply triple_bind; [exact Hm|]. intros a. exact IH. Qed.

(** Registers an instruction writes and reads. *)
Definition dst_of (i : PtxInstr) : option (RegClass * Z) :=
  match i with Arith _ c d _ | LdGlobal _ c d _ => Some (c, d) | _ => None end.

Definition regs_of (i : PtxInstr) : list (RegClass * Z) :=
  match i with
  | Arith _ c d srcs => map (pair c) (d :: srcs)
  | LdGlobal _ c d _ => [(c, d)]
  | StGlobal _ c _ r => [(c, r)]
  | _ => []
  end.

Definition next_of (c : RegClass) (s : LowerState) : Z := match c with F => next_f s | S => next_r s end.
Definition first_of (c : RegClass) : Z := match c with F => 0 | S => 1 end.

Definition declared (s : LowerState) (cr : RegClass * Z) : Prop := first_of cr.1 <= cr.2 < next_of cr.1 s.

(** A body in which everything named was allocated in class [c], and every
    destination is fresh. *)
Record alloc_ok (c : RegClass) (s : LowerState) : Prop := {
  ao_stack : Forall (fun r => declared s (c, r)) (value_stack s);
  ao_regs : Forall (Forall (declared s)) (map regs_of (body s));
  ao_class : Forall (Forall (fun cr => cr.1 = c)) (map regs_of (body s));
  ao_dsts : NoDup (omap dst_of (body s));
  ao_next : first_of c <= next_of c s;
}.

Lemma declared_mono s s' cr :
  (forall c, next_of c s <= next_of c s') -> declared s cr -> declared s' cr.
Proof. unfold declared. intros Hle [? ?]. specialize (Hle cr.1). lia. Qed.

(** Counters only grow and the body is kept. *)
Lemma alloc_ok_grow c s s' :
  alloc_ok c s -> (forall c, next_of c s <= next_of c s') -> body s' = body s ->
  Forall (fun r => declared s' (c, r)) (value_stack s') -> alloc_ok c s'.
Proof.
  intros [Hst Hr Hc Hd Hn] Hle Hb Hst'. constructor; rewrite ?Hb; try done.
  - eapply Forall_impl; [exact Hr|]. intros l Hl. eapply Forall_impl; [exact Hl|]. intros cr. by apply declared_mono.
  - specialize (Hle c). lia.
Qed.

Lemma dsts_declared c s : alloc_ok c s -> Forall (declared s) (omap dst_of (body s)).
Proof.
  intros [_ Hr _ _ _]. apply Forall_forall. intros cr Hcr. apply list_elem_of_omap in Hcr as (i & Hi & Hd).
  rewrite Forall_map, Forall_forall in Hr. specialize (Hr i Hi).
  destruct i; simplify_eq/=; inversion Hr; subst; done.
Qed.

(** Registers kept aside while more are allocated. *)
Definition holding (c : RegClass) (rs : list Z) (s : LowerState) : Prop :=
  alloc_ok c s /\ Forall (fun r => declared s (c, r)) rs.

Lemma alloc_triple c rs :
  triple (holding c rs) (alloc c) (fun r s => holding c (r :: rs) s /\ (c, r) ∉ omap dst_of (body s)).
Proof.
  intros s [Hok Hrs]. pose proof (dsts_declared c s Hok) as Hds.
  assert (forall s' r, r = next_of c s -> body s' = body s -> value_stack s' = value_stack s ->
            next_of c s' = next_of c s + 1 -> (forall c', next_of c' s <= next_of c' s') ->
            holding c (r :: rs) s' /\ (c, r) ∉ omap dst_of (body s')) as Hgo.
  { intros s' r -> Hb Hst Hn Hle. pose proof (ao_next _ _ Hok). split; [split|].
    - eapply alloc_ok_grow; [done..|]. rewrite Hst. eapply Forall_impl; [exact (ao_stack _ _ Hok)|].
      intros q. by apply declared_mono.
    - constructor; [unfold declared; simpl; lia|]. eapply Forall_impl; [exact Hrs|]. intros q. by apply declared_mono.
    - rewrite Hb. intros Hin. rewrite Forall_forall in Hds. specialize (Hds _ Hin). unfold declared in Hds. simpl in Hds. lia. }
  unfold alloc. destruct c; destruct (checked_add _ _ _) eqn:Hc; try done; bool_props; subst;
    (apply Hgo; simpl; [done..|intros []; simpl; lia]).
Qed.

Lemma pop_triple c rs : triple (holding c rs) (pop_or_alloc c) (fun r => holding c (r :: rs)).
Proof.
  intros s Hok. unfold pop_or_alloc. destruct (value_stack s) as [|r rest] eqn:Hst.
  - pose proof (alloc_triple c rs s Hok) as H. destruct (alloc c s) as [[r|] s']; [|done]. tauto.
  - destruct Hok as [[Hs Hr Hc Hd Hn] Hrs]. rewrite Hst in Hs. inversion_clear Hs. split; [by constructor|by constructor].
Qed.

(** Writing an instruction over registers at hand. *)
Lemma write_triple c rs i :
  Forall (fun cr => cr.1 = c /\ cr.2 ∈ rs) (regs_of i) ->
  triple (fun s => holding c rs s /\ (forall d, dst_of i = Some d -> d ∉ omap dst_of (body s)))
    (writeln i) (fun _ => holding c rs).
Proof.
  intros Hi s [[[Hst Hr Hc Hd Hn] Hrs] Hfresh]. unfold writeln, modify. split; [|done].
  rewrite Forall_forall in Hrs. constructor; simpl; rewrite ?map_app, ?Forall_app; try done.
  - split; [done|]. repeat constructor. eapply Forall_impl; [exact Hi|]. intros [c' r] [? Hin]. simpl in *. subst. by apply Hrs.
  - split; [done|]. repeat constructor. eapply Forall_impl; [exact Hi|]. by intros ? [? _].
  - rewrite omap_app. simpl. destruct (dst_of i) as [d|] eqn:Hdi; [|by rewrite app_nil_r].
    apply NoDup_app. split_and!; [done| |apply NoDup_singleton].
    intros x Hx ->%list_elem_of_singleton. by eapply Hfresh.
Qed.

Lemma push_triple c r rs : triple (holding c (r :: rs)) (push_value r) (fun _ => alloc_ok c).
Proof. intros s [[? ? ? ? ?] Hrs]. inversion_clear Hrs. constructor; try done. by constructor. Qed.

Lemma offset_triple c rs (m : M ()) :
  (forall s, match m s with
             | (Ok _, s') => body s' = body s /\ value_stack s' = value_stack s /\ next_f s' = next_f s /\ next_r s' = next_r s
             | _ => True
             end) ->
  triple (holding c rs) m (fun _ => holding c rs).
Proof.
  intros Hm s [Hok Hrs]. specialize (Hm s). destruct (m s) as [[?|?] s']; [|done]. destruct Hm as (Hb & Hv & Hf & Hr).
  assert (forall c', next_of c' s <= next_of c' s') as Hle by (intros []; simpl; lia).
  split.
  - eapply alloc_ok_grow; [done..|]. rewrite Hv. eapply Forall_impl; [exact (ao_stack _ _ Hok)|]. intros q. by apply declared_mono.
  - eapply Forall_impl; [exact Hrs|]. intros q. by apply declared_mono.
Qed.

Lemma triple_weaken {A} (P P' : LowerState -> Prop) (m : M A) (Q Q' : A -> LowerState -> Prop) :
  triple P m Q -> (forall s, P' s -> P s) -> (forall a s, Q a s -> Q' a s) -> triple P' m Q'.
Proof. intros Hm HP HQ s Hs. specialize (Hm s (HP s Hs)). destruct (m s) as [[a|] s']; eauto. Qed.

Lemma get_triple (P : LowerState -> Prop) : triple P get_state (fun _ => P).
Proof. by intros s Hs. Qed.

Lemma holding_nil c s : alloc_ok c s -> holding c [] s.
Proof. by split. Qed.

Ltac lane := eapply triple_weaken; [|apply holding_nil|intros ? ? H; exact H].

Lemma binary_lane_ok c m : triple (alloc_ok c) (binary_lane c m) (fun _ => alloc_ok c).
Proof.
  lane. eapply triple_bind; [apply pop_triple|intros b]. eapply triple_bind; [apply pop_triple|intros a].
  eapply triple_bind; [apply alloc_triple|intros d].
  eapply triple_bind; [|intros ?; apply push_triple].
  eapply triple_weaken; [apply (write_triple c [d; a; b])| |by intros ? ? H; exact H].
  - simpl. repeat constructor; simpl; set_solver.
  - intros s [? ?]. split; [done|]. by intros ? [= <-].
Qed.

Lemma fma_lane_ok c m : triple (alloc_ok c) (fma_lane c m) (fun _ => alloc_ok c).
Proof.
  lane. eapply triple_bind; [apply pop_triple|intros c0]. eapply triple_bind; [apply pop_triple|intros b].
  eapply triple_bind; [apply pop_triple|intros a]. eapply triple_bind; [apply alloc_triple|intros d].
  eapply triple_bind; [|intros ?; apply push_triple].
  eapply triple_weaken; [apply (write_triple c [d; a; b; c0])| |by intros ? ? H; exact H].
  - simpl. repeat constructor; simpl; set_solver.
  - intros s [? ?]. split; [done|]. by intros ? [= <-].
Qed.

Lemma load_lane_ok c ty w : triple (alloc_ok c) (load_lane c ty w) (fun _ => alloc_ok c).
Proof.
  lane. eapply triple_bind; [apply alloc_triple|intros d]. eapply triple_bind; [apply get_triple|intros st].
  eapply triple_bind; [|intros ?; eapply triple_bind; [|intros ?; apply (push_triple c d [])]].
  - eapply triple_weaken; [apply (write_triple c [d])| |by intros ? ? H; exact H].
    + simpl. repeat constructor; simpl; set_solver.
    + intros s [? ?]. split; [done|]. by intros ? [= <-].
  - apply (offset_triple c [d]). intros s. unfold advance_in. by destruct (checked_add _ _ _).
Qed.

Lemma store_lane_ok c ty w : triple (alloc_ok c) (store_lane c ty w) (fun _ => alloc_ok c).
Proof.
  lane. eapply triple_bind; [apply pop_triple|intros r]. eapply triple_bind; [apply get_triple|intros st].
  eapply triple_bind.
  - eapply triple_weaken; [apply (write_triple c [r])| |by intros ? ? H; exact H].
    + simpl. repeat constructor; simpl; set_solver.
    + intros s ?. split; [done|]. by intros ?.
  - intros ?. eapply triple_weaken; [apply (offset_triple c [r])|done|by intros ? s [? _]].
    intros s. unfold advance_out. by destruct (checked_add _ _ _).
Qed.

Lemma line_ok c l : triple (alloc_ok c) (writeln (Line l)) (fun _ => alloc_ok c).
Proof.
  eapply triple_weaken; [apply (write_triple c [])| |by intros ? ? [? _]]; [constructor|].
  intros s Hs. split; [by apply holding_nil|done].
Qed.

Lemma barrier_ok c : triple (alloc_ok c) (writeln BarSync) (fun _ => alloc_ok c).
Proof.
  eapply triple_weaken; [apply (write_triple c [])| |by intros ? ? [? _]]; [constructor|].
  intros s Hs. split; [by apply holding_nil|done].
Qed.

Lemma wmma_ok c : triple (alloc_ok c) lower_wmma_m16n16k16 (fun _ => alloc_ok c).
Proof.
  intros s [Hst Hr Hc Hd Hn]. unfold lower_wmma_m16n16k16.
  destruct (checked_add u32_max (max_b32 s) _) as [b1|] eqn:E1; [|done].
  destruct (checked_add u32_max b1 _) as [b2|] eqn:E2; [|done].
  destruct (checked_add u32_max (next_f s) _) as [f'|] eqn:E3; [|done].
  destruct (checked_add u32_max (max_s64 s + 1) 1) as [m'|] eqn:E4; [|done].
  bool_props. unfold WMMA_ACC_FRAG_REGS in *. set (lines := [_; _; _; _; _; _; _; _]). clearbody lines.
  assert (forall l, map regs_of (map Line l) = replicate (length l) []) as Hl
    by (induction l as [|x l IH]; simpl; [done|by rewrite IH]).
  assert (forall l, omap dst_of (map Line l) = []) as Hol by (induction l as [|x l IH]; simpl; done).
  match goal with |- alloc_ok c ?s' => assert (forall cr, declared s cr -> declared s' cr) as Hmono end.
  { intros cr. apply declared_mono. intros []; simpl; lia. }
  constructor; simpl; rewrite ?map_app, ?Hl, ?Forall_app, ?omap_app, ?Hol, ?app_nil_r; try done.
  - eapply Forall_impl; [exact Hst|]. intros q. apply Hmono.
  - split; [|apply Forall_replicate; constructor]. eapply Forall_impl; [exact Hr|]. intros l Hq.
    eapply Forall_impl; [exact Hq|]. apply Hmono.
  - split; [done|apply Forall_replicate; constructor].
  - destruct c; simpl in *; lia.
Qed.

Lemma lift_triple {A} (P : LowerState -> Prop) (r : result EmitError A) : triple P (lift r) (fun _ => P).
Proof. intros s Hs. unfold lift. by destruct r. Qed.

Lemma fail_triple {A} (P : LowerState -> Prop) e Q : triple P (fail (A := A) e) Q.
Proof. by intros s Hs. Qed.

Lemma lower_op_ok cfg c op :
  (forall e, LowerFacts.op_elem op = Some e -> for_elem e = c) ->
  triple (alloc_ok c) (lower_op cfg op) (fun _ => alloc_ok c).
Proof.
  intros Hc. destruct op; simpl in *; try rewrite (Hc _ eq_refl).
  1, 2: (eapply triple_bind; [apply line_ok|intros ?]; eapply triple_bind; [apply lift_triple|intros m];
    apply triple_repeat, binary_lane_ok).
  - case_match; [apply fail_triple|]. eapply triple_bind; [apply line_ok|intros ?].
    eapply triple_bind; [apply lift_triple|intros mn]. apply triple_repeat, fma_lane_ok.
  - case_match; [apply fail_triple|]. case_match; [apply fail_triple|apply wmma_ok].
  - eapply triple_bind; [apply get_triple|intros st]. eapply triple_bind; [apply line_ok|intros ?].
    apply triple_repeat, load_lane_ok.
  - eapply triple_bind; [apply get_triple|intros st]. eapply triple_bind; [apply line_ok|intros ?].
    apply triple_repeat, store_lane_ok.
  - apply barrier_ok.
Qed.

Lemma lower_ops_ok cfg c ops :
  Forall (fun op => forall e, LowerFacts.op_elem op = Some e -> for_elem e = c) ops ->
  triple (alloc_ok c) (lower_ops cfg ops) (fun _ => alloc_ok c).
Proof.
  induction 1 as [|op ops Hop _ IH]; [by intros s|]. simpl.
  eapply triple_bind; [by apply lower_op_ok|intros ?; exact IH].
Qed.

(** the emitted body is well-formed PTX for every blueprint of one
    register class (as [lower_block] produces): it only names registers its
    header declares, never the reserved [%r0], and writes each register at
    most once, so no two values share a register. *)
Theorem emitted_registers_sound bp cfg s c :
  Forall (fun op => forall e, LowerFacts.op_elem op = Some e -> for_elem e = c) (ops bp) ->
  lower_body bp cfg = Ok s ->
  NoDup (omap dst_of (body s)) /\
  forall i cr, i ∈ body s -> cr ∈ regs_of i ->
    cr.1 = c /\ first_of c <= cr.2 < match c with F => max_f s | S => max_s32 s end.
Proof.
  intros Hops Hbody. unfold lower_body in Hbody.
  pose proof (lower_ops_ok cfg c (ops bp) Hops init_state) as Hok.
  destruct (lower_ops cfg (ops bp) init_state) as [[?|?] s']; simplify_eq.
  destruct Hok as [Hst Hr Hc Hd Hn]; [by destruct c; repeat constructor|].
  split; [done|]. intros i cr Hi Hcr. rewrite !Forall_map, !Forall_forall in Hr, Hc.
  specialize (Hr i Hi). specialize (Hc i Hi). rewrite Forall_forall in Hr, Hc.
  specialize (Hr cr Hcr). specialize (Hc cr Hcr). split; [done|]. unfold declared in Hr. rewrite Hc in Hr.
  unfold max_f, max_s32. destruct c; simpl in *; lia.
Qed.

Lemma emitted_registers_sound_witness :
  let bp := push (StoreUnified I32 1) (push (VecAdd I32 1) (push (LoadUnified I32 1) (push (LoadUnified I32 1) (blueprint_new (bytes_of "k"))))) in
  match lower_body bp default_emit_config with
  | Ok s => max_s32 s = 4 /\ omap dst_of (body s) = [(S, 1); (S, 2); (S, 3)] /\ NoDup (omap dst_of (body s))
  | Err _ => False
  end.
Proof.
  intros bp. destruct (lower_body bp default_emit_config) as [s|] eqn:Hs; [|vm_compute in Hs; discriminate].
  split_and!; [vm_compute in Hs; by injection Hs as <-..|].
  apply (emitted_registers_sound bp default_emit_config s S); [|done].
  repeat constructor; intros e; simpl; by intros [= <-].
Defined.
End EmitFacts.

(** ** The emitted code against the reference *)

Module OracleFacts.
Import Ir PtxEmit Differential Ptx.

Section Sim.
Context (fops : F32Ops) (inputs : list u8).
Abbreviation exec := (exec fops inputs).
Abbreviation eval_op := (eval_op fops inputs).

Lemma exec_app b1 b2 m : exec (b1 ++ b2) m = exec b1 m ≫= exec b2.
Proof.
  revert m. induction b1 as [|i b1 IH]; intros m; simpl; [done|].
  destruct (exec1 fops inputs i m); simpl; [apply IH|done].
Qed.

(** The registers on the emitter's stack hold the reference's stack, the
    cursors agree, and the stores so far are the reference's output. *)
Record sim (s : LowerState) (r : RefState) (m : state) : Prop := {
  sim_exec : exec (body s) (mkState ∅ []) = Some m;
  sim_stack : Forall2 (fun idx v => regs m !! (F, idx) = Some v) (value_stack s) (rev (stack r));
  sim_fresh : Forall (fun idx => idx < next_f s) (value_stack s);
  sim_in : in_off s = in_cursor r /\ 0 <= in_off s;
  sim_out : output r = out m ≫= (fun p => to_le_bytes 4 p.2);
  sim_offs : (forall i p, out m !! i = Some p -> p.1 = 4 * Z.of_nat i) /\ out_off s = 4 * Z.of_nat (length (out m));
}.

(** Operations on single lanes of f32. *)
Definition scalar (op : TensorWasmOp) : Prop :=
  match op with
  | VecAdd e l | VecMul e l | VecFma e l | LoadUnified e l | StoreUnified e l => e = F32 /\ l = 1
  | Barrier => True
  | MatMul _ _ _ => False
  end.

Lemma pop_one stack vs rest :
  pop_lane_vector 1 stack = Ok (vs, rest) -> exists v, vs = [v] /\ stack = rest ++ [v].
Proof.
  unfold pop_lane_vector. case_match eqn:Hl; [done|]. intros [= <- <-]. apply Nat.ltb_ge in Hl.
  destruct (last stack) as [v|] eqn:Hv; [|apply last_None in Hv; subst; simpl in Hl; lia].
  apply last_Some in Hv as [l ->]. rewrite length_app. simpl. rewrite Nat.add_sub, drop_app_length, take_app_length. eauto.
Qed.

Lemma fresh_lookup (m : state) vs n v l :
  Forall (fun idx => idx < n) vs ->
  Forall2 (fun idx x => regs m !! (F, idx) = Some x) vs l ->
  Forall2 (fun idx x => (<[(F, n) := v]> (regs m)) !! (F, idx) = Some x) vs l.
Proof.
  intros Hfr H. induction H as [|idx x vs l Hx H IH]; [constructor|]. inversion_clear Hfr.
  constructor; [|by apply IH]. rewrite lookup_insert_ne; [done|]. intros [=]. lia.
Qed.

(** A computed register goes on top of both stacks. *)
Lemma sim_push s r m i v s' rest vs line :
  sim s r m -> exec1 fops inputs i m = Some (mkState (<[(F, next_f s) := v]> (regs m)) (out m)) ->
  body s' = (body s ++ [Line line]) ++ [i] -> value_stack s' = next_f s :: vs -> next_f s' = next_f s + 1 ->
  Forall2 (fun idx x => regs m !! (F, idx) = Some x) vs (rev rest) -> Forall (fun idx => idx < next_f s) vs ->
  out_off s' = out_off s -> forall r', stack r' = rest ++ [v] -> output r' = output r ->
  in_off s' = in_cursor r' -> 0 <= in_off s' ->
  sim s' r' (mkState (<[(F, next_f s) := v]> (regs m)) (out m)).
Proof.
  intros [He Hst Hfr Hin Hout Hoff] Hi Hb Hv Hn Hvs Hvfr Ho r' Hs' Ho' Hc Hc0. constructor; simpl.
  - rewrite Hb, !exec_app, He. simpl. by rewrite Hi.
  - rewrite Hv, Hs', rev_app_distr. simpl. constructor; [by rewrite lookup_insert_eq|]. by apply fresh_lookup.
  - rewrite Hv, Hn. constructor; [lia|]. eapply Forall_impl; [exact Hvfr|]. simpl. lia.
  - done.
  - by rewrite Ho'.
  - by rewrite Ho.
Qed.

Ltac run_m :=
  cbv [binary_lane fma_lane load_lane store_lane pop_or_alloc alloc writeln modify push_value get_state
       advance_in advance_out mbind stM_bind]; cbn.

(** Lanes on a stack deep enough. *)
Lemma binary_lane_run mn s b a vs u s' :
  value_stack s = b :: a :: vs -> binary_lane F mn s = (Ok u, s') ->
  s' = mkLower (body s ++ [Arith mn F (next_f s) [a; b]]) (next_f s :: vs) (next_f s + 1) (next_r s)
         (max_s64 s) (max_b32 s) (in_off s) (out_off s).
Proof.
  destruct s as [bd st nf nr ms mb io oo]. simpl. intros ->. run_m. destruct (checked_add u32_max nf 1) as [n|] eqn:Hn; cbn; [|done].
  intros [= _ <-]. bool_props. by subst n.
Qed.

Lemma fma_lane_run mn s c b a vs u s' :
  value_stack s = c :: b :: a :: vs -> fma_lane F mn s = (Ok u, s') ->
  s' = mkLower (body s ++ [Arith mn F (next_f s) [a; b; c]]) (next_f s :: vs) (next_f s + 1) (next_r s)
         (max_s64 s) (max_b32 s) (in_off s) (out_off s).
Proof.
  destruct s as [bd st nf nr ms mb io oo]. simpl. intros ->. run_m. destruct (checked_add u32_max nf 1) as [n|] eqn:Hn; cbn; [|done].
  intros [= _ <-]. bool_props. by subst n.
Qed.

Lemma load_lane_run ty w s u s' :
  load_lane F ty w s = (Ok u, s') ->
  s' = mkLower (body s ++ [LdGlobal ty F (next_f s) (in_off s)]) (next_f s :: value_stack s) (next_f s + 1) (next_r s)
         (max_s64 s) (max_b32 s) (in_off s + w) (out_off s).
Proof.
  destruct s as [bd st nf nr ms mb io oo]. run_m. destruct (checked_add u32_max nf 1) as [n|] eqn:Hn; cbn; [|done].
  destruct (checked_add u32_max io w) as [k|] eqn:Hk; cbn; [|done].
  intros [= _ <-]. bool_props. by subst n k.
Qed.

Lemma store_lane_run ty w s r vs u s' :
  value_stack s = r :: vs -> store_lane F ty w s = (Ok u, s') ->
  s' = mkLower (body s ++ [StGlobal ty F (out_off s) r]) vs (next_f s) (next_r s)
         (max_s64 s) (max_b32 s) (in_off s) (out_off s + w).
Proof.
  destruct s as [bd st nf nr ms mb io oo]. simpl. intros ->. run_m.
  destruct (checked_add u32_max oo w) as [k|] eqn:Hk; cbn; [|done]. intros [= _ <-]. bool_props. by subst k.
Qed.

(** [repeat_m 1]. *)
Lemma repeat_one (m : M ()) s u s' : repeat_m 1 m s = (Ok u, s') -> exists u, m s = (Ok u, s').
Proof. simpl. unfold mbind, stM_bind. destruct (m s) as [[?|?] ?]; [|done]. intros [= _ <-]. eauto. Qed.

(** The state after the comment line. *)
Definition commented (s : LowerState) (l : str) : LowerState :=
  mkLower (body s ++ [Line l]) (value_stack s) (next_f s) (next_r s) (max_s64 s) (max_b32 s) (in_off s) (out_off s).

(** Two operands, in the reference and in registers. *)
Lemma two_operands s r m bs as_ rest1 rest2 :
  sim s r m -> pop_lane_vector 1 (stack r) = Ok (bs, rest1) -> pop_lane_vector 1 rest1 = Ok (as_, rest2) ->
  exists a b ia ib vs, bs = [b] /\ as_ = [a] /\ value_stack s = ib :: ia :: vs /\
    regs m !! (F, ia) = Some a /\ regs m !! (F, ib) = Some b /\
    Forall2 (fun idx x => regs m !! (F, idx) = Some x) vs (rev rest2) /\ Forall (fun idx => idx < next_f s) vs.
Proof.
  intros [_ Hst Hfr _ _ _] (b & -> & Hs1)%pop_one (a & -> & ->)%pop_one.
  rewrite Hs1, !rev_app_distr in Hst. simpl in Hst.
  inversion Hst as [|ib ? vs1 ? Hb Hst1 Hv1]; subst. inversion Hst1 as [|ia ? vs ? Ha Hvs]; subst.
  rewrite <-Hv1 in Hfr. apply Forall_cons in Hfr as [_ Hfr]. apply Forall_cons in Hfr as [_ Hfr].
  exists a, b, ia, ib, vs. done.
Qed.

Lemma binary_sim mn f line s r m u s' bs as_ rest1 rest2 :
  sim s r m -> pop_lane_vector 1 (stack r) = Ok (bs, rest1) -> pop_lane_vector 1 rest1 = Ok (as_, rest2) ->
  (forall a b, arith fops mn [a; b] = Some (f a b)) ->
  binary_lane F mn (commented s line) = (Ok u, s') ->
  exists m', sim s' (mkRef (rest2 ++ zip_with f as_ bs) (output r) (in_cursor r)) m'.
Proof.
  intros Hsim H1 H2 Hf Hl. destruct (two_operands _ _ _ _ _ _ _ Hsim H1 H2) as (a & b & ia & ib & vs & -> & -> & Hv & Ha & Hb & Hvs & Hfr).
  apply (binary_lane_run mn _ ib ia vs) in Hl as ->; [|done]. destruct (sim_in _ _ _ Hsim).
  eexists. eapply sim_push; [exact Hsim| |reflexivity..|exact Hvs|done|done|reflexivity|done|done|done].
  simpl. rewrite Ha, Hb. simpl. by rewrite Hf.
Qed.

Lemma fma_sim line s r m u s' cs bs as_ rest1 rest2 rest3 :
  sim s r m -> pop_lane_vector 1 (stack r) = Ok (cs, rest1) -> pop_lane_vector 1 rest1 = Ok (bs, rest2) ->
  pop_lane_vector 1 rest2 = Ok (as_, rest3) ->
  fma_lane F FmaRnF32 (commented s line) = (Ok u, s') ->
  exists m', sim s' (mkRef (rest3 ++ zip_with (fun f x => f x) (zip_with (f32_mul_add fops) as_ bs) cs)
                       (output r) (in_cursor r)) m'.
Proof.
  intros Hsim H1 H2 (a & -> & Hr2)%pop_one Hl.
  destruct (two_operands _ _ _ _ _ _ _ Hsim H1 H2) as (b & c & ib & ic & vs1 & -> & -> & Hv & Hb & Hc & Hvs & Hfr).
  rewrite Hr2, rev_app_distr in Hvs. inversion Hvs as [|ia ? vs ? Ha Hvs']; subst. apply Forall_cons in Hfr as [_ Hfr].
  apply (fma_lane_run FmaRnF32 _ ic ib ia vs) in Hl as ->; [|done]. destruct (sim_in _ _ _ Hsim).
  eexists. eapply sim_push; [exact Hsim| |reflexivity..|exact Hvs'|done|done|reflexivity|done|done|done].
  simpl. by rewrite Ha, Hb, Hc.
Qed.

Lemma load_sim line s r m u s' r' :
  sim s r m -> load_lanes inputs 1 r = Ok r' ->
  load_lane F (load_store_type F32) 4 (commented s line) = (Ok u, s') -> exists m', sim s' r' m'.
Proof.
  intros Hsim Hr Hl. apply load_lane_run in Hl as ->. pose proof Hsim as [_ Hst Hfr [Hin Hin0] _ _].
  simpl in Hr. inv_bind Hr. destruct (checked_add usize_max (in_cursor r) 4) as [e|] eqn:He; simplify_eq/=. bool_props. subst.
  destruct (_ <? _) eqn:Hlt; simplify_eq. bool_props. rewrite <-Hin in *.
  eexists. eapply sim_push; [exact Hsim| |reflexivity..|exact Hst|exact Hfr|reflexivity|reflexivity|done|simpl; lia|simpl; lia].
  simpl. unfold ld. rewrite (proj2 (Z.leb_le 0 _)), (proj2 (Z.leb_le (_ + 4) _)) by lia. simpl.
  by replace (Z.to_nat (in_off s + 4)) with (Z.to_nat (in_off s) + 4)%nat by lia.
Qed.

Lemma store_sim line s r m u s' vs rest :
  sim s r m -> pop_lane_vector 1 (stack r) = Ok (vs, rest) ->
  store_lane F (load_store_type F32) 4 (commented s line) = (Ok u, s') ->
  exists m', sim s' (mkRef rest (output r ++ (vs ≫= to_le_bytes 4)) (in_cursor r)) m'.
Proof.
  intros Hsim (v & -> & Hr)%pop_one Hl. pose proof Hsim as [He Hst Hfr Hin Hout [Hoff Hoo]].
  rewrite Hr, rev_app_distr in Hst. inversion Hst as [|ir ? rs ? Hv Hrs Hvs]; subst.
  rewrite <-Hvs in Hfr. apply Forall_cons in Hfr as [_ Hfr].
  apply (store_lane_run _ _ _ ir rs) in Hl as ->; [|done]. exists (mkState (regs m) (out m ++ [(out_off s, v)])).
  constructor; simpl; [|done|done|done| |split].
  - rewrite !exec_app, He. simpl. by rewrite Hv.
  - by rewrite bind_app, <-Hout.
  - intros i p [Hi | [Hi Hp]]%lookup_app_Some; [by apply Hoff|].
    apply list_lookup_singleton_Some in Hp as [? <-]. simpl. rewrite Hoo. lia.
  - rewrite length_app, Hoo. simpl. lia.
Qed.

Lemma lower_op_sim cfg op s r m u s' r' :
  scalar op -> sim s r m -> eval_op op r = Ok r' -> lower_op cfg op s = (Ok u, s') -> exists m', sim s' r' m'.
Proof.
  intros Hsc Hsim He Hl.
  destruct op; simpl in Hsc; try done; try match type of Hsc with _ /\ _ => destruct Hsc as [-> ->] end; simpl in He.
  - inv_bind He. destruct a as [bs rest1]. inv_bind He. destruct a as [as_ rest2]. simplify_eq.
    apply (repeat_one (binary_lane F AddF32) (commented s _)) in Hl as [u' Hl].
    by eapply (binary_sim AddF32 (f32_add fops)).
  - inv_bind He. destruct a as [bs rest1]. inv_bind He. destruct a as [as_ rest2]. simplify_eq.
    apply (repeat_one (binary_lane F MulF32) (commented s _)) in Hl as [u' Hl].
    by eapply (binary_sim MulF32 (f32_mul fops)).
  - inv_bind He. destruct a as [cs rest1]. inv_bind He. destruct a as [bs rest2]. inv_bind He. destruct a as [as_ rest3].
    simplify_eq. unfold lower_op in Hl. cbn [is_float negb] in Hl.
    apply (repeat_one (fma_lane F FmaRnF32) (commented s _)) in Hl as [u' Hl]. by eapply fma_sim.
  - apply (repeat_one (load_lane F (load_store_type F32) 4) (commented s _)) in Hl as [u' Hl]. by eapply load_sim.
  - inv_bind He. destruct a as [vs rest]. simplify_eq.
    apply (repeat_one (store_lane F (load_store_type F32) 4) (commented s _)) in Hl as [u' Hl]. by eapply store_sim.
  - injection He as <-. injection Hl as _ <-. destruct Hsim as [Hex ? ? ? ? ?]. exists m. constructor; simpl; try done.
    by rewrite exec_app, Hex.
Qed.

Lemma lower_ops_sim cfg ops s r m u s' r' :
  Forall scalar ops -> sim s r m -> eval_ops fops inputs ops r = Ok r' -> lower_ops cfg ops s = (Ok u, s') ->
  exists m', sim s' r' m'.
Proof.
  intros Hsc. revert s r m. induction Hsc as [|op ops Hop _ IH]; intros s r m Hsim He Hl; simpl in He, Hl.
  { injection He as <-. injection Hl as _ <-. eauto. }
  inv_bind He. unfold mbind, stM_bind in Hl. destruct (lower_op cfg op s) as [[u1|] s1] eqn:Hl1; [|done].
  destruct (lower_op_sim _ _ _ _ _ _ _ _ Hop Hsim E Hl1) as [m1 Hsim1]. by eapply IH.
Qed.
End Sim.

(** C14: on blueprints of single-lane f32 operations, the emitted PTX computes
    what the CPU reference interpreter computes: whenever the reference
    accepts the input, the thread reads only registers it has written and
    only input bytes that exist, and its stores are the reference's output,
    word by word at consecutive offsets. *)
Theorem emitted_code_matches_reference fops bp cfg s inputs output :
  Forall scalar (ops bp) ->
  lower_body bp cfg = Ok s -> reference_eval fops inputs bp = Ok output ->
  exists stores, run_kernel fops inputs (body s) = Some stores /\
    (stores ≫= fun p => to_le_bytes 4 p.2) = output /\
    forall i p, stores !! i = Some p -> p.1 = 4 * Z.of_nat i.
Proof.
  intros Hsc Hb Hr. unfold lower_body in Hb. destruct (lower_ops cfg (ops bp) init_state) as [[u|] s'] eqn:Hl; simplify_eq.
  unfold reference_eval in Hr. destruct (eval_ops fops inputs (ops bp) _) as [r'|] eqn:He; simplify_eq/=.
  destruct (lower_ops_sim fops inputs cfg (ops bp) init_state (mkRef [] [] 0) (mkState ∅ []) u s r' Hsc) as [m [Hex _ _ _ Hout [Hoff _]]];
    [by repeat constructor|done..|].
  exists (out m). unfold run_kernel. rewrite Hex. done.
Qed.

(** Integer stand-ins for the float operations, enough to tell lanes apart. *)
Definition toy_fops : F32Ops := mkF32Ops (fun a b => as_u32 (a + b)) (fun a b => as_u32 (a * b)) (fun a b c => as_u32 (a * b + c)).

Definition words (l : list Z) : list u8 := l ≫= to_le_bytes 4.

Lemma emitted_code_matches_reference_witness :
  let bp := push (StoreUnified F32 1) (push (VecFma F32 1) (push (LoadUnified F32 1) (push (LoadUnified F32 1)
              (push (LoadUnified F32 1) (blueprint_new (bytes_of "k")))))) in
  match lower_body bp default_emit_config with
  | Ok s => run_kernel toy_fops (words [3; 4; 5]) (body s) = Some [(0, 17)] /\
            exists stores, run_kernel toy_fops (words [3; 4; 5]) (body s) = Some stores /\
              (stores ≫= fun p => to_le_bytes 4 p.2) = words [17]
  | Err _ => False
  end.
Proof.
  intros bp. destruct (lower_body bp default_emit_config) as [s|] eqn:Hs; [|vm_compute in Hs; discriminate].
  split; [vm_compute in Hs; injection Hs as <-; vm_compute; reflexivity|].
  destruct (emitted_code_matches_reference toy_fops bp default_emit_config s (words [3; 4; 5]) (words [17]))
    as (stores & ? & ? & _); [|exact Hs|vm_compute; reflexivity|eauto].
  repeat constructor.
Defined.

(** The smallest vector kernels: a copy, and the addition of two vectors. *)
Definition copy_blueprint (lanes : Z) : TensorWasmKernelBlueprint :=
  push (StoreUnified F32 lanes) (push (LoadUnified F32 lanes) (blueprint_new (bytes_of "copy"))).

Definition add_blueprint (lanes : Z) : TensorWasmKernelBlueprint :=
  push (StoreUnified F32 lanes) (push (VecAdd F32 lanes) (push (LoadUnified F32 lanes)
    (push (LoadUnified F32 lanes) (blueprint_new (bytes_of "add"))))).

Definition kernel_output (bp : TensorWasmKernelBlueprint) (inputs : list u8) : option (list u8) :=
  match lower_body bp default_emit_config with
  | Ok s => (fun stores => stores ≫= fun p => to_le_bytes 4 p.2) <$> run_kernel toy_fops inputs (body s)
  | Err _ => None
  end.

(** With four lanes the emitted code pops lane by lane from one stack: the
    copy reverses the lanes, and the addition folds the second vector into one
    lane, where the reference pairs the lanes. *)
Lemma vector_kernels_miscompiled :
  reference_eval toy_fops (words [1; 2; 3; 4]) (copy_blueprint 4) = Ok (words [1; 2; 3; 4]) /\
  kernel_output (copy_blueprint 4) (words [1; 2; 3; 4]) = Some (words [4; 3; 2; 1]) /\
  reference_eval toy_fops (words [1; 2; 3; 4; 10; 20; 30; 40]) (add_blueprint 4) = Ok (words [11; 22; 33; 44]) /\
  kernel_output (add_blueprint 4) (words [1; 2; 3; 4; 10; 20; 30; 40]) = Some (words [104; 3; 2; 1]).
Proof. vm_compute. done. Qed.

(** The launcher reads the emitter's [(grid, block)] as [(block, grid)]. *)
Lemma launch_geometry_swapped :
  let bp := with_grid (mkGridHint 4096 128) (copy_blueprint 1) in
  Ir.launch_geometry (grid_hint bp) = (32, 128) /\
  (fun p => JitDispatch.launch_dims (mkKernel 0 p [])) <$> emit bp = Ok (128, 32).
Proof. vm_compute. done. Qed.
End OracleFacts.

Module BudgetFacts.
Import Ir PtxEmit FingerprintFacts.

(** [m] succeeds from [P], ending in [Q]. *)
Definition runs {A} (P : LowerState -> Prop) (m : M A) (Q : LowerState -> Prop) : Prop :=
  forall s, P s -> exists a s', m s = (Ok a, s') /\ Q s'.

Lemma runs_bind {A B} P (m : M A) (f : A -> M B) Q R :
  runs P m Q -> (forall a, runs Q (f a) R) -> runs P (m ≫= f) R.
Proof.
  intros Hm Hf s Hs. destruct (Hm s Hs) as (a & s' & He & Hq). unfold mbind, stM_bind. rewrite He. by apply Hf.
Qed.

(** At most [n] registers of either class, and [3 n] bytes of offset, used. *)
Definition used (n : Z) (s : LowerState) : Prop :=
  0 <= next_f s <= n /\ 0 <= next_r s <= 1 + n /\ 0 <= in_off s <= 3 * n /\ 0 <= out_off s <= 3 * n.

Definition budget : Z := 4 * MAX_EMITTED_OPS.

Lemma budget_value : budget = 4194304.
Proof. reflexivity. Qed.

Lemma alloc_runs c n : n < budget -> runs (used n) (alloc c) (used (n + 1)).
Proof.
  rewrite budget_value. intros Hn s (? & ? & ? & ?). unfold alloc, checked_add.
  destruct c; rewrite (proj2 (Z.leb_le _ _)) by lia; eexists _, _; (split; [done|]); unfold used; simpl; lia.
Qed.

Lemma pop_runs c n : n < budget -> runs (used n) (pop_or_alloc c) (used (n + 1)).
Proof.
  intros Hn s Hs. unfold pop_or_alloc. destruct (value_stack s); [by apply alloc_runs|].
  eexists _, _. split; [done|]. unfold used in *. simpl. lia.
Qed.

Lemma write_runs n i : runs (used n) (writeln i) (used n).
Proof. intros s Hs. eexists _, _. split; [done|]. exact Hs. Qed.

Lemma push_runs n r : runs (used n) (push_value r) (used n).
Proof. intros s Hs. eexists _, _. split; [done|]. exact Hs. Qed.

Lemma get_runs n : runs (used n) get_state (used n).
Proof. intros s Hs. eexists _, _. split; [done|]. exact Hs. Qed.

Lemma runs_weaken {A} n n' (m : M A) Q : n' <= n -> runs (used n) m Q -> runs (used n') m Q.
Proof. intros Hle Hm s Hs. apply Hm. unfold used in *. lia. Qed.

Lemma byte_width_range e : 1 <= byte_width e <= 8.
Proof. by destruct e. Qed.

(** What one lane of any operation costs. *)
Definition lane_runs (m : M ()) : Prop := forall n, 0 <= n -> n + 4 <= budget -> runs (used n) m (used (n + 4)).

Ltac chain := eapply runs_bind; [|intros ?].

Lemma binary_lane_runs c m : lane_runs (binary_lane c m).
Proof.
  intros n ? ?. chain; [apply pop_runs; lia|]. chain; [apply pop_runs; lia|]. chain; [apply alloc_runs; lia|].
  chain; [apply write_runs|]. intros s Hs. eexists _, _. split; [done|]. unfold used in *. simpl. lia.
Qed.

Lemma fma_lane_runs c m : lane_runs (fma_lane c m).
Proof.
  intros n ? ?. chain; [apply pop_runs; lia|]. chain; [apply pop_runs; lia|]. chain; [apply pop_runs; lia|].
  chain; [apply alloc_runs; lia|]. chain; [apply write_runs|].
  intros s Hs. eexists _, _. split; [done|]. unfold used in *. simpl. lia.
Qed.

Lemma load_lane_runs c ty e : lane_runs (load_lane c ty (byte_width e)).
Proof.
  pose proof (byte_width_range e). unfold lane_runs. rewrite budget_value. intros n ? ?. chain; [apply alloc_runs; rewrite budget_value; lia|].
  chain; [apply get_runs|]. chain; [apply write_runs|].
  intros s (? & ? & ? & ?). unfold mbind, stM_bind, advance_in, checked_add. rewrite (proj2 (Z.leb_le _ _)) by lia.
  eexists _, _. split; [done|]. unfold used. simpl. lia.
Qed.

Lemma store_lane_runs c ty e : lane_runs (store_lane c ty (byte_width e)).
Proof.
  pose proof (byte_width_range e). unfold lane_runs. rewrite budget_value. intros n ? ?. chain; [apply pop_runs; rewrite budget_value; lia|].
  chain; [apply get_runs|]. chain; [apply write_runs|].
  intros s (? & ? & ? & ?). unfold advance_out, checked_add. rewrite (proj2 (Z.leb_le _ _)) by lia.
  eexists _, _. split; [done|]. unfold used. simpl. lia.
Qed.

Lemma repeat_runs m k n :
  lane_runs m -> 0 <= n -> n + 4 * Z.of_nat k <= budget -> runs (used n) (repeat_m k m) (used (n + 4 * Z.of_nat k)).
Proof.
  intros Hm. revert n. induction k as [|k IH]; intros n Hn Hk.
  - intros s Hs. eexists _, _. split; [done|]. by rewrite Z.add_0_r.
  - cbn [repeat_m]. eapply runs_bind; [apply Hm; lia|]. intros ?.
    replace (n + 4 * Z.of_nat (Datatypes.S k)) with (n + 4 + 4 * Z.of_nat k) by lia. apply IH; lia.
Qed.

(** Operations the default configuration can emit. *)
Definition emittable (op : TensorWasmOp) : bool :=
  match op with
  | VecAdd e _ | VecMul e _ => bool_decide (e = F32) || bool_decide (e = I32)
  | VecFma e _ => bool_decide (e = F32)
  | LoadUnified _ _ | StoreUnified _ _ | Barrier => true
  | MatMul _ _ _ => false
  end.

Lemma lower_op_runs op n :
  emittable op = true -> op_ok op -> 0 <= n -> n + 4 * op_lanes op <= budget ->
  runs (used n) (lower_op default_emit_config op) (used (n + 4 * op_lanes op)).
Proof.
  intros He Hok Hn Hb. destruct op as [e l|e l|e l|? ? ?|e l|e l|]; try done; simpl in Hok, Hb |- *; unfold fits in *;
    try (destruct (Z_of_nat_complete l) as [k ->]; [lia|]; rewrite Nat2Z.id).
  - chain; [apply write_runs|]. destruct e; try done; (eapply runs_bind; [|intros mn; apply repeat_runs; [apply binary_lane_runs|done..]]);
      intros s Hs; eexists _, s; (split; [done|exact Hs]).
  - chain; [apply write_runs|]. destruct e; try done; (eapply runs_bind; [|intros mn; apply repeat_runs; [apply binary_lane_runs|done..]]);
      intros s Hs; eexists _, s; (split; [done|exact Hs]).
  - destruct e; try done. simpl. chain; [apply write_runs|]. (eapply runs_bind; [|intros mn; apply repeat_runs; [apply fma_lane_runs|done..]]);
      intros s Hs; eexists _, s; (split; [done|exact Hs]).
  - chain; [apply get_runs|]. chain; [apply write_runs|]. apply repeat_runs; [apply load_lane_runs|done..].
  - chain; [apply get_runs|]. chain; [apply write_runs|]. apply repeat_runs; [apply store_lane_runs|done..].
  - rewrite Z.add_0_r. apply write_runs.
Qed.

Lemma check_budget_Ok b ops :
  0 <= b <= MAX_EMITTED_OPS -> Forall op_ok ops ->
  is_ok (check_budget b ops) = true <->
  Forall (fun op => op_lanes op <= MAX_LANES) ops /\ b + sumZ op_lanes ops <= MAX_EMITTED_OPS.
Proof.
  intros Hb Hok. revert b Hb. induction Hok as [|op ops Hop Hok IH]; intros b Hb; simpl.
  { unfold sumZ. simpl. split; [intros _; split; [constructor|lia]|done]. }
  assert (0 <= op_lanes op) by (destruct op; unfold op_ok, fits in Hop; simpl; lia).
  assert (0 <= sumZ op_lanes ops).
  { apply sumZ_nonneg. eapply Forall_impl; [exact Hok|]. intros []; unfold op_ok, fits; simpl; lia. }
  change (sumZ op_lanes (op :: ops)) with (op_lanes op + sumZ op_lanes ops). rewrite Forall_cons.
  destruct (MAX_LANES <? op_lanes op) eqn:Hl; bool_props; [split; [done|intros [[? _] _]; lia]|].
  unfold sat_add. unfold MAX_EMITTED_OPS, MAX_LANES in *. rewrite Z.min_l by lia.
  destruct (_ <? _) eqn:Hx; bool_props; [split; [done|intros [_ ?]; lia]|].
  rewrite IH by lia. split; [intros [? ?]; split_and!; [lia|done|lia]|intros [[_ ?] ?]; split; [done|lia]].
Qed.

Lemma lower_ops_runs ops n :
  Forall (fun op => emittable op = true) ops -> Forall op_ok ops -> 0 <= n ->
  n + 4 * sumZ op_lanes ops <= budget ->
  runs (used n) (lower_ops default_emit_config ops) (used (n + 4 * sumZ op_lanes ops)).
Proof.
  intros He. revert n. induction He as [|op ops Hop He IH]; intros n Hok Hn Hb.
  { intros s Hs. eexists _, s. split; [done|]. unfold sumZ. simpl. by rewrite Z.add_0_r. }
  apply Forall_cons in Hok as [Hop' Hok]. change (sumZ op_lanes (op :: ops)) with (op_lanes op + sumZ op_lanes ops) in *.
  assert (0 <= op_lanes op) by (destruct op; unfold op_ok, fits in Hop'; simpl; lia).
  assert (0 <= sumZ op_lanes ops).
  { apply sumZ_nonneg. eapply Forall_impl; [exact Hok|]. intros []; unfold op_ok, fits; simpl; lia. }
  cbn [lower_ops]. eapply runs_bind; [apply lower_op_runs; try done; lia|]. intros ?.
  rewrite Z.mul_add_distr_l, Z.add_assoc. apply IH; [done|lia|lia].
Qed.

Lemma lower_op_emittable op s u s' : lower_op default_emit_config op s = (Ok u, s') -> emittable op = true.
Proof. by destruct op as [[]|[]|[]| |[]|[]|]. Qed.

Lemma lower_ops_emittable ops s u s' :
  lower_ops default_emit_config ops s = (Ok u, s') -> Forall (fun op => emittable op = true) ops.
Proof.
  revert s. induction ops as [|op ops IH]; intros s H; [constructor|]. simpl in H. unfold mbind, stM_bind in H.
  destruct (lower_op default_emit_config op s) as [[?|?] s1] eqn:Hop; [|done].
  constructor; [by eapply lower_op_emittable|by eapply IH].
Qed.

(** [emit] succeeds exactly on the blueprints its guards describe: a
    valid entry name, at most [MAX_LANES] lanes per operation and
    [MAX_EMITTED_OPS] in all, and operations with a PTX form.  Within that
    budget no register or offset counter can overflow, so [TooManyRegisters]
    is unreachable. *)
Theorem emit_succeeds_iff bp :
  Forall op_ok (ops bp) ->
  is_ok (emit bp) = true <->
    is_valid_ptx_identifier (entry bp) = true /\
    Forall (fun op => op_lanes op <= MAX_LANES) (ops bp) /\ sumZ op_lanes (ops bp) <= MAX_EMITTED_OPS /\
    Forall (fun op => emittable op = true) (ops bp).
Proof.
  intros Hok. pose proof (check_budget_Ok 0 (ops bp) ltac:(unfold MAX_EMITTED_OPS; lia) Hok) as Hbud.
  unfold emit, emit_with. destruct (is_valid_ptx_identifier (entry bp)); simpl; [|by split; [|intros [? _]]].
  destruct (check_budget 0 (ops bp)) as [[]|]; simpl in *.
  2:{ split; [done|]. intros (_ & Hl & Hs & _). exfalso. by discriminate (proj2 Hbud (conj Hl Hs)). }
  destruct (proj1 Hbud eq_refl) as [Hl Hs]. unfold lower_body. split.
  - destruct (lower_ops _ _ _) as [[u|] s] eqn:Hlow; [|done]. intros _. apply lower_ops_emittable in Hlow. done.
  - intros (_ & _ & _ & He).
    destruct (lower_ops_runs (ops bp) 0 He Hok ltac:(lia) ltac:(unfold budget; lia) init_state) as (u & s & -> & _); [|done].
    unfold used. simpl. lia.
Qed.

Lemma emit_succeeds_iff_witness :
  is_ok (emit (OracleFacts.add_blueprint 4)) = true /\ is_ok (emit (OracleFacts.add_blueprint 1025)) = false.
Proof.
  split.
  - apply (emit_succeeds_iff (OracleFacts.add_blueprint 4)); [by repeat constructor|].
    split_and!; [reflexivity|by repeat constructor|vm_compute; congruence|by repeat constructor].
  - vm_compute. reflexivity.
Defined.
End BudgetFacts.
