(* ===== verification/Rewrite.v ===== *)
(** * [tensor-wasm-jit/src/rewrite.rs]: offloading functions of a module

    [analyse] walks a parsed module, classifies every function body, lowers and
    emits the candidates and puts their kernels in the cache; the rewriter then
    replaces the bodies that got a kernel by trampolines and re-encodes the
    rest with shifted function indices.  The parser and the encoder are
    third-party: a module is the sequence of payloads the parser yields
    (errors included), and a re-encoded body is named by its position.  The
    emit pass runs in parallel; the order its cache insertions land in is an
    argument. *)

From S2P Require Import Prelude Core Primitives KernelCache JitDispatch Trampoline Ir PtxEmit.

(** The operators [op_to_detector_op] tells apart; [OtherOperator] is the rest. *)
Inductive Operator :=
| V128Load | V128Store
| F32Add | I32Add | I64Add | F64Add
| F32Mul | I32Mul | I64Mul | F64Mul
| I32Load | I64Load | F32Load | F64Load
| I32Store | I64Store | F32Store | F64Store
| Br | BrIf | BrTable | OpIf | Else | Loop | Block
| OpCall | CallIndirect | ReturnCall | ReturnCallIndirect
| F32x4Add | I32x4Add | F32x4Mul | I32x4Mul
| F64x2Add | I64x2Add | I16x8Add | I8x16Add | F64x2Mul | I64x2Mul | I16x8Mul
| OtherOperator.

#[global] Instance Operator_eq_dec : EqDecision Operator.
Proof. solve_decision. Defined.

Record DecodedFuncType := mkFuncType { params : list ValType; results : list ValType }.

Inductive TypeRef := FuncRef | MemoryRef | OtherRef.

(** Section readers yield items or errors; a body's reader may fail to start. *)
Inductive Payload :=
| TypeSection (groups : list (result str (list (option DecodedFuncType))))
| ImportSection (imports : list (result str TypeRef))
| MemorySection (count : Z)
| FunctionSection (types : list (result str Z))
| CodeSectionEntry (body : result str (list (result str Operator)))
| OtherPayload.

Module Rewrite.
Import Detector Layout.

Record RewriteOptions := mkOptions {
  host_module : str;
  host_fn : str;
  host_alloc_fn : str;
  host_free_fn : str;
  opt_sm_version : Z;
  opt_tenant_id : Z;
  detector : DetectorConfig;
}.

Definition default_options : RewriteOptions :=
  mkOptions (bytes_of "tensor-wasm:jit/host") (bytes_of "dispatch") (bytes_of "alloc") (bytes_of "free") 80 0
    Detector.default_config.

Record OffloadedFunction := mkOffloaded { function_index : Z; off_fingerprint : Z; original_op_count : Z }.

Record FuncInfo := mkFuncInfo {
  fi_type_index : Z;
  fi_verdict : DetectorVerdict;
  fi_fingerprint : option Z;
  fi_op_count : Z;
}.

Definition op_to_detector_op (op : Operator) : Op :=
  match op with
  | V128Load => Load
  | V128Store => Store
  | F32Add | I32Add | I64Add | F64Add => ScalarAdd
  | F32Mul | I32Mul | I64Mul | F64Mul => ScalarMul
  | I32Load | I64Load | F32Load | F64Load => Load
  | I32Store | I64Store | F32Store | F64Store => Store
  | Br | BrIf | BrTable | OpIf | Else | Loop | Block => Branch
  | OpCall | CallIndirect | ReturnCall | ReturnCallIndirect => Detector.Call
  | F32x4Add => V128Add Ir.F32 4
  | I32x4Add => V128Add Ir.I32 4
  | F32x4Mul => V128Mul Ir.F32 4
  | I32x4Mul => V128Mul Ir.I32 4
  | F64x2Add | I64x2Add | I16x8Add | I8x16Add | F64x2Mul | I64x2Mul | I16x8Mul => Other
  | OtherOperator => Other
  end.

Record PreFuncInfo := mkPre {
  type_index : Z;
  verdict : DetectorVerdict;
  op_count : Z;
  func_index_in_global_space : Z;
  trip_guess : option Z;
  detector_ops : list Op;
  has_memory : bool;
  signature_ok : bool;
}.

(** The variables of the payload loop; the cursor counts [pre_infos]. *)
Record Walk := mkWalk {
  types : list (option DecodedFuncType);
  function_type_indices : list Z;
  num_function_imports : Z;
  pre_infos : list PreFuncInfo;
  walk_has_memory : bool;
}.

Definition init_walk : Walk := mkWalk [] [] 0 [] false.

(** Items of a section, up to the first error. *)
Fixpoint collect {A} (items : list (result str A)) : result RewriteError (list A) :=
  match items with
  | [] => Ok []
  | Ok a :: items => l ← collect items; Ok (a :: l)
  | Err e :: _ => Err (ParseError e)
  end.

(** The operator loop stops at the first error without failing. *)
Fixpoint read_ops (items : list (result str Operator)) : list Operator :=
  match items with
  | Ok op :: items => op :: read_ops items
  | _ => []
  end.

Definition signature_supported (types : list (option DecodedFuncType)) (type_index : Z) : bool :=
  match types !! Z.to_nat type_index with
  | Some (Some t) => forallb is_supported_primitive (params t) && forallb is_supported_primitive (results t)
  | _ => false
  end.

Definition code_entry (opts : RewriteOptions) (body : result str (list (result str Operator))) (w : Walk) :
    result RewriteError Walk :=
  let cursor := length (pre_infos w) in
  type_index ← ok_or (ParseError (bytes_of "code body has no matching function type")) (function_type_indices w !! cursor);
  match body with
  | Err e => Err (ParseError e)
  | Ok items =>
      let ops := read_ops items in
      let detector_ops := map op_to_detector_op ops in
      let saw_loop := bool_decide (Loop ∈ ops) in
      let func_index := num_function_imports w + Z.of_nat cursor in
      let trip_guess := if saw_loop then Some 128 else None in
      let verdict := classify_ops detector_ops trip_guess (detector opts) in
      let pre := mkPre type_index verdict (Z.of_nat (length detector_ops)) func_index trip_guess detector_ops
                   (walk_has_memory w) (signature_supported (types w) type_index) in
      Ok (mkWalk (types w) (function_type_indices w) (num_function_imports w) (pre_infos w ++ [pre]) (walk_has_memory w))
  end.

Definition walk_payload (opts : RewriteOptions) (p : Payload) (w : Walk) : result RewriteError Walk :=
  match p with
  | TypeSection groups =>
      gs ← collect groups;
      Ok (mkWalk (types w ++ concat gs) (function_type_indices w) (num_function_imports w) (pre_infos w) (walk_has_memory w))
  | ImportSection imports =>
      refs ← collect imports;
      Ok (mkWalk (types w) (function_type_indices w)
            (num_function_imports w + Z.of_nat (length (filter (fun i => match i with FuncRef => true | _ => false end = true) refs)))
            (pre_infos w)
            (walk_has_memory w || existsb (fun i => match i with MemoryRef => true | _ => false end) refs))
  | MemorySection count =>
      Ok (if 0 <? count
          then mkWalk (types w) (function_type_indices w) (num_function_imports w) (pre_infos w) true else w)
  | FunctionSection tys =>
      ts ← collect tys;
      Ok (mkWalk (types w) (function_type_indices w ++ ts) (num_function_imports w) (pre_infos w) (walk_has_memory w))
  | CodeSectionEntry body => code_entry opts body w
  | OtherPayload => Ok w
  end.

Fixpoint walk (opts : RewriteOptions) (payloads : list (result str Payload)) (w : Walk) : result RewriteError Walk :=
  match payloads with
  | [] => Ok w
  | Err e :: _ => Err (ParseError e)
  | Ok p :: payloads => w ← walk_payload opts p w; walk opts payloads w
  end.

(** The operations the lowering is given. *)
Definition kept (o : Op) : bool :=
  match o with V128Add _ _ | V128Mul _ _ | V128Fma _ _ | Load | Store => true | _ => false end.

Section emit.
Context `{!Primitives} {D : Type} `{!KernelDisk D}.

(** What a slot would put in the cache. *)
Definition slot_kernel (pre : PreFuncInfo) : option (Z * EmittedPtx) :=
  if negb (bool_decide (verdict pre = Offload)) then None
  else if negb (has_memory pre) then None
  else if negb (signature_ok pre) then None
  else
    let block := BlockIR_new (bytes_of "func" ++ dec (func_index_in_global_space pre))
                   (filter (fun o => kept o = true) (detector_ops pre)) (trip_guess pre) in
    match Lower.lower_block block with
    | Err _ => None
    | Ok blueprint =>
        match PtxEmit.emit blueprint with
        | Err _ => None
        | Ok ptx => Some (Ir.fingerprint blueprint, ptx)
        end
    end.

Definition emit_for_slot (pre : PreFuncInfo) (opts : RewriteOptions) (cache : KernelCache.t D) :
    option Z * KernelCache.t D :=
  match slot_kernel pre with
  | None => (None, cache)
  | Some (fp, ptx) =>
      let key := for_tenant (opt_tenant_id opts) fp (opt_sm_version opts) in
      (Some fp, KernelCache.put key (KernelCache.kernel_new fp ptx) cache)
  end.

Record AnalyseOutcome := mkOutcome {
  out_types : list (option DecodedFuncType);
  out_imports : Z;
  func_infos : list FuncInfo;
}.

(** The slots' cache insertions, in the order they happen to land. *)
Definition emit_pass (opts : RewriteOptions) (order : list PreFuncInfo) (cache : KernelCache.t D) : KernelCache.t D :=
  fold_left (fun c pre => (emit_for_slot pre opts c).2) order cache.

Definition analyse (schedule : list PreFuncInfo -> list PreFuncInfo) (payloads : list (result str Payload))
    (opts : RewriteOptions) (cache : KernelCache.t D) : result RewriteError (AnalyseOutcome * KernelCache.t D) :=
  w ← walk opts payloads init_walk;
  let infos := map (fun pre => mkFuncInfo (type_index pre) (verdict pre) (emit_for_slot pre opts cache).1 (op_count pre))
                 (pre_infos w) in
  Ok (mkOutcome (types w) (num_function_imports w) infos, emit_pass opts (schedule (pre_infos w)) cache).

(** A body of the rewritten module: the original, or a trampoline. *)
Inductive NewBody := Reencoded (cursor : nat) | Swapped (code : list Instr).

Definition imports_added : Z := 3.

Definition shifted_fn_index (num_function_imports orig : Z) : Z :=
  if orig <? num_function_imports then orig else orig + imports_added.

Definition parse_function_body (a : AnalyseOutcome) (cursor : nat) : NewBody * option OffloadedFunction :=
  match func_infos a !! cursor with
  | None => (Reencoded cursor, None)
  | Some info =>
      match fi_verdict info, fi_fingerprint info, out_types a !! Z.to_nat (fi_type_index info) with
      | Offload, Some fp, Some (Some func_ty) =>
          match Trampoline.build_trampoline fp (Trampoline.imports_after (out_imports a)) (params func_ty) (results func_ty) with
          | Ok t => (Swapped t, Some (mkOffloaded (out_imports a + Z.of_nat cursor) fp (fi_op_count info)))
          | Err _ => (Reencoded cursor, None)
          end
      | _, _, _ => (Reencoded cursor, None)
      end
  end.

(** The rewritten functions, the ones swapped, and how many were defined;
    [reencoded] is the encoder's own verdict on the module. *)
Record RewriteOutcome := mkRewriteOutcome {
  bodies : list NewBody;
  offloaded_functions : list OffloadedFunction;
  total_defined_functions : Z;
}.

Definition rewrite_wasm (schedule : list PreFuncInfo -> list PreFuncInfo) (payloads : list (result str Payload))
    (reencoded : result str ()) (opts : RewriteOptions) (cache : KernelCache.t D) :
    result RewriteError RewriteOutcome * KernelCache.t D :=
  match analyse schedule payloads opts cache with
  | Err e => (Err e, cache)
  | Ok (a, cache) =>
      match reencoded with
      | Err e => (Err (ReencodeError e), cache)
      | Ok _ =>
          let out := map (parse_function_body a) (seq 0 (length (func_infos a))) in
          (Ok (mkRewriteOutcome (map fst out) (omap snd out) (Z.of_nat (length (func_infos a)))), cache)
      end
  end.
End emit.
End Rewrite.

Module RewriteFacts.
Import Detector Rewrite KernelCache KernelCacheFacts.

(** ** The function index space *)

(** re-encoding preserves every call.  In the rewritten module the three
    host imports follow the original imports, at the indices the trampolines
    call, and the shifted index of any function, imported or defined, names
    the same function as before. *)
Theorem shifted_index_same_function {A} (imported defined : list A) (dispatch alloc free : A) (orig : Z) :
  let n := Z.of_nat (length imported) in
  let old := imported ++ defined in
  let new := imported ++ [dispatch; alloc; free] ++ defined in
  let imports := Trampoline.imports_after n in
  (0 <= orig -> new !! Z.to_nat (shifted_fn_index n orig) = old !! Z.to_nat orig) /\
  new !! Z.to_nat (Trampoline.dispatch imports) = Some dispatch /\
  new !! Z.to_nat (Trampoline.alloc imports) = Some alloc /\
  new !! Z.to_nat (Trampoline.free imports) = Some free.
Proof.
  intros n old new imports. unfold new, old, imports, n.
  assert (forall k x, [dispatch; alloc; free] !! k = Some x ->
    (imported ++ [dispatch; alloc; free] ++ defined) !! Z.to_nat (Z.of_nat (length imported) + Z.of_nat k) = Some x) as Hnew.
  { intros k x Hk. rewrite lookup_app_r by lia.
    replace (Z.to_nat _ - length imported)%nat with k by lia. by apply lookup_app_l_Some. }
  split_and!; [|by rewrite <-(Z.add_0_r (Trampoline.dispatch _)); apply (Hnew 0%nat)|by apply (Hnew 1%nat)|by apply (Hnew 2%nat)].
  intros Ho. unfold shifted_fn_index, imports_added. destruct (_ <? _) eqn:Hlt; bool_props.
  - rewrite !lookup_app_l by lia. done.
  - rewrite !lookup_app_r by (simpl; lia). simpl. f_equal. lia.
Qed.

Section facts.
Context `{!Primitives} {D : Type} `{!KernelDisk D}.

Lemma kernel_new_intact fp ptx : verify_integrity (kernel_new fp ptx) = true.
Proof. unfold verify_integrity, kernel_new. simpl. by apply bool_decide_eq_true_2. Qed.

Definition slot_key (opts : RewriteOptions) (fp : Z) : CacheKey :=
  for_tenant (opt_tenant_id opts) fp (opt_sm_version opts).

(** ** The emit pass *)

Lemma emit_pass_config opts order (c : KernelCache.t D) : config (emit_pass opts order c) = config c.
Proof.
  unfold emit_pass. revert c. induction order as [|pre order IH]; intros c; simpl; [done|]. rewrite IH.
  unfold emit_for_slot. destruct (slot_kernel pre) as [[fp ptx]|]; [|done]. simpl.
  apply (step_config c (CPut _ _)).
Qed.

(** Every slot's key holds a kernel of its fingerprint, the last one put. *)
Lemma emit_pass_cached opts order (c : KernelCache.t D) :
  inv c -> max_total_bytes (config c) = None ->
  Z.of_nat (length (lru c)) + Z.of_nat (length order) <= capacity (config c) ->
  inv (emit_pass opts order c) /\ (length (lru (emit_pass opts order c)) <= length (lru c) + length order)%nat /\
  forall pre fp ptx, pre ∈ order -> slot_kernel pre = Some (fp, ptx) ->
    exists pre' ptx', slot_kernel pre' = Some (fp, ptx') /\
      storage (emit_pass opts order c) !! slot_key opts fp = Some (kernel_new fp ptx').
Proof.
  intros Hinv Hcap. induction order as [|pre order IH] using rev_ind; intros Hroom.
  { split_and!; [done|simpl; lia|]. intros ? ? ? []%elem_of_nil. }
  rewrite length_app in *. simpl in *. destruct IH as (Hi & Hl & Hst); [lia|].
  assert (emit_pass opts (order ++ [pre]) c = (emit_for_slot pre opts (emit_pass opts order c)).2) as ->
    by (unfold emit_pass; by rewrite fold_left_app).
  unfold emit_for_slot. destruct (slot_kernel pre) as [[fp ptx]|] eqn:Hslot; simpl.
  2:{ split_and!; [done|lia|]. intros pre' fp' ptx' [Hin | ->%list_elem_of_singleton]%elem_of_app Hs; [eauto|congruence]. }
  destruct (put_room (slot_key opts fp) (kernel_new fp ptx) _ Hi (kernel_new_intact _ _)) as [Hsto Hlen];
    [rewrite emit_pass_config; lia|by rewrite emit_pass_config|].
  fold (slot_key opts fp). split_and!; [by apply put_inv|lia|].
  intros pre' fp' ptx' Hin Hs. rewrite Hsto. destruct (decide (fp' = fp)) as [->|Hne].
  - exists pre, ptx. by rewrite lookup_insert_eq.
  - rewrite lookup_insert_ne by (unfold slot_key, for_tenant; congruence).
    apply elem_of_app in Hin as [Hin | ->%list_elem_of_singleton]; [eauto|congruence].
Qed.

Lemma slot_kernel_Some pre fp ptx :
  slot_kernel pre = Some (fp, ptx) ->
  verdict pre = Offload /\ has_memory pre = true /\ signature_ok pre = true /\
  exists bp, PtxEmit.emit bp = Ok ptx /\ Ir.fingerprint bp = fp.
Proof.
  unfold slot_kernel. case_bool_decide; [|done]. simpl. destruct (has_memory pre); [|done]. destruct (signature_ok pre); [|done].
  simpl. destruct (Lower.lower_block _) as [bp|]; [|done]. destruct (PtxEmit.emit bp) as [p|] eqn:He; [|done].
  intros [= <- <-]. eauto 10.
Qed.

(** ** The rewritten module *)

Lemma analyse_Ok schedule payloads opts (c : KernelCache.t D) a c' :
  analyse schedule payloads opts c = Ok (a, c') ->
  exists w, walk opts payloads init_walk = Ok w /\ c' = emit_pass opts (schedule (pre_infos w)) c /\
    out_types a = types w /\ out_imports a = num_function_imports w /\
    forall i info, func_infos a !! i = Some info -> exists pre, pre_infos w !! i = Some pre /\
      fi_type_index info = type_index pre /\ fi_verdict info = verdict pre /\
      fi_fingerprint info = fst <$> slot_kernel pre.
Proof.
  unfold analyse. intros Ha. inv_bind Ha. simplify_eq. exists a0. split_and!; [done..|]. simpl.
  intros i info Hi. rewrite list_lookup_fmap in Hi. destruct (pre_infos a0 !! i) as [pre|]; simplify_eq/=.
  exists pre. split_and!; [done..|]. simpl. unfold emit_for_slot. by destruct (slot_kernel pre) as [[? ?]|].
Qed.

Lemma parse_function_body_offloaded a cursor f :
  (parse_function_body a cursor).2 = Some f ->
  exists info func_ty code, func_infos a !! cursor = Some info /\ fi_fingerprint info = Some (off_fingerprint f) /\
    fi_verdict info = Offload /\ function_index f = out_imports a + Z.of_nat cursor /\
    out_types a !! Z.to_nat (fi_type_index info) = Some (Some func_ty) /\
    Trampoline.build_trampoline (off_fingerprint f) (Trampoline.imports_after (out_imports a))
      (params func_ty) (results func_ty) = Ok code /\
    (parse_function_body a cursor).1 = Swapped code.
Proof.
  unfold parse_function_body. destruct (func_infos a !! cursor) as [info|]; [|done].
  destruct (fi_verdict info) eqn:?, (fi_fingerprint info) as [fp|] eqn:?, (out_types a !! Z.to_nat (fi_type_index info)) as [[ty|]|] eqn:?; try done.
  destruct (Trampoline.build_trampoline _ _ _ _) as [code|] eqn:?; [|done]. intros [= <-]. simpl. eauto 15.
Qed.

Lemma rewrite_offloaded schedule payloads reencoded opts (c : KernelCache.t D) out c' f :
  rewrite_wasm schedule payloads reencoded opts c = (Ok out, c') -> f ∈ offloaded_functions out ->
  exists w i pre func_ty code ptx, walk opts payloads init_walk = Ok w /\ c' = emit_pass opts (schedule (pre_infos w)) c /\
    pre_infos w !! i = Some pre /\ slot_kernel pre = Some (off_fingerprint f, ptx) /\
    function_index f = num_function_imports w + Z.of_nat i /\
    types w !! Z.to_nat (type_index pre) = Some (Some func_ty) /\
    Trampoline.build_trampoline (off_fingerprint f) (Trampoline.imports_after (num_function_imports w))
      (params func_ty) (results func_ty) = Ok code /\
    bodies out !! i = Some (Swapped code).
Proof.
  unfold rewrite_wasm. destruct (analyse _ _ _ _) as [[a c1]|] eqn:Ha; [|done].
  destruct reencoded; [|done]. intros [= <- <-] Hf. simpl in *.
  apply analyse_Ok in Ha as (w & Hw & -> & Hty & Hn & Hinfo).
  apply list_elem_of_omap in Hf as ([b o] & Hin & ?). simpl in *. subst o.
  apply list_elem_of_fmap in Hin as (i & Hp & Hi). apply elem_of_seq in Hi as [_ Hi]. simpl in Hi.
  assert ((parse_function_body a i).2 = Some f) as Hpf by (by rewrite <-Hp).
  destruct (parse_function_body_offloaded _ _ _ Hpf) as (info & ty & code & Hii & Hfp & Hv & Hidx & Ht & Hcode & Hb).
  destruct (Hinfo i info Hii) as (pre & Hpre & Htyi & _ & Hfpi). rewrite Hfp in Hfpi.
  destruct (slot_kernel pre) as [[fp ptx]|] eqn:Hs; simplify_eq/=.
  exists w, i, pre, ty, code, ptx. rewrite <-Htyi, <-Hty, <-Hn. split_and!; try done; [congruence..|].
  rewrite list_lookup_fmap, list_lookup_fmap, lookup_seq_lt by done. simpl. by rewrite Hb.
Qed.

(** *** What a module declares

    Its types, its functions' type indices and how many functions it imports,
    read off the payloads. *)
Definition oks {A} (items : list (result str A)) : list A :=
  omap (fun r => match r with Ok a => Some a | Err _ => None end) items.

Definition payload_types (p : Payload) : list (option DecodedFuncType) :=
  match p with TypeSection gs => concat (oks gs) | _ => [] end.
Definition payload_functions (p : Payload) : list Z := match p with FunctionSection ts => oks ts | _ => [] end.
Definition payload_imports (p : Payload) : Z :=
  match p with
  | ImportSection imps => Z.of_nat (length (filter (fun i => match i with FuncRef => true | _ => false end = true) (oks imps)))
  | _ => 0
  end.

Definition module_types (payloads : list (result str Payload)) := concat (payload_types <$> oks payloads).
Definition module_functions (payloads : list (result str Payload)) : list Z := concat (payload_functions <$> oks payloads).
Definition module_imports (payloads : list (result str Payload)) : Z := sumZ payload_imports (oks payloads).

Lemma collect_oks {A} (items : list (result str A)) l : collect items = Ok l -> oks items = l.
Proof.
  revert l. induction items as [|[x|e] items IH]; intros l Hl; cbn in Hl; [by simplify_eq| |done].
  inv_bind Hl. simplify_eq. unfold oks in *. cbn. by rewrite (IH _ E).
Qed.

(** The walk's variables after one payload. *)
Lemma walk_payload_declares opts p w w' :
  walk_payload opts p w = Ok w' ->
  types w' = types w ++ payload_types p /\ function_type_indices w' = function_type_indices w ++ payload_functions p /\
  num_function_imports w' = num_function_imports w + payload_imports p /\
  forall i pre, pre_infos w' !! i = Some pre ->
    pre_infos w !! i = Some pre \/ function_type_indices w' !! i = Some (type_index pre).
Proof.
  intros Hp. destruct p; cbn in Hp |- *; try (inv_bind Hp);
    try match goal with H : collect _ = Ok _ |- _ => apply collect_oks in H end;
    simplify_eq; cbn; rewrite ?app_nil_r, ?Z.add_0_r; try (split_and!; by eauto).
  - destruct (0 <? _); cbn; by eauto.
  - destruct body; [|done]. injection Hp as <-. cbn. split_and!; [done..|].
    intros i pre [Hi|[Hi Hj]]%lookup_app_Some; [by left|]. right.
    destruct (function_type_indices w !! length (pre_infos w)) as [k|] eqn:Hk; [|done]. injection E as ->.
    apply list_lookup_singleton_Some in Hj as [Hj <-]. cbn. rewrite <-Hk. f_equal. lia.
Qed.

Lemma walk_declares opts payloads w w' :
  walk opts payloads w = Ok w' ->
  types w' = types w ++ module_types payloads /\
  function_type_indices w' = function_type_indices w ++ module_functions payloads /\
  num_function_imports w' = num_function_imports w + module_imports payloads /\
  forall i pre, pre_infos w' !! i = Some pre ->
    pre_infos w !! i = Some pre \/ function_type_indices w' !! i = Some (type_index pre).
Proof.
  revert w. induction payloads as [|[p|e] payloads IH]; intros w Hw; cbn in Hw; [|inv_bind Hw|done].
  - simplify_eq. unfold module_types, module_functions, module_imports. cbn. rewrite !app_nil_r, Z.add_0_r. by eauto.
  - apply walk_payload_declares in E as (Ht & Hf & Hn & Hp). destruct (IH _ Hw) as (Ht' & Hf' & Hn' & Hp').
    rewrite Ht', Ht, Hf', Hf, Hn', Hn, <-!app_assoc.
    change (module_imports (Ok p :: payloads)) with (payload_imports p + module_imports payloads).
    split_and!; [done..|lia|]. intros i pre [Hi|Hi]%Hp'; [|right; by rewrite Hf', Hf, <-app_assoc in Hi].
    apply Hp in Hi as [?|Hi]; [by left|right]. rewrite app_assoc, <-Hf. by apply lookup_app_l_Some.
Qed.

(** C15: every function the rewriter offloads will find its kernel.  After a
    successful rewrite into a cache that verifies what it serves, has no byte
    cap and has room for a kernel of every defined function, and in whatever
    order the parallel emit pass inserted its kernels, the body of each reported
    function is a trampoline for the reported fingerprint and for the type the
    module declares for that function, and the cache answers the trampoline's
    key (the options' tenant and SM version) with a kernel that was emitted from
    a blueprint of that fingerprint. *)
Theorem offloaded_functions_have_kernels schedule payloads reencoded opts (c : KernelCache.t D) out c' f lock :
  (forall l, schedule l ≡ₚ l) -> inv c ->
  max_total_bytes (config c) = None -> verify_on_get (config c) = true ->
  rewrite_wasm schedule payloads reencoded opts c = (Ok out, c') ->
  Z.of_nat (length (lru c)) + total_defined_functions out <= capacity (config c) ->
  f ∈ offloaded_functions out ->
  (exists i k ty code, function_index f = module_imports payloads + Z.of_nat i /\
     module_functions payloads !! i = Some k /\ module_types payloads !! Z.to_nat k = Some (Some ty) /\
     Trampoline.build_trampoline (off_fingerprint f) (Trampoline.imports_after (module_imports payloads))
       (params ty) (results ty) = Ok code /\
     bodies out !! i = Some (Swapped code)) /\
  exists bp ptx, PtxEmit.emit bp = Ok ptx /\ Ir.fingerprint bp = off_fingerprint f /\
    (get lock (for_tenant (opt_tenant_id opts) (off_fingerprint f) (opt_sm_version opts)) c').1 =
      Some (kernel_new (off_fingerprint f) ptx).
Proof.
  intros Hperm Hinv Hcap Hver Hrw Hroom Hf.
  destruct (rewrite_offloaded _ _ _ _ _ _ _ _ Hrw Hf) as (w & i & pre & ty & code & ptx & Hw & Hc & Hpre & Hs & Hidx & Hty & Hcode & Hb).
  destruct (walk_declares _ _ _ _ Hw) as (Ht & Hfn & Hn & Hp).
  cbn [types function_type_indices num_function_imports init_walk app] in *. rewrite Z.add_0_l in Hn.
  destruct (Hp i pre Hpre) as [?|Htyp]; [done|].
  split; [exists i, (type_index pre), ty, code; by rewrite <-Hn, <-Hfn, <-Ht|].
  assert (total_defined_functions out = Z.of_nat (length (pre_infos w))) as Htot.
  { unfold rewrite_wasm, analyse in Hrw. rewrite Hw in Hrw. simpl in Hrw. destruct reencoded; simplify_eq/=.
    by rewrite length_map. }
  destruct (emit_pass_cached opts (schedule (pre_infos w)) c Hinv Hcap) as (_ & _ & Hst).
  { rewrite (Hperm (pre_infos w)). lia. }
  destruct (Hst pre (off_fingerprint f) ptx) as (pre' & ptx' & Hs' & Hk); [|done|].
  { rewrite (Hperm (pre_infos w)). by eapply list_elem_of_lookup_2. }
  apply slot_kernel_Some in Hs' as (_ & _ & _ & bp & He & Hfp). exists bp, ptx'. split_and!; [done..|].
  apply get_serves; [by rewrite Hc|by rewrite Hc, emit_pass_config|apply kernel_new_intact].
Qed.

(** ** What is offloaded *)

Lemma sf_zero_not_ge x thr :
  (exists m e, thr = SpecFloat.S754_finite false m e) ->
  f32_ge (f32_div (SpecFloat.S754_zero false) x) thr = false.
Proof. intros (m & e & ->). by destruct x as [[]|[]| |[]]. Qed.

(** An offloaded block loops often enough and has vector operations. *)
Lemma classify_offload ops trip cfg :
  (exists m e, v128_ratio_threshold cfg = SpecFloat.S754_finite false m e) ->
  classify_ops ops trip cfg = Offload ->
  (exists n, trip = Some n /\ min_trip_count cfg <= n) /\ exists o, o ∈ ops /\ is_v128 o = true.
Proof.
  intros Hthr Hc. unfold classify_ops in Hc. destruct (_ && _)%bool eqn:Hb; [|done]. apply andb_true_iff in Hb as [Hr Ht].
  split; [destruct trip; [bool_props; eauto|done]|].
  destruct (filter (fun o => is_v128 o = true) ops) as [|o l] eqn:Hf.
  - exfalso. unfold v128_ratio_of in Hr. rewrite Hf in Hr. destruct ops as [|o ops].
    + destruct Hthr as (m & e & Ht'). by rewrite Ht' in Hr.
    + change (f32_of_usize (length (@nil Op))) with (SpecFloat.S754_zero false) in Hr. by rewrite sf_zero_not_ge in Hr.
  - exists o. assert (o ∈ filter (fun o => is_v128 o = true) ops) as [? ?]%list_elem_of_filter by (rewrite Hf; by left). done.
Qed.

Lemma walk_classified opts payloads w w' :
  walk opts payloads w = Ok w' ->
  Forall (fun pre => verdict pre = classify_ops (detector_ops pre) (trip_guess pre) (detector opts)) (pre_infos w) ->
  Forall (fun pre => verdict pre = classify_ops (detector_ops pre) (trip_guess pre) (detector opts)) (pre_infos w').
Proof.
  revert w. induction payloads as [|[p|e] payloads IH]; intros w Hw Hall; simpl in Hw; [by simplify_eq| |done].
  inv_bind Hw. eapply IH; [exact Hw|]. destruct p; simpl in E.
  - inv_bind E. by simplify_eq/=.
  - inv_bind E. by simplify_eq/=.
  - simplify_eq. by case_match.
  - inv_bind E. by simplify_eq/=.
  - unfold code_entry in E. inv_bind E. destruct body; simplify_eq/=. by rewrite Forall_app, Forall_singleton.
  - by simplify_eq.
Qed.

(** the rewriter leaves every other function alone.  Each body of the
    rewritten module is the original at its own position, or a trampoline;
    and a function is only ever replaced when the module has a memory, its
    signature is supported, and the detector saw a loop of at least the
    configured trip count with at least one vector operation. *)
Theorem rewrite_touches_only_candidates schedule payloads reencoded opts (c : KernelCache.t D) out c' i b :
  (exists m e, v128_ratio_threshold (detector opts) = SpecFloat.S754_finite false m e) ->
  rewrite_wasm schedule payloads reencoded opts c = (Ok out, c') ->
  bodies out !! i = Some b ->
  b = Reencoded i \/
  exists code f w pre, b = Swapped code /\ f ∈ offloaded_functions out /\
    walk opts payloads init_walk = Ok w /\ pre_infos w !! i = Some pre /\
    function_index f = num_function_imports w + Z.of_nat i /\
    has_memory pre = true /\ signature_ok pre = true /\
    (exists n, trip_guess pre = Some n /\ min_trip_count (detector opts) <= n) /\
    exists o, o ∈ detector_ops pre /\ is_v128 o = true.
Proof.
  intros Hthr Hrw Hb. unfold rewrite_wasm in Hrw. destruct (analyse _ _ _ _) as [[a c1]|] eqn:Ha; [|done].
  destruct reencoded; [|done]. injection Hrw as <- _. simpl in *.
  rewrite list_lookup_fmap, list_lookup_fmap in Hb.
  destruct (seq 0 (length (func_infos a)) !! i) as [i'|] eqn:Hseq; [|done].
  apply lookup_seq in Hseq as [-> Hlt]. simpl in *. injection Hb as <-.
  destruct (parse_function_body a i).2 as [f|] eqn:Hf.
  2:{ left. revert Hf. unfold parse_function_body. by repeat case_match. }
  right. destruct (parse_function_body_offloaded _ _ _ Hf) as (info & ty & code & Hii & Hfp & Hv & Hidx & _ & _ & Hbody).
  apply analyse_Ok in Ha as (w & Hw & _ & _ & Hn & Hinfo).
  destruct (Hinfo i info Hii) as (pre & Hpre & _ & _ & Hfpi). rewrite Hfp in Hfpi.
  destruct (slot_kernel pre) as [[fp ptx]|] eqn:Hs; simplify_eq/=.
  apply slot_kernel_Some in Hs as (Hverdict & Hmem & Hsig & _).
  pose proof (walk_classified _ _ _ _ Hw (Forall_nil_2 _)) as Hcl.
  pose proof (Forall_lookup_1 _ _ _ _ Hcl Hpre) as Hc. simpl in Hc. rewrite Hverdict in Hc. symmetry in Hc.
  apply classify_offload in Hc as [Htrip Hvec]; [|done].
  exists code, f, w, pre. split_and!; try done; [|by rewrite <-Hn].
  apply list_elem_of_omap. exists (parse_function_body a i). split; [|done].
  apply list_elem_of_fmap. exists i. split; [done|]. apply elem_of_seq. simpl. lia.
Qed.
End facts.

#[local] Existing Instance KernelCacheFacts.map_disk.

(** A module with a memory and one loop of vector additions. *)
Definition toy_payloads : list (result str Payload) :=
  map Ok [TypeSection [Ok [Some (mkFuncType [TI32] [TI32])]]; ImportSection [Ok FuncRef]; FunctionSection [Ok 0; Ok 0];
          MemorySection 1; CodeSectionEntry (Ok (map Ok (Loop :: replicate 9 F32x4Add)));
          CodeSectionEntry (Ok [Ok I32Add])].

Definition toy_cache : KernelCache.t (gmap CacheKey CachedKernel) := with_config (KernelCache.default_config).

Definition toy_rewrite := rewrite_wasm (H := Toy.toy) reverse toy_payloads (Ok ()) default_options toy_cache.

(** What the concrete run is known to produce. *)
Definition toy_expected (r : result RewriteError RewriteOutcome) : bool :=
  match r with
  | Ok out =>
      bool_decide (map function_index (offloaded_functions out) = [1]) &&
      (total_defined_functions out =? 2) && (length (bodies out) =? 2)%nat
  | Err _ => false
  end.

Lemma toy_expected_spec (r : result RewriteError RewriteOutcome * KernelCache.t (gmap CacheKey CachedKernel)) :
  toy_expected r.1 = true ->
  exists out c', r = (Ok out, c') /\ map function_index (offloaded_functions out) = [1] /\
    total_defined_functions out = 2 /\ length (bodies out) = 2%nat.
Proof.
  destruct r as [[out|] c']; simpl; [|done]. intros Hr. exists out, c'. bool_props.
  by match goal with H : (_ =? _)%nat = true |- _ => apply Nat.eqb_eq in H end.
Qed.

Lemma toy_rewrite_runs : toy_expected toy_rewrite.1 = true.
Proof. vm_compute. reflexivity. Qed.

(** A cache too small for the module evicts a kernel the same rewrite reports:
    with room for one, the first of two functions finds none. *)
Definition pair_payloads : list (result str Payload) :=
  map Ok [TypeSection [Ok [Some (mkFuncType [TI32] [TI32])]]; FunctionSection [Ok 0; Ok 0]; MemorySection 1;
          CodeSectionEntry (Ok (map Ok (Loop :: replicate 9 F32x4Add)));
          CodeSectionEntry (Ok (map Ok (Loop :: replicate 9 F32x4Mul)))].

Definition mixing : Primitives := {|
  blake3 m := to_le_bytes 32 (fold_left (fun h b => (h * 257 + u8_to_Z b) mod 2 ^ 256) m 0);
  hmac_sha256 k m := to_le_bytes 32 (from_le_bytes (k ++ m));
  zstd_encode _ chunks := concat chunks;
  zstd_stream b := (b, None);
  zstd_pulled b := length b;
|}.

Definition pair_served : option (list bool) :=
  match rewrite_wasm (H := mixing) id pair_payloads (Ok ()) default_options
          (with_config (mkConfig 1 None true) : KernelCache.t (gmap CacheKey CachedKernel)) with
  | (Ok out, c') =>
      Some (map (fun f => bool_decide (is_Some (get (H := mixing) true (for_tenant 0 (off_fingerprint f) 80) c').1))
              (offloaded_functions out))
  | (Err _, _) => None
  end.

Lemma small_cache_evicts_kernels : pair_served = Some [false; true].
Proof. vm_compute. reflexivity. Qed.

Lemma offloaded_functions_have_kernels_witness :
  exists out c' f ptx, toy_rewrite = (Ok out, c') /\ f ∈ offloaded_functions out /\
    (get (H := Toy.toy) true (for_tenant 0 (off_fingerprint f) 80) c').1 =
      Some (kernel_new (H := Toy.toy) (off_fingerprint f) ptx).
Proof.
  destruct (toy_expected_spec _ toy_rewrite_runs) as (out & c' & Hr & Hf & Ht & _).
  assert (exists f, f ∈ offloaded_functions out) as [f Hin]
    by (destruct (offloaded_functions out) as [|f l]; [discriminate Hf|exists f; left]).
  assert (Z.of_nat (length (lru toy_cache)) + total_defined_functions out <= capacity (config toy_cache)) as Hroom
    by (rewrite Ht; vm_compute; discriminate).
  destruct (offloaded_functions_have_kernels (H := Toy.toy) reverse toy_payloads (Ok ()) default_options toy_cache out c' f true
    (@reverse_Permutation PreFuncInfo) (with_config_inv KernelCache.default_config) eq_refl eq_refl Hr Hroom Hin)
    as (_ & bp & ptx & _ & _ & Hget).
  exists out, c', f, ptx. exact (conj Hr (conj Hin Hget)).
Defined.

Lemma rewrite_touches_only_candidates_witness :
  exists out c', toy_rewrite = (Ok out, c') /\ bodies out !! 1%nat = Some (Reencoded 1).
Proof.
  destruct (toy_expected_spec _ toy_rewrite_runs) as (out & c' & Hr & Hf & _ & Hl).
  exists out, c'. split; [exact Hr|].
  destruct (lookup_lt_is_Some_2 (bodies out) 1) as [b Hb]; [lia|]. rewrite Hb. f_equal.
  assert (exists m e, v128_ratio_threshold (detector default_options) = SpecFloat.S754_finite false m e) as Hthr
    by (repeat eexists).
  destruct (rewrite_touches_only_candidates (H := Toy.toy) reverse toy_payloads (Ok ()) default_options toy_cache out c' 1 b
    Hthr Hr Hb) as [->|(code & f & w & pre & _ & Hin & Hw & _ & Hidx & _)]; [reflexivity|].
  exfalso. assert (num_function_imports w = 1) as Hn by (vm_compute in Hw; injection Hw as <-; reflexivity).
  apply (list_elem_of_fmap_2 function_index) in Hin.
  change (function_index <$> offloaded_functions out) with (map function_index (offloaded_functions out)) in Hin.
  rewrite Hf, Hidx, Hn in Hin. by apply list_elem_of_singleton in Hin.
Defined.
End RewriteFacts.
