(* ===== verification/Snapshot.v ===== *)
(** * [tensor-wasm-snapshot]: capturing and restoring instance state

    Models [format.rs] (the trailer layout), [aead.rs] (encryption at rest),
    [writer.rs] and [reader.rs] with the crate's optional features compiled in.
    A snapshot leaves the writer in one of four forms: an artifact envelope
    (the default under an HMAC key), a zstd frame with an Ed25519 or an HMAC
    trailer, or a bare zstd frame.  bincode, crc32, the single-frame zstd
    decoder, Ed25519 and ChaCha20-Poly1305 are the parameters of
    [SnapshotPrimitives].  [SnapshotError] has one constructor per message the code
    formats into [TensorWasmError::Serialization].  The clock is an argument:
    the milliseconds since the epoch, [None] before it. *)

From S2P Require Import Prelude Core Primitives Artifacts.

(** ** [format.rs] *)

Module Format.
Definition SNAPSHOT_VERSION_V2 : Z := 2.
Definition SNAPSHOT_VERSION_V3 : Z := 3.
Definition SIGNATURE_KIND_HMAC_SHA256 : u8 := Byte.x01.
Definition HMAC_SHA256_SIG_LEN : nat := 32.
Definition SIGNATURE_KIND_ED25519 : u8 := Byte.x02.
Definition ED25519_SIG_LEN : nat := 64.
Definition V3_TRAILER_MAGIC : list u8 := bytes_of "S3T1".
Definition V3_TRAILER_MAGIC_LEN : nat := 4.

Inductive SignatureKind := HmacSha256 | Ed25519.

#[global] Instance SignatureKind_eq_dec : EqDecision SignatureKind.
Proof. solve_decision. Defined.

(** [kind as u8]. *)
Definition kind_byte (k : SignatureKind) : u8 :=
  match k with
  | HmacSha256 => SIGNATURE_KIND_HMAC_SHA256
  | Ed25519 => SIGNATURE_KIND_ED25519
  end.

Definition from_byte (byte : u8) : option SignatureKind :=
  if bool_decide (byte = SIGNATURE_KIND_HMAC_SHA256) then Some HmacSha256
  else if bool_decide (byte = SIGNATURE_KIND_ED25519) then Some Ed25519
  else None.

Definition signature_len (k : SignatureKind) : nat :=
  match k with
  | HmacSha256 => HMAC_SHA256_SIG_LEN
  | Ed25519 => ED25519_SIG_LEN
  end.

Definition trailer_len (k : SignatureKind) : nat := V3_TRAILER_MAGIC_LEN + 1 + signature_len k.
End Format.

(** ** The records of [writer.rs] *)

Record SnapshotMetadata := mkSnapshotMetadata {
  md_tenant_id : Z;
  md_instance_id : Z;
  md_created_unix_ms : Z;
  md_total_uncompressed_bytes : Z;
  md_sequence_no : Z;
  md_nonce : option (list u8);
}.

Record Snapshot := mkSnapshot {
  sn_magic : Z;
  sn_version : Z;
  sn_wasm_memory : list u8;
  sn_gpu_memory : list u8;
  sn_registers : list u8;
  sn_metadata : SnapshotMetadata;
  sn_crc32 : Z;
}.

#[global] Instance SnapshotMetadata_eq_dec : EqDecision SnapshotMetadata.
Proof. solve_decision. Defined.
#[global] Instance Snapshot_eq_dec : EqDecision Snapshot.
Proof. solve_decision. Defined.

Record InstanceState := mkInstanceState {
  st_tenant_id : Z;
  st_instance_id : Z;
  st_wasm_memory : list u8;
  st_gpu_memory : list u8;
  st_registers : list u8;
}.

Inductive blob_kind := WasmMemory | GpuMemory | Registers.

Inductive SnapshotError :=
| BlobTooLarge (kind : blob_kind) (len max : Z)
| ClockBeforeEpoch
| ClockOverflow
| EnvelopeEncode (e : ArtifactError)
| StorePut (e : ArtifactError)
| StoreGet (e : ArtifactError)
| InputTooLarge (len max : Z)
| EnvelopeNoKey
| EnvelopeBadHmac
| EnvelopeTooShort
| EnvelopeOther (e : ArtifactError)
| TrailerMissing
| TrailerLength (expected got : nat)
| TrailerMagic
| UnknownSignatureKind (b : u8)
| TrailerKindInconsistent
| NoEd25519Key
| Ed25519Malformed
| Ed25519Mismatch
| NoHmacKey
| HmacMismatch
| UnsignedButRequired
| ZstdDecode (e : str)
| DecompressedTooLarge (cap : Z)
| BincodeDecode (e : str)
| MagicMismatch (got : Z)
| BytesBeforeTrailer (n : Z)
| TrailingBytes (n : Z)
| V3TrailerMissing
| InnerVersionMismatch (got : Z)
| VersionMismatch (got : Z)
| CrcMismatch (expected got : Z)
| TotalOverflow
| TotalMismatch (expected got : Z)
| TooOld (created now max_age : Z)
| SequenceBelowFloor (seq floor : Z)
| NonceMismatch
| NonceMissing
| AeadEncryptFailed
| AeadBadMagic
| AeadTruncated
| AeadAuthFailed
| SinkFailed (e : str).

(** ** Third-party code *)

(** [bincode_writes] is the sequence of writes the encoder makes;
    [bincode_decode limit bytes] is the value at the front of [bytes] and the
    bytes it took.  [zstd_frame] is the output of the single-frame decoder and
    the error that ends it, [zstd_frame_pos limit bytes] the cursor's position
    after at most [limit] bytes of output were read. *)
Class SnapshotPrimitives := {
  crc32 : list u8 -> Z;
  bincode_writes : Snapshot -> list (list u8);
  bincode_decode : Z -> list u8 -> result str (Snapshot * nat);
  zstd_frame : list u8 -> list u8 * option str;
  zstd_frame_pos : Z -> list u8 -> nat;
  ed25519_public : list u8 -> list u8;
  ed25519_sign : list u8 -> list u8 -> list u8;
  ed25519_verify_strict : list u8 -> list u8 -> list u8 -> bool;
  aead_encrypt : list u8 -> list u8 -> list u8 -> list u8 -> option (list u8);
  aead_decrypt : list u8 -> list u8 -> list u8 -> list u8 -> option (list u8);
}.

(** The values a [Snapshot] of the code can have. *)
Record metadata_wf (m : SnapshotMetadata) : Prop := {
  wf_tenant : fits u64_max (md_tenant_id m);
  wf_instance : fits u128_max (md_instance_id m);
  wf_created : fits u64_max (md_created_unix_ms m);
  wf_total : fits u64_max (md_total_uncompressed_bytes m);
  wf_sequence : fits u64_max (md_sequence_no m);
  wf_nonce : forall n, md_nonce m = Some n -> length n = 16%nat;
}.

Record snapshot_wf (s : Snapshot) : Prop := {
  wf_magic : fits u32_max (sn_magic s);
  wf_version : fits u32_max (sn_version s);
  wf_wasm : fits u64_max (Z.of_nat (length (sn_wasm_memory s)));
  wf_gpu : fits u64_max (Z.of_nat (length (sn_gpu_memory s)));
  wf_regs : fits u64_max (Z.of_nat (length (sn_registers s)));
  wf_metadata : metadata_wf (sn_metadata s);
  wf_crc : fits u32_max (sn_crc32 s);
}.

(** Documented behaviour: a crc is a [u32]; decoding what was encoded gives it
    back when it is within the limit; a frame starts with zstd's magic number
    and decodes to what was compressed, with the cursor at its end once one
    byte more than that has been asked for; a signature is 64 bytes and
    verifies under its key; a ciphertext is 16 bytes longer than its message and opens. *)
Class SnapshotPrimitivesOk `{!Primitives, !SnapshotPrimitives} : Prop := {
  crc32_range m : fits u32_max (crc32 m);
  bincode_roundtrip limit s :
    snapshot_wf s -> Z.of_nat (length (concat (bincode_writes s))) <= limit ->
    exists n, bincode_decode limit (concat (bincode_writes s)) = Ok (s, n);
  zstd_frame_magic level chunks :
    take 4 (zstd_encode level chunks) = [Byte.x28; Byte.xb5; Byte.x2f; Byte.xfd];
  zstd_frame_roundtrip level chunks : zstd_frame (zstd_encode level chunks) = (concat chunks, None);
  zstd_frame_pos_end level chunks limit :
    Z.of_nat (length (concat chunks)) < limit ->
    zstd_frame_pos limit (zstd_encode level chunks) = length (zstd_encode level chunks);
  ed25519_sig_length k m : length (ed25519_sign k m) = 64%nat;
  ed25519_correct k m : ed25519_verify_strict (ed25519_public k) m (ed25519_sign k m) = true;
  aead_length k n aad m c : aead_encrypt k n aad m = Some c -> length c = (length m + 16)%nat;
  aead_correct k n aad m c : aead_encrypt k n aad m = Some c -> aead_decrypt k n aad c = Some m;
}.

(** ** [aead.rs] *)

Module Aead.
Section aead.
Context `{!SnapshotPrimitives}.

Definition AEAD_MAGIC : list u8 := bytes_of "twsAEAD1".
Definition AEAD_NONCE_LEN : nat := 12.
Definition AEAD_TAG_LEN : nat := 16.
Definition AEAD_HEADER_LEN : nat := 8 + AEAD_NONCE_LEN.

Definition encrypt_blob (blob key nonce : list u8) : result SnapshotError (list u8) :=
  ciphertext ← ok_or AeadEncryptFailed (aead_encrypt key nonce AEAD_MAGIC blob);
  Ok (AEAD_MAGIC ++ nonce ++ ciphertext).

Definition has_aead_magic (bytes : list u8) : bool :=
  bool_decide (8 <= length bytes)%nat && bool_decide (take 8 bytes = AEAD_MAGIC).

Definition decrypt_blob (bytes key : list u8) : result SnapshotError (list u8) :=
  if negb (has_aead_magic bytes) then Err AeadBadMagic
  else if bool_decide (length bytes < AEAD_HEADER_LEN + AEAD_TAG_LEN)%nat then Err AeadTruncated
  else
    let nonce := slice 8 AEAD_HEADER_LEN bytes in
    let ciphertext := drop AEAD_HEADER_LEN bytes in
    ok_or AeadAuthFailed (aead_decrypt key nonce AEAD_MAGIC ciphertext).
End aead.
End Aead.

(** ** [writer.rs] *)

Module Writer.
Import Format Artifacts.

Definition SNAPSHOT_MAGIC : Z := 0xBA115407.
Definition SNAPSHOT_VERSION : Z := SNAPSHOT_VERSION_V2.
Definition DEFAULT_ZSTD_LEVEL : Z := 3.
Definition MIN_ZSTD_LEVEL : Z := 1.
Definition MAX_ZSTD_LEVEL : Z := 22.
Definition MAX_WASM_MEMORY_BYTES : Z := 1024 * 1024 * 1024.
Definition MAX_GPU_MEMORY_BYTES : Z := 4 * 1024 * 1024 * 1024.
Definition MAX_REGISTERS_BYTES : Z := 1024 * 1024.
Definition MAX_TOTAL_PAYLOAD_BYTES : Z :=
  MAX_WASM_MEMORY_BYTES + MAX_GPU_MEMORY_BYTES + MAX_REGISTERS_BYTES + 65536.
Definition MAX_INPUT_BYTES : Z := 1024 * 1024 * 1024.
Definition MAX_DECOMPRESSED_BYTES : Z := 256 * 1024 * 1024.

Record SnapshotWriter := mkWriter {
  zstd_level : Z;
  hmac_key : option (list u8);
  ed25519_key : option (list u8);
  sequence_no : Z;
  nonce : option (list u8);
  use_legacy_envelope : bool;
  fixed_created_unix_ms : option Z;
}.

Definition new : SnapshotWriter := mkWriter DEFAULT_ZSTD_LEVEL None None 0 None false None.

Definition with_level (level : Z) : SnapshotWriter :=
  let clamped := Z.max MIN_ZSTD_LEVEL (Z.min level MAX_ZSTD_LEVEL) in
  mkWriter clamped None None 0 None false None.

Definition with_legacy_envelope (w : SnapshotWriter) : SnapshotWriter :=
  mkWriter (zstd_level w) (hmac_key w) (ed25519_key w) (sequence_no w) (nonce w) true
    (fixed_created_unix_ms w).

Definition with_created_unix_ms (w : SnapshotWriter) (ms : Z) : SnapshotWriter :=
  mkWriter (zstd_level w) (hmac_key w) (ed25519_key w) (sequence_no w) (nonce w)
    (use_legacy_envelope w) (Some ms).

Definition with_hmac_sha256_key (w : SnapshotWriter) (key : list u8) : SnapshotWriter :=
  mkWriter (zstd_level w) (Some key) (ed25519_key w) (sequence_no w) (nonce w)
    (use_legacy_envelope w) (fixed_created_unix_ms w).

Definition with_ed25519_signing_key (w : SnapshotWriter) (key : list u8) : SnapshotWriter :=
  mkWriter (zstd_level w) (hmac_key w) (Some key) (sequence_no w) (nonce w)
    (use_legacy_envelope w) (fixed_created_unix_ms w).

Definition with_sequence_no (w : SnapshotWriter) (seq : Z) : SnapshotWriter :=
  mkWriter (zstd_level w) (hmac_key w) (ed25519_key w) seq (nonce w)
    (use_legacy_envelope w) (fixed_created_unix_ms w).

Definition with_nonce (w : SnapshotWriter) (n : list u8) : SnapshotWriter :=
  mkWriter (zstd_level w) (hmac_key w) (ed25519_key w) (sequence_no w) (Some n)
    (use_legacy_envelope w) (fixed_created_unix_ms w).

Definition check_blob_size (kind : blob_kind) (len max : Z) : result SnapshotError () :=
  if max <? len then Err (BlobTooLarge kind len max) else Ok ().

Section writer.
Context `{!Primitives, !SnapshotPrimitives}.

(** The hasher is fed the three blobs in turn. *)
Definition payload_crc32 (wasm_memory gpu_memory registers : list u8) : Z :=
  crc32 (wasm_memory ++ gpu_memory ++ registers).

Definition created_ms (w : SnapshotWriter) (now : option Z) : result SnapshotError Z :=
  match fixed_created_unix_ms w with
  | Some ms => Ok ms
  | None =>
      match now with
      | None => Err ClockBeforeEpoch
      | Some ms => if u64_max <? ms then Err ClockOverflow else Ok ms
      end
  end.

Definition build_metadata (w : SnapshotWriter) (now : option Z) (state : InstanceState) :
    result SnapshotError (SnapshotMetadata * Z) :=
  _ ← check_blob_size WasmMemory (zlen (st_wasm_memory state)) MAX_WASM_MEMORY_BYTES;
  _ ← check_blob_size GpuMemory (zlen (st_gpu_memory state)) MAX_GPU_MEMORY_BYTES;
  _ ← check_blob_size Registers (zlen (st_registers state)) MAX_REGISTERS_BYTES;
  let total := zlen (st_wasm_memory state) + zlen (st_gpu_memory state) + zlen (st_registers state) in
  created ← created_ms w now;
  let crc := payload_crc32 (st_wasm_memory state) (st_gpu_memory state) (st_registers state) in
  Ok (mkSnapshotMetadata (st_tenant_id state) (st_instance_id state) created total
        (sequence_no w) (nonce w), crc).

(** The value both [SnapshotRef] literals build. *)
Definition snapshot_ref (version : Z) (state : InstanceState) (metadata : SnapshotMetadata)
    (crc : Z) : Snapshot :=
  mkSnapshot SNAPSHOT_MAGIC version (st_wasm_memory state) (st_gpu_memory state)
    (st_registers state) metadata crc.

Definition build_snapshot_ref (w : SnapshotWriter) (now : option Z) (state : InstanceState) :
    result SnapshotError Snapshot :=
  '(metadata, crc) ← build_metadata w now state;
  Ok (snapshot_ref SNAPSHOT_VERSION_V2 state metadata crc).

Definition encode_to_vec (s : Snapshot) : list u8 := concat (bincode_writes s).

Definition on_wire_version (w : SnapshotWriter) : Z :=
  match ed25519_key w, hmac_key w with
  | None, None => SNAPSHOT_VERSION
  | _, _ => SNAPSHOT_VERSION_V3
  end.

Definition append_trailer (kind : u8) (sig compressed : list u8) : list u8 :=
  compressed ++ V3_TRAILER_MAGIC ++ [kind] ++ sig.

Definition capture_legacy (w : SnapshotWriter) (now : option Z) (state : InstanceState) :
    result SnapshotError (list u8) :=
  '(metadata, crc) ← build_metadata w now state;
  let snapshot := snapshot_ref (on_wire_version w) state metadata crc in
  let compressed := zstd_encode (zstd_level w) (bincode_writes snapshot) in
  Ok (match ed25519_key w with
      | Some signing_key =>
          let message := compressed ++ V3_TRAILER_MAGIC ++ [SIGNATURE_KIND_ED25519] in
          append_trailer SIGNATURE_KIND_ED25519 (ed25519_sign signing_key message) compressed
      | None =>
          match hmac_key w with
          | Some key =>
              let message := compressed ++ V3_TRAILER_MAGIC ++ [SIGNATURE_KIND_HMAC_SHA256] in
              append_trailer SIGNATURE_KIND_HMAC_SHA256 (hmac_sha256 key message) compressed
          | None => compressed
          end
      end).

Definition capture_via_artifact_envelope (w : SnapshotWriter) (now : option Z)
    (state : InstanceState) (key : list u8) : result SnapshotError (list u8) :=
  snapshot ← build_snapshot_ref w now state;
  match encode_envelope_to_vec (encode_to_vec snapshot) key with
  | Ok envelope => Ok envelope
  | Err e => Err (EnvelopeEncode e)
  end.

Definition capture (w : SnapshotWriter) (now : option Z) (state : InstanceState) :
    result SnapshotError (list u8) :=
  match use_legacy_envelope w, ed25519_key w, hmac_key w with
  | false, None, Some key => capture_via_artifact_envelope w now state key
  | _, _, _ => capture_legacy w now state
  end.

Definition capture_encrypted (w : SnapshotWriter) (now : option Z) (state : InstanceState)
    (aead_key aead_nonce : list u8) : result SnapshotError (list u8) :=
  blob ← capture w now state;
  Aead.encrypt_blob blob aead_key aead_nonce.

Definition capture_to_artifact_store (w : SnapshotWriter) (now : option Z) (state : InstanceState)
    (store : DiskArtifactStore) (fault : option put_fault) (mtime : option Z) :
    stM Dir SnapshotError (list u8) :=
  fun d =>
    match build_snapshot_ref w now state with
    | Err e => (Err e, d)
    | Ok snapshot =>
        let '(r, d) := put store fault mtime (encode_to_vec snapshot) d in
        (match r with Ok hash => Ok hash | Err e => Err (StorePut e) end, d)
    end.
End writer.
End Writer.

(** ** [reader.rs] *)

(** The consumer of a streaming restore. *)
Class SnapshotSink (S : Type) := {
  sink_wasm_memory : list u8 -> stM S SnapshotError ();
  sink_gpu_memory : list u8 -> stM S SnapshotError ();
  sink_registers : list u8 -> stM S SnapshotError ();
}.

Module Reader.
Import Format Artifacts.

Record SnapshotReader := mkReader {
  max_decompressed : Z;
  hmac_key : option (list u8);
  hmac_keys : list (list u8);
  ed25519_verifying_key : option (list u8);
  require_signature : bool;
  min_sequence_no : option Z;
  expected_nonce : option (list u8);
  max_age : option Z;
}.

Definition new : SnapshotReader :=
  mkReader Writer.MAX_DECOMPRESSED_BYTES None [] None false None None None.

Definition with_hmac_sha256_key (r : SnapshotReader) (key : list u8) : SnapshotReader :=
  mkReader (max_decompressed r) (Some key) (hmac_keys r) (ed25519_verifying_key r)
    (require_signature r) (min_sequence_no r) (expected_nonce r) (max_age r).

Definition with_hmac_keys (r : SnapshotReader) (keys : list (list u8)) : SnapshotReader :=
  mkReader (max_decompressed r) (hmac_key r) keys (ed25519_verifying_key r)
    (require_signature r) (min_sequence_no r) (expected_nonce r) (max_age r).

Definition with_ed25519_verifying_key (r : SnapshotReader) (key : list u8) : SnapshotReader :=
  mkReader (max_decompressed r) (hmac_key r) (hmac_keys r) (Some key)
    (require_signature r) (min_sequence_no r) (expected_nonce r) (max_age r).

Definition with_expected_nonce (r : SnapshotReader) (n : list u8) : SnapshotReader :=
  mkReader (max_decompressed r) (hmac_key r) (hmac_keys r) (ed25519_verifying_key r)
    (require_signature r) (min_sequence_no r) (Some n) (max_age r).

Definition with_min_sequence_no (r : SnapshotReader) (floor : Z) : SnapshotReader :=
  mkReader (max_decompressed r) (hmac_key r) (hmac_keys r) (ed25519_verifying_key r)
    (require_signature r) (Some floor) (expected_nonce r) (max_age r).

Definition requiring_signature (r : SnapshotReader) : SnapshotReader :=
  mkReader (max_decompressed r) (hmac_key r) (hmac_keys r) (ed25519_verifying_key r)
    true (min_sequence_no r) (expected_nonce r) (max_age r).

Definition with_max_decompressed (r : SnapshotReader) (max : Z) : SnapshotReader :=
  mkReader max (hmac_key r) (hmac_keys r) (ed25519_verifying_key r)
    (require_signature r) (min_sequence_no r) (expected_nonce r) (max_age r).

(** [max_age] is the duration's [as_millis]. *)
Definition with_max_age (r : SnapshotReader) (age : Z) : SnapshotReader :=
  mkReader (max_decompressed r) (hmac_key r) (hmac_keys r) (ed25519_verifying_key r)
    (require_signature r) (min_sequence_no r) (expected_nonce r) (Some age).

Definition check_freshness (r : SnapshotReader) (now : option Z) (created_unix_ms : Z) :
    result SnapshotError () :=
  match max_age r, now with
  | None, _ | _, None => Ok ()
  | Some max_age, Some now_unix_ms =>
      if u64_max <? now_unix_ms then Ok ()
      else
        let age_ms := sat_sub now_unix_ms created_unix_ms in
        let max_age_ms := try_from_or u64_max u64_max max_age in
        if max_age_ms <? age_ms then Err (TooOld created_unix_ms now_unix_ms max_age_ms) else Ok ()
  end.

Definition check_replay (r : SnapshotReader) (m : SnapshotMetadata) : result SnapshotError () :=
  _ ← match min_sequence_no r with
      | Some floor =>
          if md_sequence_no m <? floor then Err (SequenceBelowFloor (md_sequence_no m) floor)
          else Ok ()
      | None => Ok ()
      end;
  match expected_nonce r with
  | Some expected =>
      match md_nonce m with
      | Some actual => if bool_decide (actual = expected) then Ok () else Err NonceMismatch
      | None => Err NonceMissing
      end
  | None => Ok ()
  end.

(** The two passes of [detect_v3_trailer]. *)
Definition trailer_at (bytes : list u8) (kind : SignatureKind) : bool :=
  let start := (length bytes - trailer_len kind)%nat in
  bool_decide (trailer_len kind <= length bytes)%nat &&
  bool_decide (slice start (start + V3_TRAILER_MAGIC_LEN) bytes = V3_TRAILER_MAGIC) &&
  bool_decide (bytes !! (start + V3_TRAILER_MAGIC_LEN)%nat = Some (kind_byte kind)).

Definition detect_v3_trailer (bytes : list u8) : option (SignatureKind * nat) :=
  if trailer_at bytes Ed25519 then Some (Ed25519, (length bytes - trailer_len Ed25519)%nat)
  else if trailer_at bytes HmacSha256 then
    Some (HmacSha256, (length bytes - trailer_len HmacSha256)%nat)
  else
    let start := (length bytes - trailer_len HmacSha256)%nat in
    if bool_decide (trailer_len HmacSha256 <= length bytes)%nat &&
       bool_decide (slice start (start + V3_TRAILER_MAGIC_LEN) bytes = V3_TRAILER_MAGIC)
    then Some (HmacSha256, start) else None.

Section reader.
Context `{!Primitives, !SnapshotPrimitives}.

Definition hmac_over_prefix (bytes : list u8) (prefix_len : nat) (kind : u8) (key : list u8) : list u8 :=
  hmac_sha256 key (take prefix_len bytes ++ V3_TRAILER_MAGIC ++ [kind]).

(** The keys in the order both loops try them. *)
Definition candidate_keys (r : SnapshotReader) : list (list u8) :=
  hmac_keys r ++ option_list (hmac_key r).

(** Every key is tried; the comparisons are accumulated. *)
Fixpoint hmac_matches (bytes : list u8) (prefix_len : nat) (kind : u8) (sig : list u8)
    (keys : list (list u8)) (matched : bool) : bool :=
  match keys with
  | [] => matched
  | key :: keys =>
      hmac_matches bytes prefix_len kind sig keys
        (matched || bool_decide (hmac_over_prefix bytes prefix_len kind key = sig))
  end.

Definition verify_v3_trailer (r : SnapshotReader) (bytes : list u8) (prefix_len : nat)
    (kind : SignatureKind) : result SnapshotError () :=
  if bool_decide (length bytes < prefix_len)%nat then Err TrailerMissing else
  let trailer := drop prefix_len bytes in
  if negb (bool_decide (length trailer = trailer_len kind)) then
    Err (TrailerLength (trailer_len kind) (length trailer)) else
  if negb (bool_decide (take V3_TRAILER_MAGIC_LEN trailer = V3_TRAILER_MAGIC)) then Err TrailerMagic else
  kind_b ← ok_or TrailerMissing (trailer !! V3_TRAILER_MAGIC_LEN);
  let sig_bytes := drop (V3_TRAILER_MAGIC_LEN + 1) trailer in
  parsed_kind ← ok_or (UnknownSignatureKind kind_b) (from_byte kind_b);
  if negb (bool_decide (parsed_kind = kind)) then Err TrailerKindInconsistent else
  match kind with
  | Ed25519 =>
      verifying_key ← ok_or NoEd25519Key (ed25519_verifying_key r);
      if negb (bool_decide (length sig_bytes = 64%nat)) then Err Ed25519Malformed else
      let message := take prefix_len bytes ++ V3_TRAILER_MAGIC ++ [kind_b] in
      if ed25519_verify_strict verifying_key message sig_bytes then Ok () else Err Ed25519Mismatch
  | HmacSha256 =>
      let keys := candidate_keys r in
      if bool_decide (keys = []) then Err NoHmacKey
      else if hmac_matches bytes prefix_len kind_b sig_bytes keys false then Ok ()
      else Err HmacMismatch
  end.

(** The checks every path makes on a decoded snapshot: the blob caps, the
    checksum, the recorded total, freshness and replay. *)
Definition check_snapshot (r : SnapshotReader) (now : option Z) (s : Snapshot) :
    result SnapshotError () :=
  _ ← Writer.check_blob_size WasmMemory (zlen (sn_wasm_memory s)) Writer.MAX_WASM_MEMORY_BYTES;
  _ ← Writer.check_blob_size GpuMemory (zlen (sn_gpu_memory s)) Writer.MAX_GPU_MEMORY_BYTES;
  _ ← Writer.check_blob_size Registers (zlen (sn_registers s)) Writer.MAX_REGISTERS_BYTES;
  let expected := Writer.payload_crc32 (sn_wasm_memory s) (sn_gpu_memory s) (sn_registers s) in
  if negb (sn_crc32 s =? expected) then Err (CrcMismatch expected (sn_crc32 s)) else
  sum ← ok_or TotalOverflow (checked_add usize_max (zlen (sn_wasm_memory s)) (zlen (sn_gpu_memory s)));
  actual_total ← ok_or TotalOverflow (checked_add usize_max sum (zlen (sn_registers s)));
  if negb (actual_total =? md_total_uncompressed_bytes (sn_metadata s)) then
    Err (TotalMismatch actual_total (md_total_uncompressed_bytes (sn_metadata s))) else
  _ ← check_freshness r now (md_created_unix_ms (sn_metadata s));
  check_replay r (sn_metadata s).

(** bincode under [MAX_TOTAL_PAYLOAD_BYTES], and the magic check. *)
Definition decode_snapshot (bytes : list u8) : result SnapshotError Snapshot :=
  match bincode_decode Writer.MAX_TOTAL_PAYLOAD_BYTES bytes with
  | Err e => Err (BincodeDecode e)
  | Ok (s, _) =>
      if negb (sn_magic s =? Writer.SNAPSHOT_MAGIC) then Err (MagicMismatch (sn_magic s)) else Ok s
  end.

(** The key loop of [try_restore_artifact_envelope]: only a MAC mismatch moves
    on to the next key. *)
Fixpoint open_envelope (bytes : list u8) (cap : Z) (keys : list (list u8)) :
    result SnapshotError (list u8) :=
  match keys with
  | [] => Err EnvelopeBadHmac
  | key :: keys =>
      match decode_envelope_from_bytes_with_cap bytes key cap with
      | Ok p => Ok p
      | Err BadHmac => open_envelope bytes cap keys
      | Err BadMagic => Err EnvelopeTooShort
      | Err e => Err (EnvelopeOther e)
      end
  end.

Definition try_restore_artifact_envelope (r : SnapshotReader) (now : option Z) (bytes : list u8) :
    result SnapshotError (option Snapshot) :=
  if bool_decide (length bytes < 16)%nat || negb (bool_decide (take 16 bytes = ARTIFACT_MAGIC))
  then Ok None
  else if bool_decide (candidate_keys r = []) then Err EnvelopeNoKey
  else
    payload ← open_envelope bytes (max_decompressed r) (candidate_keys r);
    s ← decode_snapshot payload;
    if negb (sn_version s =? SNAPSHOT_VERSION_V2) then Err (InnerVersionMismatch (sn_version s))
    else _ ← check_snapshot r now s; Ok (Some s).

(** The version consistency match of [restore]. *)
Definition check_version (is_v3 : bool) (version : Z) (consumed len : nat) : result SnapshotError () :=
  let past := sat_sub (Z.of_nat len) (Z.of_nat consumed) in
  if is_v3 then
    if version =? SNAPSHOT_VERSION_V3 then
      if bool_decide (consumed = len) then Ok () else Err (BytesBeforeTrailer past)
    else Err (InnerVersionMismatch version)
  else if version =? SNAPSHOT_VERSION_V2 then
    if bool_decide (consumed = len) then Ok () else Err (TrailingBytes past)
  else if version =? SNAPSHOT_VERSION_V3 then Err V3TrailerMissing
  else Err (VersionMismatch version).

Definition restore (r : SnapshotReader) (now : option Z) (bytes : list u8) :
    result SnapshotError Snapshot :=
  if Writer.MAX_INPUT_BYTES <? zlen bytes then Err (InputTooLarge (zlen bytes) Writer.MAX_INPUT_BYTES)
  else
    found ← try_restore_artifact_envelope r now bytes;
    match found with
    | Some s => Ok s
    | None =>
        let detected := detect_v3_trailer bytes in
        let is_v3 := bool_decide (is_Some detected) in
        prefix_len ← match detected with
                     | Some (kind, p) => _ ← verify_v3_trailer r bytes p kind; Ok p
                     | None => Ok (length bytes)
                     end;
        if negb is_v3 && require_signature r then Err UnsignedButRequired
        else
          let auth_prefix := take prefix_len bytes in
          let cap := max_decompressed r in
          match read_to_end_take (probe_limit cap) (zstd_frame auth_prefix) with
          | Err e => Err (ZstdDecode e)
          | Ok decompressed =>
              let zstd_consumed := zstd_frame_pos (probe_limit cap) auth_prefix in
              if cap <? zlen decompressed then Err (DecompressedTooLarge cap)
              else
                s ← decode_snapshot decompressed;
                _ ← check_version is_v3 (sn_version s) zstd_consumed (length auth_prefix);
                _ ← check_snapshot r now s;
                Ok s
          end
    end.

Definition verify_only (r : SnapshotReader) (now : option Z) (bytes : list u8) :
    result SnapshotError SnapshotMetadata :=
  s ← restore r now bytes; Ok (sn_metadata s).

Definition restore_decrypted (r : SnapshotReader) (now : option Z) (bytes aead_key : list u8) :
    result SnapshotError Snapshot :=
  plaintext ← Aead.decrypt_blob bytes aead_key; restore r now plaintext.

Definition restore_streaming {S} `{!SnapshotSink S} (r : SnapshotReader) (now : option Z)
    (bytes : list u8) : stM S SnapshotError SnapshotMetadata :=
  s ← lift (restore r now bytes);
  _ ← sink_wasm_memory (sn_wasm_memory s);
  _ ← sink_gpu_memory (sn_gpu_memory s);
  _ ← sink_registers (sn_registers s);
  mret (sn_metadata s).

Definition restore_from_artifact_store (r : SnapshotReader) (now : option Z)
    (store : DiskArtifactStore) (hash : list u8) (d : Dir) : result SnapshotError Snapshot :=
  match get store hash d with
  | Err e => Err (StoreGet e)
  | Ok bytes =>
      s ← decode_snapshot bytes;
      if negb (sn_version s =? SNAPSHOT_VERSION_V2) then Err (InnerVersionMismatch (sn_version s))
      else _ ← check_snapshot r now s; Ok s
  end.
End reader.

(** [WriteSink] over an [io::Write] given by its [write_all]. *)
Section write_sink.
Context {W : Type} (write_all : list u8 -> W -> result str () * W).

Definition write_blob (bytes : list u8) : stM W SnapshotError () :=
  fun out =>
    let '(res, out) := write_all bytes out in
    (match res with Ok _ => Ok () | Err e => Err (SinkFailed e) end, out).

#[local] Instance WriteSink : SnapshotSink W := {
  sink_wasm_memory := write_blob;
  sink_gpu_memory := write_blob;
  sink_registers := write_blob;
}.

Definition restore_to_writer `{!Primitives, !SnapshotPrimitives} (r : SnapshotReader)
    (now : option Z) (bytes : list u8) : stM W SnapshotError SnapshotMetadata :=
  restore_streaming r now bytes.
End write_sink.
End Reader.

(** ** What a restored snapshot satisfies *)

Module SnapshotFacts.
Import Format Artifacts ArtifactNames EnvelopeFacts Refinement Reader.

(** The policy of a reader, as conditions on a snapshot. *)
Record accepted `{!SnapshotPrimitives} (r : SnapshotReader) (now : option Z) (s : Snapshot) : Prop := {
  acc_wasm : zlen (sn_wasm_memory s) <= Writer.MAX_WASM_MEMORY_BYTES;
  acc_gpu : zlen (sn_gpu_memory s) <= Writer.MAX_GPU_MEMORY_BYTES;
  acc_regs : zlen (sn_registers s) <= Writer.MAX_REGISTERS_BYTES;
  acc_crc : sn_crc32 s = crc32 (sn_wasm_memory s ++ sn_gpu_memory s ++ sn_registers s);
  acc_total : md_total_uncompressed_bytes (sn_metadata s) =
    zlen (sn_wasm_memory s ++ sn_gpu_memory s ++ sn_registers s);
  acc_fresh age t : max_age r = Some age -> now = Some t -> t <= u64_max ->
    sat_sub t (md_created_unix_ms (sn_metadata s)) <= Z.min age u64_max;
  acc_floor floor : min_sequence_no r = Some floor -> floor <= md_sequence_no (sn_metadata s);
  acc_nonce n : expected_nonce r = Some n -> md_nonce (sn_metadata s) = Some n;
}.

Section facts.
Context `{!Primitives, !SnapshotPrimitives}.

Lemma check_blob_size_Ok kind len max : Writer.check_blob_size kind len max = Ok () <-> len <= max.
Proof. unfold Writer.check_blob_size. destruct (max <? len) eqn:?; bool_props; split; done || lia. Qed.

Lemma check_freshness_Ok r now created :
  check_freshness r now created = Ok () <->
  (forall age t, max_age r = Some age -> now = Some t -> t <= u64_max ->
   sat_sub t created <= Z.min age u64_max).
Proof.
  unfold check_freshness. destruct (max_age r) as [age|]; [|naive_solver].
  destruct now as [t|]; [|naive_solver].
  assert (try_from_or u64_max u64_max age = Z.min age u64_max) as ->
    by (unfold try_from_or; destruct (age <=? u64_max) eqn:?; bool_props; lia).
  destruct (u64_max <? t) eqn:?; bool_props; [split; [|done]; intros _ ?? [= <-] [= <-]; lia|].
  destruct (_ <? sat_sub _ _) eqn:?; bool_props; (split; [|try done]); [done| |naive_solver lia].
  intros Hf. specialize (Hf _ _ eq_refl eq_refl). lia.
Qed.

Lemma check_replay_Ok r m :
  check_replay r m = Ok () <->
  (forall floor, min_sequence_no r = Some floor -> floor <= md_sequence_no m) /\
  (forall n, expected_nonce r = Some n -> md_nonce m = Some n).
Proof.
  unfold check_replay. destruct (min_sequence_no r) as [floor|].
  - destruct (md_sequence_no m <? floor) eqn:?; bool_props; simpl.
    + split; [done|]. intros [Hf _]. specialize (Hf _ eq_refl). lia.
    + destruct (expected_nonce r), (md_nonce m); try case_bool_decide; naive_solver.
  - simpl. destruct (expected_nonce r), (md_nonce m); try case_bool_decide; naive_solver.
Qed.

Lemma check_snapshot_Ok r now s : check_snapshot r now s = Ok () <-> accepted r now s.
Proof.
  unfold check_snapshot. split.
  - intros Hc. inv_bind Hc. inv_bind Hc. inv_bind Hc.
    destruct (sn_crc32 s =? _) eqn:Hcrc; [|done]. cbn [negb] in Hc. inv_bind Hc. inv_bind Hc.
    destruct (_ =? md_total_uncompressed_bytes _) eqn:Ht; [|done]. cbn [negb] in Hc. inv_bind Hc.
    bool_props. repeat match goal with u : unit |- _ => destruct u end.
    rewrite check_blob_size_Ok in *.
    rewrite check_freshness_Ok in *. apply check_replay_Ok in Hc as [??].
    repeat match goal with H : ok_or _ _ = Ok _ |- _ => unfold ok_or in H end.
    repeat case_match; simplify_eq. rewrite checked_add_Some in *.
    split; try done. unfold zlen in *. rewrite !length_app. lia.
  - intros [Hw Hg Hr Hc Ht Hf Hfl Hn].
    rewrite (proj2 (check_blob_size_Ok _ _ _) Hw), (proj2 (check_blob_size_Ok _ _ _) Hg),
      (proj2 (check_blob_size_Ok _ _ _) Hr). cbn [mbind result_bind].
    unfold Writer.payload_crc32. rewrite Hc, Z.eqb_refl. cbn [negb].
    unfold Writer.MAX_WASM_MEMORY_BYTES, Writer.MAX_GPU_MEMORY_BYTES, Writer.MAX_REGISTERS_BYTES in *.
    assert (0 <= zlen (sn_wasm_memory s) /\ 0 <= zlen (sn_gpu_memory s) /\ 0 <= zlen (sn_registers s))
      as (? & ? & ?) by (unfold zlen; lia).
    rewrite checked_add_fits by lia. cbn [ok_or mbind result_bind].
    rewrite checked_add_fits by lia. cbn [ok_or mbind result_bind].
    rewrite Ht. unfold zlen at 4. rewrite !length_app. unfold zlen at 1 2 3.
    rewrite (proj2 (Z.eqb_eq _ _)) by lia. cbn [negb].
    rewrite (proj2 (check_freshness_Ok _ _ _)) by done. cbn [mbind result_bind]. by apply check_replay_Ok.
Qed.

(** [sig] vouches for [msg] under a key the reader holds. *)
Definition vouched (r : SnapshotReader) (kind : SignatureKind) (msg sig : list u8) : Prop :=
  match kind with
  | Ed25519 => exists vk, ed25519_verifying_key r = Some vk /\ ed25519_verify_strict vk msg sig = true
  | HmacSha256 => exists key, key ∈ candidate_keys r /\ hmac_sha256 key msg = sig
  end.

Definition signed_message (prefix : list u8) (kind : SignatureKind) : list u8 :=
  prefix ++ V3_TRAILER_MAGIC ++ [kind_byte kind].

Lemma from_byte_Some b k : from_byte b = Some k <-> b = kind_byte k.
Proof. unfold from_byte. repeat case_bool_decide; destruct k; naive_solver. Qed.

Lemma hmac_matches_spec bytes p kb sig keys m :
  hmac_matches bytes p kb sig keys m = true <->
  m = true \/ exists key, key ∈ keys /\ hmac_over_prefix bytes p kb key = sig.
Proof.
  revert m. induction keys as [|key keys IH]; intros m; simpl.
  - set_solver.
  - rewrite IH, orb_true_iff, bool_decide_eq_true. set_solver.
Qed.

Lemma trailer_shape (t : list u8) b :
  take V3_TRAILER_MAGIC_LEN t = V3_TRAILER_MAGIC -> t !! V3_TRAILER_MAGIC_LEN = Some b ->
  t = V3_TRAILER_MAGIC ++ [b] ++ drop (V3_TRAILER_MAGIC_LEN + 1) t.
Proof.
  intros Hm Hb. rewrite <-(take_drop V3_TRAILER_MAGIC_LEN t) at 1. rewrite Hm. f_equal.
  by rewrite (drop_S _ _ _ Hb), Nat.add_1_r.
Qed.

Lemma trailer_len_sig kind sig :
  length (V3_TRAILER_MAGIC ++ [kind_byte kind] ++ sig) = trailer_len kind <->
  length sig = signature_len kind.
Proof. unfold trailer_len, V3_TRAILER_MAGIC_LEN. simpl. lia. Qed.

Lemma verify_v3_trailer_Ok r bytes p kind :
  verify_v3_trailer r bytes p kind = Ok () <->
  exists sig, length sig = signature_len kind /\ (p <= length bytes)%nat /\
    drop p bytes = V3_TRAILER_MAGIC ++ [kind_byte kind] ++ sig /\
    vouched r kind (signed_message (take p bytes) kind) sig.
Proof.
  unfold verify_v3_trailer, signed_message. split.
  - case_bool_decide as Hp; [done|]. case_bool_decide as Hlen; [|done].
    case_bool_decide as Hm; [|done]. cbn [negb]. intros Hv.
    destruct (drop p bytes !! _) as [b|] eqn:Hb; [|done]. cbn [ok_or mbind result_bind] in Hv.
    destruct (from_byte b) as [k|] eqn:Hk; [|done]. cbn [ok_or mbind result_bind] in Hv.
    case_bool_decide; [|done]. cbn [negb] in Hv. apply from_byte_Some in Hk as ->. subst k.
    pose proof (trailer_shape _ _ Hm Hb) as Hshape.
    exists (drop (V3_TRAILER_MAGIC_LEN + 1) (drop p bytes)).
    rewrite <-trailer_len_sig, <-Hshape. split_and!; [done|lia|done|].
    destruct kind; cbn [vouched].
    + case_bool_decide; [done|]. destruct (hmac_matches _ _ _ _ _ _) eqn:Hh; [|done].
      apply hmac_matches_spec in Hh as [?|(key & ? & Hkey)]; [done|]. by exists key.
    + destruct (ed25519_verifying_key r) as [vk|]; [|done]. cbn [ok_or mbind result_bind] in Hv.
      case_bool_decide; [|done]. cbn [negb] in Hv. destruct (ed25519_verify_strict _ _ _) eqn:?; [|done].
      by exists vk.
  - intros (sig & Hsig & Hp & Hd & Hv). rewrite bool_decide_eq_false_2 by lia.
    rewrite Hd, (proj2 (trailer_len_sig _ _) Hsig), !bool_decide_eq_true_2 by done. cbn [negb].
    change ((_ ++ [kind_byte kind] ++ sig) !! _) with (Some (kind_byte kind)). cbn [ok_or mbind result_bind].
    rewrite (proj2 (from_byte_Some _ _) eq_refl). cbn [ok_or mbind result_bind].
    rewrite bool_decide_eq_true_2 by done. cbn [negb]. destruct kind; cbn [vouched] in Hv.
    + destruct Hv as (key & Hkey & Hh). rewrite bool_decide_eq_false_2 by (by intros Hk; rewrite Hk in Hkey; apply not_elem_of_nil in Hkey).
      rewrite (proj2 (hmac_matches_spec _ _ _ _ _ _)); [done|]. right. by exists key.
    + destruct Hv as (vk & -> & Hvk). cbn [ok_or mbind result_bind].
      change (drop _ (_ ++ [kind_byte Ed25519] ++ sig)) with sig.
      rewrite bool_decide_eq_true_2 by done. cbn [negb]. by rewrite Hvk.
Qed.

(** [prefix] is one zstd frame, to its last byte, of an encoding of [s]. *)
Definition frame_of (r : SnapshotReader) (prefix : list u8) (s : Snapshot) : Prop :=
  exists d, zstd_frame prefix = (d, None) /\ zlen d <= max_decompressed r /\
    decode_snapshot d = Ok s /\ zstd_frame_pos (max_decompressed r + 1) prefix = length prefix.

(** Where an accepted snapshot can come from. *)
Inductive provenance (r : SnapshotReader) (bytes : list u8) (s : Snapshot) : Prop :=
| FromEnvelope key p body :
    key ∈ candidate_keys r -> bytes = sealed key (blake3 p) body -> zstd_stream body = (p, None) ->
    zlen p <= max_decompressed r -> decode_snapshot p = Ok s -> sn_version s = SNAPSHOT_VERSION_V2 ->
    provenance r bytes s
| FromSigned kind prefix sig :
    bytes = signed_message prefix kind ++ sig -> length sig = signature_len kind ->
    vouched r kind (signed_message prefix kind) sig ->
    frame_of r prefix s -> sn_version s = SNAPSHOT_VERSION_V3 -> provenance r bytes s
| FromUnsigned :
    require_signature r = false -> frame_of r bytes s -> sn_version s = SNAPSHOT_VERSION_V2 ->
    provenance r bytes s.

Lemma open_envelope_Ok bytes cap keys p :
  open_envelope bytes cap keys = Ok p ->
  exists key, key ∈ keys /\ decode_envelope_from_bytes_with_cap bytes key cap = Ok p.
Proof.
  induction keys as [|key keys IH]; simpl; [done|].
  destruct (decode_envelope_from_bytes_with_cap bytes key cap) as [|[]] eqn:Hd; try done.
  - intros [= ->]. exists key. split; [left|done].
  - intros (key' & ? & ?)%IH. exists key'. split; [by right|done].
Qed.

Lemma envelope_sound r now bytes s :
  0 <= max_decompressed r < u64_max ->
  try_restore_artifact_envelope r now bytes = Ok (Some s) ->
  accepted r now s /\ provenance r bytes s.
Proof.
  intros Hcap. unfold try_restore_artifact_envelope.
  destruct (_ || _); [done|]. case_bool_decide; [done|]. intros He. inv_bind He. inv_bind He.
  destruct (_ =? _) eqn:Hv; [|done]. cbn [negb] in He. inv_bind He. simplify_eq/=. bool_props.
  destruct a1. apply check_snapshot_Ok in E1. split; [done|].
  apply open_envelope_Ok in E as (key & Hkey & Hd).
  apply decode_inv in Hd as (Hlen & body & -> & Hz); [|done]. by eapply FromEnvelope.
Qed.

Lemma check_version_Ok is_v3 v consumed len :
  check_version is_v3 v consumed len = Ok () <->
  consumed = len /\ v = if is_v3 then SNAPSHOT_VERSION_V3 else SNAPSHOT_VERSION_V2.
Proof.
  unfold check_version, SNAPSHOT_VERSION_V2, SNAPSHOT_VERSION_V3.
  destruct is_v3, (v =? 3) eqn:?, (v =? 2) eqn:?; bool_props; try case_bool_decide; naive_solver lia.
Qed.

(** What the part of [restore] below the signature check accepts. *)
Definition restore_frame (r : SnapshotReader) (now : option Z) (is_v3 : bool) (auth_prefix : list u8) :
    result SnapshotError Snapshot :=
  match read_to_end_take (probe_limit (max_decompressed r)) (zstd_frame auth_prefix) with
  | Err e => Err (ZstdDecode e)
  | Ok decompressed =>
      let zstd_consumed := zstd_frame_pos (probe_limit (max_decompressed r)) auth_prefix in
      if max_decompressed r <? zlen decompressed then Err (DecompressedTooLarge (max_decompressed r))
      else
        s ← decode_snapshot decompressed;
        _ ← check_version is_v3 (sn_version s) zstd_consumed (length auth_prefix);
        _ ← check_snapshot r now s;
        Ok s
  end.

Lemma restore_frame_Ok r now is_v3 prefix s :
  0 <= max_decompressed r < u64_max ->
  restore_frame r now is_v3 prefix = Ok s <->
  accepted r now s /\ frame_of r prefix s /\
  sn_version s = if is_v3 then SNAPSHOT_VERSION_V3 else SNAPSHOT_VERSION_V2.
Proof.
  intros Hcap. unfold restore_frame, frame_of. split.
  - destruct (read_to_end_take _ _) as [d|] eqn:Hr; [|done].
    destruct (max_decompressed r <? zlen d) eqn:Hlen; [done|]. bool_props.
    intros Hd. inv_bind Hd. inv_bind Hd. inv_bind Hd. simplify_eq/=. destruct a0, a1.
    apply check_version_Ok in E0 as [Hpos ?]. apply check_snapshot_Ok in E1.
    rewrite probe_limit_spec in Hpos by done.
    destruct (proj1 (read_within_cap _ _ d Hcap) (conj Hr Hlen)) as [? _]. by eauto 10.
  - intros (Hacc & (d & Hz & Hlen & Hdec & Hpos) & Hver).
    destruct (proj2 (read_within_cap _ _ d Hcap) (conj Hz Hlen)) as [-> _].
    rewrite (proj2 (Z.ltb_ge _ _)), Hdec by done. cbn [mbind result_bind].
    rewrite probe_limit_spec by done. rewrite (proj2 (check_version_Ok _ _ _ _)) by done.
    cbn [mbind result_bind]. by rewrite (proj2 (check_snapshot_Ok _ _ _)).
Qed.

Lemma restore_sound r now bytes s :
  0 <= max_decompressed r < u64_max -> restore r now bytes = Ok s ->
  accepted r now s /\ provenance r bytes s.
Proof.
  intros Hcap. unfold restore. destruct (_ <? zlen bytes); [done|]. intros Hr. inv_bind Hr.
  destruct a as [s'|]; [simplify_eq; by apply envelope_sound|].
  destruct (detect_v3_trailer bytes) as [[kind p]|].
  - rewrite bool_decide_eq_true_2 in Hr by done. cbn [negb andb] in Hr. inv_bind Hr. inv_bind E0.
    simplify_eq. destruct a0. apply verify_v3_trailer_Ok in E1 as (sig & Hsig & Hp & Hd & Hv).
    change (restore_frame r now true (take a bytes) = Ok s) in Hr.
    apply restore_frame_Ok in Hr as (? & ? & ?); [|done]. split; [done|].
    eapply (FromSigned _ _ _ kind (take a bytes) sig); [|done..].
    unfold signed_message. rewrite <-!app_assoc, <-Hd. by rewrite take_drop.
  - rewrite bool_decide_eq_false_2 in Hr by (intros [? ?]; done). cbn [negb andb mbind result_bind] in Hr.
    destruct (require_signature r) eqn:Hreq; [done|].
    change (restore_frame r now false (take (length bytes) bytes) = Ok s) in Hr.
    rewrite firstn_all in Hr. apply restore_frame_Ok in Hr as (? & ? & ?); [|done].
    split; [done|]. by apply FromUnsigned.
Qed.

(** A wrong key is refused by its MAC or makes no difference. *)
Lemma decode_other_key bytes key key' cap p :
  decode_envelope_from_bytes_with_cap bytes key cap = Ok p ->
  decode_envelope_from_bytes_with_cap bytes key' cap = Ok p \/
  decode_envelope_from_bytes_with_cap bytes key' cap = Err BadHmac.
Proof.
  unfold decode_envelope_from_bytes_with_cap.
  case_bool_decide; [done|]. destruct (negb (bool_decide (take 16 bytes = _))); [done|].
  destruct (negb (_ =? ARTIFACT_VERSION)); [done|].
  destruct (negb (bool_decide (hmac_sha256 key _ = _))); [done|]. intros Hd.
  destruct (negb (bool_decide (hmac_sha256 key' _ = _))); [by right|by left].
Qed.

Lemma open_envelope_sealed bytes cap key keys p :
  decode_envelope_from_bytes_with_cap bytes key cap = Ok p -> key ∈ keys ->
  open_envelope bytes cap keys = Ok p.
Proof.
  intros Hd. induction 1 as [|key key' keys _ IH]; cbn [open_envelope]; [by rewrite Hd|].
  destruct (decode_other_key _ _ key' _ _ Hd) as [-> | ->]; [done|by apply IH].
Qed.
End facts.

Section roundtrip.
Context `{!Primitives, !PrimitivesOk, !SnapshotPrimitives, !SnapshotPrimitivesOk}.

Lemma trailer_found kind sig compressed :
  length sig = signature_len kind ->
  trailer_at (Writer.append_trailer (kind_byte kind) sig compressed) kind = true /\
  (length (Writer.append_trailer (kind_byte kind) sig compressed) - trailer_len kind)%nat =
  length compressed.
Proof.
  intros Hs. pose proof (proj2 (trailer_len_sig kind sig) Hs) as Ht.
  unfold trailer_at, Writer.append_trailer. rewrite length_app, Ht, Nat.add_sub. split; [|done].
  rewrite !andb_true_iff, !bool_decide_eq_true. split_and!; [lia| |].
  - by apply (slice_app compressed V3_TRAILER_MAGIC ([kind_byte kind] ++ sig)).
  - rewrite lookup_app_r by lia. by rewrite Nat.add_comm, Nat.add_sub.
Qed.

(** A signed frame whose trailer the reader finds at its own kind is accepted
    with the snapshot it holds. *)
Lemma restore_signed r now kind compressed sig s :
  0 <= max_decompressed r < u64_max ->
  let bytes := Writer.append_trailer (kind_byte kind) sig compressed in
  zlen bytes <= Writer.MAX_INPUT_BYTES -> take 16 bytes <> ARTIFACT_MAGIC ->
  length sig = signature_len kind -> (kind = HmacSha256 -> trailer_at bytes Ed25519 = false) ->
  vouched r kind (signed_message compressed kind) sig ->
  accepted r now s -> frame_of r compressed s -> sn_version s = SNAPSHOT_VERSION_V3 ->
  restore r now bytes = Ok s.
Proof.
  intros Hcap bytes Hin Hmagic Hsig Hed Hv Hacc Hfr Hver. unfold restore.
  rewrite (proj2 (Z.ltb_ge _ _)) by done. unfold try_restore_artifact_envelope.
  rewrite (bool_decide_eq_false_2 (take 16 bytes = _)), orb_true_r by done. cbn [mbind result_bind].
  destruct (trailer_found kind sig compressed Hsig) as [Hat Hlen]. fold bytes in Hat, Hlen.
  assert (detect_v3_trailer bytes = Some (kind, length compressed)) as ->.
  { unfold detect_v3_trailer. destruct kind; [rewrite Hed by done|]; rewrite Hat, Hlen; done. }
  rewrite bool_decide_eq_true_2 by done. cbn [negb andb].
  assert (take (length compressed) bytes = compressed) as Htake by apply take_app_length.
  rewrite (proj2 (verify_v3_trailer_Ok r bytes (length compressed) kind)).
  - cbn [mbind result_bind]. rewrite Htake. by apply (restore_frame_Ok r now true compressed s).
  - exists sig. rewrite Htake. unfold bytes, Writer.append_trailer.
    split_and!; [done| |apply drop_app_length|done]. rewrite length_app. lia.
Qed.

Lemma restore_unsigned r now bytes s :
  0 <= max_decompressed r < u64_max ->
  zlen bytes <= Writer.MAX_INPUT_BYTES -> take 16 bytes <> ARTIFACT_MAGIC ->
  require_signature r = false -> detect_v3_trailer bytes = None ->
  accepted r now s -> frame_of r bytes s -> sn_version s = SNAPSHOT_VERSION_V2 ->
  restore r now bytes = Ok s.
Proof.
  intros Hcap Hin Hmagic Hreq Hdet Hacc Hfr Hver. unfold restore.
  rewrite (proj2 (Z.ltb_ge _ _)) by done. unfold try_restore_artifact_envelope.
  rewrite (bool_decide_eq_false_2 (take 16 bytes = _)), orb_true_r by done. cbn [mbind result_bind].
  rewrite Hdet, Hreq, andb_false_r. cbn [mbind result_bind]. rewrite firstn_all.
  rewrite bool_decide_eq_false_2 by (intros [? ?]; done).
  by apply (restore_frame_Ok r now false bytes s).
Qed.

Lemma restore_envelope r now key p s :
  0 <= max_decompressed r < u64_max ->
  let bytes := sealed key (blake3 p) (zstd_encode 3 [p]) in
  zlen bytes <= Writer.MAX_INPUT_BYTES -> key ∈ candidate_keys r -> zlen p <= max_decompressed r ->
  decode_snapshot p = Ok s -> accepted r now s -> sn_version s = SNAPSHOT_VERSION_V2 ->
  restore r now bytes = Ok s.
Proof.
  intros Hcap bytes Hin Hkey Hp Hdec Hacc Hver. unfold restore.
  rewrite (proj2 (Z.ltb_ge _ _)) by done. unfold try_restore_artifact_envelope.
  destruct (sealed_fields key (blake3 p) (zstd_encode 3 [p]) (blake3_length p)) as (Hl & Hm & _).
  fold bytes in Hl, Hm. rewrite Hm, (bool_decide_eq_false_2 (length bytes < 16)%nat) by (rewrite Hl; lia).
  rewrite (bool_decide_eq_true_2 (ARTIFACT_MAGIC = _)) by done. cbn [negb orb].
  rewrite (bool_decide_eq_false_2 (candidate_keys r = []))
    by (by intros Hk; rewrite Hk in Hkey; apply not_elem_of_nil in Hkey).
  assert (decode_envelope_from_bytes_with_cap bytes key (max_decompressed r) = Ok p) as Hd.
  { apply decode_sealed; [done..|]. by rewrite zstd_roundtrip, concat_cons, app_nil_r. }
  rewrite (open_envelope_sealed _ _ _ _ _ Hd Hkey). cbn [mbind result_bind]. rewrite Hdec.
  cbn [mbind result_bind]. rewrite Hver, Z.eqb_refl. cbn [negb].
  by rewrite (proj2 (check_snapshot_Ok _ _ _)).
Qed.

(** The snapshot a capture writes, whatever form it leaves in. *)
Definition wire_version (w : Writer.SnapshotWriter) : Z :=
  match Writer.use_legacy_envelope w, Writer.ed25519_key w, Writer.hmac_key w with
  | false, None, Some _ => SNAPSHOT_VERSION_V2
  | _, _, _ => Writer.on_wire_version w
  end.

Definition captured_as (version : Z) (w : Writer.SnapshotWriter) (now : option Z) (st : InstanceState) :
    result SnapshotError Snapshot :=
  '(metadata, crc) ← Writer.build_metadata w now st;
  Ok (Writer.snapshot_ref version st metadata crc).

Definition captured (w : Writer.SnapshotWriter) := captured_as (wire_version w) w.

Definition state_of (s : Snapshot) : InstanceState :=
  mkInstanceState (md_tenant_id (sn_metadata s)) (md_instance_id (sn_metadata s))
    (sn_wasm_memory s) (sn_gpu_memory s) (sn_registers s).

(** The reader holds the key the writer used, and the frame does not end in
    bytes that read as a trailer it does not have (one chance in 2^32 per
    frame, which the code accepts). *)
Definition trusts (w : Writer.SnapshotWriter) (r : SnapshotReader) (bytes : list u8) : Prop :=
  match Writer.ed25519_key w, Writer.hmac_key w with
  | Some sk, _ => ed25519_verifying_key r = Some (ed25519_public sk)
  | None, Some key => key ∈ candidate_keys r /\
      (Writer.use_legacy_envelope w = true -> trailer_at bytes Ed25519 = false)
  | None, None => require_signature r = false /\ detect_v3_trailer bytes = None
  end.

(** Values of the code's types. *)
Record inputs_wf (w : Writer.SnapshotWriter) (now : option Z) (st : InstanceState) : Prop := {
  iw_tenant : fits u64_max (st_tenant_id st);
  iw_instance : fits u128_max (st_instance_id st);
  iw_sequence : fits u64_max (Writer.sequence_no w);
  iw_nonce n : Writer.nonce w = Some n -> length n = 16%nat;
  iw_created ms : Writer.fixed_created_unix_ms w = Some ms -> fits u64_max ms;
  iw_now ms : now = Some ms -> 0 <= ms;
}.

Lemma created_wf w now st ms : inputs_wf w now st -> Writer.created_ms w now = Ok ms -> fits u64_max ms.
Proof.
  unfold Writer.created_ms. intros Hw. destruct (Writer.fixed_created_unix_ms w) eqn:Hf.
  - intros [= <-]. by eapply iw_created.
  - destruct now as [t|] eqn:Hn; [|done]. destruct (u64_max <? t) eqn:?; [done|]. intros [= <-].
    bool_props. pose proof (iw_now _ _ _ Hw t eq_refl). done.
Qed.

Lemma wire_version_fits w : fits u32_max (wire_version w).
Proof. unfold wire_version, Writer.on_wire_version. by repeat case_match. Qed.

(** A captured snapshot is well formed, is the state it was taken from, and
    passes every check of a reader whose freshness and replay policy it meets. *)
Lemma captured_ok version w now st s :
  inputs_wf w now st -> captured_as version w now st = Ok s -> fits u32_max version ->
  snapshot_wf s /\ state_of s = st /\ sn_magic s = Writer.SNAPSHOT_MAGIC /\
  sn_version s = version /\
  forall r now', check_freshness r now' (md_created_unix_ms (sn_metadata s)) = Ok () ->
    check_replay r (sn_metadata s) = Ok () -> accepted r now' s.
Proof.
  intros Hw Hc Hver. unfold captured_as in Hc. inv_bind Hc. destruct a as [m crc]. simplify_eq.
  unfold Writer.build_metadata in E. inv_bind E. inv_bind E. inv_bind E. inv_bind E.
  injection E as <- <-. destruct a, a0, a1. rewrite check_blob_size_Ok in *.
  apply (created_wf _ _ _ _ Hw) in E3. unfold Writer.payload_crc32.
  unfold Writer.MAX_WASM_MEMORY_BYTES, Writer.MAX_GPU_MEMORY_BYTES, Writer.MAX_REGISTERS_BYTES in *.
  unfold zlen in *. destruct Hw. split_and!; [|by destruct st|done..|].
  - split; cbn -[Z.add]; [done|done|unfold fits; lia..| |apply crc32_range]. split; cbn -[Z.add]; try done. unfold fits; lia.
  - intros r now' Hf Hr. apply check_replay_Ok in Hr as [??].
    split; cbn -[Z.add] in *; try done; [|by apply check_freshness_Ok].
    unfold zlen. rewrite !length_app. lia.
Qed.

Lemma decode_encoded s :
  snapshot_wf s -> sn_magic s = Writer.SNAPSHOT_MAGIC ->
  zlen (Writer.encode_to_vec s) <= Writer.MAX_TOTAL_PAYLOAD_BYTES ->
  decode_snapshot (Writer.encode_to_vec s) = Ok s.
Proof.
  intros Hwf Hm Hlen. unfold decode_snapshot.
  destruct (bincode_roundtrip Writer.MAX_TOTAL_PAYLOAD_BYTES s Hwf Hlen) as [n Hd].
  unfold Writer.encode_to_vec. by rewrite Hd, Hm, Z.eqb_refl.
Qed.

Lemma frame_not_artifact level chunks rest :
  take 16 (zstd_encode level chunks ++ rest) <> ARTIFACT_MAGIC.
Proof.
  intros Hm. apply (f_equal (take 4)) in Hm. rewrite take_take in Hm. change (4 `min` 16)%nat with 4%nat in Hm.
  pose proof (zstd_frame_magic level chunks) as Hz.
  assert (4 <= length (zstd_encode level chunks))%nat
    by (apply (f_equal length) in Hz; rewrite length_take in Hz; cbn [length] in Hz; lia).
  by rewrite take_app_le, Hz in Hm.
Qed.

Lemma frame_of_encoded r level s :
  0 <= max_decompressed r < u64_max -> snapshot_wf s -> sn_magic s = Writer.SNAPSHOT_MAGIC ->
  zlen (Writer.encode_to_vec s) <= max_decompressed r ->
  zlen (Writer.encode_to_vec s) <= Writer.MAX_TOTAL_PAYLOAD_BYTES ->
  frame_of r (zstd_encode level (bincode_writes s)) s.
Proof.
  intros Hcap Hwf Hm Hl1 Hl2. exists (Writer.encode_to_vec s).
  split_and!; [apply zstd_frame_roundtrip|done|by apply decode_encoded|].
  apply zstd_frame_pos_end. unfold zlen, Writer.encode_to_vec in *. lia.
Qed.

Lemma aead_opens r now blob key nonce c :
  length nonce = Aead.AEAD_NONCE_LEN -> Aead.encrypt_blob blob key nonce = Ok c ->
  restore_decrypted r now c key = restore r now blob.
Proof.
  intros Hn. unfold Aead.encrypt_blob, restore_decrypted, Aead.decrypt_blob.
  destruct (aead_encrypt _ _ _ _) as [ct|] eqn:He; [|done]. cbn [ok_or mbind result_bind].
  intros Hc. assert (c = Aead.AEAD_MAGIC ++ nonce ++ ct) as -> by congruence.
  assert (Aead.has_aead_magic (Aead.AEAD_MAGIC ++ nonce ++ ct) = true) as ->.
  { unfold Aead.has_aead_magic. rewrite length_app. rewrite !bool_decide_eq_true_2; [done| |]; [done|].
    change (length Aead.AEAD_MAGIC) with 8%nat. lia. }
  pose proof (aead_length _ _ _ _ _ He) as Hl. cbn [negb].
  rewrite bool_decide_eq_false_2.
  2:{ rewrite !length_app, Hl, Hn. change (length Aead.AEAD_MAGIC) with 8%nat.
      unfold Aead.AEAD_HEADER_LEN, Aead.AEAD_TAG_LEN. lia. }
  unfold Aead.AEAD_HEADER_LEN. rewrite (slice_app Aead.AEAD_MAGIC nonce ct) by (done || by rewrite Hn).
  assert (drop (8 + Aead.AEAD_NONCE_LEN) (Aead.AEAD_MAGIC ++ nonce ++ ct) = ct) as ->
    by (rewrite app_assoc; apply drop_app_length'; rewrite length_app, Hn; done).
  by rewrite (aead_correct _ _ _ _ _ He).
Qed.

(** The bytes of a capture, by the keys of the writer. *)
Lemma capture_form w now st s bytes :
  captured w now st = Ok s -> Writer.capture w now st = Ok bytes ->
  let c := zstd_encode (Writer.zstd_level w) (bincode_writes s) in
  let signed kind sig := bytes = Writer.append_trailer (kind_byte kind) sig c in
  match Writer.ed25519_key w, Writer.hmac_key w with
  | Some sk, _ => signed Ed25519 (ed25519_sign sk (signed_message c Ed25519))
  | None, Some key =>
      if Writer.use_legacy_envelope w
      then signed HmacSha256 (hmac_sha256 key (signed_message c HmacSha256))
      else bytes = sealed key (blake3 (Writer.encode_to_vec s)) (zstd_encode 3 [Writer.encode_to_vec s])
  | None, None => bytes = c
  end.
Proof.
  unfold captured, captured_as, wire_version, Writer.capture, Writer.capture_via_artifact_envelope,
    Writer.capture_legacy, Writer.build_snapshot_ref, Writer.on_wire_version, encode_envelope_to_vec.
  destruct (Writer.build_metadata w now st) as [[m crc]|]; [|done]. cbn [mbind result_bind].
  destruct (Writer.ed25519_key w) as [sk|], (Writer.hmac_key w) as [key|],
    (Writer.use_legacy_envelope w); intros [= <-]; try by intros [= <-].
  destruct (_ <? _); [done|]. by intros [= <-].
Qed.

Lemma captured_restores w r now now' st s bytes :
  inputs_wf w now st -> captured w now st = Ok s -> Writer.capture w now st = Ok bytes ->
  trusts w r bytes ->
  zlen bytes <= Writer.MAX_INPUT_BYTES -> max_decompressed r < u64_max ->
  zlen (Writer.encode_to_vec s) <= max_decompressed r ->
  zlen (Writer.encode_to_vec s) <= Writer.MAX_TOTAL_PAYLOAD_BYTES ->
  check_freshness r now' (md_created_unix_ms (sn_metadata s)) = Ok () ->
  check_replay r (sn_metadata s) = Ok () ->
  restore r now' bytes = Ok s /\ state_of s = st /\ sn_version s = wire_version w.
Proof.
  intros Hw Hcap Hc Htr Hin Hmax Hl1 Hl2 Hf Hr.
  destruct (captured_ok _ _ _ _ _ Hw Hcap (wire_version_fits w)) as (Hwf & Hst & Hm & Hv & Hacc). specialize (Hacc _ _ Hf Hr).
  cut (restore r now' bytes = Ok s); [by intros|].
  assert (0 <= max_decompressed r < u64_max) as Hcap0 by (unfold zlen in Hl1; lia).
  pose proof (frame_of_encoded r (Writer.zstd_level w) s Hcap0 Hwf Hm Hl1 Hl2) as Hfr.
  pose proof (capture_form _ _ _ _ _ Hcap Hc) as Hform. unfold trusts, wire_version, Writer.on_wire_version in *.
  destruct (Writer.ed25519_key w) as [sk|], (Writer.hmac_key w) as [key|],
    (Writer.use_legacy_envelope w); cbn zeta in Hform; subst bytes;
    try match type of Htr with _ /\ _ => destruct Htr as [Htr Hlook] end;
    match goal with
    | |- restore _ _ (Writer.append_trailer _ _ _) = _ =>
        apply restore_signed; try done; try (apply frame_not_artifact);
          first [apply ed25519_sig_length | apply hmac_length | cbn; by eauto using ed25519_correct
                | naive_solver]
    | |- restore _ _ (sealed _ _ _) = _ => by apply restore_envelope; [..|apply decode_encoded| |]
    | |- _ => apply restore_unsigned; try done; rewrite <-(app_nil_r (zstd_encode _ _)); apply frame_not_artifact
    end.
Qed.

(** C9: whatever a writer captures, a reader that holds its key restores.  For
    every instance state, every writer configuration (artifact envelope,
    Ed25519 trailer, HMAC trailer or unsigned) and every reader that trusts it
    and whose size limits, freshness window and replay policy the snapshot
    meets, provided that an HMAC-trailed blob does not by accident read as an
    Ed25519-trailed one nor an unsigned blob as a trailed one, [restore] of what [capture] wrote returns the snapshot that was
    taken, with the tenant, instance and the three memory images of the state;
    so does [restore_decrypted] of the same bytes encrypted at rest. *)
Theorem capture_restore w r now now' st s bytes :
  inputs_wf w now st -> captured w now st = Ok s -> Writer.capture w now st = Ok bytes ->
  trusts w r bytes ->
  zlen bytes <= Writer.MAX_INPUT_BYTES -> max_decompressed r < u64_max ->
  zlen (Writer.encode_to_vec s) <= max_decompressed r ->
  zlen (Writer.encode_to_vec s) <= Writer.MAX_TOTAL_PAYLOAD_BYTES ->
  check_freshness r now' (md_created_unix_ms (sn_metadata s)) = Ok () ->
  check_replay r (sn_metadata s) = Ok () ->
  restore r now' bytes = Ok s /\ state_of s = st /\
  forall key nonce c, length nonce = Aead.AEAD_NONCE_LEN -> Aead.encrypt_blob bytes key nonce = Ok c ->
    restore_decrypted r now' c key = Ok s.
Proof.
  intros. destruct (captured_restores w r now now' st s bytes) as (Hres & Hst & _); try done. split_and!; [done..|].
  intros. by erewrite aead_opens.
Qed.

(** snapshots survive the artifact store.  When [capture_to_artifact_store]
    reports the hash of a blob, [restore_from_artifact_store] of that hash
    from any later directory that still holds the blob's file (other blobs may
    have come and gone) returns the snapshot that was captured, under every
    reader whose freshness and replay policy it meets. *)
Theorem stored_snapshot_restores key level dur w r now now' mtime fault st s hash d d' d'' :
  let store := build (SingleKeyProvider key) level dur in
  inputs_wf w now st -> Writer.build_snapshot_ref w now st = Ok s ->
  zlen (Writer.encode_to_vec s) <= Writer.MAX_TOTAL_PAYLOAD_BYTES ->
  Writer.capture_to_artifact_store w now st store fault mtime d = (Ok hash, d') ->
  files d'' !! blob_name hash (key_fingerprint_hex key)
  = files d' !! blob_name hash (key_fingerprint_hex key) ->
  check_freshness r now' (md_created_unix_ms (sn_metadata s)) = Ok () ->
  check_replay r (sn_metadata s) = Ok () ->
  restore_from_artifact_store r now' store hash d'' = Ok s /\ state_of s = st.
Proof.
  intros store Hw Hs Hlen Hcap Hd Hf Hr. unfold Writer.capture_to_artifact_store in Hcap. rewrite Hs in Hcap.
  destruct (put store fault mtime (Writer.encode_to_vec s) d) as [[h|] dd] eqn:Hput; [|done].
  simplify_eq. apply put_Ok_written in Hput as (Hp & -> & ->).
  apply (captured_ok SNAPSHOT_VERSION_V2) in Hs as (Hwf & Hst & Hm & Hv & Hacc); [|done..].
  split; [|done]. unfold restore_from_artifact_store, store. rewrite (get_written _ _ _ _ _ _ _ Hp Hd).
  rewrite (decode_encoded s) by done. cbn [mbind result_bind]. rewrite Hv. cbn -[check_snapshot].
  by rewrite (proj2 (check_snapshot_Ok _ _ _) (Hacc _ _ Hf Hr)).
Qed.
End roundtrip.
End SnapshotFacts.

(** ** A concrete instance

    A format with bincode's layout, frames that are a magic number before the
    data, and signatures that are not meant to be secure. *)
Module SnapshotToy.
Definition ZSTD_MAGIC : list u8 := [Byte.x28; Byte.xb5; Byte.x2f; Byte.xfd].

Definition unframe (b : list u8) : list u8 * option str :=
  if bool_decide (take 4 b = ZSTD_MAGIC) then (drop 4 b, None) else ([], Some (bytes_of "not a frame")).

#[export] Instance toy : Primitives := {
  blake3 m := to_le_bytes 32 (from_le_bytes m);
  hmac_sha256 k m := to_le_bytes 32 (from_le_bytes (k ++ m));
  zstd_encode _ chunks := ZSTD_MAGIC ++ concat chunks;
  zstd_stream b := unframe b;
  zstd_pulled b := length b;
}.

Definition nonce_bytes (n : option (list u8)) : list u8 :=
  match n with Some n => Byte.x01 :: n | None => [Byte.x00] end.

Definition blob_writes (b : list u8) : list (list u8) := [to_le_bytes 8 (Z.of_nat (length b)); b].

Definition writes (s : Snapshot) : list (list u8) :=
  let m := sn_metadata s in
  [to_le_bytes 4 (sn_magic s); to_le_bytes 4 (sn_version s)]
  ++ blob_writes (sn_wasm_memory s) ++ blob_writes (sn_gpu_memory s) ++ blob_writes (sn_registers s)
  ++ [to_le_bytes 8 (md_tenant_id m); to_le_bytes 16 (md_instance_id m);
      to_le_bytes 8 (md_created_unix_ms m); to_le_bytes 8 (md_total_uncompressed_bytes m);
      to_le_bytes 8 (md_sequence_no m); nonce_bytes (md_nonce m); to_le_bytes 4 (sn_crc32 s)].

Definition rd (n : nat) (b : list u8) : option (list u8 * list u8) :=
  if bool_decide (n <= length b)%nat then Some (take n b, drop n b) else None.

Definition rd_int (n : nat) (b : list u8) : option (Z * list u8) :=
  '(x, b) ← rd n b; Some (from_le_bytes x, b).

Definition rd_blob (b : list u8) : option (list u8 * list u8) :=
  '(n, b) ← rd_int 8 b; rd (Z.to_nat n) b.

Definition rd_nonce (b : list u8) : option (option (list u8) * list u8) :=
  match b with
  | Byte.x00 :: b => Some (None, b)
  | Byte.x01 :: b => '(n, b) ← rd 16 b; Some (Some n, b)
  | _ => None
  end.

Definition read_snapshot (b : list u8) : option (Snapshot * list u8) :=
  '(magic, b) ← rd_int 4 b; '(version, b) ← rd_int 4 b;
  '(wasm, b) ← rd_blob b; '(gpu, b) ← rd_blob b; '(regs, b) ← rd_blob b;
  '(tenant, b) ← rd_int 8 b; '(inst, b) ← rd_int 16 b; '(created, b) ← rd_int 8 b;
  '(total, b) ← rd_int 8 b; '(seq, b) ← rd_int 8 b; '(n, b) ← rd_nonce b; '(crc, b) ← rd_int 4 b;
  Some (mkSnapshot magic version wasm gpu regs (mkSnapshotMetadata tenant inst created total seq n) crc, b).

Definition tag (k : list u8) : list u8 := take 16 (k ++ replicate 16 Byte.x00).

Lemma tag_length k : length (tag k) = 16%nat.
Proof. unfold tag. rewrite length_take, length_app, length_replicate. lia. Qed.

#[export] Instance toy_snapshot : SnapshotPrimitives := {
  crc32 m := from_le_bytes m mod 2 ^ 32;
  bincode_writes := writes;
  bincode_decode limit b :=
    if limit <? Z.of_nat (length b) then Err (bytes_of "limit")
    else match read_snapshot b with
         | Some (s, rest) => Ok (s, (length b - length rest)%nat)
         | None => Err (bytes_of "malformed")
         end;
  zstd_frame := unframe;
  zstd_frame_pos _ b := length b;
  ed25519_public k := k;
  ed25519_sign k m := to_le_bytes 64 (from_le_bytes (k ++ m));
  ed25519_verify_strict k m s := bool_decide (s = to_le_bytes 64 (from_le_bytes (k ++ m)));
  aead_encrypt k n aad m := Some (m ++ tag k);
  aead_decrypt k n aad c :=
    let i := (length c - 16)%nat in
    if bool_decide (drop i c = tag k) then Some (take i c) else None;
}.

Lemma rd_app l rest n : length l = n -> rd n (l ++ rest) = Some (l, rest).
Proof.
  intros <-. unfold rd. rewrite bool_decide_eq_true_2 by (rewrite length_app; lia).
  by rewrite take_app_length, drop_app_length.
Qed.

Lemma rd_int_app n z rest :
  0 <= z < 256 ^ Z.of_nat n -> rd_int n (to_le_bytes n z ++ rest) = Some (z, rest).
Proof.
  intros Hz. unfold rd_int. rewrite rd_app by apply length_to_le_bytes. simpl. by rewrite from_to_le_bytes.
Qed.

Lemma rd_blob_app b rest :
  fits u64_max (Z.of_nat (length b)) -> rd_blob (concat (blob_writes b) ++ rest) = Some (b, rest).
Proof.
  unfold fits, rd_blob, blob_writes. intros Hb. cbn [concat]. rewrite app_nil_r, <-app_assoc.
  rewrite rd_int_app by (change (256 ^ Z.of_nat 8) with 18446744073709551616; lia). cbn [mbind option_bind].
  apply rd_app. lia.
Qed.

Lemma rd_nonce_app n rest :
  (forall x, n = Some x -> length x = 16%nat) -> rd_nonce (nonce_bytes n ++ rest) = Some (n, rest).
Proof. intros Hn. destruct n as [x|]; [|done]. simpl. by rewrite rd_app by auto. Qed.

Lemma read_writes s : snapshot_wf s -> read_snapshot (concat (writes s)) = Some (s, []).
Proof.
  intros [Hm Hv Hw Hg Hr [Hmt Hmi Hmc Hmo Hms Hmn] Hc]. unfold fits in *.
  unfold writes. rewrite !concat_app, concat_cons. cbn -[blob_writes nonce_bytes to_le_bytes].
  unfold read_snapshot. rewrite <-!app_assoc. cbn [app].
  repeat first
    [ rewrite rd_int_app by (match goal with |- _ <= _ < ?p =>
        let v := eval vm_compute in p in change p with v; lia end); cbn [mbind option_bind app]
    | rewrite rd_blob_app by done; cbn [mbind option_bind]
    | rewrite rd_nonce_app by done; cbn [mbind option_bind] ].
  by destruct s as [????? [] ?].
Qed.

#[export] Instance toy_ok : PrimitivesOk.
Proof.
  split; cbv [blake3 hmac_sha256 zstd_encode zstd_stream toy]; intros *; [apply length_to_le_bytes..|done].
Qed.

#[export] Instance toy_snapshot_ok : SnapshotPrimitivesOk.
Proof.
  split; cbv [crc32 bincode_writes bincode_decode zstd_frame zstd_frame_pos ed25519_public ed25519_sign
    ed25519_verify_strict aead_encrypt aead_decrypt zstd_encode toy toy_snapshot].
  - intros m. unfold fits. pose proof (Z.mod_pos_bound (from_le_bytes m) (2 ^ 32) ltac:(done)). lia.
  - intros limit s Hs Hl. rewrite (proj2 (Z.ltb_ge _ _)), read_writes by done. by eexists.
  - done.
  - done.
  - done.
  - intros. apply length_to_le_bytes.
  - intros. by apply bool_decide_eq_true_2.
  - intros k _ _ m c [= <-]. by rewrite length_app, tag_length.
  - intros k _ _ m c [= <-]. rewrite length_app, tag_length, Nat.add_sub, drop_app_length, take_app_length.
    by rewrite bool_decide_eq_true_2.
Qed.
End SnapshotToy.

Module SnapshotClaims.
Import Format Artifacts ArtifactNames EnvelopeFacts Refinement Reader SnapshotFacts SnapshotToy.

(** C25: nothing unauthenticated is restored.  Whatever bytes a reader is given,
    a snapshot it accepts satisfies its whole policy (blob caps, checksum,
    recorded total, freshness, sequence floor, nonce), and the bytes are, to
    the last one, either an artifact envelope sealed under one of its HMAC
    keys, or a single zstd frame with a trailer that verifies under one of its
    keys for exactly that frame and kind, or an unsigned frame, the last only
    when the reader does not require signatures; the inner version is the one
    of the form, so no form can be passed off as another. *)
Theorem restore_authentic `{!Primitives, !SnapshotPrimitives} r now bytes s :
  0 <= max_decompressed r < u64_max -> restore r now bytes = Ok s ->
  accepted r now s /\ provenance r bytes s.
Proof. apply restore_sound. Qed.

(** A streaming restore hands its sink nothing unless the whole snapshot has
    been accepted, and then the three blobs in order. *)
Theorem streaming_all_or_nothing `{!Primitives, !SnapshotPrimitives} r now bytes out :
  let append b out := (Ok (), out ++ b) in
  restore_to_writer append r now bytes out =
  match restore r now bytes with
  | Ok s => (Ok (sn_metadata s), out ++ sn_wasm_memory s ++ sn_gpu_memory s ++ sn_registers s)
  | Err e => (Err e, out)
  end.
Proof.
  unfold restore_to_writer, restore_streaming, mbind, stM_bind, lift, mret, stM_ret.
  destruct (restore r now bytes); [|done]. cbn. by rewrite <-!app_assoc.
Qed.

Definition toy_state : InstanceState :=
  mkInstanceState 7 11 (bytes_of "wasm") (bytes_of "gpu") (bytes_of "regs").
Definition toy_key : list u8 := bytes_of "key".
Definition toy_writer : Writer.SnapshotWriter :=
  Writer.with_nonce (Writer.with_sequence_no (Writer.with_legacy_envelope
    (Writer.with_hmac_sha256_key Writer.new toy_key)) 5) (bytes_of "0123456789abcdef").
Definition toy_reader : SnapshotReader :=
  with_max_age (with_expected_nonce (with_min_sequence_no (requiring_signature
    (with_hmac_keys new [bytes_of "old"; toy_key])) 5) (bytes_of "0123456789abcdef")) 1000.
Definition from_ok {E A} (d : A) (r : result E A) : A := match r with Ok a => a | Err _ => d end.
Definition toy_bytes : list u8 := from_ok [] (Writer.capture toy_writer (Some 2000) toy_state).
Definition toy_snap : Snapshot :=
  from_ok (Writer.snapshot_ref 0 toy_state (mkSnapshotMetadata 0 0 0 0 0 None) 0)
    (captured toy_writer (Some 2000) toy_state).

Lemma restore_authentic_witness :
  accepted (H := SnapshotToy.toy_snapshot) toy_reader (Some 2500) toy_snap /\
  provenance toy_reader toy_bytes toy_snap.
Proof. apply restore_authentic; [done|]. vm_compute. reflexivity. Defined.

Lemma toy_inputs_wf : inputs_wf toy_writer (Some 2000) toy_state.
Proof. split; try done; intros ? Hn; vm_compute in Hn; by inversion Hn. Qed.

Lemma capture_restore_witness :
  restore toy_reader (Some 2500) toy_bytes = Ok toy_snap /\ state_of toy_snap = toy_state /\
  forall key nonce c, length nonce = Aead.AEAD_NONCE_LEN -> Aead.encrypt_blob toy_bytes key nonce = Ok c ->
    restore_decrypted toy_reader (Some 2500) c key = Ok toy_snap.
Proof.
  apply (capture_restore toy_writer toy_reader (Some 2000) (Some 2500) toy_state);
    [apply toy_inputs_wf|vm_compute; reflexivity|vm_compute; reflexivity|split|vm_compute; done..].
  - vm_compute. right. left.
  - by vm_compute.
Defined.

Definition toy_store : DiskArtifactStore := build (SingleKeyProvider toy_key) 3 Full.
Definition toy_stored := Writer.capture_to_artifact_store toy_writer (Some 2000) toy_state toy_store None None None.

Definition toy_hash := from_ok [] toy_stored.1.
Definition toy_v2_snap : Snapshot := from_ok toy_snap (Writer.build_snapshot_ref toy_writer (Some 2000) toy_state).

Lemma toy_v2_snap_built : Writer.build_snapshot_ref toy_writer (Some 2000) toy_state = Ok toy_v2_snap.
Proof. vm_compute. reflexivity. Qed.

Lemma toy_stored_Ok : toy_stored = (Ok toy_hash, toy_stored.2).
Proof.
  assert (toy_stored.1 = Ok toy_hash) as <- by (vm_compute; reflexivity). apply surjective_pairing.
Qed.

Lemma toy_v2_snap_accepted :
  zlen (Writer.encode_to_vec toy_v2_snap) <= Writer.MAX_TOTAL_PAYLOAD_BYTES /\
  check_freshness toy_reader (Some 2500) (md_created_unix_ms (sn_metadata toy_v2_snap)) = Ok () /\
  check_replay toy_reader (sn_metadata toy_v2_snap) = Ok ().
Proof. vm_compute. done. Qed.

Lemma stored_snapshot_restores_witness :
  restore_from_artifact_store toy_reader (Some 2500) toy_store toy_hash toy_stored.2 = Ok toy_v2_snap
    /\ state_of toy_v2_snap = toy_state.
Proof.
  destruct toy_v2_snap_accepted as (Hlen & Hfresh & Hreplay).
  exact (stored_snapshot_restores toy_key 3 Full toy_writer toy_reader (Some 2000) (Some 2500) None None
    toy_state toy_v2_snap toy_hash None toy_stored.2 toy_stored.2 toy_inputs_wf toy_v2_snap_built Hlen
    toy_stored_Ok eq_refl Hfresh Hreplay).
Defined.
End SnapshotClaims.
