(* ===== verification/DeviceMem.v ===== *)
(** * [tensor-wasm-wasi-gpu]: device memory accounting

    Models [device_mem.rs]: the process-wide [DeviceMemBudget] and the
    per-instance [DeviceMemRegistry], under concurrent use.  An operation is a
    program counter; [tick] performs its next access to shared memory (one
    atomic instruction or one map operation), so a list of events is a
    schedule at the granularity of the code's atomics.  A weak
    compare-exchange may fail although the value matches.  Handles are drawn
    from a 64-bit counter that starts at one; it is not modelled as wrapping,
    which takes 2^64 allocations.  [leaked_bytes] and [leaked_allocs] are not
    fields of the code: they record what dropped registries still held. *)

From S2P Require Import Prelude Core KernelArgs.

Module DeviceMem.
Definition MAX_DEVICE_ALLOC_BYTES : Z := 256 * 1024 * 1024.
Definition MAX_DEVICE_ALLOCS_PER_INSTANCE : Z := 4096.
Definition MAX_TOTAL_DEVICE_BYTES : Z := 16 * MAX_DEVICE_ALLOC_BYTES.
Definition MAX_PROCESS_DEVICE_BYTES : Z := 4 * MAX_TOTAL_DEVICE_BYTES.
Definition MAX_PROCESS_DEVICE_ALLOCS : Z := 4 * MAX_DEVICE_ALLOCS_PER_INSTANCE.

Record DeviceMemEntry := mkEntry { owner : Z; size : Z }.

#[global] Instance DeviceMemEntry_eq_dec : EqDecision DeviceMemEntry.
Proof. solve_decision. Defined.

Record DeviceMemBudget := mkBudget { total_bytes : Z; total_allocs : Z }.

Record DeviceMemRegistry := mkRegistry {
  next_handle : Z;
  entries : gmap Z DeviceMemEntry;
  total_device_bytes : Z;
}.

Definition with_budget : DeviceMemRegistry := mkRegistry 1 ∅ 0.

Record Shared := mkShared {
  registries : gmap nat DeviceMemRegistry;
  budget : DeviceMemBudget;
  leaked_bytes : Z;
  leaked_allocs : Z;
}.

(** Where an operation on registry [r] stands. *)
Inductive pc :=
| Idle
| InsertLen (r : nat) (e : DeviceMemEntry)
| InsertLoad (r : nat) (e : DeviceMemEntry)
| InsertCas (r : nat) (e : DeviceMemEntry) (current : Z)
| ReserveCount (r : nat) (e : DeviceMemEntry)
| ReserveOver (r : nat) (e : DeviceMemEntry)
| ReserveLoad (r : nat) (e : DeviceMemEntry)
| ReserveCas (r : nat) (e : DeviceMemEntry) (current : Z)
| ReserveUndo (r : nat) (e : DeviceMemEntry)
| InsertUndo (r : nat) (e : DeviceMemEntry)
| InsertHandle (r : nat) (e : DeviceMemEntry)
| InsertPublish (r : nat) (e : DeviceMemEntry) (handle : Z)
| Inserted (res : result AbiError Z)
| FreeGet (r : nat) (handle owner : Z)
| FreeRemove (r : nat) (handle : Z)
| FreeBytes (r : nat) (e : DeviceMemEntry)
| ReleaseBytes (e : DeviceMemEntry)
| ReleaseAllocs (e : DeviceMemEntry)
| Freed (res : result AbiError DeviceMemEntry).

Definition set_registry (sh : Shared) (r : nat) (reg : DeviceMemRegistry) : Shared :=
  mkShared (<[r := reg]> (registries sh)) (budget sh) (leaked_bytes sh) (leaked_allocs sh).
Definition set_budget (sh : Shared) (b : DeviceMemBudget) : Shared :=
  mkShared (registries sh) b (leaked_bytes sh) (leaked_allocs sh).
Definition set_total (reg : DeviceMemRegistry) (total : Z) : DeviceMemRegistry :=
  mkRegistry (next_handle reg) (entries reg) total.

Definition get_registry (sh : Shared) (r : nat) : DeviceMemRegistry :=
  default with_budget (registries sh !! r).

(** [DeviceMemRegistry::insert]. *)
Definition tick_insert (spurious : bool) (sh : Shared) (p : pc) : Shared * pc :=
  match p with
  | InsertLen r e =>
      if MAX_DEVICE_ALLOCS_PER_INSTANCE <=? Z.of_nat (base.size (entries (get_registry sh r)))
      then (sh, Inserted (Err QuotaExceeded)) else (sh, InsertLoad r e)
  | InsertLoad r e => (sh, InsertCas r e (total_device_bytes (get_registry sh r)))
  | InsertCas r e current =>
      let reg := get_registry sh r in
      let next := sat_add u64_max current (size e) in
      if MAX_TOTAL_DEVICE_BYTES <? next then (sh, Inserted (Err QuotaExceeded))
      else if (total_device_bytes reg =? current) && negb spurious
      then (set_registry sh r (set_total reg next), ReserveCount r e)
      else (sh, InsertCas r e (total_device_bytes reg))
  | InsertUndo r e =>
      let reg := get_registry sh r in
      (set_registry sh r (set_total reg (sat_sub (total_device_bytes reg) (size e))),
       Inserted (Err QuotaExceeded))
  | InsertHandle r e =>
      let reg := get_registry sh r in
      (set_registry sh r (mkRegistry (next_handle reg + 1) (entries reg) (total_device_bytes reg)),
       InsertPublish r e (next_handle reg))
  | InsertPublish r e handle =>
      let reg := get_registry sh r in
      (set_registry sh r (mkRegistry (next_handle reg) (<[handle := e]> (entries reg)) (total_device_bytes reg)),
       Inserted (Ok handle))
  | _ => (sh, p)
  end.

(** [DeviceMemBudget::try_reserve]: the count by a fetch-add that is undone,
    the bytes by a compare-exchange loop. *)
Definition try_reserve (spurious : bool) (sh : Shared) (p : pc) : Shared * pc :=
  let b := budget sh in
  match p with
  | ReserveCount r e =>
      (set_budget sh (mkBudget (total_bytes b) (total_allocs b + 1)),
       if MAX_PROCESS_DEVICE_ALLOCS <=? total_allocs b then ReserveOver r e else ReserveLoad r e)
  | ReserveOver r e | ReserveUndo r e =>
      (set_budget sh (mkBudget (total_bytes b) (total_allocs b - 1)), InsertUndo r e)
  | ReserveLoad r e => (sh, ReserveCas r e (total_bytes b))
  | ReserveCas r e current =>
      let next := sat_add u64_max current (size e) in
      if MAX_PROCESS_DEVICE_BYTES <? next then (sh, ReserveUndo r e)
      else if (total_bytes b =? current) && negb spurious
      then (set_budget sh (mkBudget next (total_allocs b)), InsertHandle r e)
      else (sh, ReserveCas r e (total_bytes b))
  | _ => (sh, p)
  end.

(** [DeviceMemBudget::release]. *)
Definition release (sh : Shared) (p : pc) : Shared * pc :=
  let b := budget sh in
  match p with
  | ReleaseBytes e =>
      (set_budget sh (mkBudget (sat_sub (total_bytes b) (size e)) (total_allocs b)), ReleaseAllocs e)
  | ReleaseAllocs e =>
      (set_budget sh (mkBudget (total_bytes b) (sat_sub (total_allocs b) 1)), Freed (Ok e))
  | _ => (sh, p)
  end.

(** [DeviceMemRegistry::free]. *)
Definition tick_free (sh : Shared) (p : pc) : Shared * pc :=
  match p with
  | FreeGet r handle o =>
      match entries (get_registry sh r) !! handle with
      | None => (sh, Freed (Err InvalidHandle))
      | Some e => if owner e =? o then (sh, FreeRemove r handle) else (sh, Freed (Err InvalidHandle))
      end
  | FreeRemove r handle =>
      let reg := get_registry sh r in
      match entries reg !! handle with
      | None => (sh, Freed (Err InvalidHandle))
      | Some e =>
          (set_registry sh r (mkRegistry (next_handle reg) (delete handle (entries reg)) (total_device_bytes reg)),
           FreeBytes r e)
      end
  | FreeBytes r e =>
      let reg := get_registry sh r in
      (set_registry sh r (set_total reg (sat_sub (total_device_bytes reg) (size e))), ReleaseBytes e)
  | _ => (sh, p)
  end.

Definition tick (spurious : bool) (sh : Shared) (p : pc) : Shared * pc :=
  match p with
  | Idle | Inserted _ | Freed _ => (sh, p)
  | InsertLen _ _ | InsertLoad _ _ | InsertCas _ _ _ | InsertUndo _ _ | InsertHandle _ _
  | InsertPublish _ _ _ => tick_insert spurious sh p
  | ReserveCount _ _ | ReserveOver _ _ | ReserveUndo _ _ | ReserveLoad _ _ | ReserveCas _ _ _ =>
      try_reserve spurious sh p
  | FreeGet _ _ _ | FreeRemove _ _ | FreeBytes _ _ => tick_free sh p
  | ReleaseBytes _ | ReleaseAllocs _ => release sh p
  end.

Definition lookup (sh : Shared) (r : nat) (handle o : Z) : result AbiError DeviceMemEntry :=
  e ← ok_or InvalidHandle (entries (get_registry sh r) !! handle);
  if owner e =? o then Ok e else Err InvalidHandle.

(** ** Schedules *)

Inductive event :=
| Tick (i : nat) (spurious : bool)
| CallInsert (i r : nat) (e : DeviceMemEntry)
| CallFree (i r : nat) (handle owner : Z)
| NewRegistry (r : nat)
| DropRegistry (r : nat).

Definition at_rest (p : pc) : bool :=
  match p with Idle | Inserted _ | Freed _ => true | _ => false end.

(** The registry an operation holds a reference to. *)
Definition reg_of (p : pc) : option nat :=
  match p with
  | InsertLen r _ | InsertLoad r _ | InsertCas r _ _ | ReserveCount r _ | ReserveOver r _
  | ReserveLoad r _ | ReserveCas r _ _ | ReserveUndo r _ | InsertUndo r _ | InsertHandle r _
  | InsertPublish r _ _ | FreeGet r _ _ | FreeRemove r _ | FreeBytes r _ => Some r
  | _ => None
  end.

Definition live (reg : DeviceMemRegistry) : Z := sum_map size (entries reg).
Definition count (reg : DeviceMemRegistry) : Z := sum_map (fun _ => 1) (entries reg).

Definition start (s : Shared * list pc) (i r : nat) (p : pc) : Shared * list pc :=
  match s.2 !! i, registries s.1 !! r with
  | Some q, Some _ => if at_rest q then (s.1, <[i := p]> s.2) else s
  | _, _ => s
  end.

(** There is no [Drop]: a registry goes with its entries and counters, and
    the budget stays as it is. *)
Definition exec (ev : event) (s : Shared * list pc) : Shared * list pc :=
  let '(sh, ts) := s in
  match ev with
  | Tick i spurious =>
      match ts !! i with
      | Some p => let '(sh, p) := tick spurious sh p in (sh, <[i := p]> ts)
      | None => s
      end
  | CallInsert i r e =>
      if (0 <=? size e) && (size e <=? u64_max) then start s i r (InsertLen r e) else s
  | CallFree i r handle owner => start s i r (FreeGet r handle owner)
  | NewRegistry r =>
      if bool_decide (registries sh !! r = None) then (set_registry sh r with_budget, ts) else s
  | DropRegistry r =>
      match registries sh !! r with
      | Some reg =>
          if forallb (fun p => negb (bool_decide (reg_of p = Some r))) ts
          then (mkShared (delete r (registries sh)) (budget sh) (leaked_bytes sh + live reg)
                  (leaked_allocs sh + count reg), ts)
          else s
      | None => s
      end
  end.

Fixpoint run (evs : list event) (s : Shared * list pc) : Shared * list pc :=
  match evs with
  | [] => s
  | ev :: evs => run evs (exec ev s)
  end.

(** An operation that nobody interferes with. *)
Fixpoint alone (fuel : nat) (sh : Shared) (p : pc) : Shared * pc :=
  match fuel with
  | O => (sh, p)
  | S fuel =>
      if at_rest p then (sh, p)
      else let '(sh, p) := tick false sh p in alone fuel sh p
  end.

(** The host functions over it, on a build without CUDA: [alloc] keeps the
    handle and answers [NotAvailable]. *)
Definition alloc_impl (sh : Shared) (r : nat) (instance_id sz : Z) : Shared * result AbiError Z :=
  if sz =? 0 then (sh, Err InvalidArgs)
  else if MAX_DEVICE_ALLOC_BYTES <? sz then (sh, Err QuotaExceeded)
  else
    match alone 8 sh (InsertLen r (mkEntry instance_id sz)) with
    | (sh, Inserted (Err e)) => (sh, Err e)
    | (sh, _) => (sh, Err NotAvailable)
    end.

Definition free_impl (sh : Shared) (r : nat) (instance_id handle : Z) : Shared * result AbiError () :=
  match alone 8 sh (FreeGet r handle instance_id) with
  | (sh, Freed (Err e)) => (sh, Err e)
  | (sh, _) => (sh, Ok ())
  end.

Definition initial (n : nat) : Shared * list pc := (mkShared ∅ (mkBudget 0 0) 0 0, replicate n Idle).
End DeviceMem.

Module DeviceMemFacts.
Import DeviceMem.

(** What an operation in flight has charged to registry [r], to the budget's
    bytes and to its count. *)
Definition reg_held (r : nat) (p : pc) : Z :=
  match p with
  | ReserveCount r' e | ReserveOver r' e | ReserveLoad r' e | ReserveCas r' e _ | ReserveUndo r' e
  | InsertUndo r' e | InsertHandle r' e | InsertPublish r' e _ | FreeBytes r' e =>
      if bool_decide (r' = r) then size e else 0
  | _ => 0
  end.

Definition bytes_held (p : pc) : Z :=
  match p with
  | InsertHandle _ e | InsertPublish _ e _ | FreeBytes _ e | ReleaseBytes e => size e
  | _ => 0
  end.

Definition allocs_held (p : pc) : Z :=
  match p with
  | ReserveOver _ _ | ReserveLoad _ _ | ReserveCas _ _ _ | ReserveUndo _ _ | InsertHandle _ _
  | InsertPublish _ _ _ | FreeBytes _ _ | ReleaseBytes _ | ReleaseAllocs _ => 1
  | _ => 0
  end.

Definition over (p : pc) : Z := match p with ReserveOver _ _ => 1 | _ => 0 end.

Definition pc_size (p : pc) : Z :=
  match p with
  | InsertLen _ e | InsertLoad _ e | InsertCas _ e _ | ReserveCount _ e | ReserveOver _ e
  | ReserveLoad _ e | ReserveCas _ e _ | ReserveUndo _ e | InsertUndo _ e | InsertHandle _ e
  | InsertPublish _ e _ | FreeBytes _ e | ReleaseBytes e | ReleaseAllocs e => size e
  | _ => 0
  end.

Definition publishing (p : pc) : option (nat * Z) :=
  match p with InsertPublish r _ h => Some (r, h) | _ => None end.

(** The handles of a registry are below its counter, and a handle that is
    about to be published is not in use and belongs to one thread. *)
Record handles_ok (sh : Shared) (ts : list pc) : Prop := {
  ok_using i p r : ts !! i = Some p -> reg_of p = Some r -> is_Some (registries sh !! r);
  ok_entry r reg h e : registries sh !! r = Some reg -> entries reg !! h = Some e ->
    0 <= size e /\ h < next_handle reg;
  ok_publish i p r h reg : ts !! i = Some p -> publishing p = Some (r, h) ->
    registries sh !! r = Some reg -> h < next_handle reg /\ entries reg !! h = None;
  ok_distinct i j p q rh : ts !! i = Some p -> ts !! j = Some q ->
    publishing p = Some rh -> publishing q = Some rh -> i = j;
}.

(** Every counter is what is live plus what is in flight. *)
Record totals_ok (sh : Shared) (ts : list pc) : Prop := {
  ok_reg r reg : registries sh !! r = Some reg ->
    total_device_bytes reg = live reg + sumZ (reg_held r) ts /\
    total_device_bytes reg <= MAX_TOTAL_DEVICE_BYTES;
  ok_bytes : total_bytes (budget sh)
    = sum_map live (registries sh) + sumZ bytes_held ts + leaked_bytes sh;
  ok_bytes_cap : total_bytes (budget sh) <= MAX_PROCESS_DEVICE_BYTES;
  ok_allocs : total_allocs (budget sh)
    = sum_map count (registries sh) + sumZ allocs_held ts + leaked_allocs sh;
  ok_allocs_cap : total_allocs (budget sh) - sumZ over ts <= MAX_PROCESS_DEVICE_ALLOCS;
  ok_leaked : 0 <= leaked_bytes sh /\ 0 <= leaked_allocs sh;
}.

Definition sizes_ok (ts : list pc) : Prop := forall i p, ts !! i = Some p -> 0 <= pc_size p.

Record inv (s : Shared * list pc) : Prop := {
  inv_handles : handles_ok s.1 s.2;
  inv_totals : totals_ok s.1 s.2;
  inv_sizes : sizes_ok s.2;
}.

Lemma held_nonneg ts r : sizes_ok ts ->
  (forall p, p ∈ ts -> 0 <= reg_held r p) /\ (forall p, p ∈ ts -> 0 <= bytes_held p) /\
  (forall p, p ∈ ts -> 0 <= allocs_held p).
Proof.
  intros Hs. split_and!; intros p [i Hp]%list_elem_of_lookup; specialize (Hs _ _ Hp);
    destruct p; simpl in *; try case_bool_decide; lia.
Qed.

Lemma live_nonneg sh ts r reg :
  handles_ok sh ts -> registries sh !! r = Some reg -> 0 <= live reg /\ 0 <= count reg.
Proof.
  intros Hh Hr. split; apply sum_map_nonneg; [|lia]. intros h e He. by eapply ok_entry.
Qed.

Lemma sizes_step ts i p' : sizes_ok ts -> 0 <= pc_size p' -> sizes_ok (<[i := p']> ts).
Proof. intros Hs Hp j q [[-> ->]|[_ Hj]]%lookup_insert_cases; eauto. Qed.

(** A step that touches no registry. *)
Lemma step_budget sh ts i p p' b' :
  inv (sh, ts) -> ts !! i = Some p ->
  (forall r, reg_held r p' = reg_held r p) -> (forall r, reg_of p' = Some r -> reg_of p = Some r \/ is_Some (registries sh !! r)) ->
  publishing p' = None -> 0 <= pc_size p' ->
  total_bytes b' = total_bytes (budget sh) - bytes_held p + bytes_held p' ->
  total_bytes b' <= MAX_PROCESS_DEVICE_BYTES ->
  total_allocs b' = total_allocs (budget sh) - allocs_held p + allocs_held p' ->
  total_allocs b' - (sumZ over ts - over p + over p') <= MAX_PROCESS_DEVICE_ALLOCS ->
  inv (set_budget sh b', <[i := p']> ts).
Proof.
  intros [[Hu He Hp Hd] [Ht Hb Hbc Ha Hac Hl] Hs] Hi Hheld Hof Hpub Hsz Hb' Hbc' Ha' Hac'. cbn [fst snd] in *.
  split; simpl; [| |by apply sizes_step].
  - split; simpl.
    + intros j q r [[-> ->]|[_ Hj]]%lookup_insert_cases; [intros [?|?]%Hof|]; eauto.
    + done.
    + intros j q r h reg [[-> ->]|[_ Hj]]%lookup_insert_cases; [congruence|eauto].
    + intros j k q q' rh [[-> ->]|[_ Hj]]%lookup_insert_cases [[-> ->]|[_ Hk]]%lookup_insert_cases; eauto; congruence.
  - split; simpl; try done.
    + intros r reg Hr. rewrite (sumZ_insert _ _ _ p), Hheld by done. specialize (Ht _ _ Hr). lia.
    + rewrite (sumZ_insert _ _ _ p) by done. lia.
    + rewrite (sumZ_insert _ _ _ p) by done. lia.
    + by rewrite (sumZ_insert _ _ _ p).
Qed.

(** A step of an operation on registry [r] that changes the registry. *)
Lemma step_registry sh ts i p p' r reg reg' :
  inv (sh, ts) -> ts !! i = Some p -> registries sh !! r = Some reg -> reg_of p = Some r ->
  (forall r', r' <> r -> reg_held r' p' = 0) -> (forall r', reg_of p' = Some r' -> r' = r) ->
  (forall r' h, publishing p' = Some (r', h) ->
     r' = r /\ h = next_handle reg /\ h < next_handle reg' /\ entries reg' = entries reg) ->
  0 <= pc_size p' ->
  next_handle reg <= next_handle reg' ->
  (forall h e, entries reg' !! h = Some e -> entries reg !! h = Some e \/
     (publishing p = Some (r, h) /\ 0 <= size e)) ->
  total_device_bytes reg' - live reg' - reg_held r p' = total_device_bytes reg - live reg - reg_held r p ->
  total_device_bytes reg' <= MAX_TOTAL_DEVICE_BYTES ->
  live reg' + bytes_held p' = live reg + bytes_held p ->
  count reg' + allocs_held p' = count reg + allocs_held p -> over p' = over p ->
  inv (set_registry sh r reg', <[i := p']> ts).
Proof.
  intros [[Hu He Hp Hd] [Ht Hb Hbc Ha Hac Hl] Hs] Hi Hr Hof Hheld Hof' Hpub Hsz Hn Hent Htot Hcap Hlive Hcnt Hov. cbn [fst snd] in *.
  assert (forall r', r' <> r -> reg_held r' p = 0) as Hheld0.
  { intros r' Hne. destruct p; simpl in *; simplify_eq; try done; by rewrite bool_decide_eq_false_2. }
  split; simpl; [| |by apply sizes_step].
  - split; simpl.
    + intros j q r' [[-> ->]|[_ Hj]]%lookup_insert_cases Hq; rewrite lookup_insert_is_Some'; [left|right]; eauto.
      by symmetry; apply Hof'.
    + intros r' reg0 h e [[<- <-]|[_ Hr']]%lookup_insert_Some; [|by eauto].
      intros [Hh|[Hh ?]]%Hent; [destruct (He _ _ _ _ Hr Hh); lia|].
      destruct (Hp _ _ _ _ _ Hi Hh Hr). lia.
    + intros j q r' h reg0 [[-> ->]|[Hne Hj]]%lookup_insert_cases Hq.
      * destruct (Hpub _ _ Hq) as (-> & -> & Hlt & Heq). rewrite lookup_insert_eq. intros [= <-].
        split; [done|]. rewrite Heq. destruct (entries reg !! _) eqn:Hh; [|done].
        destruct (He _ _ _ _ Hr Hh). lia.
      * intros [[<- <-]|[_ Hr']]%lookup_insert_Some; [|by eauto].
        destruct (Hp _ _ _ _ _ Hj Hq Hr) as [? Hnone]. split; [lia|].
        destruct (entries reg' !! h) eqn:Hh; [|done].
        destruct (Hent _ _ Hh) as [?|[Hh' _]]; [congruence|]. by destruct (Hne (Hd _ _ _ _ _ Hj Hi Hq Hh')).
    + intros j k q q' [r' h] [[-> ->]|[Hj' Hj]]%lookup_insert_cases [[-> ->]|[Hk' Hk]]%lookup_insert_cases Hq Hq'; eauto.
      * destruct (Hpub _ _ Hq) as (-> & -> & _ & _). destruct (Hp _ _ _ _ _ Hk Hq' Hr). lia.
      * destruct (Hpub _ _ Hq') as (-> & -> & _ & _). destruct (Hp _ _ _ _ _ Hj Hq Hr). lia.
  - pose proof (Ht _ _ Hr) as [Htr _]. split; simpl; try done.
    + intros r' reg0 [[<- <-]|[Hne Hr']]%lookup_insert_Some; rewrite (sumZ_insert _ _ _ p) by done; [lia|].
      rewrite Hheld, Hheld0 by done. specialize (Ht _ _ Hr'). lia.
    + rewrite (sumZ_insert _ _ _ p), (sum_map_insert_Some _ _ _ reg) by done. lia.
    + rewrite (sumZ_insert _ _ _ p), (sum_map_insert_Some _ _ _ reg) by done. lia.
    + rewrite (sumZ_insert _ _ _ p) by done. lia.
Qed.

(** A step that only moves the operation on. *)
Lemma step_local sh ts i p p' :
  inv (sh, ts) -> ts !! i = Some p ->
  (forall r, reg_held r p' = reg_held r p) -> (forall r, reg_of p' = Some r -> reg_of p = Some r \/ is_Some (registries sh !! r)) ->
  publishing p' = None -> 0 <= pc_size p' -> bytes_held p' = bytes_held p ->
  allocs_held p' = allocs_held p -> over p' = over p -> inv (sh, <[i := p']> ts).
Proof.
  intros Hinv Hi. intros. pose proof (inv_totals _ Hinv) as [_ _ Hbc _ Hac _]. cbn [fst snd] in *.
  assert (inv (set_budget sh (budget sh), <[i := p']> ts)) as Hd by (eapply step_budget; eauto; lia).
  by destruct sh.
Qed.

(** The counters cover what an operation has charged to them. *)
Lemma charged sh ts i p :
  inv (sh, ts) -> ts !! i = Some p ->
  bytes_held p <= total_bytes (budget sh) /\ allocs_held p <= total_allocs (budget sh) /\
  forall r reg, registries sh !! r = Some reg -> reg_held r p <= total_device_bytes reg.
Proof.
  intros [Hh [Ht Hb _ Ha _ [Hl1 Hl2]] Hs] Hi. cbn [fst snd] in *.
  assert (0 <= sum_map live (registries sh) /\ 0 <= sum_map count (registries sh)) as [??]
    by (split; apply sum_map_nonneg; intros r reg Hr; by edestruct live_nonneg).
  split_and!.
  - destruct (held_nonneg _ 0 Hs) as (_ & Hn & _). pose proof (sumZ_lookup_le _ _ _ _ Hn Hi). lia.
  - destruct (held_nonneg _ 0 Hs) as (_ & _ & Hn). pose proof (sumZ_lookup_le _ _ _ _ Hn Hi). lia.
  - intros r reg Hr. destruct (held_nonneg _ r Hs) as (Hn & _ & _).
    pose proof (sumZ_lookup_le _ _ _ _ Hn Hi). destruct (Ht _ _ Hr) as [-> _].
    destruct (live_nonneg _ _ _ _ Hh Hr). lia.
Qed.

Lemma registry_of sh ts i p r :
  inv (sh, ts) -> ts !! i = Some p -> reg_of p = Some r ->
  exists reg, registries sh !! r = Some reg /\ get_registry sh r = reg.
Proof.
  intros [Hh _ _] Hi Hr. destruct (ok_using _ _ Hh _ _ _ Hi Hr) as [reg Hreg].
  cbn in Hreg. exists reg. split; [done|]. unfold get_registry. by rewrite Hreg.
Qed.

Lemma held_own (r : nat) e : (if bool_decide (r = r) then size e else 0) = size e.
Proof. by rewrite bool_decide_eq_true_2. Qed.

Lemma held_other (r r' : nat) e : r' <> r -> (if bool_decide (r = r') then size e else 0) = 0.
Proof. intros. by rewrite bool_decide_eq_false_2. Qed.

Ltac advance := eapply step_local; [done|done|done|cbn; intros; simplify_eq; by auto|done|done|done|done|done].
Ltac on_registry Hinv Hi Hreg :=
  eapply step_registry; [exact Hinv|exact Hi|exact Hreg|unfold live, count; cbn in *; rewrite ?held_own in *; auto..];
  [try (by intros; apply held_other)|try (by intros ? [=])|..]; try lia; try (by intros; congruence).
Ltac charge := eapply step_budget; [done|done|done|cbn; intros; simplify_eq; by auto|done|done|cbn..].

Lemma insert_inv spurious sh ts i p :
  inv (sh, ts) -> ts !! i = Some p ->
  inv ((tick_insert spurious sh p).1, <[i := (tick_insert spurious sh p).2]> ts).
Proof.
  intros Hinv Hi. pose proof (inv_sizes _ Hinv _ _ Hi) as Hsz. cbn [snd] in Hsz.
  pose proof (charged _ _ _ _ Hinv Hi) as (_ & _ & Hchg).
  destruct p as [|r e|r e|r e cur|r e|r e|r e|r e cur|r e|r e|r e|r e h|res|r h o|r h|r e|e|e|res];
    cbn [tick_insert]; try (by rewrite list_insert_id).
  - destruct (_ <=? _); cbn; advance.
  - advance.
  - destruct (registry_of _ _ _ _ _ Hinv Hi eq_refl) as (reg & Hreg & ->).
    destruct (MAX_TOTAL_DEVICE_BYTES <? _) eqn:Hcap; [cbn; advance|]. bool_props.
    destruct ((_ =? cur) && _) eqn:Heq; [|cbn; advance]. cbn [fst snd].
    apply andb_true_iff in Heq as [Heq _]. bool_props. cbn [pc_size] in Hsz.
    unfold sat_add, MAX_TOTAL_DEVICE_BYTES, MAX_DEVICE_ALLOC_BYTES in *.
    on_registry Hinv Hi Hreg.
  - destruct (registry_of _ _ _ _ _ Hinv Hi eq_refl) as (reg & Hreg & ->).
    specialize (Hchg _ _ Hreg). destruct (ok_reg _ _ (inv_totals _ Hinv) _ _ Hreg).
    cbn [reg_held] in Hchg. rewrite held_own in Hchg. unfold sat_sub. on_registry Hinv Hi Hreg.
  - destruct (registry_of _ _ _ _ _ Hinv Hi eq_refl) as (reg & Hreg & ->).
    destruct (ok_reg _ _ (inv_totals _ Hinv) _ _ Hreg). on_registry Hinv Hi Hreg.
    intros r' h [= <- <-]. split_and!; [done..|lia|done].
  - destruct (registry_of _ _ _ _ _ Hinv Hi eq_refl) as (reg & Hreg & ->).
    destruct (ok_reg _ _ (inv_totals _ Hinv) _ _ Hreg).
    destruct (ok_publish _ _ (inv_handles _ Hinv) _ _ _ _ _ Hi eq_refl Hreg) as [_ Hnone].
    on_registry Hinv Hi Hreg; rewrite ?sum_map_insert_None by done; try lia.
    intros h' e' [[<- <-]|[_ He']]%lookup_insert_Some; auto.
Qed.

Lemma reserve_inv spurious sh ts i p :
  inv (sh, ts) -> ts !! i = Some p ->
  inv ((try_reserve spurious sh p).1, <[i := (try_reserve spurious sh p).2]> ts).
Proof.
  intros Hinv Hi. pose proof (inv_sizes _ Hinv _ _ Hi) as Hsz. cbn [snd] in Hsz.
  pose proof (inv_totals _ Hinv) as [_ _ Hbc _ Hac _]. cbn [fst snd] in *.
  pose proof (charged _ _ _ _ Hinv Hi) as (_ & Hchg & _).
  assert (0 <= sumZ over ts) by (apply sumZ_nonneg, Forall_forall; intros []; cbn; lia).
  destruct p as [|r e|r e|r e cur|r e|r e|r e|r e cur|r e|r e|r e|r e h|res|r h o|r h|r e|e|e|res];
    cbn [try_reserve]; try (by rewrite list_insert_id).
  - destruct (_ <=? _) eqn:Hle; bool_props; cbn [fst snd]; charge; lia.
  - charge; lia.
  - advance.
  - destruct (MAX_PROCESS_DEVICE_BYTES <? _) eqn:Hcap; [cbn; advance|]. bool_props.
    destruct ((_ =? cur) && _) eqn:Heq; [|cbn; advance]. cbn [fst snd].
    apply andb_true_iff in Heq as [Heq _]. bool_props. cbn [pc_size] in Hsz.
    unfold sat_add, MAX_PROCESS_DEVICE_BYTES, MAX_TOTAL_DEVICE_BYTES, MAX_DEVICE_ALLOC_BYTES in *.
    charge; unfold MAX_PROCESS_DEVICE_BYTES, MAX_TOTAL_DEVICE_BYTES, MAX_DEVICE_ALLOC_BYTES; lia.
  - charge; lia.
Qed.

Lemma free_inv sh ts i p :
  inv (sh, ts) -> ts !! i = Some p -> inv ((tick_free sh p).1, <[i := (tick_free sh p).2]> ts).
Proof.
  intros Hinv Hi. pose proof (inv_sizes _ Hinv _ _ Hi) as Hsz. cbn [snd] in Hsz.
  pose proof (charged _ _ _ _ Hinv Hi) as (_ & _ & Hchg).
  destruct p as [|r e|r e|r e cur|r e|r e|r e|r e cur|r e|r e|r e|r e h|res|r h o|r h|r e|e|e|res];
    cbn [tick_free]; try (by rewrite list_insert_id);
    destruct (registry_of _ _ _ _ _ Hinv Hi eq_refl) as (reg & Hreg & ->);
    destruct (ok_reg _ _ (inv_totals _ Hinv) _ _ Hreg).
  - destruct (entries reg !! h); [destruct (_ =? _)|]; cbn; advance.
  - destruct (entries reg !! h) as [e|] eqn:He; [|cbn; advance].
    pose proof (ok_entry _ _ (inv_handles _ Hinv) _ _ _ _ Hreg He) as [??].
    cbn [fst snd]. on_registry Hinv Hi Hreg; rewrite ?(sum_map_delete _ _ _ _ He); try lia.
    intros h' e' [_ ?]%lookup_delete_Some. by left.
  - specialize (Hchg _ _ Hreg). cbn [reg_held] in Hchg. rewrite held_own in Hchg. unfold sat_sub.
    on_registry Hinv Hi Hreg.
Qed.

Lemma release_inv sh ts i p :
  inv (sh, ts) -> ts !! i = Some p -> inv ((release sh p).1, <[i := (release sh p).2]> ts).
Proof.
  intros Hinv Hi. pose proof (inv_sizes _ Hinv _ _ Hi) as Hsz. cbn [snd] in Hsz.
  pose proof (inv_totals _ Hinv) as [_ _ Hbc _ Hac _]. cbn [fst snd] in *.
  pose proof (charged _ _ _ _ Hinv Hi) as (Hb & Ha & _).
  destruct p; cbn [release]; try (by rewrite list_insert_id);
    cbn in Hb, Ha, Hsz; unfold sat_sub; charge; lia.
Qed.

Lemma device_tick_inv spurious sh ts i p :
  inv (sh, ts) -> ts !! i = Some p -> inv ((tick spurious sh p).1, <[i := (tick spurious sh p).2]> ts).
Proof.
  intros Hinv Hi. destruct p; cbn [tick]; try (by rewrite list_insert_id);
    eauto using insert_inv, reserve_inv, free_inv, release_inv.
Qed.

Lemma start_inv s i r p :
  inv s -> (forall r', reg_of p = Some r' -> r' = r) -> (forall r', reg_held r' p = 0) ->
  publishing p = None -> 0 <= pc_size p -> bytes_held p = 0 -> allocs_held p = 0 -> over p = 0 ->
  inv (start s i r p).
Proof.
  destruct s as [sh ts]. intros Hinv Hr. intros. unfold start. cbn [fst snd].
  destruct (ts !! i) as [q|] eqn:Hi; [|done]. destruct (registries sh !! r) as [reg|] eqn:Hreg; [|done].
  destruct (at_rest q) eqn:Hq; [|done].
  eapply step_local; [done|done| |intros r' ->%Hr; right; by rewrite Hreg|..];
    intros; destruct q; simplify_eq/=; eauto.
Qed.

Lemma new_registry_inv sh ts r :
  inv (sh, ts) -> registries sh !! r = None -> inv (set_registry sh r with_budget, ts).
Proof.
  intros [[Hu He Hp Hd] [Ht Hb Hbc Ha Hac Hl] Hs] Hr. cbn [fst snd] in *.
  assert (forall p i, ts !! i = Some p -> reg_of p <> Some r) as Hno.
  { intros p i Hi Hof. destruct (Hu _ _ _ Hi Hof). congruence. }
  split; simpl; [| |done].
  - split; simpl; [..|done].
    + intros i p r' Hi Hof. rewrite lookup_insert_is_Some'. right. eauto.
    + intros r' reg h e [[<- <-]|[_ Hr']]%lookup_insert_Some; [done|eauto].
    + intros i p r' h reg Hi Hpub [[<- <-]|[_ Hr']]%lookup_insert_Some; [|eauto].
      destruct (Hno _ _ Hi). by destruct p; simplify_eq/=.
  - split; simpl; try done.
    + intros r' reg [[<- <-]|[_ Hr']]%lookup_insert_Some; [|by apply Ht]. cbn.
      enough (sumZ (reg_held r) ts = 0) as -> by done. apply sumZ_all_zero.
      intros p [i Hi]%list_elem_of_lookup. specialize (Hno _ _ Hi).
      destruct p; simpl in *; try done; by rewrite bool_decide_eq_false_2 by congruence.
    + by rewrite sum_map_insert_None.
    + by rewrite sum_map_insert_None.
Qed.

Lemma drop_inv sh ts r reg :
  inv (sh, ts) -> registries sh !! r = Some reg -> (forall i p, ts !! i = Some p -> reg_of p <> Some r) ->
  inv (mkShared (delete r (registries sh)) (budget sh) (leaked_bytes sh + live reg)
         (leaked_allocs sh + count reg), ts).
Proof.
  intros [Hh [Ht Hb Hbc Ha Hac [Hl1 Hl2]] Hs] Hr Hno. cbn [fst snd] in *.
  destruct (live_nonneg _ _ _ _ Hh Hr). destruct Hh as [Hu He Hp Hd].
  split; simpl; [| |done].
  - split; simpl; [..|done].
    + intros i p r' Hi Hof. rewrite lookup_delete_ne by (intros ->; by eapply Hno). eauto.
    + intros r' reg' h e [_ Hr']%lookup_delete_Some. eauto.
    + intros i p r' h reg' Hi Hpub [_ Hr']%lookup_delete_Some. eauto.
  - split; simpl; try done.
    + intros r' reg' [_ Hr']%lookup_delete_Some. by apply Ht.
    + rewrite (sum_map_delete _ _ _ _ Hr). lia.
    + rewrite (sum_map_delete _ _ _ _ Hr). lia.
    + lia.
Qed.

Lemma device_exec_inv ev s : inv s -> inv (exec ev s).
Proof.
  destruct s as [sh ts]. intros Hinv. destruct ev as [i spurious|i r e|i r h o|r|r]; cbn [exec].
  - destruct (ts !! i) as [p|] eqn:Hi; [|done]. pose proof (device_tick_inv spurious _ _ _ _ Hinv Hi).
    by destruct (tick spurious sh p).
  - destruct (_ && _) eqn:Hs; [|done]. apply andb_true_iff in Hs as [??]. bool_props.
    apply start_inv; try done. by intros ? [=].
  - apply start_inv; try done. by intros ? [=].
  - case_bool_decide; [|done]. by apply new_registry_inv.
  - destruct (registries sh !! r) as [reg|] eqn:Hr; [|done]. destruct (forallb _ ts) eqn:Hall; [|done].
    apply drop_inv; [done..|]. intros i p Hi Hof. rewrite forallb_forall in Hall.
    specialize (Hall p). rewrite <-list_elem_of_In in Hall.
    specialize (Hall (list_elem_of_lookup_2 _ _ _ Hi)). by rewrite bool_decide_eq_true_2 in Hall.
Qed.

Lemma initial_inv n : inv (initial n).
Proof.
  assert (forall f : pc -> Z, f Idle = 0 -> sumZ f (replicate n Idle) = 0) as Hsum.
  { intros f Hf. apply sumZ_all_zero. intros p [-> _]%elem_of_replicate. done. }
  split; simpl.
  - split; simpl; try done; intros *; rewrite ?lookup_replicate; naive_solver.
  - split; simpl; try done; rewrite ?Hsum, ?sum_map_empty by done; done.
  - intros i p [-> _]%lookup_replicate. done.
Qed.

Lemma device_run_inv evs s : inv s -> inv (run evs s).
Proof. revert s. induction evs as [|ev evs IH]; intros s Hs; [done|]. by apply IH, device_exec_inv. Qed.

(** The calls that passed the count check of registry [r] and may still add an
    entry to it. *)
Definition admitted (r : nat) (p : pc) : Z :=
  match p with
  | InsertLoad r' _ | InsertCas r' _ _ | ReserveCount r' _ | ReserveLoad r' _ | ReserveCas r' _ _
  | InsertHandle r' _ | InsertPublish r' _ _ => if bool_decide (r' = r) then 1 else 0
  | _ => 0
  end.

Definition filled (reg : DeviceMemRegistry) : Z := Z.of_nat (base.size (entries reg)).

Definition slots_ok (s : Shared * list pc) : Prop := forall r reg, registries s.1 !! r = Some reg ->
  filled reg + sumZ (admitted r) s.2 <= MAX_DEVICE_ALLOCS_PER_INSTANCE - 1 + Z.of_nat (length s.2).

Lemma admitted_count_le r ts : sumZ (admitted r) ts <= Z.of_nat (length ts).
Proof.
  unfold sumZ. induction ts as [|p ts IH]; [done|]. cbn [foldr length].
  assert (admitted r p <= 1) by (destruct p; cbn; try case_bool_decide; lia). lia.
Qed.

(** An access adds an entry only where it uses up an admission, and admits only
    below the cap. *)
Lemma tick_slots spurious sh p r reg' :
  (forall r0, reg_of p = Some r0 -> is_Some (registries sh !! r0)) ->
  registries (tick spurious sh p).1 !! r = Some reg' ->
  exists reg, registries sh !! r = Some reg /\
    (filled reg' + admitted r (tick spurious sh p).2 <= filled reg + admitted r p \/
     filled reg' <= MAX_DEVICE_ALLOCS_PER_INSTANCE - 1).
Proof.
  intros Hof Hr.
  assert (forall r0, reg_of p = Some r0 -> registries sh !! r0 = Some (get_registry sh r0)) as Hget.
  { intros r0 [reg0 Hr0]%Hof. unfold get_registry. by rewrite Hr0. }
  destruct p; cbn [tick tick_insert try_reserve tick_free release reg_of] in *; try specialize (Hget _ eq_refl);
    repeat case_match; cbn [fst snd registries set_registry set_budget] in *;
    try (apply lookup_insert_Some in Hr as [[<- <-]|[Hne Hr]]);
    (eexists; split; [eassumption|]); cbn [admitted]; bool_props; unfold filled in *; cbn [entries set_total];
    repeat case_bool_decide; simplify_eq; try (rewrite (Hget : _ = Some _) in Hr; simplify_eq); try lia.
  - left. rewrite map_size_insert. case_match; unfold id; lia.
  - left. rewrite map_size_delete. case_match; unfold id; lia.
Qed.

Lemma slots_start s i r p : slots_ok s -> (forall r, admitted r p = 0) -> slots_ok (start s i r p).
Proof.
  destruct s as [sh ts]. intros Hs Hp. unfold start. cbn [fst snd]. destruct (ts !! i) as [q|] eqn:Hi; [|done].
  destruct (registries sh !! r); [|done]. destruct (at_rest q) eqn:Hq; [|done]. intros r' reg Hr.
  specialize (Hs r' reg Hr). cbn [fst snd] in *. rewrite length_insert, (sumZ_insert _ _ _ _ _ Hi), Hp.
  assert (admitted r' q = 0) by by destruct q. lia.
Qed.

Lemma slots_exec ev s : inv s -> slots_ok s -> slots_ok (exec ev s).
Proof.
  destruct s as [sh ts]. intros Hinv Hs. destruct ev as [i spurious|i r e|i r h o|r|r]; cbn [exec].
  - destruct (ts !! i) as [p|] eqn:Hi; [|done].
    destruct (tick spurious sh p) as [sh' p'] eqn:Ht. intros r reg' Hr. cbn [fst snd] in *.
    destruct (tick_slots spurious sh p r reg') as (reg & Hreg & Hle); [|by rewrite Ht|].
    { intros r0 Hr0. by apply (ok_using _ _ (inv_handles _ Hinv) i p). }
    specialize (Hs r reg Hreg). pose proof (admitted_count_le r (<[i := p']> ts)). rewrite length_insert, Ht in *. cbn [fst snd] in *.
    rewrite (sumZ_insert _ _ _ _ _ Hi) in *. lia.
  - destruct (_ && _); [|done]. by apply slots_start.
  - by apply slots_start.
  - case_bool_decide; [|done]. intros r' reg Hr. cbn in Hr.
    apply lookup_insert_Some in Hr as [[<- <-]|[_ Hr]]; [|by apply Hs].
    pose proof (admitted_count_le r ts). unfold filled, MAX_DEVICE_ALLOCS_PER_INSTANCE. cbn [with_budget entries snd].
    rewrite map_size_empty. lia.
  - destruct (registries sh !! r) as [reg|] eqn:Hr; [|done]. destruct (forallb _ ts); [|done].
    intros r' reg' Hr'. cbn in Hr'. apply lookup_delete_Some in Hr' as [_ Hr']. by apply Hs.
Qed.

Lemma exec_length ev s : length (exec ev s).2 = length s.2.
Proof.
  destruct s as [sh ts]. destruct ev; cbn; unfold start; cbn; repeat case_match; cbn; by rewrite ?length_insert.
Qed.

Lemma slots_run evs s :
  inv s -> slots_ok s -> slots_ok (run evs s) /\ length (run evs s).2 = length s.2.
Proof.
  revert s. induction evs as [|ev evs IH]; intros s Hinv Hs; [done|]. cbn [run].
  destruct (IH (exec ev s)) as [? Hl]; [by apply device_exec_inv|by apply slots_exec|]. by rewrite Hl, exec_length.
Qed.

(** C26: device memory stays within its byte and process caps in every schedule.
    However the atomic accesses of [n] threads' concurrent [insert] and [free]
    calls on any number of registries interleave (spurious compare-exchange
    failures, registries created and dropped in between), the live bytes of a
    registry never exceed its counter, which never exceeds
    [MAX_TOTAL_DEVICE_BYTES]; the live bytes and allocations of the whole process
    never exceed [MAX_PROCESS_DEVICE_BYTES] and [MAX_PROCESS_DEVICE_ALLOCS]; and
    whenever no call is in flight every counter is exact, except that what a
    registry held when it was dropped stays charged to the budget.  The number
    of allocations of one registry is checked before it is changed: [n] threads
    may pass [MAX_DEVICE_ALLOCS_PER_INSTANCE], by at most [n - 1]. *)
Theorem device_budget_safe n evs :
  let '(sh, ts) := run evs (initial n) in
  (forall r reg, registries sh !! r = Some reg ->
     live reg <= total_device_bytes reg <= MAX_TOTAL_DEVICE_BYTES /\
     Z.of_nat (base.size (entries reg)) <= MAX_DEVICE_ALLOCS_PER_INSTANCE + (Z.of_nat n - 1)) /\
  sum_map live (registries sh) <= total_bytes (budget sh) <= MAX_PROCESS_DEVICE_BYTES /\
  sum_map count (registries sh) <= MAX_PROCESS_DEVICE_ALLOCS /\
  (forallb at_rest ts = true ->
   (forall r reg, registries sh !! r = Some reg -> total_device_bytes reg = live reg) /\
   total_bytes (budget sh) = sum_map live (registries sh) + leaked_bytes sh /\
   total_allocs (budget sh) = sum_map count (registries sh) + leaked_allocs sh).
Proof.
  pose proof (device_run_inv evs _ (initial_inv n)) as Hinv.
  destruct (slots_run evs (initial n) (initial_inv n)) as [Hslots Hlen]; [by intros r reg Hr; cbn in Hr; rewrite lookup_empty in Hr|].
  destruct (run evs (initial n)) as [sh ts].
  destruct Hinv as [_ [Ht Hb Hbc Ha Hac [??]] Hs]. cbn [fst snd initial] in *. rewrite length_replicate in Hlen.
  assert (forall f : pc -> Z, (forall p, p ∈ ts -> 0 <= f p) -> 0 <= sumZ f ts) as Hpos
    by (intros f Hf; by apply sumZ_nonneg, Forall_forall).
  destruct (held_nonneg ts 0 Hs) as (_ & Hb0%Hpos & _).
  assert (0 <= sumZ (fun p => allocs_held p - over p) ts) as Hov by (apply Hpos; intros []; cbn; lia).
  rewrite sumZ_sub in Hov. split_and!; try lia.
  - intros r reg Hr. destruct (Ht _ _ Hr). destruct (held_nonneg ts r Hs) as (Hr0%Hpos & _).
    specialize (Hslots r reg Hr). unfold filled in Hslots. cbn [fst snd] in Hslots.
    assert (0 <= sumZ (admitted r) ts) by (apply Hpos; intros []; cbn; try case_bool_decide; lia). lia.
  - intros Hrest. rewrite forallb_forall in Hrest.
    assert (forall f : pc -> Z, (forall p, at_rest p = true -> f p = 0) -> sumZ f ts = 0) as Hz.
    { intros f Hf. apply sumZ_all_zero. intros p Hp. apply Hf, Hrest. by apply list_elem_of_In. }
    rewrite Hz in Hb, Ha by (by intros []). split_and!; try lia.
    intros r reg Hr. destruct (Ht _ _ Hr) as [-> _]. rewrite Hz by (by intros []). lia.
Qed.

(** The accesses an operation still has to make when nobody interferes: a
    stale loop variable costs one more. *)
Definition variant (sh : Shared) (p : pc) : nat :=
  match p with
  | Idle | Inserted _ | Freed _ => 0
  | InsertPublish _ _ _ | InsertUndo _ _ | ReleaseAllocs _ => 1
  | InsertHandle _ _ | ReserveOver _ _ | ReserveUndo _ _ | ReleaseBytes _ => 2
  | ReserveCas _ _ current => if total_bytes (budget sh) =? current then 3 else 4
  | FreeBytes _ _ => 3
  | ReserveLoad _ _ | FreeRemove _ _ => 4
  | ReserveCount _ _ | FreeGet _ _ _ => 5
  | InsertCas r _ current => if total_device_bytes (get_registry sh r) =? current then 6 else 7
  | InsertLoad _ _ => 7
  | InsertLen _ _ => 8
  end.

Lemma variant_decreases sh p :
  at_rest p = false -> (variant (tick false sh p).1 (tick false sh p).2 < variant sh p)%nat.
Proof.
  destruct p; intros Hr; try done; cbn -[Z.leb Z.ltb MAX_PROCESS_DEVICE_ALLOCS]; try lia;
    rewrite ?Z.eqb_refl; try lia; repeat (case_match; cbn; rewrite ?Z.eqb_refl); try lia;
    bool_props; try lia; congruence.
Qed.

(** a call that is left alone returns.  From every shared state and every
    point of an [insert] or [free] (stale loop variables included), eight more
    accesses without interference complete the call. *)
Theorem left_alone_returns sh p : at_rest (alone 8 sh p).2 = true.
Proof.
  enough (forall n sh p, (variant sh p <= n)%nat -> at_rest (alone n sh p).2 = true) as Hn.
  { apply Hn. destruct p; cbn; repeat case_match; lia. }
  induction n as [|n IH]; intros sh0 q Hv; cbn [alone].
  - destruct q; cbn in *; repeat case_match; done || lia.
  - destruct (at_rest q) eqn:Hq; [done|]. pose proof (variant_decreases sh0 q Hq).
    destruct (tick false sh0 q) as [sh1 q1]. apply IH. cbn in *. lia.
Qed.

Lemma inv_counters sh ts r reg :
  inv (sh, ts) -> registries sh !! r = Some reg ->
  0 <= total_device_bytes reg /\ total_device_bytes reg <= MAX_TOTAL_DEVICE_BYTES /\
  0 <= total_bytes (budget sh) /\ total_bytes (budget sh) <= MAX_PROCESS_DEVICE_BYTES.
Proof.
  intros [Hh [Ht Hb Hbc _ _ [? _]] Hs] Hr. cbn [fst snd] in *. destruct (Ht _ _ Hr) as [-> ?].
  destruct (live_nonneg _ _ _ _ Hh Hr) as [? _]. destruct (held_nonneg _ r Hs) as (Hn1 & Hn2 & _).
  assert (0 <= sum_map live (registries sh))
    by (apply sum_map_nonneg; intros r' reg' Hr'; by edestruct live_nonneg).
  split_and!; [|lia| |lia].
  - assert (0 <= sumZ (reg_held r) ts) by (by apply sumZ_nonneg, Forall_forall). lia.
  - assert (0 <= sumZ bytes_held ts) by (by apply sumZ_nonneg, Forall_forall). lia.
Qed.

Lemma cap_test m t s : 0 <= t -> 0 <= s -> m < u64_max -> (m <? sat_add u64_max t s) = negb (t + s <=? m).
Proof. intros. unfold sat_add. destruct (_ <? _) eqn:?, (_ <=? _) eqn:?; bool_props; simpl; done || lia. Qed.

Ltac settle :=
  repeat (unfold get_registry, set_registry, set_budget, set_total;
          cbn -[Z.leb Z.ltb sat_add sat_sub]; rewrite ?lookup_insert_eq).

Lemma undone sh r reg (q : pc) :
  registries sh !! r = Some reg ->
  (mkShared (<[r := mkRegistry (next_handle reg) (entries reg) (total_device_bytes reg)]> (registries sh))
     (mkBudget (total_bytes (budget sh)) (total_allocs (budget sh))) (leaked_bytes sh) (leaked_allocs sh), q)
  = (sh, q).
Proof. intros Hr. destruct sh as [rs [tb ta] lb la]. destruct reg. simpl in *. by rewrite insert_id. Qed.

(** The outcome of an [insert] that is past its count check and runs alone. *)
Lemma counted_insert_outcome sh ts r reg e :
  inv (sh, ts) -> registries sh !! r = Some reg -> 0 <= size e ->
  let b := budget sh in
  alone 7 sh (InsertLoad r e) =
  if (total_device_bytes reg + size e <=? MAX_TOTAL_DEVICE_BYTES) &&
     (total_allocs b <? MAX_PROCESS_DEVICE_ALLOCS) &&
     (total_bytes b + size e <=? MAX_PROCESS_DEVICE_BYTES)
  then (mkShared
          (<[r := mkRegistry (next_handle reg + 1) (<[next_handle reg := e]> (entries reg))
                    (total_device_bytes reg + size e)]> (registries sh))
          (mkBudget (total_bytes b + size e) (total_allocs b + 1)) (leaked_bytes sh) (leaked_allocs sh),
        Inserted (Ok (next_handle reg)))
  else (sh, Inserted (Err QuotaExceeded)).
Proof.
  intros Hinv Hr Hs b. destruct (inv_counters _ _ _ _ Hinv Hr) as (Ht & Hcap & Hb & Hbc). fold b in Hb, Hbc.
  assert (get_registry sh r = reg) as Hget by (unfold get_registry; by rewrite Hr).
  cbn -[Z.leb Z.ltb sat_add sat_sub get_registry]. rewrite Hget, cap_test, Z.eqb_refl by done.
  destruct (_ + _ <=? MAX_TOTAL_DEVICE_BYTES) eqn:Hle; [|done]. cbn -[Z.leb Z.ltb sat_add sat_sub get_registry].
  bool_props. unfold MAX_TOTAL_DEVICE_BYTES, MAX_DEVICE_ALLOC_BYTES in Hle.
  replace (sat_add u64_max (total_device_bytes reg) (size e)) with (total_device_bytes reg + size e)
    by (unfold sat_add; lia).
  assert (sat_sub (total_device_bytes reg + size e) (size e) = total_device_bytes reg) as Hback
    by (unfold sat_sub; lia).
  rewrite Z.leb_antisym. unfold get_registry, set_registry, set_budget, set_total. fold b.
  destruct (_ <? MAX_PROCESS_DEVICE_ALLOCS); cbn -[Z.leb Z.ltb sat_add sat_sub].
  - rewrite cap_test, Z.eqb_refl by done.
    destruct (_ + _ <=? MAX_PROCESS_DEVICE_BYTES) eqn:Hle'; cbn -[Z.leb Z.ltb sat_add sat_sub].
    + bool_props. unfold MAX_PROCESS_DEVICE_BYTES, MAX_TOTAL_DEVICE_BYTES, MAX_DEVICE_ALLOC_BYTES in Hle'.
      replace (sat_add u64_max (total_bytes b) (size e)) with (total_bytes b + size e) by (unfold sat_add; lia).
      settle. by rewrite !insert_insert_eq.
    + settle. rewrite Hback, Z.add_simpl_r, insert_insert_eq. by apply undone.
  - settle. rewrite Hback, Z.add_simpl_r, insert_insert_eq. by apply undone.
Qed.

(** The outcome of an [insert] that runs alone: it succeeds exactly when none
    of the four caps is in the way, and a refusal changes nothing. *)
Theorem insert_alone_outcome sh ts r reg e :
  inv (sh, ts) -> registries sh !! r = Some reg -> 0 <= size e ->
  let b := budget sh in
  alone 8 sh (InsertLen r e) =
  if (Z.of_nat (base.size (entries reg)) <? MAX_DEVICE_ALLOCS_PER_INSTANCE) &&
     (total_device_bytes reg + size e <=? MAX_TOTAL_DEVICE_BYTES) &&
     (total_allocs b <? MAX_PROCESS_DEVICE_ALLOCS) &&
     (total_bytes b + size e <=? MAX_PROCESS_DEVICE_BYTES)
  then (mkShared
          (<[r := mkRegistry (next_handle reg + 1) (<[next_handle reg := e]> (entries reg))
                    (total_device_bytes reg + size e)]> (registries sh))
          (mkBudget (total_bytes b + size e) (total_allocs b + 1)) (leaked_bytes sh) (leaked_allocs sh),
        Inserted (Ok (next_handle reg)))
  else (sh, Inserted (Err QuotaExceeded)).
Proof.
  intros Hinv Hr Hs b.
  change (alone 8 sh (InsertLen r e)) with
    (let '(sh, p) := tick_insert false sh (InsertLen r e) in alone 7 sh p).
  cbn [tick_insert]. replace (get_registry sh r) with reg by (unfold get_registry; by rewrite Hr).
  rewrite Z.leb_antisym. destruct (_ <? MAX_DEVICE_ALLOCS_PER_INSTANCE); [|done].
  exact (counted_insert_outcome sh ts r reg e Hinv Hr Hs).
Qed.

(** The count is read once, at the start, and nothing ties it to the insertion:
    a call that found room inserts its entry however many the registry has
    gained since, so that concurrent calls pass [MAX_DEVICE_ALLOCS_PER_INSTANCE]. *)
Lemma count_check_is_stale sh ts r reg e :
  inv (sh, ts) -> registries sh !! r = Some reg -> 0 <= size e ->
  total_device_bytes reg + size e <= MAX_TOTAL_DEVICE_BYTES ->
  total_allocs (budget sh) < MAX_PROCESS_DEVICE_ALLOCS ->
  total_bytes (budget sh) + size e <= MAX_PROCESS_DEVICE_BYTES ->
  exists reg', registries (alone 7 sh (InsertLoad r e)).1 !! r = Some reg' /\
    base.size (entries reg') = S (base.size (entries reg)).
Proof.
  intros Hinv Hr Hs H1 H2 H3. rewrite (counted_insert_outcome _ _ _ _ _ Hinv Hr Hs).
  rewrite (proj2 (Z.leb_le _ _) H1), (proj2 (Z.ltb_lt _ _) H2), (proj2 (Z.leb_le _ _) H3). cbn.
  rewrite lookup_insert_eq. eexists. split; [done|]. cbn. apply map_size_insert_None.
  destruct (entries reg !! next_handle reg) eqn:He; [|done].
  destruct (ok_entry _ _ (inv_handles _ Hinv) _ _ _ _ Hr He). lia.
Qed.

(** Dropping registries does not credit the budget: once four instances have
    allocated their 4 GiB and gone, a new instance is refused a single byte
    although no registry holds anything. *)
Definition fill (r : nat) : list event :=
  NewRegistry r :: concat (replicate 16 (CallInsert 0 r (mkEntry (Z.of_nat r) MAX_DEVICE_ALLOC_BYTES)
                                         :: replicate 8 (Tick 0 false))) ++ [DropRegistry r].

Definition after_fill : Shared := (run (fill 0 ++ fill 1 ++ fill 2 ++ fill 3 ++ [NewRegistry 4]) (initial 1)).1.

Lemma dropped_registry_leaks_budget :
  sum_map live (registries after_fill) = 0 /\ total_bytes (budget after_fill) = MAX_PROCESS_DEVICE_BYTES /\
  (alloc_impl after_fill 4 4 1).2 = Err QuotaExceeded.
Proof. vm_compute. done. Qed.
End DeviceMemFacts.
