(* ===== verification/WasiGpu.v ===== *)
(** * [tensor-wasm-wasi-gpu]: kernels, back-pressure, scheduling and streaming

    Models [registry.rs] (the per-instance kernel registry),
    [async_dispatch.rs] (back-pressure permits and the dispatch future),
    [scheduler.rs] (the cooperative yield verdicts) and [streaming.rs] (the
    output channel and the staged input).  Times are nanoseconds on a
    monotonic clock and enter as arguments.  tokio's semaphore and channel
    appear through their contracts: a permit is granted only while fewer than
    the cap are out, a sent chunk arrives in order or the receiver is gone. *)

From S2P Require Import Prelude Core Primitives KernelArgs KernelCache JitDispatch.

(** ** [registry.rs] *)

Module KernelRegistry.
Definition MAX_KERNELS_PER_INSTANCE : Z := 256.
Definition MAX_PTX_BYTES : Z := 8 * 1024 * 1024.
Definition MAX_TOTAL_PTX_BYTES : Z := 64 * MAX_PTX_BYTES.

Record KernelEntry := mkKernelEntry { owner : Z; entry : str; ptx_bytes_len : Z }.

(** [next_id] is not modelled as wrapping: it starts below 2^63. *)
Record KernelRegistry := mkKernelRegistry {
  next_id : Z;
  entries : gmap Z KernelEntry;
  total_ptx_bytes : Z;
}.

(** The seed hides which registry an id came from and stays in the lower half
    of the [u64] range. *)
Definition random_kernel_id_seed (raw : Z) : Z := Z.lor (Z.land raw 0x7fffffffffff0000) 1.

Definition new (raw : Z) : KernelRegistry := mkKernelRegistry (random_kernel_id_seed raw) ∅ 0.

Definition register (reg : KernelRegistry) (e : KernelEntry) : result AbiError Z * KernelRegistry :=
  if MAX_KERNELS_PER_INSTANCE <=? Z.of_nat (size (entries reg)) then (Err QuotaExceeded, reg)
  else
    let next := sat_add u64_max (total_ptx_bytes reg) (ptx_bytes_len e) in
    if MAX_TOTAL_PTX_BYTES <? next then (Err QuotaExceeded, reg)
    else
      let id := next_id reg in
      (Ok id, mkKernelRegistry (id + 1) (<[id := e]> (entries reg)) next).

Definition lookup (reg : KernelRegistry) (id who : Z) : result AbiError KernelEntry :=
  r ← ok_or InvalidKernel (entries reg !! id);
  if owner r =? who then Ok r else Err InvalidKernel.

Definition remove (reg : KernelRegistry) (id : Z) : option KernelEntry * KernelRegistry :=
  match entries reg !! id with
  | None => (None, reg)
  | Some e =>
      (Some e, mkKernelRegistry (next_id reg) (delete id (entries reg))
                 (sat_sub (total_ptx_bytes reg) (ptx_bytes_len e)))
  end.
End KernelRegistry.

Module KernelRegistryFacts.
Import KernelRegistry.

Record registry_ok (reg : KernelRegistry) : Prop := {
  rk_ids id e : entries reg !! id = Some e -> 0 < id < next_id reg /\ 0 <= ptx_bytes_len e;
  rk_next : 0 < next_id reg;
  rk_total : total_ptx_bytes reg = sum_map ptx_bytes_len (entries reg);
  rk_cap : total_ptx_bytes reg <= MAX_TOTAL_PTX_BYTES;
  rk_count : Z.of_nat (size (entries reg)) <= MAX_KERNELS_PER_INSTANCE;
}.

Lemma seed_positive raw : 0 < random_kernel_id_seed raw.
Proof.
  unfold random_kernel_id_seed. set (x := Z.land _ _).
  assert (0 <= Z.lor x 1) by (apply Z.lor_nonneg; split; [apply Z.land_nonneg|]; lia).
  assert (Z.testbit (Z.lor x 1) 0 = true) as Hb by (rewrite Z.lor_spec; apply orb_true_r).
  destruct (decide (Z.lor x 1 = 0)) as [Hz|]; [by rewrite Hz in Hb|lia].
Qed.

Lemma new_ok raw : registry_ok (new raw).
Proof. split; simpl; try done; [apply seed_positive]. Qed.

(** Registering and removing keep the registry well formed; a kernel that is
    registered resolves for its owner, for nobody else, and until it is
    removed. *)
Theorem register_ok reg e :
  registry_ok reg -> 0 <= ptx_bytes_len e ->
  registry_ok (register reg e).2 /\
  match (register reg e).1 with
  | Ok id => entries reg !! id = None /\
      (forall who, lookup (register reg e).2 id who = if owner e =? who then Ok e else Err InvalidKernel) /\
      (forall id' who, id' <> id -> lookup (register reg e).2 id' who = lookup reg id' who)
  | Err err => err = QuotaExceeded /\ (register reg e).2 = reg
  end.
Proof.
  intros [Hids Hn Ht Hc Hk] He. unfold register.
  destruct (_ <=? _) eqn:Hfull; [by split|]. destruct (MAX_TOTAL_PTX_BYTES <? _) eqn:Hcap; [by split|].
  bool_props. cbn [fst snd].
  assert (entries reg !! next_id reg = None) as Hnone.
  { destruct (entries reg !! next_id reg) eqn:Hl; [|done]. apply Hids in Hl. lia. }
  unfold MAX_TOTAL_PTX_BYTES, MAX_PTX_BYTES, sat_add in *. split; [split; simpl|split_and!; [done|..]].
  - intros id e' [[<- <-]|[_ Hl]]%lookup_insert_Some; [lia|]. apply Hids in Hl. lia.
  - lia.
  - rewrite sum_map_insert_None by done. lia.
  - unfold MAX_TOTAL_PTX_BYTES, MAX_PTX_BYTES. lia.
  - rewrite map_size_insert_None by done. lia.
  - intros who. unfold lookup. simpl. by rewrite lookup_insert_eq.
  - intros id' who Hne. unfold lookup. simpl. by rewrite lookup_insert_ne.
Qed.

Theorem remove_ok reg id :
  registry_ok reg -> registry_ok (remove reg id).2 /\ (remove reg id).1 = entries reg !! id /\
  (forall who, lookup (remove reg id).2 id who = Err InvalidKernel).
Proof.
  intros [Hids Hn Ht Hc Hk]. unfold remove. destruct (entries reg !! id) as [e|] eqn:Hl; cbn [fst snd].
  - pose proof (Hids _ _ Hl) as [_ He]. split_and!; [split; simpl| |]; try done.
    + intros id' e' [_ Hl']%lookup_delete_Some. eauto.
    + rewrite (sum_map_delete _ _ _ _ Hl), Ht. unfold sat_sub.
      assert (ptx_bytes_len e <= sum_map ptx_bytes_len (entries reg)); [|lia].
      apply sum_map_lookup_le with (k := id); [|done]. intros k v Hv. by destruct (Hids _ _ Hv).
    + unfold sat_sub, MAX_TOTAL_PTX_BYTES, MAX_PTX_BYTES in *. lia.
    + rewrite map_size_delete, Hl. simpl. lia.
    + intros who. unfold lookup. simpl. by rewrite lookup_delete_eq.
  - split_and!; [done|done|]. intros who. unfold lookup. by rewrite Hl.
Qed.
End KernelRegistryFacts.

(** ** Back-pressure and the scheduler *)

Module BackPressure.
Definition DEADLINE_NEAR_WINDOW : Z := 50 * 1000000.

Inductive BackPressureError := Saturated | DeadlineNear | DeadlineElapsed.

#[global] Instance BackPressureError_eq_dec : EqDecision BackPressureError.
Proof. solve_decision. Defined.

(** [From<BackPressureError> for AbiError]. *)
Definition to_abi (e : BackPressureError) : AbiError := QuotaExceeded.

Definition saturating_duration_since (d now : Z) : Z := sat_sub d now.

Definition check_deadline (deadline : option Z) (now : Z) : result BackPressureError () :=
  match deadline with
  | None => Ok ()
  | Some d =>
      if d <=? now then Err DeadlineElapsed
      else if saturating_duration_since d now <=? DEADLINE_NEAR_WINDOW then Err DeadlineNear
      else Ok ()
  end.

(** The shared half: permits out of the semaphore, and the gauge. *)
Record Inner := mkInner { out : Z; active : Z; max_concurrent : Z }.

Definition granted (s : Inner) : Inner := mkInner (out s + 1) (active s) (max_concurrent s).
Definition returned (s : Inner) : Inner := mkInner (out s - 1) (active s) (max_concurrent s).
Definition counted (s : Inner) (d : Z) : Inner := mkInner (out s) (active s + d) (max_concurrent s).

(** The entry points, each with the deadline its handle carries. *)
Inductive call := Acquire | AcquireWithDeadline | TryAcquireWithDeadline | AcquireBorrowed | TryAcquire.

Inductive caller :=
| Enter (c : call)
| Trying
| Waiting (c : call)
| Recheck (c : call)
| Counting
| Holding
| Dropping
| Refused (e : option BackPressureError)
| Finished.

(** Does the entry point look at the deadline, before and after it waits? *)
Definition checks_deadline (c : call) : bool :=
  match c with Acquire | TryAcquire => false | _ => true end.
Definition rechecks_deadline (c : call) : bool :=
  match c with AcquireWithDeadline | AcquireBorrowed => true | _ => false end.
Definition waits (c : call) : bool :=
  match c with TryAcquireWithDeadline | TryAcquire => false | _ => true end.

Definition saturated (c : call) : caller :=
  Refused (match c with TryAcquire => None | _ => Some Saturated end).

(** One step of a caller at time [now].  A non-waiting attempt is refused
    while the permits are out; a waiting one either gets a permit or, with a
    deadline, gives up when its timer fires.  [acquire_borrowed] tries before
    it waits. *)
Inductive step (deadline : option Z) (now : Z) : Inner -> caller -> Inner -> caller -> Prop :=
| step_refuse_early s c e :
    checks_deadline c = true -> check_deadline deadline now = Err e ->
    step deadline now s (Enter c) s (Refused (Some e))
| step_enter s c :
    (checks_deadline c = true -> check_deadline deadline now = Ok ()) ->
    step deadline now s (Enter c) s (match c with AcquireBorrowed => Trying | _ => Waiting c end)
| step_fast s : out s < max_concurrent s -> step deadline now s Trying (granted s) Counting
| step_cap_zero s :
    max_concurrent s <= out s -> max_concurrent s = 0 ->
    step deadline now s Trying s (Refused (Some Saturated))
| step_slow s :
    max_concurrent s <= out s -> max_concurrent s <> 0 ->
    step deadline now s Trying s (Waiting AcquireBorrowed)
| step_grant s c :
    out s < max_concurrent s ->
    step deadline now s (Waiting c) (granted s) (if rechecks_deadline c then Recheck c else Counting)
| step_saturated s c :
    waits c = false -> max_concurrent s <= out s -> step deadline now s (Waiting c) s (saturated c)
| step_timer s c d :
    rechecks_deadline c = true -> deadline = Some d -> d <= now ->
    step deadline now s (Waiting c) s (Refused (Some DeadlineElapsed))
| step_recheck_fail s c e :
    check_deadline deadline now = Err e -> step deadline now s (Recheck c) (returned s) (Refused (Some e))
| step_recheck s c :
    check_deadline deadline now = Ok () -> step deadline now s (Recheck c) s Counting
| step_count s : step deadline now s Counting (counted s 1) Holding
| step_drop s : step deadline now s Holding (returned s) Dropping
| step_uncount s : step deadline now s Dropping (counted s (-1)) Finished.
End BackPressure.

Module Scheduler.
Import BackPressure.
Definition YIELD_CODE_CONTINUE : Z := 0.
Definition YIELD_CODE_DEADLINE_APPROACHING : Z := 1.
Definition YIELD_CODE_STOP : Z := 2.
Definition SUGGESTED_YIELD_THRESHOLD_MS : Z := 10.

Record SchedulerContext := mkScheduler {
  started_at : Z;
  deadline_ms : option Z;
  yield_count : Z;
  bp_deadline_instant : option Z;
}.

Definition new (now : Z) (deadline_ms : option Z) : SchedulerContext := mkScheduler now deadline_ms 0 None.

Definition set_bp_deadline_instant (c : SchedulerContext) (d : option Z) : SchedulerContext :=
  mkScheduler (started_at c) (deadline_ms c) (yield_count c) d.

Definition rearm (c : SchedulerContext) (now : Z) : SchedulerContext :=
  mkScheduler now (deadline_ms c) (yield_count c) (bp_deadline_instant c).

Definition rearm_with_instant (c : SchedulerContext) (now : Z) (d : option Z) : SchedulerContext :=
  mkScheduler now (deadline_ms c) (yield_count c) d.

Definition set_deadline_ms (c : SchedulerContext) (ms : option Z) : SchedulerContext :=
  mkScheduler (started_at c) ms (yield_count c) (bp_deadline_instant c).

(** [as_millis() as u64] of the time since the start. *)
Definition elapsed_ms (c : SchedulerContext) (now : Z) : Z := as_u64 (sat_sub now (started_at c) / 1000000).

Definition yield_now (c : SchedulerContext) (now : Z) : Z * SchedulerContext :=
  let c' := mkScheduler (started_at c) (deadline_ms c) (as_u32 (yield_count c + 1)) (bp_deadline_instant c) in
  (match bp_deadline_instant c with
   | Some d =>
       if d <=? now then YIELD_CODE_STOP
       else if saturating_duration_since d now <=? DEADLINE_NEAR_WINDOW then YIELD_CODE_DEADLINE_APPROACHING
       else YIELD_CODE_CONTINUE
   | None =>
       match deadline_ms c with
       | None => YIELD_CODE_CONTINUE
       | Some total =>
           let remaining := sat_sub total (elapsed_ms c now) in
           if remaining =? 0 then YIELD_CODE_STOP
           else if remaining <? SUGGESTED_YIELD_THRESHOLD_MS then YIELD_CODE_DEADLINE_APPROACHING
           else YIELD_CODE_CONTINUE
       end
   end, c').

Definition deadline_remaining_ms (c : SchedulerContext) (now : Z) : Z :=
  match bp_deadline_instant c with
  | Some d => try_from_or u32_max (u32_max - 1) (saturating_duration_since d now / 1000000)
  | None =>
      match deadline_ms c with
      | None => u32_max
      | Some total => try_from_or u32_max (u32_max - 1) (sat_sub total (elapsed_ms c now))
      end
  end.
End Scheduler.

Module BackPressureFacts.
Import BackPressure Scheduler.

(** the guest and the host agree on the deadline.  With the same absolute
    deadline installed, at every instant the yield verdict is STOP exactly when
    back-pressure refuses with [DeadlineElapsed], DEADLINE_APPROACHING exactly
    when it refuses with [DeadlineNear], and CONTINUE exactly when it admits;
    and as time passes the verdict only gets worse. *)
Theorem scheduler_agrees_with_back_pressure c d now :
  bp_deadline_instant c = Some d ->
  (yield_now c now).1 =
    match check_deadline (Some d) now with
    | Ok _ => YIELD_CODE_CONTINUE
    | Err DeadlineNear => YIELD_CODE_DEADLINE_APPROACHING
    | Err _ => YIELD_CODE_STOP
    end /\
  (forall later, now <= later -> (yield_now c now).1 <= (yield_now c later).1) /\
  ((yield_now c now).1 = YIELD_CODE_STOP -> deadline_remaining_ms c now = 0).
Proof.
  intros Hd. unfold yield_now, deadline_remaining_ms, check_deadline, saturating_duration_since.
  rewrite Hd. cbn [fst]. split_and!.
  - by repeat case_match.
  - intros later Hle. unfold sat_sub.
    repeat (destruct (_ <=? _) eqn:?; bool_props); try done; lia.
  - destruct (d <=? now) eqn:?; bool_props; [|by case_match]. intros _.
    assert (sat_sub d now = 0) as -> by (unfold sat_sub; lia). done.
Qed.

Lemma scheduler_agrees_with_back_pressure_witness :
  let c := set_bp_deadline_instant (new 0 None) (Some 100000000) in
  (yield_now c 60000000).1 = YIELD_CODE_DEADLINE_APPROACHING.
Proof.
  intros c. destruct (scheduler_agrees_with_back_pressure c 100000000 60000000 eq_refl) as [-> _].
  vm_compute. reflexivity.
Defined.

(** A finite budget of [u32::MAX] milliseconds reads as the unbounded
    sentinel. *)
Lemma finite_deadline_reads_as_unbounded :
  deadline_remaining_ms (new 0 (Some u32_max)) 0 = deadline_remaining_ms (new 0 None) 0.
Proof. done. Qed.

(** Permits held, and gauge increments not yet undone. *)
Definition holds (t : option Z * caller) : Z :=
  match t.2 with Recheck _ | Counting | Holding => 1 | _ => 0 end.
Definition gauges (t : option Z * caller) : Z :=
  match t.2 with Holding | Dropping => 1 | _ => 0 end.
Definition live (t : option Z * caller) : Z := match t.2 with Holding => 1 | _ => 0 end.

(** Each handle carries its own deadline; the clock is any. *)
Definition caller_step (s : Inner) (t : option Z * caller) (s' : Inner) (t' : option Z * caller) : Prop :=
  t'.1 = t.1 /\ exists now, step t.1 now s t.2 s' t'.2.

Lemma permits_invariant s ts s' ts' :
  rtc (pool_step caller_step) (s, ts) (s', ts') ->
  out s = sumZ holds ts /\ active s = sumZ gauges ts /\ out s <= max_concurrent s ->
  out s' = sumZ holds ts' /\ active s' = sumZ gauges ts' /\ out s' <= max_concurrent s' /\
  max_concurrent s' = max_concurrent s.
Proof.
  intros Hrtc (Ho & Ha & Hm).
  apply (pool_invariant caller_step (fun s1 ts1 => out s1 = sumZ holds ts1 /\ active s1 = sumZ gauges ts1 /\
    out s1 <= max_concurrent s1 /\ max_concurrent s1 = max_concurrent s)) with (s := s) (ts := ts); [|done|done].
  clear. intros s1 ts1 i [d t] s2 [d' t'] (Ho & Ha & Hm & Hmax) Hi [Hd [now Hstep]]. simpl in *. subst d'.
  rewrite !(sumZ_insert _ _ _ _ _ Hi). cbn [holds gauges snd].
  inversion Hstep; subst; cbn in *; try (destruct c; cbn); lia.
Qed.

(** at most [max_concurrent] dispatches are in flight.  Whichever entry
    points concurrent callers use, with whatever deadlines, and however their
    steps interleave, the permits held never exceed the cap, and whenever no
    caller is between taking a permit and counting it (or the reverse) the
    [active] gauge is exactly the number of live permits. *)
Theorem permits_bounded max callers s ts :
  0 <= max ->
  rtc (pool_step caller_step) (mkInner 0 0 max, (fun dc => (dc.1, Enter dc.2)) <$> callers) (s, ts) ->
  sumZ live ts <= max /\
  (Forall (fun t => holds t = gauges t) ts -> active s = out s /\ active s = sumZ live ts).
Proof.
  intros Hmax Hrun. apply permits_invariant in Hrun as (Ho & Ha & Hm & Hmax').
  - simpl in Hmax'. split.
    + enough (0 <= sumZ (fun t => holds t - live t) ts) as Hl by (rewrite sumZ_sub in Hl; lia).
      apply sumZ_nonneg, Forall_forall. intros [d []] _; cbn; lia.
    + intros Hall. rewrite Ho, Ha. split.
      * symmetry. by apply sumZ_ext, Forall_forall.
      * apply sumZ_ext. intros [d t] Ht. rewrite Forall_forall in Hall. specialize (Hall _ Ht). by destruct t.
  - simpl. rewrite !sumZ_fmap. split_and!; [symmetry; by apply sumZ_zero..|done].
Qed.

Lemma permits_bounded_witness :
  let ts := [(Some 100000000, Holding)] in
  sumZ live ts <= 1 /\ (Forall (fun t => holds t = gauges t) ts -> 1 = 1 /\ 1 = sumZ live ts).
Proof.
  apply (permits_bounded 1 [(Some 100000000, AcquireWithDeadline)] (mkInner 1 1 1)); [lia|].
  eapply rtc_l. { eapply (pool_step_intro _ _ _ 0 _ _ (Some 100000000, Waiting AcquireWithDeadline));
    [done|]. split; [done|]. exists 0. by apply (step_enter _ _ _ AcquireWithDeadline). }
  eapply rtc_l. { eapply (pool_step_intro _ _ _ 0 _ _ (Some 100000000, Recheck AcquireWithDeadline));
    [done|]. split; [done|]. exists 1. by apply (step_grant _ _ _ AcquireWithDeadline). }
  eapply rtc_l. { eapply (pool_step_intro _ _ _ 0 _ _ (Some 100000000, Counting));
    [done|]. split; [done|]. exists 2. by apply step_recheck. }
  eapply rtc_l. { eapply (pool_step_intro _ _ _ 0 _ _ (Some 100000000, Holding));
    [done|]. split; [done|]. exists 3. by apply step_count. }
  apply rtc_refl.
Defined.
End BackPressureFacts.

(** ** [streaming.rs] *)

Module Streaming.
Definition MAX_CHUNK_BYTES : Z := 64 * 1024.
Definition MAX_TOTAL_STREAM_BYTES : Z := 64 * 1024 * 1024.

(** The state clones of a context share: the counter, the chunks the channel
    has accepted, and whether its receiver is gone. *)
Record Stream := mkStream {
  enabled : bool;
  max_total : Z;
  bytes_emitted : Z;
  chunks : list (list u8);
  closed : bool;
}.

Definition disabled : Stream := mkStream false 0 0 [] false.
Definition with_channel_and_cap (max_total : Z) : Stream := mkStream true max_total 0 [] false.
Definition with_channel : Stream := with_channel_and_cap MAX_TOTAL_STREAM_BYTES.

Definition add_emitted (s : Stream) (d : Z) : Stream :=
  mkStream (enabled s) (max_total s) (as_u64 (bytes_emitted s + d)) (chunks s) (closed s).

Definition send (s : Stream) (bytes : list u8) : option Stream :=
  if closed s then None
  else Some (mkStream (enabled s) (max_total s) (bytes_emitted s) (chunks s ++ [bytes]) (closed s)).

(** [emit_chunk], access by access; between [Send] and its completion the
    sender may wait for the receiver. *)
Inductive emitter :=
| Emit (bytes : list u8)
| Check (bytes : list u8) (new_total : Z)
| Send (bytes : list u8)
| Undo (bytes : list u8) (code : Z)
| Emitted (code : Z).

Definition tick (s : Stream) (t : emitter) : Stream * emitter :=
  match t with
  | Emit bytes =>
      if enabled s then
        let added := Z.of_nat (length bytes) in
        (add_emitted s added, Check bytes (bytes_emitted s + added))
      else (s, Emitted (-1))
  | Check bytes new_total => (s, if max_total s <? new_total then Undo bytes (-2) else Send bytes)
  | Send bytes =>
      match send s bytes with
      | Some s => (s, Emitted 0)
      | None => (s, Undo bytes (-3))
      end
  | Undo bytes code => (add_emitted s (- Z.of_nat (length bytes)), Emitted code)
  | Emitted _ => (s, t)
  end.

(** The events of a stream: an emitter's next access, or the receiver going. *)
Inductive emit_event := EmitTick (i : nat) | Disconnect.

Definition exec (ev : emit_event) (st : Stream * list emitter) : Stream * list emitter :=
  let '(s, ts) := st in
  match ev with
  | EmitTick i =>
      match ts !! i with
      | Some t => let '(s, t) := tick s t in (s, <[i := t]> ts)
      | None => st
      end
  | Disconnect => (mkStream (enabled s) (max_total s) (bytes_emitted s) (chunks s) true, ts)
  end.

Definition run (evs : list emit_event) (st : Stream * list emitter) : Stream * list emitter :=
  foldl (fun st ev => exec ev st) st evs.

Definition flush (s : Stream) : Z := if enabled s then if closed s then -3 else 0 else -1.

(** [prepare_emit_chunk]: the guest's range, copied out of its memory. *)
Definition prepare_emit_chunk (memory : option Memory.t) (buf_ptr buf_len : Z) : result Z (list u8) :=
  if (buf_len <? 0) || (buf_ptr <? 0) then Err (-2)
  else if MAX_CHUNK_BYTES <? buf_len then Err (-2)
  else
    m ← ok_or (-2) memory;
    end_ ← ok_or (-2) (checked_add usize_max buf_ptr buf_len);
    if Memory.len m <? end_ then Err (-2)
    else Ok (slice (Z.to_nat buf_ptr) (Z.to_nat end_) (Memory.data m)).

(** [read-input]: copy as much of the staged input as the guest has room for. *)
Definition read_input (staged : list u8) (memory : option Memory.t) (ptr len : Z) :
    Z * option Memory.t :=
  if bool_decide (staged = []) || (len =? 0) then (0, memory)
  else
    let to_copy := Z.min (Z.of_nat (length staged)) len in
    match memory with
    | None => (code InvalidPointer, memory)
    | Some m =>
        match checked_add usize_max ptr to_copy with
        | None => (code InvalidPointer, memory)
        | Some end_ =>
            if Memory.len m <? end_ then (code InvalidPointer, memory)
            else
              match Memory.write m ptr (take (Z.to_nat to_copy) staged) with
              | None => (code InvalidPointer, memory)
              | Some m => (try_from_or i32_max i32_max to_copy, Some m)
              end
        end
    end.

Definition input_len (staged : list u8) : Z := try_from_or u32_max u32_max (Z.of_nat (length staged)).
End Streaming.

Module StreamingFacts.
Import Streaming.

Definition in_flight (t : emitter) : Z :=
  match t with
  | Check bytes _ | Send bytes | Undo bytes _ => Z.of_nat (length bytes)
  | _ => 0
  end.

(** Bytes that are or may still be sent. *)
Definition admitted (cap : Z) (t : emitter) : Z :=
  match t with
  | Check bytes total => if total <=? cap then Z.of_nat (length bytes) else 0
  | Send bytes => Z.of_nat (length bytes)
  | _ => 0
  end.

Definition pending (t : emitter) : Z :=
  match t with
  | Emit bytes | Check bytes _ | Send bytes | Undo bytes _ => Z.of_nat (length bytes)
  | Emitted _ => 0
  end.

Definition sent (s : Stream) : Z := Z.of_nat (length (concat (chunks s))).

(** What an emitter of [b] has delivered. *)
Definition delivered (b : list u8) (t : emitter) : list (list u8) :=
  match t with Emitted 0 => [b] | _ => [] end.

Definition carries (b : list u8) (t : emitter) : Prop :=
  match t with
  | Emit b' | Check b' _ | Send b' => b' = b
  | Undo b' code => b' = b /\ code < 0
  | Emitted code => code <= 0
  end.

Record stream_ok (cap : Z) (bs : list (list u8)) (s : Stream) (ts : list emitter) : Prop := {
  so_enabled : enabled s = true;
  so_max : max_total s = cap;
  so_count : bytes_emitted s = sent s + sumZ in_flight ts;
  so_width : sent s + sumZ pending ts <= u64_max;
  so_cap : sent s + sumZ (admitted cap) ts <= cap;
  so_carries : Forall2 carries bs ts;
  so_chunks : chunks s ≡ₚ concat (zip_with delivered bs ts);
}.

Lemma delivered_step bs ts i b t t' l :
  bs !! i = Some b -> ts !! i = Some t -> delivered b t = [] -> delivered b t' = l ->
  concat (zip_with delivered bs (<[i := t']> ts)) ≡ₚ l ++ concat (zip_with delivered bs ts).
Proof.
  intros Hb Ht Hn <-. revert bs i Hb Ht.
  induction ts as [|u ts IH]; intros [|c bs] [|i] Hb Ht; simplify_eq/=; [by rewrite Hn|].
  rewrite (IH _ _ Hb Ht). rewrite !app_assoc. by rewrite (Permutation_app_comm (delivered c u)).
Qed.

Lemma carries_step bs ts i b t' :
  Forall2 carries bs ts -> bs !! i = Some b -> carries b t' -> Forall2 carries bs (<[i := t']> ts).
Proof. intros Hall Hb Ht. rewrite <-(list_insert_id bs i b Hb). by apply Forall2_insert. Qed.

Lemma in_flight_le ts : sumZ in_flight ts <= sumZ pending ts.
Proof.
  enough (0 <= sumZ (fun t => pending t - in_flight t) ts) as Hl by (rewrite sumZ_sub in Hl; lia).
  apply sumZ_nonneg, Forall_forall. intros [] _; cbn; lia.
Qed.

Lemma admitted_le cap ts : sumZ (admitted cap) ts <= sumZ in_flight ts.
Proof.
  enough (0 <= sumZ (fun t => in_flight t - admitted cap t) ts) as Hl by (rewrite sumZ_sub in Hl; lia).
  apply sumZ_nonneg, Forall_forall. intros [] _; cbn; try case_match; lia.
Qed.

Lemma in_flight_nonneg ts : 0 <= sumZ in_flight ts.
Proof. apply sumZ_nonneg, Forall_forall. intros [] _; cbn; lia. Qed.

Lemma emit_tick_ok cap bs s ts i t :
  stream_ok cap bs s ts -> ts !! i = Some t -> stream_ok cap bs (tick s t).1 (<[i := (tick s t).2]> ts).
Proof.
  intros [He Hm Hc Hw Hcap Hcar Hch] Hi.
  destruct (Forall2_lookup_r _ _ _ _ _ Hcar Hi) as (b & Hb & Hbt).
  pose proof (in_flight_le ts). pose proof (admitted_le cap ts). pose proof (in_flight_nonneg ts).
  assert (in_flight t <= sumZ in_flight ts) as Hself
    by (eapply sumZ_lookup_le; [|done]; intros [] _; cbn; lia).
  assert (pending t - in_flight t <= sumZ pending ts - sumZ in_flight ts) as Hself'.
  { rewrite <-sumZ_sub. eapply (sumZ_lookup_le (fun t => pending t - in_flight t)); [|done]. intros [] _; cbn; lia. }
  assert (0 <= sent s) by (unfold sent; lia).
  assert (forall d, 0 <= bytes_emitted s + d <= u64_max -> as_u64 (bytes_emitted s + d) = bytes_emitted s + d)
    as Has by (intros; unfold as_u64; rewrite Z.mod_small; lia).
  destruct t as [bytes|bytes total|bytes|bytes c|c]; cbn [tick]; cbn in Hself, Hself', Hbt.
  - rewrite He. cbn [fst snd]. subst bytes. split; cbn; try done; rewrite ?(sumZ_insert _ _ _ _ _ Hi); cbn.
    + rewrite Has by lia. change (sent (add_emitted s _)) with (sent s). lia.
    + change (sent (add_emitted s _)) with (sent s). lia.
    + change (sent (add_emitted s _)) with (sent s). destruct (_ <=? cap) eqn:?; bool_props; lia.
    + by eapply carries_step.
    + by rewrite (delivered_step bs ts i b _ _ [] Hb Hi).
  - subst bytes. pose proof (sumZ_insert (admitted cap) _ _ _ (if max_total s <? total then Undo b (-2) else Send b) Hi) as Hadm.
    rewrite Hm in *. cbn [fst snd].
    split; cbn; try done; rewrite ?(sumZ_insert _ _ _ _ _ Hi).
    + destruct (cap <? total); cbn; lia.
    + destruct (cap <? total); cbn; lia.
    + cbn. destruct (total <=? cap) eqn:?, (cap <? total) eqn:?; bool_props; cbn; lia.
    + eapply carries_step; [done..|]. by destruct (cap <? total).
    + rewrite (delivered_step bs ts i b _ _ [] Hb Hi); [done..|]. by destruct (cap <? total).
  - subst bytes. unfold send. destruct (closed s); cbn [fst snd].
    + split; cbn; try done; rewrite ?(sumZ_insert _ _ _ _ _ Hi); cbn; try lia.
      * by eapply carries_step.
      * by rewrite (delivered_step bs ts i b _ _ [] Hb Hi).
    + assert (length (concat (chunks s ++ [b])) = length (concat (chunks s)) + length b)%nat as Hl.
      { rewrite concat_app, length_app. cbn. by rewrite app_nil_r. }
      unfold sent in *. split; unfold sent; cbn -[concat]; try done;
        rewrite ?(sumZ_insert _ _ _ _ _ Hi), ?Hl; cbn -[concat]; try lia.
      * by eapply carries_step.
      * rewrite (delivered_step bs ts i b _ _ [b] Hb Hi) by done. rewrite Hch. by rewrite Permutation_app_comm.
  - destruct Hbt as [-> Hneg]. cbn [fst snd]. split; cbn; try done; rewrite ?(sumZ_insert _ _ _ _ _ Hi); cbn.
    + rewrite Has by lia. change (sent (add_emitted s _)) with (sent s). lia.
    + change (sent (add_emitted s _)) with (sent s). lia.
    + change (sent (add_emitted s _)) with (sent s). lia.
    + eapply carries_step; [done..|]. simpl. lia.
    + rewrite (delivered_step bs ts i b _ _ [] Hb Hi); [done..|]. by destruct c.
  - cbn [fst snd]. by rewrite list_insert_id.
Qed.

Lemma stream_run_ok cap bs evs s ts :
  stream_ok cap bs s ts -> stream_ok cap bs (run evs (s, ts)).1 (run evs (s, ts)).2.
Proof.
  unfold run. revert s ts. induction evs as [|ev evs IH]; intros s ts Hok; [done|]. cbn [foldl].
  destruct ev as [i|]; cbn [exec].
  - destruct (ts !! i) as [t|] eqn:Hi; [|by apply IH]. pose proof (emit_tick_ok _ _ _ _ _ _ Hok Hi).
    destruct (tick s t). by apply IH.
  - apply IH. by destruct Hok.
Qed.

(** the stream cap holds under concurrency and codes tell the truth.  For
    any emits by any number of clones of a streaming context, any schedule of
    their accesses and any moment at which the receiver disconnects, what has
    been put on the channel never exceeds [max_total]; it is exactly the
    chunks whose call returned 0, each once; and once no call is in flight the
    counter is exactly the bytes delivered. *)
Theorem stream_cap_safe cap bs evs :
  0 <= cap -> sumZ (fun b => Z.of_nat (length b)) bs <= u64_max ->
  let '(s, ts) := run evs (with_channel_and_cap cap, Emit <$> bs) in
  sent s <= cap /\ chunks s ≡ₚ concat (zip_with delivered bs ts) /\
  (Forall (fun t => exists code, t = Emitted code) ts -> bytes_emitted s = sent s).
Proof.
  intros Hcap Hw. pose proof (stream_run_ok cap bs evs (with_channel_and_cap cap) (Emit <$> bs)) as Hok.
  destruct (run evs _) as [s ts]. cbn [fst snd] in Hok.
  destruct Hok as [_ _ Hc _ Hle _ Hch].
  { split; cbn; try done.
    - rewrite sumZ_fmap. by rewrite sumZ_zero.
    - rewrite sumZ_fmap. unfold sent. cbn. exact Hw.
    - rewrite sumZ_fmap. rewrite sumZ_zero by done. unfold sent. cbn. lia.
    - apply Forall2_fmap_r, Forall_Forall2_diag. by apply Forall_forall.
    - clear. induction bs as [|b bs IH]; [done|]. exact IH. }
  assert (0 <= sumZ (admitted cap) ts)
    by (apply sumZ_nonneg, Forall_forall; intros [] _; cbn; try case_match; lia).
  split_and!; [lia|done|]. intros Hall. rewrite Hc, sumZ_all_zero; [lia|].
  intros t Ht. rewrite Forall_forall in Hall. destruct (Hall t Ht) as [code ->]. done.
Qed.

Lemma stream_cap_safe_witness :
  let bs := [bytes_of "abc"; bytes_of "de"; bytes_of "fgh"] in
  let '(s, ts) := run [EmitTick 0; EmitTick 1; EmitTick 2; EmitTick 0; EmitTick 1; EmitTick 2;
                       EmitTick 0; EmitTick 1; EmitTick 2] (with_channel_and_cap 5, Emit <$> bs) in
  sent s <= 5 /\ chunks s ≡ₚ concat (zip_with delivered bs ts) /\
  (Forall (fun t => exists code, t = Emitted code) ts -> bytes_emitted s = sent s).
Proof. apply stream_cap_safe; [lia|]. vm_compute. done. Defined.

(** [read-input] copies the first [n] staged bytes to [ptr] and touches nothing
    else; it fails without writing when they do not fit. *)
Theorem read_input_exact staged m ptr len n m' :
  0 <= ptr -> 0 <= len <= u32_max -> read_input staged (Some m) ptr len = (n, Some m') ->
  if 0 <? n then
    Memory.read m' ptr (Z.to_nat n) = Some (take (Z.to_nat n) staged) /\
    n = Z.min (Z.of_nat (length staged)) len \/ i32_max <= n
  else m' = m.
Proof.
  intros Hp Hl. unfold read_input. destruct (_ || _) eqn:Hz; [by intros [= <- <-]|].
  apply orb_false_iff in Hz as [Hs Hlz]. bool_props.
  assert (0 < Z.of_nat (length staged)) by (destruct staged; cbn; [done|lia]).
  destruct (checked_add _ _ _) as [e|] eqn:He; [|by intros [= <- <-]]. apply checked_add_Some in He as [-> He].
  destruct (_ <? _) eqn:Hfit; [by intros [= <- <-]|]. bool_props.
  destruct (Memory.write _ _ _) as [m1|] eqn:Hw; [|by intros [= <- <-]]. intros [= <- <-].
  unfold try_from_or. destruct (_ <=? i32_max) eqn:Hi; bool_props; [|by right].
  rewrite (proj2 (Z.ltb_lt _ _)) by lia. left. split; [|done].
  pose proof (MemoryFacts.read_write _ _ _ _ Hw) as Hr. rewrite length_take in Hr.
  by rewrite Nat.min_l in Hr by lia.
Qed.
End StreamingFacts.

(** ** [DispatchFuture]

    The task that polls and the driver thread that runs the completion
    callback share a flag and a slot for a waker.  The [k]-th poll brings
    waker [k]; [woken] lists the wakers that were called. *)
Module Dispatch.
Inductive poll_pc :=
| NotPolled
| LoadDone (w : nat)
| Park (w : nat)
| Reload (w : nat)
| Pending (w : nat)
| Ready.

Inductive callback_pc := NotRegistered | Registered | Marked | Returned.

Record Future := mkFuture {
  has_stream : bool;
  done : bool;
  waker : option nat;
  woken : list nat;
  poller : poll_pc;
  callback : callback_pc;
  polls : nat;
}.

Definition new (has_stream : bool) : Future := mkFuture has_stream false None [] NotPolled NotRegistered 0.

Definition set_poller (f : Future) (p : poll_pc) : Future :=
  mkFuture (has_stream f) (done f) (waker f) (woken f) p (callback f) (polls f).

(** The start of [poll]: without a stream it resolves; the first poll parks its
    waker and registers the callback ([registers]: did the driver accept it?);
    a later one goes on to look at the flag. *)
Definition start_poll (registers : bool) (f : Future) : Future :=
  let w := polls f in
  if has_stream f then
    match callback f with
    | NotRegistered =>
        if registers then
          mkFuture true false (Some w) (woken f) (Pending w) Registered (S w)
        else mkFuture true (done f) (waker f) (woken f) Ready NotRegistered (S w)
    | _ => mkFuture true (done f) (waker f) (woken f) (LoadDone w) (callback f) (S w)
    end
  else mkFuture false (done f) (waker f) (woken f) Ready (callback f) (S w).

(** The rest of [poll], access by access. *)
Definition tick_poll (f : Future) : Future :=
  match poller f with
  | LoadDone w => set_poller f (if done f then Ready else Park w)
  | Park w => mkFuture (has_stream f) (done f) (Some w) (woken f) (Reload w) (callback f) (polls f)
  | Reload w => set_poller f (if done f then Ready else Pending w)
  | _ => f
  end.

(** [stream_completion_trampoline]: mark, then take the waker and wake it. *)
Definition tick_callback (f : Future) : Future :=
  match callback f with
  | Registered => mkFuture (has_stream f) true (waker f) (woken f) (poller f) Marked (polls f)
  | Marked =>
      mkFuture (has_stream f) (done f) None (option_list (waker f) ++ woken f) (poller f) Returned (polls f)
  | _ => f
  end.

Inductive event := Poll (registers : bool) | PollTick | CallbackTick.

Definition exec (ev : event) (f : Future) : Future :=
  match ev with
  | Poll registers =>
      match poller f with
      | NotPolled | Pending _ => start_poll registers f
      | _ => f
      end
  | PollTick => tick_poll f
  | CallbackTick => tick_callback f
  end.

Definition run (evs : list event) (f : Future) : Future := foldl (fun f ev => exec ev f) f evs.
End Dispatch.

Module DispatchFutureFacts.
Import Dispatch.

Definition before_mark (c : callback_pc) : bool :=
  match c with NotRegistered | Registered => true | _ => false end.

Record future_ok (f : Future) : Prop := {
  fo_done : done f = negb (before_mark (callback f));
  fo_started : callback f = NotRegistered -> match poller f with NotPolled | Ready => True | _ => False end;
  fo_pending w : poller f = Pending w ->
    match callback f with Returned => w ∈ woken f | _ => waker f = Some w end;
  fo_ready : poller f = Ready -> done f = true \/ callback f = NotRegistered;
  fo_stream : callback f <> NotRegistered -> has_stream f = true;
  fo_reload w : poller f = Reload w -> callback f <> Returned -> waker f = Some w \/ callback f = NotRegistered;
}.

Lemma future_exec_ok ev f : future_ok f -> future_ok (exec ev f).
Proof.
  intros [Hd Hs Hp Hy Ht Hr]. destruct f as [st d wk ws p c n]. destruct ev as [reg| |]; cbn in *.
  - destruct p; try (by split); destruct st, c, reg; split; cbn in *; try done; try naive_solver.
  - destruct p; cbn in *; split; cbn in *; try done; try (destruct d; cbn in *; try done);
      destruct c; naive_solver.
  - destruct c; cbn in *; split; cbn in *; try done; try (destruct p; naive_solver).
    intros w ->. rewrite (Hp w eq_refl). cbn. by left.
Qed.

Lemma future_run_ok evs f : future_ok f -> future_ok (run evs f).
Proof. unfold run. revert f. induction evs as [|ev evs IH]; intros f Hf; [done|]. by apply IH, future_exec_ok. Qed.

(** C20: no wake-up is lost.  However polls and the driver's completion callback
    interleave, once the callback has returned, a future whose latest poll
    answered [Pending] has had exactly the waker of that poll called; from the
    moment the callback has marked completion every poll that runs answers
    [Ready]; and a poll answers [Ready] only after that moment, unless there
    was nothing to wait for (no stream, or the driver refused the callback). *)
Theorem no_lost_wakeup has_stream evs :
  let f := run evs (new has_stream) in
  (forall w, poller f = Pending w -> callback f = Returned -> w ∈ woken f) /\
  (done f = true -> forall w registers, poller f = Pending w ->
     poller (tick_poll (start_poll registers f)) = Ready) /\
  (poller f = Ready -> done f = true \/ callback f = NotRegistered).
Proof.
  intros f. assert (future_ok f) as [Hd Hs Hp Hy Ht Hr] by (apply future_run_ok; by split).
  split_and!.
  - intros w Hw Hc. specialize (Hp w Hw). by rewrite Hc in Hp.
  - intros Hdone w reg _. destruct f as [st d wk ws p c n]. cbn in *.
    destruct c; cbn in *; try congruence; rewrite Ht by done; cbn; by rewrite Hdone.
  - done.
Qed.
End DispatchFutureFacts.
