(* ===== verification/MemPool.v ===== *)
(** * [tensor-wasm-mem/src/pool.rs]: the unified-memory bump pool

    Tenants' linear memories are carved out of one slab by a lock-free bump
    pointer; the slab is recycled by [reset], and a carve zeroes only what has
    been handed out before (below [carved_high_water]).  An allocation is a
    program counter and [tick] its next access to shared memory; weak
    compare-exchanges may fail spuriously.  The slab is its bytes, zero at
    first ([UnifiedBuffer::new_on]).  [reset] takes [&mut self]: it can only
    run when no call is in flight and no allocation borrows the pool;
    allocations that were leaked ([mem::forget]) remain counted.
    [epoch_high_water] is not a field of the code: it is [carved_high_water]
    as it was at the last [reset]. *)

From S2P Require Import Prelude Core.

Module MemPool.
Definition MAX_ALIGN : Z := Z.shiftl 1 30.

Inductive UnifiedError :=
| ZeroSize
| Allocation
| TooLarge (requested limit : Z).

Record region := mkRegion { offset : Z; size : Z; align : Z }.

Record UnifiedMemoryPool := mkPool {
  slab : list u8;
  bump : Z;
  live : Z;
  issued_total : Z;
  carved_high_water : Z;
  epoch_high_water : Z;
}.

Definition capacity (p : UnifiedMemoryPool) : Z := Z.of_nat (length (slab p)).

Definition new (capacity : nat) : UnifiedMemoryPool :=
  mkPool (replicate capacity Byte.x00) 0 0 0 0 0.

Definition remaining (p : UnifiedMemoryPool) : Z := sat_sub (capacity p) (bump p).

Definition is_power_of_two (a : Z) : bool := (0 <? a) && (a =? 2 ^ Z.log2 a).

(** Where a user of the pool stands.  [Holding r untouched] owns an allocation
    it has not written to yet, or has. *)
Inductive user :=
| Idle
| LoadBump (sz al : Z)
| CasBump (sz al current : Z)
| AddLive (r : region)
| LoadIssued (r : region)
| CasIssued (r : region) (issued : Z)
| LoadHighWater (r : region)
| ZeroFill (r : region) (high_water : Z)
| CasHighWater (r : region) (hw : Z)
| Holding (r : region) (untouched : bool)
| Forgotten (r : region)
| ReleaseLoad
| ReleaseCas (current : Z)
| Refused (e : UnifiedError).

Definition set_bump (p : UnifiedMemoryPool) (b : Z) : UnifiedMemoryPool :=
  mkPool (slab p) b (live p) (issued_total p) (carved_high_water p) (epoch_high_water p).
Definition set_live (p : UnifiedMemoryPool) (n : Z) : UnifiedMemoryPool :=
  mkPool (slab p) (bump p) n (issued_total p) (carved_high_water p) (epoch_high_water p).
Definition set_issued (p : UnifiedMemoryPool) (n : Z) : UnifiedMemoryPool :=
  mkPool (slab p) (bump p) (live p) n (carved_high_water p) (epoch_high_water p).
Definition set_high_water (p : UnifiedMemoryPool) (n : Z) : UnifiedMemoryPool :=
  mkPool (slab p) (bump p) (live p) (issued_total p) n (epoch_high_water p).
Definition set_slab (p : UnifiedMemoryPool) (s : list u8) : UnifiedMemoryPool :=
  mkPool s (bump p) (live p) (issued_total p) (carved_high_water p) (epoch_high_water p).

(** [ptr::write_bytes(base + off, 0, n)]. *)
Definition write_zeros (s : list u8) (off n : nat) : list u8 :=
  take off s ++ replicate n Byte.x00 ++ drop (off + n) s.

(** The checks of [allocate] before its loop. *)
Definition allocate (sz al : Z) : user :=
  if sz =? 0 then Refused ZeroSize
  else if (al =? 0) || negb (is_power_of_two al) then Refused Allocation
  else if MAX_ALIGN <? al then Refused Allocation
  else LoadBump sz al.

(** The range the loop would reserve from [current]. *)
Definition carve (p : UnifiedMemoryPool) (sz al current : Z) : result UnifiedError (Z * Z) :=
  v ← ok_or Allocation (checked_add usize_max current (al - 1));
  let aligned := Z.land v (Z.lnot (al - 1)) in
  new_end ← ok_or Allocation (checked_add usize_max aligned sz);
  if capacity p <? new_end then Err (TooLarge sz (capacity p)) else Ok (aligned, new_end).

Definition tick (spurious : bool) (p : UnifiedMemoryPool) (u : user) : UnifiedMemoryPool * user :=
  match u with
  | LoadBump sz al => (p, CasBump sz al (bump p))
  | CasBump sz al current =>
      match carve p sz al current with
      | Err e => (p, Refused e)
      | Ok (aligned, new_end) =>
          if (bump p =? current) && negb spurious
          then (set_bump p new_end, AddLive (mkRegion aligned sz al))
          else (p, LoadBump sz al)
      end
  | AddLive r => (set_live p (live p + 1), LoadIssued r)
  | LoadIssued r => (p, CasIssued r (issued_total p))
  | CasIssued r issued =>
      if (issued_total p =? issued) && negb spurious
      then (set_issued p (sat_add u64_max issued (size r)), LoadHighWater r)
      else (p, CasIssued r (issued_total p))
  | LoadHighWater r => (p, ZeroFill r (carved_high_water p))
  | ZeroFill r high_water =>
      let end_ := offset r + size r in
      let recycled_end := Z.min end_ high_water in
      ((if offset r <? recycled_end
        then set_slab p (write_zeros (slab p) (Z.to_nat (offset r)) (Z.to_nat (recycled_end - offset r)))
        else p),
       CasHighWater r high_water)
  | CasHighWater r hw =>
      let end_ := offset r + size r in
      if hw <? end_ then
        if (carved_high_water p =? hw) && negb spurious
        then (set_high_water p end_, Holding r true)
        else (p, CasHighWater r (carved_high_water p))
      else (p, Holding r true)
  | ReleaseLoad => (p, ReleaseCas (live p))
  | ReleaseCas current =>
      if (live p =? current) && negb spurious
      then (set_live p (sat_sub current 1), Idle)
      else (p, ReleaseCas (live p))
  | Idle | Holding _ _ | Forgotten _ | Refused _ => (p, u)
  end.

(** [reset], behind its exclusive borrow. *)
Definition reset (p : UnifiedMemoryPool) : result UnifiedError () * UnifiedMemoryPool :=
  if negb (live p =? 0) then (Err Allocation, p)
  else (Ok (), mkPool (slab p) 0 (live p) (issued_total p) (carved_high_water p) (carved_high_water p)).

Definition borrows (u : user) : bool :=
  match u with Idle | Forgotten _ | Refused _ => false | _ => true end.

Inductive event :=
| Tick (i : nat) (spurious : bool)
| Allocate (i : nat) (sz al : Z)
| WriteByte (i : nat) (at_ : Z) (b : u8)
| DropAllocation (i : nat)
| Forget (i : nat)
| Reset.

Definition exec (ev : event) (st : UnifiedMemoryPool * list user) : UnifiedMemoryPool * list user :=
  let '(p, us) := st in
  match ev with
  | Tick i spurious =>
      match us !! i with
      | Some u => let '(p, u) := tick spurious p u in (p, <[i := u]> us)
      | None => st
      end
  | Allocate i sz al =>
      match us !! i with
      | Some (Idle | Refused _) =>
          if (0 <=? sz) && (sz <=? usize_max) && (0 <=? al) then (p, <[i := allocate sz al]> us) else st
      | _ => st
      end
  | WriteByte i k b =>
      match us !! i with
      | Some (Holding r _) =>
          if (0 <=? k) && (k <? size r)
          then (set_slab p (<[Z.to_nat (offset r + k) := b]> (slab p)), <[i := Holding r false]> us)
          else st
      | _ => st
      end
  | DropAllocation i =>
      match us !! i with
      | Some (Holding _ _) => (p, <[i := ReleaseLoad]> us)
      | _ => st
      end
  | Forget i =>
      match us !! i with
      | Some (Holding r _) => (p, <[i := Forgotten r]> us)
      | _ => st
      end
  | Reset => if forallb (fun u => negb (borrows u)) us then ((reset p).2, us) else st
  end.

Definition run (evs : list event) (st : UnifiedMemoryPool * list user) : UnifiedMemoryPool * list user :=
  foldl (fun st ev => exec ev st) st evs.
End MemPool.

Module MemPoolFacts.
Import MemPool.

Definition owns (u : user) : option region :=
  match u with
  | AddLive r | LoadIssued r | CasIssued r _ | LoadHighWater r | ZeroFill r _ | CasHighWater r _
  | Holding r _ | Forgotten r => Some r
  | _ => None
  end.

Definition counted (u : user) : Z :=
  match u with
  | LoadIssued _ | CasIssued _ _ | LoadHighWater _ | ZeroFill _ _ | CasHighWater _ _
  | Holding _ _ | Forgotten _ | ReleaseLoad | ReleaseCas _ => 1
  | _ => 0
  end.

Definition inside (r : region) (x : Z) : Prop := offset r <= x < offset r + size r.
Definition disjoint_regions (r r' : region) : Prop :=
  offset r + size r <= offset r' \/ offset r' + size r' <= offset r.

(** The bytes that read as zero: all of a carve once it is filled and until
    its owner writes; before that, those no earlier epoch handed out. *)
Definition must_zero (epoch : Z) (u : user) (x : Z) : Prop :=
  match u with
  | AddLive r | LoadIssued r | CasIssued r _ | LoadHighWater r | ZeroFill r _ => inside r x /\ epoch <= x
  | CasHighWater r _ | Holding r true => inside r x
  | _ => False
  end.

(** What a user knows about the high-water mark [hw]. *)
Definition hw_ok (epoch hw : Z) (u : user) : Prop :=
  match u with
  | ZeroFill _ k => epoch <= k <= hw
  | CasHighWater _ k => k <= hw
  | Holding r _ => offset r + size r <= hw
  | _ => True
  end.

Definition zeroed (s : list u8) (P : Z -> Prop) : Prop :=
  forall x b, s !! x = Some b -> P (Z.of_nat x) -> b = Byte.x00.

Record inv (st : UnifiedMemoryPool * list user) : Prop := {
  i_bump : 0 <= bump st.1 <= capacity st.1;
  i_hw : 0 <= epoch_high_water st.1 <= carved_high_water st.1;
  i_live : live st.1 = sumZ counted st.2;
  i_region i u r : st.2 !! i = Some u -> owns u = Some r ->
    0 <= offset r /\ 0 < size r /\ offset r + size r <= bump st.1 /\ offset r mod align r = 0;
  i_disjoint i j u v r r' : st.2 !! i = Some u -> st.2 !! j = Some v -> i <> j ->
    owns u = Some r -> owns v = Some r' -> disjoint_regions r r';
  i_fresh : zeroed (slab st.1) (fun x => bump st.1 <= x /\ epoch_high_water st.1 <= x);
  i_above : zeroed (slab st.1) (fun x => carved_high_water st.1 <= x);
  i_zero i u : st.2 !! i = Some u -> zeroed (slab st.1) (must_zero (epoch_high_water st.1) u);
  i_users i u : st.2 !! i = Some u -> hw_ok (epoch_high_water st.1) (carved_high_water st.1) u;
  i_asked i sz al : st.2 !! i = Some (LoadBump sz al) \/ (exists c, st.2 !! i = Some (CasBump sz al c)) ->
    0 < sz /\ is_power_of_two al = true;
}.

Definition asking (u : user) : option (Z * Z) :=
  match u with LoadBump sz al | CasBump sz al _ => Some (sz, al) | _ => None end.

(** A step that leaves the slab and the bump pointer alone. *)
Lemma step_quiet p p' us i u u' :
  inv (p, us) -> us !! i = Some u ->
  slab p' = slab p -> bump p' = bump p -> epoch_high_water p' = epoch_high_water p ->
  carved_high_water p <= carved_high_water p' ->
  live p' = live p - counted u + counted u' ->
  (forall r, owns u' = Some r -> owns u = Some r) ->
  (forall x, must_zero (epoch_high_water p) u' x -> must_zero (epoch_high_water p) u x) ->
  hw_ok (epoch_high_water p) (carved_high_water p') u' ->
  (forall q, asking u' = Some q -> asking u = Some q \/ (0 < q.1 /\ is_power_of_two q.2 = true)) ->
  inv (p', <[i := u']> us).
Proof.
  intros [Hb Hh Hl Hr Hd Hf Ha Hz Hu Hq] Hi Hs Hbump He Hhw Hlive Hown Hmz Hok Hask. cbn [fst snd] in *.
  split; cbn [fst snd]; unfold capacity in *; rewrite ?Hs, ?Hbump, ?He; try done.
  - lia.
  - rewrite (sumZ_insert _ _ _ _ _ Hi). lia.
  - intros j v r [[-> ->]|[_ Hj]]%lookup_insert_cases Hv; eauto.
  - intros j k v w r r' [[-> ->]|[? Hj]]%lookup_insert_cases [[-> ->]|[? Hk]]%lookup_insert_cases Hne Hv Hw;
      eauto; done.
  - intros x b Hx ?. apply (Ha x b Hx). lia.
  - intros j v [[-> ->]|[_ Hj]]%lookup_insert_cases; [|by apply (Hz j)].
    intros x b Hx Hm. by eapply (Hz i u Hi x b Hx), Hmz.
  - intros j v [[-> ->]|[_ Hj]]%lookup_insert_cases; [done|]. specialize (Hu _ _ Hj).
    destruct v; simpl in *; try done; lia.
  - intros j sz al Hj. destruct (decide (j = i)) as [->|Hne].
    + assert (asking u' = Some (sz, al)) as [Hold|?]%Hask; [|..|done].
      { destruct Hj as [Hj|[c Hj]]; apply lookup_insert_cases in Hj as [[_ <-]|[??]]; done. }
      apply (Hq i). destruct u; simplify_eq/=; eauto.
    + apply (Hq j). destruct Hj as [Hj|[c Hj]]; apply lookup_insert_cases in Hj as [[??]|[_ ?]]; eauto; done.
Qed.

Lemma align_up v al :
  is_power_of_two al = true -> let a := Z.land (v + (al - 1)) (Z.lnot (al - 1)) in
  v <= a /\ a mod al = 0.
Proof.
  unfold is_power_of_two. intros [Hpos Hpow]%andb_true_iff. bool_props.
  pose proof (Z.log2_nonneg al) as Hk. set (k := Z.log2 al) in *.
  assert (al - 1 = Z.ones k) as Hones by (rewrite Z.ones_equiv; lia).
  cbn zeta. rewrite Hones, <-Z.ldiff_land, Z.ldiff_ones_r by done.
  rewrite Z.shiftl_mul_pow2, Z.shiftr_div_pow2, <-Hones, <-Hpow by done.
  pose proof (Z.div_mod (v + (al - 1)) al ltac:(lia)). pose proof (Z.mod_pos_bound (v + (al - 1)) al ltac:(lia)).
  split; [lia|]. apply Z.mod_mul. lia.
Qed.

Lemma carve_Ok p sz al current a e :
  is_power_of_two al = true -> carve p sz al current = Ok (a, e) ->
  current <= a /\ a mod al = 0 /\ e = a + sz /\ e <= capacity p.
Proof.
  intros Hal Hc. unfold carve in Hc. inv_bind Hc. inv_bind Hc.
  unfold ok_or in E, E0. destruct (checked_add _ current _) eqn:H1; [|done]. simplify_eq.
  destruct (checked_add _ (Z.land _ _) _) eqn:H2; [|done]. simplify_eq.
  apply checked_add_Some in H1 as [-> _]. apply checked_add_Some in H2 as [-> _].
  destruct (_ <? _) eqn:Hcap; [done|]. bool_props. injection Hc as <- <-.
  destruct (align_up current al Hal). done.
Qed.

Lemma step_carve p us i sz al a e :
  inv (p, us) -> us !! i = Some (CasBump sz al (bump p)) -> carve p sz al (bump p) = Ok (a, e) ->
  inv (set_bump p e, <[i := AddLive (mkRegion a sz al)]> us).
Proof.
  intros [Hb Hh Hl Hr Hd Hf Ha Hz Hu Hq] Hi Hc. cbn [fst snd] in *.
  destruct (Hq i sz al) as [Hsz Hal]; [by eauto|]. apply carve_Ok in Hc as (Hlo & Hmod & -> & Hhi); [|done].
  split; cbn [fst snd set_bump slab bump live epoch_high_water carved_high_water]; try done.
  - unfold capacity in *. cbn. lia.
  - rewrite (sumZ_insert _ _ _ _ _ Hi). cbn. lia.
  - intros j v r [[-> ->]|[_ Hj]]%lookup_insert_cases Hv; simplify_eq/=; [lia|].
    destruct (Hr _ _ _ Hj Hv) as (? & ? & ? & ?). lia.
  - intros j k v w r r' [[-> ->]|[? Hj]]%lookup_insert_cases [[-> ->]|[? Hk]]%lookup_insert_cases Hne Hv Hw;
      simplify_eq/=; try done; [| |eauto]; unfold disjoint_regions; simpl.
    + destruct (Hr _ _ _ Hk Hw) as (? & ? & ? & ?). lia.
    + destruct (Hr _ _ _ Hj Hv) as (? & ? & ? & ?). lia.
  - intros x b Hx [??]. apply (Hf x b Hx). lia.
  - intros j v [[-> ->]|[_ Hj]]%lookup_insert_cases; [|by apply (Hz j)].
    intros x b Hx [Hin ?]. apply (Hf x b Hx). unfold inside in Hin. simpl in Hin. lia.
  - intros j v [[-> ->]|[_ Hj]]%lookup_insert_cases; [done|by eapply Hu].
  - intros j sz' al' Hj. apply (Hq j). destruct Hj as [Hj|[c Hj]];
      apply lookup_insert_cases in Hj as [[? ?]|[_ ?]]; eauto; done.
Qed.

(** A change of the slab inside [r], owned by user [i], whose new state says
    what it must. *)
Lemma step_slab p us i u u' r s' :
  inv (p, us) -> us !! i = Some u -> owns u = Some r -> owns u' = Some r ->
  counted u' = counted u -> asking u' = None ->
  length s' = length (slab p) ->
  (forall x, ~ inside r (Z.of_nat x) -> s' !! x = slab p !! x) ->
  zeroed s' (must_zero (epoch_high_water p) u') ->
  zeroed s' (fun x => inside r x /\ carved_high_water p <= x) ->
  hw_ok (epoch_high_water p) (carved_high_water p) u' ->
  inv (set_slab p s', <[i := u']> us).
Proof.
  intros [Hb Hh Hl Hr Hd Hf Ha Hz Hu Hq] Hi Hown Hown' Hcnt Hask Hlen Hout Hmz Hhi Hok. cbn [fst snd] in *.
  pose proof (Hr _ _ _ Hi Hown) as (Hr0 & Hrs & Hrb & _).
  assert (forall P, zeroed (slab p) P -> zeroed s' (fun x => P x /\ ~ inside r x)) as Hkeep.
  { intros P HP x b Hx [HPx Hin]. apply (HP x b); [|done]. by rewrite <-Hout. }
  split; cbn [fst snd set_slab slab bump live epoch_high_water carved_high_water]; try done.
  - unfold capacity in *. cbn. rewrite Hlen. lia.
  - rewrite (sumZ_insert _ _ _ _ _ Hi). lia.
  - intros j v r' [[-> ->]|[_ Hj]]%lookup_insert_cases Hv; [|eauto]. simplify_eq. eauto.
  - intros j k v w r1 r2 [[-> ->]|[? Hj]]%lookup_insert_cases [[-> ->]|[? Hk]]%lookup_insert_cases Hne Hv Hw;
      simplify_eq; try done; eauto.
  - intros x b Hx [Hx1 Hx2]. apply (Hkeep _ Hf x b Hx). unfold inside. split; [done|lia].
  - intros x b Hx Hxh. destruct (decide (offset r <= Z.of_nat x < offset r + size r)) as [Hin|Hin].
    + by apply (Hhi x b Hx).
    + by apply (Hkeep _ Ha x b Hx).
  - intros j v [[-> ->]|[Hne Hj]]%lookup_insert_cases; [done|]. intros x b Hx Hm.
    apply (Hkeep _ (Hz j v Hj) x b Hx). split; [done|]. intros Hin.
    assert (exists r', owns v = Some r' /\ inside r' (Z.of_nat x)) as (r' & Hv & Hin').
    { destruct v as [| | | | | | | | |r' []| | | |]; simpl in Hm; try done; eexists; (split; [done|]); tauto. }
    pose proof (Hd _ _ _ _ _ _ Hj Hi Hne Hv Hown) as Hdis. unfold inside, disjoint_regions in *. lia.
  - intros j v [[-> ->]|[_ Hj]]%lookup_insert_cases; [done|by eapply Hu].
  - intros j sz' al' Hj. apply (Hq j). destruct Hj as [Hj|[c Hj]];
      apply lookup_insert_cases in Hj as [[? <-]|[_ ?]]; eauto; done.
Qed.

Lemma write_zeros_length s off n : (off + n <= length s)%nat -> length (write_zeros s off n) = length s.
Proof. intros. unfold write_zeros. rewrite !length_app, length_take, length_replicate, length_drop. lia. Qed.

Lemma write_zeros_in s off n x b :
  (off + n <= length s)%nat -> (off <= x < off + n)%nat -> write_zeros s off n !! x = Some b -> b = Byte.x00.
Proof.
  intros Hl Hx. unfold write_zeros. rewrite lookup_app_r by (rewrite length_take; lia).
  rewrite lookup_app_l by (rewrite length_take, length_replicate; lia). rewrite lookup_replicate. by intros [-> _].
Qed.

Lemma write_zeros_out s off n x :
  (off + n <= length s)%nat -> ~ (off <= x < off + n)%nat -> write_zeros s off n !! x = s !! x.
Proof.
  intros Hl Hx. unfold write_zeros. destruct (decide (x < off)%nat).
  - rewrite lookup_app_l by (rewrite length_take; lia). apply lookup_take_lt. lia.
  - rewrite lookup_app_r by (rewrite length_take; lia).
    rewrite lookup_app_r by (rewrite length_take, length_replicate; lia).
    rewrite lookup_drop, length_take, length_replicate. f_equal. lia.
Qed.

Lemma zero_fill_inv spurious p us i r h :
  inv (p, us) -> us !! i = Some (ZeroFill r h) ->
  inv ((tick spurious p (ZeroFill r h)).1, <[i := (tick spurious p (ZeroFill r h)).2]> us).
Proof.
  intros Hinv Hi. pose proof (i_region _ Hinv _ _ _ Hi eq_refl) as (H0 & Hs & Hend & _).
  pose proof (i_bump _ Hinv) as [_ Hcap]. pose proof (i_users _ Hinv _ _ Hi) as Hh.
  pose proof (i_zero _ Hinv _ _ Hi) as Hz. pose proof (i_above _ Hinv) as Ha.
  cbn [fst snd] in *. cbn [hw_ok must_zero] in *. cbn [tick]. unfold capacity in Hcap.
  set (m := Z.min (offset r + size r) h). destruct (offset r <? m) eqn:Hlt; bool_props; cbn [fst snd].
  - assert (Z.to_nat (offset r) + Z.to_nat (m - offset r) <= length (slab p))%nat as Hfit by lia.
    assert (forall x b, write_zeros (slab p) (Z.to_nat (offset r)) (Z.to_nat (m - offset r)) !! x = Some b ->
      inside r (Z.of_nat x) -> b = Byte.x00) as Hall.
    { intros x b Hx Hin. unfold inside in Hin. destruct (decide (Z.of_nat x < m)) as [Hm|Hm].
      - eapply write_zeros_in; [exact Hfit| |exact Hx]. lia.
      - rewrite write_zeros_out in Hx by lia. apply (Hz x b Hx). cbn. unfold inside, m in *. lia. }
    eapply step_slab; [exact Hinv|exact Hi|reflexivity|reflexivity|reflexivity|reflexivity|..]; cbn.
    + by apply write_zeros_length.
    + intros x Hx. apply write_zeros_out; [done|]. unfold inside in Hx. lia.
    + intros x b Hx Hin. by eapply Hall.
    + intros x b Hx [Hin _]. by eapply Hall.
    + lia.
  - assert (inv (set_slab p (slab p), <[i := CasHighWater r h]> us)) as Hres; [|by destruct p].
    eapply step_slab; [exact Hinv|exact Hi|reflexivity|reflexivity|reflexivity|reflexivity|done|done|..].
    + intros x b Hx Hin. apply (Hz x b Hx). cbn in *. unfold inside, m in *. lia.
    + intros x b Hx [_ Hin]. by apply (Ha x b Hx).
    + cbn. lia.
Qed.

Ltac quiet Hinv Hi :=
  eapply step_quiet; [exact Hinv|exact Hi|done|done|done|cbn; try lia|cbn; try lia|cbn; try done|cbn; try done
                     |cbn; try done|cbn; intros; simplify_eq; by auto].

Lemma pool_tick_inv spurious p us i u :
  inv (p, us) -> us !! i = Some u -> inv ((tick spurious p u).1, <[i := (tick spurious p u).2]> us).
Proof.
  intros Hinv Hi. pose proof (i_users _ Hinv _ _ Hi) as Hok. pose proof (i_hw _ Hinv) as [_ Hh].
  cbn [fst snd] in *.
  destruct u as [|sz al|sz al c|r|r|r n|r|r h|r h|r t|r| |c|e]; try by (cbn; rewrite list_insert_id).
  - cbn. quiet Hinv Hi.
  - cbn [tick]. destruct (carve p sz al c) as [[a e]|] eqn:Hc; [|cbn; quiet Hinv Hi].
    destruct ((bump p =? c) && _) eqn:Hcas; [|cbn; quiet Hinv Hi].
    apply andb_true_iff in Hcas as [<-%Z.eqb_eq _]. by eapply step_carve.
  - cbn. quiet Hinv Hi.
  - cbn. quiet Hinv Hi.
  - cbn [tick]. destruct (_ && _); cbn; quiet Hinv Hi.
  - cbn. quiet Hinv Hi.
  - by apply zero_fill_inv.
  - cbn [tick]. cbn in Hok. destruct (h <? _) eqn:Hlt; bool_props; [|cbn; quiet Hinv Hi; lia].
    destruct (_ && _) eqn:Hcas; [|cbn; quiet Hinv Hi]. apply andb_true_iff in Hcas as [<-%Z.eqb_eq _].
    cbn. quiet Hinv Hi.
  - cbn. quiet Hinv Hi.
  - cbn [tick]. destruct (_ && _) eqn:Hcas; [|cbn; quiet Hinv Hi]. apply andb_true_iff in Hcas as [<-%Z.eqb_eq _].
    assert (1 <= live p).
    { pose proof (i_live _ Hinv) as Hl. cbn in Hl. rewrite Hl.
      change 1 with (counted (ReleaseCas (live p))). eapply sumZ_lookup_le; [|exact Hi]. intros [] _; cbn; lia. }
    cbn. unfold sat_sub. quiet Hinv Hi.
Qed.

Lemma reset_inv p us :
  inv (p, us) -> forallb (fun u => negb (borrows u)) us = true -> inv ((reset p).2, us).
Proof.
  intros Hinv Hall. unfold reset. destruct (live p =? 0) eqn:Hz0; [|done]. cbn [negb snd]. bool_props.
  destruct Hinv as [Hb Hh Hl Hr Hd Hf Ha Hz Hu Hq]. cbn [fst snd] in *.
  assert (forall i u, us !! i = Some u -> owns u = None /\ asking u = None /\ counted u = 0) as Hnone.
  { intros i u Hi. rewrite forallb_forall in Hall.
    assert (negb (borrows u) = true) as Hnb by (apply Hall, list_elem_of_In, (list_elem_of_lookup_2 _ _ _ Hi)).
    destruct u; try done. assert (1 <= sumZ counted us); [|lia].
    change 1 with (counted (Forgotten r)). eapply sumZ_lookup_le; [|exact Hi]. intros [] _; cbn; lia. }
  split; cbn [fst snd slab bump live epoch_high_water carved_high_water]; unfold capacity in *; cbn; try done.
  - lia.
  - lia.
  - intros i u r Hi Ho. by destruct (Hnone _ _ Hi) as [? _]; simplify_eq.
  - intros x b Hx [_ ?]. by apply (Ha x b Hx).
  - intros i u Hi x b Hx Hm. destruct (Hnone _ _ Hi) as [Ho _]. by destruct u as [| | | | | | | | |? []| | | |].
  - intros i u Hi. destruct (Hnone _ _ Hi) as [Ho _]. by destruct u.
Qed.

Lemma write_inv p us i r t k b :
  inv (p, us) -> us !! i = Some (Holding r t) -> 0 <= k < size r ->
  inv (set_slab p (<[Z.to_nat (offset r + k) := b]> (slab p)), <[i := Holding r false]> us).
Proof.
  intros Hinv Hi Hk. pose proof (i_region _ Hinv _ _ _ Hi eq_refl) as (H0 & _).
  pose proof (i_users _ Hinv _ _ Hi) as Hu. cbn in Hu.
  eapply step_slab; [exact Hinv|exact Hi|reflexivity|reflexivity|reflexivity|reflexivity|..].
  - by rewrite length_insert.
  - intros x Hx. apply list_lookup_insert_ne. intros <-. unfold inside in Hx. lia.
  - by intros x c _ [].
  - intros x c _ [Hin Hx]. unfold inside in Hin. lia.
  - done.
Qed.

Lemma pool_exec_inv ev st : inv st -> inv (exec ev st).
Proof.
  destruct st as [p us]. intros Hinv. destruct ev as [i spurious|i sz al|i k b|i|i|]; cbn [exec].
  - destruct (us !! i) as [u|] eqn:Hi; [|done]. pose proof (pool_tick_inv spurious _ _ _ _ Hinv Hi).
    by destruct (tick spurious p u).
  - destruct (us !! i) as [[]|] eqn:Hi; try done; (destruct (_ && _) eqn:Hs; [|done]);
      apply andb_true_iff in Hs as [[??]%andb_true_iff ?]; bool_props; unfold allocate;
      (destruct (sz =? 0) eqn:?; [quiet Hinv Hi|]); (destruct (_ || _) eqn:Hal; [quiet Hinv Hi|]);
      (destruct (_ <? al); [quiet Hinv Hi|]);
      apply orb_false_iff in Hal as [_ Hal%negb_false_iff]; bool_props;
      (eapply step_quiet; [exact Hinv|exact Hi|done|done|done|lia|cbn; lia|done|done|done|]);
      intros q [= <-]; right; cbn; split; done || lia.
  - destruct (us !! i) as [[]|] eqn:Hi; try done. destruct (_ && _) eqn:Hk; [|done].
    apply andb_true_iff in Hk as [??]. bool_props. by eapply write_inv.
  - destruct (us !! i) as [[]|] eqn:Hi; try done. quiet Hinv Hi.
  - destruct (us !! i) as [[]|] eqn:Hi; try done. quiet Hinv Hi.
  - destruct (forallb _ us) eqn:Hall; [|done]. by apply reset_inv.
Qed.

Lemma new_pool_inv capacity n : inv (new capacity, replicate n Idle).
Proof.
  assert (forall P, zeroed (replicate capacity Byte.x00) P) as Hz
    by (intros P x b [-> _]%lookup_replicate _; done).
  split; cbn [fst snd]; try done; try (intros *; rewrite ?lookup_replicate; naive_solver).
  - cbn. unfold MemPool.capacity. lia.
  - cbn. symmetry. apply sumZ_all_zero. by intros u [-> _]%elem_of_replicate.
  - intros i sz al [[? _]%lookup_replicate|[c [? _]%lookup_replicate]]; done.
Qed.

Lemma pool_run_inv evs st : inv st -> inv (run evs st).
Proof. unfold run. revert st. induction evs as [|ev evs IH]; intros st Hst; [done|]. by apply IH, pool_exec_inv. Qed.

(** C16: the pool is memory-safe and leaks nothing between tenants.  In every
    schedule of concurrent allocations, writes, releases and resets (a reset
    needs the pool to itself), every allocation that is held lies inside the
    slab, is aligned as asked, overlaps no other allocation, and reads as
    zeros until its owner writes to it, whatever earlier owners of the same
    bytes left there; and [live] counts every holder, so that no reset can
    rewind the pool under one. *)
Theorem pool_allocations_isolated capacity n evs :
  let '(p, us) := run evs (new capacity, replicate n Idle) in
  (forall i r t, us !! i = Some (Holding r t) ->
     0 <= offset r /\ 0 < size r /\ offset r + size r <= MemPool.capacity p /\ offset r mod align r = 0 /\
     (t = true -> forall x b, slab p !! x = Some b -> inside r (Z.of_nat x) -> b = Byte.x00)) /\
  (forall i j r t r' t', us !! i = Some (Holding r t) -> us !! j = Some (Holding r' t') -> i <> j ->
     disjoint_regions r r') /\
  (forall i r t, us !! i = Some (Holding r t) -> (reset p).1 <> Ok ()).
Proof.
  pose proof (pool_run_inv evs _ (new_pool_inv capacity n)) as Hinv. destruct (run evs _) as [p us].
  split_and!.
  - intros i r t Hi. destruct (i_region _ Hinv _ _ _ Hi eq_refl) as (? & ? & ? & ?).
    destruct (i_bump _ Hinv). cbn [fst snd] in *. split_and!; try done; try lia.
    intros -> x b Hx Hin. by apply (i_zero _ Hinv _ _ Hi x b Hx).
  - intros i j r t r' t' Hi Hj Hne. by eapply (i_disjoint _ Hinv _ _ _ _ _ _ Hi Hj Hne).
  - intros i r t Hi. unfold reset. assert (1 <= live p) as Hl.
    { pose proof (i_live _ Hinv) as Hl. cbn in Hl. rewrite Hl. change 1 with (counted (Holding r t)).
      eapply sumZ_lookup_le; [|exact Hi]. intros [] _; cbn; lia. }
    destruct (live p =? 0) eqn:?; bool_props; [lia|done].
Qed.
End MemPoolFacts.
