(* ===== verification/Executor.v ===== *)
(** * Instance slots and the warm pool

    [executor.rs] and [instance_pool.rs] of tensor-wasm-exec: the engine-wide
    and per-tenant instance caps, the instance registry, [invoke] with and
    without a pool, the pool's single-flight build, its reset on release, and
    [terminate].  Concurrent tasks advance one shared access at a time, in
    every order a schedule gives, and may be dropped at any await point.
    What wasmtime decides (does the module compile and instantiate, in time)
    is an input of the schedule. *)

From S2P Require Import Prelude Core.

Module Executor.

Record SpawnConfig := mkSpawn {
  tenant_id : Z;
  deadline : option Z;
  streaming : option Z;
  input : list u8;
}.

(** An [invoke]: its configuration and the digest of its module bytes. *)
Record request := mkRequest { cfg : SpawnConfig; module_hash : str }.

(** What [instantiate_detached] bakes into the instance's state, the module
    it was asked for, and whether that module went through
    [maybe_rewrite_for_offload]. *)
Record Instance := mkInstance { built_with : SpawnConfig; built_from : str; rewritten : bool }.

Inductive ExecError :=
| CapacityExhausted (active limit : Z)
| TenantCapacityExhausted (tenant active limit : Z)
| IdCollision
| Wasmtime.

Record InstancePoolConfig := mkPoolConfig { warm_instances_per_tuple : nat; max_total_warm : Z }.

Record EngineConfig := mkEngine {
  max_instances : option Z;
  max_instances_per_tenant : option Z;
  pool_config : option InstancePoolConfig;
}.

(** [PoolKey] and [PoolEntry]; an entry names its channel in the heap below. *)
Definition PoolKey : Type := Z * str.
Record PoolEntry := mkPoolEntry { chan : nat; module : str }.

Definition key_of (r : request) : PoolKey := (tenant_id (cfg r), module_hash r).

(** A bounded channel and a [OnceCell], each with the key it was made for
    (which the program does not store). *)
Record Channel := mkChannel { chan_key : PoolKey; queue : list Instance }.
Inductive once := Empty | Initializing | Set_ (e : PoolEntry).
Record OnceCell := mkCell { cell_key : PoolKey; cell : once }.

Record Slots := mkSlots { instance_count : Z; tenant_counts : gmap Z Z }.

(** [refs] counts the clones of an instance's handle that callers hold;
    [orphans] are the instances whose pooled [invoke] was dropped mid-call. *)
Record Registry := mkRegistry {
  next_instance_id : Z;
  instances : gmap Z Instance;
  refs : gmap Z Z;
  orphans : gset Z;
}.

Record InstancePool := mkPool {
  pools : gmap PoolKey PoolEntry;
  inflight : gmap PoolKey nat;
  cells : list OnceCell;
  channels : list Channel;
  warm_total : Z;
}.

Record Stats := mkStats { draws_total : Z; hit_count : Z; miss_count : Z; drops_total : Z }.

Record Shared := mkShared { slots : Slots; registry : Registry; pool : InstancePool; stats : Stats }.

Definition on_slots (f : Slots -> Slots) (sh : Shared) : Shared :=
  mkShared (f (slots sh)) (registry sh) (pool sh) (stats sh).
Definition on_registry (f : Registry -> Registry) (sh : Shared) : Shared :=
  mkShared (slots sh) (f (registry sh)) (pool sh) (stats sh).
Definition on_pool (f : InstancePool -> InstancePool) (sh : Shared) : Shared :=
  mkShared (slots sh) (registry sh) (f (pool sh)) (stats sh).
Definition on_stats (f : Stats -> Stats) (sh : Shared) : Shared :=
  mkShared (slots sh) (registry sh) (pool sh) (f (stats sh)).

Definition count_draw (s : Stats) : Stats :=
  mkStats (draws_total s + 1) (hit_count s) (miss_count s) (drops_total s).
Definition count_hit (s : Stats) : Stats :=
  mkStats (draws_total s) (hit_count s + 1) (miss_count s) (drops_total s).
Definition count_miss (s : Stats) : Stats :=
  mkStats (draws_total s) (hit_count s) (miss_count s + 1) (drops_total s).
Definition count_drop (s : Stats) : Stats :=
  mkStats (draws_total s) (hit_count s) (miss_count s) (drops_total s + 1).

(** ** Slots *)

Definition add_count (d : Z) (s : Slots) : Slots := mkSlots (instance_count s + d) (tenant_counts s).

Definition tenant_count (m : gmap Z Z) (t : Z) : Z := default 0 (m !! t).

Definition decrement_tenant_count (t : Z) (s : Slots) : Slots :=
  match tenant_counts s !! t with
  | None => s
  | Some v =>
      let v := sat_sub v 1 in
      mkSlots (instance_count s)
        (if v =? 0 then delete t (tenant_counts s) else <[t := v]> (tenant_counts s))
  end.

(** ** Tasks *)

(** Why a task builds an instance: [spawn_instance] (with the origin the
    handle will carry), the pre-spawn loop of [build_entry], its compile-only
    branch, or the reset on release. *)
Inductive goal :=
| GSpawn (r : request) (origin : option str)
| GWarm (r : request) (c ch i : nat)
| GModule (r : request) (c ch : nat)
| GReset (r : request) (e : PoolEntry).

Definition goal_request (g : goal) : request :=
  match g with GSpawn r _ | GWarm r _ _ _ | GModule r _ _ | GReset r _ => r end.
Definition goal_tenant (g : goal) : Z := tenant_id (cfg (goal_request g)).

(** Who is behind a call: a pooled [invoke], one with the auto-terminate
    guard and the tenant it captured, or a client that holds only the id. *)
Inductive owner :=
| OPool (r : request) (origin : option str)
| OGuard (r : request) (tenant_rollback : option Z)
| OClient.

(** What follows the release of a slot. *)
Inductive cont :=
| KEnd (e : option ExecError)
| KSurplus (g : goal)
| KFailed (g : goal) (e : ExecError)
| KCancelled (g : goal)
| KSpent (r : request) (origin : option str)
| KShut (k : PoolKey) (e : PoolEntry) (ks : list PoolKey).

Inductive pc :=
| Done (e : option ExecError)
(* InstancePool::acquire and ensure_entry *)
| Acquire (r : request)
| EnsureGet (r : request)
| EnsureCell (r : request)
| CellWait (r : request) (c : nat)
| CellDone (r : request) (e : PoolEntry)
| TryRecv (r : request) (e : PoolEntry)
| WarmSub (r : request) (inst : Instance)
(* build_entry *)
| BuildLoop (r : request) (c ch i : nat)
| InsertEntry (r : request) (c ch : nat)
| CellSet (r : request) (c : nat) (e : PoolEntry)
| CellAbort (c : nat) (e : option ExecError)
(* building one instance *)
| Precheck (g : goal)
| Charge (g : goal)
| ChargeTenant (g : goal)
| Unadd (g : goal) (over : bool) (e : ExecError)
| Building (g : goal)
| Built (g : goal)
| WarmAdd (g : goal)
| ReleaseCount (rollback : option Z) (k : cont)
| ReleaseTenant (t : Z) (k : cont)
(* register_pooled_instance *)
| Allocate (r : request) (origin : option str) (inst : Instance) (guarded : bool)
| Publish (r : request) (origin : option str) (inst : Instance) (guarded : bool) (id : Z)
(* the call, then release or terminate *)
| ArmGuard (r : request) (id : Z)
| CallGet (o : owner) (id : Z)
| Calling (o : owner) (id : Z)
| Detach (r : request) (origin : option str) (id : Z)
| TryUnwrap (r : request) (origin : option str) (id : Z) (inst : Instance)
| PoolGet (r : request) (h : str)
| WarmCheck (r : request) (e : PoolEntry)
| GuardRemove (r : request) (id : Z) (tenant_rollback : option Z)
| Terminate (id : Z)
| ShutNext (ks : list PoolKey)
| ShutRecv (k : PoolKey) (e : PoolEntry) (ks : list PoolKey)
| ShutWarm (k : PoolKey) (e : PoolEntry) (ks : list PoolKey).

Definition at_rest (p : pc) : bool := match p with Done _ => true | _ => false end.

(** ** One shared access of a task *)

Section executor.
Context (conf : EngineConfig).

Definition pool_cfg : InstancePoolConfig := default (mkPoolConfig 0 0) (pool_config conf).
Definition channel_capacity : nat := Nat.max (warm_instances_per_tuple pool_cfg) 1.

(** The rollback a guard carries: the tenant counter only when it is charged. *)
Definition tenant_rollback (t : Z) : option Z :=
  match max_instances_per_tenant conf with Some _ => Some t | None => None end.

Definition warm_full (sh : Shared) : bool :=
  (0 <? max_total_warm pool_cfg) && (max_total_warm pool_cfg <=? warm_total (pool sh)).

Definition set_channel (ch : nat) (q : list Instance) (p : InstancePool) : InstancePool :=
  match channels p !! ch with
  | Some c => mkPool (pools p) (inflight p) (cells p) (<[ch := mkChannel (chan_key c) q]> (channels p)) (warm_total p)
  | None => p
  end.

Definition set_cell (c : nat) (o : once) (p : InstancePool) : InstancePool :=
  match cells p !! c with
  | Some x => mkPool (pools p) (inflight p) (<[c := mkCell (cell_key x) o]> (cells p)) (channels p) (warm_total p)
  | None => p
  end.

Definition add_warm (d : Z) (p : InstancePool) : InstancePool :=
  mkPool (pools p) (inflight p) (cells p) (channels p) (as_u64 (warm_total p + d)).

Definition queue_of (sh : Shared) (ch : nat) : list Instance :=
  match channels (pool sh) !! ch with Some c => queue c | None => [] end.

Definition try_send (sh : Shared) (ch : nat) (inst : Instance) : option Shared :=
  if bool_decide (length (queue_of sh ch) < channel_capacity)%nat
  then Some (on_pool (set_channel ch (queue_of sh ch ++ [inst])) sh) else None.

Definition try_recv (sh : Shared) (ch : nat) : option (Instance * Shared) :=
  match queue_of sh ch with
  | [] => None
  | inst :: q => Some (inst, on_pool (set_channel ch q) sh)
  end.

Definition instantiate_detached (g : goal) : Instance :=
  match g with
  | GSpawn r _ => mkInstance (cfg r) (module_hash r) true
  | GWarm r _ _ _ | GModule r _ _ => mkInstance (cfg r) (module_hash r) false
  | GReset r e => mkInstance (cfg r) (module e) false
  end.

(** Where the task goes when its instance is in place, when it is dropped for
    want of room, when it could not be built, and when the future is dropped. *)
Definition built_next (g : goal) : pc :=
  match g with
  | GWarm r c ch i => BuildLoop r c ch (S i)
  | GModule r c ch => InsertEntry r c ch
  | GSpawn _ _ | GReset _ _ => Done None
  end.

Definition failed (g : goal) (e : ExecError) (sh : Shared) : Shared * pc :=
  match g with
  | GSpawn _ _ => (sh, Done (Some e))
  | GWarm _ c _ _ | GModule _ c _ => (sh, CellAbort c (Some e))
  | GReset _ _ => (on_stats count_drop sh, Done None)
  end.

Definition resume (k : cont) (sh : Shared) : Shared * pc :=
  match k with
  | KEnd e => (sh, Done e)
  | KSurplus (GReset r e) => (on_stats count_drop sh, Done None)
  | KSurplus g => (sh, built_next g)
  | KFailed g e => failed g e sh
  | KCancelled (GWarm _ c _ _) | KCancelled (GModule _ c _) => (sh, CellAbort c None)
  | KCancelled _ => (sh, Done None)
  | KSpent r origin =>
      match streaming (cfg r), origin with
      | None, Some h => (sh, PoolGet r h)
      | _, _ => (on_stats count_drop sh, Done None)
      end
  | KShut k e ks => (sh, ShutWarm k e ks)
  end.

(** [charge_instance_slot]. *)
Definition tick_charge (sh : Shared) (p : pc) : Shared * pc :=
  match p with
  | Charge g =>
      let new_count := instance_count (slots sh) + 1 in
      (on_slots (add_count 1) sh,
       match max_instances conf with
       | Some m => if m <? new_count then Unadd g true (CapacityExhausted new_count m) else ChargeTenant g
       | None => ChargeTenant g
       end)
  | Unadd g _ e => failed g e (on_slots (add_count (-1)) sh)
  | ChargeTenant g =>
      match max_instances_per_tenant conf with
      | None => (sh, Building g)
      | Some m =>
          let t := goal_tenant g in
          let counts := tenant_counts (slots sh) in
          let new_count := tenant_count counts t + 1 in
          if m <? new_count
          then (on_slots (fun s => mkSlots (instance_count s) (<[t := tenant_count counts t]> counts)) sh,
                Unadd g false (TenantCapacityExhausted t new_count m))
          else (on_slots (fun s => mkSlots (instance_count s) (<[t := new_count]> counts)) sh, Building g)
      end
  | _ => (sh, p)
  end.

(** [release_instance_slot] and the [Drop] of the slot guards. *)
Definition tick_uncharge (sh : Shared) (p : pc) : Shared * pc :=
  match p with
  | ReleaseCount rollback k =>
      let sh := on_slots (add_count (-1)) sh in
      match rollback with Some t => (sh, ReleaseTenant t k) | None => resume k sh end
  | ReleaseTenant t k => resume k (on_slots (decrement_tenant_count t) sh)
  | _ => (sh, p)
  end.

(** [build_pooled_instance_with_hash] and [rebuild_pooled_from_module], with
    what their callers do with the instance. *)
Definition tick_build (ok : bool) (sh : Shared) (p : pc) : Shared * pc :=
  match p with
  | Precheck g => if ok then (sh, Charge g) else failed g Wasmtime sh
  | Building g =>
      (sh, if ok then Built g else ReleaseCount (tenant_rollback (goal_tenant g)) (KFailed g Wasmtime))
  | Built g =>
      let surplus := ReleaseCount (Some (goal_tenant g)) (KSurplus g) in
      match g with
      | GSpawn r origin => (sh, Allocate r origin (instantiate_detached g) true)
      | GWarm _ _ ch _ =>
          match try_send sh ch (instantiate_detached g) with
          | Some sh => (sh, WarmAdd g)
          | None => (sh, surplus)
          end
      | GModule _ _ _ => (sh, surplus)
      | GReset _ e =>
          if ok
          then match try_send sh (chan e) (instantiate_detached g) with
               | Some sh => (sh, WarmAdd g)
               | None => (sh, surplus)
               end
          else (sh, surplus)
      end
  | WarmAdd g => (on_pool (add_warm 1) sh, built_next g)
  | _ => match p with ReleaseCount _ _ | ReleaseTenant _ _ => tick_uncharge sh p | _ => tick_charge sh p end
  end.

(** [ensure_entry] and the single-flight cell. *)
Definition tick_ensure (sh : Shared) (p : pc) : Shared * pc :=
  match p with
  | EnsureGet r =>
      (sh, match pools (pool sh) !! key_of r with Some e => TryRecv r e | None => EnsureCell r end)
  | EnsureCell r =>
      match inflight (pool sh) !! key_of r with
      | Some c => (sh, CellWait r c)
      | None =>
          let c := length (cells (pool sh)) in
          (on_pool (fun p => mkPool (pools p) (<[key_of r := c]> (inflight p))
                               (cells p ++ [mkCell (key_of r) Empty]) (channels p) (warm_total p)) sh,
           CellWait r c)
      end
  | CellWait r c =>
      match cell <$> cells (pool sh) !! c with
      | Some (Set_ e) => (sh, CellDone r e)
      | Some Empty =>
          let ch := length (channels (pool sh)) in
          (on_pool (fun p => set_cell c Initializing
             (mkPool (pools p) (inflight p) (cells p) (channels p ++ [mkChannel (key_of r) []]) (warm_total p))) sh,
           BuildLoop r c ch 0)
      | Some Initializing | None => (sh, p)
      end
  | CellSet r c e => (on_pool (set_cell c (Set_ e)) sh, CellDone r e)
  | CellAbort c e => (on_pool (set_cell c Empty) sh, Done e)
  | CellDone r e =>
      (on_pool (fun p => mkPool (pools p) (delete (key_of r) (inflight p)) (cells p) (channels p) (warm_total p)) sh,
       TryRecv r e)
  | _ => (sh, p)
  end.

(** [build_entry]. *)
Definition tick_build_entry (sh : Shared) (p : pc) : Shared * pc :=
  match p with
  | BuildLoop r c ch i =>
      (sh,
       if bool_decide (i < warm_instances_per_tuple pool_cfg)%nat && negb (warm_full sh)
       then match i with O => Precheck (GWarm r c ch 0) | S _ => Charge (GWarm r c ch i) end
       else match i with O => Precheck (GModule r c ch) | S _ => InsertEntry r c ch end)
  | InsertEntry r c ch =>
      let e := mkPoolEntry ch (module_hash r) in
      (on_pool (fun p => mkPool (<[key_of r := e]> (pools p)) (inflight p) (cells p) (channels p) (warm_total p)) sh,
       CellSet r c e)
  | _ => (sh, p)
  end.

(** [InstancePool::acquire]. *)
Definition tick_acquire (sh : Shared) (p : pc) : Shared * pc :=
  match p with
  | Acquire r =>
      let sh := on_stats count_draw sh in
      match streaming (cfg r), input (cfg r) with
      | None, [] => (sh, EnsureGet r)
      | _, _ => (on_stats count_miss sh, Precheck (GSpawn r None))
      end
  | TryRecv r e =>
      match try_recv sh (chan e) with
      | Some (inst, sh) => (sh, WarmSub r inst)
      | None => (on_stats count_miss sh, Precheck (GSpawn r (Some (module_hash r))))
      end
  | WarmSub r inst =>
      (on_stats count_hit (on_pool (add_warm (-1)) sh), Allocate r (Some (module_hash r)) inst false)
  | _ => match p with BuildLoop _ _ _ _ | InsertEntry _ _ _ => tick_build_entry sh p | _ => tick_ensure sh p end
  end.

(** The time a call gets: the duration the instance was built with, capped
    by the engine's [max_call_duration]. *)
Definition effective_call_budget (per_call max_call_duration : option Z) : option Z :=
  match per_call, max_call_duration with
  | Some a, Some b => Some (Z.min a b)
  | Some a, None => Some a
  | None, b => b
  end.

Definition finish (o : owner) (id : Z) : pc :=
  match o with
  | OPool r origin => Detach r origin id
  | OGuard _ _ => Terminate id
  | OClient => Done None
  end.

Definition add_ref (id d : Z) (g : Registry) : Registry :=
  mkRegistry (next_instance_id g) (instances g) (<[id := default 0 (refs g !! id) + d]> (refs g)) (orphans g).
Definition remove_instance (id : Z) (g : Registry) : Registry :=
  mkRegistry (next_instance_id g) (delete id (instances g)) (refs g) (orphans g).

(** [allocate_instance_id] and [register_pooled_instance]. *)
Definition tick_register (sh : Shared) (p : pc) : Shared * pc :=
  let reg := registry sh in
  match p with
  | Allocate r origin inst guarded =>
      let raw := next_instance_id reg in
      (on_registry (fun g => mkRegistry (as_u64 (raw + 1)) (instances g) (refs g) (orphans g)) sh,
       match instances reg !! raw with Some _ => p | None => Publish r origin inst guarded raw end)
  | Publish r origin inst guarded id =>
      match instances reg !! id with
      | Some _ =>
          (sh, if guarded then ReleaseCount (tenant_rollback (tenant_id (cfg r))) (KEnd (Some IdCollision))
               else Done (Some IdCollision))
      | None =>
          (on_registry (fun g => mkRegistry (next_instance_id g) (<[id := inst]> (instances g)) (refs g) (orphans g)) sh,
           match pool_config conf with Some _ => CallGet (OPool r origin) id | None => ArmGuard r id end)
      end
  | _ => (sh, p)
  end.

(** [terminate], and the [Drop] of the auto-terminate guard. *)
Definition tick_terminate (sh : Shared) (p : pc) : Shared * pc :=
  let reg := registry sh in
  match p with
  | Terminate id =>
      match instances reg !! id with
      | Some inst =>
          (on_registry (remove_instance id) sh,
           ReleaseCount (tenant_rollback (tenant_id (built_with inst))) (KEnd None))
      | None => (sh, Done None)
      end
  | GuardRemove _ id rollback =>
      match instances reg !! id with
      | Some _ => (on_registry (remove_instance id) sh, ReleaseCount rollback (KEnd None))
      | None => (sh, Done None)
      end
  | _ => (sh, p)
  end.

(** [call_export_with_args], alone or under the auto-terminate guard. *)
Definition tick_call (sh : Shared) (p : pc) : Shared * pc :=
  let reg := registry sh in
  match p with
  | ArmGuard r id =>
      (sh, CallGet (OGuard r (inst ← instances reg !! id; tenant_rollback (tenant_id (built_with inst)))) id)
  | CallGet o id =>
      match instances reg !! id with
      | Some _ => (on_registry (add_ref id 1) sh, Calling o id)
      | None => (sh, finish o id)
      end
  | Calling o id => (on_registry (add_ref id (-1)) sh, finish o id)
  | _ => match p with Terminate _ | GuardRemove _ _ _ => tick_terminate sh p | _ => tick_register sh p end
  end.

(** [InstancePool::shutdown]. *)
Definition tick_shutdown (sh : Shared) (p : pc) : Shared * pc :=
  match p with
  | ShutNext [] => (sh, Done None)
  | ShutNext (k :: ks) =>
      (sh, match pools (pool sh) !! k with Some e => ShutRecv k e ks | None => ShutNext ks end)
  | ShutRecv k e ks =>
      match try_recv sh (chan e) with
      | Some (inst, sh) => (sh, ReleaseCount (Some k.1) (KShut k e ks))
      | None => (sh, ShutNext ks)
      end
  | ShutWarm k e ks => (on_stats count_drop (on_pool (add_warm (-1)) sh), ShutRecv k e ks)
  | _ => (sh, p)
  end.

(** [detach_pooled_instance]. *)
Definition tick_detach (sh : Shared) (p : pc) : Shared * pc :=
  match p with
  | Detach r origin id =>
      match instances (registry sh) !! id with
      | Some inst => (on_registry (remove_instance id) sh, TryUnwrap r origin id inst)
      | None => (sh, Done None)
      end
  | TryUnwrap r origin id inst =>
      (sh,
       if default 0 (refs (registry sh) !! id) =? 0
       then ReleaseCount (Some (tenant_id (cfg r))) (KSpent r origin)
       else ReleaseCount (tenant_rollback (tenant_id (built_with inst))) (KEnd None))
  | _ => (sh, p)
  end.

(** [InstancePool::release]. *)
Definition tick_release (sh : Shared) (p : pc) : Shared * pc :=
  match p with
  | PoolGet r h =>
      match pools (pool sh) !! (tenant_id (cfg r), h) with
      | Some e => (sh, WarmCheck r e)
      | None => (on_stats count_drop sh, Done None)
      end
  | WarmCheck r e =>
      if warm_full sh then (on_stats count_drop sh, Done None) else (sh, Charge (GReset r e))
  | _ => match p with Detach _ _ _ | TryUnwrap _ _ _ _ => tick_detach sh p | _ => tick_shutdown sh p end
  end.

Definition tick (ok : bool) (sh : Shared) (p : pc) : Shared * pc :=
  match p with
  | Done _ => (sh, p)
  | Precheck _ | Charge _ | ChargeTenant _ | Unadd _ _ _ | Building _ | Built _ | WarmAdd _
  | ReleaseCount _ _ | ReleaseTenant _ _ => tick_build ok sh p
  | Acquire _ | EnsureGet _ | EnsureCell _ | CellWait _ _ | BuildLoop _ _ _ _ | InsertEntry _ _ _
  | CellSet _ _ _ | CellAbort _ _ | CellDone _ _ | TryRecv _ _ | WarmSub _ _ => tick_acquire sh p
  | Allocate _ _ _ _ | Publish _ _ _ _ _ | ArmGuard _ _ | CallGet _ _ | Calling _ _ | Terminate _
  | GuardRemove _ _ _ => tick_call sh p
  | Detach _ _ _ | TryUnwrap _ _ _ _ | PoolGet _ _ | WarmCheck _ _ | ShutNext _ | ShutRecv _ _ _
  | ShutWarm _ _ _ => tick_release sh p
  end.

(** A future dropped at an await point: a waiter just goes, a build's slot
    guard rolls back, a call drops its handle and, unless the pool is in use,
    its auto-terminate guard runs. *)
Definition cancel (sh : Shared) (p : pc) : Shared * pc :=
  match p with
  | CellWait _ _ => (sh, Done None)
  | Building g => (sh, ReleaseCount (tenant_rollback (goal_tenant g)) (KCancelled g))
  | Calling o id =>
      let sh := on_registry (add_ref id (-1)) sh in
      match o with
      | OPool _ _ =>
          (on_registry (fun g => mkRegistry (next_instance_id g) (instances g) (refs g) ({[id]} ∪ orphans g)) sh,
           Done None)
      | OGuard r rollback => (sh, GuardRemove r id rollback)
      | OClient => (sh, Done None)
      end
  | _ => (sh, p)
  end.

(** ** Schedules *)

Inductive event :=
| Tick (i : nat) (ok : bool)
| Cancel (i : nat)
| Invoke (i : nat) (r : request)
| CallExport (i : nat) (id : Z)
| TerminateId (i : nat) (id : Z)
| Shutdown (i : nat) (ks : list PoolKey).

Definition invoke (r : request) : pc :=
  match pool_config conf with Some _ => Acquire r | None => Precheck (GSpawn r None) end.

Definition start (st : Shared * list pc) (i : nat) (p : pc) : Shared * list pc :=
  match st.2 !! i with
  | Some q => if at_rest q then (st.1, <[i := p]> st.2) else st
  | None => st
  end.

Definition advance (f : Shared -> pc -> Shared * pc) (i : nat) (st : Shared * list pc) : Shared * list pc :=
  match st.2 !! i with
  | Some p => let '(sh, p) := f st.1 p in (sh, <[i := p]> st.2)
  | None => st
  end.

Definition exec (st : Shared * list pc) (ev : event) : Shared * list pc :=
  match ev with
  | Tick i ok => advance (tick ok) i st
  | Cancel i => advance cancel i st
  | Invoke i r => start st i (invoke r)
  | CallExport i id => start st i (CallGet OClient id)
  | TerminateId i id => start st i (Terminate id)
  | Shutdown i ks => start st i (ShutNext ks)
  end.

Definition run (evs : list event) (st : Shared * list pc) : Shared * list pc := foldl exec st evs.
End executor.

Definition initial (n : nat) : Shared * list pc :=
  (mkShared (mkSlots 0 ∅) (mkRegistry 1 ∅ ∅ ∅) (mkPool ∅ ∅ [] [] 0) (mkStats 0 0 0 0), replicate n (Done None)).
End Executor.

Module ExecutorFacts.
Import Executor.

(** ** Accounting *)

(** [w] of every instance that is registered or was put in a warm channel. *)
Definition stored (w : Instance -> Z) (sh : Shared) : Z :=
  sum_map w (instances (registry sh)) + sumZ (fun c => sumZ w (queue c)) (channels (pool sh)).

Definition one (inst : Instance) : Z := 1.
Definition of_tenant (t : Z) (inst : Instance) : Z := if tenant_id (built_with inst) =? t then 1 else 0.

(** The engine-wide slot and the tenant's slot a task holds itself. *)
Definition holds (p : pc) : Z :=
  match p with
  | ChargeTenant _ | Unadd _ _ _ | Building _ | Built _ | ReleaseCount _ _ | WarmSub _ _
  | Allocate _ _ _ _ | Publish _ _ _ _ _ | TryUnwrap _ _ _ _ => 1
  | _ => 0
  end.

Definition bills (t : Z) (p : pc) : Z :=
  match p with
  | Building g | Built g => if goal_tenant g =? t then 1 else 0
  | ReleaseCount (Some t') _ | ReleaseTenant t' _ => if t' =? t then 1 else 0
  | WarmSub _ inst | Allocate _ _ inst _ | Publish _ _ inst _ _ | TryUnwrap _ _ _ inst => of_tenant t inst
  | _ => 0
  end.

(** A charge that has seen it went over the cap and has yet to undo it. *)
Definition overs (p : pc) : Z := match p with Unadd _ true _ => 1 | _ => 0 end.

Definition instance_count' (sh : Shared) : Z := instance_count (slots sh).
Definition tenant_count' (sh : Shared) (t : Z) : Z := tenant_count (tenant_counts (slots sh)) t.

(** ** What the pool may hand to whom *)

(** The instance is the one the request asked for. *)
Definition serves (r : request) (inst : Instance) : Prop :=
  tenant_id (built_with inst) = tenant_id (cfg r) /\ built_from inst = module_hash r /\
  streaming (built_with inst) = streaming (cfg r) /\ input (built_with inst) = input (cfg r).

Definition warm_ok (k : PoolKey) (inst : Instance) : Prop :=
  tenant_id (built_with inst) = k.1 /\ built_from inst = k.2 /\
  streaming (built_with inst) = None /\ input (built_with inst) = [].

Definition plain (r : request) : Prop := streaming (cfg r) = None /\ input (cfg r) = [].

Definition origin_ok (r : request) (origin : option str) : Prop :=
  forall h, origin = Some h -> h = module_hash r /\ plain r.

(** The keys the channels and the cells were made for only grow. *)
Definition chan_keys (P : InstancePool) : list PoolKey := chan_key <$> channels P.
Definition cell_keys (P : InstancePool) : list PoolKey := cell_key <$> cells P.

Section shape.
Context (conf : EngineConfig) (ck lk : list PoolKey).

Definition entry_ok (k : PoolKey) (e : PoolEntry) : Prop := ck !! chan e = Some k /\ module e = k.2.

Definition build_ok (r : request) (c ch : nat) : Prop :=
  plain r /\ lk !! c = Some (key_of r) /\ ck !! ch = Some (key_of r).

Definition goal_ok (g : goal) : Prop :=
  match g with
  | GSpawn r origin => origin_ok r origin
  | GWarm r c ch _ | GModule r c ch => build_ok r c ch
  | GReset r e => plain r /\ entry_ok (key_of r) e
  end.

Definition cont_ok (k : cont) : Prop :=
  match k with
  | KSurplus g | KFailed g _ | KCancelled g => goal_ok g
  | KSpent r origin => origin_ok r origin
  | KShut k e _ => entry_ok k e
  | KEnd _ => True
  end.

Definition owner_ok (o : owner) : Prop :=
  match o with OPool r origin => is_Some (pool_config conf) /\ origin_ok r origin | _ => True end.

(** What a task may rely on about its own position. *)
Definition shape (p : pc) : Prop :=
  match p with
  | Acquire _ => is_Some (pool_config conf)
  | EnsureGet r | EnsureCell r => is_Some (pool_config conf) /\ plain r
  | CellWait r c => is_Some (pool_config conf) /\ plain r /\ lk !! c = Some (key_of r)
  | CellDone r e | TryRecv r e | WarmCheck r e => plain r /\ entry_ok (key_of r) e
  | WarmSub r inst => plain r /\ warm_ok (key_of r) inst
  | BuildLoop r c ch _ | InsertEntry r c ch => build_ok r c ch
  | CellSet r c e => plain r /\ lk !! c = Some (key_of r) /\ entry_ok (key_of r) e
  | Precheck g | Charge g | ChargeTenant g | Unadd g _ _ | Building g | Built g | WarmAdd g => goal_ok g
  | ReleaseCount rollback k => cont_ok k /\ (rollback = None -> max_instances_per_tenant conf = None)
  | ReleaseTenant _ k => cont_ok k
  | Allocate r origin inst _ | Publish r origin inst _ _ | TryUnwrap r origin _ inst =>
      origin_ok r origin /\ serves r inst
  | CallGet o _ | Calling o _ => owner_ok o
  | Detach r origin _ => origin_ok r origin
  | PoolGet r h => h = module_hash r /\ plain r
  | ShutRecv k e _ | ShutWarm k e _ => entry_ok k e
  | Done _ | CellAbort _ _ | ArmGuard _ _ | GuardRemove _ _ _ | Terminate _ | ShutNext _ => True
  end.
End shape.

Record pool_ok (P : InstancePool) : Prop := {
  p_channels ch c : channels P !! ch = Some c -> Forall (warm_ok (chan_key c)) (queue c);
  p_pools k e : pools P !! k = Some e -> entry_ok (chan_keys P) k e;
  p_inflight k c : inflight P !! k = Some c -> cell_keys P !! c = Some k;
  p_cells c x e : cells P !! c = Some x -> cell x = Set_ e -> entry_ok (chan_keys P) (cell_key x) e;
}.

Lemma origin_ok_None r : origin_ok r None.
Proof. by intros h [=]. Qed.

Lemma shape_mono conf ck lk ck' lk' p :
  ck `prefix_of` ck' -> lk `prefix_of` lk' -> shape conf ck lk p -> shape conf ck' lk' p.
Proof.
  intros Hc Hl.
  assert (forall k e, entry_ok ck k e -> entry_ok ck' k e) as He
    by (intros k e [? ?]; split; [by eapply prefix_lookup_Some|done]).
  assert (forall r c ch, build_ok ck lk r c ch -> build_ok ck' lk' r c ch) as Hb
    by (intros r c ch (? & ? & ?); repeat split; try apply H; by eapply prefix_lookup_Some).
  assert (forall g, goal_ok ck lk g -> goal_ok ck' lk' g) as Hg by (intros []; naive_solver).
  assert (forall k, cont_ok ck lk k -> cont_ok ck' lk' k) as Hk by (intros []; naive_solver).
  destruct p; cbn; try done; try naive_solver.
  - intros (? & ? & ?). split_and!; try done. by eapply prefix_lookup_Some.
  - intros (? & ? & ?). split_and!; try naive_solver. by eapply prefix_lookup_Some.
Qed.

Lemma chan_keys_set_channel ch q P : chan_keys (set_channel ch q P) = chan_keys P.
Proof.
  unfold set_channel, chan_keys. destruct (channels P !! ch) as [c|] eqn:Hc; [|done]. cbn.
  rewrite list_fmap_insert. cbn. apply list_insert_id. by rewrite list_lookup_fmap, Hc.
Qed.

Lemma cell_keys_set_channel ch q P : cell_keys (set_channel ch q P) = cell_keys P.
Proof. unfold set_channel. by destruct (channels P !! ch). Qed.

Lemma cell_keys_set_cell c o P : cell_keys (set_cell c o P) = cell_keys P.
Proof.
  unfold set_cell, cell_keys. destruct (cells P !! c) as [x|] eqn:Hc; [|done]. cbn.
  rewrite list_fmap_insert. cbn. apply list_insert_id. by rewrite list_lookup_fmap, Hc.
Qed.

Lemma chan_keys_set_cell c o P : chan_keys (set_cell c o P) = chan_keys P.
Proof. unfold set_cell. by destruct (cells P !! c). Qed.

Lemma set_channel_ok ch q P :
  pool_ok P -> (forall k, chan_keys P !! ch = Some k -> Forall (warm_ok k) q) -> pool_ok (set_channel ch q P).
Proof.
  intros [Hch Hp Hi Hc] Hq. pose proof (chan_keys_set_channel ch q P) as Hk. unfold set_channel in *.
  destruct (channels P !! ch) as [c|] eqn:Hl; [|done]. split; cbn in *; rewrite ?Hk; try done.
  intros ch' c' [(<- & <- & _)|[_ Hl']]%list_lookup_insert_Some; [|by eapply Hch].
  cbn. apply Hq. unfold chan_keys. by rewrite list_lookup_fmap, Hl.
Qed.

Lemma set_cell_ok c o P :
  pool_ok P -> (forall k e, cell_keys P !! c = Some k -> o = Set_ e -> entry_ok (chan_keys P) k e) ->
  pool_ok (set_cell c o P).
Proof.
  intros [Hch Hp Hi Hc] Ho. pose proof (cell_keys_set_cell c o P) as Hk. unfold set_cell in *.
  destruct (cells P !! c) as [x|] eqn:Hl; [|done]. split; cbn in *; rewrite ?Hk; try done.
  intros c' x' e [(<- & <- & _)|[_ Hl']]%list_lookup_insert_Some; [|by eapply Hc].
  cbn. intros ->. apply Ho; [|done]. unfold cell_keys. by rewrite list_lookup_fmap, Hl.
Qed.

Lemma add_warm_ok d P : pool_ok P -> pool_ok (add_warm d P).
Proof. by intros []. Qed.

Lemma new_channel_ok k P :
  pool_ok P -> pool_ok (mkPool (pools P) (inflight P) (cells P) (channels P ++ [mkChannel k []]) (warm_total P)).
Proof.
  intros [Hch Hp Hi Hc].
  assert (forall k' e, entry_ok (chan_keys P) k' e ->
    entry_ok (chan_key <$> channels P ++ [mkChannel k []]) k' e) as He.
  { intros k' e [? ?]. split; [|done]. rewrite fmap_app. by apply lookup_app_l_Some. }
  split; cbn; try done.
  - intros ch c [?|[_ [_ <-]%list_lookup_singleton_Some]]%lookup_app_Some; [by eapply Hch|]. by constructor.
  - intros ???. by apply He, Hp.
  - intros ?????. by eapply He, Hc.
Qed.

Lemma new_cell_ok k P :
  pool_ok P ->
  pool_ok (mkPool (pools P) (<[k := length (cells P)]> (inflight P)) (cells P ++ [mkCell k Empty])
             (channels P) (warm_total P)).
Proof.
  intros [Hch Hp Hi Hc]. split; cbn; try done.
  - unfold cell_keys. cbn. intros k' c [[<- <-]|[_ Hk]]%lookup_insert_Some; rewrite fmap_app.
    + rewrite lookup_app_r by (by rewrite length_fmap). by rewrite length_fmap, Nat.sub_diag.
    + by apply lookup_app_l_Some, Hi.
  - intros c x e [?|[_ [_ <-]%list_lookup_singleton_Some]]%lookup_app_Some; [by eapply Hc|done].
Qed.

Lemma insert_entry_ok k e P :
  pool_ok P -> entry_ok (chan_keys P) k e ->
  pool_ok (mkPool (<[k := e]> (pools P)) (inflight P) (cells P) (channels P) (warm_total P)).
Proof.
  intros [Hch Hp Hi Hc] He. split; cbn; try done.
  intros k' e' [[<- <-]|[_ ?]]%lookup_insert_Some; [done|]. by apply Hp.
Qed.

Lemma remove_inflight_ok k P :
  pool_ok P -> pool_ok (mkPool (pools P) (delete k (inflight P)) (cells P) (channels P) (warm_total P)).
Proof. intros [Hch Hp Hi Hc]. split; cbn; try done. intros k' c [_ ?]%lookup_delete_Some. by apply Hi. Qed.

Lemma queue_of_ok sh ch k :
  pool_ok (pool sh) -> chan_keys (pool sh) !! ch = Some k -> Forall (warm_ok k) (queue_of sh ch).
Proof.
  intros Hok Hk. unfold queue_of, chan_keys in *. rewrite list_lookup_fmap in Hk.
  destruct (channels (pool sh) !! ch) as [c|] eqn:Hc; [|done]. simplify_eq/=. by eapply p_channels.
Qed.

(** ** Every step keeps the pool and the task's position sound *)

Section steps.
Context (conf : EngineConfig).

Definition good (P : InstancePool) (st : Shared * pc) : Prop :=
  pool_ok (pool st.1) /\ prefix (chan_keys P) (chan_keys (pool st.1)) /\
  prefix (cell_keys P) (cell_keys (pool st.1)) /\
  shape conf (chan_keys (pool st.1)) (cell_keys (pool st.1)) st.2.

Lemma good_keys P sh p :
  pool_ok (pool sh) -> chan_keys (pool sh) = chan_keys P -> cell_keys (pool sh) = cell_keys P ->
  shape conf (chan_keys P) (cell_keys P) p -> good P (sh, p).
Proof. intros Hok Hc Hl Hs. unfold good. cbn. by rewrite Hc, Hl. Qed.

Lemma failed_good P sh g e :
  pool_ok P -> pool sh = P -> goal_ok (chan_keys P) (cell_keys P) g -> good P (failed g e sh).
Proof. intros Hok <- Hg. destruct g; by apply good_keys. Qed.

Lemma resume_good P sh k :
  pool_ok P -> pool sh = P -> cont_ok (chan_keys P) (cell_keys P) k -> good P (resume k sh).
Proof.
  intros Hok <- Hk. destruct k as [|[]|g e|[]|r [h|]|]; cbn in *; try by apply good_keys.
  - by apply failed_good.
  - destruct (streaming (cfg r)); apply good_keys; try done. by apply Hk.
  - destruct (streaming (cfg r)); by apply good_keys.
Qed.

Lemma rollback_None t : tenant_rollback conf t = None -> max_instances_per_tenant conf = None.
Proof. unfold tenant_rollback. by destruct (max_instances_per_tenant conf). Qed.

Lemma try_send_good P sh ch inst sh' k p :
  pool_ok P -> pool sh = P -> try_send conf sh ch inst = Some sh' -> chan_keys P !! ch = Some k ->
  warm_ok k inst -> shape conf (chan_keys P) (cell_keys P) p -> good P (sh', p).
Proof.
  intros Hok <- Hs Hk Hw Hp. unfold try_send in Hs. case_bool_decide; simplify_eq.
  apply good_keys; cbn; [|by rewrite ?chan_keys_set_channel, ?cell_keys_set_channel..|done].
  apply set_channel_ok; [done|]. intros k' Hk'. simplify_eq.
  apply Forall_app. split; [by apply queue_of_ok|]. constructor; [done|constructor].
Qed.

Lemma instantiate_warm ck lk g :
  goal_ok ck lk g -> (forall r origin, g <> GSpawn r origin) ->
  warm_ok (key_of (goal_request g)) (instantiate_detached g).
Proof.
  destruct g; cbn; intros Hg Hn; [naive_solver|by destruct Hg as ([? ?] & _)..|].
  by destruct Hg as [[? ?] [_ ?]].
Qed.

Lemma tick_build_good ok sh p :
  pool_ok (pool sh) -> shape conf (chan_keys (pool sh)) (cell_keys (pool sh)) p ->
  good (pool sh) (tick_build conf ok sh p).
Proof.
  intros Hok Hp. destruct p as [| | | | | | | | | | | |g|g|g|g over e|g|g|g|rb k|t k| | | | | | | | | | | | | |];
    try by apply good_keys.
  - cbn. destruct ok; [by apply good_keys|by apply failed_good].
  - apply good_keys; try done. destruct (max_instances conf); [case_match|]; done.
  - cbn. destruct (max_instances_per_tenant conf); [|by apply good_keys]. case_match; by apply good_keys.
  - by apply failed_good.
  - cbn. destruct ok; apply good_keys; try done. split; [done|]. apply rollback_None.
  - assert (forall sh', pool sh' = pool sh -> good (pool sh) (sh', ReleaseCount (Some (goal_tenant g)) (KSurplus g)))
      as Hsur by (intros sh' ?; apply good_keys; by rewrite ?H).
    cbn. destruct g as [r o|r c ch i|r c ch|r e]; cbn in Hp.
    + by apply good_keys.
    + destruct (try_send _ _ _ _) eqn:Hs; [|by apply Hsur]. destruct Hp as (? & ? & ?).
      by eapply try_send_good; [..|apply (instantiate_warm (chan_keys (pool sh)) (cell_keys (pool sh)) (GWarm r c ch i))|].
    + by apply Hsur.
    + destruct ok; [|by apply Hsur]. destruct (try_send _ _ _ _) eqn:Hs; [|by apply Hsur]. destruct Hp as [? [? ?]].
      by eapply try_send_good; [..|apply (instantiate_warm (chan_keys (pool sh)) (cell_keys (pool sh)) (GReset r e))|].
  - apply good_keys; [by apply add_warm_ok|done..|]. by destruct g.
  - destruct Hp as [Hk Hrb]. cbn. destruct rb; [by apply good_keys|by apply resume_good].
  - by apply resume_good.
Qed.

Lemma try_recv_good P sh ch k inst sh' :
  pool_ok P -> pool sh = P -> chan_keys P !! ch = Some k -> try_recv sh ch = Some (inst, sh') ->
  warm_ok k inst /\ pool_ok (pool sh') /\ chan_keys (pool sh') = chan_keys P /\ cell_keys (pool sh') = cell_keys P.
Proof.
  intros Hok <- Hk Hr. unfold try_recv in Hr. pose proof (queue_of_ok sh ch k Hok Hk) as Hq.
  destruct (queue_of sh ch) as [|x q]; simplify_eq. inversion Hq; subst. split_and!; [done| |cbn..].
  - apply set_channel_ok; [done|]. intros k' Hk'. by simplify_eq.
  - apply chan_keys_set_channel.
  - apply cell_keys_set_channel.
Qed.

Lemma tick_acquire_good sh p :
  pool_ok (pool sh) -> shape conf (chan_keys (pool sh)) (cell_keys (pool sh)) p ->
  good (pool sh) (tick_acquire conf sh p).
Proof.
  intros Hok Hp. destruct p as [|r|r|r|r c|r e|r e|r inst|r c ch i|r c ch|r c e|c e| | | | | | | | | | | | | | | | | | | | | | | ];
    try by apply good_keys.
  - cbn. destruct (streaming (cfg r)) eqn:Hs; [by apply good_keys, origin_ok_None|].
    destruct (input (cfg r)) eqn:Hi; [by apply good_keys|by apply good_keys, origin_ok_None].
  - destruct Hp as [? ?]. apply good_keys; try done. destruct (pools _ !! _) eqn:He; [|done].
    split; [done|]. by apply p_pools.
  - cbn. destruct Hp as [? ?]. destruct (inflight _ !! _) eqn:He.
    + apply good_keys; try done. split_and!; try done. by apply p_inflight.
    + split; [by apply new_cell_ok|]. split; [unfold chan_keys; cbn; reflexivity|]. split; [|split; [done|split; [done|]]].
      * unfold cell_keys. cbn. rewrite fmap_app. by apply prefix_app_r.
      * unfold cell_keys. cbn. rewrite fmap_app, lookup_app_r by (by rewrite length_fmap).
        by rewrite length_fmap, Nat.sub_diag.
  - cbn. destruct Hp as (? & ? & Hc). destruct (cells (pool sh) !! c) as [[ck []]|] eqn:Hx; cbn;
      try by apply good_keys.
    + split_and!; cbn; rewrite ?chan_keys_set_cell, ?cell_keys_set_cell; cbn.
      * apply set_cell_ok; [by apply new_channel_ok|done].
      * unfold chan_keys. cbn. rewrite fmap_app. by apply prefix_app_r.
      * done.
      * split_and!; try done. unfold chan_keys. cbn.
        rewrite fmap_app, lookup_app_r by (by rewrite length_fmap). by rewrite length_fmap, Nat.sub_diag.
    + apply good_keys; try done. split; [done|]. pose proof (p_cells _ Hok _ _ _ Hx eq_refl) as He.
      unfold cell_keys in Hc. rewrite list_lookup_fmap, Hx in Hc. by simplify_eq/=.
  - apply good_keys; [by apply remove_inflight_ok|done..].
  - cbn. destruct Hp as [? [? ?]]. destruct (try_recv sh (chan e)) as [[inst sh']|] eqn:Hr.
    + destruct (try_recv_good _ _ _ _ _ _ Hok eq_refl H0 Hr) as (? & ? & ? & ?). by apply good_keys.
    + apply good_keys; try done. cbn. intros h [= <-]. done.
  - destruct Hp as [[? ?] (? & ? & ? & ?)]. apply good_keys; [by apply add_warm_ok|done..|].
    split; [by intros h [= <-]|]. cbn in *. repeat split; congruence.
  - cbn. apply good_keys; try done. case_match; destruct i; done.
  - destruct Hp as (? & ? & ?). cbn. apply good_keys; [by apply insert_entry_ok|done..].
  - destruct Hp as (? & Hc & ?). apply good_keys; cbn;
      rewrite ?chan_keys_set_cell, ?cell_keys_set_cell; try done.
    apply set_cell_ok; [done|]. intros k e' ? [= <-]. congruence.
  - apply good_keys; cbn; rewrite ?chan_keys_set_cell, ?cell_keys_set_cell; try done. by apply set_cell_ok.
Qed.
End steps.

(** ** Instance ids *)

(** The id a task acts on for a request, and the rollback its guard captured. *)
Definition refers (p : pc) : option (Z * request) :=
  match p with
  | ArmGuard r id | Detach r _ id | GuardRemove r id _
  | CallGet (OPool r _) id | CallGet (OGuard r _) id
  | Calling (OPool r _) id | Calling (OGuard r _) id => Some (id, r)
  | _ => None
  end.

Definition rollback_of (p : pc) : option (option Z) :=
  match p with
  | CallGet (OGuard _ rb) _ | Calling (OGuard _ rb) _ | GuardRemove _ _ rb => Some rb
  | _ => None
  end.

Definition publishing (p : pc) : option Z :=
  match p with Publish _ _ _ _ id => Some id | _ => None end.

(** The id a task will remove from the registry before it ends. *)
Definition owns (p : pc) : option Z :=
  match p with Terminate id => Some id | _ => fst <$> refers p end.

Section ids.
Context (conf : EngineConfig).

Definition id_ok (g : Registry) (p : pc) : Prop :=
  forall id r, refers p = Some (id, r) ->
    id < next_instance_id g /\
    forall inst, instances g !! id = Some inst ->
      serves r inst /\ forall rb, rollback_of p = Some rb -> rb = tenant_rollback conf (tenant_id (cfg r)).

Record ids_ok (n : Z) (g : Registry) (ts : list pc) : Prop := {
  d_next : next_instance_id g <= n /\ 0 <= next_instance_id g;
  d_below id inst : instances g !! id = Some inst -> id < next_instance_id g;
  d_refers i p : ts !! i = Some p -> id_ok g p;
  d_publishing i p id : ts !! i = Some p -> publishing p = Some id ->
    id < next_instance_id g /\ instances g !! id = None;
  d_distinct i j p q id : i <> j -> ts !! i = Some p -> ts !! j = Some q -> publishing p = Some id ->
    publishing q <> Some id /\ forall r, refers q <> Some (id, r);
  d_owned id inst : instances g !! id = Some inst ->
    id ∈ orphans g \/ exists j p, ts !! j = Some p /\ owns p = Some id;
}.

Lemma ids_owned_insert n g ts i p p' id inst :
  ids_ok n g ts -> ts !! i = Some p -> instances g !! id = Some inst ->
  (owns p = Some id -> owns p' = Some id \/ id ∈ orphans g) ->
  id ∈ orphans g \/ exists j q, <[i := p']> ts !! j = Some q /\ owns q = Some id.
Proof.
  intros Hok Hi Hid Ho. destruct (d_owned _ _ _ Hok _ _ Hid) as [?|(j & q & Hj & Hq)]; [by left|].
  assert (i < length ts)%nat by (by eapply lookup_lt_Some).
  destruct (decide (i = j)) as [<-|].
  - simplify_eq. destruct (Ho Hq) as [?|?]; [right|by left]. exists i, p'. by rewrite list_lookup_insert_eq.
  - right. exists j, q. by rewrite list_lookup_insert_ne.
Qed.

(** A step that leaves the registry's ids alone. *)
Lemma ids_quiet n g ts i p g' p' :
  ids_ok n g ts -> ts !! i = Some p ->
  instances g' = instances g -> next_instance_id g' = next_instance_id g -> orphans g ⊆ orphans g' ->
  publishing p' = None -> id_ok g' p' ->
  (forall id r, refers p' = Some (id, r) -> refers p = Some (id, r)) ->
  (forall id, owns p = Some id -> owns p' = Some id \/ id ∈ orphans g' \/ instances g !! id = None) ->
  ids_ok n g' (<[i := p']> ts).
Proof.
  intros Hok Hi Hg Hn Hsub Hp' Hid Href Hown. pose proof Hok as [Hx Hb Hr Hp Hd Ho].
  split; rewrite ?Hg, ?Hn; try done.
  - intros j q [(<- & <- & _)|[_ Hj]]%list_lookup_insert_Some; [done|].
    intros id r Hq. destruct (Hr _ _ Hj _ _ Hq). by rewrite Hg, Hn.
  - intros j q id [(<- & <- & _)|[_ Hj]]%list_lookup_insert_Some Hq; [congruence|by eapply Hp].
  - intros j k q q' id Hne [(<- & <- & _)|[Hjk Hj]]%list_lookup_insert_Some
      [(<- & <- & _)|[Hjk' Hk]]%list_lookup_insert_Some Hq; try congruence.
    + split; [congruence|]. intros r Hr'. apply Href in Hr'. by apply (Hd j i q p id Hne Hj Hi Hq) in Hr'.
    + by apply (Hd j k q q' id).
  - intros id inst Hl. destruct (decide (id ∈ orphans g')); [by left|]. right.
    destruct (d_owned _ _ _ Hok _ _ Hl) as [?%Hsub|(j & q & Hj & Hq)]; [done|].
    assert (i < length ts)%nat by (by eapply lookup_lt_Some).
    destruct (decide (i = j)) as [<-|].
    + simplify_eq. exists i, p'. rewrite list_lookup_insert_eq by done. split; [done|].
      destruct (Hown _ Hq) as [?|[?|?]]; [done|done|congruence].
    + exists j, q. by rewrite list_lookup_insert_ne.
Qed.

(** A step that removes the id its task owns. *)
Lemma ids_remove n g ts i p p' id :
  ids_ok n g ts -> ts !! i = Some p -> owns p = Some id -> publishing p' = None -> refers p' = None ->
  ids_ok n (remove_instance id g) (<[i := p']> ts).
Proof.
  intros Hok Hi Ho Hp' Hr'. pose proof Hok as [Hx Hb Hr Hp Hd Hw].
  split; cbn; try done.
  - intros id' inst [_ ?]%lookup_delete_Some. by eapply Hb.
  - intros j q [(<- & <- & _)|[_ Hj]]%list_lookup_insert_Some id' r Hq; [congruence|].
    destruct (Hr _ _ Hj _ _ Hq) as [? Hs]. split; [done|]. cbn. intros inst [_ ?]%lookup_delete_Some. by apply Hs.
  - intros j q id' [(<- & <- & _)|[_ Hj]]%list_lookup_insert_Some Hq; [congruence|].
    destruct (Hp _ _ _ Hj Hq). split; [done|]. rewrite lookup_delete_None. by right.
  - intros j k q q' id' Hne [(<- & <- & _)|[Hjk Hj]]%list_lookup_insert_Some
      [(<- & <- & _)|[Hjk' Hk]]%list_lookup_insert_Some Hq; try congruence.
    + split; [congruence|]. intros r. by rewrite Hr'.
    + by apply (Hd j k q q' id').
  - intros id' inst [? Hl]%lookup_delete_Some. eapply ids_owned_insert; [done..|]. naive_solver.
Qed.

Lemma ids_allocate n g ts i p p' :
  ids_ok n g ts -> ts !! i = Some p -> n < u64_max ->
  owns p = None -> publishing p' = Some (next_instance_id g) -> refers p' = None ->
  ids_ok (n + 1) (mkRegistry (as_u64 (next_instance_id g + 1)) (instances g) (refs g) (orphans g)) (<[i := p']> ts).
Proof.
  intros Hok Hi Hn Ho Hp' Hr'. pose proof Hok as [Hx Hb Hr Hp Hd Hw].
  assert (as_u64 (next_instance_id g + 1) = next_instance_id g + 1) as ->
    by (unfold as_u64; apply Z.mod_small; lia).
  split; cbn.
  - lia.
  - intros id inst Hl. specialize (Hb _ _ Hl). lia.
  - intros j q [(<- & <- & _)|[_ Hj]]%list_lookup_insert_Some id r Hq; [congruence|].
    destruct (Hr _ _ Hj _ _ Hq). cbn. split; [lia|done].
  - intros j q id [(<- & <- & _)|[_ Hj]]%list_lookup_insert_Some Hq.
    + rewrite Hp' in Hq. simplify_eq. split; [lia|]. apply eq_None_not_Some. intros [inst Hl]. specialize (Hb _ _ Hl). lia.
    + destruct (Hp _ _ _ Hj Hq). split; [lia|done].
  - intros j k q q' id Hne [(<- & <- & _)|[Hjk Hj]]%list_lookup_insert_Some
      [(<- & <- & _)|[Hjk' Hk]]%list_lookup_insert_Some Hq; try congruence.
    + rewrite Hp' in Hq. simplify_eq. split.
      * intros Hq'. destruct (Hp _ _ _ Hk Hq'). lia.
      * intros r Hr0. destruct (Hr _ _ Hk _ _ Hr0). lia.
    + split; [|intros r; by rewrite Hr']. rewrite Hp'. intros [= Heq]. destruct (Hp _ _ _ Hj Hq). lia.
    + by apply (Hd j k q q' id).
  - intros id inst Hl. eapply ids_owned_insert; [done..|]. rewrite Ho. done.
Qed.

Lemma ids_publish n g ts i p p' id inst r :
  ids_ok n g ts -> ts !! i = Some p -> publishing p = Some id -> owns p = None ->
  refers p' = Some (id, r) -> rollback_of p' = None -> publishing p' = None -> serves r inst ->
  ids_ok n (mkRegistry (next_instance_id g) (<[id := inst]> (instances g)) (refs g) (orphans g)) (<[i := p']> ts).
Proof.
  intros Hok Hi Hpub Ho Hr' Hrb' Hp' Hs. pose proof Hok as [Hx Hb Hr Hp Hd Hw]. destruct (Hp _ _ _ Hi Hpub) as [Hlt Hnone].
  assert (owns p' = Some id) as Ho' by (unfold owns; destruct p'; cbn in *; simplify_eq/=; done || by rewrite Hr').
  split; cbn; try done.
  - intros id' inst' [[<- <-]|[_ ?]]%lookup_insert_Some; [done|by eapply Hb].
  - intros j q [(<- & <- & _)|[Hne Hj]]%list_lookup_insert_Some id' r' Hq; cbn.
    + rewrite Hr' in Hq. simplify_eq. split; [done|]. intros inst' Hl. rewrite lookup_insert_eq in Hl. simplify_eq.
      split; [done|]. by rewrite Hrb'.
    + destruct (Hr _ _ Hj _ _ Hq) as [? Hs']. split; [done|]. intros inst' Hl.
      apply lookup_insert_Some in Hl as [[<- <-]|[_ Hl]]; [|by apply Hs'].
      by apply (Hd i j p q id Hne Hi Hj Hpub) in Hq.
  - intros j q id' [(<- & <- & _)|[Hne Hj]]%list_lookup_insert_Some Hq; [congruence|].
    destruct (Hp _ _ _ Hj Hq). split; [done|]. rewrite lookup_insert_ne; [done|].
    intros ->. by apply (Hd i j p q id' Hne Hi Hj Hpub).
  - intros j k q q' id' Hne [(<- & <- & _)|[Hjk Hj]]%list_lookup_insert_Some
      [(<- & <- & _)|[Hjk' Hk]]%list_lookup_insert_Some Hq; try congruence.
    + split; [congruence|]. intros r'. rewrite Hr'. intros [= <- <-].
      by apply (Hd i j p q id (not_eq_sym Hne) Hi Hj Hpub).
    + by apply (Hd j k q q' id').
  - intros id' inst' [[<- <-]|[_ Hl]]%lookup_insert_Some.
    + right. exists i, p'. rewrite list_lookup_insert_eq by (by eapply lookup_lt_Some). done.
    + eapply ids_owned_insert; [done..|]. by rewrite Ho.
Qed.
End ids.

Section step_ids.
Context (conf : EngineConfig).

Lemma tick_call_good sh p :
  pool_ok (pool sh) -> shape conf (chan_keys (pool sh)) (cell_keys (pool sh)) p -> id_ok conf (registry sh) p ->
  good conf (pool sh) (tick_call conf sh p).
Proof.
  intros Hok Hp Hid. pose proof (rollback_None conf) as Hrb.
  assert (forall o id sh', owner_ok conf o -> pool sh' = pool sh -> good conf (pool sh) (sh', finish o id)) as Hfin.
  { intros [] id sh' Ho Hs; apply good_keys; rewrite ?Hs; try done. by destruct Ho. }
  destruct p; try by apply good_keys.
  - cbn. destruct (instances _ !! _); by apply good_keys.
  - cbn. destruct Hp as [Ho Hs]. destruct (instances _ !! _); [destruct guarded|]; apply good_keys; try done.
    + split; [done|]. apply Hrb.
    + destruct (pool_config conf) eqn:Hpc; [|done]. split; [|done]. by rewrite Hpc.
  - cbn. destruct (instances _ !! _); [by apply good_keys|by apply Hfin].
  - by apply Hfin.
  - cbn. destruct (instances _ !! id) eqn:Hl; apply good_keys; try done. split; [done|].
    intros ->. destruct (Hid _ _ eq_refl) as [_ Hs]. destruct (Hs _ Hl) as [_ Heq].
    by apply (Hrb (tenant_id (cfg r))), eq_sym, Heq.
  - cbn. destruct (instances _ !! _); apply good_keys; try done. split; [done|]. apply Hrb.
Qed.

Lemma tick_release_good sh p :
  pool_ok (pool sh) -> shape conf (chan_keys (pool sh)) (cell_keys (pool sh)) p -> id_ok conf (registry sh) p ->
  good conf (pool sh) (tick_release conf sh p).
Proof.
  intros Hok Hp Hid. destruct p;
    try by apply good_keys.
  - cbn. destruct (instances _ !! id) eqn:Hl; apply good_keys; try done.
    split; [done|]. by apply (Hid _ _ eq_refl).
  - destruct Hp as [Ho Hs]. apply good_keys; try done. case_match; [done|]. split; [done|]. apply rollback_None.
  - cbn. destruct Hp as [-> ?]. destruct (pools _ !! _) eqn:He; apply good_keys; try done.
    split; [done|]. by apply p_pools.
  - cbn. case_match; apply good_keys; try done.
  - cbn. destruct ks as [|k ks]; apply good_keys; try done.
    destruct (pools _ !! k) eqn:He; [|done]. by apply p_pools.
  - cbn. destruct Hp as [? ?]. destruct (try_recv sh (chan e)) as [[inst sh']|] eqn:Hr; [|by apply good_keys].
    destruct (try_recv_good _ _ _ _ _ _ Hok eq_refl H Hr) as (? & ? & ? & ?). by apply good_keys.
  - apply good_keys; try done. by apply add_warm_ok.
Qed.

Lemma tick_good ok sh p :
  pool_ok (pool sh) -> shape conf (chan_keys (pool sh)) (cell_keys (pool sh)) p -> id_ok conf (registry sh) p ->
  good conf (pool sh) (tick conf ok sh p).
Proof.
  intros Hok Hp Hid. unfold tick. destruct p; try by apply good_keys.
  all: try by apply tick_build_good.
  all: try by apply tick_acquire_good.
  all: try by apply tick_call_good.
  all: by apply tick_release_good.
Qed.

Lemma cancel_good sh p :
  pool_ok (pool sh) -> shape conf (chan_keys (pool sh)) (cell_keys (pool sh)) p ->
  good conf (pool sh) (cancel conf sh p).
Proof.
  intros Hok Hp. destruct p; try by apply good_keys.
  2: destruct o; by apply good_keys.
  apply good_keys; try done. split; [done|]. apply rollback_None.
Qed.

(** Steps that concern no registered id at all. *)
Definition idless (p : pc) : bool :=
  match p with
  | Publish _ _ _ _ _ | ArmGuard _ _ | CallGet _ _ | Calling _ _ | Detach _ _ _ | GuardRemove _ _ _
  | Terminate _ => false
  | _ => true
  end.

Lemma failed_idless g e sh : idless (failed g e sh).2 = true /\ registry (failed g e sh).1 = registry sh.
Proof. by destruct g. Qed.

Lemma resume_idless k sh : idless (resume k sh).2 = true /\ registry (resume k sh).1 = registry sh.
Proof.
  destruct k as [|[]|g e|[]|r [h|]|]; cbn; try done; try apply failed_idless; by destruct (streaming (cfg r)).
Qed.

Lemma tick_idless ok sh p :
  idless p = true -> (forall r o inst b, p <> Allocate r o inst b) ->
  idless (tick conf ok sh p).2 = true /\ registry (tick conf ok sh p).1 = registry sh.
Proof.
  intros Hp Ha.
  assert (forall ch inst sh', try_send conf sh ch inst = Some sh' -> registry sh' = registry sh) as Hsend.
  { unfold try_send. intros ch inst sh' Hs. case_bool_decide; by simplify_eq. }
  assert (forall ch inst sh', try_recv sh ch = Some (inst, sh') -> registry sh' = registry sh) as Hrecv.
  { unfold try_recv. intros ch inst sh' Hs. case_match; by simplify_eq. }
  destruct p; try done; cbn; try apply failed_idless; try apply resume_idless.
  all: try (by destruct g; repeat (case_match; cbn); eauto).
  all: try (by destruct ks; repeat (case_match; cbn); eauto).
  all: repeat (case_match; subst; cbn); try apply failed_idless; try apply resume_idless; simplify_eq; eauto.
  all: try (by exfalso; eapply Ha).
  all: by apply (resume_idless k (on_slots _ sh)).
Qed.

Lemma idless_facts p : idless p = true -> refers p = None /\ publishing p = None /\ owns p = None.
Proof. by destruct p. Qed.

Lemma tick_ids n ok sh ts i p :
  ids_ok conf n (registry sh) ts -> ts !! i = Some p -> n < u64_max ->
  shape conf (chan_keys (pool sh)) (cell_keys (pool sh)) p ->
  ids_ok conf (n + 1) (registry (tick conf ok sh p).1) (<[i := (tick conf ok sh p).2]> ts).
Proof.
  intros Hok Hi Hn Hp. pose proof (d_refers _ _ _ _ Hok _ _ Hi) as Hid.
  assert (forall g us, ids_ok conf n g us -> ids_ok conf (n + 1) g us) as Hmono
    by (intros g us []; split; try done; lia).
  assert (forall g' p', instances g' = instances (registry sh) ->
    next_instance_id g' = next_instance_id (registry sh) -> orphans g' = orphans (registry sh) ->
    idless p' = true -> (forall id, owns p = Some id -> instances (registry sh) !! id = None) ->
    ids_ok conf (n + 1) g' (<[i := p']> ts)) as Hleave.
  { intros g' p' Hg Hx Ho [Hr [Hpb Hw]]%idless_facts Hnone. apply Hmono.
    eapply ids_quiet; [done..|by rewrite Ho|done| | |].
    - intros id r. by rewrite Hr.
    - intros id r. by rewrite Hr.
    - intros id ?. right. right. by apply Hnone. }
  destruct (idless p) eqn:Hless.
  - destruct (idless_facts _ Hless) as (_ & _ & Hw). destruct p;
      try (destruct (tick_idless ok sh _ Hless) as [Hl Hr]; [done|];
           apply Hleave; rewrite ?Hr; try done; by rewrite Hw).
    cbn. destruct (instances _ !! _) as [x|] eqn:Hl; [|by eapply ids_allocate].
    pose proof (d_below _ _ _ _ Hok _ _ Hl). lia.
  - destruct p; try done; cbn; clear Hless.
    + destruct (d_publishing _ _ _ _ Hok _ _ _ Hi eq_refl) as [_ ->]. destruct Hp as [_ Hs]. apply Hmono.
      eapply ids_publish; try done; by destruct (pool_config conf).
    + apply Hmono. eapply ids_quiet; try done; [|naive_solver].
      intros id' r' [= <- <-]. destruct (Hid _ _ eq_refl) as [? Hs]. split; [done|]. cbn.
      intros inst Hl. rewrite Hl. destruct (Hs _ Hl) as [Hsv _]. split; [done|]. cbn. intros rb [= <-].
      by destruct Hsv as [-> _].
    + destruct (instances _ !! id) eqn:Hl.
      * apply Hmono. eapply ids_quiet; try done; naive_solver.
      * apply Hmono. destruct o; eapply ids_quiet; try done; naive_solver.
    + apply Hmono. destruct o; eapply ids_quiet; try done; naive_solver.
    + destruct (instances _ !! id) eqn:Hl; [by apply Hmono; eapply ids_remove|].
      apply Hleave; try done. naive_solver.
    + destruct (instances _ !! id) eqn:Hl; [by apply Hmono; eapply ids_remove|].
      apply Hleave; try done. naive_solver.
    + destruct (instances _ !! id) eqn:Hl; [by apply Hmono; eapply ids_remove|].
      apply Hleave; try done. naive_solver.
Qed.
End step_ids.

(** ** The books balance at every step *)

Lemma stored_channels w sh sh' :
  instances (registry sh') = instances (registry sh) -> channels (pool sh') = channels (pool sh) ->
  stored w sh' = stored w sh.
Proof. unfold stored. by intros -> ->. Qed.

Lemma stored_send conf w sh ch k inst sh' :
  chan_keys (pool sh) !! ch = Some k -> try_send conf sh ch inst = Some sh' ->
  stored w sh' = stored w sh + w inst /\ slots sh' = slots sh.
Proof.
  unfold try_send, stored, queue_of, chan_keys. rewrite list_lookup_fmap. intros Hk Hs.
  case_bool_decide; simplify_eq. split; [|done]. cbn -[sumZ]. unfold set_channel.
  destruct (channels (pool sh) !! ch) as [c|] eqn:Hc; [|done]. cbn -[sumZ].
  rewrite (sumZ_insert _ _ _ _ _ Hc). cbn -[sumZ]. rewrite sumZ_app. cbn. lia.
Qed.

Lemma stored_recv w sh ch inst sh' :
  try_recv sh ch = Some (inst, sh') -> stored w sh' = stored w sh - w inst /\ slots sh' = slots sh.
Proof.
  unfold try_recv, stored, queue_of. intros Hr.
  destruct (channels (pool sh) !! ch) as [[k q]|] eqn:Hc; [|done]. cbn in Hr.
  destruct q as [|x q]; simplify_eq. split; [|done]. cbn -[sumZ]. unfold set_channel. rewrite Hc. cbn -[sumZ].
  rewrite (sumZ_insert _ _ _ _ _ Hc). cbn. lia.
Qed.

Lemma stored_remove w sh id inst :
  instances (registry sh) !! id = Some inst ->
  stored w (on_registry (remove_instance id) sh) = stored w sh - w inst.
Proof. intros Hl. unfold stored. cbn. rewrite (sum_map_delete _ _ _ _ Hl). lia. Qed.

Section balance.
Context (conf : EngineConfig).

Record balanced (sh : Shared) (p : pc) (st : Shared * pc) : Prop := {
  b_count : instance_count' st.1 - instance_count' sh =
    stored one st.1 - stored one sh + holds st.2 - holds p;
  b_tenant : is_Some (max_instances_per_tenant conf) -> (forall t, bills t p <= tenant_count' sh t) ->
    forall t, tenant_count' st.1 t - tenant_count' sh t =
      stored (of_tenant t) st.1 - stored (of_tenant t) sh + bills t st.2 - bills t p;
  b_tcap m : max_instances_per_tenant conf = Some m -> 0 <= m ->
    (forall t, tenant_count' sh t <= m) -> forall t, tenant_count' st.1 t <= m;
  b_tnone : max_instances_per_tenant conf = None -> tenant_counts (slots sh) = ∅ -> tenant_counts (slots st.1) = ∅;
  b_cap m : max_instances conf = Some m ->
    instance_count' st.1 - overs st.2 <= instance_count' sh - overs p \/ instance_count' st.1 - overs st.2 <= m;
}.

(** A step that only moves instances about. *)
Lemma balanced_moves sh p sh' p' :
  slots sh' = slots sh -> overs p' = overs p ->
  stored one sh' + holds p' = stored one sh + holds p ->
  (is_Some (max_instances_per_tenant conf) -> forall t,
     stored (of_tenant t) sh' + bills t p' = stored (of_tenant t) sh + bills t p) ->
  balanced sh p (sh', p').
Proof.
  intros Hs Ho Hc Ht. split; cbn; unfold instance_count', tenant_count'; rewrite ?Hs, ?Ho; try done; try lia.
  intros Hcap _ t. specialize (Ht Hcap t). lia.
Qed.

(** A task that holds nothing and is not over. *)
Definition idle (p : pc) : Prop := holds p = 0 /\ overs p = 0 /\ forall t, bills t p = 0.

Lemma balanced_idle sh p sh' p' :
  slots sh' = slots sh -> (forall w, stored w sh' = stored w sh) -> idle p -> idle p' -> balanced sh p (sh', p').
Proof.
  intros Hs Hw (Hh & Ho & Hb) (Hh' & Ho' & Hb'). apply balanced_moves; rewrite ?Hw; try congruence; try lia.
Qed.

Lemma failed_idle g e sh :
  idle (failed g e sh).2 /\ slots (failed g e sh).1 = slots sh /\ forall w, stored w (failed g e sh).1 = stored w sh.
Proof. by destruct g. Qed.

Lemma resume_idle k sh :
  idle (resume k sh).2 /\ slots (resume k sh).1 = slots sh /\ forall w, stored w (resume k sh).1 = stored w sh.
Proof.
  destruct k as [|[]|g e|[]|r [h|]|]; cbn; try done; try apply failed_idle; by destruct (streaming (cfg r)).
Qed.

Lemma tenant_count_insert (m : gmap Z Z) t v t' :
  tenant_count (<[t := v]> m) t' = if t =? t' then v else tenant_count m t'.
Proof.
  unfold tenant_count. destruct (t =? t') eqn:Ht; bool_props; subst.
  - by rewrite lookup_insert_eq.
  - by rewrite lookup_insert_ne.
Qed.

Lemma decrement_tenant_count_spec t s t' :
  1 <= tenant_count (tenant_counts s) t ->
  tenant_count (tenant_counts (decrement_tenant_count t s)) t' =
    tenant_count (tenant_counts s) t' - (if t =? t' then 1 else 0).
Proof.
  unfold decrement_tenant_count. intros H1. destruct (tenant_counts s !! t) as [v|] eqn:Hv.
  2: { unfold tenant_count in H1. rewrite Hv in H1. cbn in H1. lia. }
  assert (v = tenant_count (tenant_counts s) t) as -> by (unfold tenant_count; by rewrite Hv).
  cbn [tenant_counts]. destruct (sat_sub _ 1 =? 0) eqn:Hz; bool_props.
  - unfold sat_sub in Hz. unfold tenant_count in *. destruct (t =? t') eqn:Ht; bool_props; subst.
    + rewrite lookup_delete_eq. cbn. lia.
    + rewrite lookup_delete_ne by done. lia.
  - rewrite tenant_count_insert. destruct (t =? t') eqn:Ht; bool_props; subst; unfold sat_sub in *; lia.
Qed.

Lemma decrement_tenant_count_le t s t' :
  tenant_count (tenant_counts (decrement_tenant_count t s)) t' <= Z.max 0 (tenant_count (tenant_counts s) t').
Proof.
  unfold decrement_tenant_count, tenant_count. destruct (tenant_counts s !! t) as [v|] eqn:Hv; [|lia].
  cbn [tenant_counts]. destruct (decide (t = t')) as [->|].
  - rewrite Hv in *. case_match; [rewrite lookup_delete_eq|rewrite lookup_insert_eq]; cbn in *; unfold sat_sub in *; lia.
  - case_match; [rewrite lookup_delete_ne|rewrite lookup_insert_ne]; try done; lia.
Qed.

Lemma instantiate_tenant ck lk g t :
  goal_ok ck lk g -> of_tenant t (instantiate_detached g) = if goal_tenant g =? t then 1 else 0.
Proof. by destruct g. Qed.

Lemma rollback_Some t t' k : is_Some (max_instances_per_tenant conf) ->
  bills t (ReleaseCount (tenant_rollback conf t') k) = if t' =? t then 1 else 0.
Proof. unfold tenant_rollback. by intros [m ->]. Qed.

Lemma charge_balanced ok sh g :
  shape conf (chan_keys (pool sh)) (cell_keys (pool sh)) (Charge g) ->
  balanced sh (Charge g) (tick_build conf ok sh (Charge g)).
Proof.
  intros Hp.
  cbn. split; cbn; unfold instance_count', tenant_count'; cbn; try done.
  - rewrite (stored_channels _ sh) by done. repeat case_match; cbn; lia.
  - intros _ _ t. rewrite (stored_channels _ sh) by done. repeat case_match; cbn; lia.
  - intros m ->. case_match; bool_props; cbn; lia.
Qed.

Lemma charge_tenant_balanced ok sh g :
  shape conf (chan_keys (pool sh)) (cell_keys (pool sh)) (ChargeTenant g) ->
  balanced sh (ChargeTenant g) (tick_build conf ok sh (ChargeTenant g)).
Proof.
  intros Hp.
  cbn. destruct (max_instances_per_tenant conf) as [m|] eqn:Hm.
  2: { apply balanced_moves; try done. by rewrite Hm; intros []. }
  case_match eqn:Hlt; bool_props; split; cbn; unfold instance_count', tenant_count'; cbn; rewrite ?Hm; try done.
  - rewrite (stored_channels _ sh) by done. lia.
  - intros _ _ t. rewrite (stored_channels _ sh), tenant_count_insert by done. case_match; bool_props; subst; lia.
  - intros m' [= <-] _ Hall t. rewrite tenant_count_insert. case_match; bool_props; subst; apply Hall.
  - intros m' _. left. lia.
  - rewrite (stored_channels _ sh) by done. lia.
  - intros _ _ t. rewrite (stored_channels _ sh), tenant_count_insert by done. case_match; bool_props; subst; lia.
  - intros m' [= <-] _ Hall t. rewrite tenant_count_insert. case_match; bool_props; subst; [lia|apply Hall].
  - intros m' _. left. lia.
Qed.

Lemma unadd_balanced ok sh g over e :
  shape conf (chan_keys (pool sh)) (cell_keys (pool sh)) (Unadd g over e) ->
  balanced sh (Unadd g over e) (tick_build conf ok sh (Unadd g over e)).
Proof.
  intros Hp.
  cbn. destruct (failed_idle g e (on_slots (add_count (-1)) sh)) as ((Hh & Ho & Hb) & Hs & Hw).
  destruct (failed _ _ _) as [sh' p']. split; cbn in *; unfold instance_count', tenant_count'; rewrite ?Hs; cbn; try done.
  - rewrite Hw, (stored_channels _ sh), Hh by done. lia.
  - intros _ _ t. rewrite Hw, (stored_channels _ sh), Hb by done. lia.
  - intros m _. left. rewrite Ho. destruct over; lia.
Qed.

Lemma built_balanced ok sh g :
  shape conf (chan_keys (pool sh)) (cell_keys (pool sh)) (Built g) ->
  balanced sh (Built g) (tick_build conf ok sh (Built g)).
Proof.
  intros Hp.
  assert (forall sh', slots sh' = slots sh -> (forall w, stored w sh' = stored w sh) ->
    balanced sh (Built g) (sh', ReleaseCount (Some (goal_tenant g)) (KSurplus g))) as Hsur.
  { intros sh' Hs Hw. apply balanced_moves; rewrite ?Hw; try done. intros _ t. by rewrite Hw. }
  assert (forall ch k sh', chan_keys (pool sh) !! ch = Some k ->
    try_send conf sh ch (instantiate_detached g) = Some sh' -> balanced sh (Built g) (sh', WarmAdd g)) as Hsend.
  { intros ch k sh' Hk Hs. apply balanced_moves; try done.
    + by destruct (stored_send _ one _ _ _ _ _ Hk Hs).
    + destruct (stored_send _ one _ _ _ _ _ Hk Hs) as [-> _]. cbn. unfold one. lia.
    + intros _ t. destruct (stored_send _ (of_tenant t) _ _ _ _ _ Hk Hs) as [-> _].
      rewrite (instantiate_tenant _ _ _ _ Hp). cbn. lia. }
  cbn. destruct g as [r o|r c ch i|r c ch|r e]; cbn in Hp.
  - by apply balanced_moves.
  - destruct Hp as (_ & _ & Hk). destruct (try_send _ _ _ _) eqn:Hs; [by eapply Hsend|by apply Hsur].
  - by apply Hsur.
  - destruct ok; [|by apply Hsur]. destruct Hp as (_ & Hk & _).
    destruct (try_send _ _ _ _) eqn:Hs; [by eapply Hsend|by apply Hsur].
Qed.

Lemma release_count_balanced ok sh rollback k :
  shape conf (chan_keys (pool sh)) (cell_keys (pool sh)) (ReleaseCount rollback k) ->
  balanced sh (ReleaseCount rollback k) (tick_build conf ok sh (ReleaseCount rollback k)).
Proof.
  intros Hp.
  destruct Hp as [_ Hrb]. cbn. destruct rollback as [t|].
  - split; cbn; unfold instance_count', tenant_count'; cbn; try done; try lia;
      intros; rewrite (stored_channels _ sh) by done; lia.
  - destruct (resume_idle k (on_slots (add_count (-1)) sh)) as ((Hh & Ho & Hb) & Hs & Hw).
    destruct (resume _ _) as [sh' p']. split; cbn in *; unfold instance_count', tenant_count'; rewrite ?Hs; cbn; try done.
    + rewrite Hw, (stored_channels _ sh), Hh by done. lia.
    + rewrite Hrb by done. by intros [].
    + intros m _. left. rewrite Ho. lia.
Qed.

Lemma release_tenant_balanced ok sh t k :
  shape conf (chan_keys (pool sh)) (cell_keys (pool sh)) (ReleaseTenant t k) ->
  balanced sh (ReleaseTenant t k) (tick_build conf ok sh (ReleaseTenant t k)).
Proof.
  intros Hp.
  cbn. destruct (resume_idle k (on_slots (decrement_tenant_count t) sh)) as ((Hh & Ho & Hb) & Hs & Hw).
  assert (instance_count (decrement_tenant_count t (slots sh)) = instance_count (slots sh)) as Hcount
    by (unfold decrement_tenant_count; by repeat case_match).
  destruct (resume _ _) as [sh' p']. split; cbn in *; unfold instance_count', tenant_count'; rewrite ?Hs; cbn; rewrite ?Hcount; try done.
  - rewrite Hw, (stored_channels _ sh), Hh by done. lia.
  - intros _ Hle t'. rewrite Hw, (stored_channels _ sh), Hb by done. specialize (Hle t). rewrite Z.eqb_refl in Hle.
    rewrite decrement_tenant_count_spec by done. lia.
  - intros m _ Hm Hall t'. pose proof (decrement_tenant_count_le t (slots sh) t') as Hle. specialize (Hall t').
    unfold tenant_count' in Hall. lia.
  - intros _ Hemp. unfold decrement_tenant_count. by rewrite Hemp.
  - intros m _. left. rewrite Ho. lia.
Qed.

Lemma tick_build_balanced ok sh p :
  shape conf (chan_keys (pool sh)) (cell_keys (pool sh)) p -> balanced sh p (tick_build conf ok sh p).
Proof.
  intros Hp. destruct p; try by apply balanced_moves.
  - cbn. destruct ok; [by apply balanced_idle|].
    destruct (failed_idle g Wasmtime sh) as (? & ? & ?). destruct (failed _ _ _). by apply balanced_idle.
  - by apply charge_balanced.
  - by apply charge_tenant_balanced.
  - by apply unadd_balanced.
  - cbn. destruct ok; [by apply balanced_moves|]. apply balanced_moves; try done.
    intros Hcap t. by rewrite rollback_Some.
  - by apply built_balanced.
  - apply balanced_idle; try done. by destruct g.
  - by apply release_count_balanced.
  - by apply release_tenant_balanced.
Qed.

Lemma tick_acquire_balanced sh p : balanced sh p (tick_acquire conf sh p).
Proof.
  destruct p; try by apply balanced_moves.
  - cbn. repeat case_match; by apply balanced_idle.
  - cbn. apply balanced_idle; try done; by case_match.
  - cbn. repeat case_match; by apply balanced_idle.
  - cbn. destruct (cells (pool sh) !! c) as [[k []]|] eqn:Hc; cbn; try by apply balanced_idle.
    apply balanced_idle; try done. intros w. unfold stored, set_cell. cbn -[sumZ]. rewrite Hc. cbn -[sumZ].
    rewrite sumZ_app. cbn. lia.
  - cbn. destruct (try_recv sh (chan e)) as [[inst sh']|] eqn:Hr; [|by apply balanced_idle].
    apply balanced_moves; try done.
    + by destruct (stored_recv one _ _ _ _ Hr).
    + destruct (stored_recv one _ _ _ _ Hr) as [-> _]. cbn. unfold one. lia.
    + intros _ t. destruct (stored_recv (of_tenant t) _ _ _ _ Hr) as [-> _]. cbn. lia.
  - cbn. apply balanced_idle; try done. repeat case_match; done.
  - cbn. apply balanced_idle; try done. intros w. unfold stored, set_cell. cbn. by case_match.
  - cbn. apply balanced_idle; try done. intros w. unfold stored, set_cell. cbn. by case_match.
Qed.

Lemma removed_balanced sh p p' id inst :
  instances (registry sh) !! id = Some inst -> idle p -> holds p' = 1 -> overs p' = 0 ->
  (is_Some (max_instances_per_tenant conf) -> forall t, bills t p' = of_tenant t inst) ->
  balanced sh p (on_registry (remove_instance id) sh, p').
Proof.
  intros Hl (Hh & Ho & Hb) Hh' Ho' Hb'. apply balanced_moves; try done; try congruence.
  - rewrite (stored_remove _ _ _ _ Hl). unfold one. lia.
  - intros Hcap t. rewrite (stored_remove _ _ _ _ Hl), Hb, Hb' by done. lia.
Qed.

Lemma tick_call_balanced sh p :
  shape conf (chan_keys (pool sh)) (cell_keys (pool sh)) p -> id_ok conf (registry sh) p ->
  (forall id, publishing p = Some id -> instances (registry sh) !! id = None) ->
  balanced sh p (tick_call conf sh p).
Proof.
  intros Hp Hid Hpub. assert (forall o id, idle (finish o id)) as Hfin by (by intros []).
  destruct p; try by apply balanced_moves.
  - cbn. destruct (instances _ !! _); by apply balanced_moves.
  - cbn. rewrite Hpub by done. apply balanced_moves; cbn -[sumZ]; try (by destruct (pool_config conf)).
    + unfold stored. cbn -[sumZ]. rewrite sum_map_insert_None by (by apply Hpub). unfold one.
      destruct (pool_config conf); cbn -[sumZ]; lia.
    + intros _ t. unfold stored. cbn -[sumZ]. rewrite sum_map_insert_None by (by apply Hpub).
      destruct (pool_config conf); cbn -[sumZ]; lia.
  - cbn. destruct (instances _ !! id); [by apply balanced_idle|]. by apply balanced_idle.
  - by apply balanced_idle.
  - cbn. destruct (instances _ !! id) eqn:Hl; [|by apply balanced_idle].
    destruct (Hid _ _ eq_refl) as [_ Hs]. destruct (Hs _ Hl) as [[Ht _] Hrb]. rewrite (Hrb _ eq_refl).
    eapply removed_balanced; try done. intros Hcap t. rewrite rollback_Some by done. unfold of_tenant. by rewrite Ht.
  - cbn. destruct (instances _ !! id) eqn:Hl; [|by apply balanced_idle].
    eapply removed_balanced; try done. intros Hcap t. by rewrite rollback_Some.
Qed.

Lemma tick_release_balanced sh p :
  pool_ok (pool sh) -> shape conf (chan_keys (pool sh)) (cell_keys (pool sh)) p ->
  balanced sh p (tick_release conf sh p).
Proof.
  intros Hok Hp. destruct p; try by apply balanced_moves.
  - cbn. destruct (instances _ !! id) eqn:Hl; [|by apply balanced_idle]. by eapply removed_balanced.
  - destruct Hp as [_ [Ht _]]. cbn. case_match; apply balanced_moves; try done.
    + intros _ t. cbn. unfold of_tenant. by rewrite Ht.
    + intros Hcap t. by rewrite rollback_Some.
  - cbn. case_match; by apply balanced_idle.
  - cbn. case_match; by apply balanced_idle.
  - cbn. destruct ks; apply balanced_idle; try done. by case_match.
  - cbn. destruct Hp as [Hk _]. destruct (try_recv sh (chan e)) as [[inst sh']|] eqn:Hr; [|by apply balanced_idle].
    destruct (try_recv_good _ _ _ _ _ _ Hok eq_refl Hk Hr) as ((Ht & _) & _). apply balanced_moves; try done.
    + by destruct (stored_recv one _ _ _ _ Hr).
    + destruct (stored_recv one _ _ _ _ Hr) as [-> _]. cbn. unfold one. lia.
    + intros _ t. destruct (stored_recv (of_tenant t) _ _ _ _ Hr) as [-> _]. cbn. unfold of_tenant. rewrite Ht. lia.
Qed.

Lemma tick_balanced ok sh p :
  pool_ok (pool sh) -> shape conf (chan_keys (pool sh)) (cell_keys (pool sh)) p -> id_ok conf (registry sh) p ->
  (forall id, publishing p = Some id -> instances (registry sh) !! id = None) ->
  balanced sh p (tick conf ok sh p).
Proof.
  intros Hok Hp Hid Hpub. unfold tick. destruct p; try by apply balanced_moves.
  all: try by apply tick_build_balanced.
  all: try by apply tick_acquire_balanced.
  all: try by apply tick_call_balanced.
  all: by apply tick_release_balanced.
Qed.

Lemma cancel_balanced sh p : balanced sh p (cancel conf sh p).
Proof.
  destruct p; try by apply balanced_moves.
  - apply balanced_moves; try done. intros Hcap t. by rewrite rollback_Some.
  - destruct o; by apply balanced_idle.
Qed.
End balance.

(** ** The invariant of every schedule *)

Section invariant.
Context (conf : EngineConfig).

Record inv (n : Z) (st : Shared * list pc) : Prop := {
  v_pool : pool_ok (pool st.1);
  v_shape i p : st.2 !! i = Some p -> shape conf (chan_keys (pool st.1)) (cell_keys (pool st.1)) p;
  v_ids : ids_ok conf n (registry st.1) st.2;
  v_nopool : pool_config conf = None -> channels (pool st.1) = [] /\ orphans (registry st.1) = ∅;
  v_count : instance_count' st.1 = stored one st.1 + sumZ holds st.2;
  v_tenant : is_Some (max_instances_per_tenant conf) -> forall t,
    tenant_count' st.1 t = stored (of_tenant t) st.1 + sumZ (bills t) st.2;
  v_tcap m : max_instances_per_tenant conf = Some m -> 0 <= m -> forall t, tenant_count' st.1 t <= m;
  v_tnone : max_instances_per_tenant conf = None -> tenant_counts (slots st.1) = ∅;
  v_cap m : max_instances conf = Some m -> 0 <= m -> instance_count' st.1 - sumZ overs st.2 <= m;
}.

Lemma stored_nonneg w sh : (forall inst, 0 <= w inst) -> 0 <= stored w sh.
Proof.
  intros Hw. unfold stored. apply Z.add_nonneg_nonneg; [by apply sum_map_nonneg|].
  apply sumZ_nonneg, Forall_forall. intros c _. apply sumZ_nonneg, Forall_forall. auto.
Qed.

Lemma of_tenant_nonneg t inst : 0 <= of_tenant t inst.
Proof. unfold of_tenant. case_match; lia. Qed.

Lemma bills_nonneg t p : 0 <= bills t p.
Proof. destruct p; cbn; try destruct rollback; try apply of_tenant_nonneg; repeat case_match; lia. Qed.

Lemma inv_advance n st i p st' :
  inv n st -> st.2 !! i = Some p ->
  good conf (pool st.1) st' -> balanced conf st.1 p st' ->
  ids_ok conf (n + 1) (registry st'.1) (<[i := st'.2]> st.2) ->
  (pool_config conf = None -> channels (pool st'.1) = [] /\ orphans (registry st'.1) = ∅) ->
  inv (n + 1) (st'.1, <[i := st'.2]> st.2).
Proof.
  intros [Hpool Hshape Hids Hno Hc Ht Htc Htn Hcap] Hi (Hg1 & Hg2 & Hg3 & Hg4) [Bc Bt Btc Btn Bcap] Hids' Hno'.
  assert (forall t, 0 <= sumZ (bills t) st.2) as Hbn
    by (intros t; apply sumZ_nonneg, Forall_forall; intros; apply bills_nonneg).
  split; cbn [fst snd]; try done; rewrite ?(sumZ_insert _ _ _ _ _ Hi).
  - intros j q [(<- & <- & _)|[_ Hj]]%list_lookup_insert_Some; [done|]. eapply shape_mono; [done..|by eapply Hshape].
  - lia.
  - intros Hs t. rewrite (sumZ_insert _ _ _ _ _ Hi). pose proof (Ht Hs t). specialize (Bt Hs).
    enough (forall t, bills t p <= tenant_count' st.1 t) as Hle by (specialize (Bt Hle t); lia).
    intros t'. rewrite (Ht Hs t').
    pose proof (sumZ_lookup_le (bills t') _ _ _ (fun q _ => bills_nonneg t' q) Hi).
    pose proof (stored_nonneg (of_tenant t') st.1 (of_tenant_nonneg t')). lia.
  - intros m Hm H0. by apply (Btc m Hm H0), Htc.
  - auto.
  - intros m Hm H0. specialize (Hcap m Hm H0).
    assert (overs p <= sumZ overs st.2) by (eapply sumZ_lookup_le; [|done]; intros [] _; cbn; try case_match; lia).
    destruct (Bcap m Hm); lia.
Qed.

Lemma failed_pool g e sh : pool (failed g e sh).1 = pool sh.
Proof. by destruct g. Qed.

Lemma resume_pool k sh : pool (resume k sh).1 = pool sh.
Proof. destruct k as [|[]|g e|[]|r [h|]|]; cbn; try done; try apply failed_pool; by destruct (streaming (cfg r)). Qed.

Lemma set_channel_none ch q P : channels P = [] -> channels (set_channel ch q P) = [].
Proof. intros Hc. unfold set_channel. by rewrite Hc, lookup_nil. Qed.

(** Without a pool no channel appears and nobody is orphaned. *)
Lemma tick_nopool ok sh p :
  shape conf (chan_keys (pool sh)) (cell_keys (pool sh)) p -> pool_config conf = None ->
  channels (pool sh) = [] -> orphans (registry sh) = ∅ ->
  channels (pool (tick conf ok sh p).1) = [] /\ orphans (registry (tick conf ok sh p).1) = ∅.
Proof.
  intros Hp Hn Hc Ho.
  assert (forall ch inst sh', try_send conf sh ch inst = Some sh' -> channels (pool sh') = [] /\ orphans (registry sh') = ∅) as Hsend.
  { unfold try_send. intros ch inst sh' Hs. case_bool_decide; simplify_eq. split; [by apply set_channel_none|done]. }
  assert (forall ch inst sh', try_recv sh ch = Some (inst, sh') -> channels (pool sh') = [] /\ orphans (registry sh') = ∅) as Hrecv.
  { unfold try_recv, queue_of. intros ch inst sh' Hs. by rewrite Hc in Hs. }
  assert (forall k f, orphans (registry (resume k (on_slots f sh)).1) = ∅) as Hres
    by (intros k f; by rewrite (proj2 (resume_idless k _))).
  assert (forall g e f, orphans (registry (failed g e (on_slots f sh)).1) = ∅) as Hfail
    by (intros g e f; by rewrite (proj2 (failed_idless g e _))).
  destruct p; cbn in Hp |- *; rewrite ?resume_pool, ?failed_pool; try done.
  all: try (by destruct Hp as [[? ?] _]; congruence).
  all: try (by split; [|apply Hres || apply Hfail]).
  all: unfold set_cell; repeat (case_match; cbn); rewrite ?resume_pool, ?failed_pool; eauto; try by split.
  all: try (by rewrite (proj2 (failed_idless _ _ _))).
Qed.

Lemma tick_inv n ok i st : inv n st -> n < u64_max -> inv (n + 1) (advance (tick conf ok) i st).
Proof.
  intros Hinv Hn. unfold advance. destruct (st.2 !! i) as [p|] eqn:Hi.
  2: { destruct Hinv as [? ? [] ?]. do 2 (split; try done). lia. }
  pose proof Hinv as [Hpool Hshape Hids Hno _ _ _ _ _]. specialize (Hshape _ _ Hi).
  pose proof (d_refers _ _ _ _ Hids _ _ Hi) as Hid.
  pose proof (inv_advance n st i p (tick conf ok st.1 p) Hinv Hi) as Hadv.
  destruct (tick conf ok st.1 p) as [sh' p'] eqn:Ht. apply Hadv; rewrite <-Ht.
  - by apply tick_good.
  - apply tick_balanced; try done. intros id Hp. by apply (d_publishing _ _ _ _ Hids _ _ _ Hi Hp).
  - by apply tick_ids.
  - intros Hnone. destruct (Hno Hnone). by apply tick_nopool.
Qed.

Lemma ids_mono n g ts : ids_ok conf n g ts -> ids_ok conf (n + 1) g ts.
Proof. intros []. split; try done. lia. Qed.

Lemma cancel_inv n i st : inv n st -> inv (n + 1) (advance (cancel conf) i st).
Proof.
  intros Hinv. unfold advance. destruct (st.2 !! i) as [p|] eqn:Hi.
  2: { destruct Hinv as [? ? [] ?]. do 2 (split; try done). lia. }
  pose proof Hinv as [Hpool Hshape Hids Hno _ _ _ _ _]. specialize (Hshape _ _ Hi).
  pose proof (d_refers _ _ _ _ Hids _ _ Hi) as Hid.
  pose proof (inv_advance n st i p (cancel conf st.1 p) Hinv Hi) as Hadv.
  destruct (cancel conf st.1 p) as [sh' p'] eqn:Ht. apply Hadv; rewrite <-Ht; clear Hadv Ht.
  - by apply cancel_good.
  - apply cancel_balanced.
  - apply ids_mono. destruct p; try (by rewrite list_insert_id); cbn; try (by eapply ids_quiet; naive_solver).
    destruct o; cbn; eapply ids_quiet; try done; try naive_solver; set_solver.
  - intros Hnone. destruct (Hno Hnone). destruct p; try done. destruct o; try done.
    destruct Hshape as [[? ?] _]. congruence.
Qed.

Lemma executor_start_inv n i q st :
  inv n st -> idle q -> publishing q = None -> refers q = None ->
  shape conf (chan_keys (pool st.1)) (cell_keys (pool st.1)) q -> inv (n + 1) (start st i q).
Proof.
  intros Hinv Hidle Hpub Href Hq.
  assert (inv (n + 1) st) as Hm by (destruct Hinv; split; try done; by apply ids_mono).
  unfold start. destruct (st.2 !! i) as [p|] eqn:Hi; [|done]. destruct (at_rest p) eqn:Hr; [|done].
  destruct p; try done. apply (inv_advance n st i _ (st.1, q) Hinv Hi).
  - by apply good_keys; [apply Hinv|..].
  - by apply balanced_idle.
  - apply ids_mono. destruct Hinv. eapply ids_quiet; try done.
    + unfold id_ok. naive_solver congruence.
    + unfold id_ok. naive_solver congruence.
  - apply Hinv.
Qed.

Lemma exec_inv n st ev : inv n st -> n < u64_max -> inv (n + 1) (exec conf st ev).
Proof.
  intros Hinv Hn. destruct ev; cbn.
  - by apply tick_inv.
  - by apply cancel_inv.
  - unfold invoke. destruct (pool_config conf) eqn:Hp; apply executor_start_inv; try done. by exists i0.
  - by apply executor_start_inv.
  - by apply executor_start_inv.
  - by apply executor_start_inv.
Qed.

Lemma executor_run_inv n st evs :
  inv n st -> n + Z.of_nat (length evs) <= u64_max -> inv (n + Z.of_nat (length evs)) (run conf evs st).
Proof.
  unfold run. revert n st. induction evs as [|ev evs IH]; intros n st Hinv Hn; cbn [foldl length].
  - by rewrite Z.add_0_r.
  - cbn [length] in Hn. replace (n + Z.of_nat (S (length evs))) with (n + 1 + Z.of_nat (length evs)) by lia.
    apply IH; [|lia]. apply exec_inv; [done|lia].
Qed.

Lemma executor_initial_inv k : inv 1 (initial k).
Proof.
  assert (forall i p, replicate k (Done None) !! i = Some p -> p = Done None) as Hd
    by (intros i p [-> _]%lookup_replicate; done).
  assert (forall f : pc -> Z, f (Done None) = 0 -> sumZ f (replicate k (Done None)) = 0) as Hz
    by (intros f Hf; apply sumZ_all_zero; by intros p [-> _]%elem_of_replicate).
  split; cbn -[sumZ]; try done.
  - by intros i p ->%Hd.
  - split; cbn; try done.
    + by intros i p ->%Hd.
    + by intros i p id ->%Hd.
    + by intros i j p q id _ ->%Hd.
  - by rewrite Hz.
  - intros _ t. by rewrite Hz.
  - intros m _ H0. by rewrite Hz.
Qed.
End invariant.

Lemma run_initial_inv conf k evs :
  Z.of_nat (length evs) < u64_max -> inv conf (1 + Z.of_nat (length evs)) (run conf evs (initial k)).
Proof. intros Hn. apply executor_run_inv; [apply executor_initial_inv|lia]. Qed.

Lemma at_rest_sum (f : pc -> Z) ts :
  (forall e, f (Done e) = 0) -> forallb at_rest ts = true -> sumZ f ts = 0.
Proof.
  intros Hf Hr. apply sumZ_all_zero. intros p Hp. rewrite forallb_forall in Hr.
  apply list_elem_of_In in Hp. specialize (Hr _ Hp). by destruct p.
Qed.

(** *** The instances that exist

    A channel, and the instances in it, live as long as something refers to it:
    an entry of the pool, a cell that is set and still known, or a task. *)
Definition goal_cells (g : goal) : list nat := match g with GWarm _ c _ _ | GModule _ c _ => [c] | _ => [] end.
Definition goal_chans (g : goal) : list nat :=
  match g with GWarm _ _ ch _ | GModule _ _ ch => [ch] | GReset _ e => [chan e] | GSpawn _ _ => [] end.

Definition cont_cells (k : cont) : list nat :=
  match k with KSurplus g | KFailed g _ | KCancelled g => goal_cells g | _ => [] end.
Definition cont_chans (k : cont) : list nat :=
  match k with KSurplus g | KFailed g _ | KCancelled g => goal_chans g | KShut _ e _ => [chan e] | _ => [] end.

Definition task_cells (p : pc) : list nat :=
  match p with
  | CellWait _ c | BuildLoop _ c _ _ | InsertEntry _ c _ | CellSet _ c _ | CellAbort c _ => [c]
  | Precheck g | Charge g | ChargeTenant g | Unadd g _ _ | Building g | Built g | WarmAdd g => goal_cells g
  | ReleaseCount _ k | ReleaseTenant _ k => cont_cells k
  | _ => []
  end.
Definition task_chans (p : pc) : list nat :=
  match p with
  | BuildLoop _ _ ch _ | InsertEntry _ _ ch => [ch]
  | CellSet _ _ e | CellDone _ e | TryRecv _ e | WarmCheck _ e | ShutRecv _ e _ | ShutWarm _ e _ => [chan e]
  | Precheck g | Charge g | ChargeTenant g | Unadd g _ _ | Building g | Built g | WarmAdd g => goal_chans g
  | ReleaseCount _ k | ReleaseTenant _ k => cont_chans k
  | _ => []
  end.

Definition known_cells (st : Shared * list pc) : list nat :=
  (map_to_list (inflight (pool st.1))).*2 ++ concat (task_cells <$> st.2).
Definition entry_chan (sh : Shared) (c : nat) : option nat :=
  match cell <$> cells (pool sh) !! c with Some (Set_ e) => Some (chan e) | _ => None end.
Definition alive (st : Shared * list pc) : list nat :=
  (chan <$> (map_to_list (pools (pool st.1))).*2) ++ omap (entry_chan st.1) (known_cells st) ++ concat (task_chans <$> st.2).

(** An instance in the hands of a task. *)
Definition carried (w : Instance -> Z) (p : pc) : Z :=
  match p with
  | WarmSub _ inst | Allocate _ _ inst _ | Publish _ _ inst _ _ | TryUnwrap _ _ _ inst => w inst
  | Built g => w (instantiate_detached g)
  | _ => 0
  end.

(** [w] of the instances in the channels that satisfy [b]. *)
Definition queued (w : Instance -> Z) (b : nat -> bool) (sh : Shared) : Z :=
  sumZ (fun ch => if b ch then sumZ w (queue_of sh ch) else 0) (seq 0 (length (channels (pool sh)))).

(** The instances that exist, and the slots that are still charged for
    instances that went with their channel. *)
Definition existing (w : Instance -> Z) (st : Shared * list pc) : Z :=
  sum_map w (instances (registry st.1)) + queued w (fun ch => bool_decide (ch ∈ alive st)) st.1 + sumZ (carried w) st.2.
Definition stranded (w : Instance -> Z) (st : Shared * list pc) : Z :=
  queued w (fun ch => negb (bool_decide (ch ∈ alive st))) st.1.




(** What one access of a task may make known: it takes its references from the
    ones there were, or makes a new cell or channel. *)
Record refs_from (sh : Shared) (p : pc) (st : Shared * pc) : Prop := {
  rf_cells c : c ∈ task_cells st.2 ->
    c ∈ task_cells p \/ (exists k, inflight (pool sh) !! k = Some c) \/ (length (cells (pool sh)) <= c)%nat;
  rf_chans ch : ch ∈ task_chans st.2 ->
    ch ∈ task_chans p \/ (exists k e, pools (pool sh) !! k = Some e /\ chan e = ch) \/
    (exists c, c ∈ task_cells p /\ entry_chan sh c = Some ch) \/ (length (channels (pool sh)) <= ch)%nat;
  rf_inflight k c : inflight (pool st.1) !! k = Some c ->
    inflight (pool sh) !! k = Some c \/ (length (cells (pool sh)) <= c)%nat;
  rf_pools k e : pools (pool st.1) !! k = Some e -> pools (pool sh) !! k = Some e \/ chan e ∈ task_chans p;
  rf_set c ch : entry_chan st.1 c = Some ch -> entry_chan sh c = Some ch \/ ch ∈ task_chans p;
}.

Lemma refs_same sh p sh' p' :
  pools (pool sh') = pools (pool sh) -> inflight (pool sh') = inflight (pool sh) -> cells (pool sh') = cells (pool sh) ->
  task_cells p' ⊆ task_cells p -> task_chans p' ⊆ task_chans p -> refs_from sh p (sh', p').
Proof.
  intros Hp Hi Hc Hcs Hchs. split; cbn [fst snd]; rewrite ?Hp, ?Hi; unfold entry_chan; rewrite ?Hc; auto.
Qed.

Lemma set_channel_pools ch q P : pools (set_channel ch q P) = pools P /\ inflight (set_channel ch q P) = inflight P /\
  cells (set_channel ch q P) = cells P.
Proof. unfold set_channel. by case_match. Qed.

Lemma set_cell_pools c o P : pools (set_cell c o P) = pools P /\ inflight (set_cell c o P) = inflight P.
Proof. unfold set_cell. by case_match. Qed.

Lemma entry_chan_set_cell c o sh c' ch :
  entry_chan (on_pool (set_cell c o) sh) c' = Some ch -> entry_chan sh c' = Some ch \/ exists e, o = Set_ e /\ chan e = ch.
Proof.
  unfold entry_chan, set_cell. cbn. destruct (cells (pool sh) !! c) as [x|] eqn:Hc; [|by left]. cbn.
  destruct (decide (c' = c)) as [->|Hne]; [|rewrite list_lookup_insert_ne by done; by left].
  rewrite list_lookup_insert_eq by (by eapply lookup_lt_Some). cbn. destruct o; try done. intros [= <-]. right. by eexists.
Qed.

Lemma refs_set_cell c o sh p p' :
  (forall e, o = Set_ e -> chan e ∈ task_chans p) -> task_cells p' ⊆ task_cells p ->
  (forall ch, ch ∈ task_chans p' -> ch ∈ task_chans p \/ (length (channels (pool sh)) <= ch)%nat) ->
  refs_from sh p (on_pool (set_cell c o) sh, p').
Proof.
  intros Ho Hcs Hchs. destruct (set_cell_pools c o (pool sh)) as [Hp Hi].
  split; cbn [fst snd on_pool pool]; rewrite ?Hp, ?Hi; auto.
  - intros ch [?|?]%Hchs; auto.
  - intros c' ch [?|(e & -> & <-)]%entry_chan_set_cell; auto.
Qed.

(** A task that takes an entry out of the pool or of its cell. *)
Lemma refs_entry sh p p' e :
  (exists k, pools (pool sh) !! k = Some e) \/ (exists c, c ∈ task_cells p /\ entry_chan sh c = Some (chan e)) ->
  task_cells p' = [] -> task_chans p' = [chan e] -> refs_from sh p (sh, p').
Proof.
  intros He Hc Hch. split; cbn [fst snd]; rewrite ?Hc, ?Hch; auto; intros x Hx; [by apply elem_of_nil in Hx|].
  apply list_elem_of_singleton in Hx as ->. destruct He as [[k Hk]|?]; eauto 10.
Qed.

Lemma tick_refs conf ok sh p : refs_from sh p (tick conf ok sh p).
Proof.
  destruct p; cbn -[set_cell]; unfold try_send, try_recv, resume; repeat case_match; simplify_eq; unfold failed, built_next, finish;
    repeat case_match; simplify_eq;
    try (apply refs_same; cbn; rewrite ?(proj1 (set_channel_pools _ _ _)), ?(proj1 (proj2 (set_channel_pools _ _ _))),
           ?(proj2 (proj2 (set_channel_pools _ _ _))); done || set_solver);
    try (by eapply refs_entry; eauto).
  - split; cbn; [|set_solver|auto..]. intros c ->%list_elem_of_singleton. eauto.
  - split; cbn; [|set_solver| |auto|].
    + intros c ->%list_elem_of_singleton. auto.
    + intros k c [[<- <-]|[_ ?]]%lookup_insert_Some; auto.
    + intros c ch. unfold entry_chan. cbn. destruct (decide (c < length (cells (pool sh)))%nat).
      * rewrite lookup_app_l by done. auto.
      * rewrite lookup_app_r by lia. destruct (_ - _)%nat as [|[]]; done.
  - destruct (set_cell_pools c Initializing (pool (on_pool (fun p => mkPool (pools p) (inflight p) (cells p)
      (channels p ++ [mkChannel (key_of r) []]) (warm_total p)) sh))) as [Hp Hi].
    split; cbn -[set_cell] in *; rewrite ?Hp, ?Hi; auto.
    + intros ch ->%list_elem_of_singleton. auto 6.
    + intros c' ch Hc. left. by destruct (entry_chan_set_cell c Initializing (on_pool (fun p => mkPool (pools p) (inflight p)
        (cells p) (channels p ++ [mkChannel (key_of r) []]) (warm_total p)) sh) c' ch Hc) as [|(? & ? & _)].
  - eapply refs_entry; [right; exists c; split; [by left|]; unfold entry_chan; by rewrite H|done..].
  - split; cbn; auto. intros k c [_ ?]%lookup_delete_Some. auto.
  - split; cbn; auto. intros k e [[<- <-]|[_ ?]]%lookup_insert_Some; cbn; auto. right. by left.
  - apply refs_set_cell; cbn; [intros ? [= ->]; by left|set_solver|auto].
  - apply refs_set_cell; cbn; set_solver.
Qed.

Lemma cancel_refs conf sh p : refs_from sh p (cancel conf sh p).
Proof. destruct p; cbn; repeat case_match; apply refs_same; cbn; done || set_solver. Qed.

Lemma elem_of_concat {A} (f : A -> list nat) (l : list A) x : x ∈ concat (f <$> l) <-> exists a, a ∈ l /\ x ∈ f a.
Proof.
  induction l as [|a l IH]; cbn; [|rewrite elem_of_app, IH]; [|set_solver].
  split; [by intros ?%elem_of_nil|by intros (a & ?%elem_of_nil & _)].
Qed.

Lemma elem_of_values {K} `{Countable K} {A} (m : gmap K A) x : x ∈ (map_to_list m).*2 <-> exists k, m !! k = Some x.
Proof.
  rewrite list_elem_of_fmap. split; [intros ([k y] & -> & Hk); exists k|intros [k Hk]; exists (k, x); split; [done|]];
    by apply elem_of_map_to_list in Hk || apply elem_of_map_to_list.
Qed.

Lemma elem_of_alive st ch :
  ch ∈ alive st <->
  (exists k e, pools (pool st.1) !! k = Some e /\ chan e = ch) \/
  (exists c, ((exists k, inflight (pool st.1) !! k = Some c) \/ exists p, p ∈ st.2 /\ c ∈ task_cells p) /\
     entry_chan st.1 c = Some ch) \/
  exists p, p ∈ st.2 /\ ch ∈ task_chans p.
Proof.
  unfold alive, known_cells. rewrite !elem_of_app, list_elem_of_omap, list_elem_of_fmap, elem_of_concat.
  setoid_rewrite elem_of_app. setoid_rewrite elem_of_values. setoid_rewrite elem_of_concat. naive_solver.
Qed.

Lemma advance_alive f i st ch :
  (forall p, refs_from st.1 p (f st.1 p)) -> (ch < length (channels (pool st.1)))%nat ->
  ch ∈ alive (advance f i st) -> ch ∈ alive st.
Proof.
  intros Hf Hch. unfold advance. destruct (st.2 !! i) as [p|] eqn:Hi; [|done]. specialize (Hf p).
  pose proof (list_elem_of_lookup_2 _ _ _ Hi) as Hin. destruct (f st.1 p) as [sh' p']. destruct Hf as [Hcs Hchs Hif Hp Hs].
  cbn [fst snd] in *. rewrite !elem_of_alive. cbn [fst snd].
  assert (forall c, entry_chan st.1 c = Some ch -> (c < length (cells (pool st.1)))%nat) as Hlt.
  { intros c. unfold entry_chan. destruct (cells (pool st.1) !! c) eqn:Hc; [|done]. intros _. by eapply lookup_lt_Some. }
  assert (forall q, q ∈ <[i := p']> st.2 -> q = p' \/ q ∈ st.2) as Hq.
  { intros q [j Hj]%list_elem_of_lookup. destruct (decide (j = i)) as [->|Hne].
    - rewrite list_lookup_insert_eq in Hj by (by eapply lookup_lt_Some). left. congruence.
    - rewrite list_lookup_insert_ne in Hj by done. right. by eapply list_elem_of_lookup_2. }
  intros [(k & e & [?|?]%Hp & <-)|[(c & Hknown & [Hset|?]%Hs)|(q & [-> |?]%Hq & Hqc)]]; eauto 10.
  - right; left. exists c. split; [|done]. specialize (Hlt c Hset).
    destruct Hknown as [[k [?|?]%Hif]|(q & [-> |?]%Hq & Hqc)]; eauto; [lia|].
    apply Hcs in Hqc as [?|[?|?]]; [eauto..|lia].
  - apply Hchs in Hqc as [?|[?|[(c & ? & ?)|?]]]; [eauto 10..|lia].
Qed.

(** A channel that nothing refers to is never referred to again: the instances
    it holds are gone. *)
Lemma stranded_forever conf st ev ch :
  (ch < length (channels (pool st.1)))%nat -> ch ∉ alive st -> ch ∉ alive (exec conf st ev).
Proof.
  intros Hlt Hno Hch. apply Hno. revert Hch.
  assert (forall i p, task_cells p = [] -> task_chans p = [] -> ch ∈ alive (start st i p) -> ch ∈ alive st) as Hstart.
  { intros i p Hc Hchs. unfold start. destruct (st.2 !! i) as [q|] eqn:Hi; [|done]. destruct (at_rest q); [|done].
    intros Ha. apply (advance_alive (fun sh _ => (sh, p)) i st ch); [|done|].
    - intros p0. by apply refs_same; rewrite ?Hc, ?Hchs; try apply list_subseteq_nil.
    - unfold advance. by rewrite Hi. }
  destruct ev; cbn [exec]; try (apply Hstart; unfold invoke; by try case_match);
    apply advance_alive; auto using tick_refs, cancel_refs.
Qed.

(** C27: an invoke runs on its own instance.  In every interleaving, whenever a
    call is made for a request, the instance it runs on (pulled from a warm
    channel or freshly spawned) was built for the request's tenant, from the
    request's module, with the request's streaming channel and staged input.
    The deadline is not among them: a warm instance keeps the one it was built
    with. *)
Theorem pool_serves_own_request conf k evs i p id r inst :
  Z.of_nat (length evs) < u64_max ->
  (run conf evs (initial k)).2 !! i = Some p -> refers p = Some (id, r) ->
  instances (registry (run conf evs (initial k)).1) !! id = Some inst ->
  serves r inst.
Proof.
  intros Hn Hi Hp Hl. pose proof (run_initial_inv conf k evs Hn) as Hinv.
  by apply (d_refers _ _ _ _ (v_ids _ _ _ Hinv) _ _ Hi _ _ Hp).
Qed.

(** without a pool nothing is left behind.  When every task has ended,
    also the ones whose future was dropped while compiling, instantiating or
    running the guest, no instance is registered and both counters are zero. *)
Theorem no_pool_no_leak conf k evs :
  pool_config conf = None -> Z.of_nat (length evs) < u64_max ->
  let '(sh, ts) := run conf evs (initial k) in
  forallb at_rest ts = true ->
  instances (registry sh) = ∅ /\ instance_count (slots sh) = 0 /\
  forall t, tenant_count (tenant_counts (slots sh)) t = 0.
Proof.
  intros Hp Hn. pose proof (run_initial_inv conf k evs Hn) as Hinv. destruct (run conf evs (initial k)) as [sh ts].
  intros Hr. destruct Hinv as [_ _ Hids Hno Hc Ht _ Htn _]. cbn [fst snd] in *. destruct (Hno Hp) as [Hch Ho].
  assert (instances (registry sh) = ∅) as Hi.
  { apply map_empty. intros id. apply eq_None_not_Some. intros [inst Hl].
    destruct (d_owned _ _ _ _ Hids _ _ Hl) as [Hx|(j & q & Hj & Hq)]; [set_solver|].
    rewrite forallb_forall in Hr. specialize (Hr q). rewrite <-list_elem_of_In in Hr.
    by destruct q; try (specialize (Hr (list_elem_of_lookup_2 _ _ _ Hj))). }
  assert (forall w, stored w sh = 0) as Hst by (intros w; unfold stored; by rewrite Hi, Hch, sum_map_empty).
  unfold instance_count', tenant_count' in *. split_and!; [done| |].
  - by rewrite Hc, Hst, at_rest_sum.
  - intros t. destruct (max_instances_per_tenant conf) eqn:Hm.
    + by rewrite Ht, Hst, at_rest_sum.
    + unfold tenant_count. by rewrite Htn.
Qed.

Definition ticks (i n : nat) : list event := replicate n (Tick i true).
Definition sample (t : Z) (d : option Z) : request := mkRequest (mkSpawn t d None []) (bytes_of "m").

(** Two tenants and one slot: one runs, the other is refused. *)
Definition contended : list event :=
  [Invoke 0 (sample 7 None); Invoke 1 (sample 8 None)] ++ ticks 0 4 ++ ticks 1 4 ++ ticks 0 4.


Lemma pool_serves_own_request_witness :
  exists inst, serves (sample 7 (Some 5)) inst.
Proof.
  exists (mkInstance (mkSpawn 7 None None []) (bytes_of "m") false).
  apply (pool_serves_own_request (mkEngine None None (Some (mkPoolConfig 1 0))) 1
    ([Invoke 0 (sample 7 None)] ++ ticks 0 60 ++ [Invoke 0 (sample 7 (Some 5))] ++ ticks 0 6)
    0 (CallGet (OPool (sample 7 (Some 5)) (Some (bytes_of "m"))) 2) 2); by vm_compute.
Defined.

Lemma no_pool_no_leak_witness :
  instance_count (slots (run (mkEngine (Some 1) (Some 1) None) (contended ++ [Cancel 0] ++ ticks 0 10) (initial 2)).1) = 0.
Proof.
  pose proof (no_pool_no_leak (mkEngine (Some 1) (Some 1) None) 2 (contended ++ [Cancel 0] ++ ticks 0 10)
    eq_refl ltac:(vm_compute; reflexivity)) as Hend.
  assert (forallb at_rest (run (mkEngine (Some 1) (Some 1) None) (contended ++ [Cancel 0] ++ ticks 0 10) (initial 2)).2 = true)
    as Hrest by (vm_compute; reflexivity).
  destruct (run _ _ _) as [sh ts]. by apply Hend.
Defined.

(** ** What the pool loses

    In the schedules below every task ends and the pool is shut down: whether
    all tasks ended, the counter, the instances that exist and the slots of
    stranded ones. *)

Definition at_end (conf : EngineConfig) (evs : list event) (k : nat) : bool * Z * Z * Z :=
  let st := run conf evs (initial k) in
  (forallb at_rest st.2, instance_count (slots st.1), existing one st, stranded one st).

(** A task that missed the pool before another's build finished makes a new
    cell after the other dropped its own, and builds again: the first entry
    is replaced with a warm instance in it, whose slot is never returned. *)
Lemma second_build_strands_instance :
  let conf := mkEngine (Some 2) None (Some (mkPoolConfig 1 0)) in
  let r := sample 7 None in
  at_end conf ([Invoke 0 r] ++ ticks 0 2 ++ [Invoke 1 r] ++ ticks 1 60 ++ ticks 0 60 ++
               [Shutdown 0 [key_of r]] ++ ticks 0 20) 2 = (true, 1, 0, 1).
Proof. vm_compute. reflexivity. Qed.

(** A pre-spawn loop that fails after its first instance drops the channel
    and keeps the slots: with one slot and two warm instances per tuple, the
    first invoke fails and every later one, of any tenant, is refused. *)
Lemma failed_build_keeps_slots :
  let conf := mkEngine (Some 1) None (Some (mkPoolConfig 2 0)) in
  let evs := [Invoke 0 (sample 7 None)] ++ ticks 0 30 ++ [Shutdown 0 [key_of (sample 7 None)]] ++ ticks 0 20 in
  at_end conf evs 1 = (true, 1, 0, 1) /\
  (run conf (evs ++ [Invoke 0 (sample 8 None)] ++ ticks 0 30) (initial 1)).2 = [Done (Some (CapacityExhausted 2 1))].
Proof. vm_compute. done. Qed.

(** A pooled invoke whose future is dropped mid-call leaves its instance
    registered and its slot taken. *)
Lemma dropped_pooled_invoke_keeps_instance :
  let conf := mkEngine None None (Some (mkPoolConfig 1 0)) in
  at_end conf ([Invoke 0 (sample 7 None)] ++ ticks 0 20 ++ [Cancel 0] ++
               [Shutdown 0 [key_of (sample 7 None)]] ++ ticks 0 20) 1 = (true, 1, 1, 0).
Proof. vm_compute. reflexivity. Qed.

(** A warm instance keeps the deadline of the request that built it: the
    second request asks for 5 and its call gets no limit. *)
Lemma warm_hit_ignores_deadline :
  let conf := mkEngine None None (Some (mkPoolConfig 1 0)) in
  let '(sh, ts) := run conf ([Invoke 0 (sample 7 None)] ++ ticks 0 60 ++ [Invoke 0 (sample 7 (Some 5))] ++ ticks 0 6)
                     (initial 1) in
  refers <$> ts !! 0%nat = Some (Some (2, sample 7 (Some 5))) /\
  (fun inst => effective_call_budget (deadline (built_with inst)) None) <$> instances (registry sh) !! 2 = Some None.
Proof. vm_compute. done. Qed.
End ExecutorFacts.
