(* ===== verification/Auth.v ===== *)
(** * Who may do what at the gateway

    [token_scope.rs], and the authentication and tenant gates of
    [middleware.rs], [rate_limit.rs] and [routes.rs] of tensor-wasm-api: the
    parser of the token allowlist, the bearer layer, the tenant layer, and the
    checks a handler makes before it runs a function.

    A string is the list of its characters (Unicode scalar values). *)

From S2P Require Import Prelude Core.

Module Text.
Abbreviation text := (list Z).

(** The characters of an ASCII literal. *)
Definition chars (s : string) : text := u8_to_Z <$> bytes_of s.

(** [char::is_whitespace]: the Unicode White_Space property. *)
Definition is_whitespace (c : Z) : bool :=
  ((9 <=? c) && (c <=? 13)) || (c =? 32) || (c =? 0x85) || (c =? 0xA0) || (c =? 0x1680) ||
  ((0x2000 <=? c) && (c <=? 0x200A)) || (c =? 0x2028) || (c =? 0x2029) || (c =? 0x202F) ||
  (c =? 0x205F) || (c =? 0x3000).

Fixpoint drop_while (f : Z -> bool) (s : text) : text :=
  match s with
  | c :: s' => if f c then drop_while f s' else s
  | [] => []
  end.

Definition trim_matches (f : Z -> bool) (s : text) : text :=
  reverse (drop_while f (reverse (drop_while f s))).
Definition trim (s : text) : text := trim_matches is_whitespace s.

(** [str::split_once] and [str::split] on a character. *)
Fixpoint split_once (c : Z) (s : text) : option (text * text) :=
  match s with
  | [] => None
  | x :: s =>
      if x =? c then Some ([], s)
      else match split_once c s with Some (a, b) => Some (x :: a, b) | None => None end
  end.

Fixpoint split (c : Z) (s : text) : list text :=
  match s with
  | [] => [[]]
  | x :: s =>
      if x =? c then [] :: split c s
      else match split c s with p :: ps => (x :: p) :: ps | [] => [[x]] end
  end.

Fixpoint join (c : Z) (ps : list text) : text :=
  match ps with
  | [] => []
  | [p] => p
  | p :: ps => p ++ c :: join c ps
  end.

Definition contains (c : Z) (s : text) : bool := existsb (Z.eqb c) s.

Fixpoint starts_with (p s : text) : bool :=
  match p, s with
  | [], _ => true
  | a :: p, b :: s => (a =? b) && starts_with p s
  | _ :: _, [] => false
  end.

(** [u64::from_str]: an optional plus sign, then digits, without overflow. *)
Definition digit (c : Z) : option Z := if (48 <=? c) && (c <=? 57) then Some (c - 48) else None.

Fixpoint parse_digits (acc : Z) (s : text) : option Z :=
  match s with
  | [] => Some acc
  | c :: s =>
      d ← digit c;
      let acc := acc * 10 + d in
      if acc <=? u64_max then parse_digits acc s else None
  end.

Definition parse_u64 (s : text) : option Z :=
  match s with
  | [] => None
  | c :: s' => if c =? 43 then match s' with [] => None | _ => parse_digits 0 s' end else parse_digits 0 s
  end.

(** [eq_ignore_ascii_case]. *)
Definition to_ascii_lowercase (c : Z) : Z := if (65 <=? c) && (c <=? 90) then c + 32 else c.
Definition eq_ignore_ascii_case (a b : text) : bool :=
  bool_decide ((to_ascii_lowercase <$> a) = (to_ascii_lowercase <$> b)).
End Text.

Module TokenScope.
Import Text.

Inductive TenantScope := All | Set_ (ids : gset Z).

#[global] Instance TenantScope_eq_dec : EqDecision TenantScope.
Proof. solve_decision. Defined.

Definition allows (sc : TenantScope) (tenant : Z) : bool :=
  match sc with All => true | Set_ s => bool_decide (tenant ∈ s) end.

Inductive ScopeParseError :=
| EmptyEntry
| MissingBearer
| EmptyTenantList
| InvalidTenant (s : text)
| WildcardMixedWithIds
| UnknownKey (k : text).

(** The loop over the tenant list: was there a wildcard, and which ids. *)
Fixpoint parse_tenants (frags : list text) (saw_wildcard : bool) (ids : gset Z) :
    result ScopeParseError (bool * gset Z) :=
  match frags with
  | [] => Ok (saw_wildcard, ids)
  | raw :: frags =>
      let frag := trim raw in
      if bool_decide (frag = []) then Err (InvalidTenant frag)
      else if bool_decide (frag = chars "*") then parse_tenants frags true ids
      else match parse_u64 frag with
           | Some v => parse_tenants frags saw_wildcard ({[v]} ∪ ids)
           | None => Err (InvalidTenant frag)
           end
  end.

Definition parse_token_entry (s : text) : result ScopeParseError (text * TenantScope) :=
  let trimmed := trim s in
  if bool_decide (trimmed = []) then Err EmptyEntry
  else
    match split_once 58 trimmed with
    | None => Ok (trimmed, All)
    | Some (bearer, rest) =>
        let bearer := trim bearer in
        if bool_decide (bearer = []) then Err MissingBearer
        else
          let rest := trim rest in
          value ← match split_once 61 rest with
                  | Some (key, v) => if bool_decide (key = chars "tenant") then Ok (trim v) else Err (UnknownKey key)
                  | None => Err (UnknownKey rest)
                  end;
          if bool_decide (value = []) then Err EmptyTenantList
          else
            p ← parse_tenants (split 44 value) false ∅;
            let '(saw_wildcard, ids) := p in
            if saw_wildcard && negb (bool_decide (ids = ∅)) then Err WildcardMixedWithIds
            else Ok (bearer, if saw_wildcard then All else Set_ ids)
    end.

Record ParsedTokens := mkParsed { token_scopes : gmap text TenantScope; deprecated_count : Z }.

(** The re-gluing loop over the comma-separated fragments: the entries so
    far, the entry being built, and whether it is inside a tenant list. *)
Record glue := mkGlue { entries : list text; current : text; in_tenant_list : bool }.

Definition flush (g : glue) : list text :=
  if bool_decide (current g = []) then entries g else entries g ++ [current g].

Definition glue_fragment (g : glue) (frag : text) : glue :=
  let trimmed := trim frag in
  if bool_decide (trimmed = []) then mkGlue (flush g) [] false
  else
    let has_colon := contains 58 trimmed in
    let looks_like_tenant_continuation :=
      bool_decide (trimmed = chars "*") || bool_decide (is_Some (parse_u64 trimmed)) in
    if in_tenant_list g && negb has_colon && looks_like_tenant_continuation
    then mkGlue (entries g) (current g ++ 44 :: trimmed) true
    else
      mkGlue (flush g) trimmed
        (has_colon &&
         match split_once 58 trimmed with
         | Some (_, rest) => starts_with (chars "tenant=") (trim rest)
         | None => false
         end).

(** One entry recorded; a malformed one is dropped with a warning. *)
Definition record_entry (out : ParsedTokens) (e : text) : ParsedTokens :=
  match parse_token_entry e with
  | Ok (bearer, sc) =>
      mkParsed (<[bearer := sc]> (token_scopes out))
        (if contains 58 e then deprecated_count out else deprecated_count out + 1)
  | Err _ => out
  end.

Definition parse_tokens_env (env_value : text) : ParsedTokens :=
  let out := mkParsed ∅ 0 in
  if bool_decide (trim env_value = []) then out
  else
    let g := foldl glue_fragment (mkGlue [] [] false) (split 44 env_value) in
    foldl record_entry out (flush g).
End TokenScope.

Module Auth.
Import Text TokenScope.

(** A header value: its length in bytes, and its text if it is visible ASCII
    (what [HeaderValue::to_str] answers). *)
Record HeaderValue := mkHeader { bytes_len : Z; to_str : option text }.

(** What the gates read of a request, in header order. *)
Record Request := mkReq { authorization : list HeaderValue; tenant_headers : list HeaderValue }.

(** A refusal: the HTTP status and the [kind] of the error envelope. *)
Record Response := mkResponse { status : Z; kind : text }.

Definition MAX_AUTH_HEADER_BYTES : Z := 1024.

Record AuthConfig := mkAuthConfig { scopes : gmap text TenantScope; dev_mode_allowed : bool }.

Definition from_env (api_tokens allow_dev_mode : option text) : AuthConfig :=
  mkAuthConfig (token_scopes (parse_tokens_env (default [] api_tokens)))
    match allow_dev_mode with
    | Some v => bool_decide (trim v = chars "1") || eq_ignore_ascii_case (trim v) (chars "true")
    | None => false
    end.

(** Every entry is compared; the loop does not stop at a hit. *)
Definition scope_for (c : AuthConfig) (token : text) : option TenantScope :=
  foldl (fun found '(allow_token, sc) =>
           if bool_decide (length allow_token = length token) && bool_decide (allow_token = token)
           then Some sc else found)
    None (map_to_list (scopes c)).

Definition is_dev_mode (c : AuthConfig) : bool := bool_decide (scopes c = ∅).

Definition and_then {A B} (o : option A) (f : A -> option B) : option B :=
  match o with Some x => f x | None => None end.

Definition is_blank (c : Z) : bool := (c =? 32) || (c =? 9).

Fixpoint span_blank (s : text) : option (text * text) :=
  match s with
  | [] => None
  | c :: s' =>
      if is_blank c then Some ([], s)
      else match span_blank s' with Some (a, b) => Some (c :: a, b) | None => None end
  end.

Definition parse_bearer_credentials (value : text) : option text :=
  if existsb (fun b => negb (b =? 9) && ((b <? 0x20) || (b =? 0x7F))) value then None
  else
    match span_blank value with
    | None => None
    | Some (scheme, rest) =>
        if eq_ignore_ascii_case scheme (chars "bearer") then Some (trim_matches is_blank rest) else None
    end.

(** The bearer layer: the scope it attaches to the request, or its refusal. *)
Definition bearer_auth (c : AuthConfig) (req : Request) : result Response TenantScope :=
  if is_dev_mode c then
    if dev_mode_allowed c then Ok All else Err (mkResponse 401 (chars "unauthorized"))
  else if bool_decide (1 < length (authorization req))%nat then Err (mkResponse 400 (chars "bad_request"))
  else
    let raw_auth := head (authorization req) in
    if match raw_auth with Some v => MAX_AUTH_HEADER_BYTES <? bytes_len v | None => false end
    then Err (mkResponse 401 (chars "invalid_auth"))
    else
      match and_then (and_then raw_auth to_str) parse_bearer_credentials with
      | None | Some [] => Err (mkResponse 401 (chars "unauthorized"))
      | Some token =>
          match scope_for c token with
          | Some sc => Ok sc
          | None => Err (mkResponse 401 (chars "unauthorized"))
          end
      end.

(** The tenant layer. *)
Definition extract_tenant (require_header : bool) (req : Request) : result Response Z :=
  if bool_decide (1 < length (tenant_headers req))%nat then Err (mkResponse 400 (chars "duplicate_tenant_header"))
  else
    match and_then (head (tenant_headers req)) to_str with
    | None => if require_header then Err (mkResponse 400 (chars "missing_tenant")) else Ok 0
    | Some s =>
        match parse_u64 (trim s) with
        | Some v => Ok v
        | None => Err (mkResponse 400 (chars "invalid_tenant"))
        end
    end.

Definition authorize_tenant (sc : TenantScope) (tenant : Z) : result Response () :=
  if allows sc tenant then Ok () else Err (mkResponse 403 (chars "tenant_scope_denied")).

(** The layers in the order they run, then the handler's own check. *)
Definition tenant_gate (c : AuthConfig) (require_header : bool) (req : Request) : result Response Z :=
  sc ← bearer_auth c req;
  tenant ← extract_tenant require_header req;
  u ← authorize_tenant sc tenant;
  Ok tenant.

(** [invoke_function] up to the call: the tenant the function runs for.
    [payload] is what reading the body and its arguments answers. *)
Definition invoke_function (c : AuthConfig) (require_header : bool) (payload : result Response ())
    (functions : gmap Z Z) (id : Z) (req : Request) : result Response Z :=
  tenant ← tenant_gate c require_header req;
  u ← payload;
  owner ← ok_or (mkResponse 404 (chars "not_found")) (functions !! id);
  if owner =? tenant then Ok tenant else Err (mkResponse 403 (chars "tenant_scope_denied")).
End Auth.

Module TextFacts.
Import Text.
#[global] Arguments contains : simpl never.
#[global] Arguments trim : simpl never.

(** Neither end is a blank: [trim] leaves it alone. *)
Definition edges (s : text) : Prop :=
  exists a z, head s = Some a /\ last s = Some z /\ is_whitespace a = false /\ is_whitespace z = false.

Lemma trim_edges s : edges s -> trim s = s.
Proof.
  intros (a & z & Ha & Hz & Hwa & Hwz). unfold trim, trim_matches.
  assert (drop_while is_whitespace s = s) as -> by (destruct s; simplify_eq/=; by rewrite Hwa).
  assert (drop_while is_whitespace (reverse s) = reverse s) as ->; [|apply reverse_involutive].
  rewrite <-head_reverse in Hz. destruct (reverse s); simplify_eq/=. by rewrite Hwz.
Qed.

Lemma edges_nonempty s : edges s -> s <> [].
Proof. by intros (a & z & Ha & _) ->. Qed.

Lemma edges_app a m b : edges a -> edges b -> edges (a ++ m ++ b).
Proof.
  intros (x & _ & Hx & _ & Hwx & _) (_ & z & _ & Hz & _ & Hwz). exists x, z.
  split_and!; try done.
  - destruct a; simplify_eq/=; done.
  - rewrite !last_app, Hz. done.
Qed.

Lemma edges_join c ps : Forall edges ps -> ps <> [] -> edges (join c ps).
Proof.
  induction 1 as [|p ps Hp Hps IH]; [done|]. intros _. destruct ps as [|q ps]; [done|].
  change (edges (p ++ [c] ++ join c (q :: ps))). apply edges_app; [done|]. by apply IH.
Qed.

Lemma contains_app c a b : contains c (a ++ b) = contains c a || contains c b.
Proof. unfold contains. apply existsb_app. Qed.

Lemma contains_cons c x s : contains c (x :: s) = (c =? x) || contains c s.
Proof. done. Qed.

Lemma split_once_app c a b : contains c a = false -> split_once c (a ++ c :: b) = Some (a, b).
Proof.
  induction a as [|x a IH]; cbn; [by rewrite Z.eqb_refl|]. rewrite contains_cons, orb_false_iff.
  intros [Hx Ha]. rewrite Z.eqb_sym, Hx. by rewrite IH.
Qed.

Lemma split_once_None c s : contains c s = false -> split_once c s = None.
Proof.
  induction s as [|x s IH]; cbn; [done|]. rewrite contains_cons, orb_false_iff.
  intros [Hx Hs]. by rewrite Z.eqb_sym, Hx, IH.
Qed.

Lemma split_nonempty c s : split c s <> [].
Proof. destruct s as [|x s]; cbn; [done|]. case_match; [done|]. by case_match. Qed.

Lemma split_app c p s : contains c p = false -> split c (p ++ c :: s) = p :: split c s.
Proof.
  induction p as [|x p IH]; cbn; [by rewrite Z.eqb_refl|]. rewrite contains_cons, orb_false_iff.
  intros [Hx Hp]. by rewrite Z.eqb_sym, Hx, IH.
Qed.

Lemma split_last c p : contains c p = false -> split c p = [p].
Proof.
  induction p as [|x p IH]; cbn; [done|]. rewrite contains_cons, orb_false_iff.
  intros [Hx Hp]. by rewrite Z.eqb_sym, Hx, IH.
Qed.

Lemma split_join c ps : Forall (fun p => contains c p = false) ps -> ps <> [] -> split c (join c ps) = ps.
Proof.
  induction 1 as [|p ps Hp Hps IH]; [done|]. intros _. destruct ps as [|q ps]; [by apply split_last|].
  change (split c (p ++ c :: join c (q :: ps)) = p :: q :: ps). rewrite split_app by done. by rewrite IH.
Qed.

Lemma join_glue c a b l : join c ((a ++ c :: b) :: l) = a ++ c :: join c (b :: l).
Proof. destruct l; [done|]. cbn. by rewrite <-app_assoc. Qed.

(** ** Decimal numbers *)

Fixpoint print_digits (fuel : nat) (n : Z) : text :=
  match fuel with
  | O => [48 + n mod 10]
  | S fuel => if n <? 10 then [48 + n] else print_digits fuel (n / 10) ++ [48 + n mod 10]
  end.

(** Twenty digits hold every [u64]. *)
Definition print_u64 (n : Z) : text := print_digits 19 n.

Definition is_digit (c : Z) : bool := (48 <=? c) && (c <=? 57).

Lemma print_digits_digits fuel n : 0 <= n -> Forall (fun c => is_digit c = true) (print_digits fuel n).
Proof.
  assert (forall m, 0 <= m < 10 -> is_digit (48 + m) = true) as Hd by (unfold is_digit; lia).
  revert n. induction fuel as [|fuel IH]; intros n Hn; cbn -[Z.div Z.modulo].
  - constructor; [|done]. apply Hd. apply Z.mod_pos_bound. lia.
  - case_match; bool_props.
    + constructor; [|done]. apply Hd. lia.
    + apply Forall_app. split; [apply IH; apply Z.div_pos; lia|].
      constructor; [|done]. apply Hd. apply Z.mod_pos_bound. lia.
Qed.

Lemma parse_digits_app acc a b :
  parse_digits acc (a ++ b) = match parse_digits acc a with Some x => parse_digits x b | None => None end.
Proof.
  revert acc. induction a as [|c a IH]; intros acc; cbn; [done|]. destruct (digit c); [|done]. cbn.
  case_match; [apply IH|done].
Qed.

Lemma digit_print m : 0 <= m < 10 -> digit (48 + m) = Some m.
Proof. intros Hm. unfold digit. replace ((48 <=? 48 + m) && (48 + m <=? 57)) with true by lia. f_equal. lia. Qed.

Lemma parse_print_digits fuel n :
  0 <= n <= u64_max -> n < 10 ^ (Z.of_nat fuel + 1) -> parse_digits 0 (print_digits fuel n) = Some n.
Proof.
  revert n. induction fuel as [|fuel IH]; intros n Hn Hf; cbn -[Z.div Z.modulo Z.leb].
  - change (10 ^ (Z.of_nat 0 + 1)) with 10 in Hf. rewrite Z.mod_small, digit_print by lia.
    cbn -[Z.leb]. by rewrite (proj2 (Z.leb_le n _)) by lia.
  - case_match; bool_props.
    + cbn -[Z.leb]. rewrite digit_print by lia. cbn -[Z.leb]. by rewrite (proj2 (Z.leb_le n _)) by lia.
    + pose proof (Z.div_mod n 10 ltac:(lia)). pose proof (Z.mod_pos_bound n 10 ltac:(lia)).
      rewrite parse_digits_app, IH.
      * cbn -[Z.div Z.modulo Z.leb]. rewrite digit_print by lia. cbn -[Z.div Z.modulo Z.leb].
        replace (n / 10 * 10 + n mod 10) with n by lia. by rewrite (proj2 (Z.leb_le n _)) by lia.
      * split; [apply Z.div_pos; lia|lia].
      * apply Z.div_lt_upper_bound; [lia|]. rewrite Nat2Z.inj_succ, Z.add_succ_l, Z.pow_succ_r in Hf by lia. lia.
Qed.

Lemma print_u64_nonempty n : print_u64 n <> [].
Proof. unfold print_u64. cbn. case_match; [done|]. intros [_ ?]%app_eq_nil. done. Qed.

Lemma parse_print_u64 n : 0 <= n <= u64_max -> parse_u64 (print_u64 n) = Some n.
Proof.
  intros Hn. pose proof (print_digits_digits 19 n ltac:(lia)) as Hd.
  pose proof (parse_print_digits 19 n Hn ltac:(lia)) as Hp. fold (print_u64 n) in *.
  pose proof (print_u64_nonempty n). unfold parse_u64. destruct (print_u64 n) as [|c s]; [done|].
  apply Forall_cons in Hd as [Hc _]. unfold is_digit in Hc. bool_props. by rewrite (proj2 (Z.eqb_neq c 43)) by lia.
Qed.

Lemma digits_edges s : s <> [] -> Forall (fun c => is_digit c = true) s -> edges s.
Proof.
  intros Hne Hd. assert (forall c, c ∈ s -> is_whitespace c = false) as Hw.
  { intros c Hc. rewrite Forall_forall in Hd. specialize (Hd c Hc). unfold is_digit in Hd. bool_props.
    unfold is_whitespace. rewrite !orb_false_iff, !andb_false_iff. lia. }
  destruct s as [|a s]; [done|]. destruct (last (a :: s)) as [z|] eqn:Hz; [|by apply last_None in Hz].
  exists a, z. split_and!; try done; apply Hw; [by left|]. by apply last_Some_elem_of.
Qed.

Lemma digits_contains c s : is_digit c = false -> Forall (fun d => is_digit d = true) s -> contains c s = false.
Proof.
  intros Hc. induction 1 as [|d s Hd Hs IH]; [done|]. rewrite contains_cons, IH, orb_false_r.
  apply Z.eqb_neq. intros ->. congruence.
Qed.

Lemma print_u64_facts n :
  0 <= n <= u64_max ->
  edges (print_u64 n) /\ contains 58 (print_u64 n) = false /\ contains 44 (print_u64 n) = false /\
  print_u64 n <> chars "*".
Proof.
  intros Hn. pose proof (print_digits_digits 19 n ltac:(lia)) as Hd. fold (print_u64 n) in Hd.
  split_and!; [apply digits_edges; [apply print_u64_nonempty|done]|by apply digits_contains..|].
  intros Heq. rewrite Heq in Hd. inversion Hd. done.
Qed.
End TextFacts.

Module TokenScopeFacts.
Import Text TextFacts TokenScope.

(** ** The allowlist an operator writes *)

Inductive entry :=
| Bare (bearer : text)
| Scoped (bearer : text) (sc : TenantScope).

Definition bearer_of (e : entry) : text := match e with Bare b | Scoped b _ => b end.
Definition scope_of (e : entry) : TenantScope := match e with Bare _ => All | Scoped _ sc => sc end.

(** A bearer has no comma or colon and does not begin or end with a blank; a
    bare one does not look like an item of a tenant list. *)
Definition entry_ok (e : entry) : Prop :=
  edges (bearer_of e) /\ contains 58 (bearer_of e) = false /\ contains 44 (bearer_of e) = false /\
  match e with
  | Bare b => b <> chars "*" /\ parse_u64 b = None
  | Scoped _ All => True
  | Scoped _ (Set_ ids) => ids <> ∅ /\ forall t, t ∈ ids -> 0 <= t <= u64_max
  end.

Definition items (sc : TenantScope) : list text :=
  match sc with All => [chars "*"] | Set_ ids => print_u64 <$> elements ids end.

(** The comma-separated pieces of an entry, the entry, and the variable. *)
Definition fragments (e : entry) : list text :=
  match e with
  | Bare b => [b]
  | Scoped b sc =>
      match items sc with
      | [] => []
      | x :: xs => (b ++ chars ":tenant=" ++ x) :: xs
      end
  end.
Definition print_entry (e : entry) : text := join 44 (fragments e).
Definition print_env (es : list entry) : text := join 44 (concat (fragments <$> es)).

Definition item_ok (x : text) : Prop :=
  edges x /\ contains 58 x = false /\ contains 44 x = false /\ (x = chars "*" \/ is_Some (parse_u64 x)).

Lemma items_ok e b sc : e = Scoped b sc -> entry_ok e -> items sc <> [] /\ Forall item_ok (items sc).
Proof.
  intros -> (_ & _ & _ & Hsc). destruct sc as [|ids]; cbn in *.
  - split; [done|]. constructor; [|done]. split_and!; try done; [|by left]. exists 42, 42. done.
  - destruct Hsc as [Hne Hr]. split.
    + intros Heq%fmap_nil_inv%elements_empty_inv. by apply Hne, leibniz_equiv.
    + apply Forall_fmap, Forall_forall. intros t Ht%elem_of_elements%Hr.
      destruct (print_u64_facts t Ht) as (? & ? & ? & _). split_and!; try done. right. by rewrite parse_print_u64.
Qed.

(** ** Gluing the pieces back *)

Lemma glue_items xs es cur :
  Forall item_ok xs -> foldl glue_fragment (mkGlue es cur true) xs = mkGlue es (join 44 (cur :: xs)) true.
Proof.
  intros Hxs. revert cur. induction Hxs as [|x xs (Hx & Hc & _ & Hi) _ IH]; intros cur; [done|]. cbn [foldl].
  assert (glue_fragment (mkGlue es cur true) x = mkGlue es (cur ++ 44 :: x) true) as ->.
  { unfold glue_fragment. rewrite (trim_edges _ Hx). rewrite bool_decide_eq_false_2 by (by apply edges_nonempty).
    cbn [in_tenant_list]. rewrite Hc. cbn [negb andb].
    replace (bool_decide (x = chars "*") || bool_decide (is_Some (parse_u64 x))) with true; [done|].
    symmetry. apply orb_true_iff. destruct Hi; [left|right]; by apply bool_decide_eq_true_2. }
  rewrite IH, join_glue. done.
Qed.

Lemma edges_prefixed b x : edges b -> edges x -> edges (b ++ chars ":tenant=" ++ x).
Proof. intros. by apply edges_app. Qed.

Lemma edges_tenant x : edges x -> edges (chars "tenant=" ++ x).
Proof.
  intros (_ & z & _ & Hz & _ & Hw). exists 116, z. split_and!; try done. rewrite last_app, Hz. done.
Qed.

Lemma glue_entry e g :
  entry_ok e ->
  foldl glue_fragment g (fragments e) =
    mkGlue (flush g) (print_entry e) match e with Bare _ => false | Scoped _ _ => true end.
Proof.
  intros Hok. pose proof Hok as (Hb & Hcol & Hcom & Hsc). destruct e as [b|b sc].
  - cbn in *. unfold glue_fragment. rewrite (trim_edges _ Hb), bool_decide_eq_false_2 by (by apply edges_nonempty).
    rewrite Hcol. destruct Hsc as [Hstar Hnum].
    rewrite (bool_decide_eq_false_2 (b = chars "*")) by done.
    rewrite (bool_decide_eq_false_2 (is_Some (parse_u64 b))) by (rewrite Hnum; by intros []).
    by rewrite andb_false_r.
  - destruct (items_ok _ _ _ eq_refl Hok) as [Hne Hitems]. unfold print_entry. cbn [fragments] in *.
    destruct (items sc) as [|x xs]; [done|]. apply Forall_cons in Hitems as [(Hx & _) Hxs]. cbn [foldl].
    assert (glue_fragment g (b ++ chars ":tenant=" ++ x) = mkGlue (flush g) (b ++ chars ":tenant=" ++ x) true) as ->.
    { unfold glue_fragment. rewrite trim_edges by (by apply edges_prefixed).
      rewrite bool_decide_eq_false_2 by (by apply edges_nonempty, edges_prefixed).
      assert (contains 58 (b ++ chars ":tenant=" ++ x) = true) as -> by (rewrite contains_app, orb_true_iff; by right).
      rewrite andb_false_r. change (chars ":tenant=" ++ x) with (58 :: (chars "tenant=" ++ x)).
      rewrite split_once_app by done. rewrite trim_edges by (by apply edges_tenant). done. }
    by apply glue_items.
Qed.

Lemma print_entry_nonempty e : entry_ok e -> print_entry e <> [].
Proof.
  intros Hok. destruct e as [b|b sc].
  - cbn. by apply edges_nonempty, Hok.
  - unfold print_entry. cbn [fragments]. destruct (items_ok _ _ _ eq_refl Hok) as [Hne _].
    destruct (items sc) as [|x [|y ys]]; [done|..]; cbn; intros [_ ?]%app_eq_nil; done.
Qed.

Lemma glue_env es g :
  Forall entry_ok es ->
  flush (foldl glue_fragment g (concat (fragments <$> es))) = flush g ++ (print_entry <$> es).
Proof.
  intros Hes. revert g. induction Hes as [|e es He _ IH]; intros g; [by rewrite app_nil_r|].
  csimpl. rewrite foldl_app, glue_entry, IH by done. unfold flush at 1. cbn [current entries].
  rewrite bool_decide_eq_false_2 by (by apply print_entry_nonempty). by rewrite <-app_assoc.
Qed.

(** ** Parsing one entry *)

Lemma print_scoped b sc :
  items sc <> [] -> print_entry (Scoped b sc) = b ++ 58 :: chars "tenant" ++ 61 :: join 44 (items sc).
Proof.
  unfold print_entry. cbn [fragments]. destruct (items sc) as [|x [|y ys]]; [done|..]; intros _; [done|].
  change (join 44 ((b ++ chars ":tenant=" ++ x) :: y :: ys)) with ((b ++ chars ":tenant=" ++ x) ++ 44 :: join 44 (y :: ys)).
  by rewrite <-!app_assoc.
Qed.

Lemma parse_tenants_print l ids :
  (forall t, t ∈ l -> 0 <= t <= u64_max) ->
  parse_tenants (print_u64 <$> l) false ids = Ok (false, list_to_set l ∪ ids).
Proof.
  revert ids. induction l as [|t l IH]; intros ids Hl; csimpl.
  - f_equal. f_equal. set_solver.
  - destruct (print_u64_facts t (Hl t ltac:(by left))) as (He & _ & _ & Hs).
    rewrite trim_edges, bool_decide_eq_false_2 by (try apply edges_nonempty; done).
    rewrite (bool_decide_eq_false_2 (print_u64 t = chars "*")) by done.
    rewrite parse_print_u64 by (apply Hl; by left). rewrite IH by (intros; apply Hl; by right).
    f_equal. f_equal. set_solver.
Qed.

Lemma parse_items b sc :
  entry_ok (Scoped b sc) ->
  parse_tenants (items sc) false ∅ =
    Ok match sc with All => (true, ∅) | Set_ ids => (false, ids) end.
Proof.
  intros (_ & _ & _ & Hsc). destruct sc as [|ids]; [done|]. cbn in *.
  rewrite parse_tenants_print by (intros t Ht%elem_of_elements; by apply Hsc).
  f_equal. f_equal. apply leibniz_equiv. rewrite list_to_set_elements. set_solver.
Qed.

Lemma parse_print_entry e : entry_ok e -> parse_token_entry (print_entry e) = Ok (bearer_of e, scope_of e).
Proof.
  intros Hok. pose proof Hok as (Hb & Hcol & Hcom & Hsc). unfold parse_token_entry. destruct e as [b|b sc].
  - cbn in *. rewrite trim_edges, bool_decide_eq_false_2 by (try apply edges_nonempty; done).
    by rewrite split_once_None.
  - destruct (items_ok _ _ _ eq_refl Hok) as [Hne Hitems]. rewrite print_scoped by done.
    assert (Forall edges (items sc)) as Hedges by (eapply Forall_impl; [done|]; by intros ? []).
    assert (edges (join 44 (items sc))) as Hj by (by apply edges_join).
    pose proof (edges_tenant _ Hj) as Ht. pose proof (edges_app b [58] _ Hb Ht) as Hall.
    change (b ++ [58] ++ chars "tenant=" ++ join 44 (items sc)) with
      (b ++ 58 :: chars "tenant" ++ 61 :: join 44 (items sc)) in Hall.
    rewrite (trim_edges _ Hall), bool_decide_eq_false_2 by (by apply edges_nonempty).
    cbn [bearer_of scope_of] in *. rewrite split_once_app by done.
    rewrite (trim_edges b), (bool_decide_eq_false_2 (b = [])) by (try apply edges_nonempty; done).
    change (chars "tenant" ++ 61 :: join 44 (items sc)) with (chars "tenant=" ++ join 44 (items sc)).
    rewrite (trim_edges _ Ht). change (chars "tenant=" ++ join 44 (items sc)) with (chars "tenant" ++ 61 :: join 44 (items sc)).
    rewrite split_once_app by done. rewrite bool_decide_eq_true_2 by done.
    rewrite (trim_edges _ Hj). cbn. rewrite (bool_decide_eq_false_2 (join 44 (items sc) = [])) by (by apply edges_nonempty).
    rewrite split_join by (done || (eapply Forall_impl; [exact Hitems|]; by intros ? (? & ? & ? & ?))).
    rewrite (parse_items _ _ Hok). destruct sc; cbn; done.
Qed.

Lemma contains_print_entry e :
  entry_ok e -> contains 58 (print_entry e) = match e with Bare _ => false | Scoped _ _ => true end.
Proof.
  intros Hok. destruct e as [b|b sc]; [apply Hok|]. destruct (items_ok _ _ _ eq_refl Hok) as [Hne _].
  rewrite print_scoped, contains_app, contains_cons by done. by rewrite Z.eqb_refl, orb_true_r.
Qed.

Definition bare_count (es : list entry) : Z :=
  sumZ (fun e => match e with Bare _ => 1 | Scoped _ _ => 0 end) es.

Lemma record_entries es out :
  Forall entry_ok es ->
  foldl record_entry out (print_entry <$> es) =
    mkParsed (foldl (fun m e => <[bearer_of e := scope_of e]> m) (token_scopes out) es)
             (deprecated_count out + bare_count es).
Proof.
  intros Hes. revert out. induction Hes as [|e es He _ IH]; intros out; csimpl.
  - destruct out. cbn. by rewrite Z.add_0_r.
  - rewrite IH. unfold record_entry. rewrite (parse_print_entry _ He), (contains_print_entry _ He). cbn.
    f_equal. unfold bare_count. cbn. destruct e; lia.
Qed.

Lemma fragments_ok e :
  entry_ok e -> fragments e <> [] /\ Forall edges (fragments e) /\ Forall (fun f => contains 44 f = false) (fragments e).
Proof.
  intros Hok. pose proof Hok as (Hb & _ & Hcom & _). destruct e as [b|b sc]; [by split_and!; [|constructor..]|].
  destruct (items_ok _ _ _ eq_refl Hok) as [Hne Hitems]. cbn in *. destruct (items sc) as [|x xs]; [done|].
  apply Forall_cons in Hitems as [(Hx & _ & Hx' & _) Hxs]. split_and!; [done|..]; constructor.
  - by apply edges_prefixed.
  - eapply Forall_impl; [done|]. by intros ? [].
  - rewrite contains_app, Hcom. exact Hx'.
  - eapply Forall_impl; [done|]. by intros ? (? & ? & ? & ?).
Qed.

Lemma parse_env_printed es :
  Forall entry_ok es ->
  parse_tokens_env (print_env es) =
    mkParsed (foldl (fun m e => <[bearer_of e := scope_of e]> m) ∅ es) (bare_count es).
Proof.
  intros Hes. unfold parse_tokens_env, print_env. destruct (decide (es = [])) as [->|Hne]; [done|].
  assert (concat (fragments <$> es) <> []) as Hcat.
  { destruct es as [|e es]; [done|]. apply Forall_cons in Hes as [He _]. csimpl. intros [? _]%app_eq_nil.
    by apply (fragments_ok e He). }
  assert (Forall edges (concat (fragments <$> es)) /\
          Forall (fun f => contains 44 f = false) (concat (fragments <$> es))) as [Hed Hco].
  { rewrite !Forall_concat, !Forall_fmap. split; (eapply Forall_impl; [exact Hes|]); intros e He; by apply fragments_ok. }
  assert (edges (join 44 (concat (fragments <$> es)))) as Hj by (by apply edges_join).
  rewrite bool_decide_eq_false_2 by (rewrite trim_edges by done; by apply edges_nonempty).
  rewrite split_join, glue_env by done. change (flush (mkGlue [] [] false)) with (@nil text).
  cbn [app]. by rewrite record_entries.
Qed.

(** C19: the allowlist means what was written.  For every list of entries, bare
    or scoped to a wildcard or to a set of tenants, printed with commas in the
    documented form (so that the commas between entries and the commas inside
    the tenant lists are the same character), the parser recovers exactly the
    bearers with their scopes, a later entry for the same bearer replacing an
    earlier one, and counts the bare ones. *)
Theorem tokens_env_roundtrip es :
  Forall entry_ok es ->
  parse_tokens_env (print_env es) =
    mkParsed (foldl (fun m e => <[bearer_of e := scope_of e]> m) ∅ es) (bare_count es).
Proof.
  apply parse_env_printed.
Qed.

Lemma tokens_env_roundtrip_witness :
  let es := [Bare (chars "root"); Scoped (chars "alpha") (Set_ {[1; 20; 3]}); Scoped (chars "beta") All] in
  print_env es = chars "root,alpha:tenant=3,20,1,beta:tenant=*" /\
  token_scopes (parse_tokens_env (print_env es)) !! chars "alpha" = Some (Set_ {[1; 20; 3]}).
Proof.
  split; [vm_compute; reflexivity|]. rewrite tokens_env_roundtrip; [vm_compute; reflexivity|].
  assert (forall t, t ∈ ({[1; 20; 3]} : gset Z) -> 0 <= t <= u64_max) as Hr by (intros t Ht; set_unfold; lia).
  repeat apply Forall_cons_2; [..|constructor]; (split; [eexists _, _; by vm_compute|]); (split; [done|]); (split; [done|]).
  - done.
  - split; [set_solver|exact Hr].
  - done.
Defined.

(** An empty item ends the tenant list without ending the entry's commas: the
    ids after it become bare bearers, which address every tenant. *)
Lemma stray_comma_mints_wildcard_bearer :
  token_scopes (parse_tokens_env (chars "alpha:tenant=1,,2")) =
    {[chars "alpha" := Set_ {[1]}; chars "2" := All]}.
Proof. vm_compute. reflexivity. Qed.
End TokenScopeFacts.

Module AuthFacts.
Import Text TokenScope TokenScopeFacts Auth.

(** The constant-time scan finds what a lookup finds. *)
Lemma scope_for_lookup c token : scope_for c token = scopes c !! token.
Proof.
  unfold scope_for.
  assert (forall l found, (forall k sc, (k, sc) ∈ l -> scopes c !! k = Some sc) ->
    foldl (fun found '(allow_token, sc) =>
             if bool_decide (length allow_token = length token) && bool_decide (allow_token = token)
             then Some sc else found) found l =
      if bool_decide (token ∈ l.*1) then scopes c !! token else found) as Hscan.
  { induction l as [|[k sc] l IH]; intros found Hl; [done|]. csimpl. rewrite IH by (intros; apply Hl; by right).
    destruct (decide (k = token)) as [->|Hne].
    - rewrite !(bool_decide_eq_true_2 (_ = _)), (bool_decide_eq_true_2 (token ∈ token :: _)) by (done || by left).
      cbn. case_bool_decide; [done|]. symmetry. apply Hl. by left.
    - rewrite (bool_decide_eq_false_2 (k = token)), andb_false_r by done.
      erewrite (bool_decide_ext (token ∈ k :: l.*1)); [done|]. set_solver. }
  rewrite Hscan by (by intros k sc ?%elem_of_map_to_list). case_bool_decide as Hin; [done|]. symmetry.
  apply eq_None_not_Some. intros [sc Hsc]. apply Hin, list_elem_of_fmap. exists (token, sc). by rewrite elem_of_map_to_list.
Qed.

(** The request carries one acceptable [Authorization] header, with this token. *)
Definition presents (req : Request) (token : text) : Prop :=
  exists v s, authorization req = [v] /\ bytes_len v <= MAX_AUTH_HEADER_BYTES /\ to_str v = Some s /\
    parse_bearer_credentials s = Some token /\ token <> [].

Lemma bearer_auth_Ok c req sc :
  is_dev_mode c = false ->
  bearer_auth c req = Ok sc <-> exists token, presents req token /\ scopes c !! token = Some sc.
Proof.
  intros Hdev. unfold bearer_auth. rewrite Hdev. unfold presents. destruct req as [auth th]. cbn [authorization].
  destruct auth as [|v [|v' vs]]; cbn -[MAX_AUTH_HEADER_BYTES Z.ltb].
  - split; [done|]. by intros (? & (? & ? & ? & _) & _).
  - destruct (MAX_AUTH_HEADER_BYTES <? bytes_len v) eqn:Hlen; bool_props.
    { split; [done|]. intros (? & (v1 & ? & Hv & ? & _) & _). simplify_eq. lia. }
    destruct (to_str v) as [s|] eqn:Hs; cbn.
    2: { split; [done|]. intros (? & (v1 & ? & Hv & ? & Ht & _) & _). simplify_eq. }
    destruct (parse_bearer_credentials s) as [token|] eqn:Ht.
    2: { split; [done|]. intros (? & (v1 & s1 & Hv & ? & ? & ? & _) & _). by simplify_eq. }
    destruct token as [|x token].
    { split; [done|]. intros (? & (v1 & s1 & Hv & ? & ? & ? & ?) & _). by simplify_eq. }
    rewrite scope_for_lookup. split.
    + destruct (scopes c !! (x :: token)) as [sc'|] eqn:Hsc; [|done]. intros [= <-]. exists (x :: token). split; [|done]. by exists v, s.
    + intros (token' & (v1 & s1 & Hv & ? & ? & ? & _) & Hsc). simplify_eq. by rewrite Hsc.
  - rewrite bool_decide_eq_true_2 by lia. split; [done|]. by intros (? & (? & ? & ? & _) & _).
Qed.

(** The scope the allowlist grants a bearer: its last entry's. *)
Definition granted (es : list entry) (token : text) : option TenantScope :=
  scope_of <$> last (filter (fun e => bearer_of e = token) es).

Lemma granted_lookup es token :
  foldl (fun m e => <[bearer_of e := scope_of e]> m) (∅ : gmap text TenantScope) es !! token = granted es token.
Proof.
  unfold granted. induction es as [|e es IH] using rev_ind; [done|].
  rewrite foldl_app, filter_app. cbn [foldl]. destruct (decide (bearer_of e = token)) as [<-|Hne].
  - by rewrite lookup_insert_eq, filter_cons_True, filter_nil, last_snoc.
  - by rewrite lookup_insert_ne, filter_cons_False, filter_nil, app_nil_r.
Qed.

(** a function runs only for whom the operator allowed.  With the
    allowlist written in the documented form, the gates let a request through
    to a function for tenant [t] exactly when it carries a single
    [Authorization: Bearer] header of acceptable size whose token the
    allowlist grants a scope covering [t], its tenant header resolves to [t],
    its body parses, and [t] owns the function. *)
Theorem invoke_authorized es dev require_header payload functions id req t :
  Forall entry_ok es -> es <> [] ->
  invoke_function (from_env (Some (print_env es)) dev) require_header payload functions id req = Ok t <->
    (exists token sc, presents req token /\ granted es token = Some sc /\ allows sc t = true) /\
    extract_tenant require_header req = Ok t /\ payload = Ok () /\ functions !! id = Some t.
Proof.
  intros Hes Hne. unfold invoke_function, tenant_gate.
  assert (scopes (from_env (Some (print_env es)) dev) =
    foldl (fun m e => <[bearer_of e := scope_of e]> m) (∅ : gmap text TenantScope) es) as Hsc
    by (cbn; by rewrite parse_env_printed).
  assert (is_dev_mode (from_env (Some (print_env es)) dev) = false) as Hdev.
  { unfold is_dev_mode. rewrite Hsc. apply bool_decide_eq_false_2. destruct es as [|e es _] using rev_ind; [done|].
    rewrite foldl_app. cbn [foldl]. apply insert_non_empty. }
  pose proof (fun sc => bearer_auth_Ok _ req sc Hdev) as Hauth. rewrite Hsc in Hauth. setoid_rewrite granted_lookup in Hauth.
  generalize dependent (from_env (Some (print_env es)) dev). intros c _ _ Hauth. unfold authorize_tenant. split.
  - intros Hok. inv_bind Hok. inv_bind E. inv_bind E. inv_bind E. inv_bind Hok. inv_bind Hok. simplify_eq.
    destruct (allows a0 a) eqn:Ha; [|done]. destruct (functions !! id) as [owner|] eqn:Hf; [|done]. simplify_eq/=.
    destruct (_ =? a) eqn:Ho; [|done]. bool_props. simplify_eq. apply Hauth in E0 as (token & Hp & Hg).
    split_and!; try done; [by exists token, a0|]. by repeat match goal with u : () |- _ => destruct u end.
  - intros ((token & sc & Hp & Hg & Ha) & He & -> & Hf). rewrite (proj2 (Hauth sc)) by (by exists token).
    cbn. rewrite He. cbn. rewrite Ha. cbn. rewrite Hf. cbn. by rewrite Z.eqb_refl.
Qed.

Lemma invoke_authorized_witness :
  invoke_function (from_env (Some (print_env [Scoped (chars "alpha") (Set_ {[7]})])) None) false (Ok ())
    {[1 := 7; 2 := 8]} 1
    (mkReq [mkHeader 12 (Some (chars "Bearer alpha"))] [mkHeader 1 (Some (chars "7"))]) = Ok 7.
Proof.
  apply (invoke_authorized [Scoped (chars "alpha") (Set_ {[7]})]).
  - apply Forall_cons_2; [|constructor]. split; [eexists _, _; by vm_compute|]. split; [done|]. split; [done|].
    split; [set_solver|]. intros t Ht. set_unfold. lia.
  - done.
  - split; [|by vm_compute]. exists (chars "alpha"), (Set_ {[7]}). split; [|by vm_compute].
    eexists _, _. split_and!; by vm_compute.
Defined.

(** A scoped bearer that sends no tenant header, as OpenAI clients do, is
    resolved to tenant 0 and refused. *)
Lemma scoped_bearer_needs_header :
  tenant_gate (from_env (Some (chars "sk-tenant7:tenant=7")) None) false
    (mkReq [mkHeader 17 (Some (chars "Bearer sk-tenant7"))] []) =
    Err (mkResponse 403 (chars "tenant_scope_denied")).
Proof. vm_compute. reflexivity. Qed.
End AuthFacts.
