(* ===== verification/LinearMemory.v ===== *)
(** * [tensor-wasm-mem/src/wasm_memory.rs]: guest linear memories

    A linear memory is a window on a larger allocation made once, either a
    buffer of its own or a carve of the pool's slab: [memory.grow] only moves
    the window's end, after zeroing what it exposes.  The contents of memory
    nobody has written ([stale]) are arbitrary.  A guest reads and writes
    inside the window only, which wasmtime checks. *)

From S2P Require Import Prelude Core MemPool.

Module LinearMemory.
Definition DEFAULT_MAX_BYTES : Z := 256 * 1024 * 1024.
Definition HARD_MAX_LINEAR_MEMORY_BYTES : Z := 4 * 1024 * 1024 * 1024.
Definition WASM_PAGE : Z := 65536.

(** wasmtime reports an unbounded 32-bit memory as exactly 4 GiB. *)
Definition effective_max_bytes (maximum_bytes : option Z) : Z :=
  match maximum_bytes with
  | None => DEFAULT_MAX_BYTES
  | Some m => if m =? HARD_MAX_LINEAR_MEMORY_BYTES then DEFAULT_MAX_BYTES else m
  end.

(** [fill(0)] and [ptr::write_bytes] on [from .. to]. *)
Definition fill_zero (s : list u8) (from to : Z) : list u8 :=
  MemPool.write_zeros s (Z.to_nat from) (Z.to_nat (to - from)).

Definition uninitialized (stale : nat -> u8) (size : Z) : list u8 := stale <$> seq 0 (Z.to_nat size).

(** [UnifiedBuffer::new_with_visible_window_on]: only the first
    [visible_bytes] are zeroed. *)
Definition new_with_visible_window_on (stale : nat -> u8) (size visible_bytes : Z) :
    result MemPool.UnifiedError (list u8) :=
  if size =? 0 then Err MemPool.ZeroSize
  else Ok (fill_zero (uninitialized stale size) 0 (Z.min visible_bytes size)).

Record TensorWasmLinearMemory := mkMemory { buffer : list u8; current_size : Z; maximum_size : Z }.

Definition new_on (stale : nat -> u8) (minimum_bytes : Z) (maximum_bytes : option Z) :
    result MemPool.UnifiedError TensorWasmLinearMemory :=
  let max := effective_max_bytes maximum_bytes in
  if HARD_MAX_LINEAR_MEMORY_BYTES <? max then Err (MemPool.TooLarge max HARD_MAX_LINEAR_MEMORY_BYTES)
  else if HARD_MAX_LINEAR_MEMORY_BYTES <? minimum_bytes
  then Err (MemPool.TooLarge minimum_bytes HARD_MAX_LINEAR_MEMORY_BYTES)
  else if max <? minimum_bytes then Err MemPool.Allocation
  else
    let cap := Z.max max 1 in
    buffer ← new_with_visible_window_on stale cap minimum_bytes;
    Ok (mkMemory buffer minimum_bytes max).

Inductive grow_error := AboveMaximum | CannotShrink.

Definition grow_to (m : TensorWasmLinearMemory) (new_size : Z) : result grow_error TensorWasmLinearMemory :=
  if maximum_size m <? new_size then Err AboveMaximum
  else if new_size <? current_size m then Err CannotShrink
  else
    let old_size := current_size m in
    let buffer := if old_size <? new_size then fill_zero (buffer m) old_size new_size else buffer m in
    Ok (mkMemory buffer new_size (maximum_size m)).

(** What the guest sees, and a store it makes inside the window. *)
Definition as_slice (m : TensorWasmLinearMemory) : list u8 := take (Z.to_nat (current_size m)) (buffer m).

Definition store (m : TensorWasmLinearMemory) (at_ : Z) (b : u8) : TensorWasmLinearMemory :=
  if (0 <=? at_) && (at_ <? current_size m)
  then mkMemory (<[Z.to_nat at_ := b]> (buffer m)) (current_size m) (maximum_size m) else m.

(** A memory carved out of a pool: its bytes are the slab's. *)
Record PooledLinearMemory := mkPooled {
  pool_offset : Z;
  pooled_size : Z;
  pooled_current : Z;
  pooled_max : Z;
}.

Definition pooled_grow_to (slab : list u8) (m : PooledLinearMemory) (new_size : Z) :
    result grow_error (list u8 * PooledLinearMemory) :=
  if pooled_max m <? new_size then Err AboveMaximum
  else if new_size <? pooled_current m then Err CannotShrink
  else
    let old_size := pooled_current m in
    let slab :=
      if old_size <? new_size then fill_zero slab (pool_offset m + old_size) (pool_offset m + new_size) else slab in
    Ok (slab, mkPooled (pool_offset m) (pooled_size m) new_size (pooled_max m)).

Definition pooled_slice (slab : list u8) (m : PooledLinearMemory) : list u8 :=
  take (Z.to_nat (pooled_current m)) (drop (Z.to_nat (pool_offset m)) slab).

Definition pooled_store (slab : list u8) (m : PooledLinearMemory) (at_ : Z) (b : u8) : list u8 :=
  if (0 <=? at_) && (at_ <? pooled_current m) then <[Z.to_nat (pool_offset m + at_) := b]> slab else slab.

(** ** [TensorWasmMemoryCreator::new_memory] *)

Definition effective_max_linear_memory_bytes (max_linear_memory_bytes : Z) : Z :=
  Z.min max_linear_memory_bytes HARD_MAX_LINEAR_MEMORY_BYTES.

Inductive linear_memory :=
| Fresh (m : TensorWasmLinearMemory)
| Pooled (m : PooledLinearMemory).

(** [UnifiedMemoryPool::allocate] with the pool to itself: eight accesses. *)
Definition allocate_alone (p : MemPool.UnifiedMemoryPool) (sz al : Z) :
    MemPool.UnifiedMemoryPool * MemPool.user :=
  Nat.iter 8 (fun '(p, u) => MemPool.tick false p u) (p, MemPool.allocate sz al).

(** [None] is a refusal; wasmtime gets its text. *)
Definition new_memory (config : Z) (pool : option MemPool.UnifiedMemoryPool) (stale : nat -> u8)
    (minimum : Z) (maximum reserved_size_in_bytes : option Z) (guard_size_in_bytes : Z) :
    option linear_memory * option MemPool.UnifiedMemoryPool :=
  let max := effective_max_bytes maximum in
  let configured_cap := effective_max_linear_memory_bytes config in
  if HARD_MAX_LINEAR_MEMORY_BYTES <? max then (None, pool)
  else if HARD_MAX_LINEAR_MEMORY_BYTES <? minimum then (None, pool)
  else if max <? minimum then (None, pool)
  else if configured_cap <? max then (None, pool)
  else if configured_cap <? minimum then (None, pool)
  else if 0 <? guard_size_in_bytes then (None, pool)
  else if match reserved_size_in_bytes with Some reserved => max <? reserved | None => false end then (None, pool)
  else
    let fresh := match new_on stale minimum maximum with Ok m => Some (Fresh m) | Err _ => None end in
    match pool with
    | None => (fresh, None)
    | Some p =>
        match allocate_alone p (Z.max max 1) WASM_PAGE with
        | (p, MemPool.Holding r _) =>
            (Some (Pooled (mkPooled (MemPool.offset r) (MemPool.size r) minimum (MemPool.size r))), Some p)
        | (p, _) => (fresh, Some p)
        end
    end.
End LinearMemory.

Module LinearMemoryFacts.
Import LinearMemory.

(** ** What a guest may expect of its memory

    A byte array that starts as zeros, grows by appending zeros up to its
    maximum, never shrinks, and keeps what is stored in it. *)

Inductive guest_op :=
| Grow (new_size : Z)
| Store (at_ : Z) (b : u8).

Definition spec_step (max : Z) (g : list u8) (o : guest_op) : list u8 :=
  match o with
  | Grow n =>
      if (Z.of_nat (length g) <=? n) && (n <=? max)
      then g ++ replicate (Z.to_nat n - length g) Byte.x00 else g
  | Store a b => if 0 <=? a then <[Z.to_nat a := b]> g else g
  end.

Definition pooled_step (st : list u8 * PooledLinearMemory) (o : guest_op) : list u8 * PooledLinearMemory :=
  match o with
  | Grow n => match pooled_grow_to st.1 st.2 n with Ok st => st | Err _ => st end
  | Store a b => (pooled_store st.1 st.2 a b, st.2)
  end.

(** Several memories on one slab: each event is an operation of one guest. *)
Definition slab_step (st : list u8 * list PooledLinearMemory) (ev : nat * guest_op) :
    list u8 * list PooledLinearMemory :=
  match st.2 !! ev.1 with
  | Some m => let '(slab, m) := pooled_step (st.1, m) ev.2 in (slab, <[ev.1 := m]> st.2)
  | None => st
  end.

Definition ops_of (i : nat) (evs : list (nat * guest_op)) : list guest_op :=
  (filter (fun ev => ev.1 = i) evs).*2.

Definition in_slab (slab : list u8) (m : PooledLinearMemory) : Prop :=
  0 <= pool_offset m /\ 0 <= pooled_current m <= pooled_max m /\ pooled_max m = pooled_size m /\
  pool_offset m + pooled_size m <= Z.of_nat (length slab).

Definition apart (m m' : PooledLinearMemory) : Prop :=
  pool_offset m + pooled_size m <= pool_offset m' \/ pool_offset m' + pooled_size m' <= pool_offset m.

Lemma lookup_fill_zero s from to x :
  0 <= from <= to -> to <= Z.of_nat (length s) ->
  fill_zero s from to !! x =
    if (from <=? Z.of_nat x) && (Z.of_nat x <? to) then Some Byte.x00 else s !! x.
Proof.
  intros Hf Ht. unfold fill_zero. set (n := Z.to_nat (to - from)).
  assert (Z.to_nat from + n <= length s)%nat as Hn by lia.
  destruct ((from <=? Z.of_nat x) && (Z.of_nat x <? to)) eqn:Hx.
  - apply andb_true_iff in Hx as [??]. bool_props.
    destruct (lookup_lt_is_Some_2 (MemPool.write_zeros s (Z.to_nat from) n) x) as [b Hb].
    { rewrite MemPoolFacts.write_zeros_length; lia. }
    rewrite Hb. f_equal. eapply MemPoolFacts.write_zeros_in; [exact Hn| |exact Hb]. lia.
  - apply MemPoolFacts.write_zeros_out; [done|]. apply andb_false_iff in Hx. destruct Hx; bool_props; lia.
Qed.

Lemma length_fill_zero s from to :
  0 <= from <= to -> to <= Z.of_nat (length s) -> length (fill_zero s from to) = length s.
Proof. intros. apply MemPoolFacts.write_zeros_length. lia. Qed.

Lemma lookup_pooled_slice slab m x :
  pooled_slice slab m !! x =
    if Z.of_nat x <? pooled_current m then slab !! (Z.to_nat (pool_offset m) + x)%nat else None.
Proof.
  unfold pooled_slice. destruct (Z.of_nat x <? pooled_current m) eqn:Hx; bool_props.
  - rewrite lookup_take_lt by lia. apply lookup_drop.
  - apply lookup_take_ge. lia.
Qed.

Lemma length_pooled_slice slab m :
  in_slab slab m -> length (pooled_slice slab m) = Z.to_nat (pooled_current m).
Proof. intros (? & ? & ? & ?). unfold pooled_slice. rewrite length_take, length_drop. lia. Qed.

(** A memory's place never moves. *)
Definition same_place (m m' : PooledLinearMemory) : Prop :=
  pool_offset m' = pool_offset m /\ pooled_size m' = pooled_size m /\ pooled_max m' = pooled_max m.

(** One operation, seen by its own guest, and what it leaves alone. *)
Definition step_ok (slab : list u8) (m : PooledLinearMemory) (o : guest_op) (st : list u8 * PooledLinearMemory) : Prop :=
  pooled_slice st.1 st.2 = spec_step (pooled_max m) (pooled_slice slab m) o /\
  same_place m st.2 /\ in_slab st.1 st.2 /\ length st.1 = length slab /\
  (forall x, ~ (pool_offset m <= Z.of_nat x < pool_offset m + pooled_size m) -> st.1 !! x = slab !! x).

(** Growing exposes zeros and nothing else. *)
Lemma grown_slice slab slab' m n :
  in_slab slab m -> pooled_current m <= n <= pooled_max m ->
  (forall x, slab' !! x = if (pool_offset m + pooled_current m <=? Z.of_nat x) && (Z.of_nat x <? pool_offset m + n)
                          then Some Byte.x00 else slab !! x) ->
  pooled_slice slab' (mkPooled (pool_offset m) (pooled_size m) n (pooled_max m)) =
    pooled_slice slab m ++ replicate (Z.to_nat n - Z.to_nat (pooled_current m)) Byte.x00.
Proof.
  intros Hin Hn Hx. pose proof (length_pooled_slice _ _ Hin) as Hlen. destruct Hin as (Ho & Hc & Hm & Hl).
  apply list_eq. intros x. rewrite lookup_pooled_slice. cbn. destruct (decide (Z.of_nat x < pooled_current m)).
  - rewrite (proj2 (Z.ltb_lt _ _)) by lia. rewrite lookup_app_l by lia.
    rewrite lookup_pooled_slice, (proj2 (Z.ltb_lt _ _)), Hx by lia.
    by rewrite (proj2 (Z.leb_gt _ _)) by lia.
  - rewrite lookup_app_r by lia. destruct (decide (Z.of_nat x < n)).
    + rewrite (proj2 (Z.ltb_lt _ _)), Hx by lia. rewrite (proj2 (Z.leb_le _ _)), (proj2 (Z.ltb_lt _ _)) by lia.
      symmetry. apply lookup_replicate_2. lia.
    + rewrite (proj2 (Z.ltb_ge _ _)) by lia. symmetry. apply lookup_ge_None_2. rewrite length_replicate. lia.
Qed.

Lemma grow_ok slab m n : in_slab slab m -> step_ok slab m (Grow n) (pooled_step (slab, m) (Grow n)).
Proof.
  intros Hin. pose proof (length_pooled_slice _ _ Hin) as Hlen. pose proof Hin as (Ho & Hc & Hm & Hl).
  unfold step_ok. cbn. unfold pooled_grow_to. rewrite Hlen.
  destruct (pooled_max m <? n) eqn:Hmax; bool_props.
  { rewrite (proj2 (Z.leb_gt n (pooled_max m))), andb_false_r by lia. by split_and!. }
  destruct (n <? pooled_current m) eqn:Hcur; bool_props.
  { rewrite (proj2 (Z.leb_gt (Z.of_nat (Z.to_nat (pooled_current m))) n)) by lia. by split_and!. }
  rewrite (proj2 (Z.leb_le (Z.of_nat (Z.to_nat (pooled_current m))) n)), (proj2 (Z.leb_le n (pooled_max m))) by lia.
  set (slab' := if pooled_current m <? n then fill_zero slab (pool_offset m + pooled_current m) (pool_offset m + n) else slab).
  assert (forall x, slab' !! x = if (pool_offset m + pooled_current m <=? Z.of_nat x) && (Z.of_nat x <? pool_offset m + n)
                                 then Some Byte.x00 else slab !! x) as Hx.
  { intros x. unfold slab'. destruct (pooled_current m <? n) eqn:?; bool_props; [apply lookup_fill_zero; lia|].
    destruct (_ && _) eqn:Hb; [|done]. apply andb_true_iff in Hb as [??]. bool_props. lia. }
  assert (length slab' = length slab) as Hlen' by (unfold slab'; case_match; bool_props; [apply length_fill_zero; lia|done]).
  cbn [fst snd]. split_and!; try done.
  - apply grown_slice; [done|lia|done].
  - unfold in_slab. cbn. rewrite Hlen'. lia.
  - intros x Hout. rewrite Hx. destruct (_ && _) eqn:Hb; [|done]. apply andb_true_iff in Hb as [??]. bool_props. lia.
Qed.

Lemma store_ok slab m a b : in_slab slab m -> step_ok slab m (Store a b) (pooled_step (slab, m) (Store a b)).
Proof.
  intros Hin. pose proof (length_pooled_slice _ _ Hin) as Hlen. pose proof Hin as (Ho & Hc & Hm & Hl).
  unfold step_ok. cbn. unfold pooled_store.
  destruct (0 <=? a) eqn:Ha; cbn [andb]; bool_props; [|by split_and!].
  destruct (a <? pooled_current m) eqn:Hlt; bool_props.
  2: { rewrite list_insert_ge by lia. by split_and!. }
  split_and!; try done.
  - apply list_eq. intros x. rewrite lookup_pooled_slice, !list_lookup_insert, lookup_pooled_slice, Hlen.
    repeat case_match; bool_props; try done; lia.
  - unfold in_slab. by rewrite length_insert.
  - apply length_insert.
  - intros x Hout. apply list_lookup_insert_ne. lia.
Qed.

Lemma pooled_step_ok slab m o : in_slab slab m -> step_ok slab m o (pooled_step (slab, m) o).
Proof. intros. destruct o; [by apply grow_ok|by apply store_ok]. Qed.

(** ** Many guests on one slab *)

Record slab_ok (slab : list u8) (ms : list PooledLinearMemory) : Prop := {
  s_in i m : ms !! i = Some m -> in_slab slab m;
  s_apart i j m m' : i <> j -> ms !! i = Some m -> ms !! j = Some m' -> apart m m';
}.

Lemma slab_step_ok slab ms ev :
  slab_ok slab ms ->
  let '(slab', ms') := slab_step (slab, ms) ev in
  slab_ok slab' ms' /\
  forall i m, ms !! i = Some m -> exists m', ms' !! i = Some m' /\ pooled_max m' = pooled_max m /\
    pooled_slice slab' m' = foldl (spec_step (pooled_max m)) (pooled_slice slab m) (ops_of i [ev]).
Proof.
  intros [Hin Hap]. destruct ev as [j o]. unfold slab_step. cbn [fst snd]. destruct (ms !! j) as [mj|] eqn:Hj.
  2: { split; [by split|]. intros i m Hi. exists m. split_and!; try done. unfold ops_of. rewrite filter_cons_False; [done|].
       cbn. intros ->. congruence. }
  pose proof (pooled_step_ok slab mj o (Hin _ _ Hj)) as (Hv & (Ho & Hs & Hm) & Hi' & Hl & Hother).
  destruct (pooled_step (slab, mj) o) as [slab' mj']. cbn [fst snd] in *.
  assert (forall i m, i <> j -> ms !! i = Some m -> in_slab slab' m /\ pooled_slice slab' m = pooled_slice slab m) as Hfar.
  { intros i m Hne Hi. pose proof (Hin _ _ Hi) as Him. pose proof Him as (? & ? & ? & ?). split.
    - unfold in_slab in *. by rewrite Hl.
    - apply list_eq. intros x. rewrite !lookup_pooled_slice. destruct (_ <? _) eqn:Hx; [|done]. bool_props.
      apply Hother. destruct (Hap _ _ _ _ Hne Hi Hj); lia. }
  split; [split|].
  - intros i m [(<- & <- & _)|[Hne Hi]]%list_lookup_insert_Some; [done|]. by apply (Hfar i).
  - intros i k m m' Hne [(<- & <- & _)|[Hni Hi]]%list_lookup_insert_Some
      [(<- & <- & _)|[Hnk Hk]]%list_lookup_insert_Some; try done.
    + unfold apart. rewrite Ho, Hs. by apply (Hap j k).
    + unfold apart. rewrite Ho, Hs. by apply (Hap i j).
    + by apply (Hap i k).
  - intros i m Hi. unfold ops_of. destruct (decide (j = i)) as [->|Hne].
    + simplify_eq. exists mj'. rewrite list_lookup_insert_eq by (by eapply lookup_lt_Some).
      rewrite filter_cons_True by done. by split_and!.
    + exists m. rewrite list_lookup_insert_ne, filter_cons_False by done. split_and!; try done.
      by apply (Hfar i).
Qed.

Lemma ops_of_cons i ev evs : ops_of i (ev :: evs) = ops_of i [ev] ++ ops_of i evs.
Proof. unfold ops_of. change (ev :: evs) with ([ev] ++ evs). by rewrite filter_app, fmap_app. Qed.

Lemma slab_run evs slab ms i m :
  slab_ok slab ms -> ms !! i = Some m ->
  let '(slab', ms') := foldl slab_step (slab, ms) evs in
  exists m', ms' !! i = Some m' /\
    pooled_slice slab' m' = foldl (spec_step (pooled_max m)) (pooled_slice slab m) (ops_of i evs).
Proof.
  revert slab ms m. induction evs as [|ev evs IH]; intros slab ms m Hok Hi; cbn [foldl]; [by exists m|].
  pose proof (slab_step_ok slab ms ev Hok) as Hstep. destruct (slab_step (slab, ms) ev) as [slab1 ms1].
  destruct Hstep as [Hok1 Hview]. destruct (Hview _ _ Hi) as (m1 & Hm1 & Hmax & Hv).
  specialize (IH _ _ _ Hok1 Hm1). destruct (foldl slab_step (slab1, ms1) evs) as [slab2 ms2].
  destruct IH as (m2 & Hm2 & Hv2). exists m2. split; [done|].
  by rewrite (ops_of_cons i ev evs), foldl_app, <-Hv, <-Hmax.
Qed.

(** [new_memory] on a carve. *)
Definition carved (us : list MemPool.user) (ms : list PooledLinearMemory) : Prop :=
  forall i m, ms !! i = Some m -> exists r,
    us !! i = Some (MemPool.Holding r true) /\
    m = mkPooled (MemPool.offset r) (MemPool.size r) (pooled_current m) (MemPool.size r) /\
    0 <= pooled_current m <= MemPool.size r.

(** C10: guests of one pool see only their own memory.  Take the pool after any
    schedule of concurrent allocations, writes, releases and resets, with
    linear memories made on some of its untouched carves, and let the guests
    grow their memories and store into them in any interleaving: each sees
    exactly a fresh zeroed memory to which only its own operations were
    applied, whatever the slab held before and whatever the others do. *)
Theorem pooled_memories_isolated capacity n history ms evs i m :
  let '(p, us) := MemPool.run history (MemPool.new capacity, replicate n MemPool.Idle) in
  carved us ms -> ms !! i = Some m ->
  let '(slab', ms') := foldl slab_step (MemPool.slab p, ms) evs in
  exists m', ms' !! i = Some m' /\
    pooled_slice slab' m' =
      foldl (spec_step (pooled_max m)) (replicate (Z.to_nat (pooled_current m)) Byte.x00) (ops_of i evs).
Proof.
  pose proof (MemPoolFacts.pool_run_inv history _ (MemPoolFacts.new_pool_inv capacity n)) as Hinv.
  destruct (MemPool.run history _) as [p us]. intros Hc Hi.
  assert (slab_ok (MemPool.slab p) ms) as Hok.
  { split.
    - intros j mj Hj. destruct (Hc _ _ Hj) as (r & Hr & -> & Hcur). cbn in Hcur.
      destruct (MemPoolFacts.i_region _ Hinv _ _ _ Hr eq_refl) as (? & ? & ? & _).
      destruct (MemPoolFacts.i_bump _ Hinv) as [_ Hb]. unfold MemPool.capacity in Hb. unfold in_slab. cbn in *. lia.
    - intros j k mj mk Hne Hj Hk. destruct (Hc _ _ Hj) as (r & Hr & -> & _). destruct (Hc _ _ Hk) as (r' & Hr' & -> & _).
      exact (MemPoolFacts.i_disjoint _ Hinv _ _ _ _ _ _ Hr Hr' Hne eq_refl eq_refl). }
  pose proof (slab_run evs _ _ _ _ Hok Hi) as Hrun. destruct (foldl slab_step _ evs) as [slab' ms'].
  destruct Hrun as (m' & Hm' & Hv). exists m'. split; [done|]. rewrite Hv. f_equal.
  pose proof (s_in _ _ Hok _ _ Hi) as Hin. pose proof (length_pooled_slice _ _ Hin) as Hlen.
  destruct (Hc _ _ Hi) as (r & Hr & Hm & Hcur). destruct Hin as (Ho & _).
  apply list_eq_same_length with (length (pooled_slice (MemPool.slab p) m)); [by rewrite length_replicate|done|].
  intros x a b Hx Ha Hb. apply lookup_replicate in Hb as [-> _]. rewrite lookup_pooled_slice in Ha.
  destruct (_ <? _) eqn:Hlt; [|done]. bool_props. eapply (MemPoolFacts.i_zero _ Hinv _ _ Hr); [exact Ha|].
  rewrite Hm. cbn. rewrite Hm in Ho. cbn in Ho. unfold MemPoolFacts.inside. lia.
Qed.

(** ** A memory with a buffer of its own

    It is a carve of its whole buffer. *)

Definition step (m : TensorWasmLinearMemory) (o : guest_op) : TensorWasmLinearMemory :=
  match o with
  | Grow n => match grow_to m n with Ok m => m | Err _ => m end
  | Store a b => store m a b
  end.

Definition as_carve (m : TensorWasmLinearMemory) : PooledLinearMemory :=
  mkPooled 0 (maximum_size m) (current_size m) (maximum_size m).

Lemma step_as_carve m o :
  pooled_step (buffer m, as_carve m) o = (buffer (step m o), as_carve (step m o)).
Proof.
  destruct o as [n|a b]; cbn.
  - unfold pooled_grow_to, grow_to. cbn. repeat case_match; simplify_eq/=; done.
  - unfold pooled_store, store. cbn. by case_match.
Qed.

Lemma run_as_carve ops m :
  foldl slab_step (buffer m, [as_carve m]) (pair 0%nat <$> ops) =
    (buffer (foldl step m ops), [as_carve (foldl step m ops)]).
Proof.
  revert m. induction ops as [|o ops IH]; intros m; csimpl; [done|].
  unfold slab_step at 2. cbn [fst snd lookup list_lookup]. rewrite step_as_carve. apply IH.
Qed.

Lemma ops_of_own ops : ops_of 0 (pair 0%nat <$> ops) = ops.
Proof. induction ops as [|o ops IH]; [done|]. by rewrite fmap_cons, ops_of_cons, IH. Qed.

Lemma new_on_Ok stale mn mx m :
  new_on stale mn mx = Ok m -> 0 <= mn ->
  m = mkMemory (fill_zero (uninitialized stale (Z.max (effective_max_bytes mx) 1)) 0 mn) mn (effective_max_bytes mx) /\
  mn <= effective_max_bytes mx.
Proof.
  unfold new_on. intros Hok Hmn. repeat (destruct (_ <? _) eqn:?; [done|]; bool_props).
  inv_bind Hok. simplify_eq. unfold new_with_visible_window_on in E.
  destruct (_ =? 0) eqn:?; bool_props; [lia|]. simplify_eq. rewrite Z.min_l by lia. split; [done|lia].
Qed.

(** What [new_memory] hands out starts at the declared minimum and can never
    exceed the creator's cap (a carve is at least one byte). *)
Theorem new_memory_within_cap config pool stale mn mx reserved guard m pool' :
  0 <= mn -> new_memory config pool stale mn mx reserved guard = (Some m, pool') ->
  guard <= 0 /\ mn <= effective_max_linear_memory_bytes config /\
  match m with
  | Fresh m => current_size m = mn /\ mn <= maximum_size m <= effective_max_linear_memory_bytes config
  | Pooled m => pooled_current m = mn
  end.
Proof.
  unfold new_memory. intros Hmn Hnew.
  destruct (HARD_MAX_LINEAR_MEMORY_BYTES <? effective_max_bytes mx) eqn:?; [done|].
  destruct (HARD_MAX_LINEAR_MEMORY_BYTES <? mn) eqn:?; [done|].
  destruct (effective_max_bytes mx <? mn) eqn:?; [done|].
  destruct (effective_max_linear_memory_bytes config <? effective_max_bytes mx) eqn:?; [done|].
  destruct (effective_max_linear_memory_bytes config <? mn) eqn:?; [done|].
  destruct (0 <? guard) eqn:?; [done|]. destruct (match reserved with Some _ => _ | None => _ end); [done|]. bool_props.
  split; [done|]. split; [done|].
  assert (forall x, match new_on stale mn mx with Ok m => Some (Fresh m) | Err _ => None end = Some x ->
    exists m, x = Fresh m /\ current_size m = mn /\ maximum_size m = effective_max_bytes mx) as Hfresh.
  { intros x Hx. destruct (new_on stale mn mx) eqn:Hok; simplify_eq. eexists. split; [done|].
    by destruct (new_on_Ok _ _ _ _ Hok Hmn) as [-> _]. }
  destruct pool as [p|].
  - destruct (allocate_alone p _ _) as [p1 u]. destruct u; injection Hnew as Hf _;
      first [by simplify_eq | destruct (Hfresh _ Hf) as (m0 & -> & <- & Hmax); rewrite Hmax; split; lia].
  - injection Hnew as Hf _. destruct (Hfresh _ Hf) as (m0 & -> & <- & Hmax). rewrite Hmax. split; lia.
Qed.

(** a fresh linear memory is a WebAssembly memory.  Whatever the
    allocator left in the buffer, the guest sees zeros at first, zeros in
    everything [memory.grow] adds, its own stores kept, and a memory that
    never shrinks and never exceeds the effective maximum. *)
Theorem linear_memory_refines stale mn mx m ops :
  new_on stale mn mx = Ok m -> 0 <= mn ->
  as_slice (foldl step m ops) =
    foldl (spec_step (effective_max_bytes mx)) (replicate (Z.to_nat mn) Byte.x00) ops.
Proof.
  intros Hok Hmn. destruct (new_on_Ok _ _ _ _ Hok Hmn) as [Hm Hle].
  assert (length (uninitialized stale (Z.max (effective_max_bytes mx) 1)) = Z.to_nat (Z.max (effective_max_bytes mx) 1)) as Hlen
    by (unfold uninitialized; by rewrite length_fmap, length_seq).
  assert (slab_ok (buffer m) [as_carve m]) as Hs.
  { split; [|intros [|i] [|j] ????; done]. intros [|i] x ?; simplify_eq/=. unfold in_slab. cbn.
    rewrite length_fill_zero; lia. }
  pose proof (slab_run (pair 0%nat <$> ops) _ _ 0 _ Hs eq_refl) as Hrun. rewrite run_as_carve in Hrun.
  destruct Hrun as (m' & [= <-] & Hv). unfold pooled_slice in Hv at 1. cbn in Hv. rewrite drop_0 in Hv.
  unfold as_slice. rewrite Hv. clear Hv. subst m. cbn.
  rewrite ops_of_own.
  f_equal. apply list_eq. intros x. rewrite lookup_pooled_slice. cbn. rewrite lookup_fill_zero by lia.
  destruct (Z.of_nat x <? mn) eqn:Hx; bool_props; cbn [andb].
  - change (Z.to_nat 0 + x)%nat with x. rewrite (proj2 (Z.leb_le 0 _)), (proj2 (Z.ltb_lt _ _)) by lia.
    symmetry. apply lookup_replicate_2. lia.
  - symmetry. apply lookup_ge_None_2. rewrite length_replicate. lia.
Qed.

Lemma linear_memory_refines_witness :
  exists m, new_on (fun _ => Byte.xff) 1 (Some 3) = Ok m /\
    as_slice (foldl step m [Store 0 Byte.x07; Grow 4; Grow 2]) = [Byte.x07; Byte.x00].
Proof.
  eexists. split; [vm_compute; reflexivity|].
  rewrite (linear_memory_refines (fun _ => Byte.xff) 1 (Some 3)); [vm_compute; reflexivity..|lia].
Defined.

Definition two_carves : list MemPool.event :=
  [MemPool.Allocate 0 2 1; MemPool.Allocate 1 2 1] ++
  replicate 8 (MemPool.Tick 0 false) ++ replicate 8 (MemPool.Tick 1 false).

Lemma pooled_memories_isolated_witness :
  let '(p, us) := MemPool.run two_carves (MemPool.new 4, replicate 2 MemPool.Idle) in
  let '(slab', ms') :=
    foldl slab_step (MemPool.slab p, [mkPooled 0 2 1 2; mkPooled 2 2 1 2])
      [(0%nat, Store 0 Byte.x07); (1%nat, Grow 2); (0%nat, Grow 2)] in
  exists m', ms' !! 1%nat = Some m' /\ pooled_slice slab' m' = [Byte.x00; Byte.x00].
Proof.
  pose proof (pooled_memories_isolated 4 2 two_carves [mkPooled 0 2 1 2; mkPooled 2 2 1 2]
    [(0%nat, Store 0 Byte.x07); (1%nat, Grow 2); (0%nat, Grow 2)] 1 (mkPooled 2 2 1 2)) as Hiso.
  destruct (MemPool.run two_carves _) as [p us] eqn:Hrun.
  assert (us = (MemPool.run two_carves (MemPool.new 4, replicate 2 MemPool.Idle)).2) as -> by (by rewrite Hrun).
  specialize (Hiso ltac:(intros [|[|i]] x ?; simplify_eq/=; eexists; (split; [vm_compute; reflexivity|]);
    (split; [reflexivity|]); cbn; lia) eq_refl).
  destruct (foldl _ _ _) as [slab' ms']. exact Hiso.
Defined.
End LinearMemoryFacts.
