(* ===== verification/LoweredIr.v ===== *)
(** * The Cranelift lowering's input and output languages

    [Clif] is the part of Cranelift's IR the lowering of tensor-wasm-jit reads:
    types, opcodes, instruction formats, blocks in layout order.  [LoweredIr]
    is [lowered_ir.rs], the SSA form it produces.  [RejectList] is
    [reject_list.rs], which refuses a function before it is lowered.  Values,
    blocks and stack slots are their entity numbers. *)

From S2P Require Import Prelude Core Ir.

(** ** Cranelift IR, as the lowering sees it *)
Module Clif.
Inductive Type_ :=
| INVALID
| I8 | I16 | I32 | I64 | I128
| F16 | F32 | F64 | F128
| R32 | R64
| Vector (lane : Type_) (lanes : Z)
| DynamicVector (lane : Type_) (min_lanes : Z).

#[global] Instance Type_eq_dec : EqDecision Type_.
Proof. solve_decision. Defined.

Definition is_vector (t : Type_) : bool := match t with Vector _ _ => true | _ => false end.

Definition lane_type (t : Type_) : Type_ :=
  match t with Vector l _ | DynamicVector l _ => l | _ => t end.

(** The opcodes the lowering names; every other one is [OtherOpcode]. *)
Inductive Opcode :=
| Iadd | Isub | Imul | Sdiv | Udiv | Srem | Urem
| Fadd | Fsub | Fmul | Fdiv | Fma | Fneg | Fabs
| Fcopysign | Sqrt | Ceil | Floor | Trunc | Nearest | Fcmp | Fpromote | Fdemote
| FcvtFromSint | FcvtFromUint | FcvtToSint | FcvtToUint | FcvtToSintSat | FcvtToUintSat
| Load | Store | StackLoad | StackStore
| Jump | Brif | BrTable | Return
| Fmin | Fmax | Smin | Smax | Umin | Umax | Splat | Bitselect | VallTrue | VanyTrue
| Select | Bitcast | Ireduce | Uextend | Sextend
| AtomicLoad | AtomicStore | AtomicRmw | AtomicCas
| Call | CallIndirect | ReturnCall | ReturnCallIndirect
| Trap | Trapz | Trapnz | Debugtrap
| OtherOpcode (name : str).

#[global] Instance Opcode_eq_dec : EqDecision Opcode.
Proof. solve_decision. Defined.

Definition is_branch (op : Opcode) : bool :=
  match op with Jump | Brif | BrTable => true | _ => false end.

Record BlockCall := mkBlockCall { bc_block : Z; bc_args : list Z }.

(** [InstructionData]; [OtherData] is every format the lowering does not match. *)
Inductive InstructionData :=
| BinaryData (op : Opcode) (a b : Z)
| UnaryData (op : Opcode) (a : Z)
| TernaryData (op : Opcode) (a b c : Z)
| LoadData (op : Opcode) (arg offset : Z)
| StoreData (op : Opcode) (value base offset : Z)
| StackLoadData (op : Opcode) (stack_slot offset : Z)
| StackStoreData (op : Opcode) (arg stack_slot offset : Z)
| JumpData (destination : BlockCall)
| BrifData (arg : Z) (then_ else_ : BlockCall)
| BranchTableData (arg : Z) (default_block : BlockCall) (cases : list BlockCall)
| MultiAryData (op : Opcode) (args : list Z)
| OtherData (op : Opcode) (args : list Z).

Definition opcode (d : InstructionData) : Opcode :=
  match d with
  | BinaryData op _ _ | UnaryData op _ | TernaryData op _ _ _ | LoadData op _ _ | StoreData op _ _ _
  | StackLoadData op _ _ | StackStoreData op _ _ _ | MultiAryData op _ | OtherData op _ => op
  | JumpData _ => Jump
  | BrifData _ _ _ => Brif
  | BranchTableData _ _ _ => BrTable
  end.

Definition inst_args (d : InstructionData) : list Z :=
  match d with
  | BinaryData _ a b => [a; b]
  | UnaryData _ a => [a]
  | TernaryData _ a b c => [a; b; c]
  | LoadData _ a _ => [a]
  | StoreData _ v b _ => [v; b]
  | StackLoadData _ _ _ => []
  | StackStoreData _ a _ _ => [a]
  | JumpData _ => []
  | BrifData a _ _ | BranchTableData a _ _ => [a]
  | MultiAryData _ args | OtherData _ args => args
  end.

Definition branch_destination (d : InstructionData) : list BlockCall :=
  match d with
  | JumpData c => [c]
  | BrifData _ t e => [t; e]
  | BranchTableData _ d cs => d :: cs
  | _ => []
  end.

Record Inst := mkInst { data : InstructionData; results : list Z }.

Record Block := mkBlock { block_id : Z; block_params : list Z; insts : list Inst }.

Inductive CallConv := SystemV | Fast | Cold | OtherConv (name : str).
Inductive ArgumentPurpose := Normal | OtherPurpose (name : str).
Record AbiParam := mkAbiParam { param_type : Type_; purpose : ArgumentPurpose }.
Record Signature := mkSignature { sig_params : list AbiParam; sig_returns : list AbiParam; call_conv : CallConv }.

Inductive UserFuncName := Testcase (name : str) | User (namespace index : Z).

(** Blocks and instructions are in layout order; [value_type] and [stack_size]
    are the tables of the data-flow graph. *)
Record Function_ := mkFunction {
  name : UserFuncName;
  signature : Signature;
  layout : list Block;
  value_type : Z -> Type_;
  stack_size : Z -> option Z;
}.
End Clif.

(** ** [lowered_ir.rs] *)
Module LoweredIr.
Inductive LoweredType :=
| I8 | I16 | I32 | I64 | F32 | F64 | Ptr | Bool
| V128 (lane_type : LoweredType) (lanes : Z).

#[global] Instance LoweredType_eq_dec : EqDecision LoweredType.
Proof. solve_decision. Defined.

Definition is_int (t : LoweredType) : bool := match t with I8 | I16 | I32 | I64 => true | _ => false end.
Definition is_float (t : LoweredType) : bool := match t with F32 | F64 => true | _ => false end.

Definition scalar_bits (t : LoweredType) : option Z :=
  match t with
  | I8 => Some 8 | I16 => Some 16 | I32 | F32 => Some 32 | I64 | F64 => Some 64
  | _ => None
  end.

Fixpoint display_type (t : LoweredType) : str :=
  match t with
  | I8 => bytes_of "i8" | I16 => bytes_of "i16" | I32 => bytes_of "i32" | I64 => bytes_of "i64"
  | F32 => bytes_of "f32" | F64 => bytes_of "f64" | Ptr => bytes_of "ptr" | Bool => bytes_of "bool"
  | V128 lane lanes => bytes_of "v" ++ dec lanes ++ bytes_of "x" ++ display_type lane
  end.

Inductive LoweredOp :=
| AddI (ty : LoweredType) (lhs rhs result : Z)
| SubI (ty : LoweredType) (lhs rhs result : Z)
| MulI (ty : LoweredType) (lhs rhs result : Z)
| DivS (ty : LoweredType) (lhs rhs result : Z)
| DivU (ty : LoweredType) (lhs rhs result : Z)
| RemS (ty : LoweredType) (lhs rhs result : Z)
| RemU (ty : LoweredType) (lhs rhs result : Z)
| AddF (ty : LoweredType) (lhs rhs result : Z)
| SubF (ty : LoweredType) (lhs rhs result : Z)
| MulF (ty : LoweredType) (lhs rhs result : Z)
| DivF (ty : LoweredType) (lhs rhs result : Z)
| Fma (ty : LoweredType) (a b c result : Z)
| FNeg (ty : LoweredType) (src result : Z)
| FAbs (ty : LoweredType) (src result : Z)
| Load (ty : LoweredType) (base offset result : Z)
| Store (ty : LoweredType) (value base offset : Z)
| StackAlloc (ty : LoweredType) (bytes result : Z)
| Br (target : Z) (args : list Z)
| CondBr (cond then_target : Z) (then_args : list Z) (else_target : Z) (else_args : list Z)
| Switch (value default_target : Z) (cases : list (Z * Z))
| Return (values : list Z)
| VMin (lane_ty : LoweredType) (signed : bool) (lhs rhs result : Z)
| VMax (lane_ty : LoweredType) (signed : bool) (lhs rhs result : Z)
| VSplat (lane_ty : LoweredType) (src result : Z)
| VSelect (lane_ty : LoweredType) (cond then_v else_v result : Z)
| VAllTrue (src result : Z)
| VAnyTrue (src result : Z)
| Select (ty : LoweredType) (cond then_v else_v result : Z)
| Bitcast (from_ty to_ty : LoweredType) (src result : Z)
| TruncI (from_ty to_ty : LoweredType) (src result : Z)
| ExtendU (from_ty to_ty : LoweredType) (src result : Z)
| ExtendS (from_ty to_ty : LoweredType) (src result : Z).

#[global] Instance LoweredOp_eq_dec : EqDecision LoweredOp.
Proof. solve_decision. Defined.

Definition op_result (o : LoweredOp) : option Z :=
  match o with
  | AddI _ _ _ r | SubI _ _ _ r | MulI _ _ _ r | DivS _ _ _ r | DivU _ _ _ r | RemS _ _ _ r | RemU _ _ _ r
  | AddF _ _ _ r | SubF _ _ _ r | MulF _ _ _ r | DivF _ _ _ r | Fma _ _ _ _ r | FNeg _ _ r | FAbs _ _ r
  | Load _ _ _ r | StackAlloc _ _ r | VMin _ _ _ _ r | VMax _ _ _ _ r | VSplat _ _ r | VSelect _ _ _ _ r
  | VAllTrue _ r | VAnyTrue _ r | Select _ _ _ _ r | Bitcast _ _ _ r | TruncI _ _ _ r | ExtendU _ _ _ r
  | ExtendS _ _ _ r => Some r
  | Store _ _ _ _ | Br _ _ | CondBr _ _ _ _ _ | Switch _ _ _ | Return _ => None
  end.

Definition is_terminator (o : LoweredOp) : bool :=
  match o with Br _ _ | CondBr _ _ _ _ _ | Switch _ _ _ | Return _ => true | _ => false end.

Record LoweredSignature := mkSignature { sig_params : list LoweredType; sig_returns : list LoweredType }.

Record LoweredBlock := mkBlock { id : Z; params : list (Z * LoweredType); ops : list LoweredOp }.

Definition block_well_formed (b : LoweredBlock) : bool :=
  match last (ops b) with Some o => is_terminator o | None => false end.

Record LoweredFunction := mkFunction {
  name : str;
  signature : LoweredSignature;
  blocks : list LoweredBlock;
  entry : Z;
}.

Definition block (f : LoweredFunction) (i : Z) : option LoweredBlock :=
  List.find (fun b => id b =? i) (blocks f).

Definition is_well_formed (f : LoweredFunction) : bool :=
  negb (bool_decide (blocks f = [])) && forallb block_well_formed (blocks f).
End LoweredIr.

(** ** [reject_list.rs] *)
Module RejectList.
Import Clif.

Inductive RejectReason :=
| Atomic (m : string) | StrictFp (m : string) | TableOp (m : string) | GcOp (m : string)
| MemoryResize (m : string) | LargeMemcpy (m : string) | HostCall (m : string) | FloatOp (m : string)
| IntDivRem (m : string) | BackEdge (m : string) | TrapOp (m : string).

Definition opcode_mnemonic (r : RejectReason) : string :=
  match r with
  | Atomic m | StrictFp m | TableOp m | GcOp m | MemoryResize m | LargeMemcpy m | HostCall m | FloatOp m
  | IntDivRem m | BackEdge m | TrapOp m => m
  end.

Record Rejection := mkRejection { inst : Inst; rejected_block : Z; reason : RejectReason }.

Definition is_float_opcode (op : Opcode) : bool :=
  match op with
  | Fadd | Fsub | Fmul | Fdiv | Fma | Fneg | Fabs | Fcopysign | Fmin | Fmax | Sqrt | Ceil | Floor | Trunc
  | Nearest | Fcmp | Fpromote | Fdemote | FcvtFromSint | FcvtFromUint | FcvtToSint | FcvtToUint => true
  | _ => false
  end.

Definition float_mnemonic (op : Opcode) : string :=
  match op with
  | Fadd => "fadd" | Fsub => "fsub" | Fmul => "fmul" | Fdiv => "fdiv" | Fma => "fma" | Fneg => "fneg"
  | Fabs => "fabs" | Fcopysign => "fcopysign" | Fmin => "fmin" | Fmax => "fmax" | Sqrt => "sqrt"
  | Ceil => "ceil" | Floor => "floor" | Trunc => "trunc" | Nearest => "nearest" | Fcmp => "fcmp"
  | Fpromote => "fpromote" | Fdemote => "fdemote" | FcvtFromSint => "fcvt_from_sint"
  | FcvtFromUint => "fcvt_from_uint" | FcvtToSint => "fcvt_to_sint" | FcvtToUint => "fcvt_to_uint"
  | _ => "float_op"
  end.

Definition classify_opcode (op : Opcode) : option RejectReason :=
  match op with
  | AtomicLoad => Some (Atomic "atomic_load")
  | AtomicStore => Some (Atomic "atomic_store")
  | AtomicRmw => Some (Atomic "atomic_rmw")
  | AtomicCas => Some (Atomic "atomic_cas")
  | FcvtToSintSat => Some (StrictFp "fcvt_to_sint_sat")
  | FcvtToUintSat => Some (StrictFp "fcvt_to_uint_sat")
  | Call => Some (HostCall "call")
  | CallIndirect => Some (HostCall "call_indirect")
  | ReturnCall => Some (HostCall "return_call")
  | ReturnCallIndirect => Some (HostCall "return_call_indirect")
  | Sdiv => Some (IntDivRem "sdiv")
  | Udiv => Some (IntDivRem "udiv")
  | Srem => Some (IntDivRem "srem")
  | Urem => Some (IntDivRem "urem")
  | Trap => Some (TrapOp "trap")
  | Trapz => Some (TrapOp "trapz")
  | Trapnz => Some (TrapOp "trapnz")
  | Debugtrap => Some (TrapOp "debugtrap")
  | _ => if is_float_opcode op then Some (FloatOp (float_mnemonic op)) else None
  end.

Definition branch_mnemonic (op : Opcode) : string :=
  match op with Jump => "jump" | Brif => "brif" | BrTable => "br_table" | _ => "branch" end.

(** A later entry for the same key wins, as [collect] into a map does. *)
Definition block_layout_order (f : Function_) : gmap Z Z :=
  foldl (fun m '(idx, b) => <[block_id b := Z.of_nat idx]> m) ∅ (imap pair (layout f)).

Definition back_edge_reason (i : Inst) (block_idx : Z) (block_order : gmap Z Z) : option RejectReason :=
  let op := opcode (data i) in
  if negb (is_branch op) then None
  else if existsb (fun c => match block_order !! bc_block c with
                            | Some target_idx => target_idx <=? block_idx
                            | None => false
                            end) (branch_destination (data i))
  then Some (BackEdge (branch_mnemonic op)) else None.

Definition inst_reason (i : Inst) (block_idx : Z) (block_order : gmap Z Z) : option RejectReason :=
  match classify_opcode (opcode (data i)) with
  | Some r => Some r
  | None => back_edge_reason i block_idx block_order
  end.

Definition block_idx (order : gmap Z Z) (b : Block) : Z := default usize_max (order !! block_id b).

(** Every instruction in layout order, with its block. *)
Definition scan_function (f : Function_) : list Rejection :=
  let order := block_layout_order f in
  layout f ≫= fun b => omap (fun i => mkRejection i (block_id b) <$> inst_reason i (block_idx order b) order) (insts b).

Fixpoint first_in_block (order : gmap Z Z) (b : Block) (l : list Inst) : option Rejection :=
  match l with
  | [] => None
  | i :: l =>
      match inst_reason i (block_idx order b) order with
      | Some r => Some (mkRejection i (block_id b) r)
      | None => first_in_block order b l
      end
  end.

Fixpoint first_in_blocks (order : gmap Z Z) (bs : list Block) : option Rejection :=
  match bs with
  | [] => None
  | b :: bs =>
      match first_in_block order b (insts b) with
      | Some r => Some r
      | None => first_in_blocks order bs
      end
  end.

Definition check_function (f : Function_) : option Rejection :=
  first_in_blocks (block_layout_order f) (layout f).
End RejectList.
