(* ===== verification/Lowering.v ===== *)
(** * Lowering Cranelift functions

    [Builder] is [lowering_builder.rs], [Signature] is [lower_signature.rs],
    [Families] the per-instruction lowerings [lower_arith.rs],
    [lower_float.rs], [lower_memory.rs], [lower_cf.rs], [lower_vector.rs] and
    [lower_conv.rs], [Driver] is [lowering_driver.rs], and [Adapter] is
    [blueprint_adapter.rs].  A lowering threads the builder as a state.  An
    [expect] that does not hold and an index out of range are the outcome
    [Panic]; [MissingArm] is the [SsaOverflow] of the memory family, for which
    the driver's match has no arm. *)

From S2P Require Import Prelude Core Ir LoweredIr.

Abbreviation cl_type := Clif.Type_.

(** ** [lower_signature.rs] *)
Module Signature.
Import LoweredIr.

Inductive SignatureLoweringError :=
| UnsupportedType (position : str) (ty : cl_type)
| UnsupportedArgumentPurpose (position : str) (purpose : Clif.ArgumentPurpose)
| UnsupportedCallConv (conv : Clif.CallConv).

Fixpoint cranelift_type_to_lowered (t : cl_type) : option LoweredType :=
  match t with
  | Clif.I8 => Some I8
  | Clif.I16 => Some I16
  | Clif.I32 => Some I32
  | Clif.I64 => Some I64
  | Clif.F32 => Some F32
  | Clif.F64 => Some F64
  | Clif.R32 | Clif.R64 => Some Ptr
  | Clif.Vector lane lanes =>
      match cranelift_type_to_lowered lane with
      | Some lane_ty =>
          if negb (is_int lane_ty || is_float lane_ty) then None
          else if u8_max <? lanes then None else Some (V128 lane_ty lanes)
      | None => None
      end
  | _ => None
  end.

Definition is_supported_call_conv (c : Clif.CallConv) : bool :=
  match c with Clif.SystemV | Clif.Fast | Clif.Cold => true | Clif.OtherConv _ => false end.

Definition lower_abi_param (kind : str) (idx : nat) (p : Clif.AbiParam) :
    result SignatureLoweringError LoweredType :=
  let position := kind ++ bytes_of " " ++ dec (Z.of_nat idx) in
  match Clif.purpose p with
  | Clif.OtherPurpose _ => Err (UnsupportedArgumentPurpose position (Clif.purpose p))
  | Clif.Normal =>
      ok_or (UnsupportedType position (Clif.param_type p)) (cranelift_type_to_lowered (Clif.param_type p))
  end.

Fixpoint lower_abi_params (kind : str) (idx : nat) (ps : list Clif.AbiParam) :
    result SignatureLoweringError (list LoweredType) :=
  match ps with
  | [] => Ok []
  | p :: ps => t ← lower_abi_param kind idx p; ts ← lower_abi_params kind (S idx) ps; Ok (t :: ts)
  end.

Definition lower_signature (sig : Clif.Signature) : result SignatureLoweringError LoweredSignature :=
  if negb (is_supported_call_conv (Clif.call_conv sig)) then Err (UnsupportedCallConv (Clif.call_conv sig))
  else
    params ← lower_abi_params (bytes_of "param") 0 (Clif.sig_params sig);
    returns ← lower_abi_params (bytes_of "return") 0 (Clif.sig_returns sig);
    Ok (LoweredIr.mkSignature params returns).
End Signature.

(** ** [lowering_errors.rs] *)
Record InstLocation := mkLocation { loc_block : Z; loc_inst_index : Z }.

(** The text of an unsupported type: Cranelift's, or the signature's error. *)
Inductive type_text := ShownType (t : cl_type) | SignatureText (e : Signature.SignatureLoweringError).

Inductive LoweringError :=
| UnsupportedOpcode (op : Clif.Opcode) (location : InstLocation)
| UnsupportedType (ty : type_text) (location : InstLocation)
| UndefinedValue (value : Z) (location : InstLocation)
| BadBlockReference (block : Z) (location : InstLocation)
| MalformedTerminator (block_id : Z)
| Rejected (reason : RejectList.RejectReason) (location : InstLocation).

Inductive failure := Error (e : LoweringError) | Panic | MissingArm.

(** ** [lowering_builder.rs] *)
Module Builder.
Record LoweringBuilder := mkBuilder {
  value_map : gmap Z Z;
  block_map : gmap Z Z;
  stack_slot_map : gmap Z Z;
  next_value_id : Z;
  next_block_id : Z;
}.

Definition new : LoweringBuilder := mkBuilder ∅ ∅ ∅ 0 0.

Abbreviation M := (stM LoweringBuilder failure).

Definition set_next_value (n : Z) (b : LoweringBuilder) : LoweringBuilder :=
  mkBuilder (value_map b) (block_map b) (stack_slot_map b) n (next_block_id b).

Definition bind_value (v id : Z) (b : LoweringBuilder) : LoweringBuilder :=
  mkBuilder (<[v := id]> (value_map b)) (block_map b) (stack_slot_map b) (next_value_id b) (next_block_id b).

Definition bind_stack_slot (ss id : Z) (b : LoweringBuilder) : LoweringBuilder :=
  mkBuilder (value_map b) (block_map b) (<[ss := id]> (stack_slot_map b)) (next_value_id b) (next_block_id b).

Definition alloc_value : M Z := fun b =>
  match checked_add u32_max (next_value_id b) 1 with
  | Some n => (Ok (next_value_id b), set_next_value n b)
  | None => (Err Panic, b)
  end.

Definition alloc_block : M Z := fun b =>
  match checked_add u32_max (next_block_id b) 1 with
  | Some n => (Ok (next_block_id b), mkBuilder (value_map b) (block_map b) (stack_slot_map b) (next_value_id b) n)
  | None => (Err Panic, b)
  end.

Definition get_or_alloc_value (v : Z) : M Z := fun b =>
  match value_map b !! v with
  | Some id => (Ok id, b)
  | None =>
      match alloc_value b with
      | (Ok id, b) => (Ok id, bind_value v id b)
      | r => r
      end
  end.

Definition get_or_alloc_block (k : Z) : M Z := fun b =>
  match block_map b !! k with
  | Some id => (Ok id, b)
  | None =>
      match alloc_block b with
      | (Ok id, b) =>
          (Ok id, mkBuilder (value_map b) (<[k := id]> (block_map b)) (stack_slot_map b) (next_value_id b) (next_block_id b))
      | r => r
      end
  end.

Definition get_or_alloc_stack_slot (ss : Z) : M Z := fun b =>
  match stack_slot_map b !! ss with
  | Some id => (Ok id, b)
  | None =>
      match alloc_value b with
      | (Ok id, b) => (Ok id, bind_stack_slot ss id b)
      | r => r
      end
  end.

(** A checked increment of the value counter: [None] when it is exhausted. *)
Definition fresh_id : M (option Z) := fun b =>
  match checked_add u32_max (next_value_id b) 1 with
  | Some n => (Ok (Some (next_value_id b)), set_next_value n b)
  | None => (Ok None, b)
  end.
End Builder.

(** ** The per-family lowerings

    [None] is "not my instruction" (or an operand that is not there): the
    driver then tries the next family. *)
Module Families.
Import LoweredIr Builder.

(** [?] on an option inside a lowering. *)
Definition try {A} (o : option A) (k : A -> M (option LoweredOp)) : M (option LoweredOp) :=
  match o with Some a => k a | None => mret None end.

Notation "x ←? o ; k" := (try o (fun x => k)) (at level 20, o at level 100, k at level 200).

(** [lookup] / [lookup_value] / [map_value]: an operand in the value map. *)
Definition operand (b : LoweringBuilder) (v : Z) : option Z := value_map b !! v.

Definition cranelift_int_type_to_lowered (t : cl_type) : option LoweredType :=
  match t with
  | Clif.I8 => Some I8 | Clif.I16 => Some I16 | Clif.I32 => Some I32 | Clif.I64 => Some I64
  | _ => None
  end.

(** *** Integer arithmetic *)

Definition arith_kind (op : Clif.Opcode) : option (LoweredType -> Z -> Z -> Z -> LoweredOp) :=
  match op with
  | Clif.Iadd => Some AddI
  | Clif.Isub => Some SubI
  | Clif.Imul => Some MulI
  | Clif.Sdiv => Some DivS
  | Clif.Udiv => Some DivU
  | Clif.Srem => Some RemS
  | Clif.Urem => Some RemU
  | _ => None
  end.

Definition lower_arith_inst (f : Clif.Function_) (i : Clif.Inst) : M (option LoweredOp) :=
  kind ←? arith_kind (Clif.opcode (Clif.data i));
  match Clif.inst_args (Clif.data i), Clif.results i with
  | [lhs_value; rhs_value], [result_value] =>
      ty ←? cranelift_int_type_to_lowered (Clif.value_type f result_value);
      b ← get_state;
      lhs ←? operand b lhs_value;
      rhs ←? operand b rhs_value;
      r ← fresh_id;
      result ←? r;
      b ← get_state;
      put_state (bind_value result_value result b) ≫= fun _ =>
      mret (Some (kind ty lhs rhs result))
  | _, _ => mret None
  end.

(** *** Floats *)

Definition is_float_family (op : Clif.Opcode) : bool :=
  match op with
  | Clif.Fadd | Clif.Fsub | Clif.Fmul | Clif.Fdiv | Clif.Fma | Clif.Fneg | Clif.Fabs => true
  | _ => false
  end.

(** [dfg.first_result], and [args[k]], which panic when there is none. *)
Definition first_result (i : Clif.Inst) : M Z :=
  match Clif.results i with v :: _ => mret v | [] => fail Panic end.
Definition arg (i : Clif.Inst) (k : nat) : M Z :=
  match Clif.inst_args (Clif.data i) !! k with Some v => mret v | None => fail Panic end.

Definition float_binary (i : Clif.Inst) (mk : Z -> Z -> LoweredOp) : M (option LoweredOp) :=
  a ← arg i 0; b ← get_state; lhs ←? operand b a;
  a ← arg i 1; b ← get_state; rhs ←? operand b a;
  mret (Some (mk lhs rhs)).

Definition float_unary (i : Clif.Inst) (mk : Z -> LoweredOp) : M (option LoweredOp) :=
  a ← arg i 0; b ← get_state; src ←? operand b a;
  mret (Some (mk src)).

Definition lower_float_inst (f : Clif.Function_) (i : Clif.Inst) : M (option LoweredOp) :=
  let op := Clif.opcode (Clif.data i) in
  if negb (is_float_family op) then mret None
  else
    result_value ← first_result i;
    ty ←? match Clif.value_type f result_value with
          | Clif.F32 => Some F32 | Clif.F64 => Some F64 | _ => None
          end;
    r ← fresh_id;
    result ←? r;
    match op with
    | Clif.Fadd => float_binary i (fun a b => AddF ty a b result)
    | Clif.Fsub => float_binary i (fun a b => SubF ty a b result)
    | Clif.Fmul => float_binary i (fun a b => MulF ty a b result)
    | Clif.Fdiv => float_binary i (fun a b => DivF ty a b result)
    | Clif.Fma =>
        v ← arg i 0; b ← get_state; a ←? operand b v;
        v ← arg i 1; b ← get_state; m ←? operand b v;
        v ← arg i 2; b ← get_state; c ←? operand b v;
        mret (Some (Fma ty a m c result))
    | Clif.Fneg => float_unary i (fun s => FNeg ty s result)
    | Clif.Fabs => float_unary i (fun s => FAbs ty s result)
    | _ => fail Panic
    end.

(** *** Memory *)

Inductive MemLowerError := UnmappedValue (v : Z) | MemUnsupportedType (t : cl_type) | SsaOverflow.

(** A panic or a memory error. *)
Inductive mem_failure := MemError (e : MemLowerError) | MemPanic.

Abbreviation MM := (stM LoweringBuilder mem_failure).

Definition mem_type_to_lowered (t : cl_type) : MM LoweredType :=
  match t with
  | Clif.I8 => mret I8 | Clif.I16 => mret I16 | Clif.I32 => mret I32 | Clif.I64 => mret I64
  | Clif.F32 => mret F32 | Clif.F64 => mret F64
  | other => fail (MemError (MemUnsupportedType other))
  end.

Definition mem_lookup_value (v : Z) : MM Z := fun b =>
  (ok_or (MemError (UnmappedValue v)) (value_map b !! v), b).

Definition mem_fresh_id : MM Z := fun b =>
  match checked_add u32_max (next_value_id b) 1 with
  | Some n => (Ok (next_value_id b), set_next_value n b)
  | None => (Err (MemError SsaOverflow), b)
  end.

Definition mem_first_result (i : Clif.Inst) : MM Z :=
  match Clif.results i with v :: _ => mret v | [] => fail MemPanic end.

(** The alloca's pointer, and the operation that makes it on first touch. *)
Definition ensure_stack_alloca (f : Clif.Function_) (ss : Z) (ty : LoweredType) : MM (Z * list LoweredOp) :=
  b ← get_state;
  match stack_slot_map b !! ss with
  | Some existing => mret (existing, [])
  | None =>
      match Clif.stack_size f ss with
      | None => fail MemPanic
      | Some bytes =>
          ptr_id ← mem_fresh_id;
          b ← get_state;
          put_state (bind_stack_slot ss ptr_id b) ≫= fun _ =>
          mret (ptr_id, [StackAlloc ty bytes ptr_id])
      end
  end.

Definition lower_memory_inst (f : Clif.Function_) (i : Clif.Inst) : MM (option (list LoweredOp)) :=
  match Clif.data i with
  | Clif.LoadData Clif.Load arg offset =>
      base ← mem_lookup_value arg;
      result_val ← mem_first_result i;
      ty ← mem_type_to_lowered (Clif.value_type f result_val);
      result_id ← mem_fresh_id;
      mret (Some [Load ty base offset result_id])
  | Clif.StoreData Clif.Store value_v base_v offset =>
      value ← mem_lookup_value value_v;
      base ← mem_lookup_value base_v;
      ty ← mem_type_to_lowered (Clif.value_type f value_v);
      mret (Some [Store ty value base offset])
  | Clif.StackLoadData Clif.StackLoad stack_slot offset =>
      result_val ← mem_first_result i;
      ty ← mem_type_to_lowered (Clif.value_type f result_val);
      '(alloca_ptr, emitted) ← ensure_stack_alloca f stack_slot ty;
      result_id ← mem_fresh_id;
      mret (Some (emitted ++ [Load ty alloca_ptr offset result_id]))
  | Clif.StackStoreData Clif.StackStore arg stack_slot offset =>
      value ← mem_lookup_value arg;
      ty ← mem_type_to_lowered (Clif.value_type f arg);
      '(alloca_ptr, emitted) ← ensure_stack_alloca f stack_slot ty;
      mret (Some (emitted ++ [Store ty value alloca_ptr offset]))
  | _ => mret None
  end.

(** *** Control flow *)

Definition map_block_call_args (b : LoweringBuilder) (args : list Z) : option (list Z) := mapM (operand b) args.

Fixpoint switch_cases (b : LoweringBuilder) (idx : Z) (calls : list Clif.BlockCall) : option (list (Z * Z)) :=
  match calls with
  | [] => Some []
  | c :: calls =>
      if negb (bool_decide (Clif.bc_args c = [])) then None
      else
        target ← block_map b !! Clif.bc_block c;
        rest ← switch_cases b (idx + 1) calls;
        Some ((as_u32 idx, target) :: rest)
  end.

Definition lower_cf_inst (b : LoweringBuilder) (i : Clif.Inst) : option LoweredOp :=
  match Clif.data i with
  | Clif.JumpData destination =>
      target ← block_map b !! Clif.bc_block destination;
      args ← map_block_call_args b (Clif.bc_args destination);
      Some (Br target args)
  | Clif.BrifData arg then_call else_call =>
      cond ← operand b arg;
      then_target ← block_map b !! Clif.bc_block then_call;
      else_target ← block_map b !! Clif.bc_block else_call;
      then_args ← map_block_call_args b (Clif.bc_args then_call);
      else_args ← map_block_call_args b (Clif.bc_args else_call);
      Some (CondBr cond then_target then_args else_target else_args)
  | Clif.BranchTableData arg default_call calls =>
      value ← operand b arg;
      default_target ← block_map b !! Clif.bc_block default_call;
      cases ← switch_cases b 0 calls;
      if negb (bool_decide (Clif.bc_args default_call = [])) then None
      else Some (Switch value default_target cases)
  | Clif.MultiAryData Clif.Return args =>
      values ← map_block_call_args b args;
      Some (Return values)
  | _ => None
  end.

(** *** Vectors *)

Definition lane_to_lowered (t : cl_type) : option LoweredType :=
  match t with
  | Clif.I8 => Some I8 | Clif.I16 => Some I16 | Clif.I32 => Some I32 | Clif.I64 => Some I64
  | Clif.F32 => Some F32 | Clif.F64 => Some F64
  | _ => None
  end.

Definition vector_lane_type (t : cl_type) : option LoweredType :=
  if negb (Clif.is_vector t) then None else lane_to_lowered (Clif.lane_type t).

Definition min_max (op : Clif.Opcode) : option (LoweredType -> Z -> Z -> Z -> LoweredOp) :=
  match op with
  | Clif.Fmin | Clif.Smin => Some (fun t => VMin t true)
  | Clif.Umin => Some (fun t => VMin t false)
  | Clif.Fmax | Clif.Smax => Some (fun t => VMax t true)
  | Clif.Umax => Some (fun t => VMax t false)
  | _ => None
  end.

Definition lower_vector_inst (f : Clif.Function_) (i : Clif.Inst) : M (option LoweredOp) :=
  match Clif.data i with
  | Clif.BinaryData op x y =>
      rv ← first_result i;
      lane_ty ←? vector_lane_type (Clif.value_type f rv);
      b ← get_state;
      lhs ←? operand b x;
      rhs ←? operand b y;
      r ← fresh_id;
      result ←? r;
      mk ←? min_max op;
      mret (Some (mk lane_ty lhs rhs result))
  | Clif.UnaryData Clif.Splat x =>
      rv ← first_result i;
      lane_ty ←? vector_lane_type (Clif.value_type f rv);
      b ← get_state;
      src ←? operand b x;
      r ← fresh_id;
      result ←? r;
      mret (Some (VSplat lane_ty src result))
  | Clif.UnaryData Clif.VallTrue x =>
      if negb (Clif.is_vector (Clif.value_type f x)) then mret None
      else b ← get_state; src ←? operand b x; r ← fresh_id; result ←? r; mret (Some (VAllTrue src result))
  | Clif.UnaryData Clif.VanyTrue x =>
      if negb (Clif.is_vector (Clif.value_type f x)) then mret None
      else b ← get_state; src ←? operand b x; r ← fresh_id; result ←? r; mret (Some (VAnyTrue src result))
  | Clif.TernaryData Clif.Bitselect c x y =>
      rv ← first_result i;
      lane_ty ←? vector_lane_type (Clif.value_type f rv);
      b ← get_state;
      cond ←? operand b c;
      then_v ←? operand b x;
      else_v ←? operand b y;
      r ← fresh_id;
      result ←? r;
      mret (Some (VSelect lane_ty cond then_v else_v result))
  | _ => mret None
  end.

(** *** Conversions *)

Definition both_int (a b : LoweredType) : bool := is_int a && is_int b.

(** One source, one result, both of scalar type. *)
Definition lower_cast (f : Clif.Function_) (i : Clif.Inst) (ints_only : bool)
    (mk : LoweredType -> LoweredType -> Z -> Z -> LoweredOp) : M (option LoweredOp) :=
  match Clif.inst_args (Clif.data i), Clif.results i with
  | [src_v], [result_v] =>
      from_ty ←? lane_to_lowered (Clif.value_type f src_v);
      to_ty ←? lane_to_lowered (Clif.value_type f result_v);
      if ints_only && negb (both_int from_ty to_ty) then mret None
      else
        b ← get_state;
        src ←? operand b src_v;
        r ← fresh_id;
        result ←? r;
        mret (Some (mk from_ty to_ty src result))
  | _, _ => mret None
  end.

Definition lower_conv_inst (f : Clif.Function_) (i : Clif.Inst) : M (option LoweredOp) :=
  match Clif.opcode (Clif.data i) with
  | Clif.Select =>
      match Clif.inst_args (Clif.data i), Clif.results i with
      | [cond_v; then_v; else_v], [result_v] =>
          ty ←? lane_to_lowered (Clif.value_type f result_v);
          b ← get_state;
          cond ←? operand b cond_v;
          then_id ←? operand b then_v;
          else_id ←? operand b else_v;
          r ← fresh_id;
          result ←? r;
          mret (Some (Select ty cond then_id else_id result))
      | _, _ => mret None
      end
  | Clif.Bitcast => lower_cast f i false Bitcast
  | Clif.Ireduce => lower_cast f i true TruncI
  | Clif.Uextend => lower_cast f i true ExtendU
  | Clif.Sextend => lower_cast f i true ExtendS
  | _ => mret None
  end.
End Families.

(** ** [lowering_driver.rs] *)
Module Driver.
Import LoweredIr Builder Families.

(** The other families leave the binding of the result to the driver. *)
Definition bind_result_if_any (i : Clif.Inst) (op : LoweredOp) (b : LoweringBuilder) : LoweringBuilder :=
  match op_result op, Clif.results i with
  | Some lid, v :: _ => bind_value v lid b
  | _, _ => b
  end.

Definition bind_memory_result (i : Clif.Inst) (emitted : list LoweredOp) (b : LoweringBuilder) : LoweringBuilder :=
  match Clif.results i, head (omap op_result (rev emitted)) with
  | v :: _, Some lid => bind_value v lid b
  | _, _ => b
  end.

Definition memory_attempt (f : Clif.Function_) (i : Clif.Inst) (loc : InstLocation) :
    M (option (list LoweredOp)) := fun b =>
  match lower_memory_inst f i b with
  | (Ok r, b) => (Ok r, b)
  | (Err (MemError (UnmappedValue v)), b) => (Err (Error (UndefinedValue v loc)), b)
  | (Err (MemError (MemUnsupportedType t)), b) => (Err (Error (UnsupportedType (ShownType t) loc)), b)
  | (Err (MemError SsaOverflow), b) => (Err MissingArm, b)
  | (Err MemPanic, b) => (Err Panic, b)
  end.

(** The operations an instruction becomes: arithmetic, float, memory, control
    flow, vector, conversion, in that order. *)
Definition dispatch_inst (f : Clif.Function_) (i : Clif.Inst) (loc : InstLocation) : M (list LoweredOp) :=
  arith ← lower_arith_inst f i;
  match arith with
  | Some op => mret [op]
  | None =>
  float ← lower_float_inst f i;
  match float with
  | Some op => b ← get_state; put_state (bind_result_if_any i op b) ≫= fun _ => mret [op]
  | None =>
  memory ← memory_attempt f i loc;
  match memory with
  | Some emitted => b ← get_state; put_state (bind_memory_result i emitted b) ≫= fun _ => mret emitted
  | None =>
  b ← get_state;
  match lower_cf_inst b i with
  | Some op => mret [op]
  | None =>
  vector ← lower_vector_inst f i;
  match vector with
  | Some op => b ← get_state; put_state (bind_result_if_any i op b) ≫= fun _ => mret [op]
  | None =>
  conv ← lower_conv_inst f i;
  match conv with
  | Some op => b ← get_state; put_state (bind_result_if_any i op b) ≫= fun _ => mret [op]
  | None => fail (Error (UnsupportedOpcode (Clif.opcode (Clif.data i)) loc))
  end end end end end end.

Fixpoint lower_insts (f : Clif.Function_) (block idx : Z) (l : list Clif.Inst) : M (list LoweredOp) :=
  match l with
  | [] => mret []
  | i :: l =>
      first ← dispatch_inst f i (mkLocation block (as_u32 idx));
      rest ← lower_insts f block (idx + 1) l;
      mret (first ++ rest)
  end.

Fixpoint lower_params (f : Clif.Function_) (block : Z) (ps : list (Z * Z)) : M (list (Z * LoweredType)) :=
  match ps with
  | [] => mret []
  | (id, v) :: ps =>
      match Signature.cranelift_type_to_lowered (Clif.value_type f v) with
      | None => fail (Error (UnsupportedType (ShownType (Clif.value_type f v)) (mkLocation block 0)))
      | Some lty => rest ← lower_params f block ps; mret ((id, lty) :: rest)
      end
  end.

Fixpoint alloc_blocks (bs : list Clif.Block) : M () :=
  match bs with
  | [] => mret ()
  | b :: bs => _ ← get_or_alloc_block (Clif.block_id b); alloc_blocks bs
  end.

Fixpoint alloc_params (ps : list Z) : M (list (Z * Z)) :=
  match ps with
  | [] => mret []
  | p :: ps => id ← get_or_alloc_value p; rest ← alloc_params ps; mret ((id, p) :: rest)
  end.

(** The parameters of every block; a later block with the same name replaces
    an earlier one. *)
Fixpoint seed_params (bs : list Clif.Block) (seeded : gmap Z (list (Z * Z))) : M (gmap Z (list (Z * Z))) :=
  match bs with
  | [] => mret seeded
  | b :: bs =>
      params ← alloc_params (Clif.block_params b);
      seed_params bs (<[Clif.block_id b := params]> seeded)
  end.

Definition expect {A} (o : option A) : M A :=
  match o with Some a => mret a | None => fail Panic end.

Fixpoint lower_blocks (f : Clif.Function_) (seeded : gmap Z (list (Z * Z))) (bs : list Clif.Block) :
    M (list LoweredBlock) :=
  match bs with
  | [] => mret []
  | cb :: bs =>
      b ← get_state;
      block_id ← expect (block_map b !! Clif.block_id cb);
      seeds ← expect (seeded !! Clif.block_id cb);
      params ← lower_params f (Clif.block_id cb) seeds;
      ops ← lower_insts f (Clif.block_id cb) 0 (Clif.insts cb);
      rest ← lower_blocks f seeded bs;
      mret (LoweredIr.mkBlock block_id params ops :: rest)
  end.

Definition function_name (n : Clif.UserFuncName) : str :=
  match n with
  | Clif.Testcase t => t
  | Clif.User namespace index => bytes_of "user" ++ dec namespace ++ bytes_of "_" ++ dec index
  end.

Definition lower_body (f : Clif.Function_) : M (list LoweredBlock * Z) :=
  _ ← alloc_blocks (Clif.layout f);
  seeded ← seed_params (Clif.layout f) ∅;
  blocks ← lower_blocks f seeded (Clif.layout f);
  match Clif.layout f with
  | [] => fail (Error (MalformedTerminator 0))
  | entry :: _ => b ← get_state; id ← expect (block_map b !! Clif.block_id entry); mret (blocks, id)
  end.

Definition lower_function (f : Clif.Function_) : result failure LoweredFunction :=
  match Signature.lower_signature (Clif.signature f) with
  | Err e => Err (Error (UnsupportedType (SignatureText e) (mkLocation 0 0)))
  | Ok signature =>
      match RejectList.check_function f with
      | Some rejection =>
          Err (Error (Rejected (RejectList.reason rejection) (mkLocation (RejectList.rejected_block rejection) 0)))
      | None =>
          match (lower_body f new).1 with
          | Err e => Err e
          | Ok (blocks, entry) =>
              Ok (LoweredIr.mkFunction (function_name (Clif.name f)) signature blocks entry)
          end
      end
  end.

(** [detector.rs]: the opt-in route through the pipeline; a lowering error is
    no candidate. *)
Definition try_pliron_candidate (enabled : bool) (f : Clif.Function_) : result failure (option LoweredFunction) :=
  if negb enabled then Ok None
  else match RejectList.check_function f with
       | Some _ => Ok None
       | None =>
           match lower_function f with
           | Ok lowered => Ok (Some lowered)
           | Err (Error _) => Ok None
           | Err e => Err e
           end
       end.
End Driver.

(** ** [blueprint_adapter.rs] *)
Module Adapter.
Import LoweredIr.

Definition DEFAULT_LANES : Z := 4.

Definition lowered_type_to_elem (t : LoweredType) : option Ir.ElemType :=
  match t with
  | I8 => Some Ir.I8 | I16 => Some Ir.I16 | I32 => Some Ir.I32 | I64 => Some Ir.I64
  | F32 => Some Ir.F32 | F64 => Some Ir.F64
  | _ => None
  end.

Inductive AdapterError :=
| UnmatchedPattern (reason : str)
| MultiBlockNotSupported (block_count : Z)
| Malformed.

Definition debug_op_name (o : LoweredOp) : string :=
  match o with
  | AddI _ _ _ _ => "AddI" | SubI _ _ _ _ => "SubI" | MulI _ _ _ _ => "MulI" | DivS _ _ _ _ => "DivS"
  | DivU _ _ _ _ => "DivU" | RemS _ _ _ _ => "RemS" | RemU _ _ _ _ => "RemU" | AddF _ _ _ _ => "AddF"
  | SubF _ _ _ _ => "SubF" | MulF _ _ _ _ => "MulF" | DivF _ _ _ _ => "DivF" | Fma _ _ _ _ _ => "Fma"
  | FNeg _ _ _ => "FNeg" | FAbs _ _ _ => "FAbs" | Load _ _ _ _ => "Load" | Store _ _ _ _ => "Store"
  | StackAlloc _ _ _ => "StackAlloc" | Br _ _ => "Br" | CondBr _ _ _ _ _ => "CondBr" | Switch _ _ _ => "Switch"
  | Return _ => "Return" | VMin _ _ _ _ _ => "VMin" | VMax _ _ _ _ _ => "VMax" | VSplat _ _ _ => "VSplat"
  | VSelect _ _ _ _ _ => "VSelect" | VAllTrue _ _ => "VAllTrue" | VAnyTrue _ _ => "VAnyTrue"
  | Select _ _ _ _ _ => "Select" | Bitcast _ _ _ _ => "Bitcast" | TruncI _ _ _ _ => "TruncI"
  | ExtendU _ _ _ _ => "ExtendU" | ExtendS _ _ _ _ => "ExtendS"
  end.

Definition unsupported_elem (t : LoweredType) : AdapterError :=
  UnmatchedPattern (bytes_of "arith op element type `" ++ display_type t ++ bytes_of "` has no blueprint representation").

(** The blueprint operation of the middle instruction, with its element. *)
Definition kernel_op (o : LoweredOp) : result AdapterError (Ir.TensorWasmOp * Ir.ElemType) :=
  let as_op mk t := elem ← ok_or (unsupported_elem t) (lowered_type_to_elem t); Ok (mk elem DEFAULT_LANES, elem) in
  match o with
  | AddF t _ _ _ | AddI t _ _ _ => as_op Ir.VecAdd t
  | MulF t _ _ _ | MulI t _ _ _ => as_op Ir.VecMul t
  | Fma t _ _ _ _ => as_op Ir.VecFma t
  | other =>
      Err (UnmatchedPattern (bytes_of "unsupported middle op: " ++ bytes_of (debug_op_name other) ++
        bytes_of " (wave 1 recognises Add/Mul/Fma only; MatMul deferred to wave 3)"))
  end.

Definition lowered_function_to_blueprint (f : LoweredFunction) : result AdapterError Ir.TensorWasmKernelBlueprint :=
  match blocks f with
  | [] => Err Malformed
  | _ :: _ :: _ => Err (MultiBlockNotSupported (Z.of_nat (length (blocks f))))
  | [block] =>
      let n := dec (Z.of_nat (length (ops block))) in
      last_ ← ok_or Malformed (last (ops block));
      if negb (is_terminator last_) then Err Malformed
      else if negb (match last_ with Return _ => true | _ => false end)
      then Err (UnmatchedPattern (bytes_of "terminator is not Return (" ++ n ++ bytes_of " ops in block)"))
      else
        match ops block with
        | [op0; op1; op2; _] =>
            if negb (match op0 with Load _ _ _ _ => true | _ => false end)
            then Err (UnmatchedPattern (bytes_of "no Load before arith op"))
            else if negb (match op2 with Store _ _ _ _ => true | _ => false end)
            then Err (UnmatchedPattern (bytes_of "no Store after arith op"))
            else
              '(op, elem) ← kernel_op op1;
              Ok (Ir.mkBlueprint (name f)
                    [Ir.LoadUnified elem DEFAULT_LANES; op; Ir.StoreUnified elem DEFAULT_LANES]
                    Ir.default_grid_hint 0)
        | _ => Err (UnmatchedPattern (bytes_of "expected exactly 4 ops (Load, arith, Store, Return), got " ++ n))
        end
  end.
End Adapter.
