(* ===== verification/LoweringSem.v ===== *)
(** * What Cranelift functions and their lowerings compute

    An executable semantics for each of the two languages of [LoweredIr],
    restricted to what the reject list lets through: no floating-point
    arithmetic, no division, no calls.  Values are bit patterns.  Device memory
    is a finite map of bytes; reading or writing outside it, reading a stack
    byte nobody wrote and using an undefined value are stuck.  Vectors have 128
    bits in the lowered language, where an operation names only the lane type. *)

From S2P Require Import Prelude Core Ir LoweredIr.

Abbreviation memory := (gmap Z u8).

(** ** Lanes and memory cells *)
Module Bits.
Definition lanes (w n z : Z) : list Z := (fun i => Z.shiftr z (w * i) mod 2 ^ w) <$> seqZ 0 n.

Definition pack (w : Z) (l : list Z) : Z := foldr (fun x acc => x + 2 ^ w * acc) 0 l.

Definition lanewise (w n : Z) (g : Z -> Z -> Z) (a b : Z) : Z := pack w (zip_with g (lanes w n a) (lanes w n b)).

Definition smin (w a b : Z) : Z := if as_signed w a <=? as_signed w b then a else b.
Definition smax (w a b : Z) : Z := if as_signed w a <=? as_signed w b then b else a.

Definition min_of (signed : bool) (w : Z) : Z -> Z -> Z := if signed then smin w else Z.min.
Definition max_of (signed : bool) (w : Z) : Z -> Z -> Z := if signed then smax w else Z.max.

Definition load (m : memory) (addr : Z) (n : nat) : option Z :=
  bs ← mapM (fun k => m !! ((addr + Z.of_nat k) mod 2 ^ 64)) (seq 0 n);
  Some (from_le_bytes bs).

Fixpoint store_bytes (m : memory) (addr : Z) (bs : list u8) : option memory :=
  match bs with
  | [] => Some m
  | b :: bs =>
      let a := addr mod 2 ^ 64 in
      if bool_decide (is_Some (m !! a)) then store_bytes (<[a := b]> m) (addr + 1) bs else None
  end.

Definition store (m : memory) (addr : Z) (n : nat) (z : Z) : option memory := store_bytes m addr (to_le_bytes n z).

(** A stack slot: [None] where nothing was stored. *)
Abbreviation slot := (list (option u8)).

Definition slot_new (bytes : Z) : slot := replicate (Z.to_nat bytes) None.

Definition slot_load (s : slot) (off : Z) (n : nat) : option Z :=
  if (0 <=? off) && (off + Z.of_nat n <=? Z.of_nat (length s)) then
    bs ← mapM id (take n (drop (Z.to_nat off) s)); Some (from_le_bytes bs)
  else None.

Definition slot_store (s : slot) (off : Z) (n : nat) (z : Z) : option slot :=
  if (0 <=? off) && (off + Z.of_nat n <=? Z.of_nat (length s)) then
    Some (take (Z.to_nat off) s ++ (Some <$> to_le_bytes n z) ++ drop (Z.to_nat off + n) s)
  else None.
End Bits.

Inductive run_result := Stuck | OutOfFuel | Returned (values : list Z) (m : memory).

(** Where an instruction leaves control. *)
Inductive flow (S V : Type) :=
| Next (s : S)
| Goto (target : Z) (args : list V) (s : S)
| Ret (values : list V) (s : S).
Arguments Next {S V} s.
Arguments Goto {S V} target args s.
Arguments Ret {S V} values s.

Fixpoint exec_list {S V I} (step : I -> S -> option (flow S V)) (l : list I) (s : S) : option (flow S V) :=
  match l with
  | [] => None
  | i :: l =>
      match step i s with
      | Some (Next s) => exec_list step l s
      | r => r
      end
  end.

Definition bind_params {V} (ps : list Z) (vs : list V) (env : gmap Z V) : option (gmap Z V) :=
  if bool_decide (length ps = length vs)
  then Some (foldl (fun env '(p, v) => <[p := v]> env) env (zip ps vs)) else None.

(** ** Cranelift *)
Module ClifSem.
Import Clif.

Definition scalar_bits (t : Type_) : option Z :=
  match t with
  | I8 => Some 8 | I16 => Some 16 | I32 | F32 => Some 32 | I64 | F64 => Some 64
  | _ => None
  end.

Definition int_bits (t : Type_) : option Z :=
  match t with I8 => Some 8 | I16 => Some 16 | I32 => Some 32 | I64 => Some 64 | _ => None end.

Definition bytes (t : Type_) : option nat := (fun w => Z.to_nat (w / 8)) <$> scalar_bits t.

(** The lanes of a vector type: their width and their number. *)
Definition shape (t : Type_) : option (Z * Z) :=
  match t with Vector lane n => w ← scalar_bits lane; Some (w, n) | _ => None end.

Definition int_op (op : Opcode) : option (Z -> Z -> Z) :=
  match op with Iadd => Some Z.add | Isub => Some Z.sub | Imul => Some Z.mul | _ => None end.

Definition lane_op (op : Opcode) : option (Z -> Z -> Z -> Z) :=
  match op with
  | Smin => Some (Bits.min_of true) | Umin => Some (Bits.min_of false)
  | Smax => Some (Bits.max_of true) | Umax => Some (Bits.max_of false)
  | _ => None
  end.

(** An operation without effects: its operands with their types, the type of
    its result. *)
Definition eval (op : Opcode) (args : list (Type_ * Z)) (rt : Type_) : option Z :=
  match op, args with
  | (Iadd | Isub | Imul), [(_, a); (_, b)] =>
      g ← int_op op; w ← int_bits rt; Some (g a b mod 2 ^ w)
  | (Smin | Umin | Smax | Umax), [(_, a); (_, b)] =>
      g ← lane_op op; '(w, n) ← shape rt; Some (Bits.lanewise w n (g w) a b)
  | Splat, [(_, a)] => '(w, n) ← shape rt; Some (Bits.pack w (replicate (Z.to_nat n) (a mod 2 ^ w)))
  | VallTrue, [(t, a)] =>
      if bool_decide (rt = I8) then '(w, n) ← shape t; Some (Z.b2z (forallb (fun x => negb (x =? 0)) (Bits.lanes w n a)))
      else None
  | VanyTrue, [(t, a)] =>
      if bool_decide (rt = I8) then '(w, n) ← shape t; Some (Z.b2z (existsb (fun x => negb (x =? 0)) (Bits.lanes w n a)))
      else None
  | Bitselect, [(_, c); (_, x); (_, y)] => Some (Z.lor (Z.land c x) (Z.ldiff y c))
  | Select, [(_, c); (_, x); (_, y)] => Some (if c =? 0 then y else x)
  | Bitcast, [(_, a)] => Some a
  | Ireduce, [(_, a)] => w ← int_bits rt; Some (a mod 2 ^ w)
  | Uextend, [(t, a)] => w ← int_bits t; Some (a mod 2 ^ w)
  | Sextend, [(t, a)] => w ← int_bits t; w' ← int_bits rt; Some (as_signed w a mod 2 ^ w')
  | _, _ => None
  end.

Record state := mkState { env : gmap Z Z; mem : memory; slots : gmap Z Bits.slot }.

Definition set_env (v z : Z) (s : state) : state := mkState (<[v := z]> (env s)) (mem s) (slots s).

Definition goto (c : BlockCall) (s : state) : option (flow state Z) :=
  args ← mapM (fun v => env s !! v) (bc_args c); Some (Goto (bc_block c) args s).

(** The instructions without effects, by their data. *)
Definition effect_free (d : InstructionData) : bool :=
  match d with
  | LoadData Load _ _ | StoreData Store _ _ _ | StackLoadData StackLoad _ _ | StackStoreData StackStore _ _ _
  | JumpData _ | BrifData _ _ _ | BranchTableData _ _ _ | MultiAryData Return _ => false
  | _ => true
  end.

Definition eval_inst (f : Function_) (i : Inst) (r : Z) (s : state) : option Z :=
  vs ← mapM (fun v => z ← env s !! v; Some (value_type f v, z)) (inst_args (data i));
  eval (opcode (data i)) vs (value_type f r).

Definition exec_inst (f : Function_) (i : Inst) (s : state) : option (flow state Z) :=
  match data i with
  | LoadData Load arg off =>
      match results i with
      | [r] =>
          base ← env s !! arg; n ← bytes (value_type f r);
          z ← Bits.load (mem s) (base + off) n; Some (Next (set_env r z s))
      | _ => None
      end
  | StoreData Store v b off =>
      z ← env s !! v; base ← env s !! b; n ← bytes (value_type f v);
      m ← Bits.store (mem s) (base + off) n z; Some (Next (mkState (env s) m (slots s)))
  | StackLoadData StackLoad ss off =>
      match results i with
      | [r] =>
          n ← bytes (value_type f r); sl ← slots s !! ss;
          z ← Bits.slot_load sl off n; Some (Next (set_env r z s))
      | _ => None
      end
  | StackStoreData StackStore v ss off =>
      z ← env s !! v; n ← bytes (value_type f v); sl ← slots s !! ss;
      sl ← Bits.slot_store sl off n z; Some (Next (mkState (env s) (mem s) (<[ss := sl]> (slots s))))
  | JumpData c => goto c s
  | BrifData c t e => z ← env s !! c; goto (if z =? 0 then e else t) s
  | BranchTableData v d cs => z ← env s !! v; goto (default d (if z <? 0 then None else cs !! Z.to_nat z)) s
  | MultiAryData Return args => vs ← mapM (fun v => env s !! v) args; Some (Ret vs s)
  | _ =>
      match results i with
      | [r] => z ← eval_inst f i r s; Some (Next (set_env r z s))
      | _ => None
      end
  end.

Definition block_of (f : Function_) (b : Z) : option Block := List.find (fun k => block_id k =? b) (layout f).

Fixpoint run_from (fuel : nat) (f : Function_) (b : Z) (args : list Z) (s : state) : run_result :=
  match fuel with
  | O => OutOfFuel
  | S fuel =>
      match block_of f b with
      | None => Stuck
      | Some blk =>
          match bind_params (block_params blk) args (env s) with
          | None => Stuck
          | Some e =>
              match exec_list (exec_inst f) (insts blk) (mkState e (mem s) (slots s)) with
              | Some (Goto b args s) => run_from fuel f b args s
              | Some (Ret vs s) => Returned vs (mem s)
              | _ => Stuck
              end
          end
      end
  end.

(** The slots an instruction touches, and every slot of a function with
    nothing stored in it. *)
Definition inst_slots (i : Inst) : list Z :=
  match data i with StackLoadData StackLoad ss _ | StackStoreData StackStore _ ss _ => [ss] | _ => [] end.

Definition fresh_slots (f : Function_) : gmap Z Bits.slot :=
  list_to_map (omap (fun ss => (fun n => (ss, Bits.slot_new n)) <$> stack_size f ss)
                 (layout f ≫= fun b => insts b ≫= inst_slots)).

Definition run (fuel : nat) (f : Function_) (args : list Z) (m : memory) : run_result :=
  match layout f with
  | [] => Stuck
  | b :: _ => run_from fuel f (block_id b) args (mkState ∅ m (fresh_slots f))
  end.
End ClifSem.

(** ** The lowered language *)
Module LoweredSem.
Import LoweredIr.

Inductive value := Int (ty : LoweredType) (z : Z) | SlotPtr (p : Z).

Record state := mkState { env : gmap Z value; mem : memory; allocas : gmap Z Bits.slot }.

Definition set_env (r : Z) (v : value) (s : state) : state := mkState (<[r := v]> (env s)) (mem s) (allocas s).

Definition int_of (v : value) : option Z := match v with Int _ z => Some z | SlotPtr _ => None end.

Definition get (s : state) (x : Z) : option Z := env s !! x ≫= int_of.

Definition bytes (t : LoweredType) : option nat := (fun w => Z.to_nat (w / 8)) <$> scalar_bits t.

Definition next_int (r : Z) (t : LoweredType) (z : Z) (s : state) : option (flow state value) :=
  Some (Next (set_env r (Int t z) s)).

Definition int_binary (g : Z -> Z -> Z) (t : LoweredType) (a b r : Z) (s : state) : option (flow state value) :=
  if negb (is_int t) then None
  else x ← get s a; y ← get s b; w ← scalar_bits t; next_int r t (g x y mod 2 ^ w) s.

Definition vec_binary (g : Z -> Z -> Z -> Z) (t : LoweredType) (a b r : Z) (s : state) : option (flow state value) :=
  x ← get s a; y ← get s b; w ← scalar_bits t;
  next_int r (V128 t (128 / w)) (Bits.lanewise w (128 / w) (g w) x y) s.

(** The lanes of a vector value. *)
Definition vec_lanes (s : state) (x : Z) : option (list Z) :=
  match env s !! x with
  | Some (Int (V128 lane n) z) => w ← scalar_bits lane; Some (Bits.lanes w n z)
  | _ => None
  end.

Definition goto (target : Z) (args : list Z) (s : state) : option (flow state value) :=
  vs ← mapM (fun x => env s !! x) args; Some (Goto target vs s).

Definition exec_op (o : LoweredOp) (s : state) : option (flow state value) :=
  match o with
  | AddI t a b r => int_binary Z.add t a b r s
  | SubI t a b r => int_binary Z.sub t a b r s
  | MulI t a b r => int_binary Z.mul t a b r s
  | Load t base off r =>
      n ← bytes t;
      v ← env s !! base;
      z ← match v with
          | Int _ addr => Bits.load (mem s) (addr + off) n
          | SlotPtr p => sl ← allocas s !! p; Bits.slot_load sl off n
          end;
      next_int r t z s
  | Store t v base off =>
      n ← bytes t;
      z ← get s v;
      p ← env s !! base;
      match p with
      | Int _ addr => m ← Bits.store (mem s) (addr + off) n z; Some (Next (mkState (env s) m (allocas s)))
      | SlotPtr p =>
          sl ← allocas s !! p; sl ← Bits.slot_store sl off n z;
          Some (Next (mkState (env s) (mem s) (<[p := sl]> (allocas s))))
      end
  | StackAlloc _ n r =>
      Some (Next (mkState (<[r := SlotPtr r]> (env s)) (mem s) (<[r := Bits.slot_new n]> (allocas s))))
  | Br target args => goto target args s
  | CondBr c then_ ta else_ ea => z ← get s c; if z =? 0 then goto else_ ea s else goto then_ ta s
  | Switch v d cases =>
      z ← get s v;
      goto (match List.find (fun '(k, _) => k =? z) cases with Some (_, t) => t | None => d end) [] s
  | Return vs => vs ← mapM (fun x => env s !! x) vs; Some (Ret vs s)
  | VMin t signed a b r => vec_binary (Bits.min_of signed) t a b r s
  | VMax t signed a b r => vec_binary (Bits.max_of signed) t a b r s
  | VSplat t a r =>
      x ← get s a; w ← scalar_bits t;
      next_int r (V128 t (128 / w)) (Bits.pack w (replicate (Z.to_nat (128 / w)) (x mod 2 ^ w))) s
  | VSelect t c a b r =>
      m ← get s c; x ← get s a; y ← get s b; w ← scalar_bits t;
      let pick '(k, (u, v)) := if k =? 0 then v else u in
      let n := 128 / w in
      next_int r (V128 t n) (Bits.pack w (pick <$> zip (Bits.lanes w n m) (zip (Bits.lanes w n x) (Bits.lanes w n y)))) s
  | VAllTrue a r => l ← vec_lanes s a; next_int r Bool (Z.b2z (forallb (fun x => negb (x =? 0)) l)) s
  | VAnyTrue a r => l ← vec_lanes s a; next_int r Bool (Z.b2z (existsb (fun x => negb (x =? 0)) l)) s
  | Select t c a b r =>
      z ← get s c; x ← get s a; y ← get s b; next_int r t (if z =? 0 then y else x) s
  | Bitcast _ t a r => x ← get s a; next_int r t x s
  | TruncI _ t a r => x ← get s a; w ← scalar_bits t; next_int r t (x mod 2 ^ w) s
  | ExtendU from t a r => x ← get s a; w ← scalar_bits from; next_int r t (x mod 2 ^ w) s
  | ExtendS from t a r =>
      x ← get s a; w ← scalar_bits from; w' ← scalar_bits t; next_int r t (as_signed w x mod 2 ^ w') s
  | _ => None
  end.

Fixpoint run_from (fuel : nat) (f : LoweredFunction) (b : Z) (args : list value) (s : state) : run_result :=
  match fuel with
  | O => OutOfFuel
  | S fuel =>
      match block f b with
      | None => Stuck
      | Some blk =>
          match bind_params (params blk).*1 args (env s) with
          | None => Stuck
          | Some e =>
              match exec_list exec_op (ops blk) (mkState e (mem s) (allocas s)) with
              | Some (Goto b args s) => run_from fuel f b args s
              | Some (Ret vs s) => match mapM int_of vs with Some zs => Returned zs (mem s) | None => Stuck end
              | _ => Stuck
              end
          end
      end
  end.

(** Arguments take the types of the entry block's parameters. *)
Definition run (fuel : nat) (f : LoweredFunction) (args : list Z) (m : memory) : run_result :=
  match block f (entry f) with
  | None => Stuck
  | Some blk =>
      if bool_decide (length args = length (params blk))
      then run_from fuel f (entry f) (zip_with Int (params blk).*2 args) (mkState ∅ m ∅) else Stuck
  end.
End LoweredSem.
