(* ===== verification/LoweringFacts.v ===== *)
(** * One instruction, lowered

    [DispatchFacts] says what one instruction becomes, [BuilderFacts] that the
    numbering it keeps is a renaming, [SimulationFacts] that the operations it
    became compute what it computes. *)

From S2P Require Import Prelude Core Ir LoweredIr Lowering LoweringSem.

Module DispatchFacts.
Import LoweredIr Builder Families Driver.

(** A lowered value keeps its lanes' type. *)
Definition vec_typed (t : cl_type) (lt : LoweredType) : Prop :=
  Clif.is_vector t = true -> Signature.cranelift_type_to_lowered t = Some lt.

(** Vectors have 128 bits, as WebAssembly's do. *)
Definition vec128 (t : cl_type) : Prop :=
  match t with Clif.Vector lane n => exists w, ClifSem.scalar_bits lane = Some w /\ w * n = 128 | _ => True end.

Definition operands_rel (f : Clif.Function_) (b : LoweringBuilder) (s : ClifSem.state) (ts : LoweredSem.state) : Prop :=
  forall v z x, ClifSem.env s !! v = Some z -> value_map b !! v = Some x ->
    exists lt, LoweredSem.env ts !! x = Some (LoweredSem.Int lt z) /\ vec_typed (Clif.value_type f v) lt.

(** [o] computes into [x] what [i] computes into [r]; bit selection apart. *)
Definition computes (f : Clif.Function_) (b : LoweringBuilder) (i : Clif.Inst) (o : LoweredOp) (r x : Z) : Prop :=
  Clif.opcode (Clif.data i) <> Clif.Bitselect ->
  forall s ts z, (forall v, vec128 (Clif.value_type f v)) -> operands_rel f b s ts ->
    ClifSem.eval_inst f i r s = Some z ->
    exists lt, LoweredSem.exec_op o ts = Some (Next (LoweredSem.set_env x (LoweredSem.Int lt z) ts)) /\
               vec_typed (Clif.value_type f r) lt.

Definition op_operands (o : LoweredOp) : list Z :=
  match o with
  | AddI _ a b _ | SubI _ a b _ | MulI _ a b _ | DivS _ a b _ | DivU _ a b _ | RemS _ a b _ | RemU _ a b _
  | AddF _ a b _ | SubF _ a b _ | MulF _ a b _ | DivF _ a b _ | VMin _ _ a b _ | VMax _ _ a b _ => [a; b]
  | Fma _ a b c _ | VSelect _ a b c _ | Select _ a b c _ => [a; b; c]
  | FNeg _ a _ | FAbs _ a _ | Load _ a _ _ | VSplat _ a _ | VAllTrue a _ | VAnyTrue a _
  | Bitcast _ _ a _ | TruncI _ _ a _ | ExtendU _ _ a _ | ExtendS _ _ a _ => [a]
  | Store _ v b _ => [v; b]
  | StackAlloc _ _ _ => []
  | Br _ args => args
  | CondBr c _ ta _ ea => c :: ta ++ ea
  | Switch v _ _ => [v]
  | Return vs => vs
  end.

(** The values an instruction reads, those it passes to a block included. *)
Definition inst_uses (i : Clif.Inst) : list Z :=
  Clif.inst_args (Clif.data i) ++ (Clif.branch_destination (Clif.data i) ≫= Clif.bc_args).

(** Every operand of [o] is the number of a value that [i] reads. *)
Definition operands_mapped (b : LoweringBuilder) (i : Clif.Inst) (o : LoweredOp) : Prop :=
  Forall (fun x => exists v, v ∈ inst_uses i /\ value_map b !! v = Some x) (op_operands o).

Ltac map_operands :=
  unfold operands_mapped, inst_uses; simpl; rewrite ?Forall_cons, ?Forall_nil;
  repeat match goal with
  | H : Clif.data _ = _ |- _ => rewrite H
  | H : Clif.inst_args (Clif.data _) = _ |- _ => rewrite H
  end;
  split_and?; try done; (eexists; split; [|eassumption]); set_solver.

(** An instruction has the results its kind prescribes. *)
Definition results_ok (i : Clif.Inst) : Prop :=
  match Clif.data i with
  | Clif.StoreData Clif.Store _ _ _ | Clif.StackStoreData Clif.StackStore _ _ _ | Clif.JumpData _
  | Clif.BrifData _ _ _ | Clif.BranchTableData _ _ _ | Clif.MultiAryData Clif.Return _ => Clif.results i = []
  | _ => exists r, Clif.results i = [r]
  end.

(** [o] is the lowering of the effect-free [i], with result [r] numbered [x]. *)
Record pure_op (f : Clif.Function_) (b : LoweringBuilder) (i : Clif.Inst) (o : LoweredOp) (r x : Z) : Prop := {
  po_free : ClifSem.effect_free (Clif.data i) = true;
  po_first : head (Clif.results i) = Some r;
  po_result : op_result o = Some x;
  po_next : next_value_id b <= x < u32_max;
  po_operands : operands_mapped b i o;
  po_computes : computes f b i o r x;
}.

(** The builder after [r] was numbered [x]. *)
Definition numbered (r x : Z) (b : LoweringBuilder) : LoweringBuilder := bind_value r x (set_next_value (x + 1) b).

(** Run a lowering that succeeded. *)
Ltac run_lowering H :=
  repeat (unfold try, mbind, stM_bind, mret, stM_ret, get_state, put_state, fresh_id, operand, fail, first_result,
            Families.arg, lift, lower_cast in *; simpl in *; case_match; simplify_eq/=); bool_props.

Lemma arith_None f i b b' : lower_arith_inst f i b = (Ok None, b') -> b' = b.
Proof. intros H. unfold lower_arith_inst in H. by run_lowering H. Qed.

Lemma float_None f i b r :
  RejectList.classify_opcode (Clif.opcode (Clif.data i)) = None -> lower_float_inst f i b = r -> r = (Ok None, b).
Proof.
  intros Hc <-. unfold lower_float_inst. destruct (Clif.opcode (Clif.data i)); try done.
Qed.

Lemma operand_int f b s ts v z x :
  operands_rel f b s ts -> ClifSem.env s !! v = Some z -> value_map b !! v = Some x -> LoweredSem.get ts x = Some z.
Proof.
  intros Hrel Hv Hx. destruct (Hrel _ _ _ Hv Hx) as (lt & He & _). unfold LoweredSem.get. by rewrite He.
Qed.

Lemma int_type_bits t lt w :
  cranelift_int_type_to_lowered t = Some lt -> ClifSem.int_bits t = Some w ->
  is_int lt = true /\ scalar_bits lt = Some w /\ Clif.is_vector t = false.
Proof. by destruct t; intros; simplify_eq/=. Qed.

Lemma int_binary_ok g t lt w a b x y r ts :
  cranelift_int_type_to_lowered t = Some lt -> ClifSem.int_bits t = Some w ->
  LoweredSem.get ts a = Some x -> LoweredSem.get ts b = Some y ->
  LoweredSem.int_binary g lt a b r ts = Some (Next (LoweredSem.set_env r (LoweredSem.Int lt (g x y mod 2 ^ w)) ts)).
Proof.
  intros Ht Hw Ha Hb. destruct (int_type_bits _ _ _ Ht Hw) as (Hi & Hs & _).
  unfold LoweredSem.int_binary. by rewrite Hi, Ha, Hb, Hs.
Qed.

Lemma scalar_vec_typed t lt : Clif.is_vector t = false -> vec_typed t lt.
Proof. intros Hn H. congruence. Qed.

Lemma i8_vec_typed t lt : t = Clif.I8 -> vec_typed t lt.
Proof. by intros ->. Qed.

(** The operands of an evaluated instruction, in the source and lowered. *)
Ltac eval_operands He Hrel :=
  unfold ClifSem.eval_inst in He;
  repeat match goal with H : Clif.inst_args (Clif.data _) = _ |- _ => rewrite H in He; clear H end;
  repeat match goal with H : Clif.opcode (Clif.data _) = _ |- _ => rewrite H in He; clear H end;
  repeat match goal with H : Clif.data _ = _ |- _ => rewrite H in He; clear H end;
  simplify_option_eq; repeat (case_match; simplify_eq/=);
  repeat match goal with
  | Hv : ClifSem.env _ !! ?v = Some ?z, Hx : value_map _ !! ?v = Some ?x |- _ =>
      pose proof (operand_int _ _ _ _ _ _ _ Hrel Hv Hx); pose proof (Hrel _ _ _ Hv Hx); clear Hv
  end.

Lemma arith_Some f i b o b' :
  RejectList.classify_opcode (Clif.opcode (Clif.data i)) = None -> lower_arith_inst f i b = (Ok (Some o), b') ->
  exists r, pure_op f b i o r (next_value_id b) /\ b' = numbered r (next_value_id b) b.
Proof.
  intros Hc H. unfold lower_arith_inst in H. run_lowering H. subst. eexists. split; [split|done].
  - by destruct (Clif.data i) as [| | |[]|[]|[]|[]| | | |[]|]; simplify_eq/=.
  - by rewrite H2.
  - destruct (Clif.opcode (Clif.data i)); by simplify_eq/=.
  - lia.
  - destruct (Clif.opcode (Clif.data i)); simplify_eq/=; map_operands.
  - intros _ s ts res Hv Hrel He.
    destruct (Clif.opcode (Clif.data i)) eqn:Hop; simplify_eq/=; eval_operands He Hrel;
      (eexists; split; [by eapply int_binary_ok|]);
      eapply scalar_vec_typed; by edestruct int_type_bits as (_ & _ & ?).
Qed.

Lemma lane_lowered t lt :
  lane_to_lowered t = Some lt ->
  Signature.cranelift_type_to_lowered t = Some lt /\ is_int lt || is_float lt = true /\
  scalar_bits lt = ClifSem.scalar_bits t /\ Clif.is_vector t = false.
Proof. by destruct t; intros; simplify_eq/=. Qed.

(** A 128-bit vector type, in both languages. *)
Lemma vector_lowered t lt w n :
  vec128 t -> vector_lane_type t = Some lt -> ClifSem.shape t = Some (w, n) ->
  scalar_bits lt = Some w /\ 128 / w = n /\ vec_typed t (V128 lt n).
Proof.
  unfold vector_lane_type. destruct t as [| | | | | | | | | | | |lane k|]; try done. simpl.
  intros (w' & Hw & Hn) Hl Hs. apply lane_lowered in Hl as (Hc & Hsc & Hb & _). rewrite Hw in Hs. simplify_eq/=.
  split; [congruence|]. assert (8 <= w) by (destruct lane; simplify_eq/=; lia).
  split; [symmetry; apply (Z.div_unique 128 w n 0); lia|]. intros _. simpl. rewrite Hc, Hsc. simpl.
  rewrite (proj2 (Z.ltb_ge u8_max n)) by nia. done.
Qed.

Lemma vec_binary_ok g t lt w n a b x y r ts :
  vec128 t -> vector_lane_type t = Some lt -> ClifSem.shape t = Some (w, n) ->
  LoweredSem.get ts a = Some x -> LoweredSem.get ts b = Some y ->
  exists rt, LoweredSem.vec_binary g lt a b r ts =
    Some (Next (LoweredSem.set_env r (LoweredSem.Int rt (Bits.lanewise w n (g w) x y)) ts)) /\ vec_typed t rt.
Proof.
  intros Ht Hl Hs Ha Hb. destruct (vector_lowered _ _ _ _ Ht Hl Hs) as (Hw & <- & Hv). eexists. split; [|exact Hv].
  unfold LoweredSem.vec_binary. by rewrite Ha, Hb, Hw.
Qed.

(** The lanes of a lowered vector are the source's. *)
Lemma vec_lanes_ok t w n z x ts :
  Clif.is_vector t = true -> ClifSem.shape t = Some (w, n) ->
  (exists lt, LoweredSem.env ts !! x = Some (LoweredSem.Int lt z) /\ vec_typed t lt) ->
  LoweredSem.vec_lanes ts x = Some (Bits.lanes w n z).
Proof.
  intros Hv Hs (lt & He & Ht). specialize (Ht Hv). unfold LoweredSem.vec_lanes. rewrite He.
  destruct t as [| | | | | | | | | | | |lane k|]; try done. simpl in *.
  destruct (Signature.cranelift_type_to_lowered lane) as [ll|] eqn:Hl; [|done].
  destruct (negb _) eqn:Hn; [done|]. destruct (_ <? _); simplify_eq/=.
  destruct (ClifSem.scalar_bits lane) eqn:Hb; simplify_eq/=.
  assert (scalar_bits ll = Some w) as -> by (destruct lane; simplify_eq/=; done). done.
Qed.

(** Everything about a lowered operation but what it computes. *)
Ltac pure_shape :=
  eexists; split; [split|by unfold bind_result_if_any; simpl;
    match goal with H : Clif.results _ = _ |- _ => rewrite H end];
  [ by repeat match goal with H : Clif.data _ = _ |- _ => rewrite H end
  | by match goal with H : Clif.results _ = _ |- _ => rewrite H end
  | done | lia | map_operands | ].

Lemma vector_None f i b b' :
  lower_vector_inst f i b = (Ok None, b') ->
  b' = b \/ (b' = set_next_value (next_value_id b + 1) b /\ next_value_id b + 1 <= u32_max).
Proof. intros H. unfold lower_vector_inst in H. run_lowering H; subst; eauto. Qed.

Lemma vector_Some f i b o b' :
  RejectList.classify_opcode (Clif.opcode (Clif.data i)) = None -> results_ok i ->
  lower_vector_inst f i b = (Ok (Some o), b') ->
  exists r, pure_op f b i o r (next_value_id b) /\ bind_result_if_any i o b' = numbered r (next_value_id b) b.
Proof.
  unfold results_ok. intros Hc Hr H. unfold lower_vector_inst in H. run_lowering H; subst.
  - destruct op; simplify_eq/=; pure_shape;
      intros _ s ts res Hv Hrel He; eval_operands He Hrel; by eapply vec_binary_ok.
  - pure_shape. intros _ s ts res Hv Hrel He. eval_operands He Hrel.
    match goal with Hl : vector_lane_type _ = Some _, Hs : ClifSem.shape _ = Some _ |- _ =>
      destruct (vector_lowered _ _ _ _ (Hv _) Hl Hs) as (Hw & <- & Ht) end.
    eexists. split; [|exact Ht]. simplify_option_eq. done.
  - destruct Hr as [? Hr]. pure_shape. intros _ s ts res Hv Hrel He. eval_operands He Hrel.
    eexists. erewrite vec_lanes_ok by eauto. split; [done|]. by apply i8_vec_typed.
  - destruct Hr as [? Hr]. pure_shape. intros _ s ts res Hv Hrel He. eval_operands He Hrel.
    eexists. erewrite vec_lanes_ok by eauto. split; [done|]. by apply i8_vec_typed.
  - pure_shape. intros Hb. by match goal with H : Clif.data _ = _ |- _ => rewrite H in Hb end.
Qed.

Lemma int_lane_bits t lt w :
  lane_to_lowered t = Some lt -> ClifSem.int_bits t = Some w -> scalar_bits lt = Some w.
Proof. by destruct t; intros; simplify_eq/=. Qed.

(** The conversions by opcode: which data can carry it, and the value. *)
Lemma conv_free i :
  match Clif.opcode (Clif.data i) with
  | Clif.Select | Clif.Bitcast | Clif.Ireduce | Clif.Uextend | Clif.Sextend => true
  | _ => false
  end = true -> ClifSem.effect_free (Clif.data i) = true.
Proof. by destruct (Clif.data i) as [| | |[]|[]|[]|[]| | | |[]|]. Qed.

Lemma conv_Some f i b o b' :
  lower_conv_inst f i b = (Ok (Some o), b') ->
  exists r, pure_op f b i o r (next_value_id b) /\ bind_result_if_any i o b' = numbered r (next_value_id b) b.
Proof.
  intros H. pose proof (conv_free i) as Hfree. unfold lower_conv_inst in H.
  destruct (Clif.opcode (Clif.data i)) eqn:Hop; try done; specialize (Hfree eq_refl); run_lowering H; subst;
    (eexists; split;
      [split; [done|by match goal with H : Clif.results _ = _ |- _ => rewrite H end|done|lia
              |map_operands|]
      |by unfold bind_result_if_any; simpl; match goal with H : Clif.results _ = _ |- _ => rewrite H end]);
    intros _ s ts res Hv Hrel He; eval_operands He Hrel.
  all: match goal with H : lane_to_lowered (Clif.value_type ?f ?r) = Some ?t |-
         exists lt, _ /\ vec_typed (Clif.value_type ?f ?r) lt =>
         exists t; split; [|apply lane_lowered in H as (_ & _ & _ & H); by apply scalar_vec_typed] end.
  all: try (erewrite !int_lane_bits by eassumption); simplify_option_eq; unfold LoweredSem.next_int.
  all: repeat case_match; congruence.
Qed.

(** What the driver makes of one instruction. *)
Inductive lowered (f : Clif.Function_) (b : LoweringBuilder) (i : Clif.Inst) :
    list LoweredOp -> LoweringBuilder -> Prop :=
| low_pure o r x : pure_op f b i o r x -> lowered f b i [o] (numbered r x b)
| low_load arg off r t base :
    Clif.data i = Clif.LoadData Clif.Load arg off -> Clif.results i = [r] ->
    lane_to_lowered (Clif.value_type f r) = Some t -> value_map b !! arg = Some base ->
    next_value_id b < u32_max ->
    lowered f b i [Load t base off (next_value_id b)] (numbered r (next_value_id b) b)
| low_store v bv off t x base :
    Clif.data i = Clif.StoreData Clif.Store v bv off ->
    lane_to_lowered (Clif.value_type f v) = Some t -> value_map b !! v = Some x -> value_map b !! bv = Some base ->
    lowered f b i [Store t x base off] b
| low_stack_load ss off r t p emitted b' :
    Clif.data i = Clif.StackLoadData Clif.StackLoad ss off -> Clif.results i = [r] ->
    lane_to_lowered (Clif.value_type f r) = Some t -> ensure_stack_alloca f ss t b = (Ok (p, emitted), b') ->
    next_value_id b' < u32_max ->
    lowered f b i (emitted ++ [Load t p off (next_value_id b')]) (numbered r (next_value_id b') b')
| low_stack_store v ss off t x p emitted b' :
    Clif.data i = Clif.StackStoreData Clif.StackStore v ss off ->
    lane_to_lowered (Clif.value_type f v) = Some t -> value_map b !! v = Some x ->
    ensure_stack_alloca f ss t b = (Ok (p, emitted), b') ->
    lowered f b i (emitted ++ [Store t x p off]) b'
| low_cf o : lower_cf_inst b i = Some o -> lowered f b i [o] b.

Lemma mem_type_Ok t b lt b' : mem_type_to_lowered t b = (Ok lt, b') -> lane_to_lowered t = Some lt /\ b' = b.
Proof. by destruct t; unfold mem_type_to_lowered, mret, stM_ret, fail; intros; simplify_eq. Qed.

(** The memory family, run. *)
Ltac run_memory H :=
  repeat (unfold lower_memory_inst, mbind, stM_bind, mret, stM_ret, mem_lookup_value, mem_first_result, mem_fresh_id,
            ok_or, fail in *; simpl in *; case_match; simplify_eq/=);
  repeat match goal with
  | Ht : mem_type_to_lowered _ _ = (Ok _, _) |- _ => apply mem_type_Ok in Ht as [? ->]
  end; bool_props; subst.

Lemma memory_free f i b b' :
  lower_memory_inst f i b = (Ok None, b') ->
  b' = b /\ (ClifSem.effect_free (Clif.data i) = true \/ is_Some (head (Clif.branch_destination (Clif.data i))) \/
             exists args, Clif.data i = Clif.MultiAryData Clif.Return args).
Proof.
  intros H. destruct (Clif.data i) as [| | |[]|[]|[]|[]| | | |[]|] eqn:Hd;
    try (unfold lower_memory_inst in H; rewrite Hd in H; unfold mret, stM_ret in H; simplify_eq; by eauto 10);
    exfalso; revert H; unfold lower_memory_inst; rewrite Hd; unfold mbind, stM_bind, mret, stM_ret;
    repeat (case_match; try done); congruence.
Qed.

Lemma memory_Some f i b ops b' :
  results_ok i -> lower_memory_inst f i b = (Ok (Some ops), b') -> lowered f b i ops (bind_memory_result i ops b').
Proof.
  unfold results_ok. intros Hr H. destruct (Clif.data i) as [| | |[]|[]|[]|[]| | | |[]|] eqn:Hd;
    unfold lower_memory_inst, mem_first_result in H; rewrite Hd in H; try done.
  - destruct Hr as [r Hr]. rewrite Hr in H. run_memory H. unfold bind_memory_result. rewrite Hr. simpl.
    eapply low_load; eauto; lia.
  - run_memory H. unfold bind_memory_result. rewrite Hr. by eapply low_store.
  - destruct Hr as [r Hr]. rewrite Hr in H. run_memory H. unfold bind_memory_result. rewrite Hr, rev_app_distr. simpl.
    eapply (low_stack_load f b i _ _ r); eauto; lia.
  - run_memory H. unfold bind_memory_result. rewrite Hr. by eapply low_stack_store.
Qed.

(** A number the vector family drew for nothing. *)
Lemma pure_op_skip f b i o r x n :
  next_value_id b <= n -> pure_op f (set_next_value n b) i o r x -> pure_op f b i o r x.
Proof. intros Hn []. split; simpl in *; try done. lia. Qed.

Lemma dispatch_spec f i loc b ops b' :
  RejectList.classify_opcode (Clif.opcode (Clif.data i)) = None -> results_ok i ->
  dispatch_inst f i loc b = (Ok ops, b') -> lowered f b i ops b'.
Proof.
  intros Hc Hr H. unfold dispatch_inst, mbind, stM_bind, mret, stM_ret, get_state, put_state in H.
  destruct (lower_arith_inst f i b) as [[[o|]|] b1] eqn:Ha; simplify_eq.
  { destruct (arith_Some _ _ _ _ _ Hc Ha) as (r & Hp & ->). by constructor. }
  apply arith_None in Ha as ->. rewrite (float_None f i b _ Hc eq_refl) in H.
  unfold memory_attempt in H. destruct (lower_memory_inst f i b) as [[[emitted|]|[[]|]] b1] eqn:Hm; simplify_eq.
  { by apply memory_Some. }
  apply memory_free in Hm as [-> _]. destruct (lower_cf_inst b i) eqn:Hcf; simplify_eq; [by apply low_cf|].
  destruct (lower_vector_inst f i b) as [[[o|]|] b1] eqn:Hv; simplify_eq.
  { destruct (vector_Some _ _ _ _ _ Hc Hr Hv) as (r & Hp & ->). by constructor. }
  destruct (lower_conv_inst f i b1) as [[[o|]|] b2] eqn:Hcv; simplify_eq.
  destruct (conv_Some _ _ _ _ _ Hcv) as (r & Hp & ->).
  apply vector_None in Hv as [->|[-> _]]; [by constructor|]. apply (low_pure f b i o r). eapply pure_op_skip; [|done]. lia.
Qed.
End DispatchFacts.

(** ** The numbering is a renaming *)
Module BuilderFacts.
Import LoweredIr Builder Families Driver DispatchFacts.

Record binv (b : LoweringBuilder) : Prop := {
  bi_vals : forall v x, value_map b !! v = Some x -> 0 <= x < next_value_id b;
  bi_slots : forall ss x, stack_slot_map b !! ss = Some x -> 0 <= x < next_value_id b;
  bi_inj : forall v v' x, value_map b !! v = Some x -> value_map b !! v' = Some x -> v = v';
  bi_slot_inj : forall ss ss' x, stack_slot_map b !! ss = Some x -> stack_slot_map b !! ss' = Some x -> ss = ss';
  bi_disjoint : forall v ss x, value_map b !! v = Some x -> stack_slot_map b !! ss <> Some x;
  bi_next : 0 <= next_value_id b;
}.

(** [b'] knows everything [b] knows. *)
Record extends (b b' : LoweringBuilder) : Prop := {
  ex_vals : value_map b ⊆ value_map b';
  ex_slots : stack_slot_map b ⊆ stack_slot_map b';
  ex_blocks : block_map b' = block_map b;
  ex_next : next_value_id b <= next_value_id b';
}.

#[global] Instance extends_preorder : PreOrder extends.
Proof.
  split; [done|]. intros a b c [] []. split; [by etrans|by etrans|congruence|lia].
Qed.

Lemma numbered_ok r x b :
  binv b -> value_map b !! r = None -> next_value_id b <= x ->
  binv (numbered r x b) /\ extends b (numbered r x b).
Proof.
  intros [] Hr Hx. split; [|split; simpl; [by apply insert_subseteq|done..|lia]].
  split; simpl; try lia.
  - intros v y. rewrite lookup_insert_Some. intros [[<- <-]|[? Hy]]; [lia|apply bi_vals0 in Hy; lia].
  - intros ss y Hy. apply bi_slots0 in Hy. lia.
  - intros v v' y. rewrite !lookup_insert_Some. intros [[<- <-]|[? Hy]] [[<- Heq]|[? Hy']]; try done; subst;
      repeat match goal with H : value_map b !! _ = Some _ |- _ => pose proof (bi_vals0 _ _ H); revert H end; try lia.
    intros. eauto.
  - done.
  - intros v ss y. rewrite lookup_insert_Some. intros [[<- <-]|[? Hy]] Hs; [apply bi_slots0 in Hs; lia|by eapply bi_disjoint0].
Qed.

Lemma alloca_cases f ss t b p emitted b' :
  ensure_stack_alloca f ss t b = (Ok (p, emitted), b') ->
  (stack_slot_map b !! ss = Some p /\ emitted = [] /\ b' = b) \/
  (stack_slot_map b !! ss = None /\ p = next_value_id b /\ next_value_id b < u32_max /\
   exists n, Clif.stack_size f ss = Some n /\ emitted = [StackAlloc t n p] /\
             b' = bind_stack_slot ss p (set_next_value (p + 1) b)).
Proof.
  unfold ensure_stack_alloca, mem_fresh_id, mbind, stM_bind, get_state, put_state, mret, stM_ret, fail.
  intros H. repeat (case_match; simplify_eq/=); bool_props; subst; [by left|right]. split_and!; eauto; lia.
Qed.

Lemma alloca_ok f ss t b p emitted b' :
  binv b -> ensure_stack_alloca f ss t b = (Ok (p, emitted), b') ->
  binv b' /\ extends b b' /\ value_map b' = value_map b /\ stack_slot_map b' !! ss = Some p.
Proof.
  intros Hb [(Hs & -> & ->)|(Hs & -> & _ & n & Hn & -> & ->)]%alloca_cases; [done|]. destruct Hb.
  split; [|split; [split; simpl; [done|by apply insert_subseteq|done|lia]|split; [done|by simpl; rewrite lookup_insert_eq]]].
  split; simpl; try lia; try done.
  - intros v y Hy. apply bi_vals0 in Hy. lia.
  - intros s y. rewrite lookup_insert_Some. intros [[<- <-]|[? Hy]]; [lia|apply bi_slots0 in Hy; lia].
  - intros s s' y. rewrite !lookup_insert_Some. intros [[<- <-]|[? Hy]] [[<- Heq]|[? Hy']]; try done; subst;
      repeat match goal with H : stack_slot_map b !! _ = Some _ |- _ => pose proof (bi_slots0 _ _ H); revert H end; try lia.
    intros. eauto.
  - intros v s y Hy. rewrite lookup_insert_Some. intros [[<- <-]|[? Hy']]; [apply bi_vals0 in Hy; lia|by eapply bi_disjoint0].
Qed.

Lemma alloca_slots f ss t b p emitted b' :
  ensure_stack_alloca f ss t b = (Ok (p, emitted), b') ->
  forall s, is_Some (stack_slot_map b' !! s) <-> is_Some (stack_slot_map b !! s) \/ s ∈ [ss].
Proof.
  intros [(Hs & _ & ->)|(Hs & _ & _ & n & _ & _ & ->)]%alloca_cases s; simpl; rewrite list_elem_of_singleton.
  - split; [eauto|]. intros [? | ->]; [done|]. by rewrite Hs.
  - rewrite lookup_insert_is_Some. destruct (decide (ss = s)); naive_solver.
Qed.

Lemma cf_slots b i o : lower_cf_inst b i = Some o -> ClifSem.inst_slots i = [].
Proof. unfold lower_cf_inst, ClifSem.inst_slots. by destruct (Clif.data i) as [| | | | |[]|[]| | | | |]. Qed.

(** An instruction numbers its results and nothing else. *)
Lemma lowered_ok f b i ops b' :
  lowered f b i ops b' -> binv b -> (forall r, r ∈ Clif.results i -> value_map b !! r = None) ->
  binv b' /\ extends b b' /\
  (forall v, is_Some (value_map b' !! v) -> is_Some (value_map b !! v) \/ v ∈ Clif.results i) /\
  (forall ss, is_Some (stack_slot_map b' !! ss) <-> is_Some (stack_slot_map b !! ss) \/ ss ∈ ClifSem.inst_slots i).
Proof.
  intros Hl Hb Hr. inversion Hl as
    [o r x Hp|arg off r t base Hd Hres Ht Ha|v bv off t x base Hd|ss off r t p emitted b1 Hd Hres Ht Ha
    |v ss off t x p emitted b1 Hd Ht Hx Ha|o Hcf]; subst.
  - destruct Hp as [Hfree Hres _ Hn _ _]. assert (value_map b !! r = None) as Hnone.
    { apply Hr. destruct (Clif.results i); simplify_eq/=. set_solver. }
    assert (ClifSem.inst_slots i = []) as -> by (unfold ClifSem.inst_slots; by destruct (Clif.data i) as [| | | | |[]|[]| | | | |]).
    destruct (numbered_ok r x b Hb Hnone) as [? ?]; [lia|]. split_and!; [done..| |set_solver].
    intros v. simpl. rewrite lookup_insert_is_Some. destruct (Clif.results i); simplify_eq/=. set_solver.
  - unfold ClifSem.inst_slots. rewrite Hd, Hres in *.
    destruct (numbered_ok r (next_value_id b) b Hb) as [? ?]; [set_solver|lia|]. split_and!; [done..| |set_solver].
    intros v. simpl. rewrite lookup_insert_is_Some. set_solver.
  - unfold ClifSem.inst_slots. rewrite Hd. split_and!; [done..|set_solver|set_solver].
  - unfold ClifSem.inst_slots. rewrite Hd, Hres in *. pose proof (alloca_slots _ _ _ _ _ _ _ Ha) as Hc.
    apply alloca_ok in Ha as (Hb1 & He1 & Hv1 & Hs1); [|done].
    destruct (numbered_ok r (next_value_id b1) b1 Hb1) as [? ?]; [rewrite Hv1; set_solver|lia|].
    split_and!; [done|by etrans| |done].
    intros v. simpl. rewrite lookup_insert_is_Some, Hv1. set_solver.
  - unfold ClifSem.inst_slots. rewrite Hd. pose proof (alloca_slots _ _ _ _ _ _ _ Ha) as Hc.
    apply alloca_ok in Ha as (Hb1 & He1 & Hv1 & Hs1); [|done].
    split_and!; [done|done|rewrite Hv1; eauto|done].
  - apply cf_slots in Hcf as ->. split_and!; [done..|eauto|set_solver].
Qed.
End BuilderFacts.

(** ** Simulation *)
Module SimulationFacts.
Import LoweredIr Builder Families Driver DispatchFacts BuilderFacts.

(** The states before an instruction: [bF] numbers every value of the function,
    [b] is the builder the lowering had reached there. *)
Record rel (f : Clif.Function_) (bF b : LoweringBuilder) (s : ClifSem.state) (ts : LoweredSem.state) : Prop := {
  r_vals : operands_rel f bF s ts;
  r_mem : LoweredSem.mem ts = ClifSem.mem s;
  r_slots : forall ss x, stack_slot_map b !! ss = Some x ->
    LoweredSem.env ts !! x = Some (LoweredSem.SlotPtr x) /\
    exists sl, LoweredSem.allocas ts !! x = Some sl /\ ClifSem.slots s !! ss = Some sl;
  r_fresh : forall ss, stack_slot_map b !! ss = None -> ClifSem.slots s !! ss = ClifSem.fresh_slots f !! ss;
}.

Lemma operands_rel_weaken f b b' s ts : extends b b' -> operands_rel f b' s ts -> operands_rel f b s ts.
Proof. intros [Hv _ _ _] Hrel v z x Hz Hx. eapply Hrel; [done|]. by eapply lookup_weaken. Qed.

(** A new value on both sides. *)
Lemma rel_set f bF b s ts r x z lt :
  binv bF -> rel f bF b s ts -> value_map bF !! r = Some x -> stack_slot_map b ⊆ stack_slot_map bF ->
  vec_typed (Clif.value_type f r) lt ->
  rel f bF b (ClifSem.set_env r z s) (LoweredSem.set_env x (LoweredSem.Int lt z) ts).
Proof.
  intros HbF [] Hx Hsub Ht. split; simpl; try done.
  - intros v a y. simpl. rewrite lookup_insert_Some. intros [[<- <-]|[Hne Hv]] Hy.
    + simplify_eq. exists lt. by rewrite lookup_insert_eq.
    + assert (x <> y) by (intros ->; by eapply Hne, (bi_inj bF)). rewrite lookup_insert_ne by done. eauto.
  - intros ss y Hy. assert (x <> y).
    { intros ->. eapply (bi_disjoint bF); [done..|]. by eapply lookup_weaken. }
    rewrite lookup_insert_ne by done. eauto.
Qed.

(** A run of operations, whatever follows. *)
Definition steps (l : list LoweredOp) (ts : LoweredSem.state) (fl : flow LoweredSem.state LoweredSem.value) : Prop :=
  forall rest, exec_list LoweredSem.exec_op (l ++ rest) ts =
    match fl with Next ts' => exec_list LoweredSem.exec_op rest ts' | _ => Some fl end.

Lemma steps_one o ts fl : LoweredSem.exec_op o ts = Some fl -> steps [o] ts fl.
Proof. intros H rest. simpl. rewrite H. by destruct fl. Qed.

Lemma steps_app l l' ts ts' fl : steps l ts (Next ts') -> steps l' ts' fl -> steps (l ++ l') ts fl.
Proof. intros H H' rest. by rewrite <-app_assoc, H, H'. Qed.

Definition arg_rel (f : Clif.Function_) (v z : Z) (tv : LoweredSem.value) : Prop :=
  exists lt, tv = LoweredSem.Int lt z /\ vec_typed (Clif.value_type f v) lt.

(** Related ends of one instruction. *)
Definition flow_rel (f : Clif.Function_) (bF b : LoweringBuilder) (i : Clif.Inst)
    (fl : flow ClifSem.state Z) (tfl : flow LoweredSem.state LoweredSem.value) : Prop :=
  match fl, tfl with
  | Next s, Next ts => rel f bF b s ts
  | Goto k zs s, Goto x vs ts =>
      rel f bF b s ts /\ block_map bF !! k = Some x /\
      exists c, c ∈ Clif.branch_destination (Clif.data i) /\ Clif.bc_block c = k /\ Forall3 (arg_rel f) (Clif.bc_args c) zs vs
  | Ret zs s, Ret vs ts => LoweredSem.mem ts = ClifSem.mem s /\ mapM LoweredSem.int_of vs = Some zs
  | _, _ => False
  end.

Section sim_inst.
Context (f : Clif.Function_) (bF : LoweringBuilder) (HbF : binv bF) (Hvec : forall v, vec128 (Clif.value_type f v)).

Lemma exec_effect_free i s fl :
  ClifSem.effect_free (Clif.data i) = true -> ClifSem.exec_inst f i s = Some fl ->
  exists r z, Clif.results i = [r] /\ ClifSem.eval_inst f i r s = Some z /\ fl = Next (ClifSem.set_env r z s).
Proof.
  intros Hfree Hexec.
  assert (match Clif.results i with
          | [r] => z ← ClifSem.eval_inst f i r s; Some (Next (ClifSem.set_env r z s)) | _ => None end = Some fl) as He.
  { unfold ClifSem.exec_inst in Hexec. by destruct (Clif.data i) as [| | |[]|[]|[]|[]| | | |[]|]. }
  destruct (Clif.results i) as [|r' [|]]; simplify_eq/=. apply bind_Some in He as (z & Hz & ?). simplify_eq. eauto.
Qed.

Lemma extends_numbered r x b : extends (numbered r x b) bF -> value_map bF !! r = Some x /\ stack_slot_map b ⊆ stack_slot_map bF.
Proof.
  intros [Hv Hs _ _]. split; [|done]. eapply lookup_weaken; [|exact Hv]. simpl. by rewrite lookup_insert_eq.
Qed.

Lemma rel_numbered r x b s ts z lt :
  extends (numbered r x b) bF -> rel f bF b s ts -> vec_typed (Clif.value_type f r) lt ->
  rel f bF (numbered r x b) (ClifSem.set_env r z s) (LoweredSem.set_env x (LoweredSem.Int lt z) ts).
Proof.
  intros [Hx Hs]%extends_numbered Hrel Ht. destruct (rel_set f bF b s ts r x z lt HbF Hrel Hx Hs Ht). by split.
Qed.

Lemma sim_pure b i o r x s ts fl :
  pure_op f b i o r x -> extends b bF -> extends (numbered r x b) bF -> Clif.opcode (Clif.data i) <> Clif.Bitselect ->
  rel f bF b s ts -> ClifSem.exec_inst f i s = Some fl ->
  exists tfl, steps [o] ts tfl /\ flow_rel f bF (numbered r x b) i fl tfl.
Proof.
  intros [Hfree Hres _ _ _ Hcomp] Hb Hext Hnb Hrel Hexec.
  destruct (exec_effect_free _ _ _ Hfree Hexec) as (r' & z & Hr & Hz & ->). rewrite Hr in Hres. simplify_eq/=.
  destruct (Hcomp Hnb s ts z Hvec) as (lt & Ho & Ht); [by eapply operands_rel_weaken, r_vals|done|].
  eexists. split; [by apply steps_one|]. by apply rel_numbered.
Qed.

Lemma fresh_slots_lookup ss sl :
  ClifSem.fresh_slots f !! ss = Some sl -> exists n, Clif.stack_size f ss = Some n /\ sl = Bits.slot_new n.
Proof.
  intros (k & _ & Hk)%elem_of_list_to_map_2%list_elem_of_omap.
  destruct (Clif.stack_size f k) eqn:E; simplify_eq/=. eauto.
Qed.

Lemma sim_alloca ss t b p emitted b' s ts sl :
  ensure_stack_alloca f ss t b = (Ok (p, emitted), b') -> extends b' bF -> rel f bF b s ts ->
  ClifSem.slots s !! ss = Some sl ->
  exists ts', steps emitted ts (Next ts') /\ rel f bF b' s ts'.
Proof.
  intros [(Hs & -> & ->)|(Hs & -> & _ & n & Hn & -> & ->)]%alloca_cases Hext Hrel Hsl; [by exists ts|].
  eexists. split; [by apply steps_one|]. destruct Hrel as [Hvals Hmem Hslots Hfresh].
  set (x := next_value_id b) in *.
  assert (stack_slot_map bF !! ss = Some x) as Hx.
  { eapply lookup_weaken; [|apply (ex_slots _ _ Hext)]. simpl. by rewrite lookup_insert_eq. }
  pose proof Hsl as Hnew. rewrite (Hfresh _ Hs) in Hnew. apply fresh_slots_lookup in Hnew as (n' & ? & ->).
  simplify_eq. split; simpl; try done.
  - intros v z y Hz Hy. simpl. rewrite lookup_insert_ne; [by eauto|]. intros <-. by eapply bi_disjoint.
  - intros s' y. rewrite lookup_insert_Some. intros [[<- <-]|[Hne Hy]].
    + rewrite !lookup_insert_eq. eauto.
    + assert (x <> y); [|rewrite !lookup_insert_ne by done; by apply Hslots].
      intros <-. eapply Hne, (bi_slot_inj bF); [done..|]. eapply lookup_weaken; [|apply (ex_slots _ _ Hext)].
      simpl. by rewrite lookup_insert_ne.
  - intros s'. rewrite lookup_insert_None. intros [? _]. by apply Hfresh.
Qed.

Lemma bytes_lowered t lt n : lane_to_lowered t = Some lt -> ClifSem.bytes t = Some n -> LoweredSem.bytes lt = Some n.
Proof. intros (_ & _ & Hs & _)%lane_lowered Hn. unfold LoweredSem.bytes. by rewrite Hs. Qed.

Lemma lane_typed t lt : lane_to_lowered t = Some lt -> vec_typed t lt.
Proof. intros (_ & _ & _ & Hv)%lane_lowered. by apply scalar_vec_typed. Qed.

Lemma sim_load b i arg off r t base s ts fl :
  Clif.data i = Clif.LoadData Clif.Load arg off -> Clif.results i = [r] ->
  lane_to_lowered (Clif.value_type f r) = Some t -> value_map b !! arg = Some base ->
  extends b bF -> extends (numbered r (next_value_id b) b) bF ->
  rel f bF b s ts -> ClifSem.exec_inst f i s = Some fl ->
  exists tfl, steps [Load t base off (next_value_id b)] ts tfl /\ flow_rel f bF (numbered r (next_value_id b) b) i fl tfl.
Proof.
  intros Hd Hr Ht Hbase Hb Hext Hrel Hexec. unfold ClifSem.exec_inst in Hexec. rewrite Hd, Hr in Hexec.
  apply bind_Some in Hexec as (a & Ha & (n & Hn & (z & Hz & [= <-])%bind_Some)%bind_Some).
  destruct (operands_rel_weaken _ _ _ _ _ Hb (r_vals _ _ _ _ _ Hrel) _ _ _ Ha Hbase) as (lt & He & _).
  eexists (Next _). split; [apply steps_one; simpl|by apply rel_numbered, lane_typed].
  rewrite (bytes_lowered _ _ _ Ht Hn). simpl. rewrite He. simpl. by rewrite (r_mem _ _ _ _ _ Hrel), Hz.
Qed.

Lemma sim_store b i v bv off t x base s ts fl :
  Clif.data i = Clif.StoreData Clif.Store v bv off ->
  lane_to_lowered (Clif.value_type f v) = Some t -> value_map b !! v = Some x -> value_map b !! bv = Some base ->
  extends b bF -> rel f bF b s ts -> ClifSem.exec_inst f i s = Some fl ->
  exists tfl, steps [Store t x base off] ts tfl /\ flow_rel f bF b i fl tfl.
Proof.
  intros Hd Ht Hx Hbase Hb Hrel Hexec. unfold ClifSem.exec_inst in Hexec. rewrite Hd in Hexec.
  apply bind_Some in Hexec as (z & Hz & (a & Ha & (n & Hn & (m & Hm & [= <-])%bind_Some)%bind_Some)%bind_Some).
  pose proof (operands_rel_weaken _ _ _ _ _ Hb (r_vals _ _ _ _ _ Hrel)) as Hops.
  destruct (Hops _ _ _ Ha Hbase) as (lt & He & _). pose proof (operand_int _ _ _ _ _ _ _ Hops Hz Hx) as Hget.
  destruct Hrel as [Hvals Hmem Hslots Hfresh].
  eexists (Next _). split; [apply steps_one; simpl|].
  - rewrite (bytes_lowered _ _ _ Ht Hn). simpl. rewrite Hget. simpl. rewrite He. simpl. by rewrite Hmem, Hm.
  - by split.
Qed.

Lemma sim_stack_load b i ss off r t p emitted b' s ts fl :
  Clif.data i = Clif.StackLoadData Clif.StackLoad ss off -> Clif.results i = [r] ->
  lane_to_lowered (Clif.value_type f r) = Some t -> ensure_stack_alloca f ss t b = (Ok (p, emitted), b') ->
  stack_slot_map b' !! ss = Some p -> extends b' bF -> extends (numbered r (next_value_id b') b') bF ->
  rel f bF b s ts -> ClifSem.exec_inst f i s = Some fl ->
  exists tfl, steps (emitted ++ [Load t p off (next_value_id b')]) ts tfl /\
    flow_rel f bF (numbered r (next_value_id b') b') i fl tfl.
Proof.
  intros Hd Hr Ht Ha Hp Hb Hext Hrel Hexec. unfold ClifSem.exec_inst in Hexec. rewrite Hd, Hr in Hexec.
  apply bind_Some in Hexec as (n & Hn & (sl & Hsl & (z & Hz & [= <-])%bind_Some)%bind_Some).
  destruct (sim_alloca _ _ _ _ _ _ _ _ _ Ha Hb Hrel Hsl) as (ts1 & Hsteps & Hrel1).
  destruct (r_slots _ _ _ _ _ Hrel1 _ _ Hp) as (He & sl' & Hsl' & ?). simplify_eq.
  eexists (Next _). split; [eapply steps_app, steps_one; [done|]; simpl|by apply rel_numbered, lane_typed].
  rewrite (bytes_lowered _ _ _ Ht Hn). simpl. rewrite He. simpl. rewrite Hsl'. simpl. by rewrite Hz.
Qed.

(** A slot written on both sides. *)
Lemma rel_slot b s ts ss p sl :
  extends b bF -> stack_slot_map b !! ss = Some p -> rel f bF b s ts ->
  rel f bF b (ClifSem.mkState (ClifSem.env s) (ClifSem.mem s) (<[ss := sl]> (ClifSem.slots s)))
    (LoweredSem.mkState (LoweredSem.env ts) (LoweredSem.mem ts) (<[p := sl]> (LoweredSem.allocas ts))).
Proof.
  intros Hb Hp [Hvals Hmem Hslots Hfresh]. split; simpl; try done.
  - intros ss' x Hx. destruct (decide (ss' = ss)) as [->|Hne].
    + simplify_eq. destruct (Hslots _ _ Hp) as [? _]. rewrite !lookup_insert_eq. eauto.
    + assert (p <> x); [|rewrite !lookup_insert_ne by done; by apply Hslots].
      intros ->. eapply Hne, (bi_slot_inj bF HbF); eapply lookup_weaken; try done; apply (ex_slots _ _ Hb).
  - intros ss' Hnone. rewrite lookup_insert_ne by congruence. by apply Hfresh.
Qed.

Lemma sim_stack_store b i v ss off t x p emitted b' s ts fl :
  Clif.data i = Clif.StackStoreData Clif.StackStore v ss off ->
  lane_to_lowered (Clif.value_type f v) = Some t -> value_map b !! v = Some x ->
  ensure_stack_alloca f ss t b = (Ok (p, emitted), b') ->
  stack_slot_map b' !! ss = Some p -> extends b bF -> extends b' bF ->
  rel f bF b s ts -> ClifSem.exec_inst f i s = Some fl ->
  exists tfl, steps (emitted ++ [Store t x p off]) ts tfl /\ flow_rel f bF b' i fl tfl.
Proof.
  intros Hd Ht Hx Ha Hp Hb Hb' Hrel Hexec. unfold ClifSem.exec_inst in Hexec. rewrite Hd in Hexec.
  apply bind_Some in Hexec as (z & Hz & (n & Hn & (sl & Hsl & (sl2 & Hsl2 & [= <-])%bind_Some)%bind_Some)%bind_Some).
  destruct (sim_alloca _ _ _ _ _ _ _ _ _ Ha Hb' Hrel Hsl) as (ts1 & Hsteps & Hrel1).
  pose proof (operands_rel_weaken _ _ _ _ _ Hb (r_vals _ _ _ _ _ Hrel1)) as Hops.
  destruct (r_slots _ _ _ _ _ Hrel1 _ _ Hp) as (He & sl' & Hsl' & ?). simplify_eq.
  eexists (Next _). split; [eapply steps_app, steps_one; [done|]; simpl|by apply (rel_slot b')].
  rewrite (bytes_lowered _ _ _ Ht Hn). simpl. rewrite (operand_int _ _ _ _ _ _ _ Hops Hz Hx). simpl.
  rewrite He. simpl. rewrite Hsl'. simpl. by rewrite Hsl2.
Qed.
Lemma args_lowered b s ts args zs xs :
  operands_rel f b s ts -> mapM (fun v => ClifSem.env s !! v) args = Some zs -> map_block_call_args b args = Some xs ->
  exists vs, mapM (fun x => LoweredSem.env ts !! x) xs = Some vs /\ Forall3 (arg_rel f) args zs vs.
Proof.
  unfold map_block_call_args. rewrite !mapM_Some. intros Hrel Hz. revert xs. induction Hz as [|v z args zs Hv _ IH].
  - intros xs Hx. inversion Hx; subst. exists []. split; [done|constructor].
  - intros xs Hx. inversion Hx as [|? x ? xs' Hm Hx']; subst. destruct (IH _ Hx') as (vs & Hvs & Hargs).
    destruct (Hrel _ _ _ Hv Hm) as (lt & He & Ht). exists (LoweredSem.Int lt z :: vs).
    split; [by simpl; rewrite He; simpl; rewrite Hvs|]. constructor; [by exists lt|done].
Qed.

Lemma args_ints args zs vs : Forall3 (arg_rel f) args zs vs -> mapM LoweredSem.int_of vs = Some zs.
Proof. induction 1 as [|? ? ? ? ? ? (lt & -> & _) _ IH]; [done|]. simpl. by rewrite IH. Qed.

(** A jump on both sides. *)
Lemma sim_goto b s ts i c x xs fl :
  extends b bF -> rel f bF b s ts -> c ∈ Clif.branch_destination (Clif.data i) ->
  block_map b !! Clif.bc_block c = Some x -> map_block_call_args b (Clif.bc_args c) = Some xs ->
  ClifSem.goto c s = Some fl -> exists tfl, LoweredSem.goto x xs ts = Some tfl /\ flow_rel f bF b i fl tfl.
Proof.
  intros Hb Hrel Hc Hx Hxs (zs & Hzs & [= <-])%bind_Some.
  destruct (args_lowered b s ts _ _ _ (operands_rel_weaken _ _ _ _ _ Hb (r_vals _ _ _ _ _ Hrel)) Hzs Hxs) as (vs & Hvs & Hargs).
  eexists (Goto x vs ts). split; [unfold LoweredSem.goto; by rewrite Hvs|].
  split; [done|]. split; [by rewrite (ex_blocks _ _ Hb)|eauto].
Qed.

(** The switch takes the table's branch. *)
Lemma switch_lookup b k cs cases z :
  switch_cases b k cs = Some cases -> 0 <= k -> k + Z.of_nat (length cs) <= u32_max + 1 ->
  match (if z <? k then None else cs !! Z.to_nat (z - k)) with
  | Some c => exists x, List.find (fun '(j, _) => j =? z) cases = Some (z, x) /\
                block_map b !! Clif.bc_block c = Some x /\ Clif.bc_args c = []
  | None => List.find (fun '(j, _) => j =? z) cases = None
  end.
Proof.
  revert k cases. induction cs as [|c cs IH]; intros k cases H Hk Hlen; simplify_eq/=.
  { by destruct (z <? k). }
  destruct (negb _) eqn:Hargs; [done|]. apply bind_Some in H as (x & Hx & (rest & Hrest & [= <-])%bind_Some).
  bool_props. unfold as_u32. rewrite Z.mod_small by lia. specialize (IH _ _ Hrest ltac:(lia) ltac:(lia)). simpl.
  destruct (Z.eqb_spec k z) as [->|Hne].
  - rewrite Z.ltb_irrefl, Z.sub_diag. simpl. eauto.
  - destruct (Z.ltb_spec z k).
    + rewrite (proj2 (Z.ltb_lt z (k + 1))) in IH by lia. done.
    + rewrite (proj2 (Z.ltb_ge z (k + 1))) in IH by lia.
      replace (Z.to_nat (z - k)) with (S (Z.to_nat (z - (k + 1)))) by lia. done.
Qed.

(** Branch tables are indexed by 32-bit numbers. *)
Definition table_ok (i : Clif.Inst) : Prop :=
  match Clif.data i with Clif.BranchTableData _ _ cs => Z.of_nat (length cs) <= u32_max + 1 | _ => True end.

Lemma sim_cf b i o s ts fl :
  lower_cf_inst b i = Some o -> extends b bF -> table_ok i -> rel f bF b s ts -> ClifSem.exec_inst f i s = Some fl ->
  exists tfl, steps [o] ts tfl /\ flow_rel f bF b i fl tfl.
Proof.
  unfold lower_cf_inst, ClifSem.exec_inst, table_ok. intros Ho Hb Htab Hrel Hexec.
  pose proof (operands_rel_weaken _ _ _ _ _ Hb (r_vals _ _ _ _ _ Hrel)) as Hops.
  destruct (Clif.data i) as [| | | | | | |c|v t e|v d cs|[] args|] eqn:Hd; try done.
  - apply bind_Some in Ho as (x & Hx & (xs & Hxs & [= <-])%bind_Some).
    edestruct sim_goto as (tfl & Ht & ?); eauto; [rewrite Hd; set_solver|]. eauto using steps_one.
  - apply bind_Some in Ho as (xv & Hxv & (x & Hx & (y & Hy & (xs & Hxs & (ys & Hys & [= <-])%bind_Some)%bind_Some)%bind_Some)%bind_Some).
    apply bind_Some in Hexec as (z & Hz & Hexec). pose proof (operand_int _ _ _ _ _ _ _ Hops Hz Hxv) as Hget.
    assert (exists tfl, LoweredSem.exec_op (CondBr xv x xs y ys) ts = Some tfl /\ flow_rel f bF b i fl tfl) as (tfl & ? & ?);
      [simpl; rewrite Hget; simpl|by eauto using steps_one].
    destruct (z =? 0); eapply sim_goto; eauto; rewrite Hd; set_solver.
  - apply bind_Some in Ho as (xv & Hxv & (x & Hx & (cases & Hcases & Ho)%bind_Some)%bind_Some).
    destruct (negb _) eqn:Hdef; simplify_eq. bool_props.
    apply bind_Some in Hexec as (z & Hz & Hexec). pose proof (operand_int _ _ _ _ _ _ _ Hops Hz Hxv) as Hget.
    pose proof (switch_lookup b 0 cs cases z Hcases ltac:(lia) ltac:(lia)) as Hlook. rewrite Z.sub_0_r in Hlook.
    assert (exists tfl, LoweredSem.exec_op (Switch xv x cases) ts = Some tfl /\ flow_rel f bF b i fl tfl) as (tfl & ? & ?);
      [simpl; rewrite Hget; simpl|by eauto using steps_one].
    destruct (if z <? 0 then None else cs !! Z.to_nat z) as [c|] eqn:Hc; simpl in Hexec.
    + destruct Hlook as (y & -> & Hy & Hargs). eapply sim_goto; eauto; [|by rewrite Hargs].
      rewrite Hd. destruct (z <? 0); [done|]. apply list_elem_of_lookup_2 in Hc. set_solver.
    + rewrite Hlook. eapply sim_goto; eauto; [rewrite Hd; set_solver|by rewrite Hdef].
  - apply bind_Some in Ho as (xs & Hxs & [= <-]). apply bind_Some in Hexec as (zs & Hzs & [= <-]).
    destruct (args_lowered b s ts _ _ _ Hops Hzs Hxs) as (vs & Hvs & Hargs).
    eexists (Ret vs ts). split; [apply steps_one; simpl; by rewrite Hvs|].
    split; [apply (r_mem _ _ _ _ _ Hrel)|by eapply args_ints].
Qed.

Lemma sim_inst b i ops b' s ts fl :
  lowered f b i ops b' -> binv b -> extends b bF -> extends b' bF -> table_ok i ->
  Clif.opcode (Clif.data i) <> Clif.Bitselect -> rel f bF b s ts -> ClifSem.exec_inst f i s = Some fl ->
  exists tfl, steps ops ts tfl /\ flow_rel f bF b' i fl tfl.
Proof.
  intros [] Hb Hext Hext' Htab Hnb Hrel Hexec.
  - by eapply sim_pure.
  - by eapply sim_load.
  - by eapply sim_store.
  - pose proof H2 as (? & ? & ? & ?)%alloca_ok; [|done]. eapply sim_stack_load; eauto.
    destruct Hext'. split; simpl in *; [rewrite H6; apply Hext|done|done|lia].
  - pose proof H2 as (? & ? & ? & ?)%alloca_ok; [|done]. by eapply sim_stack_store.
  - by eapply sim_cf.
Qed.
End sim_inst.
End SimulationFacts.
