(* ===== verification/LoweringCorrect.v ===== *)
(** * Lowered functions are correct

    Whole functions: the blocks of a lowered function are those of the Cranelift
    function under a renaming of values and blocks.  The theorems say that it
    computes the same, that it never loops and that it is in SSA form. *)

From S2P Require Import Prelude Core Ir LoweredIr Lowering LoweringSem LoweringFacts.

Import LoweredIr Builder Families Driver DispatchFacts BuilderFacts SimulationFacts.

(** ** Well-formed Cranelift functions *)

(** What Cranelift's verifier guarantees of an instruction, and what the
    reject list lets through. *)
Record inst_ok (i : Clif.Inst) : Prop := {
  io_class : RejectList.classify_opcode (Clif.opcode (Clif.data i)) = None;
  io_results : results_ok i;
  io_table : table_ok i;
}.

Definition is_term (i : Clif.Inst) : bool :=
  match Clif.data i with
  | Clif.JumpData _ | Clif.BrifData _ _ _ | Clif.BranchTableData _ _ _ | Clif.MultiAryData Clif.Return _ => true
  | _ => false
  end.

(** One terminator, at the end. *)
Fixpoint ends_in_term (l : list Clif.Inst) : bool :=
  match l with
  | [] => false
  | [i] => is_term i
  | i :: l => negb (is_term i) && ends_in_term l
  end.

Definition results_of (l : list Clif.Inst) : list Z := l ≫= Clif.results.
Definition slots_of (l : list Clif.Inst) : list Z := l ≫= ClifSem.inst_slots.

(** ** The instructions of a block *)
Section insts.
Context (f : Clif.Function_).

Lemma lower_insts_cons k idx i l b ops b' :
  lower_insts f k idx (i :: l) b = (Ok ops, b') ->
  exists ops1 b1 ops2, dispatch_inst f i (mkLocation k (as_u32 idx)) b = (Ok ops1, b1) /\
    lower_insts f k (idx + 1) l b1 = (Ok ops2, b') /\ ops = ops1 ++ ops2.
Proof.
  simpl. unfold mbind, stM_bind, mret, stM_ret. intros H. repeat (case_match; simplify_eq/=). eauto 10.
Qed.

Lemma lower_insts_ok k idx l b ops b' :
  lower_insts f k idx l b = (Ok ops, b') -> Forall inst_ok l -> binv b -> NoDup (results_of l) ->
  (forall r, r ∈ results_of l -> value_map b !! r = None) ->
  binv b' /\ extends b b' /\
  (forall v, is_Some (value_map b' !! v) -> is_Some (value_map b !! v) \/ v ∈ results_of l) /\
  (forall ss, is_Some (stack_slot_map b' !! ss) <-> is_Some (stack_slot_map b !! ss) \/ ss ∈ slots_of l).
Proof.
  revert idx b ops. induction l as [|i l IH]; intros idx b ops H Hok Hb Hnd Hfresh.
  { unfold lower_insts, mret, stM_ret in H. simplify_eq. split_and!; [done..|eauto|set_solver]. }
  apply lower_insts_cons in H as (ops1 & b1 & ops2 & Hd & Hl & ->). apply Forall_cons in Hok as [[Hc Hr _] Hok].
  apply dispatch_spec in Hd; [|done..]. unfold results_of, slots_of in *. simpl in *. apply NoDup_app in Hnd as (_ & Hdisj & Hnd).
  destruct (lowered_ok _ _ _ _ _ Hd Hb) as (Hb1 & He1 & Hv1 & Hs1); [set_solver|].
  destruct (IH _ _ _ Hl) as (Hb' & He' & Hv' & Hs'); try done.
  { intros r Hin. apply eq_None_not_Some. intros [?|?]%Hv1; [|set_solver].
    rewrite Hfresh in *; [by eapply is_Some_None|set_solver]. }
  split_and!; [done|by etrans| |].
  - intros v Hv. apply Hv' in Hv as [[?|?]%Hv1|?]; rewrite ?elem_of_app; auto.
  - intros ss. rewrite Hs', Hs1, elem_of_app. clear. tauto.
Qed.

Lemma exec_not_term i s fl :
  is_term i = false -> ClifSem.exec_inst f i s = Some fl -> exists s', fl = Next s'.
Proof.
  unfold is_term, ClifSem.exec_inst. intros Ht H.
  destruct (Clif.data i) as [| | |[]|[]|[]|[]| | | |[]|]; try done; destruct (Clif.results i) as [|? []]; simplify_option_eq; eauto.
Qed.

Lemma exec_term i s fl : is_term i = true -> ClifSem.exec_inst f i s = Some fl -> forall s', fl <> Next s'.
Proof.
  unfold is_term, ClifSem.exec_inst, ClifSem.goto. intros Ht H.
  destruct (Clif.data i) as [| | |[]|[]|[]|[]| | | |[]|]; try done; simplify_option_eq; done.
Qed.

(** The end of a block, from related states. *)
Lemma sim_insts bF k idx l b ops b' s ts fl :
  binv bF -> (forall v, vec128 (Clif.value_type f v)) ->
  lower_insts f k idx l b = (Ok ops, b') -> Forall inst_ok l -> binv b -> NoDup (results_of l) ->
  (forall r, r ∈ results_of l -> value_map b !! r = None) -> extends b' bF -> ends_in_term l = true ->
  Forall (fun i => Clif.opcode (Clif.data i) <> Clif.Bitselect) l ->
  rel f bF b s ts -> exec_list (ClifSem.exec_inst f) l s = Some fl ->
  exists i tfl, i ∈ l /\ exec_list LoweredSem.exec_op ops ts = Some tfl /\ flow_rel f bF b' i fl tfl /\ (forall s', fl <> Next s').
Proof.
  intros HbF Hvec. revert idx b ops s ts.
  induction l as [|i l IH]; intros idx b ops s ts H Hok Hb Hnd Hfresh Hext Hterm Hnb Hrel Hexec; [done|].
  pose proof H as (ops1 & b1 & ops2 & Hd & Hl & ->)%lower_insts_cons. pose proof Hok as [[Hc Hr Htab] Hok']%Forall_cons.
  apply dispatch_spec in Hd; [|done..]. apply Forall_cons in Hnb as [Hnb Hnb'].
  unfold results_of in *. simpl in Hnd, Hfresh. apply NoDup_app in Hnd as (_ & Hdisj & Hnd).
  destruct (lowered_ok _ _ _ _ _ Hd Hb) as (Hb1 & He1 & Hv1 & _); [set_solver|].
  assert (forall r, r ∈ l ≫= Clif.results -> value_map b1 !! r = None) as Hfresh1.
  { intros r Hin. apply eq_None_not_Some. intros [?|?]%Hv1; [|set_solver].
    rewrite Hfresh in *; [by eapply is_Some_None|set_solver]. }
  destruct (lower_insts_ok _ _ _ _ _ _ Hl Hok' Hb1 Hnd Hfresh1) as (_ & He2 & _).
  simpl in Hexec. destruct (ClifSem.exec_inst f i s) as [fl1|] eqn:Hi; [|done].
  edestruct (sim_inst f bF HbF Hvec b i ops1 b1 s ts) as (tfl & Hsteps & Hflow);
    [done|done|by do 2 (etrans; [done|])|by etrans|done..|].
  destruct (is_term i) eqn:Hti.
  - destruct l as [|i' l]; [|by simpl in Hterm; rewrite Hti in Hterm].
    unfold lower_insts, mret, stM_ret in Hl. simplify_eq. pose proof (exec_term _ _ _ Hti Hi) as Hend.
    assert (fl = fl1) as -> by (destruct fl1; by simplify_eq/=). exists i, tfl. split; [set_solver|].
    rewrite Hsteps.
    destruct fl1 as [s1| |]; [by destruct (Hend s1)|by destruct tfl..].
  - destruct (exec_not_term _ _ _ Hti Hi) as (s' & ->). destruct tfl as [ts'| |]; try done.
    assert (ends_in_term l = true) as Hterm'.
    { destruct l; [simpl in Hterm; congruence|]. simpl in Hterm. by bool_props. }
    destruct (IH _ _ _ _ _ Hl Hok' Hb1 Hnd Hfresh1 Hext Hterm' Hnb' Hflow Hexec) as (j & tfl & Hin & He & ?).
    exists j, tfl. split; [by right|]. by rewrite Hsteps.
Qed.
End insts.

(** ** Block numbers and block parameters *)
Section blocks.
Context (f : Clif.Function_).

Lemma alloc_blocks_ok bs b b' :
  alloc_blocks bs b = (Ok (), b') -> NoDup (Clif.block_id <$> bs) ->
  (forall blk, blk ∈ bs -> block_map b !! Clif.block_id blk = None) ->
  (value_map b' = value_map b /\ stack_slot_map b' = stack_slot_map b /\ next_value_id b' = next_value_id b) /\
  (forall j blk, bs !! j = Some blk -> block_map b' !! Clif.block_id blk = Some (next_block_id b + Z.of_nat j)) /\
  (forall k, k ∉ Clif.block_id <$> bs -> block_map b' !! k = block_map b !! k).
Proof.
  revert b. induction bs as [|cb bs IH]; intros b H Hnd Hnone; simpl in H.
  { unfold mret, stM_ret in H. by simplify_eq. }
  unfold mbind, stM_bind, get_or_alloc_block, alloc_block in H. rewrite Hnone in H by set_solver.
  simpl in Hnd. apply NoDup_cons in Hnd as [Hnin Hnd].
  destruct (checked_add u32_max (next_block_id b) 1) as [n|] eqn:Hadd; simplify_eq/=.
  unfold checked_add in Hadd. case_match; simplify_eq. apply IH in H as (Hsame & Hin & Hout); [|done|].
  - split; [done|]. split.
    + intros [|j] blk Hj; simplify_eq/=.
      * rewrite Hout by done. simpl. rewrite lookup_insert_eq. f_equal. lia.
      * rewrite (Hin _ _ Hj). f_equal. simpl. lia.
    + intros k Hk. rewrite Hout by set_solver. simpl. apply lookup_insert_ne. set_solver.
  - intros blk Hblk. simpl. rewrite lookup_insert_ne; [by apply Hnone; right|].
    intros Heq. apply Hnin. rewrite Heq. by apply list_elem_of_fmap_2.
Qed.

Lemma alloc_value_ok p b id b' :
  get_or_alloc_value p b = (Ok id, b') -> binv b ->
  binv b' /\ extends b b' /\ stack_slot_map b' = stack_slot_map b /\ value_map b' !! p = Some id /\
  (forall v, is_Some (value_map b' !! v) <-> is_Some (value_map b !! v) \/ v = p).
Proof.
  unfold get_or_alloc_value, alloc_value. intros H Hb. destruct (value_map b !! p) eqn:Hp; simplify_eq.
  { split_and!; try done. intros v. split; [eauto|]. intros [? | ->]; eauto. }
  destruct (checked_add _ _ _) eqn:Ha; simplify_eq. unfold checked_add in Ha. case_match; simplify_eq.
  destruct (numbered_ok p (next_value_id b) b Hb Hp) as [? ?]; [lia|]. split_and!; try done.
  - simpl. by rewrite lookup_insert_eq.
  - intros v. simpl. rewrite lookup_insert_is_Some. destruct (decide (p = v)); naive_solver.
Qed.

(** The numbers of a block's parameters. *)
Definition numbers (b : LoweringBuilder) (l : list (Z * Z)) : Prop := Forall (fun '(id, v) => value_map b !! v = Some id) l.

Lemma numbers_extends b b' l : extends b b' -> numbers b l -> numbers b' l.
Proof. intros [Hv _ _ _] H. eapply Forall_impl; [exact H|]. intros [id v] ?. by eapply lookup_weaken. Qed.

Lemma alloc_params_ok ps b l b' :
  alloc_params ps b = (Ok l, b') -> binv b ->
  binv b' /\ extends b b' /\ stack_slot_map b' = stack_slot_map b /\ l.*2 = ps /\ numbers b' l /\
  (forall v, is_Some (value_map b' !! v) <-> is_Some (value_map b !! v) \/ v ∈ ps).
Proof.
  revert b l. induction ps as [|p ps IH]; intros b l H Hb; simpl in H; unfold mbind, stM_bind, mret, stM_ret in H.
  { simplify_eq. split_and!; try done; [by constructor|set_solver]. }
  destruct (get_or_alloc_value p b) as [[id|] b1] eqn:Hp; [|done].
  destruct (alloc_params ps b1) as [[l1|] b2] eqn:Hps; simplify_eq.
  apply alloc_value_ok in Hp as (Hb1 & He1 & Hs1 & Hid & Hv1); [|done].
  apply IH in Hps as (Hb2 & He2 & Hs2 & <- & Hn2 & Hv2); [|done]. split_and!; [done|by etrans|congruence|done| |].
  - constructor; [|done]. by eapply lookup_weaken, ex_vals.
  - intros v. rewrite Hv2, Hv1. set_solver.
Qed.

Lemma seed_params_ok bs seeded b seeded' b' :
  seed_params bs seeded b = (Ok seeded', b') -> binv b -> NoDup (Clif.block_id <$> bs) ->
  binv b' /\ extends b b' /\ stack_slot_map b' = stack_slot_map b /\
  (forall k, k ∉ Clif.block_id <$> bs -> seeded' !! k = seeded !! k) /\
  (forall blk, blk ∈ bs -> exists l, seeded' !! Clif.block_id blk = Some l /\ l.*2 = Clif.block_params blk /\ numbers b' l) /\
  (forall v, is_Some (value_map b' !! v) <-> is_Some (value_map b !! v) \/ v ∈ bs ≫= Clif.block_params).
Proof.
  revert seeded b. induction bs as [|cb bs IH]; intros seeded b H Hb Hnd; simpl in H; unfold mbind, stM_bind, mret, stM_ret in H.
  { simplify_eq. split_and!; try done; set_solver. }
  destruct (alloc_params (Clif.block_params cb) b) as [[l|] b1] eqn:Hp; [|done]. simpl in Hnd. apply NoDup_cons in Hnd as [Hnin Hnd].
  apply alloc_params_ok in Hp as (Hb1 & He1 & Hs1 & Hl & Hn1 & Hv1); [|done].
  apply IH in H as (Hb2 & He2 & Hs2 & Hout & Hin & Hv2); [|done..].
  split_and!; [done|by etrans|congruence| | |].
  - intros k Hk. rewrite Hout by set_solver. apply lookup_insert_ne. set_solver.
  - intros blk [->|?]%elem_of_cons; [|by apply Hin]. exists l. rewrite Hout by done. rewrite lookup_insert_eq.
    split_and!; [done..|by eapply numbers_extends].
  - intros v. rewrite Hv2, Hv1. set_solver.
Qed.

Lemma lower_params_ok k seeds b params b' :
  lower_params f k seeds b = (Ok params, b') ->
  b' = b /\ params.*1 = seeds.*1 /\
  Forall2 (fun '(_, v) lt => Signature.cranelift_type_to_lowered (Clif.value_type f v) = Some lt) seeds params.*2.
Proof.
  revert params. induction seeds as [|[id v] seeds IH]; intros params H; simpl in H; unfold mbind, stM_bind, mret, stM_ret in H.
  { by simplify_eq. }
  destruct (Signature.cranelift_type_to_lowered (Clif.value_type f v)) as [lt|] eqn:Ht; [|done].
  destruct (lower_params f k seeds b) as [[rest|] b1] eqn:Hr; simplify_eq.
  destruct (IH rest eq_refl) as (-> & Hid & Hty). split_and!; [done|by rewrite !fmap_cons, Hid|by constructor].
Qed.

(** A lowered block: its number, its parameters, its operations; the builder
    before and after its instructions. *)
Record block_lowered (seeded : gmap Z (list (Z * Z))) (b b' : LoweringBuilder) (cb : Clif.Block) (lb : LoweredBlock) : Prop := {
  bl_id : block_map b !! Clif.block_id cb = Some (LoweredIr.id lb);
  bl_seeds : exists seeds, seeded !! Clif.block_id cb = Some seeds /\ (params lb).*1 = seeds.*1 /\
    Forall2 (fun '(_, v) lt => Signature.cranelift_type_to_lowered (Clif.value_type f v) = Some lt) seeds (params lb).*2;
  bl_insts : lower_insts f (Clif.block_id cb) 0 (Clif.insts cb) b = (Ok (ops lb), b');
}.

Inductive blocks_lowered (seeded : gmap Z (list (Z * Z))) :
    LoweringBuilder -> list Clif.Block -> list LoweredBlock -> LoweringBuilder -> Prop :=
| bls_nil b : blocks_lowered seeded b [] [] b
| bls_cons b b1 b' cb bs lb lbs :
    block_lowered seeded b b1 cb lb -> blocks_lowered seeded b1 bs lbs b' ->
    blocks_lowered seeded b (cb :: bs) (lb :: lbs) b'.

Lemma lower_blocks_spec seeded bs b lbs b' :
  lower_blocks f seeded bs b = (Ok lbs, b') -> blocks_lowered seeded b bs lbs b'.
Proof.
  revert b lbs. induction bs as [|cb bs IH]; intros b lbs H; simpl in H;
    unfold mbind, stM_bind, get_state, expect, mret, stM_ret, fail in H.
  { simplify_eq. constructor. }
  destruct (block_map b !! Clif.block_id cb) as [k|] eqn:Hk; [|done].
  destruct (seeded !! Clif.block_id cb) as [seeds|] eqn:Hs; [|done].
  destruct (lower_params f (Clif.block_id cb) seeds b) as [[params|] b1] eqn:Hp; [|done].
  destruct (lower_insts f (Clif.block_id cb) 0 (Clif.insts cb) b1) as [[ops|] b2] eqn:Hi; [|done].
  destruct (lower_blocks f seeded bs b2) as [[rest|] b3] eqn:Hr; simplify_eq.
  apply lower_params_ok in Hp as (-> & ? & ?). econstructor; [|by apply IH]. split; simpl; eauto.
Qed.

(** The builders around block [j]. *)
Record at_block (seeded : gmap Z (list (Z * Z))) (b b' : LoweringBuilder) (bs : list Clif.Block) (lbs : list LoweredBlock)
    (j : nat) (cb : Clif.Block) (lb : LoweredBlock) (b1 b2 : LoweringBuilder) : Prop := {
  ab_block : lbs !! j = Some lb;
  ab_lowered : block_lowered seeded b1 b2 cb lb;
  ab_inv : binv b1;
  ab_fresh : forall r, r ∈ results_of (Clif.insts cb) -> value_map b1 !! r = None;
  ab_once : NoDup (results_of (Clif.insts cb));
  ab_before : extends b b1;
  ab_mid : extends b1 b2;
  ab_after : extends b2 b';
  ab_slots : forall ss, is_Some (stack_slot_map b1 !! ss) <->
    is_Some (stack_slot_map b !! ss) \/ ss ∈ take j bs ≫= fun cb => slots_of (Clif.insts cb);
  ab_slots' : forall ss, is_Some (stack_slot_map b2 !! ss) <->
    is_Some (stack_slot_map b1 !! ss) \/ ss ∈ slots_of (Clif.insts cb);
}.

Definition block_results (cb : Clif.Block) : list Z := results_of (Clif.insts cb).

Lemma blocks_lowered_ok seeded b bs lbs b' :
  blocks_lowered seeded b bs lbs b' -> Forall (fun cb => Forall inst_ok (Clif.insts cb)) bs -> binv b ->
  NoDup (bs ≫= block_results) -> (forall r, r ∈ bs ≫= block_results -> value_map b !! r = None) ->
  binv b' /\ extends b b' /\ length lbs = length bs /\
  (forall ss, is_Some (stack_slot_map b' !! ss) <->
     is_Some (stack_slot_map b !! ss) \/ ss ∈ bs ≫= fun cb => slots_of (Clif.insts cb)) /\
  forall j cb, bs !! j = Some cb -> exists lb b1 b2, at_block seeded b b' bs lbs j cb lb b1 b2.
Proof.
  induction 1 as [b|b b1 b' cb bs lb lbs Hbl _ IH]; intros Hok Hb Hnd Hfresh; [split_and!; [done..|set_solver|done]|].
  apply Forall_cons in Hok as [Hok Hoks]. simpl in Hnd, Hfresh. apply NoDup_app in Hnd as (Hnd & Hdisj & Hnds).
  destruct (lower_insts_ok _ _ _ _ _ _ _ (bl_insts _ _ _ _ _ Hbl) Hok Hb Hnd) as (Hb1 & He1 & Hv1 & Hs1); [set_solver|].
  destruct (IH Hoks Hb1 Hnds) as (Hb' & He' & Hlen & Hs' & Hat).
  { intros r Hr. apply eq_None_not_Some. intros [?|?]%Hv1; [|set_solver].
    rewrite Hfresh in *; [by eapply is_Some_None|set_solver]. }
  split_and!; [done|by etrans|simpl; lia| |].
  { intros ss. rewrite Hs', Hs1. simpl. rewrite elem_of_app. clear. tauto. }
  intros [|j] cb' Hj; simplify_eq/=.
  - exists lb, b, b1. split; try done; set_solver.
  - destruct (Hat _ _ Hj) as (lb' & b2 & b3 & []). exists lb', b2, b3. split; try done; [by etrans|].
    intros ss. rewrite ab_slots0, Hs1. simpl. rewrite elem_of_app. clear. tauto.
Qed.
End blocks.

(** ** The reject list *)
Section accepted.
Context (f : Clif.Function_) (Hnd : NoDup (Clif.block_id <$> Clif.layout f)).

Lemma layout_order_app (l : list Clif.Block) (n : nat) (m : gmap Z Z) :
  NoDup (Clif.block_id <$> l) ->
  (forall j blk, l !! j = Some blk ->
     foldl (fun m '(idx, b) => <[Clif.block_id b := Z.of_nat idx]> m) m (imap (fun i b => (n + i, b)%nat) l) !! Clif.block_id blk
     = Some (Z.of_nat (n + j))) /\
  (forall k, k ∉ Clif.block_id <$> l ->
     foldl (fun m '(idx, b) => <[Clif.block_id b := Z.of_nat idx]> m) m (imap (fun i b => (n + i, b)%nat) l) !! k = m !! k).
Proof.
  revert n m. induction l as [|b l IH]; intros n m Hl; [done|]. simpl in Hl. apply NoDup_cons in Hl as [Hnin Hl].
  simpl. rewrite (imap_ext _ (fun i b => (S n + i, b)%nat)) by (intros; simpl; do 2 f_equal; lia).
  destruct (IH (S n) (<[Clif.block_id b := Z.of_nat (n + 0)]> m) Hl) as [Hin Hout]. split.
  - intros [|j] blk Hj; simplify_eq/=.
    + rewrite Hout by done. by rewrite lookup_insert_eq.
    + rewrite (Hin _ _ Hj). do 2 f_equal. lia.
  - intros k Hk. rewrite Hout by set_solver. apply lookup_insert_ne. set_solver.
Qed.

Lemma layout_order_lookup j blk :
  Clif.layout f !! j = Some blk -> RejectList.block_layout_order f !! Clif.block_id blk = Some (Z.of_nat j).
Proof. intros Hj. destruct (layout_order_app (Clif.layout f) 0 ∅ Hnd) as [H _]. by apply H. Qed.

Lemma first_in_block_None order b l :
  RejectList.first_in_block order b l = None ->
  Forall (fun i => RejectList.inst_reason i (RejectList.block_idx order b) order = None) l.
Proof. induction l as [|i l IH]; simpl; [by constructor|]. case_match; [done|]. constructor; auto. Qed.

Lemma first_in_blocks_None order bs :
  RejectList.first_in_blocks order bs = None ->
  Forall (fun b => Forall (fun i => RejectList.inst_reason i (RejectList.block_idx order b) order = None) (Clif.insts b)) bs.
Proof.
  induction bs as [|b bs IH]; simpl; [by constructor|]. case_match eqn:Hb; [done|]. constructor; [|auto].
  by apply first_in_block_None.
Qed.

(** An accepted function has no rejected opcode, and branches only forward. *)
Lemma check_function_None j cb i :
  RejectList.check_function f = None -> Clif.layout f !! j = Some cb -> i ∈ Clif.insts cb ->
  RejectList.classify_opcode (Clif.opcode (Clif.data i)) = None /\
  forall c j' cb', c ∈ Clif.branch_destination (Clif.data i) -> Clif.layout f !! j' = Some cb' ->
    Clif.block_id cb' = Clif.bc_block c -> (j < j')%nat.
Proof.
  intros H Hj Hi. apply first_in_blocks_None in H. rewrite Forall_forall in H.
  specialize (H cb (list_elem_of_lookup_2 _ _ _ Hj)). rewrite Forall_forall in H. specialize (H i Hi).
  unfold RejectList.inst_reason in H. destruct (RejectList.classify_opcode _); [done|]. split; [done|].
  intros c j' cb' Hc Hj' Hid. unfold RejectList.back_edge_reason, RejectList.block_idx in H.
  rewrite (layout_order_lookup _ _ Hj) in H. simpl in H.
  assert (Clif.is_branch (Clif.opcode (Clif.data i)) = true) as Hb by (destruct (Clif.data i); simpl in Hc; set_solver).
  rewrite Hb in H. simpl in H. destruct (existsb _ _) eqn:He; [done|]. apply not_true_iff_false in He.
  destruct (decide (j < j')%nat); [done|]. destruct He. apply existsb_exists. exists c. split; [by apply list_elem_of_In|].
  rewrite <-Hid, (layout_order_lookup _ _ Hj'). lia.
Qed.
End accepted.

(** ** Whole functions *)

(** What Cranelift's verifier guarantees: blocks and values are defined once,
    every block ends in its only terminator, branches pass the arguments their
    target declares.  Vectors have 128 bits. *)
Record well_formed (f : Clif.Function_) : Prop := {
  wf_blocks : NoDup (Clif.block_id <$> Clif.layout f);
  wf_values : NoDup ((Clif.layout f ≫= Clif.block_params) ++ (Clif.layout f ≫= block_results));
  wf_insts : forall cb i, cb ∈ Clif.layout f -> i ∈ Clif.insts cb -> results_ok i /\ table_ok i;
  wf_term : forall cb, cb ∈ Clif.layout f -> ends_in_term (Clif.insts cb) = true;
  wf_args : forall cb i c cb', cb ∈ Clif.layout f -> i ∈ Clif.insts cb ->
    c ∈ Clif.branch_destination (Clif.data i) -> cb' ∈ Clif.layout f -> Clif.block_id cb' = Clif.bc_block c ->
    Forall2 (fun a p => Clif.value_type f a = Clif.value_type f p) (Clif.bc_args c) (Clif.block_params cb');
  wf_vec : forall v, vec128 (Clif.value_type f v);
}.

Section function.
Context (f : Clif.Function_) (lf : LoweredFunction) (Hwf : well_formed f).

(** A successful lowering, taken apart: [b0] has numbered the blocks and their
    parameters, [bF] every value. *)
Record lowering (seeded : gmap Z (list (Z * Z))) (b0 bF : LoweringBuilder) : Prop := {
  lw_accepted : RejectList.check_function f = None;
  lw_nonempty : Clif.layout f <> [];
  lw_inv : binv b0;
  lw_slots : stack_slot_map b0 = ∅;
  lw_ids : forall j cb, Clif.layout f !! j = Some cb -> block_map b0 !! Clif.block_id cb = Some (Z.of_nat j);
  lw_only : forall k x, block_map b0 !! k = Some x -> exists j cb, Clif.layout f !! j = Some cb /\ Clif.block_id cb = k;
  lw_seeds : forall cb, cb ∈ Clif.layout f -> exists l, seeded !! Clif.block_id cb = Some l /\
    l.*2 = Clif.block_params cb /\ numbers b0 l;
  lw_params : forall v, is_Some (value_map b0 !! v) <-> v ∈ Clif.layout f ≫= Clif.block_params;
  lw_blocks : blocks_lowered f seeded b0 (Clif.layout f) (blocks lf) bF;
  lw_entry : entry lf = 0;
}.

Lemma binv_new : binv new.
Proof. split; simpl; intros; simplify_map_eq; lia. Qed.

Lemma accepted_insts :
  RejectList.check_function f = None -> Forall (fun cb => Forall inst_ok (Clif.insts cb)) (Clif.layout f).
Proof.
  intros Hc. apply Forall_forall. intros cb Hcb. apply Forall_forall. intros i Hi.
  pose proof Hcb as [j Hj]%list_elem_of_lookup. destruct Hwf.
  destruct (check_function_None f wf_blocks0 j cb i Hc Hj Hi) as [? _]. by destruct (wf_insts0 cb i Hcb Hi).
Qed.

(** Only parameters are numbered before the instructions are. *)
Lemma results_unnumbered b0 r :
  (forall v, is_Some (value_map b0 !! v) <-> v ∈ Clif.layout f ≫= Clif.block_params) ->
  r ∈ Clif.layout f ≫= block_results -> value_map b0 !! r = None.
Proof.
  intros Hv Hr. apply eq_None_not_Some. rewrite Hv. pose proof (wf_values f Hwf) as (_ & Hd & _)%NoDup_app. intros Hp. by eapply Hd.
Qed.

Lemma results_once : NoDup (Clif.layout f ≫= block_results).
Proof. by pose proof (wf_values f Hwf) as (_ & _ & ?)%NoDup_app. Qed.

Lemma lower_function_inv : lower_function f = Ok lf -> exists seeded b0 bF, lowering seeded b0 bF.
Proof.
  unfold lower_function. intros H. destruct (Signature.lower_signature _); [|done].
  destruct (RejectList.check_function f) eqn:Hc; [done|].
  destruct (lower_body f new) as [[[bs e]|] b] eqn:Hbody; simplify_eq/=.
  unfold lower_body, mbind, stM_bind in Hbody. destruct (alloc_blocks (Clif.layout f) new) as [[[]|] b1] eqn:Ha; [|done].
  destruct (seed_params (Clif.layout f) ∅ b1) as [[seeded|] b0] eqn:Hs; [|done].
  destruct (lower_blocks f seeded (Clif.layout f) b0) as [[lbs|] bF] eqn:Hl; [|done].
  apply alloc_blocks_ok in Ha as ((Hv1 & Hs1 & Hn1) & Hin & Hout); [|apply Hwf|done].
  assert (binv b1) as Hb1 by (pose proof binv_new as []; split; rewrite ?Hv1, ?Hs1, ?Hn1; done).
  apply seed_params_ok in Hs as (Hb0 & He0 & Hs0 & _ & Hseeds & Hvals); [|done|apply Hwf].
  rewrite Hv1 in Hvals. assert (forall v, is_Some (value_map b0 !! v) <-> v ∈ Clif.layout f ≫= Clif.block_params) as Hparams.
  { intros v. rewrite Hvals. simpl. rewrite lookup_empty, is_Some_alt. naive_solver. }
  apply lower_blocks_spec in Hl. pose proof (blocks_lowered_ok _ _ _ _ _ _ Hl (accepted_insts Hc) Hb0 results_once
    (fun r => results_unnumbered b0 r Hparams)) as (_ & HeF & _).
  destruct (Clif.layout f) as [|cb cbs] eqn:Hlay; [done|]. unfold get_state, expect, mret, stM_ret, fail in Hbody.
  destruct (block_map bF !! Clif.block_id cb) as [k|] eqn:Hk; [|done]. injection Hbody as -> -> <-. rewrite <-Hlay in *.
  rewrite (ex_blocks _ _ HeF), (ex_blocks _ _ He0), (Hin 0%nat cb) in Hk by (by rewrite Hlay). simplify_eq.
  exists seeded, b0, bF. split; simpl; try done.
  - congruence.
  - by rewrite Hs0, Hs1.
  - intros j cb' Hj. by rewrite (ex_blocks _ _ He0), (Hin _ _ Hj).
  - intros k x Hx. rewrite (ex_blocks _ _ He0) in Hx. destruct (decide (k ∈ Clif.block_id <$> Clif.layout f)) as [Hk|Hk].
    + apply list_elem_of_fmap in Hk as (cb' & -> & [j ?]%list_elem_of_lookup). eauto.
    + rewrite Hout in Hx by done. by simplify_map_eq.
  - by rewrite <-H.
  - by rewrite <-H.
Qed.

(** *** From here on a lowering is given *)
Section given.
Context (seeded : gmap Z (list (Z * Z))) (b0 bF : LoweringBuilder) (Hlow : lowering seeded b0 bF).

Lemma lowering_blocks :
  binv bF /\ extends b0 bF /\ length (blocks lf) = length (Clif.layout f) /\
  (forall ss, is_Some (stack_slot_map bF !! ss) <-> ss ∈ Clif.layout f ≫= fun cb => slots_of (Clif.insts cb)) /\
  forall j cb, Clif.layout f !! j = Some cb ->
    exists lb b1 b2, at_block f seeded b0 bF (Clif.layout f) (blocks lf) j cb lb b1 b2.
Proof.
  destruct Hlow. destruct (blocks_lowered_ok f seeded b0 (Clif.layout f) (blocks lf) bF) as (? & ? & ? & Hs & ?);
    try done; [by apply accepted_insts|apply results_once|intros r; by apply results_unnumbered|].
  split_and!; try done. intros ss. rewrite Hs, lw_slots0, lookup_empty. rewrite is_Some_alt. tauto.
Qed.

Lemma block_numbered j lb : blocks lf !! j = Some lb -> LoweredIr.id lb = Z.of_nat j.
Proof.
  intros Hlb. destruct lowering_blocks as (_ & _ & Hlen & _ & Hat). apply lookup_lt_Some in Hlb as Hj. rewrite Hlen in Hj.
  apply lookup_lt_is_Some in Hj as [cb Hcb]. destruct (Hat _ _ Hcb) as (lb' & b1 & b2 & []). simplify_eq.
  pose proof (bl_id _ _ _ _ _ _ ab_lowered0) as Hid.
  rewrite (ex_blocks _ _ ab_before0), (lw_ids _ _ _ Hlow _ _ Hcb) in Hid. congruence.
Qed.

(** A block is found by its number. *)
Lemma block_found j lb : blocks lf !! j = Some lb -> block lf (Z.of_nat j) = Some lb.
Proof.
  intros Hj. unfold block. destruct (List.find _ _) as [lb'|] eqn:Hf.
  - apply List.find_some in Hf as [[j' Hj']%list_elem_of_In%list_elem_of_lookup Heq].
    apply block_numbered in Hj' as Hid. replace j' with j in * by lia. congruence.
  - pose proof Hj as Hin%list_elem_of_lookup_2%list_elem_of_In. eapply List.find_none in Hf; [|done].
    apply block_numbered in Hj. lia.
Qed.

Lemma source_block_found j cb : Clif.layout f !! j = Some cb -> ClifSem.block_of f (Clif.block_id cb) = Some cb.
Proof.
  intros Hj. unfold ClifSem.block_of. destruct (List.find _ _) as [cb'|] eqn:Hf.
  - apply List.find_some in Hf as [[j' Hj']%list_elem_of_In%list_elem_of_lookup Heq].
    assert (j = j') as <-; [|congruence].
    eapply (NoDup_lookup _ _ _ (Clif.block_id cb) (wf_blocks f Hwf)); rewrite list_lookup_fmap; [by rewrite Hj|rewrite Hj'; simpl; f_equal; lia].
  - pose proof Hj as Hin%list_elem_of_lookup_2%list_elem_of_In. eapply List.find_none in Hf; [|done]. lia.
Qed.

(** Parameters bound on both sides. *)
Lemma rel_bind b ps ids zs vs s ts e :
  stack_slot_map b ⊆ stack_slot_map bF -> Forall2 (fun p x => value_map bF !! p = Some x) ps ids ->
  Forall3 (arg_rel f) ps zs vs -> rel f bF b s ts -> bind_params ps zs (ClifSem.env s) = Some e ->
  exists te, bind_params ids vs (LoweredSem.env ts) = Some te /\
    rel f bF b (ClifSem.mkState e (ClifSem.mem s) (ClifSem.slots s))
      (LoweredSem.mkState te (LoweredSem.mem ts) (LoweredSem.allocas ts)).
Proof.
  intros Hsub Hids Hargs Hrel He. unfold bind_params in *. destruct (bool_decide _); simplify_eq.
  rewrite bool_decide_true by (rewrite <-(Forall2_length _ _ _ Hids); by eapply Forall3_length_lr).
  eexists. split; [done|]. revert ids s ts Hids Hrel.
  induction Hargs as [|p z v ps zs vs (lt & -> & Ht) _ IH]; intros ids s ts Hids Hrel; inversion Hids; subst; simpl.
  { by destruct s, ts. }
  specialize (IH _ _ _ H3 (rel_set f bF b s ts p y z lt (proj1 lowering_blocks) Hrel H1 Hsub Ht)). by simpl in IH.
Qed.

Lemma rel_slots_eq b b' s ts : stack_slot_map b = stack_slot_map b' -> rel f bF b s ts -> rel f bF b' s ts.
Proof. intros Heq []. split; rewrite <-?Heq; done. Qed.

(** Every slot is first touched in the entry block. *)
Definition slots_in_entry : Prop :=
  forall ss, ss ∈ (Clif.layout f ≫= fun cb => slots_of (Clif.insts cb)) ->
    exists cb, head (Clif.layout f) = Some cb /\ ss ∈ slots_of (Clif.insts cb).

Lemma subseteq_same_dom (m1 m2 : gmap Z Z) : m1 ⊆ m2 -> (forall k, is_Some (m2 !! k) -> is_Some (m1 !! k)) -> m1 = m2.
Proof.
  intros Hsub Hdom. apply map_eq. intros k. destruct (m2 !! k) as [x|] eqn:Hk.
  - destruct (Hdom k) as [y Hy]; [by rewrite Hk|]. by rewrite (lookup_weaken _ _ _ _ Hy Hsub) in Hk; simplify_eq.
  - by eapply lookup_weaken_None.
Qed.

(** After the entry block, no instruction allocates. *)
Lemma slots_settled j cb lb b1 b2 :
  slots_in_entry -> at_block f seeded b0 bF (Clif.layout f) (blocks lf) j cb lb b1 b2 -> Clif.layout f !! j = Some cb ->
  stack_slot_map b2 = stack_slot_map bF /\ ((0 < j)%nat -> stack_slot_map b1 = stack_slot_map bF).
Proof.
  intros Hentry [Hlb Hbl Hinv Hfr Hnd Hbef Hmid Haft Hs1 Hs2] Hj. destruct lowering_blocks as (_ & _ & _ & HsF & _).
  assert (forall ss, is_Some (stack_slot_map bF !! ss) -> exists cb0, Clif.layout f !! 0%nat = Some cb0 /\ ss ∈ slots_of (Clif.insts cb0)) as H0.
  { intros ss (cb0 & Hcb0 & ?)%HsF%Hentry. exists cb0. split; [|done]. by destruct (Clif.layout f). }
  split; [|intros Hpos]; (apply subseteq_same_dom; [|intros ss (cb0 & Hcb0 & Hss)%H0]).
  - apply Haft.
  - apply Hs2. destruct j as [|j]; [right; by simplify_eq|left]. apply Hs1. right.
    apply list_elem_of_bind. exists cb0. split; [done|]. destruct (Clif.layout f); simplify_eq/=. by left.
  - etrans; [apply Hmid|apply Haft].
  - apply Hs1. right. apply list_elem_of_bind. exists cb0. split; [done|].
    destruct (Clif.layout f), j; simplify_eq/=; [lia|]. by left.
Qed.

(** No bit selection; [bitselect_differs] below shows why. *)
Definition no_bitselect : Prop :=
  forall cb i, cb ∈ Clif.layout f -> i ∈ Clif.insts cb -> Clif.opcode (Clif.data i) <> Clif.Bitselect.

Lemma Forall2_numbers l ps : numbers bF l -> l.*2 = ps -> Forall2 (fun p x => value_map bF !! p = Some x) ps l.*1.
Proof. intros Hn <-. induction Hn as [|[id v] l ? _ IH]; [constructor|]. by constructor. Qed.

Lemma sim_run_from n j cb zs vs s ts b1 b2 lb rs m :
  slots_in_entry -> no_bitselect -> Clif.layout f !! j = Some cb ->
  at_block f seeded b0 bF (Clif.layout f) (blocks lf) j cb lb b1 b2 ->
  Forall3 (arg_rel f) (Clif.block_params cb) zs vs -> rel f bF b1 s ts ->
  ClifSem.run_from n f (Clif.block_id cb) zs s = Returned rs m ->
  LoweredSem.run_from n lf (Z.of_nat j) vs ts = Returned rs m.
Proof.
  intros Hentry Hnb. revert j cb zs vs s ts b1 b2 lb.
  induction n as [|n IH]; intros j cb zs vs s ts b1 b2 lb Hj Hat Hargs Hrel Hrun; [done|]. simpl in *.
  rewrite (source_block_found _ _ Hj) in Hrun. rewrite (block_found _ _ (ab_block _ _ _ _ _ _ _ _ _ _ _ Hat)).
  destruct (bind_params _ _ _) as [e|] eqn:He; [|done].
  pose proof Hat as [Hlb [Hid (seeds & Hseed & Hps & Hty) Hins] Hinv Hfr Hnd Hbef Hmid Haft _ _].
  apply list_elem_of_lookup_2 in Hj as Hin. destruct (lw_seeds _ _ _ Hlow _ Hin) as (l & Hl & Hl2 & Hnum). simplify_eq.
  destruct lowering_blocks as (HbF & HeF & _ & _ & Hblocks).
  edestruct (rel_bind b1) as (te & Hte & Hrel'); [|by apply Forall2_numbers; [eapply numbers_extends|]|exact Hargs|exact Hrel|exact He|].
  { etrans; [apply Hmid|apply Haft]. }
  rewrite Hps, Hte. destruct (exec_list _ (Clif.insts cb) _) as [fl|] eqn:Hex; [|done].
  edestruct (sim_insts f bF) as (i & tfl & Hi & Htex & Hflow & Hend); [done|apply Hwf|exact Hins| |done|done|done|done|by apply Hwf| |exact Hrel'|exact Hex|].
  { pose proof (accepted_insts (lw_accepted _ _ _ Hlow)) as Hok. rewrite Forall_forall in Hok. by apply Hok. }
  { apply Forall_forall. intros i. by apply Hnb. }
  rewrite Htex. destruct fl as [s'|k zs' s'|rs' s'], tfl as [ts'|x vs' ts'|vs' ts']; try done.
  - destruct Hflow as (Hrel2 & Hk & c & Hc & <- & Hargs2).
    rewrite (ex_blocks _ _ HeF) in Hk. pose proof (lw_only _ _ _ Hlow _ _ Hk) as (j' & cb' & Hj' & Hid').
    rewrite <-Hid' in Hk, Hrun. rewrite (lw_ids _ _ _ Hlow _ _ Hj') in Hk. simplify_eq.
    destruct (Hblocks _ _ Hj') as (lb' & b1' & b2' & Hat').
    destruct (check_function_None f (wf_blocks f Hwf) j cb i (lw_accepted _ _ _ Hlow) Hj Hi) as [_ Hfwd].
    assert (j < j')%nat as Hlt by by eapply Hfwd. assert (cb' ∈ Clif.layout f) as Hin' by by eapply list_elem_of_lookup_2.
    pose proof (wf_args f Hwf cb i c cb' Hin Hi Hc Hin' Hid') as Htyped.
    eapply (IH j' cb'); [done|done| | |done].
    + clear -Hargs2 Htyped. revert Htyped. generalize (Clif.block_params cb').
      induction Hargs2 as [|a z v args zs vs (lt & -> & Ht) _ IH]; intros ps Hps; inversion Hps; subst; constructor; auto.
      exists lt. by rewrite <-H1.
    + eapply rel_slots_eq; [|exact Hrel2]. destruct (slots_settled j cb lb b1 b2) as [-> _]; try done.
      destruct (slots_settled j' cb' lb' b1' b2') as [_ ->]; try done. lia.
  - destruct Hflow as [-> ->]. done.
Qed.

Lemma sim_run n args m rs m' :
  slots_in_entry -> no_bitselect -> ClifSem.run n f args m = Returned rs m' -> LoweredSem.run n lf args m = Returned rs m'.
Proof.
  intros Hentry Hnb Hrun. unfold ClifSem.run in Hrun. destruct (Clif.layout f) as [|cb cbs] eqn:Hlay; [done|].
  assert (Clif.layout f !! 0%nat = Some cb) as Hcb by by rewrite Hlay.
  destruct lowering_blocks as (_ & HeF & _ & _ & Hblocks). destruct (Hblocks _ _ Hcb) as (lb & b1 & b2 & Hat).
  pose proof Hat as [Hlb [_ (seeds & Hseed & Hps & Hty) _] _ _ _ Hbef _ _ Hs1 _].
  unfold LoweredSem.run. rewrite (lw_entry _ _ _ Hlow). change 0 with (Z.of_nat 0). rewrite (block_found _ _ Hlb).
  destruct (lw_seeds _ _ _ Hlow cb) as (l & Hl & Hl2 & _); [by eapply list_elem_of_lookup_2|]. simplify_eq.
  assert (length args = length (params lb)) as Hlen.
  { destruct n as [|n]; [done|]. simpl in Hrun. rewrite (source_block_found _ _ Hcb) in Hrun. unfold bind_params in Hrun.
    destruct (bool_decide _) eqn:Hd; [|done]. apply bool_decide_eq_true in Hd.
    rewrite <-Hd, <-Hl2, <-(length_fmap fst (params lb)), Hps, !length_fmap. done. }
  rewrite bool_decide_true by done. eapply sim_run_from; [done|done|done|done| | |done].
  - rewrite <-Hl2. clear -Hty Hlen. rewrite <-(length_fmap snd (params lb)) in Hlen. revert args Hlen.
    induction Hty as [|[id v] lt seeds lts Ht _ IH]; intros [|z args] Hlen; simplify_eq/=; constructor; auto.
    exists lt. split; [done|]. by intros _.
  - split; simpl; try done. intros ss x Hx. destruct (proj1 (Hs1 ss)) as [Hsome|Hin]; [by rewrite Hx| |by apply elem_of_nil in Hin].
    rewrite (lw_slots _ _ _ Hlow), lookup_empty in Hsome. by destruct Hsome.
Qed.
End given.
End function.
