(* ===== verification/LoweringSsa.v ===== *)
(** * What a lowered function promises

    The SSA form of lowered functions, that they cannot loop, and the theorems
    about [lower_function] with the functions that show their hypotheses hold;
    then the inputs the lowering gets wrong. *)

From S2P Require Import Prelude Core Ir LoweredIr Lowering LoweringSem LoweringFacts LoweringCorrect.

Import LoweredIr Builder Families Driver DispatchFacts BuilderFacts SimulationFacts.

(** ** Scopes *)

(** Operands are defined, results are new. *)
Fixpoint scoped (D : list Z) (l : list LoweredOp) : Prop :=
  match l with
  | [] => True
  | o :: l =>
      Forall (fun x => x ∈ D) (op_operands o) /\
      match op_result o with Some r => r ∉ D /\ scoped (r :: D) l | None => scoped D l end
  end.

Definition after (D : list Z) (l : list LoweredOp) : list Z := rev (omap op_result l) ++ D.

Lemma after_app D l l' : after D (l ++ l') = after (after D l) l'.
Proof. unfold after. by rewrite omap_app, rev_app_distr, app_assoc. Qed.

Lemma after_cons D o l : after D (o :: l) = after (after D [o]) l.
Proof. apply (after_app D [o] l). Qed.

Lemma scoped_app D l l' : scoped D l -> scoped (after D l) l' -> scoped D (l ++ l').
Proof.
  revert D. induction l as [|o l IH]; intros D; simpl; [done|]. rewrite after_cons. unfold after at 2. simpl.
  intros [Ho Hl] Hl'. split; [done|]. destruct (op_result o); simpl in *; [|by apply IH].
  destruct Hl as [? Hl]. split; [done|]. by apply IH.
Qed.

Lemma scoped_app_inv D l l' : scoped D (l ++ l') -> scoped D l /\ scoped (after D l) l'.
Proof.
  revert D. induction l as [|o l IH]; intros D; simpl; [done|]. rewrite after_cons. unfold after at 2. simpl.
  intros [Ho Hl]. destruct (op_result o); simpl in *; [destruct Hl as [? Hl]|]; apply IH in Hl as [? ?]; auto.
Qed.

(** [D] has every number the builder knows, and no later one. *)
Record scope (b : LoweringBuilder) (D : list Z) : Prop := {
  sc_vals : forall v x, value_map b !! v = Some x -> x ∈ D;
  sc_slots : forall ss x, stack_slot_map b !! ss = Some x -> x ∈ D;
  sc_next : forall x, x ∈ D -> x < next_value_id b;
}.

Lemma scope_numbered r x b D : scope b D -> next_value_id b <= x -> x ∉ D /\ scope (numbered r x b) (x :: D).
Proof.
  intros [Hv Hs Hn] Hx. split; [intros Hin%Hn; lia|]. split; simpl.
  - intros v y. rewrite lookup_insert_Some, elem_of_cons. intros [[_ ->]|[_ ?]]; eauto.
  - intros ss y ?. rewrite elem_of_cons. eauto.
  - intros y [->|Hy%Hn]%elem_of_cons; lia.
Qed.

(** The new operation [o] numbered its result [x]. *)
Lemma scoped_one b o r x D :
  scope b D -> op_result o = Some x -> next_value_id b <= x -> Forall (fun x => x ∈ D) (op_operands o) ->
  scoped D [o] /\ scope (numbered r x b) (after D [o]).
Proof.
  intros Hs Ho Hx Hops. unfold after. simpl. rewrite Ho. simpl. destruct (scope_numbered r x b D Hs Hx). auto.
Qed.

Lemma operands_in b i o D : scope b D -> operands_mapped b i o -> Forall (fun x => x ∈ D) (op_operands o).
Proof. intros Hs Ho. eapply Forall_impl; [exact Ho|]. intros x (v & _ & Hv). by eapply sc_vals. Qed.

Lemma scoped_alloca f ss t b p emitted b' D :
  ensure_stack_alloca f ss t b = (Ok (p, emitted), b') -> scope b D ->
  scoped D emitted /\ scope b' (after D emitted) /\ p ∈ after D emitted.
Proof.
  intros [(Hs & -> & ->)|(Hs & -> & _ & n & Hn & -> & ->)]%alloca_cases Hsc.
  { split_and!; [done..|]. by eapply sc_slots. }
  unfold after. simpl. destruct Hsc as [Hv Hsl Hnx]. split_and!; [by constructor|intros Hin%Hnx; lia|done| |by left].
  split; simpl.
  - intros v y ?. rewrite elem_of_cons. eauto.
  - intros s y. rewrite lookup_insert_Some, elem_of_cons. intros [[_ ->]|[_ ?]]; eauto.
  - intros y [->|Hy%Hnx]%elem_of_cons; lia.
Qed.

(** ** Terminators *)
Definition op_targets (o : LoweredOp) : list Z :=
  match o with
  | Br t _ => [t]
  | CondBr _ t _ e _ => [t; e]
  | Switch _ d cases => d :: cases.*2
  | _ => []
  end.

Lemma args_mapped b args xs :
  map_block_call_args b args = Some xs -> Forall (fun x => exists v, v ∈ args /\ value_map b !! v = Some x) xs.
Proof.
  intros H%mapM_Some. apply Forall_forall. intros x [k Hk]%list_elem_of_lookup.
  destruct (Forall2_lookup_r _ _ _ _ _ H Hk) as (v & Hv & ?). exists v. split; [by eapply list_elem_of_lookup_2|done].
Qed.

Lemma args_uses b i args xs :
  map_block_call_args b args = Some xs -> args ⊆ inst_uses i ->
  Forall (fun x => exists v, v ∈ inst_uses i /\ value_map b !! v = Some x) xs.
Proof. intros H%args_mapped Hsub. eapply Forall_impl; [exact H|]. intros x (v & ? & ?). eauto. Qed.

Lemma switch_targets b k cs cases x :
  switch_cases b k cs = Some cases -> x ∈ cases.*2 -> exists c, c ∈ cs /\ block_map b !! Clif.bc_block c = Some x.
Proof.
  revert k cases. induction cs as [|c cs IH]; intros k cases H Hx; simplify_eq/=; [by apply elem_of_nil in Hx|].
  destruct (negb _); [done|]. apply bind_Some in H as (y & Hy & (rest & Hrest & [= <-])%bind_Some). simpl in Hx.
  apply elem_of_cons in Hx as [->|Hx]; [exists c; split; [by left|done]|].
  destruct (IH _ _ Hrest Hx) as (c' & ? & ?). exists c'. split; [by right|done].
Qed.

(** What the control-flow family makes. *)
Record cf_op (b : LoweringBuilder) (i : Clif.Inst) (o : LoweredOp) : Prop := {
  co_term : is_terminator o = true;
  co_operands : operands_mapped b i o;
  co_targets : forall x, x ∈ op_targets o ->
    exists c, c ∈ Clif.branch_destination (Clif.data i) /\ block_map b !! Clif.bc_block c = Some x;
  co_inst : is_term i = true;
}.

Ltac cf_args :=
  eapply args_uses; [done|unfold inst_uses;
    repeat match goal with H : Clif.data _ = _ |- _ => rewrite H end; simpl; set_solver].

Lemma cf_spec b i o : lower_cf_inst b i = Some o -> cf_op b i o.
Proof.
  unfold lower_cf_inst. intros H. destruct (Clif.data i) as [| | | | | | |c|v t e|v d cs|[] args|] eqn:Hd; try done.
  - apply bind_Some in H as (x & Hx & (xs & Hxs & [= <-])%bind_Some).
    split; rewrite ?Hd; unfold is_term; rewrite ?Hd; try done; [cf_args|]. simpl. set_solver.
  - apply bind_Some in H as (xv & Hxv & (x & Hx & (y & Hy & (xs & Hxs & (ys & Hys & [= <-])%bind_Some)%bind_Some)%bind_Some)%bind_Some).
    split; rewrite ?Hd; unfold is_term; rewrite ?Hd; try done.
    + constructor; [exists v; unfold inst_uses; rewrite Hd; simpl; split; [set_solver|done]|]. apply Forall_app. split; cf_args.
    + simpl. intros z. rewrite !elem_of_cons. intros [->|[->|[]%elem_of_nil]]; [exists t|exists e]; split; [by left|done|by right; left|done].
  - apply bind_Some in H as (xv & Hxv & (x & Hx & (cases & Hcases & H)%bind_Some)%bind_Some).
    destruct (negb _); simplify_eq. split; rewrite ?Hd; unfold is_term; rewrite ?Hd; try done.
    + constructor; [exists v; unfold inst_uses; rewrite Hd; simpl; split; [set_solver|done]|constructor].
    + simpl. intros z [->|Hz]%elem_of_cons; [exists d; split; [by left|done]|].
      destruct (switch_targets _ _ _ _ _ Hcases Hz) as (c & ? & ?). exists c. split; [by right|done].
  - apply bind_Some in H as (xs & Hxs & [= <-]).
    split; rewrite ?Hd; unfold is_term; rewrite ?Hd; try done; [cf_args|]. simpl. set_solver.
Qed.

Lemma lowered_scoped f b i ops b' D :
  lowered f b i ops b' -> scope b D -> scoped D ops /\ scope b' (after D ops).
Proof.
  intros [o r x Hp|arg off r t base Hd Hres Ht Ha|v bv off t x base Hd Ht Hx Hb|ss off r t p emitted b1 Hd Hres Ht Ha
    |v ss off t x p emitted b1 Hd Ht Hx Ha|o Hcf] Hs.
  - destruct Hp as [_ _ Hres Hn Hops _]. apply scoped_one; [done|done|lia|by eapply operands_in].
  - apply scoped_one; [done|done|lia|]. constructor; [by eapply sc_vals|constructor].
  - split; [|done]. split; [|done]. constructor; [by eapply sc_vals|]. constructor; [by eapply sc_vals|constructor].
  - pose proof (scoped_alloca _ _ _ _ _ _ _ _ Ha Hs) as (He & Hs1 & Hp). rewrite after_app.
    destruct (scoped_one b1 (Load t p off (next_value_id b1)) r (next_value_id b1) (after D emitted)) as [Hl Hs2];
      [done|done|lia|by constructor|]. split; [by apply scoped_app|done].
  - pose proof (scoped_alloca _ _ _ _ _ _ _ _ Ha Hs) as (He & Hs1 & Hp). rewrite after_app. unfold after at 1. simpl.
    split; [|done]. apply scoped_app; [done|]. split; [|done]. constructor; [|by constructor].
    eapply (sc_vals b1); [done|]. apply alloca_cases in Ha as [(_ & _ & ->)|(_ & _ & _ & n & _ & _ & ->)]; done.
  - apply cf_spec in Hcf as [Ht Hops _ _]. assert (op_result o = None) as Hr by by destruct o.
    unfold after. simpl. rewrite Hr. split; [|done]. split; [by eapply operands_in|done].
Qed.

Lemma result_not_terminator o x : op_result o = Some x -> is_terminator o = false.
Proof. by destruct o. Qed.

Lemma alloca_not_terminators f ss t b p emitted b' :
  ensure_stack_alloca f ss t b = (Ok (p, emitted), b') -> Forall (fun o => is_terminator o = false) emitted.
Proof. intros [(_ & -> & _)|(_ & _ & _ & n & _ & -> & _)]%alloca_cases; by repeat constructor. Qed.

(** Terminators come from terminators, alone. *)
Lemma lowered_terminators f b i ops b' :
  lowered f b i ops b' ->
  if is_term i then exists o, ops = [o] /\ cf_op b i o else Forall (fun o => is_terminator o = false) ops.
Proof.
  intros [o r x Hp|arg off r t base Hd Hres Ht Ha|v bv off t x base Hd Ht Hx Hb|ss off r t p emitted b1 Hd Hres Ht Ha
    |v ss off t x p emitted b1 Hd Ht Hx Ha|o Hcf].
  - destruct Hp as [Hfree _ Hres _ _ _].
    assert (is_term i = false) as -> by (unfold is_term; by destruct (Clif.data i) as [| | | | | | | | | |[]|]).
    repeat constructor. by eapply result_not_terminator.
  - unfold is_term. rewrite Hd. by repeat constructor.
  - unfold is_term. rewrite Hd. by repeat constructor.
  - unfold is_term. rewrite Hd. apply Forall_app. split; [by eapply alloca_not_terminators|by repeat constructor].
  - unfold is_term. rewrite Hd. apply Forall_app. split; [by eapply alloca_not_terminators|by repeat constructor].
  - apply cf_spec in Hcf. rewrite (co_inst _ _ _ Hcf). eauto.
Qed.

Lemma lowered_block_map f b i ops b' : lowered f b i ops b' -> block_map b' = block_map b.
Proof.
  assert (forall ss t p emitted b', ensure_stack_alloca f ss t b = (Ok (p, emitted), b') -> block_map b' = block_map b) as Ha.
  { intros ss t p emitted b1 [(_ & _ & ->)|(_ & _ & _ & n & _ & _ & ->)]%alloca_cases; done. }
  intros []; simpl; eauto.
Qed.

(** The operations of a block: one terminator, at the end, that targets what
    the source's terminator targets. *)
Lemma insts_lowered f k idx l b ops b' D :
  lower_insts f k idx l b = (Ok ops, b') -> Forall inst_ok l -> ends_in_term l = true -> scope b D ->
  (scoped D ops /\ scope b' (after D ops)) /\
  exists body o i, ops = body ++ [o] /\ Forall (fun o => is_terminator o = false) body /\ is_terminator o = true /\ i ∈ l /\
    forall x, x ∈ op_targets o ->
      exists c, c ∈ Clif.branch_destination (Clif.data i) /\ block_map b !! Clif.bc_block c = Some x.
Proof.
  revert idx b ops D. induction l as [|i l IH]; intros idx b ops D H Hok Ht Hs; [done|].
  apply lower_insts_cons in H as (ops1 & b1 & ops2 & Hd & Hl & ->). apply Forall_cons in Hok as [[Hc Hr _] Hok].
  apply dispatch_spec in Hd; [|done..]. destruct (lowered_scoped _ _ _ _ _ _ Hd Hs) as [Hsc1 Hs1].
  pose proof (lowered_terminators _ _ _ _ _ Hd) as Hterm. destruct (is_term i) eqn:Hti.
  - destruct l as [|i' l]; [|by simpl in Ht; rewrite Hti in Ht]. unfold lower_insts, mret, stM_ret in Hl. simplify_eq.
    rewrite app_nil_r. split; [done|]. destruct Hterm as (o & -> & []).
    exists [], o, i. split_and!; [done|constructor|done|by left|done].
  - assert (ends_in_term l = true) as Ht' by (destruct l; simpl in Ht; rewrite Hti in Ht; done).
    destruct (IH _ _ _ _ Hl Hok Ht' Hs1) as ([Hsc2 Hs2] & body & o & j & -> & Hb & Ho & Hj & Htgt).
    rewrite (lowered_block_map _ _ _ _ _ Hd) in Htgt. rewrite after_app. split; [split; [by apply scoped_app|done]|].
    exists (ops1 ++ body), o, j. split_and!; [by rewrite app_assoc|by apply Forall_app|done|by right|done].
Qed.

(** ** Lowered functions *)

(** Every block ends in its only terminator and branches only to later blocks. *)
Definition forward_block (n j : nat) (lb : LoweredBlock) : Prop :=
  exists body o, ops lb = body ++ [o] /\ Forall (fun o => is_terminator o = false) body /\ is_terminator o = true /\
    Forall (fun t => Z.of_nat j < t < Z.of_nat n) (op_targets o).

(** The numbering of SSA form: blocks are numbered in order, parameters and
    results once, an operand before its use in layout order. *)
Record ssa_form (lf : LoweredFunction) : Prop := {
  ssa_blocks : LoweredIr.id <$> blocks lf = seqZ 0 (Z.of_nat (length (blocks lf)));
  ssa_entry : entry lf = 0;
  ssa_params : NoDup (blocks lf ≫= fun lb => (params lb).*1);
  ssa_scoped : scoped (blocks lf ≫= fun lb => (params lb).*1) (blocks lf ≫= ops);
  ssa_forward : forall j lb, blocks lf !! j = Some lb -> forward_block (length (blocks lf)) j lb;
}.

(** *** Forward branches end *)
Section forward.
Context (lf : LoweredFunction).
Context (Hids : forall j lb, blocks lf !! j = Some lb -> LoweredIr.id lb = Z.of_nat j).
Context (Hfwd : forall j lb, blocks lf !! j = Some lb -> forward_block (length (blocks lf)) j lb).

Lemma exec_targets o ts t vs ts' : LoweredSem.exec_op o ts = Some (Goto t vs ts') -> t ∈ op_targets o.
Proof.
  destruct o; simpl; unfold LoweredSem.int_binary, LoweredSem.vec_binary, LoweredSem.next_int, LoweredSem.goto;
    intros H; repeat first [progress simplify_eq/= | apply bind_Some in H as (? & ? & H) | case_match]; try (by repeat constructor).
  apply elem_of_cons. right. match goal with H : List.find _ _ = Some _ |- _ => apply List.find_some in H as [Hin _] end.
  apply list_elem_of_fmap. eexists (_, _). split; [done|]. by apply list_elem_of_In.
Qed.

Lemma exec_body l o ts t vs ts' :
  Forall (fun o => is_terminator o = false) l -> exec_list LoweredSem.exec_op (l ++ [o]) ts = Some (Goto t vs ts') -> t ∈ op_targets o.
Proof.
  intros Hl. revert ts. induction Hl as [|o' l Ho' _ IH]; intros ts H; simpl in H.
  - destruct (LoweredSem.exec_op o ts) as [[]|] eqn:He; simplify_eq. by eapply exec_targets.
  - destruct (LoweredSem.exec_op o' ts) as [[]|] eqn:He; simplify_eq; [by eapply IH|].
    apply exec_targets in He. destruct o'; try done; by apply elem_of_nil in He.
Qed.

Lemma found_at b lb : block lf b = Some lb -> exists j, blocks lf !! j = Some lb /\ b = Z.of_nat j.
Proof.
  intros [[j Hj]%list_elem_of_In%list_elem_of_lookup Heq]%List.find_some. exists j. split; [done|]. apply Hids in Hj. lia.
Qed.

(** A run that starts at block [b] visits each later block at most once. *)
Lemma forward_terminates n b vs ts :
  Z.of_nat (length (blocks lf)) - b <= Z.of_nat (S n) -> LoweredSem.run_from (S n) lf b vs ts <> OutOfFuel.
Proof.
  revert b vs ts. induction n as [|n IH]; intros b vs ts Hn; cbn [LoweredSem.run_from];
    (destruct (block lf b) as [lb|] eqn:Hb; [|done]); apply found_at in Hb as (j & Hj & ->);
    (destruct (bind_params _ _ _) as [te|]; [|done]);
    (destruct (exec_list _ _ _) as [[|t vs' ts'|vs' ts']|] eqn:He; try done; [|by case_match]);
    destruct (Hfwd _ _ Hj) as (body & o & Hops & Hbody & _ & Ht); rewrite Hops in He; apply exec_body in He; try done;
    rewrite Forall_forall in Ht; apply Ht in He; [lia|]. apply IH. lia.
Qed.

Lemma forward_run n args m : (length (blocks lf) <= n)%nat -> LoweredSem.run n lf args m <> OutOfFuel.
Proof.
  intros Hn. unfold LoweredSem.run. destruct (block lf (entry lf)) as [lb|] eqn:Hb; [|done]. case_bool_decide; [|done].
  apply found_at in Hb as (j & Hj%lookup_lt_Some & ->). destruct n as [|n]; [lia|]. apply forward_terminates. lia.
Qed.
End forward.

Lemma binv_scope b : binv b -> scope b (seqZ 0 (next_value_id b)).
Proof. intros []. split; intros; rewrite ?elem_of_seqZ in *; [apply bi_vals0 in H|apply bi_slots0 in H|]; lia. Qed.

(** *** From the lowering *)
Section lowered_function.
Context (f : Clif.Function_) (lf : LoweredFunction) (Hwf : well_formed f).
Context (seeded : gmap Z (list (Z * Z))) (b0 bF : LoweringBuilder) (Hlow : lowering f lf seeded b0 bF).

Lemma lowered_forward j lb : blocks lf !! j = Some lb -> forward_block (length (blocks lf)) j lb.
Proof.
  intros Hlb. destruct (lowering_blocks f lf Hwf seeded b0 bF Hlow) as (_ & _ & Hlen & _ & Hat).
  apply lookup_lt_Some in Hlb as Hj. rewrite Hlen in Hj. apply lookup_lt_is_Some in Hj as [cb Hcb].
  destruct (Hat _ _ Hcb) as (lb' & b1 & b2 & [Hlb' [_ _ Hins] Hinv _ _ Hbef _ _ _ _]). simplify_eq.
  pose proof (accepted_insts f Hwf (lw_accepted _ _ _ _ _ Hlow)) as Hok. rewrite Forall_forall in Hok.
  apply list_elem_of_lookup_2 in Hcb as Hin.
  destruct (insts_lowered f _ _ _ _ _ _ _ Hins (Hok _ Hin) (wf_term f Hwf _ Hin) (binv_scope _ Hinv))
    as (_ & body & o & i & Hops & Hbody & Ho & Hi & Ht).
  exists body, o. split_and!; [done..|]. apply Forall_forall. intros x (c & Hc & Hx)%Ht.
  rewrite (ex_blocks _ _ Hbef) in Hx. destruct (lw_only _ _ _ _ _ Hlow _ _ Hx) as (j' & cb' & Hj' & Hid').
  rewrite <-Hid', (lw_ids _ _ _ _ _ Hlow _ _ Hj') in Hx. simplify_eq.
  destruct (check_function_None f (wf_blocks f Hwf) j cb i (lw_accepted _ _ _ _ _ Hlow) Hcb Hi) as [_ Hfwd].
  apply lookup_lt_Some in Hj' as Hlt. rewrite Hlen. specialize (Hfwd _ _ _ Hc Hj' Hid'). lia.
Qed.

Lemma blocks_scoped b bs lbs b' D :
  blocks_lowered f seeded b bs lbs b' -> Forall (fun cb => Forall inst_ok (Clif.insts cb)) bs ->
  Forall (fun cb => ends_in_term (Clif.insts cb) = true) bs -> scope b D -> scoped D (lbs ≫= ops).
Proof.
  intros H. revert D. induction H as [b|b b1 b' cb bs lb lbs [_ _ Hins] _ IH]; intros D Hok Ht Hs; [done|].
  apply Forall_cons in Hok as [Hok Hoks]. apply Forall_cons in Ht as [Ht Hts].
  destruct (insts_lowered f _ _ _ _ _ _ _ Hins Hok Ht Hs) as ([Hsc Hs1] & _). simpl. apply scoped_app; eauto.
Qed.

Lemma Forall2_elem_r {A B} (P : A -> B -> Prop) l k y : Forall2 P l k -> y ∈ k -> exists x, x ∈ l /\ P x y.
Proof.
  intros H [j Hj]%list_elem_of_lookup. destruct (Forall2_lookup_r _ _ _ _ _ H Hj) as (x & ? & ?).
  exists x. split; [by eapply list_elem_of_lookup_2|done].
Qed.

Lemma Forall2_elem_l {A B} (P : A -> B -> Prop) l k x : Forall2 P l k -> x ∈ l -> exists y, y ∈ k /\ P x y.
Proof. intros H%Forall2_flip Hx. by apply (Forall2_elem_r _ _ _ _ H). Qed.

(** The parameters' numbers, in order. *)
Lemma params_numbered b bs lbs b' :
  blocks_lowered f seeded b bs lbs b' -> (forall cb, cb ∈ bs -> cb ∈ Clif.layout f) ->
  Forall2 (fun p x => value_map b0 !! p = Some x) (bs ≫= Clif.block_params) (lbs ≫= fun lb => (params lb).*1).
Proof.
  induction 1 as [b|b b1 b' cb bs lb lbs [_ (seeds & Hseed & Hps & _) _] _ IH]; intros Hin; [constructor|].
  destruct (lw_seeds _ _ _ _ _ Hlow cb) as (l & Hl & Hl2 & Hn); [apply Hin; by left|]. simplify_eq. simpl.
  apply Forall2_app; [|apply IH; intros; apply Hin; by right]. rewrite Hps. by apply Forall2_numbers.
Qed.

Lemma NoDup_renamed ps ids :
  binv b0 -> Forall2 (fun p x => value_map b0 !! p = Some x) ps ids -> NoDup ps -> NoDup ids.
Proof.
  intros Hb H. induction H as [|p x ps ids Hp Hps IH]; [done|]. intros [Hnin Hnd]%NoDup_cons. constructor; [|auto].
  intros Hx. eapply Forall2_elem_r in Hx as (p' & Hin & Hp'); [|done]. apply Hnin.
  by rewrite (bi_inj _ Hb _ _ _ Hp Hp').
Qed.

Lemma lowered_ssa : ssa_form lf.
Proof.
  pose proof (lowering_blocks f lf Hwf seeded b0 bF Hlow) as (_ & _ & Hlen & _ & _).
  pose proof (params_numbered _ _ _ _ (lw_blocks _ _ _ _ _ Hlow) (fun _ H => H)) as Hps.
  split.
  - apply list_eq_same_length with (length (blocks lf)); [rewrite length_seqZ; lia|by rewrite length_fmap|].
    intros j x y Hj. rewrite list_lookup_fmap, lookup_seqZ. intros (lb & Hlb & ->)%fmap_Some [-> _].
    erewrite block_numbered; done.
  - apply Hlow.
  - eapply NoDup_renamed; [apply Hlow|exact Hps|]. by pose proof (wf_values f Hwf) as [? _]%NoDup_app.
  - eapply blocks_scoped; [apply Hlow|apply accepted_insts; [done|apply Hlow]| |].
    + apply Forall_forall. apply Hwf.
    + split.
      * intros v x Hx. assert (v ∈ Clif.layout f ≫= Clif.block_params) as Hv by (apply (lw_params _ _ _ _ _ Hlow); by rewrite Hx).
        eapply Forall2_elem_l in Hv as (x' & Hin & Hx'); [|exact Hps]. assert (x' = x) as -> by congruence. done.
      * intros ss x. by rewrite (lw_slots _ _ _ _ _ Hlow), lookup_empty.
      * intros x Hx. eapply Forall2_elem_r in Hx as (v & _ & Hv); [|exact Hps].
        by apply (bi_vals _ (lw_inv _ _ _ _ _ Hlow)) in Hv as [_ ?].
  - apply lowered_forward.
Qed.
End lowered_function.

(** ** Dominance

    A block as its parameters and, for each operation, what it reads and what it
    defines; a path from the entry along the branches.  Values are defined
    before their use when on every path each value an operation reads is a
    parameter of a block on the path or was defined earlier on the path. *)
Abbreviation view := (list Z * list (list Z * list Z))%type.

Fixpoint code_defined (D : list Z) (code : list (list Z * list Z)) : Prop :=
  match code with
  | [] => True
  | (us, ds) :: code => us ⊆ D /\ code_defined (ds ++ D) code
  end.

Definition defs (code : list (list Z * list Z)) : list Z := concat (rev code.*2).

Fixpoint path_defined (D : list Z) (p : list view) : Prop :=
  match p with
  | [] => True
  | (ps, code) :: p => code_defined (ps ++ D) code /\ path_defined (defs code ++ ps ++ D) p
  end.

Inductive path {B} (succ : B -> B -> Prop) : B -> list B -> Prop :=
| path_end b : path succ b [b]
| path_step b b' p : succ b b' -> path succ b' p -> path succ b (b :: p).

Definition clif_view (cb : Clif.Block) : view :=
  (Clif.block_params cb, (fun i => (inst_uses i, Clif.results i)) <$> Clif.insts cb).
Definition clif_succ (f : Clif.Function_) (cb cb' : Clif.Block) : Prop :=
  cb' ∈ Clif.layout f /\ exists i c, i ∈ Clif.insts cb /\ c ∈ Clif.branch_destination (Clif.data i) /\
    Clif.block_id cb' = Clif.bc_block c.
Definition clif_dominance (f : Clif.Function_) : Prop :=
  forall cb p, head (Clif.layout f) = Some cb -> path (clif_succ f) cb p -> path_defined [] (clif_view <$> p).

Definition lowered_view (lb : LoweredBlock) : view :=
  ((params lb).*1, (fun o => (op_operands o, option_list (op_result o))) <$> ops lb).
Definition lowered_succ (lf : LoweredFunction) (lb lb' : LoweredBlock) : Prop :=
  lb' ∈ blocks lf /\ exists o, o ∈ ops lb /\ LoweredIr.id lb' ∈ op_targets o.
Definition lowered_dominance (lf : LoweredFunction) : Prop :=
  forall lb p, block lf (entry lf) = Some lb -> path (lowered_succ lf) lb p -> path_defined [] (lowered_view <$> p).

Lemma code_defined_app D l l' : code_defined D (l ++ l') <-> code_defined D l /\ code_defined (defs l ++ D) l'.
Proof.
  revert D. induction l as [|[us ds] l IH]; intros D; cbn; [tauto|]. rewrite IH. unfold defs. cbn.
  rewrite concat_app. cbn. rewrite app_nil_r, <-app_assoc. tauto.
Qed.

Lemma defs_app l l' : defs (l ++ l') = defs l' ++ defs l.
Proof. unfold defs. by rewrite fmap_app, rev_app_distr, concat_app. Qed.

Definition op_code (l : list LoweredOp) : list (list Z * list Z) :=
  (fun o => (op_operands o, option_list (op_result o))) <$> l.
Definition inst_code (l : list Clif.Inst) : list (list Z * list Z) := (fun i => (inst_uses i, Clif.results i)) <$> l.

(** The numbers of the values of [Dc], and of the slots the builder has
    allocated, are in [D]; [bF] numbers everything. *)
Record covers (bF b : LoweringBuilder) (Dc D : list Z) : Prop := {
  cv_vals : forall v x, v ∈ Dc -> value_map bF !! v = Some x -> x ∈ D;
  cv_slots : forall ss x, stack_slot_map b !! ss = Some x -> x ∈ D;
}.

Lemma covers_operands bF b b' i o Dc D :
  covers bF b Dc D -> operands_mapped b' i o -> value_map b' ⊆ value_map bF -> inst_uses i ⊆ Dc -> op_operands o ⊆ D.
Proof.
  intros [Hv _] Ho Hsub Hu x Hx. unfold operands_mapped in Ho. rewrite Forall_forall in Ho. apply Ho in Hx as (v & Hin & Hvx).
  eapply Hv; [by apply Hu|by eapply lookup_weaken].
Qed.

(** A value that [i] reads, and its number. *)
Lemma covers_use bF b b' i v x Dc D :
  covers bF b Dc D -> value_map b' ⊆ value_map bF -> inst_uses i ⊆ Dc -> v ∈ inst_uses i -> value_map b' !! v = Some x -> x ∈ D.
Proof. intros [Hv _] Hsub Hu Hin Hx. eapply Hv; [by apply Hu|by eapply lookup_weaken]. Qed.

(** A result that was numbered. *)
Lemma covers_result bF b b' r x Dc D :
  covers bF b Dc D -> value_map bF !! r = Some x -> stack_slot_map b' = stack_slot_map b -> covers bF b' (r :: Dc) (x :: D).
Proof.
  intros [Hv Hs] Hr Hsl. split.
  - intros v y [->|Hin]%elem_of_cons Hy; [simplify_eq; by left|right; eauto].
  - intros ss y. rewrite Hsl. right. eauto.
Qed.

Lemma covers_alloca f ss t bF b p emitted b' Dc D :
  ensure_stack_alloca f ss t b = (Ok (p, emitted), b') -> covers bF b Dc D ->
  code_defined D (op_code emitted) /\ covers bF b' Dc (defs (op_code emitted) ++ D) /\ p ∈ defs (op_code emitted) ++ D.
Proof.
  intros [(Hs & -> & ->)|(_ & -> & _ & n & _ & -> & ->)]%alloca_cases Hc; [split_and!; [done..|by eapply cv_slots]|].
  destruct Hc as [Hv Hs]. cbn. split_and!; [set_solver|done| |by left]. split; cbn.
  - intros v x Hin Hx. right. eauto.
  - intros ss' x [[<- <-]|[_ ?]]%lookup_insert_Some; [by left|right; eauto].
Qed.

Lemma lowered_covers f bF b i ops b' Dc D :
  lowered f b i ops b' -> results_ok i -> extends b b' -> extends b' bF -> covers bF b Dc D -> inst_uses i ⊆ Dc ->
  code_defined D (op_code ops) /\ covers bF b' (Clif.results i ++ Dc) (defs (op_code ops) ++ D).
Proof.
  intros Hl Hres Hbb' Hb'F Hc Hu. assert (value_map b ⊆ value_map bF) as Hsub by (etrans; [apply Hbb'|apply Hb'F]).
  assert (forall r x, value_map b' !! r = Some x -> value_map bF !! r = Some x) as Hnew
    by (intros r x ?; eapply lookup_weaken; [done|apply Hb'F]).
  destruct Hl as [o r x Hp|arg off r t base Hd Hr Ht Ha _|v bv off t x base Hd Ht Hx Hb|ss off r t p emitted b1 Hd Hr Ht Ha _
    |v ss off t x p emitted b1 Hd Ht Hx Ha|o Hcf].
  - destruct Hp as [Hfree Hfirst Ho _ Hops _]. unfold op_code. cbn. rewrite Ho. cbn.
    assert (Clif.results i = [r]) as ->.
    { assert (exists r', Clif.results i = [r']) as [r' Hr]
        by (unfold results_ok in Hres; by destruct (Clif.data i) as [| | |[]|[]|[]|[]| | | |[]|]).
      rewrite Hr in *. by simplify_eq/=. }
    split; [split; [by eapply covers_operands|done]|]. apply (covers_result _ b); [done|apply Hnew; cbn; by rewrite lookup_insert_eq|done].
  - rewrite Hr. cbn. split; [split; [|done]|].
    + intros y ->%list_elem_of_singleton. eapply covers_use; [done..| |done]. unfold inst_uses. rewrite Hd. by left.
    + apply (covers_result _ b); [done|apply Hnew; cbn; by rewrite lookup_insert_eq|done].
  - assert (Clif.results i = []) as -> by (unfold results_ok in Hres; by rewrite Hd in Hres). cbn. split; [|done]. split; [|done].
    intros y [-> | ->%list_elem_of_singleton]%elem_of_cons; (eapply covers_use; [done..| |done]); unfold inst_uses; rewrite Hd; set_solver.
  - rewrite Hr. destruct (covers_alloca _ _ _ _ _ _ _ _ _ _ Ha Hc) as (He & Hc1 & Hp). unfold op_code in *.
    rewrite fmap_app, code_defined_app, defs_app, <-app_assoc. cbn. split; [split; [done|split; [set_solver|done]]|].
    apply (covers_result _ b1); [done|apply Hnew; cbn; by rewrite lookup_insert_eq|done].
  - assert (Clif.results i = []) as -> by (unfold results_ok in Hres; by rewrite Hd in Hres).
    destruct (covers_alloca _ _ _ _ _ _ _ _ _ _ Ha Hc) as (He & Hc1 & Hp). unfold op_code in *.
    rewrite fmap_app, code_defined_app, defs_app, <-app_assoc. cbn. split; [|done]. split; [done|]. split; [|done].
    assert (x ∈ D) as Hin by (eapply covers_use; [done..| |done]; unfold inst_uses; rewrite Hd; set_solver). set_solver.
  - apply cf_spec in Hcf as [Hterm Hops _ Hit]. assert (op_result o = None) as Ho by by destruct o.
    assert (Clif.results i = []) as ->.
    { unfold results_ok, is_term in *. by destruct (Clif.data i) as [| | | | | | | | | |[]|]. }
    unfold op_code. cbn. rewrite Ho. split; [split; [by eapply covers_operands|done]|done].
Qed.

Lemma insts_covers f bF k idx l b ops b' Dc D :
  lower_insts f k idx l b = (Ok ops, b') -> Forall inst_ok l -> binv b -> NoDup (results_of l) ->
  (forall r, r ∈ results_of l -> value_map b !! r = None) -> extends b' bF -> covers bF b Dc D ->
  code_defined Dc (inst_code l) ->
  code_defined D (op_code ops) /\ covers bF b' (defs (inst_code l) ++ Dc) (defs (op_code ops) ++ D).
Proof.
  revert idx b ops Dc D. induction l as [|i l IH]; intros idx b ops Dc D H Hok Hb Hnd Hfresh Hext Hc Hdef.
  { unfold lower_insts, mret, stM_ret in H. by simplify_eq. }
  apply lower_insts_cons in H as (ops1 & b1 & ops2 & Hd & Hl & ->). apply Forall_cons in Hok as [[Hcl Hr _] Hok].
  apply dispatch_spec in Hd; [|done..]. unfold results_of in Hnd, Hfresh. simpl in Hnd, Hfresh. apply NoDup_app in Hnd as (_ & Hdisj & Hnd).
  destruct (lowered_ok _ _ _ _ _ Hd Hb) as (Hb1 & He1 & Hv1 & _); [set_solver|].
  assert (forall r, r ∈ results_of l -> value_map b1 !! r = None) as Hfresh1.
  { intros r Hin. apply eq_None_not_Some. intros [?|?]%Hv1; [|set_solver].
    rewrite Hfresh in *; [by eapply is_Some_None|set_solver]. }
  destruct (lower_insts_ok _ _ _ _ _ _ _ Hl Hok Hb1 Hnd Hfresh1) as (_ & He2 & _).
  destruct Hdef as [Hu Hdef].
  destruct (lowered_covers _ bF _ _ _ _ Dc D Hd Hr He1 ltac:(by etrans) Hc Hu) as [Hd1 Hc1].
  destruct (IH _ _ _ _ _ Hl Hok Hb1 Hnd Hfresh1 Hext Hc1 Hdef) as [Hd2 Hc2].
  unfold op_code in *. rewrite fmap_app, code_defined_app, defs_app, <-app_assoc. split; [done|].
  change (inst_code (i :: l)) with ([(inst_uses i, Clif.results i)] ++ inst_code l). rewrite defs_app, <-app_assoc.
  unfold defs at 2. cbn. by rewrite app_nil_r.
Qed.

Section dominance.
Context (f : Clif.Function_) (lf : LoweredFunction) (Hwf : well_formed f).
Context (seeded : gmap Z (list (Z * Z))) (b0 bF : LoweringBuilder) (Hlow : lowering f lf seeded b0 bF).

(** A branch of the lowered function is one of the source. *)
Lemma lowered_succ_source j cb lb lb' :
  Clif.layout f !! j = Some cb -> blocks lf !! j = Some lb -> lowered_succ lf lb lb' ->
  exists j' cb', Clif.layout f !! j' = Some cb' /\ blocks lf !! j' = Some lb' /\ clif_succ f cb cb' /\ (j < j')%nat.
Proof.
  intros Hcb Hlb [[j' Hj']%list_elem_of_lookup (o' & Ho' & Htgt)].
  destruct (lowering_blocks f lf Hwf seeded b0 bF Hlow) as (_ & _ & Hlen & _ & Hat).
  destruct (Hat _ _ Hcb) as (lb1 & b1 & b2 & [Hlb1 [_ _ Hins] Hinv _ _ Hbef _ _ _ _]). simplify_eq.
  pose proof (accepted_insts f Hwf (lw_accepted _ _ _ _ _ Hlow)) as Hok. rewrite Forall_forall in Hok.
  apply list_elem_of_lookup_2 in Hcb as Hin.
  destruct (insts_lowered f _ _ _ _ _ _ _ Hins (Hok _ Hin) (wf_term f Hwf _ Hin) (binv_scope _ Hinv))
    as (_ & body & o & i & Hops & Hbody & _ & Hi & Ht).
  assert (o' = o) as ->.
  { rewrite Hops in Ho'. apply elem_of_app in Ho' as [Ho' | ->%list_elem_of_singleton]; [|done].
    rewrite Forall_forall in Hbody. apply Hbody in Ho'. destruct o'; try done; by apply elem_of_nil in Htgt. }
  destruct (Ht _ Htgt) as (c & Hc & Hx). rewrite (ex_blocks _ _ Hbef) in Hx.
  destruct (lw_only _ _ _ _ _ Hlow _ _ Hx) as (k & cb' & Hk & Hid). rewrite <-Hid, (lw_ids _ _ _ _ _ Hlow _ _ Hk) in Hx.
  apply (block_numbered f lf Hwf seeded b0 bF Hlow) in Hj' as Hnum. assert (k = j') as -> by (injection Hx; lia).
  exists j', cb'. split_and!; [done..| |].
  - split; [by eapply list_elem_of_lookup_2|]. exists i, c. by rewrite Hid.
  - destruct (check_function_None f (wf_blocks f Hwf) j cb i (lw_accepted _ _ _ _ _ Hlow) Hcb Hi) as [_ Hfwd].
    specialize (Hfwd _ _ _ Hc Hk Hid). lia.
Qed.

Lemma block_covers j cb lb b1 b2 Dc D :
  Clif.layout f !! j = Some cb -> at_block f seeded b0 bF (Clif.layout f) (blocks lf) j cb lb b1 b2 ->
  covers bF b1 Dc D -> code_defined (Clif.block_params cb ++ Dc) (inst_code (Clif.insts cb)) ->
  code_defined ((params lb).*1 ++ D) (op_code (ops lb)) /\
  covers bF b2 (defs (inst_code (Clif.insts cb)) ++ Clif.block_params cb ++ Dc) (defs (op_code (ops lb)) ++ (params lb).*1 ++ D).
Proof.
  intros Hcb [_ [_ (seeds & Hseed & Hps & _) Hins] Hinv Hfr Hnd Hbef _ Haft _ _] [Hv Hs] Hdef.
  apply list_elem_of_lookup_2 in Hcb as Hin. pose proof (accepted_insts f Hwf (lw_accepted _ _ _ _ _ Hlow)) as Hok.
  rewrite Forall_forall in Hok. eapply insts_covers; [exact Hins|by apply Hok|done..| |done].
  destruct (lw_seeds _ _ _ _ _ Hlow cb Hin) as (l & Hl & Hl2 & Hn). simplify_eq.
  split; [|intros ss x ?; apply elem_of_app; right; eauto].
  intros v x [Hp|?]%elem_of_app Hx; apply elem_of_app; [left|right; eauto].
  destruct (lowering_blocks f lf Hwf seeded b0 bF Hlow) as (_ & HeF & _).
  pose proof (Forall2_numbers bF seeds (Clif.block_params cb) (numbers_extends _ _ _ HeF Hn) Hl2) as HF.
  rewrite Hps. eapply Forall2_elem_l in Hp as (y & Hy & Hvy); [|exact HF]. assert (y = x) as -> by congruence. done.
Qed.

Lemma path_covers lb p :
  slots_in_entry f -> path (lowered_succ lf) lb p -> forall j cb b1 b2 Dc D,
  Clif.layout f !! j = Some cb -> at_block f seeded b0 bF (Clif.layout f) (blocks lf) j cb lb b1 b2 -> covers bF b1 Dc D ->
  (forall q, path (clif_succ f) cb q -> path_defined Dc (clif_view <$> q)) -> path_defined D (lowered_view <$> p).
Proof.
  intros Hslots Hp. induction Hp as [lb|lb lb' p Hsucc _ IH]; intros j cb b1 b2 Dc D Hcb Hat Hc Hq.
  - destruct (Hq [cb] ltac:(constructor)) as [Hdef _]. split; [|done]. by eapply block_covers.
  - destruct (lowered_succ_source _ _ _ _ Hcb (ab_block _ _ _ _ _ _ _ _ _ _ _ Hat) Hsucc) as (j' & cb' & Hcb' & Hlb' & Hcs & Hlt).
    destruct (lowering_blocks f lf Hwf seeded b0 bF Hlow) as (_ & _ & _ & _ & Hats).
    destruct (Hats _ _ Hcb') as (lb1 & b1' & b2' & Hat'). assert (lb1 = lb') as ->
      by (pose proof (ab_block _ _ _ _ _ _ _ _ _ _ _ Hat'); congruence).
    destruct (Hq [cb; cb']) as [Hdef _]; [apply (path_step _ _ cb'); [done|constructor]|].
    destruct (block_covers _ _ _ _ _ _ _ Hcb Hat Hc Hdef) as [Hd Hc2]. split; [exact Hd|].
    eapply (IH j' cb' b1' b2'); [done..| |].
    + destruct (slots_settled f lf Hwf seeded b0 bF Hlow _ _ _ _ _ Hslots Hat Hcb) as [Hs2 _].
      destruct (slots_settled f lf Hwf seeded b0 bF Hlow _ _ _ _ _ Hslots Hat' Hcb') as [_ Hs1].
      destruct Hc2 as [Hv Hs]. split; [exact Hv|]. rewrite Hs1, <-Hs2 by lia. exact Hs.
    + intros q Hpq. destruct (Hq (cb :: q)) as [_ Hrest]; [by econstructor|]. exact Hrest.
Qed.

Lemma lowering_dominance : slots_in_entry f -> clif_dominance f -> lowered_dominance lf.
Proof.
  intros Hslots Hdom lb p Hlb Hp. destruct (found_at lf (block_numbered f lf Hwf seeded b0 bF Hlow) _ _ Hlb) as (j & Hj & Hj0).
  rewrite (lw_entry _ _ _ _ _ Hlow) in Hj0. assert (j = 0%nat) as -> by lia.
  destruct (lowering_blocks f lf Hwf seeded b0 bF Hlow) as (_ & _ & Hlen & _ & Hats).
  apply lookup_lt_Some in Hj as Hlt. rewrite Hlen in Hlt. apply lookup_lt_is_Some in Hlt as [cb Hcb].
  destruct (Hats _ _ Hcb) as (lb1 & b1 & b2 & Hat). assert (lb1 = lb) as ->
    by (pose proof (ab_block _ _ _ _ _ _ _ _ _ _ _ Hat); congruence).
  eapply (path_covers lb p Hslots Hp 0 cb b1 b2 [] []); [done..| |].
  - split; [by intros v x ?%elem_of_nil|]. intros ss x Hx. exfalso.
    assert (is_Some (stack_slot_map b1 !! ss)) as [[? Hy]|Hy]%(ab_slots _ _ _ _ _ _ _ _ _ _ _ Hat) by by eexists.
    + by rewrite (lw_slots _ _ _ _ _ Hlow), lookup_empty in Hy.
    + by apply elem_of_nil in Hy.
  - intros q Hpq. apply (Hdom cb q); [|done]. by destruct (Clif.layout f).
Qed.
End dominance.

(** ** The theorems *)

(** The definition of [slots_in_entry] and [no_bitselect] is in [LoweringCorrect]:
    every stack slot is touched in the entry block, and no instruction selects
    bits.  Both are needed: see [sibling_slot_undefined] and [bitselect_differs]. *)

(** C1: lowering preserves behaviour.  When the lowering accepts a well-formed
    function that touches each of its stack slots in the entry block and has no
    [bitselect], whatever the Cranelift function returns and leaves in device
    memory, the lowered function returns and leaves too, in as many blocks. *)
Theorem lower_function_correct f lf n args m rs m' :
  well_formed f -> slots_in_entry f -> no_bitselect f -> lower_function f = Ok lf ->
  ClifSem.run n f args m = Returned rs m' -> LoweredSem.run n lf args m = Returned rs m'.
Proof.
  intros Hwf Hs Hb Hlow Hrun. destruct (lower_function_inv f lf Hwf Hlow) as (seeded & b0 & bF & H).
  by eapply (sim_run f lf Hwf seeded b0 bF H).
Qed.

(** C28: a lowered function is in SSA form.  Blocks are numbered from zero in
    layout order and the entry is the first, parameters and results are numbered
    once, and every block ends in its only terminator, which branches to later
    blocks of the function.  When in the source every value is defined before
    its use on every path from the entry, and each stack slot is touched in the
    entry block, then so it is in the lowered function: each operand is, on
    every path that reaches its use, a parameter of a block on the path or the
    result of an operation earlier on it. *)
Theorem lower_function_ssa f lf :
  well_formed f -> lower_function f = Ok lf ->
  ssa_form lf /\ (slots_in_entry f -> clif_dominance f -> lowered_dominance lf).
Proof.
  intros Hwf Hlow. destruct (lower_function_inv f lf Hwf Hlow) as (seeded & b0 & bF & H).
  split; [by eapply lowered_ssa|by eapply lowering_dominance].
Qed.

(** C29: a lowered function terminates on every input: as much fuel as it has
    blocks is always enough. *)
Theorem lower_function_terminates f lf n args m :
  well_formed f -> lower_function f = Ok lf -> (length (Clif.layout f) <= n)%nat ->
  LoweredSem.run n lf args m <> OutOfFuel.
Proof.
  intros Hwf Hlow Hn. destruct (lower_function_inv f lf Hwf Hlow) as (seeded & b0 & bF & H).
  destruct (lowering_blocks f lf Hwf seeded b0 bF H) as (_ & _ & Hlen & _).
  apply forward_run; [by eapply block_numbered|by eapply lowered_forward|lia].
Qed.

(** ** A function with branches, memory and a stack slot *)
Module Mix.
Definition call (k : Z) (args : list Z) : Clif.BlockCall := Clif.mkBlockCall k args.

(** [v0] is a pointer, every other value an [i32]. *)
Definition types (v : Z) : Clif.Type_ := if v =? 0 then Clif.I64 else Clif.I32.

Definition normal (t : Clif.Type_) : Clif.AbiParam := Clif.mkAbiParam t Clif.Normal.

Definition mix : Clif.Function_ := Clif.mkFunction (Clif.User 0 7)
  (Clif.mkSignature [normal Clif.I64; normal Clif.I32] [normal Clif.I32] Clif.SystemV)
  [ Clif.mkBlock 0 [0; 1]
      [ Clif.mkInst (Clif.StackStoreData Clif.StackStore 1 0 0) [];
        Clif.mkInst (Clif.BinaryData Clif.Iadd 1 1) [2];
        Clif.mkInst (Clif.StoreData Clif.Store 2 0 0) [];
        Clif.mkInst (Clif.BrifData 2 (call 1 [2]) (call 2 [])) [] ];
    Clif.mkBlock 1 [3]
      [ Clif.mkInst (Clif.StackLoadData Clif.StackLoad 0 0) [4];
        Clif.mkInst (Clif.BinaryData Clif.Imul 3 4) [5];
        Clif.mkInst (Clif.JumpData (call 3 [5])) [] ];
    Clif.mkBlock 2 []
      [ Clif.mkInst (Clif.LoadData Clif.Load 0 4) [6];
        Clif.mkInst (Clif.JumpData (call 3 [6])) [] ];
    Clif.mkBlock 3 [7] [ Clif.mkInst (Clif.MultiAryData Clif.Return [7]) [] ] ]
  types (fun ss => if ss =? 0 then Some 4 else None).

Definition lowered_mix : LoweredFunction :=
  match lower_function mix with Ok lf => lf | Err _ => LoweredIr.mkFunction [] (LoweredIr.mkSignature [] []) [] 0 end.

Lemma mix_lowers : lower_function mix = Ok lowered_mix.
Proof. vm_compute. reflexivity. Qed.

(** Case analysis over the blocks and instructions of a concrete function. *)
Ltac each_inst :=
  repeat match goal with
  | H : _ ∈ _ :: _ |- _ => apply elem_of_cons in H as [-> | H]
  | H : _ ∈ [] |- _ => by apply elem_of_nil in H
  | H : _ ∈ _ |- _ => progress simpl in H
  end.

Lemma mix_well_formed : well_formed mix.
Proof.
  split.
  - by apply (bool_decide_unpack _), I.
  - by apply (bool_decide_unpack _), I.
  - intros cb i Hcb Hi. each_inst; (split; [vm_compute; eauto|exact I]).
  - intros cb Hcb. by each_inst.
  - intros cb i c cb' Hcb Hi Hc Hcb' Hid. each_inst; simplify_eq/=; by repeat constructor.
  - intros v. unfold mix, types. simpl. by case_match.
Qed.

Lemma mix_slots : slots_in_entry mix.
Proof.
  intros ss Hss. exists (Clif.mkBlock 0 [0; 1] (Clif.insts (hd (Clif.mkBlock 0 [] []) (Clif.layout mix)))).
  split; [done|]. change (ss ∈ [0; 0]) in Hss. change (ss ∈ [0]). each_inst; by left.
Qed.

Lemma mix_no_bitselect : no_bitselect mix.
Proof. intros cb i Hcb Hi. by each_inst. Qed.

(** Its paths from the entry. *)
Lemma mix_dominance : clif_dominance mix.
Proof.
  intros cb p Hhead Hp. cbn in Hhead. injection Hhead as <-.
  repeat match goal with
  | H : clif_succ _ _ _ |- _ =>
      let Hin := fresh in let i := fresh in let c := fresh in let Hi := fresh in let Hc := fresh in let Hid := fresh in
      destruct H as [Hin (i & c & Hi & Hc & Hid)]; each_inst; simplify_eq/=
  | H : path _ _ _ |- _ => inversion H; subst; clear H
  end; cbn; split_and?; try done; set_solver.
Qed.

Definition memory8 : memory := list_to_map ((fun k => (k, Byte.x00)) <$> seqZ 0 8).

Lemma mix_runs : exists m, ClifSem.run 4 mix [0; 3] memory8 = Returned [18] m.
Proof. eexists. vm_compute. reflexivity. Qed.
End Mix.

(** [lower_function_correct] on [mix]. *)
Lemma lower_function_correct_witness : exists m, LoweredSem.run 4 Mix.lowered_mix [0; 3] Mix.memory8 = Returned [18] m.
Proof.
  destruct Mix.mix_runs as [m Hm]. exists m.
  exact (lower_function_correct Mix.mix Mix.lowered_mix 4 [0; 3] Mix.memory8 [18] m
    Mix.mix_well_formed Mix.mix_slots Mix.mix_no_bitselect Mix.mix_lowers Hm).
Defined.

Lemma lower_function_ssa_witness : ssa_form Mix.lowered_mix /\ lowered_dominance Mix.lowered_mix.
Proof.
  destruct (lower_function_ssa Mix.mix Mix.lowered_mix Mix.mix_well_formed Mix.mix_lowers) as [Hssa Hdom].
  exact (conj Hssa (Hdom Mix.mix_slots Mix.mix_dominance)).
Defined.

Lemma lower_function_terminates_witness : LoweredSem.run 4 Mix.lowered_mix [0; 0] Mix.memory8 <> OutOfFuel.
Proof.
  apply (lower_function_terminates Mix.mix Mix.lowered_mix 4 [0; 0] Mix.memory8 Mix.mix_well_formed Mix.mix_lowers).
  simpl. lia.
Defined.

(** ** Where the lowering goes wrong *)
Module Wrong.
Import Mix.

Definition lowered_or_empty (f : Clif.Function_) : LoweredFunction :=
  match lower_function f with Ok lf => lf | Err _ => LoweredIr.mkFunction [] (LoweredIr.mkSignature [] []) [] 0 end.

(** A stack slot that two sibling blocks use: the allocation is emitted in the
    one that comes first in the layout. *)
Definition siblings : Clif.Function_ := Clif.mkFunction (Clif.User 0 8)
  (Clif.mkSignature [normal Clif.I32] [normal Clif.I32] Clif.SystemV)
  [ Clif.mkBlock 0 [1] [ Clif.mkInst (Clif.BrifData 1 (call 1 []) (call 2 [])) [] ];
    Clif.mkBlock 1 []
      [ Clif.mkInst (Clif.StackStoreData Clif.StackStore 1 0 0) []; Clif.mkInst (Clif.MultiAryData Clif.Return [1]) [] ];
    Clif.mkBlock 2 []
      [ Clif.mkInst (Clif.StackStoreData Clif.StackStore 1 0 0) [];
        Clif.mkInst (Clif.StackLoadData Clif.StackLoad 0 0) [2];
        Clif.mkInst (Clif.MultiAryData Clif.Return [2]) [] ] ]
  types (fun ss => if ss =? 0 then Some 4 else None).

Lemma siblings_well_formed : well_formed siblings.
Proof.
  split.
  - by apply (bool_decide_unpack _), I.
  - by apply (bool_decide_unpack _), I.
  - intros cb i Hcb Hi. each_inst; (split; [vm_compute; eauto|exact I]).
  - intros cb Hcb. by each_inst.
  - intros cb i c cb' Hcb Hi Hc Hcb' Hid. each_inst; simplify_eq/=; by repeat constructor.
  - intros v. unfold siblings, types. simpl. by case_match.
Qed.

(** The lowering accepts a well-formed function whose second sibling then
    stores through a pointer no executed operation defined. *)
Lemma sibling_slot_undefined :
  well_formed siblings /\ lower_function siblings = Ok (lowered_or_empty siblings) /\
  ClifSem.run 2 siblings [0] ∅ = Returned [0] ∅ /\ LoweredSem.run 2 (lowered_or_empty siblings) [0] ∅ = Stuck.
Proof. split; [exact siblings_well_formed|]. by vm_compute. Qed.

(** [bitselect] picks bits, the [VSelect] it becomes picks lanes. *)
Definition vec_types (v : Z) : Clif.Type_ := Clif.Vector Clif.I32 4.

Definition select_bits : Clif.Function_ := Clif.mkFunction (Clif.User 0 9)
  (Clif.mkSignature [normal (vec_types 0); normal (vec_types 1); normal (vec_types 2)] [normal (vec_types 3)] Clif.SystemV)
  [ Clif.mkBlock 0 [0; 1; 2]
      [ Clif.mkInst (Clif.TernaryData Clif.Bitselect 0 1 2) [3]; Clif.mkInst (Clif.MultiAryData Clif.Return [3]) [] ] ]
  vec_types (fun _ => None).

(** The low bit of the first lane from [1], the rest from [2]; the lowered
    function takes the whole lane. *)
Lemma bitselect_differs :
  lower_function select_bits = Ok (lowered_or_empty select_bits) /\
  ClifSem.run 1 select_bits [1; 2; 4] ∅ = Returned [4] ∅ /\
  LoweredSem.run 1 (lowered_or_empty select_bits) [1; 2; 4] ∅ = Returned [2] ∅.
Proof. by vm_compute. Qed.

(** The blueprint of [p[0] += p[0]] and of [p[0] += x]: the adapter looks at the
    kinds of the four operations, not at their operands, and makes four lanes
    of a scalar. *)
Definition add_to_cell (rhs : Z) : LoweredFunction :=
  LoweredIr.mkFunction (bytes_of "k") (LoweredIr.mkSignature [Ptr; I32] [])
    [ LoweredIr.mkBlock 0 [(0, Ptr); (1, I32)] [Load I32 0 0 2; AddI I32 2 rhs 3; Store I32 3 0 0; Return []] ] 0.

Lemma adapter_ignores_operands :
  Adapter.lowered_function_to_blueprint (add_to_cell 1) = Adapter.lowered_function_to_blueprint (add_to_cell 2) /\
  match Adapter.lowered_function_to_blueprint (add_to_cell 1) with
  | Ok b => Ir.ops b = [Ir.LoadUnified Ir.I32 4; Ir.VecAdd Ir.I32 4; Ir.StoreUnified Ir.I32 4]
  | Err _ => False
  end.
Proof. by vm_compute. Qed.
End Wrong.
