(* ===== verification/Pliron.v ===== *)
(** * From the lowered IR to pliron graphs

    [pliron_lowering.rs] turns a lowered function into a graph of [twasm]
    operations, [pliron_ptx.rs] rewrites that graph into [llvm] operations.
    [Arena] is what the code uses of pliron: operations and blocks live in an
    arena and are named by their index, a block holds the operations that were
    inserted into it.  Whether a text is a pliron identifier is a parameter.

    [Convert] has the first stage, its theorems and [Rewrite] the second. *)

From S2P Require Import Prelude Core Ir LoweredIr Lowering LoweringSem LoweringFacts LoweringCorrect LoweringSsa.

(** ** The arena *)
Module Arena.
Inductive TypeObj := IntegerType (bits : Z) | FP32Type | FP64Type | PointerType.

(** An argument of a block, or a result of an operation. *)
Inductive Value := Argument (block idx : nat) | Result (op idx : nat).

#[global] Instance Value_eq_dec : EqDecision Value.
Proof. solve_decision. Defined.
#[global] Instance Value_countable : Countable Value.
Proof.
  refine (inj_countable' (fun v => match v with Argument b i => inl (b, i) | Result o i => inr (o, i) end)
    (fun s => match s with inl (b, i) => Argument b i | inr (o, i) => Result o i end) _).
  by intros [].
Defined.

Record Operation := mkOperation {
  opid : string;
  result_types : list TypeObj;
  operands : list Value;
  successors : list nat;
  attributes : list (string * str);
}.

Record BasicBlock := mkBasicBlock { label : option str; arg_types : list TypeObj; inserted : list nat }.

Record Context := mkContext { operations : list Operation; basic_blocks : list BasicBlock }.

(** A [builtin.func]; its region lists its blocks, the entry first. *)
Record FuncOp := mkFuncOp { symbol : str; param_types : list TypeObj; return_types : list TypeObj; region : list nat }.

Definition new_operation (op : Operation) (ctx : Context) : nat * Context :=
  (length (operations ctx), mkContext (operations ctx ++ [op]) (basic_blocks ctx)).

Definition new_block (label : option str) (types : list TypeObj) (ctx : Context) : nat * Context :=
  (length (basic_blocks ctx), mkContext (operations ctx) (basic_blocks ctx ++ [mkBasicBlock label types []])).

Definition insert_at_back (op bb : nat) (ctx : Context) : Context :=
  mkContext (operations ctx)
    (alter (fun b => mkBasicBlock (label b) (arg_types b) (inserted b ++ [op])) bb (basic_blocks ctx)).

Definition num_arguments (ctx : Context) (bb : nat) : nat :=
  match basic_blocks ctx !! bb with Some b => length (arg_types b) | None => 0%nat end.

Definition ops_in_block (ctx : Context) (bb : nat) : list Operation :=
  match basic_blocks ctx !! bb with
  | Some b => omap (fun o => operations ctx !! o) (inserted b)
  | None => []
  end.
End Arena.

(** ** [pliron_lowering.rs] *)
Module Convert.
Import LoweredIr Arena.

Inductive PlironConversionError :=
| NotYetWired (variant : string)
| ContextError (text : str)
| UndefinedValue (id : Z)
| UndefinedBlock (id : Z).

Definition translate_type (t : LoweredType) : result PlironConversionError TypeObj :=
  match t with
  | I8 => Ok (IntegerType 8) | I16 => Ok (IntegerType 16) | I32 => Ok (IntegerType 32) | I64 => Ok (IntegerType 64)
  | F32 => Ok FP32Type | F64 => Ok FP64Type
  | Ptr => Ok (IntegerType 64)
  | Bool => Ok (IntegerType 1)
  | V128 _ _ => Err (NotYetWired "LoweredType::V128")
  end.

Definition TWASM_OFFSET_ATTR : string := "twasm.byte_offset".

Record ConversionState := mkState { values : gmap Z Value; blocks_ : gmap Z nat; ctx : Context }.

Definition get_value (st : ConversionState) (id : Z) : result PlironConversionError Value :=
  ok_or (UndefinedValue id) (values st !! id).

Definition get_block (st : ConversionState) (id : Z) : result PlironConversionError nat :=
  ok_or (UndefinedBlock id) (blocks_ st !! id).

Definition map_value (id : Z) (v : Value) (st : ConversionState) : ConversionState :=
  mkState (<[id := v]> (values st)) (blocks_ st) (ctx st).

Definition map_block (id : Z) (b : nat) (st : ConversionState) : ConversionState :=
  mkState (values st) (<[id := b]> (blocks_ st)) (ctx st).

Definition set_ctx (c : Context) (st : ConversionState) : ConversionState := mkState (values st) (blocks_ st) c.

Section convert.
(** [Identifier::try_new]. *)
Variable identifier : str -> bool.

Definition attr (key : string) (value : str) : list (string * str) :=
  if identifier (bytes_of key) then [(key, value)] else [].

Definition set_load_store_offset (offset : Z) : list (string * str) := attr TWASM_OFFSET_ATTR (signed_dec offset).

Definition set_stack_alloc_attrs (ty : LoweredType) (bytes : Z) : list (string * str) :=
  attr "twasm.alloca_bytes" (dec bytes) ++ attr "twasm.alloca_elem" (display_type ty).

(** A new operation at the end of [bb]; its first result is [result]. *)
Definition append (st : ConversionState) (bb : nat) (op : Operation) (result : option Z) : ConversionState :=
  let '(p, c) := new_operation op (ctx st) in
  let st := set_ctx (insert_at_back p bb c) st in
  match result with Some r => map_value r (Result p 0) st | None => st end.

Definition emit_unary_cast (name : string) (st : ConversionState) (bb : nat) (to_ty : LoweredType) (src result : Z) :
    Prelude.result PlironConversionError ConversionState :=
  src_v ← get_value st src;
  result_ty ← translate_type to_ty;
  Ok (append st bb (mkOperation name [result_ty] [src_v] [] []) (Some result)).

Definition emit_binary (name : string) (st : ConversionState) (bb : nat) (ty : LoweredType) (lhs rhs result : Z) :
    Prelude.result PlironConversionError ConversionState :=
  lhs_v ← get_value st lhs;
  rhs_v ← get_value st rhs;
  result_ty ← translate_type ty;
  Ok (append st bb (mkOperation name [result_ty] [lhs_v; rhs_v] [] []) (Some result)).

Definition emit_op (st : ConversionState) (bb : nat) (op : LoweredOp) : result PlironConversionError ConversionState :=
  match op with
  | AddI ty a b r => emit_binary "twasm.addi" st bb ty a b r
  | SubI ty a b r => emit_binary "twasm.subi" st bb ty a b r
  | MulI ty a b r => emit_binary "twasm.muli" st bb ty a b r
  | AddF ty a b r => emit_binary "twasm.addf" st bb ty a b r
  | SubF ty a b r => emit_binary "twasm.subf" st bb ty a b r
  | MulF ty a b r => emit_binary "twasm.mulf" st bb ty a b r
  | Load ty base offset r =>
      base_v ← get_value st base;
      result_ty ← translate_type ty;
      Ok (append st bb (mkOperation "twasm.load" [result_ty] [base_v] [] (set_load_store_offset offset)) (Some r))
  | Store _ value base offset =>
      v ← get_value st value;
      base_v ← get_value st base;
      Ok (append st bb (mkOperation "twasm.store" [] [v; base_v] [] (set_load_store_offset offset)) None)
  | Br target args =>
      target_bb ← get_block st target;
      operand_vals ← mapM (get_value st) args;
      Ok (append st bb (mkOperation "twasm.br" [] operand_vals [target_bb] []) None)
  | CondBr cond then_target then_args else_target else_args =>
      cond_v ← get_value st cond;
      then_bb ← get_block st then_target;
      else_bb ← get_block st else_target;
      operand_vals ← mapM (get_value st) (then_args ++ else_args);
      Ok (append st bb (mkOperation "twasm.cond_br" [] (cond_v :: operand_vals) [then_bb; else_bb] []) None)
  | Return vs =>
      operand_vals ← mapM (get_value st) vs;
      Ok (append st bb (mkOperation "twasm.return" [] operand_vals [] []) None)
  | StackAlloc ty bytes r =>
      ptr_ty ← translate_type Ptr;
      Ok (append st bb (mkOperation "twasm.alloca" [ptr_ty] [] [] (set_stack_alloc_attrs ty bytes)) (Some r))
  | Select ty cond then_v else_v r =>
      cond_v ← get_value st cond;
      then_val ← get_value st then_v;
      else_val ← get_value st else_v;
      result_ty ← translate_type ty;
      Ok (append st bb (mkOperation "twasm.select" [result_ty] [cond_v; then_val; else_val] [] []) (Some r))
  | Bitcast _ to_ty src r => emit_unary_cast "twasm.bitcast" st bb to_ty src r
  | TruncI _ to_ty src r => emit_unary_cast "twasm.trunci" st bb to_ty src r
  | ExtendU _ to_ty src r => emit_unary_cast "twasm.extui" st bb to_ty src r
  | ExtendS _ to_ty src r => emit_unary_cast "twasm.extsi" st bb to_ty src r
  | DivS _ _ _ _ => Err (NotYetWired "DivS")
  | DivU _ _ _ _ => Err (NotYetWired "DivU")
  | RemS _ _ _ _ => Err (NotYetWired "RemS")
  | RemU _ _ _ _ => Err (NotYetWired "RemU")
  | DivF _ _ _ _ => Err (NotYetWired "DivF")
  | Fma _ _ _ _ _ => Err (NotYetWired "Fma")
  | FNeg _ _ _ => Err (NotYetWired "FNeg")
  | FAbs _ _ _ => Err (NotYetWired "FAbs")
  | Switch _ _ _ => Err (NotYetWired "Switch")
  | VMin _ _ _ _ _ => Err (NotYetWired "VMin")
  | VMax _ _ _ _ _ => Err (NotYetWired "VMax")
  | VSplat _ _ _ => Err (NotYetWired "VSplat")
  | VSelect _ _ _ _ _ => Err (NotYetWired "VSelect")
  | VAllTrue _ _ => Err (NotYetWired "VAllTrue")
  | VAnyTrue _ _ => Err (NotYetWired "VAnyTrue")
  end.

Fixpoint emit_ops (st : ConversionState) (bb : nat) (l : list LoweredOp) : result PlironConversionError ConversionState :=
  match l with
  | [] => Ok st
  | op :: l => st ← emit_op st bb op; emit_ops st bb l
  end.

Fixpoint emit_blocks (st : ConversionState) (l : list LoweredBlock) : result PlironConversionError ConversionState :=
  match l with
  | [] => Ok st
  | lb :: l => bb ← get_block st (id lb); st ← emit_ops st bb (ops lb); emit_blocks st l
  end.

(** The values of a block's parameters are its arguments. *)
Fixpoint map_arguments (st : ConversionState) (bb idx : nat) (ps : list (Z * LoweredType)) : ConversionState :=
  match ps with
  | [] => st
  | (p, _) :: ps => map_arguments (map_value p (Argument bb idx) st) bb (S idx) ps
  end.

(** A new block, named by [k], with its arguments. *)
Definition with_block (st : ConversionState) (k : Z) (lab : option str) (types : list TypeObj) (ps : list (Z * LoweredType)) :
    nat * ConversionState :=
  let '(bb, c) := new_block lab types (ctx st) in (bb, map_block k bb (map_arguments (set_ctx c st) bb 0 ps)).

Definition block_label (k : Z) : option str :=
  let text := bytes_of "bb" ++ dec k in if identifier text then Some text else None.

(** Fresh blocks for every block but the entry; the blocks in region order. *)
Fixpoint create_blocks (st : ConversionState) (entry : Z) (l : list LoweredBlock) :
    result PlironConversionError (ConversionState * list nat) :=
  match l with
  | [] => Ok (st, [])
  | lb :: l =>
      if id lb =? entry then create_blocks st entry l
      else
        arg_types ← mapM (fun '(_, ty) => translate_type ty) (params lb);
        let '(bb, st) := with_block st (id lb) (block_label (id lb)) arg_types (params lb) in
        '(st, rest) ← create_blocks st entry l;
        Ok (st, bb :: rest)
  end.

Definition lowered_function_to_pliron (c : Context) (f : LoweredFunction) :
    result PlironConversionError (FuncOp * ConversionState) :=
  params ← mapM translate_type (sig_params (signature f));
  returns ← mapM translate_type (sig_returns (signature f));
  if negb (identifier (name f)) then Err (ContextError (bytes_of "invalid function name"))
  else
    entry_lowered ← ok_or (UndefinedBlock (entry f)) (block f (entry f));
    let '(entry_block, st) :=
      with_block (mkState ∅ ∅ c) (id entry_lowered) (Some (bytes_of "entry")) params (LoweredIr.params entry_lowered) in
    let args := num_arguments (ctx st) entry_block in
    if (args <? length (LoweredIr.params entry_lowered))%nat
    then Err (ContextError (bytes_of "entry block has " ++ dec (Z.of_nat (length (LoweredIr.params entry_lowered))) ++
           bytes_of " params but FuncOp entry block has " ++ dec (Z.of_nat args) ++ bytes_of " args"))
    else
      '(st, fresh) ← create_blocks st (entry f) (blocks f);
      st ← emit_blocks st (blocks f);
      Ok (mkFuncOp (name f) params returns (entry_block :: fresh), st).
End convert.
End Convert.

(** ** [pliron_ptx.rs] *)
Module Rewrite.
Import Arena.

Inductive PtxError :=
| UnsupportedOp (op : str)
| NotYetWired (stage : string)
| LoweringText (text : string)
| Pliron (e : Convert.PlironConversionError).

Record RewriteState := mkState { values : gmap Value Value; blocks_ : gmap nat nat; ctx : Context }.

Definition map_value (st : RewriteState) (v : Value) : result PtxError Value :=
  ok_or (LoweringText "twasm_to_llvm_dialect: unmapped value") (values st !! v).

Definition map_block (st : RewriteState) (b : nat) : result PtxError nat :=
  ok_or (LoweringText "twasm_to_llvm_dialect: unmapped block") (blocks_ st !! b).

Definition value_type (c : Context) (v : Value) : option TypeObj :=
  match v with
  | Argument b i => basic_blocks c !! b ≫= fun b => arg_types b !! i
  | Result o i => operations c !! o ≫= fun o => result_types o !! i
  end.

(** The result of a binary operation has the type of its left operand. *)
Definition binop (name : string) (c : Context) (lhs rhs : Value) : Operation :=
  mkOperation name (option_list (value_type c lhs)) [lhs; rhs] [] [].

(** The new operation, which the caller does not insert into a block either. *)
Definition emit_int_binop (name : string) (st : RewriteState) (operands : list Value) : result PtxError (nat * Context) :=
  lhs ← ok_or (LoweringText "integer binop missing lhs operand") (operands !! 0%nat);
  rhs ← ok_or (LoweringText "integer binop missing rhs operand") (operands !! 1%nat);
  Ok (new_operation (binop name (ctx st) lhs rhs) (ctx st)).

Definition emit_float_binop (name : string) (st : RewriteState) (operands : list Value) : result PtxError (nat * Context) :=
  lhs ← ok_or (LoweringText "float binop missing lhs operand") (operands !! 0%nat);
  rhs ← ok_or (LoweringText "float binop missing rhs operand") (operands !! 1%nat);
  Ok (new_operation (binop name (ctx st) lhs rhs) (ctx st)).

Definition inserted_op (op : Operation) (bb : nat) (c : Context) : nat * Context :=
  let '(p, c) := new_operation op c in (p, insert_at_back p bb c).

Definition cast_int_to_ptr (c : Context) (bb : nat) (int_val : Value) : Value * Context :=
  let '(p, c) := inserted_op (mkOperation "llvm.inttoptr" [PointerType] [int_val] [] []) bb c in (Result p 0, c).

Definition rewrite_op (st : RewriteState) (out_bb in_op : nat) : result PtxError RewriteState :=
  op ← ok_or (LoweringText "no such operation") (operations (ctx st) !! in_op);
  operands ← mapM (map_value st) (operands op);
  succs ← mapM (map_block st) (successors op);
  let name := opid op in
  '(p, c) ←
    (if String.eqb name "twasm.addi" then emit_int_binop "llvm.add" st operands
     else if String.eqb name "twasm.subi" then emit_int_binop "llvm.sub" st operands
     else if String.eqb name "twasm.muli" then emit_int_binop "llvm.mul" st operands
     else if String.eqb name "twasm.addf" then emit_float_binop "llvm.fadd" st operands
     else if String.eqb name "twasm.subf" then emit_float_binop "llvm.fsub" st operands
     else if String.eqb name "twasm.mulf" then emit_float_binop "llvm.fmul" st operands
     else if String.eqb name "twasm.load" then
       base ← ok_or (LoweringText "twasm.load missing base operand") (operands !! 0%nat);
       res_ty ← ok_or (LoweringText "twasm.load missing result type") (result_types op !! 0%nat);
       let '(ptr_val, c) := cast_int_to_ptr (ctx st) out_bb base in
       Ok (inserted_op (mkOperation "llvm.load" [res_ty] [ptr_val] [] []) out_bb c)
     else if String.eqb name "twasm.store" then
       value ← ok_or (LoweringText "twasm.store missing value operand") (operands !! 0%nat);
       base ← ok_or (LoweringText "twasm.store missing base operand") (operands !! 1%nat);
       let '(ptr_val, c) := cast_int_to_ptr (ctx st) out_bb base in
       Ok (inserted_op (mkOperation "llvm.store" [] [value; ptr_val] [] []) out_bb c)
     else if String.eqb name "twasm.br" then
       dest ← ok_or (LoweringText "twasm.br missing successor") (succs !! 0%nat);
       Ok (inserted_op (mkOperation "llvm.br" [] operands [dest] []) out_bb (ctx st))
     else if String.eqb name "twasm.cond_br" then
       cond ← ok_or (LoweringText "twasm.cond_br missing condition") (operands !! 0%nat);
       then_dest ← ok_or (LoweringText "twasm.cond_br missing then successor") (succs !! 0%nat);
       else_dest ← ok_or (LoweringText "twasm.cond_br missing else successor") (succs !! 1%nat);
       Ok (inserted_op (mkOperation "llvm.cond_br" [] [cond] [then_dest; else_dest] []) out_bb (ctx st))
     else if String.eqb name "twasm.return" then
       if (1 <? length operands)%nat
       then Err (UnsupportedOp (bytes_of name ++ bytes_of " with " ++ dec (Z.of_nat (length operands)) ++
              bytes_of " results (only 0 or 1 supported)"))
       else Ok (inserted_op (mkOperation "llvm.return" [] operands [] []) out_bb (ctx st))
     else Err (UnsupportedOp (bytes_of name)));
  let n := match operations c !! p with Some o => length (result_types o) | None => 0%nat end in
  let news := (fun i => (Result in_op i, Result p i)) <$> seq 0 (Nat.min (length (result_types op)) n) in
  Ok (mkState (foldl (fun m '(old, new) => <[old := new]> m) (values st) news) (blocks_ st) c).

Fixpoint rewrite_ops (st : RewriteState) (out_bb : nat) (l : list nat) : result PtxError RewriteState :=
  match l with
  | [] => Ok st
  | op :: l => st ← rewrite_op st out_bb op; rewrite_ops st out_bb l
  end.

Definition map_arguments (in_bb out_bb n : nat) (m : gmap Value Value) : gmap Value Value :=
  foldl (fun m i => <[Argument in_bb i := Argument out_bb i]> m) m (seq 0 n).

Fixpoint create_blocks (st : RewriteState) (l : list nat) : RewriteState * list nat :=
  match l with
  | [] => (st, [])
  | in_bb :: l =>
      let types := match basic_blocks (ctx st) !! in_bb with Some b => arg_types b | None => [] end in
      let '(out_bb, c) := new_block None types (ctx st) in
      let st := mkState (map_arguments in_bb out_bb (length types) (values st)) (<[in_bb := out_bb]> (blocks_ st)) c in
      let '(st, rest) := create_blocks st l in
      (st, out_bb :: rest)
  end.

Fixpoint rewrite_blocks (st : RewriteState) (l : list nat) : result PtxError RewriteState :=
  match l with
  | [] => Ok st
  | in_bb :: l =>
      out_bb ← map_block st in_bb;
      st ← rewrite_ops st out_bb (match basic_blocks (ctx st) !! in_bb with Some b => inserted b | None => [] end);
      rewrite_blocks st l
  end.

Definition twasm_to_llvm_dialect (c : Context) (f : FuncOp) : result PtxError (FuncOp * Context) :=
  let '(new_entry, c) := new_block (Some (bytes_of "entry")) (param_types f) c in
  match region f with
  | [] => Err (LoweringText "input function has no blocks")
  | input_entry :: others =>
      let st := mkState (map_arguments input_entry new_entry (num_arguments c input_entry) ∅) {[input_entry := new_entry]} c in
      let '(st, fresh) := create_blocks st others in
      st ← rewrite_blocks st (region f);
      Ok (mkFuncOp (symbol f) (param_types f) (return_types f) (new_entry :: fresh), ctx st)
  end.

Definition llvm_dialect_to_text (c : Context) (f : FuncOp) : result PtxError str := Err (NotYetWired "llvm_dialect_to_text").
Definition llvm_text_to_ptx (text : str) : result PtxError str := Err (NotYetWired "llvm_text_to_ptx").

(** With the [pliron-llvm-backend] feature, stage 2 is the rewriting above;
    without it a stub. *)
Definition lowered_function_to_ptx (identifier : str -> bool) (llvm_backend : bool) (f : LoweredIr.LoweredFunction) :
    result PtxError str :=
  match Convert.lowered_function_to_pliron identifier (mkContext [] []) f with
  | Err e => Err (Pliron e)
  | Ok (twasm_func, st) =>
      '(llvm_func, c) ← (if llvm_backend then twasm_to_llvm_dialect (Convert.ctx st) twasm_func
                         else Err (NotYetWired "twasm_to_llvm_dialect"));
      text ← llvm_dialect_to_text c llvm_func;
      llvm_text_to_ptx text
  end.
End Rewrite.

(** ** What the conversion guarantees *)
Module ConvertFacts.
Import LoweredIr Arena Convert DispatchFacts.

Definition mnemonic (o : LoweredOp) : string :=
  match o with
  | AddI _ _ _ _ => "twasm.addi" | SubI _ _ _ _ => "twasm.subi" | MulI _ _ _ _ => "twasm.muli"
  | AddF _ _ _ _ => "twasm.addf" | SubF _ _ _ _ => "twasm.subf" | MulF _ _ _ _ => "twasm.mulf"
  | Load _ _ _ _ => "twasm.load" | Store _ _ _ _ => "twasm.store" | StackAlloc _ _ _ => "twasm.alloca"
  | Br _ _ => "twasm.br" | CondBr _ _ _ _ _ => "twasm.cond_br" | Return _ => "twasm.return"
  | Select _ _ _ _ _ => "twasm.select" | Bitcast _ _ _ _ => "twasm.bitcast" | TruncI _ _ _ _ => "twasm.trunci"
  | ExtendU _ _ _ _ => "twasm.extui" | ExtendS _ _ _ _ => "twasm.extsi"
  | _ => ""
  end.

(** The operation [op] is [o], with the state's names for values and blocks. *)
Record mirrors (values : gmap Z Value) (blocks_ : gmap Z nat) (o : LoweredOp) (op : Operation) : Prop := {
  mi_name : opid op = mnemonic o;
  mi_operands : mapM (fun x => values !! x) (op_operands o) = Some (operands op);
  mi_successors : mapM (fun t => blocks_ !! t) (op_targets o) = Some (successors op);
  mi_results : length (result_types op) = length (option_list (op_result o));
}.

Lemma mapM_ok_or {E B} (e : Z -> E) (m : gmap Z B) l vs :
  mapM (fun x => ok_or (e x) (m !! x)) l = Ok vs -> mapM (fun x => m !! x) l = Some vs.
Proof.
  revert vs. induction l as [|x l IH]; intros vs H; simpl in *; [by inversion H|].
  destruct (m !! x); [|done]. simpl in *. destruct (mapM _ l) as [vs'|] eqn:E'; [|done]. simpl in H. inversion H; subst.
  by rewrite (IH _ eq_refl).
Qed.

Section facts.
Context (identifier : str -> bool).

(** Each emission appends one operation. *)
Lemma emit_op_spec st bb o st' :
  emit_op identifier st bb o = Ok st' ->
  exists op, st' = append st bb op (op_result o) /\ mirrors (values st) (blocks_ st) o op.
Proof.
  destruct o; simpl; intros H; try done; unfold emit_binary, emit_unary_cast, get_value, get_block in *;
    repeat match goal with
    | H : _ ≫= _ = Ok _ |- _ => let E := fresh "E" in apply bind_Ok_inv in H as (? & E & H)
    | H : ok_or _ ?o = Ok _ |- _ => let E := fresh "E" in destruct o eqn:E; simpl in H; simplify_eq
    | H : mapM _ _ = Ok _ |- _ => apply mapM_ok_or in H
    end; simplify_eq; eexists; (split; [done|]); split; simpl; try done;
    repeat match goal with H : ?x = Some _ |- context [?x] => rewrite H; simpl end; done.
Qed.

(** What the conversion knows stays true. *)
Record grows (st st' : ConversionState) : Prop := {
  gr_values : values st ⊆ values st';
  gr_blocks : blocks_ st' = blocks_ st;
  gr_ops : operations (ctx st) `prefix_of` operations (ctx st');
  gr_bbs : length (basic_blocks (ctx st')) = length (basic_blocks (ctx st));
}.

#[global] Instance grows_preorder : PreOrder grows.
Proof. split; [done|]. intros a b c [] []. split; [by etrans|congruence|by etrans|congruence]. Qed.

Lemma mirrors_grows st st' o op :
  grows st st' -> mirrors (values st) (blocks_ st) o op -> mirrors (values st') (blocks_ st') o op.
Proof.
  intros [Hv Hb _ _] [Hn Ho Hs Hr]. split; [done| |by rewrite Hb|done].
  apply mapM_Some. apply mapM_Some in Ho. eapply Forall2_impl; [exact Ho|]. intros x v Hx. simpl in *. by eapply lookup_weaken.
Qed.

(** Names are in use, and used once. *)
Record names_ok (st : ConversionState) (D : list Z) : Prop := {
  no_dom : forall x, is_Some (values st !! x) <-> x ∈ D;
  no_inj : forall x y v, values st !! x = Some v -> values st !! y = Some v -> x = y;
  no_bound : forall x v, values st !! x = Some v ->
    match v with
    | Argument b _ => (b < length (basic_blocks (ctx st)))%nat
    | Result p _ => (p < length (operations (ctx st)))%nat
    end;
}.

(** The operation at [p] is [o], and [o]'s result is its first. *)
Definition placed (st : ConversionState) (o : LoweredOp) (p : nat) : Prop :=
  (exists op, operations (ctx st) !! p = Some op /\ mirrors (values st) (blocks_ st) o op) /\
  forall r, op_result o = Some r -> values st !! r = Some (Result p 0).

Lemma placed_grows st st' o p : grows st st' -> placed st o p -> placed st' o p.
Proof.
  intros Hg [(op & Hop & Hm) Hr]. split.
  - exists op. split; [by eapply prefix_lookup_Some, gr_ops|by eapply mirrors_grows].
  - intros r Hres. eapply lookup_weaken; [by apply Hr|apply Hg].
Qed.

Definition block_inserted (st : ConversionState) (bb : nat) : list nat :=
  match basic_blocks (ctx st) !! bb with Some b => inserted b | None => [] end.

Lemma append_spec st bb op D o :
  names_ok st D -> (bb < length (basic_blocks (ctx st)))%nat ->
  (forall r, op_result o = Some r -> r ∉ D) -> mirrors (values st) (blocks_ st) o op ->
  let p := length (operations (ctx st)) in
  let st' := append st bb op (op_result o) in
  grows st st' /\ names_ok st' (after D [o]) /\ placed st' o p /\
  block_inserted st' bb = block_inserted st bb ++ [p] /\ forall b, b <> bb -> block_inserted st' b = block_inserted st b.
Proof.
  intros [Hdom Hinj Hbnd] Hbb Hr Hm p st'.
  assert (grows st st') as Hg.
  { unfold st', append. split; destruct (op_result o) eqn:E; simpl; try done.
    - apply insert_subseteq, eq_None_not_Some. rewrite Hdom. by apply Hr.
    - by apply prefix_app_r.
    - by apply prefix_app_r.
    - by rewrite length_alter.
    - by rewrite length_alter. }
  assert (operations (ctx st') = operations (ctx st) ++ [op]) as Hops by (unfold st', append; by destruct (op_result o)).
  assert (values st' = match op_result o with Some r => <[r := Result p 0]> (values st) | None => values st end) as Hvals
    by (unfold st', append; by destruct (op_result o)).
  assert (forall b, basic_blocks (ctx st') !! b =
            if decide (b = bb) then (fun k => mkBasicBlock (label k) (arg_types k) (inserted k ++ [p])) <$> basic_blocks (ctx st) !! b
            else basic_blocks (ctx st) !! b) as Hbbs.
  { intros b. unfold st', append. case_decide as Hb; [subst b|]; destruct (op_result o); simpl;
      first [by rewrite list_lookup_alter_eq|by rewrite list_lookup_alter_ne]. }
  split; [done|]. split; [|split; [|split]].
  - split.
    + intros x. rewrite Hvals. unfold after. simpl. destruct (op_result o) as [r|] eqn:E; simpl; [|apply Hdom].
      rewrite lookup_insert_is_Some', Hdom, elem_of_cons. naive_solver.
    + intros x y v. rewrite Hvals. destruct (op_result o) as [r|] eqn:E; [|apply Hinj].
      rewrite !lookup_insert_Some. intros [[<- <-]|[_ Hx]] [[<- Hv]|[_ Hy]]; try done; [apply Hbnd in Hy|subst v; apply Hbnd in Hx|]; try lia. by eapply Hinj.
    + intros x v. rewrite Hvals, Hops, length_app. simpl. rewrite (gr_bbs _ _ Hg).
      destruct (op_result o) as [r|] eqn:E; [rewrite lookup_insert_Some; intros [[_ <-]|[_ Hx]]; [lia|]|intros Hx];
        apply Hbnd in Hx; destruct v; lia.
  - split.
    + exists op. split; [rewrite Hops; by rewrite lookup_app_r, Nat.sub_diag by lia|by eapply mirrors_grows].
    + intros r Hres. rewrite Hvals, Hres. by rewrite lookup_insert_eq.
  - unfold block_inserted. rewrite Hbbs, decide_True by done. by destruct (lookup_lt_is_Some_2 _ _ Hbb) as [k ->].
  - intros b Hb. unfold block_inserted. by rewrite Hbbs, decide_False.
Qed.

Lemma emit_ops_spec st bb l D st' :
  emit_ops identifier st bb l = Ok st' -> names_ok st D -> (bb < length (basic_blocks (ctx st)))%nat -> scoped D l ->
  exists ps, grows st st' /\ names_ok st' (after D l) /\ Forall2 (placed st') l ps /\
    block_inserted st' bb = block_inserted st bb ++ ps /\ forall b, b <> bb -> block_inserted st' b = block_inserted st b.
Proof.
  revert st D. induction l as [|o l IH]; intros st D H Hn Hbb Hs; simpl in H.
  { simplify_eq. exists []. split_and!; try done. by rewrite app_nil_r. }
  apply bind_Ok_inv in H as (st1 & Ho & H). apply emit_op_spec in Ho as (op & -> & Hm). simpl in Hs. destruct Hs as [_ Hs].
  destruct (append_spec st bb op D o Hn Hbb) as (Hg1 & Hn1 & Hp1 & Hi1 & Ho1); [|done|].
  { intros r Hr. rewrite Hr in Hs. by destruct Hs. }
  destruct (IH _ (after D [o]) H Hn1) as (ps & Hg2 & Hn2 & Hp2 & Hi2 & Ho2).
  { by rewrite (gr_bbs _ _ Hg1). }
  { unfold after. simpl. by destruct (op_result o); [destruct Hs|]. }
  exists (length (operations (ctx st)) :: ps). rewrite (after_cons D o l). split_and!; [by etrans|done| | |].
  - constructor; [by eapply placed_grows|done].
  - by rewrite Hi2, Hi1, <-app_assoc.
  - intros b Hb. by rewrite Ho2, Ho1.
Qed.

Lemma emit_blocks_spec st l D st' :
  emit_blocks identifier st l = Ok st' -> names_ok st D -> scoped D (l ≫= ops) ->
  (forall lb bb, lb ∈ l -> blocks_ st !! id lb = Some bb ->
     (bb < length (basic_blocks (ctx st)))%nat /\ block_inserted st bb = []) ->
  (forall x y bb, blocks_ st !! x = Some bb -> blocks_ st !! y = Some bb -> x = y) -> NoDup (id <$> l) ->
  grows st st' /\ names_ok st' (after D (l ≫= ops)) /\
  (forall b, (forall lb, lb ∈ l -> blocks_ st !! id lb <> Some b) -> block_inserted st' b = block_inserted st b) /\
  forall lb, lb ∈ l -> exists bb, blocks_ st !! id lb = Some bb /\ Forall2 (placed st') (ops lb) (block_inserted st' bb).
Proof.
  revert st D. induction l as [|lb l IH]; intros st D H Hn Hs Hbb Hinj Hnd; simpl in H.
  { simplify_eq. split_and!; try done. intros lb Hlb. by apply elem_of_nil in Hlb. }
  unfold get_block in H. destruct (blocks_ st !! id lb) as [bb|] eqn:Hb; [|done]. simpl in H.
  apply bind_Ok_inv in H as (st1 & Ho & H). apply scoped_app_inv in Hs as [Hs Hs'].
  destruct (Hbb lb bb) as [Hlt Hempty]; [by left|done|]. simpl in Hnd. apply NoDup_cons in Hnd as [Hnin Hnd].
  destruct (emit_ops_spec _ _ _ _ _ Ho Hn Hlt Hs) as (ps & Hg1 & Hn1 & Hp1 & Hi1 & Ho1). rewrite Hempty in Hi1.
  assert (forall lb', lb' ∈ l -> blocks_ st !! id lb' <> Some bb) as Hother.
  { intros lb' Hin Hb'. apply Hnin. rewrite (Hinj _ _ _ Hb Hb'). by apply list_elem_of_fmap_2. }
  destruct (IH st1 _ H Hn1 Hs') as (Hg2 & Hn2 & Hout & Hin2); rewrite ?(gr_blocks _ _ Hg1); try done.
  { intros lb' bb' Hin Hb'. rewrite (gr_bbs _ _ Hg1). rewrite Ho1; [apply (Hbb lb'); [by right|done]|].
    intros ->. by apply (Hother lb'). }
  split_and!.
  - by etrans.
  - simpl. by rewrite after_app.
  - intros b Hnot. rewrite Hout, Ho1; [done| |].
    + intros ->. eapply Hnot; [by left|done].
    + intros lb' Hin. rewrite (gr_blocks _ _ Hg1). apply Hnot. by right.
  - intros lb' [->|Hin]%elem_of_cons.
    + exists bb. split; [done|]. rewrite Hout, Hi1; [|intros lb' Hin; rewrite (gr_blocks _ _ Hg1); by apply Hother].
      eapply Forall2_impl; [exact Hp1|]. intros. by eapply placed_grows.
    + destruct (Hin2 lb' Hin) as (bb' & Hb' & ?). rewrite (gr_blocks _ _ Hg1) in Hb'. eauto.
Qed.

(** *** Blocks and their arguments *)

Lemma map_arguments_spec st bb idx ps :
  (forall x, x ∈ ps.*1 -> values st !! x = None) -> NoDup ps.*1 ->
  blocks_ (map_arguments st bb idx ps) = blocks_ st /\ ctx (map_arguments st bb idx ps) = ctx st /\
  (forall x v, values (map_arguments st bb idx ps) !! x = Some v <->
     values st !! x = Some v \/ exists j, ps.*1 !! j = Some x /\ v = Argument bb (idx + j)).
Proof.
  revert st idx. induction ps as [|[p t] ps IH]; intros st idx Hnone Hnd; simpl.
  { split_and!; try done. intros x v. split; [by left|]. intros [?|(j & Hj & _)]; [done|]. by rewrite lookup_nil in Hj. }
  simpl in Hnd. apply NoDup_cons in Hnd as [Hnin Hnd].
  destruct (IH (map_value p (Argument bb idx) st) (S idx)) as (-> & -> & Hv); [|done|].
  { intros x Hx. simpl. rewrite lookup_insert_ne by (by intros ->). apply Hnone. by right. }
  split_and!; try done. intros x v. rewrite Hv. simpl. rewrite lookup_insert_Some. split.
  - intros [[[<- <-]|[_ ?]]|(j & Hj & ->)]; [right; exists 0%nat|by left|right; exists (S j)].
    + by rewrite Nat.add_0_r.
    + split; [done|]. f_equal. lia.
  - intros [Hx|([|j] & Hj & ->)].
    + left. right. split; [|done]. intros ->. rewrite Hnone in Hx; [done|by left].
    + simplify_eq/=. left. left. by rewrite Nat.add_0_r.
    + right. exists j. split; [done|]. f_equal. lia.
Qed.

Lemma with_block_spec st k lab types ps D :
  names_ok st D -> NoDup ps.*1 -> (forall x, x ∈ ps.*1 -> x ∉ D) ->
  let st' := (with_block st k lab types ps).2 in let bb := length (basic_blocks (ctx st)) in
  (with_block st k lab types ps).1 = bb /\
  (values st ⊆ values st' /\ forall j x, ps.*1 !! j = Some x -> values st' !! x = Some (Argument bb j)) /\
  names_ok st' (D ++ ps.*1) /\ blocks_ st' = <[k := bb]> (blocks_ st) /\ operations (ctx st') = operations (ctx st) /\
  basic_blocks (ctx st') = basic_blocks (ctx st) ++ [mkBasicBlock lab types []].
Proof.
  intros [Hdom Hinj Hbnd] Hnd Hnew st' bb. unfold st', with_block, new_block.
  destruct (map_arguments_spec (set_ctx (mkContext (operations (ctx st)) (basic_blocks (ctx st) ++ [mkBasicBlock lab types []])) st) bb 0 ps)
    as (Hb & Hc & Hv); [|done|].
  { intros x Hx. simpl. apply eq_None_not_Some. rewrite Hdom. by apply Hnew. }
  fold bb. set (st1 := map_arguments _ bb 0 ps) in *. simpl. rewrite Hb, Hc. split; [done|].
  split; [split; [apply map_subseteq_spec; intros x v Hx; apply Hv; by left|intros j x Hj; apply Hv; right; eauto]|].
  split; [|done]. split; simpl in *.
  - intros x. rewrite elem_of_app, <-Hdom. split.
    + intros [v [Hx|(j & Hj & _)]%Hv]; [by left; eexists|right; by eapply list_elem_of_lookup_2].
    + intros [[v Hx]|[j Hj]%list_elem_of_lookup]; eexists; apply Hv; eauto.
  - intros x y v [Hx|(j & Hj & ->)]%Hv [Hy|(j' & Hj' & Hv')]%Hv.
    + by eapply Hinj.
    + subst v. apply Hbnd in Hx. simpl in Hx. lia.
    + apply Hbnd in Hy. simpl in Hy. lia.
    + assert (j = j') as <- by (inversion Hv'; lia). congruence.
  - rewrite Hc. simpl. rewrite length_app. simpl. intros x v [Hx|(j & _ & ->)]%Hv; [|subst bb; lia].
    apply Hbnd in Hx. destruct v; lia.
Qed.

Definition param_ids (lb : LoweredBlock) : list Z := (params lb).*1.

Lemma create_blocks_spec st e l D st' fresh :
  create_blocks identifier st e l = Ok (st', fresh) -> names_ok st D -> NoDup (id <$> l) -> (forall lb, lb ∈ l -> id lb <> e) ->
  NoDup (l ≫= param_ids) -> (forall x, x ∈ l ≫= param_ids -> x ∉ D) -> (forall b, block_inserted st b = []) ->
  let n := length (basic_blocks (ctx st)) in
  names_ok st' (D ++ l ≫= param_ids) /\ fresh = seq n (length l) /\ length (basic_blocks (ctx st')) = (n + length l)%nat /\
  (forall b, block_inserted st' b = []) /\
  (forall j lb, l !! j = Some lb -> blocks_ st' !! id lb = Some (n + j)%nat /\
     forall i x, param_ids lb !! i = Some x -> values st' !! x = Some (Argument (n + j) i)) /\
  values st ⊆ values st' /\
  (forall k, k ∉ id <$> l -> blocks_ st' !! k = blocks_ st !! k).
Proof.
  revert st D fresh. induction l as [|lb l IH]; intros st D fresh H Hn Hnd Hne Hps Hnew Hempty n; cbn [create_blocks] in H.
  { simplify_eq. rewrite app_nil_r. split_and!; try done; simpl; lia. }
  rewrite (proj2 (Z.eqb_neq _ _)) in H by (apply Hne; by left).
  apply bind_Ok_inv in H as (types & Ht & H). simpl in Hnd, Hps. apply NoDup_cons in Hnd as [Hnin Hnd].
  apply NoDup_app in Hps as (Hps1 & Hdisj & Hps).
  destruct (with_block_spec st (id lb) (block_label identifier (id lb)) types (params lb) D Hn Hps1) as (Hbb & [Hsub1 Harg1] & Hn1 & Hb1 & _ & Hbb1);
    [intros x Hx; apply Hnew; simpl; apply elem_of_app; by left|].
  destruct (with_block st (id lb) _ types (params lb)) as [bb st1]. simpl in Hbb, Hsub1, Harg1, Hn1, Hb1, Hbb1. subst bb.
  apply bind_Ok_inv in H as ([st2 rest] & H & [= <- <-]).
  destruct (IH st1 _ _ H Hn1 Hnd) as (Hn2 & -> & Hlen & Hemp2 & Hin & Hsub & Hout); try done.
  - intros lb' Hin. apply Hne. by right.
  - intros x Hx. rewrite not_elem_of_app. split; [|intros ?; by eapply Hdisj].
    apply Hnew. simpl. apply elem_of_app. by right.
  - intros b. unfold block_inserted. rewrite Hbb1.
    destruct (decide (b = n)) as [->|Hb]; [by rewrite lookup_app_r, Nat.sub_diag by lia|].
    destruct (decide (b < n)%nat); [rewrite lookup_app_l by done; apply Hempty|].
    rewrite lookup_app_r by (subst n; lia). by destruct (b - _)%nat eqn:E; [subst n; lia|].
  - rewrite Hbb1, length_app in Hlen |- *. simpl in *. split_and!.
    + by rewrite app_assoc.
    + rewrite Nat.add_1_r. done.
    + lia.
    + done.
    + intros [|j] lb' Hj; simplify_eq/=.
      * rewrite Hout by done. rewrite Hb1, lookup_insert_eq, Nat.add_0_r. split; [done|].
        intros i x Hi. eapply lookup_weaken; [|exact Hsub]. by apply Harg1.
      * destruct (Hin _ _ Hj) as [Hk Ha]. rewrite Hbb1, length_app in Hk, Ha. simpl in Hk, Ha.
        replace (n + S j)%nat with (length (basic_blocks (ctx st)) + 1 + j)%nat by (subst n; lia). done.
    + by etrans.
    + intros k [Hk Hk']%not_elem_of_cons. rewrite Hout by done. rewrite Hb1. by apply lookup_insert_ne.
Qed.

Lemma scoped_equiv D D' l : (forall x, x ∈ D <-> x ∈ D') -> scoped D l -> scoped D' l.
Proof.
  revert D D'. induction l as [|o l IH]; intros D D' Heq; simpl; [done|]. intros [Ho Hl]. split.
  - eapply Forall_impl; [exact Ho|]. intros x. by rewrite Heq.
  - destruct (op_result o); [|by eapply IH]. destruct Hl as [Hr Hl]. split; [by rewrite <-Heq|].
    eapply IH; [|exact Hl]. intros x. by rewrite !elem_of_cons, Heq.
Qed.

Definition empty_state : ConversionState := mkState ∅ ∅ (mkContext [] []).

Lemma names_empty : names_ok empty_state [].
Proof. split; simpl; intros; rewrite ?lookup_empty in *; try done. rewrite is_Some_alt, elem_of_nil. done. Qed.

(** The blocks of a lowered function, the entry apart. *)
Lemma ssa_split lf lb : ssa_form lf -> block lf (entry lf) = Some lb -> exists rest, blocks lf = lb :: rest /\ id lb = 0 /\
  (forall lb', lb' ∈ rest -> id lb' <> 0) /\ NoDup (id <$> blocks lf).
Proof.
  intros [Hids He Hp _ _] Hb. rewrite He in Hb.
  assert (NoDup (id <$> blocks lf)) as Hnd by (rewrite Hids; apply NoDup_seqZ).
  destruct (blocks lf) as [|e rest] eqn:Hbs; [unfold block in Hb; by rewrite Hbs in Hb|].
  assert (id e = 0) as Hid.
  { assert ((id <$> e :: rest) !! 0%nat = Some 0) as Hl; [rewrite Hids; apply lookup_seqZ; simpl; lia|]. simpl in Hl. congruence. }
  unfold block in Hb. rewrite Hbs in Hb. simpl in Hb. rewrite Hid in Hb. simpl in Hb. simplify_eq.
  exists rest. split_and!; try done. simpl in Hnd. apply NoDup_cons in Hnd as [Hnin _].
  intros lb' Hin Heq. apply Hnin. rewrite Hid, <-Heq. by apply list_elem_of_fmap_2.
Qed.

(** The state before the operations: every block made, every parameter named. *)
Record prepared (lf : LoweredFunction) (st : ConversionState) : Prop := {
  pr_names : names_ok st (blocks lf ≫= param_ids);
  pr_empty : forall b, block_inserted st b = [];
  pr_length : length (basic_blocks (ctx st)) = length (blocks lf);
  pr_blocks : forall j lb, blocks lf !! j = Some lb -> blocks_ st !! id lb = Some j;
  pr_args : forall j lb i x, blocks lf !! j = Some lb -> param_ids lb !! i = Some x -> values st !! x = Some (Argument j i);
  pr_only : forall k bb, blocks_ st !! k = Some bb -> exists lb, blocks lf !! bb = Some lb /\ id lb = k;
}.

Lemma prepare_spec lf lb types rest st fresh :
  ssa_form lf -> blocks lf = lb :: rest -> id lb = 0 -> (forall lb', lb' ∈ rest -> id lb' <> 0) -> NoDup (id <$> blocks lf) ->
  create_blocks identifier (with_block empty_state (id lb) (Some (bytes_of "entry")) types (params lb)).2 (entry lf) (blocks lf)
    = Ok (st, fresh) ->
  prepared lf st /\ fresh = seq 1 (length rest).
Proof.
  intros [_ He Hp _ _] Hbs Hid Hne Hnd H. rewrite Hbs in H, Hnd. rewrite Hbs in Hp.
  simpl in Hp, Hnd. apply NoDup_app in Hp as (Hp1 & Hdisj & Hps). apply NoDup_cons in Hnd as [Hnin Hnd].
  destruct (with_block_spec empty_state (id lb) (Some (bytes_of "entry")) types (params lb) [] names_empty Hp1)
    as (Hbb & [_ Harg] & Hn & Hb & _ & Hbbs); [intros x _; apply not_elem_of_nil|].
  set (st1 := (with_block _ _ _ _ _).2) in *. cbn [create_blocks] in H. rewrite He, Hid in H. simpl in H.
  destruct (create_blocks_spec st1 0 rest _ st fresh H Hn Hnd Hne Hps) as (Hn2 & -> & Hlen & Hemp & Hin & Hsub & Hout).
  - intros x Hx Hx'. by eapply Hdisj.
  - intros b. unfold block_inserted. rewrite Hbbs. by destruct b.
  - rewrite Hbbs in *. simpl in *. split; [|done]. split; rewrite ?Hbs; simpl; try done.
    + intros [|j] lb' Hj; simplify_eq/=; [|by apply Hin].
      rewrite Hid in Hnin. rewrite Hid, Hout by done. rewrite Hb, Hid. by rewrite lookup_insert_eq.
    + intros [|j] lb' i x Hj Hi; simplify_eq/=; [|by eapply Hin]. eapply lookup_weaken; [|exact Hsub]. by apply Harg.
    + intros k bb Hk. destruct (decide (k ∈ id <$> rest)) as [Hkr|Hkr].
      * apply list_elem_of_fmap in Hkr as (lb' & -> & [j Hj]%list_elem_of_lookup). destruct (Hin _ _ Hj) as [Hk' _].
        rewrite Hk in Hk'. simplify_eq/=. eauto.
      * rewrite Hout in Hk by done. rewrite Hb in Hk. simpl in Hk. apply lookup_insert_Some in Hk as [[<- <-]|[_ Hk]]; [|by rewrite lookup_empty in Hk].
        exists lb. done.
Qed.

Lemma prepared_emit lf st st' :
  ssa_form lf -> prepared lf st -> NoDup (id <$> blocks lf) -> emit_blocks identifier st (blocks lf) = Ok st' ->
  grows st st' /\ (exists D, names_ok st' D) /\
  forall j lb, blocks lf !! j = Some lb -> Forall2 (placed st') (ops lb) (block_inserted st' j).
Proof.
  intros Hssa [] Hnd H.
  destruct (emit_blocks_spec st (blocks lf) _ st' H pr_names0 (ssa_scoped _ Hssa)) as (Hg & Hn & _ & Hin); [| |done|].
  - intros lb bb _ Hbb. destruct (pr_only0 _ _ Hbb) as (lb' & Hlt%lookup_lt_Some & _). by rewrite pr_length0.
  - intros x y bb Hx Hy. apply pr_only0 in Hx as (lb1 & H1 & <-), Hy as (lb2 & H2 & <-). congruence.
  - split_and!; [done|eauto|]. intros j lb Hj. destruct (Hin lb) as (bb & Hbb & Hf); [by eapply list_elem_of_lookup_2|].
    rewrite (pr_blocks0 _ _ Hj) in Hbb. by simplify_eq.
Qed.

(** *** Errors *)

(** Nothing but a variant the converter does not know. *)
Definition only_unwired {A} (r : result PlironConversionError A) : Prop :=
  match r with Ok _ => True | Err (NotYetWired _) => True | Err _ => False end.

Lemma unwired_bind {A B} (m : result PlironConversionError A) (k : A -> result PlironConversionError B) :
  only_unwired m -> (forall a, m = Ok a -> only_unwired (k a)) -> only_unwired (m ≫= k).
Proof. destruct m as [a|[]]; simpl; auto. Qed.

Lemma unwired_type t : only_unwired (translate_type t).
Proof. by destruct t. Qed.

Lemma unwired_mapM {A B} (g : A -> result PlironConversionError B) l : (forall x, x ∈ l -> only_unwired (g x)) -> only_unwired (mapM g l).
Proof.
  induction l as [|x l IH]; intros H; simpl; [done|]. apply unwired_bind; [apply H; by left|]. intros y _.
  apply unwired_bind; [|done]. apply IH. intros z Hz. apply H. by right.
Qed.

Lemma mapM_Ok_length {E A B} (g : A -> result E B) l k : mapM g l = Ok k -> length k = length l.
Proof.
  revert k. induction l as [|x l IH]; intros k H; simpl in H; [by inversion H|].
  apply bind_Ok_inv in H as (y & _ & (k' & Hk & H)%bind_Ok_inv). inversion H; subst. simpl. f_equal. by apply IH.
Qed.

Lemma unwired_value st D x : names_ok st D -> x ∈ D -> only_unwired (get_value st x).
Proof. intros Hn Hx. apply (no_dom _ _ Hn) in Hx as [v Hv]. unfold get_value. by rewrite Hv. Qed.

Lemma unwired_block st x : is_Some (blocks_ st !! x) -> only_unwired (get_block st x).
Proof. intros [b Hb]. unfold get_block. by rewrite Hb. Qed.

Lemma emit_op_unwired st bb o D :
  names_ok st D -> Forall (fun x => x ∈ D) (op_operands o) -> Forall (fun t => is_Some (blocks_ st !! t)) (op_targets o) ->
  only_unwired (emit_op identifier st bb o).
Proof.
  intros Hn Ho Ht. rewrite Forall_forall in Ho, Ht.
  assert (forall x, x ∈ op_operands o -> only_unwired (get_value st x)) as Hv by (intros; eapply unwired_value; eauto).
  assert (forall t, t ∈ op_targets o -> only_unwired (get_block st t)) as Hb by (intros; by apply unwired_block, Ht).
  destruct o; simpl; try done; unfold emit_binary, emit_unary_cast; simpl in Hv, Hb;
    repeat first [apply unwired_bind; [|intros ? _]|apply unwired_type|apply unwired_mapM; intros ? ?|done];
    first [apply Hv|apply Hb]; set_solver.
Qed.

Lemma emit_ops_unwired st bb l D :
  names_ok st D -> (bb < length (basic_blocks (ctx st)))%nat -> scoped D l ->
  Forall (fun o => Forall (fun t => is_Some (blocks_ st !! t)) (op_targets o)) l -> only_unwired (emit_ops identifier st bb l).
Proof.
  revert st D. induction l as [|o l IH]; intros st D Hn Hbb Hs Ht; simpl; [done|]. simpl in Hs. destruct Hs as [Ho Hs].
  apply Forall_cons in Ht as [Hto Ht]. apply unwired_bind; [by eapply emit_op_unwired|]. intros st1 H1.
  apply emit_op_spec in H1 as (op & -> & Hm).
  destruct (append_spec st bb op D o Hn Hbb) as (Hg1 & Hn1 & _); [|done|].
  { intros r Hr. rewrite Hr in Hs. by destruct Hs. }
  eapply IH; [done|by rewrite (gr_bbs _ _ Hg1)| |by rewrite (gr_blocks _ _ Hg1)].
  unfold after. simpl. by destruct (op_result o); [destruct Hs|].
Qed.

Lemma emit_blocks_unwired st l D :
  names_ok st D -> scoped D (l ≫= ops) ->
  (forall lb, lb ∈ l -> exists bb, blocks_ st !! id lb = Some bb /\ (bb < length (basic_blocks (ctx st)))%nat) ->
  (forall lb, lb ∈ l -> Forall (fun o => Forall (fun t => is_Some (blocks_ st !! t)) (op_targets o)) (ops lb)) ->
  only_unwired (emit_blocks identifier st l).
Proof.
  revert st D. induction l as [|lb l IH]; intros st D Hn Hs Hbb Ht; simpl; [done|].
  apply scoped_app_inv in Hs as [Hs Hs']. destruct (Hbb lb) as (bb & Hb & Hlt); [by left|].
  unfold get_block at 1. rewrite Hb. simpl. apply unwired_bind; [eapply emit_ops_unwired; [done..|apply Ht; by left]|].
  intros st1 H1. destruct (emit_ops_spec _ _ _ _ _ H1 Hn Hlt Hs) as (ps & Hg & Hn1 & _).
  eapply IH; [done|done| |]; intros lb' Hin; rewrite (gr_blocks _ _ Hg), ?(gr_bbs _ _ Hg); [apply Hbb|apply Ht]; by right.
Qed.

Lemma create_blocks_unwired st e l : only_unwired (create_blocks identifier st e l).
Proof.
  revert st. induction l as [|lb l IH]; intros st; cbn [create_blocks]; [done|]. destruct (id lb =? e); [apply IH|].
  apply unwired_bind; [apply unwired_mapM; intros [? ?] _; apply unwired_type|]. intros types _.
  destruct (with_block _ _ _ _ _) as [bb st1]. apply unwired_bind; [apply IH|]. by intros [].
Qed.

(** The targets of a lowered block are blocks. *)
Lemma ssa_targets lf st j lb :
  ssa_form lf -> prepared lf st -> blocks lf !! j = Some lb ->
  Forall (fun o => Forall (fun t => is_Some (blocks_ st !! t)) (op_targets o)) (ops lb).
Proof.
  intros Hssa Hpr Hj. destruct (ssa_forward _ Hssa _ _ Hj) as (body & o & -> & Hbody & _ & Ht). apply Forall_app. split.
  - eapply Forall_impl; [exact Hbody|]. intros [] ?; try done; constructor.
  - constructor; [|constructor]. eapply Forall_impl; [exact Ht|]. intros t [Hlo Hhi].
    assert (is_Some (blocks lf !! Z.to_nat t)) as [lb' Hlb'] by (apply lookup_lt_is_Some; lia).
    exists (Z.to_nat t). rewrite <-(pr_blocks _ _ Hpr _ _ Hlb'). f_equal.
    assert ((id <$> blocks lf) !! Z.to_nat t = Some t) as Hid; [rewrite (ssa_blocks _ Hssa); apply lookup_seqZ; lia|].
    rewrite list_lookup_fmap, Hlb' in Hid. simpl in Hid. congruence.
Qed.

Lemma conversion_unwired lf lb :
  ssa_form lf -> block lf (entry lf) = Some lb -> (length (params lb) <= length (sig_params (signature lf)))%nat ->
  identifier (name lf) = true -> only_unwired (lowered_function_to_pliron identifier (mkContext [] []) lf).
Proof.
  intros Hssa Hb Hlen Hname. destruct (ssa_split _ _ Hssa Hb) as (rest & Hbs & Hid & Hne & Hnd).
  unfold lowered_function_to_pliron. apply unwired_bind; [apply unwired_mapM; intros; apply unwired_type|]. intros ptypes Hpt.
  apply unwired_bind; [apply unwired_mapM; intros; apply unwired_type|]. intros rtypes _. rewrite Hname, Hb. cbn [negb ok_or].
  change (Ok lb ≫= ?k) with (k lb). cbv beta. fold empty_state.
  pose proof (with_block_spec empty_state (id lb) (Some (bytes_of "entry")) ptypes (params lb) [] names_empty) as Hw.
  pose proof (prepare_spec lf lb ptypes rest) as Hprep.
  destruct (with_block _ _ _ ptypes (params lb)) as [bb st0].
  destruct Hw as (Hbb & _ & _ & _ & _ & Hbbs);
    [pose proof (ssa_params _ Hssa) as Hp; rewrite Hbs in Hp; by apply NoDup_app in Hp as [? _]|set_solver|].
  simpl in Hbb, Hbbs. subst bb. assert (num_arguments (ctx st0) 0 = length ptypes) as Hargs by (unfold num_arguments; by rewrite Hbbs).
  simpl in Hargs |- *. rewrite Hargs. rewrite (proj2 (Nat.ltb_ge _ _)) by (rewrite (mapM_Ok_length _ _ _ Hpt); lia).
  apply unwired_bind; [apply create_blocks_unwired|]. intros [st1 fresh] Hc.
  destruct (Hprep st1 fresh Hssa Hbs Hid Hne Hnd Hc) as [Hpr ->]. apply unwired_bind; [|done].
  eapply emit_blocks_unwired; [apply Hpr|apply Hssa| |]; intros lb' [j Hj]%list_elem_of_lookup; [|by eapply ssa_targets].
  exists j. split; [by apply (pr_blocks _ _ Hpr)|]. rewrite (pr_length _ _ Hpr). by eapply lookup_lt_Some.
Qed.
End facts.

(** C30: the pliron graph of an SSA function is that function under a renaming:
    values have distinct names, parameters are the arguments of their block,
    and block by block, in order, every operation is there with its name, its
    operands, its targets and its result. *)
Theorem pliron_mirrors_function identifier lf g st :
  ssa_form lf -> lowered_function_to_pliron identifier (mkContext [] []) lf = Ok (g, st) ->
  region g = seq 0 (length (blocks lf)) /\
  (forall x y v, values st !! x = Some v -> values st !! y = Some v -> x = y) /\
  forall j lb, blocks lf !! j = Some lb ->
    blocks_ st !! id lb = Some j /\
    (forall i x, param_ids lb !! i = Some x -> values st !! x = Some (Argument j i)) /\
    Forall2 (placed st) (ops lb) (block_inserted st j).
Proof.
  intros Hssa H. unfold lowered_function_to_pliron in H.
  apply bind_Ok_inv in H as (ptypes & _ & (rtypes & _ & H)%bind_Ok_inv). destruct (negb _); [done|].
  apply bind_Ok_inv in H as (lb & Hb & H). destruct (block lf (entry lf)) as [lb'|] eqn:Hb'; [|done]. injection Hb as ->.
  destruct (ssa_split _ _ Hssa Hb') as (rest & Hbs & Hid & Hne & Hnd). fold empty_state in H.
  pose proof (with_block_spec empty_state (id lb) (Some (bytes_of "entry")) ptypes (params lb) [] names_empty) as Hw.
  pose proof (prepare_spec identifier lf lb ptypes rest) as Hprep.
  destruct (with_block _ _ _ ptypes (params lb)) as [bb st0]. destruct (_ <? _)%nat; [done|].
  apply bind_Ok_inv in H as ([st1 fresh] & Hc & (st2 & He & [= <- <-])%bind_Ok_inv).
  destruct (Hprep st1 fresh Hssa Hbs Hid Hne Hnd Hc) as [Hpr ->].
  destruct Hw as (Hbb & _); [pose proof (ssa_params _ Hssa) as Hp; rewrite Hbs in Hp; by apply NoDup_app in Hp as [? _]|set_solver|].
  destruct (prepared_emit identifier lf st1 st2 Hssa Hpr Hnd He) as (Hg & (D & [_ Hinj _]) & Hf).
  split; [by rewrite Hbs; simpl in *; subst bb|]. split; [done|]. intros j lb' Hj. split_and!.
  - rewrite (gr_blocks _ _ Hg). by apply (pr_blocks _ _ Hpr).
  - intros i x Hx. eapply lookup_weaken; [by eapply (pr_args _ _ Hpr)|apply Hg].
  - by apply Hf.
Qed.

Lemma lower_abi_params_length kind idx ps ts : Signature.lower_abi_params kind idx ps = Ok ts -> length ts = length ps.
Proof.
  revert idx ts. induction ps as [|p ps IH]; intros idx ts H; simpl in H; [by simplify_eq|].
  apply bind_Ok_inv in H as (t & _ & (ts' & H & [= <-])%bind_Ok_inv). simpl. by rewrite (IH _ _ H).
Qed.

Lemma lowered_signature_length f lf :
  Driver.lower_function f = Ok lf -> length (sig_params (signature lf)) = length (Clif.sig_params (Clif.signature f)).
Proof.
  unfold Driver.lower_function. destruct (Signature.lower_signature _) as [sg|] eqn:Hsig; [|done]. intros H.
  destruct (RejectList.check_function f); [done|]. destruct ((Driver.lower_body f Builder.new).1) as [[]|]; simplify_eq/=.
  unfold Signature.lower_signature in Hsig. destruct (negb _); [done|].
  apply bind_Ok_inv in Hsig as (ps & Hps & (rs & _ & [= <-])%bind_Ok_inv). by apply lower_abi_params_length in Hps.
Qed.

(** a function the lowering made is converted, unless it uses a variant the
    converter documents as not wired: the conversion never meets an undefined
    value, an undefined block or a missing argument. *)
Theorem lowered_functions_convert identifier f lf :
  well_formed f -> Driver.lower_function f = Ok lf -> identifier (name lf) = true ->
  (forall cb, head (Clif.layout f) = Some cb -> length (Clif.block_params cb) = length (Clif.sig_params (Clif.signature f))) ->
  only_unwired (lowered_function_to_pliron identifier (mkContext [] []) lf).
Proof.
  intros Hwf Hlow Hname Hparams. destruct (lower_function_inv f lf Hwf Hlow) as (seeded & b0 & bF & H).
  destruct (Clif.layout f) as [|cb cbs] eqn:Hlay; [by destruct (lw_nonempty _ _ _ _ _ H)|].
  destruct (lowering_blocks f lf Hwf seeded b0 bF H) as (_ & _ & _ & _ & Hat).
  destruct (Hat 0%nat cb) as (lb & b1 & b2 & Hblk); [by rewrite Hlay|].
  pose proof Hblk as [Hlb [_ (seeds & Hseed & Hps & _) _] _ _ _ _ _ _ _ _].
  eapply (conversion_unwired identifier lf lb); [by eapply lowered_ssa| | |done].
  - rewrite (lw_entry _ _ _ _ _ H). by eapply (block_found f lf Hwf seeded b0 bF H 0).
  - rewrite (lowered_signature_length f lf Hlow), <-(Hparams cb eq_refl).
    destruct (lw_seeds _ _ _ _ _ H cb) as (l & Hl & Hl2 & _); [rewrite Hlay; by left|]. simplify_eq.
    by rewrite <-Hl2, <-(length_fmap fst (params lb)), Hps, !length_fmap.
Qed.
End ConvertFacts.

(** ** The conversion of [mix], and what the rewriting loses *)
Module PlironExamples.
Import LoweredIr Arena.

(** Letters, digits and underscores, a letter or an underscore first, and the
    dots of dialect names. *)
Definition word (b : u8) : bool :=
  let z := u8_to_Z b in
  ((97 <=? z) && (z <=? 122)) || ((65 <=? z) && (z <=? 90)) || (z =? 95) || ((48 <=? z) && (z <=? 57)) || (z =? 46).

Definition identifier (s : str) : bool :=
  match s with [] => false | b :: _ => word b && negb ((48 <=? u8_to_Z b) && (u8_to_Z b <=? 57)) && forallb word s end.

Lemma mix_ssa : ssa_form Mix.lowered_mix.
Proof.
  destruct (lower_function_inv _ _ Mix.mix_well_formed Mix.mix_lowers) as (seeded & b0 & bF & H).
  exact (lowered_ssa _ _ Mix.mix_well_formed _ _ _ H).
Qed.

Lemma mix_converts :
  exists g st, Convert.lowered_function_to_pliron identifier (mkContext [] []) Mix.lowered_mix = Ok (g, st).
Proof.
  assert (is_ok (Convert.lowered_function_to_pliron identifier (mkContext [] []) Mix.lowered_mix) = true) as H
    by (vm_compute; reflexivity).
  destruct (Convert.lowered_function_to_pliron _ _ _) as [[g st]|e]; [by eauto|done].
Qed.

Lemma mix_shape :
  length (blocks Mix.lowered_mix) = 4%nat /\ identifier (name Mix.lowered_mix) = true /\
  exists lb, blocks Mix.lowered_mix !! 0%nat = Some lb /\ length (ops lb) = 5%nat.
Proof. vm_compute. eauto. Qed.
End PlironExamples.

Lemma pliron_mirrors_function_witness :
  exists g st, Arena.region g = seq 0 4 /\ length (ConvertFacts.block_inserted st 0) = 5%nat.
Proof.
  destruct PlironExamples.mix_converts as (g & st & H). exists g, st.
  destruct PlironExamples.mix_shape as (Hlen & _ & lb & Hlb & Hops).
  destruct (ConvertFacts.pliron_mirrors_function _ _ _ _ PlironExamples.mix_ssa H) as (Hr & _ & Hb).
  split; [by rewrite Hr, Hlen|]. destruct (Hb 0%nat lb Hlb) as (_ & _ & Hf). by rewrite <-(Forall2_length _ _ _ Hf).
Defined.

Lemma lowered_functions_convert_witness :
  ConvertFacts.only_unwired
    (Convert.lowered_function_to_pliron PlironExamples.identifier (Arena.mkContext [] []) Mix.lowered_mix).
Proof.
  apply (ConvertFacts.lowered_functions_convert PlironExamples.identifier Mix.mix Mix.lowered_mix
    Mix.mix_well_formed Mix.mix_lowers).
  - apply PlironExamples.mix_shape.
  - intros cb H. injection H as <-. reflexivity.
Defined.

Module RewriteWrong.
Import LoweredIr Arena PlironExamples.

(** The operations of the entry block after both stages. *)
Definition entry_after (f : LoweredFunction) : option (list Operation) :=
  match Convert.lowered_function_to_pliron identifier (mkContext [] []) f with
  | Ok (g, st) =>
      match Rewrite.twasm_to_llvm_dialect (Convert.ctx st) g with
      | Ok (g', c) => bb ← head (region g'); Some (ops_in_block c bb)
      | Err _ => None
      end
  | Err _ => None
  end.

(** [fn(a, b) { a + b }]. *)
Definition add : LoweredFunction :=
  LoweredIr.mkFunction (bytes_of "add") (LoweredIr.mkSignature [I32; I32] [I32])
    [ LoweredIr.mkBlock 0 [(0, I32); (1, I32)] [AddI I32 0 1 2; Return [2]] ] 0.

(** The addition is created and its result returned, but it is in no block. *)
Lemma arithmetic_not_inserted : entry_after add = Some [mkOperation "llvm.return" [] [Result 2 0] [] []].
Proof. by vm_compute. Qed.

(** [fn(p) { *(p + off) }]. *)
Definition load_at (off : Z) : LoweredFunction :=
  LoweredIr.mkFunction (bytes_of "load") (LoweredIr.mkSignature [Ptr] [I32])
    [ LoweredIr.mkBlock 0 [(0, Ptr)] [Load I32 0 off 1; Return [1]] ] 0.

(** The offset of a load is not there after the rewriting. *)
Lemma offset_dropped : is_Some (entry_after (load_at 16)) /\ entry_after (load_at 16) = entry_after (load_at 0).
Proof. vm_compute. eauto. Qed.
End RewriteWrong.
