(* ===== verification/Host.v ===== *)
(** * [tensor-wasm-wasi-gpu/src/host.rs]: the GPU host functions

    The nine functions a guest may import.  [Caller] is the state one call sees:
    the instance's [WasiCudaContext], the guest's exported memory, the
    process-wide device-memory budget of [DeviceMem] and the driver.  The CUDA
    driver is a parameter; without the [cuda] feature there is none.  The
    device pointers and modules that CUDA builds keep inside registry entries
    are tables keyed by the entries' handles.  An acquisition of a dispatch
    permit, which [WasiGpu] models, is an input of [launch]. *)

From S2P Require Import Prelude Core Text Ir KernelArgs JitDispatch DeviceMem WasiGpu.

Module Host.
Import KernelArgs.
Definition MAX_RECORDED_ERROR_BYTES : nat := 512.
Definition MAX_ENTRY_NAME_BYTES : Z := 256.
Definition MAX_DYNAMIC_SHARED_MEM_BYTES : Z := 228 * 1024.
Definition MAX_THREADS_PER_BLOCK : Z := 1024.
Definition MAX_BLOCK_DIM : Z := 1024.
Definition MAX_GRID_DIM : Z := i32_max.

Definition error_name (e : AbiError) : string :=
  match e with
  | NotAvailable => "not_available" | InvalidPointer => "invalid_pointer" | InvalidKernel => "invalid_kernel"
  | MalformedPtx => "malformed_ptx" | LaunchFailed => "launch_failed" | QuotaExceeded => "quota_exceeded"
  | Internal => "internal" | InvalidDimensions => "invalid_dimensions" | InvalidArgs => "invalid_args"
  | KernelArgsUnsupported => "kernel_args_unsupported" | InvalidHandle => "invalid_handle"
  end.

Record LaunchDims := mkDims { grid_x : Z; grid_y : Z; grid_z : Z; block_x : Z; block_y : Z; block_z : Z; shared_mem : Z }.

(** The driver calls; an error carries the text the code prints.  [cuMemcpyDtoH]
    gets the host buffer and returns what it holds afterwards, which an error
    leaves unspecified; [cuPointerGetAttribute] returns whether it succeeded,
    its printed status and [is_managed].  [device_writes] is what the device's
    kernels have made of the host memory at an address: a guest's linear memory
    is managed memory on CUDA builds, and a kernel writes it in place. *)
Record Driver (D : Type) := mkDriver {
  cuInit : D -> result str () * D;
  cuDeviceGet : Z -> D -> result str Z * D;
  cuDevicePrimaryCtxRetain : Z -> D -> result str Z * D;
  cuCtxSetCurrent : Z -> D -> result str () * D;
  cuMemAlloc : Z -> D -> result str Z * D;
  cuMemFree : Z -> D -> result str () * D;
  cuMemcpyHtoD : Z -> list u8 -> D -> result str () * D;
  cuMemcpyDtoH : Z -> list u8 -> D -> result str () * list u8 * D;
  module_from_ptx : str -> D -> result str Z * D;
  get_function : Z -> str -> D -> result str Z * D;
  stream_new : D -> result str Z * D;
  cuPointerGetAttribute : Z -> D -> bool * str * Z * D;
  cuLaunchKernel : Z -> LaunchDims -> Z -> KernelParamStorage -> D -> result str () * D;
  event_new : D -> result str Z * D;
  event_record : Z -> Z -> D -> result str () * D;
  stream_synchronize : Z -> D -> result str () * D;
  context_synchronize : D -> result str () * D;
  device_writes : Z -> list u8 -> D -> list u8;
}.
Arguments cuInit {D}. Arguments cuDeviceGet {D}. Arguments cuDevicePrimaryCtxRetain {D}. Arguments cuCtxSetCurrent {D}.
Arguments cuMemAlloc {D}. Arguments cuMemFree {D}. Arguments cuMemcpyHtoD {D}.
Arguments cuMemcpyDtoH {D}. Arguments module_from_ptx {D}. Arguments get_function {D}. Arguments stream_new {D}.
Arguments cuPointerGetAttribute {D}. Arguments cuLaunchKernel {D}. Arguments event_new {D}. Arguments event_record {D}.
Arguments stream_synchronize {D}. Arguments context_synchronize {D}. Arguments device_writes {D}.

Record WasiCudaContext := mkCuda {
  instance_id : Z;
  registry : KernelRegistry.KernelRegistry;
  last_error : option str;
  last_lowered_args : list LoweredArg;
  wasi_cuda_enabled : bool;
  bp_deadline : option Z;
  device_mem : nat;
  kernels_launched : Z;
  back_pressure_rejections : Z;
}.

Section host.
Context {D : Type} (feature : option (Driver D)) (param_base : Z).

Record Caller := mkCaller {
  cx : WasiCudaContext;
  memory : option Memory.t;
  base : Z;
  shared : DeviceMem.Shared;
  device_ptrs : gmap Z Z;
  modules : gmap Z Z;
  primary_ctx : option (result str Z);
  driver : D;
}.

Abbreviation M := (stM Caller AbiError).

Definition set_cx (c : WasiCudaContext) (h : Caller) : Caller :=
  mkCaller c (memory h) (base h) (shared h) (device_ptrs h) (modules h) (primary_ctx h) (driver h).
Definition set_memory (m : option Memory.t) (h : Caller) : Caller :=
  mkCaller (cx h) m (base h) (shared h) (device_ptrs h) (modules h) (primary_ctx h) (driver h).
Definition set_shared (s : DeviceMem.Shared) (h : Caller) : Caller :=
  mkCaller (cx h) (memory h) (base h) s (device_ptrs h) (modules h) (primary_ctx h) (driver h).
Definition set_tables (ptrs mods : gmap Z Z) (h : Caller) : Caller :=
  mkCaller (cx h) (memory h) (base h) (shared h) ptrs mods (primary_ctx h) (driver h).
Definition set_driver (d : D) (h : Caller) : Caller :=
  mkCaller (cx h) (memory h) (base h) (shared h) (device_ptrs h) (modules h) (primary_ctx h) d.
Definition set_primary_ctx (r : result str Z) (h : Caller) : Caller :=
  mkCaller (cx h) (memory h) (base h) (shared h) (device_ptrs h) (modules h) (Some r) (driver h).

(** ** The context *)
Definition set_last_error (e : option str) (c : WasiCudaContext) : WasiCudaContext :=
  mkCuda (instance_id c) (registry c) e (last_lowered_args c) (wasi_cuda_enabled c) (bp_deadline c) (device_mem c)
    (kernels_launched c) (back_pressure_rejections c).
Definition set_enabled (b : bool) (c : WasiCudaContext) : WasiCudaContext :=
  mkCuda (instance_id c) (registry c) (last_error c) (last_lowered_args c) b (bp_deadline c) (device_mem c)
    (kernels_launched c) (back_pressure_rejections c).
Definition set_registry (r : KernelRegistry.KernelRegistry) (c : WasiCudaContext) : WasiCudaContext :=
  mkCuda (instance_id c) r (last_error c) (last_lowered_args c) (wasi_cuda_enabled c) (bp_deadline c) (device_mem c)
    (kernels_launched c) (back_pressure_rejections c).
Definition set_args (a : list LoweredArg) (c : WasiCudaContext) : WasiCudaContext :=
  mkCuda (instance_id c) (registry c) (last_error c) a (wasi_cuda_enabled c) (bp_deadline c) (device_mem c)
    (kernels_launched c) (back_pressure_rejections c).
Definition set_bp_deadline (d : option Z) (c : WasiCudaContext) : WasiCudaContext :=
  mkCuda (instance_id c) (registry c) (last_error c) (last_lowered_args c) (wasi_cuda_enabled c) d (device_mem c)
    (kernels_launched c) (back_pressure_rejections c).

Definition new (instance_id raw_seed : Z) (device_mem : nat) : WasiCudaContext :=
  mkCuda instance_id (KernelRegistry.new raw_seed) None [] false None device_mem 0 0.

Definition enable_wasi_cuda (c : WasiCudaContext) : WasiCudaContext := set_enabled true c.
Definition disable_wasi_cuda (c : WasiCudaContext) : WasiCudaContext := set_last_error None (set_enabled false c).

(** The counters wrap, as atomic additions do. *)
Definition record_kernel_launched (c : WasiCudaContext) : WasiCudaContext :=
  mkCuda (instance_id c) (registry c) (last_error c) (last_lowered_args c) (wasi_cuda_enabled c) (bp_deadline c)
    (device_mem c) (as_u64 (kernels_launched c + 1)) (back_pressure_rejections c).
Definition record_back_pressure_rejection (c : WasiCudaContext) : WasiCudaContext :=
  mkCuda (instance_id c) (registry c) (last_error c) (last_lowered_args c) (wasi_cuda_enabled c) (bp_deadline c)
    (device_mem c) (kernels_launched c) (as_u64 (back_pressure_rejections c + 1)).

Record InstanceMetricsSnapshot := mkSnapshot {
  snap_kernels_launched : Z; bytes_pinned : Z; snap_rejections : Z; yield_count : Z; device_bytes_allocated : Z }.

Definition metrics_snapshot (h : Caller) : InstanceMetricsSnapshot :=
  mkSnapshot (kernels_launched (cx h)) (KernelRegistry.total_ptx_bytes (registry (cx h)))
    (back_pressure_rejections (cx h)) 0
    (DeviceMem.total_device_bytes (DeviceMem.get_registry (shared h) (device_mem (cx h)))).

(** ** Errors *)
Definition modify (f : Caller -> Caller) : M () := fun h => (Ok (), f h).
Definition on_cx (f : WasiCudaContext -> WasiCudaContext) : M () := modify (fun h => set_cx (f (cx h)) h).

Definition record_error (msg : str) : M () :=
  on_cx (set_last_error (Some (Utf8.truncate_chars MAX_RECORDED_ERROR_BYTES msg))).

Definition bail {A} (msg : str) (e : AbiError) : M A := record_error msg ≫= fun _ => fail e.

(** A driver call, with what the code makes of its error. *)
Definition drive {A} (call : D -> result str A * D) (handler : str -> M A) : M A := fun h =>
  match call (driver h) with
  | (Ok a, d) => (Ok a, set_driver d h)
  | (Err e, d) => handler e (set_driver d h)
  end.

(** The guest's memory as the device's kernels left it.  Their writes become
    visible with the launch, with the wait for its stream and with the
    synchronisation of the context. *)
Definition kernel_wrote (drv : Driver D) (base : Z) (d : D) (m : Memory.t) : Memory.t :=
  Memory.mk (device_writes drv base (Memory.data m) d) (Memory.max_pages m).

Definition kernels_write (drv : Driver D) (h : Caller) : Caller :=
  set_memory (kernel_wrote drv (base h) (driver h) <$> memory h) h.

(** [drive], for a call during which kernels run. *)
Definition drive_kernels {A} (drv : Driver D) (call : D -> result str A * D) (handler : str -> M A) : M A := fun h =>
  match call (driver h) with
  | (Ok a, d) => (Ok a, kernels_write drv (set_driver d h))
  | (Err e, d) => handler e (kernels_write drv (set_driver d h))
  end.

(** *** [cuda_ctx.rs]: device 0's primary context

    The process retains it once, in a [OnceLock], and again on every call. *)
Definition call {A} (f : D -> result str A * D) (msg : str -> str) : stM Caller str A := fun h =>
  match f (driver h) with
  | (Ok a, d) => (Ok a, set_driver d h)
  | (Err e, d) => (Err (msg e), set_driver d h)
  end.

Definition retain (drv : Driver D) (init_failed : str -> str) : stM Caller str Z :=
  call (cuInit drv) init_failed ≫= fun _ =>
  dev ← call (cuDeviceGet drv 0) (fun r => bytes_of "cuDeviceGet(0) -> " ++ r);
  call (cuDevicePrimaryCtxRetain drv dev) (fun r => bytes_of "cuDevicePrimaryCtxRetain -> " ++ r).

Definition retain_primary_ctx (drv : Driver D) : stM Caller str Z := retain drv (fun r => bytes_of "cuInit -> " ++ r).

Definition get_or_init (drv : Driver D) : stM Caller str Z := fun h =>
  match primary_ctx h with
  | Some r => (r, h)
  | None => let '(r, h) := retain_primary_ctx drv h in (r, set_primary_ctx r h)
  end.

Definition ensure_current_context (drv : Driver D) : stM Caller str () :=
  get_or_init drv ≫= fun _ =>
  ctx ← retain drv (fun _ => bytes_of "cuInit failed");
  call (cuCtxSetCurrent drv ctx) (fun r => bytes_of "cuCtxSetCurrent -> " ++ r).

(** [ensure_current_context] at the start of a driver section. *)
Definition bind_context (drv : Driver D) (name : string) (e : AbiError) : M () := fun h =>
  match ensure_current_context drv h with
  | (Ok _, h) => (Ok (), h)
  | (Err msg, h) => bail (bytes_of name ++ bytes_of "CUDA context bind failed: " ++ msg) e h
  end.

(** ** Guest memory *)
Definition mem_len (m : Memory.t) : Z := Memory.len m.

Definition exported (e : M Memory.t) : M Memory.t := fun h =>
  match memory h with Some m => (Ok m, h) | None => e h end.

Definition read_bytes (ptr len : Z) : M (list u8) :=
  if (len <? 0) || (ptr <? 0) then fail InvalidPointer
  else
    m ← exported (fail InvalidPointer);
    end_ ← lift (ok_or InvalidPointer (checked_add usize_max ptr len));
    if mem_len m <? end_ then fail InvalidPointer
    else mret (slice (Z.to_nat ptr) (Z.to_nat end_) (Memory.data m)).

Definition join_u64 (lo hi : Z) : Z := Z.lor (Z.shiftl (as_u32 hi) 32) (as_u32 lo).

Definition checked_nonneg_len (len : Z) : result AbiError Z := if len <? 0 then Err InvalidPointer else Ok (as_u32 len).

Definition checked_guest_region (ptr len : Z) : M (Z * Z) :=
  m ← exported (fail InvalidPointer);
  let start := as_u32 ptr in
  end_ ← lift (ok_or InvalidPointer (checked_add usize_max start len));
  if mem_len m <? end_ then fail InvalidPointer else mret (start, end_).

(** [match r { Ok(v) => v, Err(e) => { record_error(..); return Err(e) } }] *)
Definition or_record {A} (m : M A) (msg : AbiError -> str) : M A := fun h =>
  match m h with
  | (Ok a, h) => (Ok a, h)
  | (Err e, h) => bail (msg e) e h
  end.

(** ** Device memory *)
Definition insert_entry (e : DeviceMem.DeviceMemEntry) : M Z := fun h =>
  match DeviceMem.alone 8 (shared h) (DeviceMem.InsertLen (device_mem (cx h)) e) with
  | (sh, DeviceMem.Inserted r) => (r, set_shared sh h)
  | (sh, _) => (Err Internal, set_shared sh h)
  end.

Definition free_entry (handle : Z) : M DeviceMem.DeviceMemEntry := fun h =>
  match DeviceMem.alone 8 (shared h) (DeviceMem.FreeGet (device_mem (cx h)) handle (instance_id (cx h))) with
  | (sh, DeviceMem.Freed r) => (r, set_shared sh h)
  | (sh, _) => (Err Internal, set_shared sh h)
  end.

Definition lookup_entry (handle : Z) : M DeviceMem.DeviceMemEntry := fun h =>
  (DeviceMem.lookup (shared h) (device_mem (cx h)) handle (instance_id (cx h)), h).

(** The driver's memory is released again when the registry refuses it. *)
Definition publish (drv : Driver D) (entry : DeviceMem.DeviceMemEntry) (ptr : Z) : M Z := fun h =>
  match insert_entry entry h with
  | (Ok handle, h) => (Ok handle, set_tables (<[handle := ptr]> (device_ptrs h)) (modules h) h)
  | (Err e, h) => (Err e, set_driver (cuMemFree drv ptr (driver h)).2 h)
  end.

Definition alloc_impl (size : Z) : M Z :=
  if size =? 0 then bail (bytes_of "alloc: size must be > 0") InvalidArgs
  else if DeviceMem.MAX_DEVICE_ALLOC_BYTES <? size
  then bail (bytes_of "alloc: size " ++ dec size ++ bytes_of " exceeds MAX_DEVICE_ALLOC_BYTES " ++
             dec DeviceMem.MAX_DEVICE_ALLOC_BYTES) QuotaExceeded
  else
    h ← get_state;
    let entry := DeviceMem.mkEntry (instance_id (cx h)) size in
    match feature with
    | None =>
        insert_entry entry ≫= fun _ =>
        bail (bytes_of "alloc: CUDA not available on this host (requested " ++ dec size ++
              bytes_of " bytes; handle tracked in registry)") NotAvailable
    | Some drv =>
        bind_context drv "alloc: " LaunchFailed ≫= fun _ =>
        ptr ← drive (cuMemAlloc drv size)
                (fun e => bail (bytes_of "alloc: cuMemAlloc failed with status " ++ e) LaunchFailed);
        publish drv entry ptr
    end.

(** A failed release is recorded, and still a success to the guest. *)
Definition release (drv : Driver D) (ptr : Z) : M () := fun h =>
  match ensure_current_context drv h with
  | (Err e, h) => record_error (bytes_of "free: CUDA context bind failed: " ++ e) h
  | (Ok _, h) =>
      match cuMemFree drv ptr (driver h) with
      | (Err e, d) => record_error (bytes_of "free: cuMemFree failed with status " ++ e) (set_driver d h)
      | (Ok _, d) => (Ok (), set_driver d h)
      end
  end.

Definition free_impl (handle : Z) : M () :=
  h0 ← get_state;
  _ ← or_record (free_entry handle)
        (fun e => bytes_of "free: handle " ++ dec handle ++ bytes_of " " ++ bytes_of (error_name e));
  match feature with
  | None => mret ()
  | Some drv =>
      modify (fun h => set_tables (delete handle (device_ptrs h)) (modules h) h) ≫= fun _ =>
      release drv (default 0 (device_ptrs h0 !! handle))
  end.

(** The checks both copies share: the entry, and the guest region. *)
Definition copy_checks (name side : string) (handle ptr len : Z) : M (DeviceMem.DeviceMemEntry * (Z * Z)) :=
  len_u32 ← or_record (lift (checked_nonneg_len len))
              (fun _ => bytes_of name ++ bytes_of ": negative len (" ++ signed_dec len ++ bytes_of ")");
  dev ← or_record (lookup_entry handle)
          (fun e => bytes_of name ++ bytes_of ": handle " ++ dec handle ++ bytes_of " " ++ bytes_of (error_name e));
  if DeviceMem.size dev <? len_u32
  then bail (bytes_of name ++ bytes_of ": len " ++ dec len_u32 ++ bytes_of " exceeds device buffer size " ++
             dec (DeviceMem.size dev)) InvalidArgs
  else
    region ← or_record (checked_guest_region ptr len_u32)
               (fun _ => bytes_of name ++ bytes_of ": " ++ bytes_of side ++ bytes_of " region [" ++ signed_dec ptr ++
                         bytes_of ", +" ++ dec len_u32 ++ bytes_of ") out of bounds");
    mret (dev, region).

Definition device_ptr (handle : Z) (h : Caller) : Z := default 0 (device_ptrs h !! handle).

Definition memcpy_h2d_impl (handle src_ptr len : Z) : M () :=
  '(_, (start, end_)) ← copy_checks "memcpy_h2d" "source" handle src_ptr len;
  match feature with
  | None => bail (bytes_of "memcpy_h2d: CUDA not available on this host") NotAvailable
  | Some drv =>
      bind_context drv "memcpy_h2d: " LaunchFailed ≫= fun _ =>
      m ← exported (fail InvalidPointer);
      h ← get_state;
      drive (cuMemcpyHtoD drv (device_ptr handle h) (slice (Z.to_nat start) (Z.to_nat end_) (Memory.data m)))
        (fun e => bail (bytes_of "memcpy_h2d: cuMemcpyHtoD failed: " ++ e) LaunchFailed)
  end.

(** The driver fills [start..end_] of the guest's memory. *)
Definition copy_out (drv : Driver D) (ptr start end_ : Z) (m : Memory.t) : M () := fun h =>
  let '(r, buf, d) := cuMemcpyDtoH drv ptr (slice (Z.to_nat start) (Z.to_nat end_) (Memory.data m)) (driver h) in
  let h := set_driver d (set_memory (Memory.write m start buf) h) in
  match r with
  | Ok _ => (Ok (), h)
  | Err e => bail (bytes_of "memcpy_d2h: cuMemcpyDtoH failed: " ++ e) LaunchFailed h
  end.

Definition memcpy_d2h_impl (dst_ptr handle len : Z) : M () :=
  '(_, (start, end_)) ← copy_checks "memcpy_d2h" "dest" handle dst_ptr len;
  match feature with
  | None => bail (bytes_of "memcpy_d2h: CUDA not available on this host") NotAvailable
  | Some drv =>
      bind_context drv "memcpy_d2h: " LaunchFailed ≫= fun _ =>
      m ← exported (fail InvalidPointer);
      h ← get_state;
      copy_out drv (device_ptr handle h) start end_ m
  end.

(** ** Kernels *)
Definition register (entry : str) (ptx : list u8) (module : option Z) : M Z := fun h =>
  let e := KernelRegistry.mkKernelEntry (instance_id (cx h)) entry (Z.of_nat (length ptx)) in
  let '(r, reg) := KernelRegistry.register (registry (cx h)) e in
  let h := set_cx (set_registry reg (cx h)) h in
  match r with
  | Ok id => (Ok id, set_tables (device_ptrs h) (match module with Some m => <[id := m]> (modules h) | None => modules h end) h)
  | Err e => (Err e, h)
  end.

Fixpoint require_directives (ptx : str) (ds : list string) : M () :=
  match ds with
  | [] => mret ()
  | d :: ds =>
      if contains_str (bytes_of d) ptx then require_directives ptx ds
      else bail (bytes_of "load_ptx: PTX missing required directive " ++ bytes_of d) MalformedPtx
  end.

Definition not_utf8 {A} : M A := bail (bytes_of "load_ptx: PTX bytes are not valid UTF-8") MalformedPtx.

Definition load_ptx_impl (ptx_ptr ptx_len entry_ptr entry_len : Z) : M Z :=
  or_record (lift (checked_nonneg_len ptx_len))
    (fun _ => bytes_of "load_ptx: negative ptx_len (" ++ signed_dec ptx_len ++ bytes_of ")") ≫= fun _ =>
  if KernelRegistry.MAX_PTX_BYTES <? ptx_len
  then bail (bytes_of "load_ptx: ptx_len " ++ signed_dec ptx_len ++ bytes_of " exceeds MAX_PTX_BYTES " ++
             dec KernelRegistry.MAX_PTX_BYTES) QuotaExceeded
  else if (entry_len <? 0) || (MAX_ENTRY_NAME_BYTES <? entry_len)
  then bail (bytes_of "load_ptx: entry_len " ++ signed_dec entry_len ++ bytes_of " exceeds MAX_ENTRY_NAME_BYTES " ++
             dec MAX_ENTRY_NAME_BYTES) QuotaExceeded
  else
    ptx ← read_bytes ptx_ptr ptx_len;
    entry ← read_bytes entry_ptr entry_len;
    if negb (Utf8.valid entry) then bail (bytes_of "load_ptx: entry name is not valid UTF-8") InvalidArgs
    else
      match feature with
      | None =>
          if Z.of_nat (length ptx) =? 0 then bail (bytes_of "load_ptx: PTX bytes empty") MalformedPtx
          else if negb (Utf8.valid ptx) then not_utf8
          else require_directives ptx [".version"%string; ".target"%string; ".entry"%string] ≫= fun _ => register entry ptx None
      | Some drv =>
          if negb (Utf8.valid ptx) then not_utf8
          else if bool_decide (Byte.x00 ∈ ptx)
          then bail (bytes_of "load_ptx: PTX bytes contain an interior NUL") MalformedPtx
          else
            bind_context drv "load_ptx: " NotAvailable ≫= fun _ =>
            module ← drive (module_from_ptx drv ptx)
                       (fun e => bail (bytes_of "load_ptx: cust compile failed: " ++ e) MalformedPtx);
            register entry ptx (Some module)
      end.

(** ** Launches *)
Definition three (x y z : Z) : str :=
  signed_dec x ++ bytes_of ", " ++ signed_dec y ++ bytes_of ", " ++ signed_dec z.

Definition check_args_region (args_ptr args_len : Z) : M () :=
  if (args_len <? 0) || (args_ptr <? 0)
  then bail (bytes_of "launch: negative args_ptr (" ++ signed_dec args_ptr ++ bytes_of ") or args_len (" ++
             signed_dec args_len ++ bytes_of ")") InvalidPointer
  else if 0 <? args_len then
    m ← exported (bail (bytes_of "launch: caller has no exported memory but args_len > 0") InvalidPointer);
    match checked_add usize_max args_ptr args_len with
    | None => bail (bytes_of "launch: args_ptr + args_len overflows usize (" ++ signed_dec args_ptr ++
                    bytes_of " + " ++ signed_dec args_len ++ bytes_of ")") InvalidPointer
    | Some end_ =>
        if Memory.len m <? end_
        then bail (bytes_of "launch: args region [" ++ dec args_ptr ++ bytes_of ", " ++ dec end_ ++
                   bytes_of ") exceeds Wasm memory len " ++ dec (Memory.len m)) InvalidPointer
        else mret ()
    end
  else mret ().

Definition check_dims (d : LaunchDims) : M () :=
  let got x y z := bytes_of " (got " ++ three x y z ++ bytes_of ")" in
  let blocks := got (block_x d) (block_y d) (block_z d) in
  let grids := got (grid_x d) (grid_y d) (grid_z d) in
  if (block_x d <=? 0) || (block_y d <=? 0) || (block_z d <=? 0)
  then bail (bytes_of "launch: block dim must be >= 1" ++ blocks) InvalidDimensions
  else if (grid_x d <=? 0) || (grid_y d <=? 0) || (grid_z d <=? 0)
  then bail (bytes_of "launch: grid dim must be >= 1" ++ grids) InvalidDimensions
  else if shared_mem d <? 0
  then bail (bytes_of "launch: shared_mem must be >= 0 (got " ++ signed_dec (shared_mem d) ++ bytes_of ")") InvalidDimensions
  else if MAX_DYNAMIC_SHARED_MEM_BYTES <? shared_mem d
  then bail (bytes_of "launch: shared_mem " ++ signed_dec (shared_mem d) ++
             bytes_of " exceeds MAX_DYNAMIC_SHARED_MEM_BYTES=" ++ dec MAX_DYNAMIC_SHARED_MEM_BYTES) InvalidDimensions
  else if (MAX_BLOCK_DIM <? as_u32 (block_x d)) || (MAX_BLOCK_DIM <? as_u32 (block_y d)) || (MAX_BLOCK_DIM <? as_u32 (block_z d))
  then bail (bytes_of "launch: block dim exceeds MAX_BLOCK_DIM=" ++ dec MAX_BLOCK_DIM ++ blocks) InvalidDimensions
  else
    match checked_mul u64_max (as_u64 (block_x d)) (as_u64 (block_y d)) ≫= fun v => checked_mul u64_max v (as_u64 (block_z d)) with
    | None => bail (bytes_of "launch: block dim product overflows u64") InvalidDimensions
    | Some threads =>
        if MAX_THREADS_PER_BLOCK <? threads
        then bail (bytes_of "launch: threads-per-block " ++ dec threads ++ bytes_of " exceeds MAX_THREADS_PER_BLOCK=" ++
                   dec MAX_THREADS_PER_BLOCK) InvalidDimensions
        else if (MAX_GRID_DIM <? as_u32 (grid_x d)) || (MAX_GRID_DIM <? as_u32 (grid_y d)) || (MAX_GRID_DIM <? as_u32 (grid_z d))
        then bail (bytes_of "launch: grid dim exceeds MAX_GRID_DIM=" ++ dec MAX_GRID_DIM ++ grids) InvalidDimensions
        else mret ()
    end.

Definition validate_launch_args (kernel_id : Z) (d : LaunchDims) (args_ptr args_len : Z) : M Z :=
  check_args_region args_ptr args_len ≫= fun _ =>
  if kernel_id <? 0 then fail InvalidKernel
  else check_dims d ≫= fun _ => mret (as_u64 kernel_id).

Definition resolve (args_ptr args_len : Z) : M (list LoweredArg) :=
  if args_len <=? 0 then mret []
  else
    m ← exported (fail InvalidPointer);
    h ← get_state;
    let argv := slice (Z.to_nat args_ptr) (Z.to_nat (args_ptr + args_len)) (Memory.data m) in
    or_record (lift (parse_argv (base h) (Memory.len m) argv))
      (fun e => bytes_of "launch: kernel argv parse failed (" ++ bytes_of (error_name e) ++ bytes_of "); args_len=" ++
                signed_dec args_len).

Definition not_managed (res : str) (is_managed : Z) : str :=
  bytes_of "launch: kernel pointer argument is not GPU-addressable (cuPointerGetAttribute IS_MANAGED -> " ++ res ++
  bytes_of ", is_managed=" ++ signed_dec is_managed ++
  bytes_of "); refusing to launch so an invalid device pointer cannot raise a sticky CUDA_ERROR_ILLEGAL_ADDRESS that would poison the shared CUDA context for all tenants. Back guest linear memory with the unified-memory MemoryCreator (enable the `unified-memory` feature on tensor-wasm-mem).".

Definition check_managed (drv : Driver D) (host_ptr : Z) : M () := fun h =>
  let '(success, res, is_managed, d) := cuPointerGetAttribute drv host_ptr (driver h) in
  let h := set_driver d h in
  if negb success || (is_managed =? 0) then bail (not_managed res is_managed) LaunchFailed h else (Ok (), h).

Fixpoint check_pointers (drv : Driver D) (args : list LoweredArg) : M () :=
  match args with
  | [] => mret ()
  | Ptr host_ptr _ _ :: args => check_managed drv host_ptr ≫= fun _ => check_pointers drv args
  | _ :: args => check_pointers drv args
  end.

(** The stream the kernel was put on. *)
Definition resolve_and_launch_cuda (drv : Driver D) (kid : Z) (k : KernelRegistry.KernelEntry) (args : list LoweredArg)
    (d : LaunchDims) : M Z :=
  bind_context drv "launch: " LaunchFailed ≫= fun _ =>
  h ← get_state;
  module ← match modules h !! kid with
           | Some m => mret m
           | None => bail (bytes_of "launch: kernel entry has no compiled module") InvalidKernel
           end;
  func ← drive (get_function drv module (KernelRegistry.entry k))
           (fun e => bail (bytes_of "launch: get_function(" ++ KernelRegistry.entry k ++ bytes_of ") failed: " ++ e) LaunchFailed);
  stream ← drive (stream_new drv) (fun e => bail (bytes_of "launch: Stream::new failed: " ++ e) LaunchFailed);
  let storage := build_kernel_param_storage param_base args in
  check_pointers drv args ≫= fun _ =>
  drive_kernels drv (cuLaunchKernel drv func d stream storage)
    (fun e => bail (bytes_of "launch: cuLaunchKernel failed with status " ++ e ++ bytes_of "; param_count=" ++
                    dec (Z.of_nat (length (slots storage)))) LaunchFailed) ≫= fun _ =>
  event ← drive (event_new drv) (fun e => bail (bytes_of "launch: Event::new failed: " ++ e) LaunchFailed);
  drive (event_record drv event stream) (fun e => bail (bytes_of "launch: event.record failed: " ++ e) LaunchFailed) ≫= fun _ =>
  mret stream.

(** The blocking task that waits for the stream; [joined] is false when the
    task panicked. *)
Definition wait_for_stream (drv : Driver D) (stream : Z) (joined : bool) : M () := fun h =>
  let '(r, h) := (ensure_current_context drv ≫= fun _ =>
                  call (stream_synchronize drv stream) (fun e => bytes_of "stream synchronize failed: " ++ e)) h in
  let h := kernels_write drv h in
  if joined
  then match r with Ok _ => (Ok (), h) | Err e => bail (bytes_of "launch: " ++ e) LaunchFailed h end
  else (Err Internal, h).

(** [permit] is what [acquire_borrowed] answered. *)
Definition launch_impl_async_inner (permit : result AbiError ()) (joined : bool) (kernel_id : Z) (d : LaunchDims)
    (args_ptr args_len : Z) : M () :=
  kid ← validate_launch_args kernel_id d args_ptr args_len;
  match permit with
  | Err e => on_cx record_back_pressure_rejection ≫= fun _ => fail e
  | Ok _ =>
      args ← resolve args_ptr args_len;
      on_cx (set_args args) ≫= fun _ =>
      h ← get_state;
      k ← lift (KernelRegistry.lookup (registry (cx h)) kid (instance_id (cx h)));
      match feature with
      | Some drv =>
          stream ← resolve_and_launch_cuda drv kid k args d;
          wait_for_stream drv stream joined ≫= fun _ =>
          on_cx (set_args args) ≫= fun _ => on_cx record_kernel_launched
      | None =>
          on_cx (set_args args) ≫= fun _ =>
          on_cx record_kernel_launched ≫= fun _ =>
          bail (bytes_of "launch: CUDA not available on this host (argv parsed: " ++ dec (Z.of_nat (length args)) ++
                bytes_of " args)") NotAvailable
      end
  end.

Definition sync_impl : M () :=
  match feature with
  | None => mret ()
  | Some drv =>
      bind_context drv "sync: " LaunchFailed ≫= fun _ =>
      drive_kernels drv (context_synchronize drv)
        (fun e => bail (bytes_of "sync: CurrentContext::synchronize failed: " ++ e) LaunchFailed)
  end.

(** ** The imports *)
Inductive hostcall :=
| LoadPtx (ptx_ptr ptx_len entry_ptr entry_len : Z)
| Launch (permit : result AbiError ()) (joined : bool) (kernel_id : Z) (d : LaunchDims) (args_ptr args_len : Z)
| Sync
| Alloc (size_lo size_hi : Z)
| Free (handle_lo handle_hi : Z)
| MemcpyH2D (handle_lo handle_hi src_ptr len : Z)
| MemcpyD2H (dst_ptr handle_lo handle_hi len : Z)
| LastErrorLen
| LastErrorCopy (dst_ptr dst_len : Z).

Definition wire {A} (f : A -> Z) (r : result AbiError A) : Z := match r with Ok a => f a | Err e => code e end.
Definition answer {A} (f : A -> Z) (m : M A) (h : Caller) : Z * Caller := let '(r, h) := m h in (wire f r, h).

Definition last_error_copy (dst_ptr dst_len : Z) : M Z :=
  if (dst_ptr <? 0) || (dst_len <? 0) then fail InvalidPointer
  else if dst_len =? 0 then mret 0
  else
    h ← get_state;
    match last_error (cx h) with
    | None => mret 0
    | Some msg =>
        let to_copy := Z.min (Z.of_nat (length msg)) dst_len in
        m ← exported (fail InvalidPointer);
        end_ ← lift (ok_or InvalidPointer (checked_add usize_max dst_ptr to_copy));
        if Memory.len m <? end_ then fail InvalidPointer
        else
          match Memory.write m dst_ptr (take (Z.to_nat to_copy) msg) with
          | None => fail InvalidPointer
          | Some m => modify (set_memory (Some m)) ≫= fun _ => mret to_copy
          end
    end.

Definition host_fn (c : hostcall) (h : Caller) : Z * Caller :=
  if negb (wasi_cuda_enabled (cx h)) then (code NotAvailable, h)
  else
    match c with
    | LoadPtx pp pl ep el => answer as_i64 (load_ptx_impl pp pl ep el) h
    | Launch permit joined kid d ap al => answer (fun _ => 0) (launch_impl_async_inner permit joined kid d ap al) h
    | Sync => answer (fun _ => 0) sync_impl h
    | Alloc lo hi => answer as_i64 (alloc_impl (join_u64 lo hi)) h
    | Free lo hi => answer (fun _ => 0) (free_impl (join_u64 lo hi)) h
    | MemcpyH2D lo hi src len => answer (fun _ => 0) (memcpy_h2d_impl (join_u64 lo hi) src len) h
    | MemcpyD2H dst lo hi len => answer (fun _ => 0) (memcpy_d2h_impl dst (join_u64 lo hi) len) h
    | LastErrorLen => (default 0 ((fun s => as_i32 (Z.of_nat (length s))) <$> last_error (cx h)), h)
    | LastErrorCopy dst len => answer as_i32 (last_error_copy dst len) h
    end.

Definition run (cs : list hostcall) (h : Caller) : Caller := foldl (fun h c => (host_fn c h).2) h cs.
End host.
End Host.
