(* ===== verification/HostFacts.v ===== *)
(** * The GPU host functions are safe

    What one call and any sequence of calls of [Host] may do: to the guest's
    memory, to the driver, to the kernel registry and to the recorded error.
    [keeps I m] says that [m] preserves the invariant [I] of the caller's
    state; its rules follow the monad, so the proof that a host function keeps
    an invariant follows the function. *)

From stdpp Require Import pretty.
From S2P Require Import Prelude Core Text Ir KernelArgs JitDispatch DeviceMem WasiGpu Host.

Module HostFacts.
Import KernelArgs Host.

Section keeps.
Context {D : Type} (I : @Caller D -> Prop).
Abbreviation M := (stM (@Caller D) AbiError).

Definition keeps {A} (m : M A) : Prop := forall h, I h -> I (m h).2.

Lemma keeps_ret {A} (a : A) : keeps (mret a).
Proof. by intros h. Qed.

Lemma keeps_fail {A} e : keeps (fail e : M A).
Proof. by intros h. Qed.

Lemma keeps_lift {A} (r : result AbiError A) : keeps (lift r).
Proof. by intros h. Qed.

Lemma keeps_get : keeps get_state.
Proof. by intros h. Qed.

(** What the first step returned may matter to the second. *)
Lemma keeps_bind_post {A B} (m : M A) (f : A -> M B) (Q : A -> Prop) :
  keeps m -> (forall h a h', I h -> m h = (Ok a, h') -> Q a) -> (forall a, Q a -> keeps (f a)) -> keeps (m ≫= f).
Proof.
  intros Hm HQ Hf h Hh. specialize (Hm h Hh). unfold mbind, stM_bind.
  destruct (m h) as [[a|e] h'] eqn:Hmh; [|done]. eapply Hf; eauto.
Qed.

Lemma keeps_bind {A B} (m : M A) (f : A -> M B) : keeps m -> (forall a, keeps (f a)) -> keeps (m ≫= f).
Proof. intros Hm Hf. eapply (keeps_bind_post _ _ (fun _ => True)); eauto. Qed.

Lemma keeps_modify (f : Caller -> Caller) : (forall h, I h -> I (f h)) -> keeps (modify f).
Proof. intros Hf h. apply Hf. Qed.

Lemma keeps_bail {A} msg e : keeps (record_error msg) -> keeps (bail msg e : M A).
Proof. intros Hr. apply keeps_bind; [done|intros; apply keeps_fail]. Qed.

Lemma keeps_exported m : keeps m -> keeps (exported m).
Proof. intros Hm h Hh. unfold exported. destruct (memory h); [done|by apply Hm]. Qed.

Lemma keeps_or_record {A} (m : M A) msg : keeps m -> (forall e, keeps (record_error (msg e))) -> keeps (or_record m msg).
Proof.
  intros Hm Hr h Hh. specialize (Hm h Hh). unfold or_record. destruct (m h) as [[a|e] h']; [done|].
  by apply keeps_bail.
Qed.
End keeps.

Section inversion.
Context {S E : Type}.

Lemma stM_bind_inv {A B} (m : stM S E A) (f : A -> stM S E B) b s s' :
  (m ≫= f) s = (Ok b, s') -> exists a s1, m s = (Ok a, s1) /\ f a s1 = (Ok b, s').
Proof. unfold mbind, stM_bind. destruct (m s) as [[a|e] s1]; [eauto|done]. Qed.
End inversion.

Lemma exported_inv {D} (e : stM (@Caller D) AbiError Memory.t) h m h' :
  (forall h a h', e h <> (Ok a, h')) -> exported e h = (Ok m, h') -> memory h = Some m /\ h' = h.
Proof. unfold exported. intros He. destruct (memory h); [by intros [= -> ->]|]. intros Hr. by apply He in Hr. Qed.

Lemma lift_checked_inv {S} e a b (s s' : S) z :
  lift (ok_or (e : AbiError) (checked_add usize_max a b)) s = (Ok z, s') -> z = a + b /\ s' = s /\ a + b <= usize_max.
Proof. unfold lift, ok_or. destruct (checked_add _ _ _) eqn:Hadd; [|done]. intros [= <- <-]. bool_props. by split_and!. Qed.

Lemma read_bytes_inv {D} ptr len (h : @Caller D) bs h' :
  read_bytes ptr len h = (Ok bs, h') ->
  h' = h /\ exists m, memory h = Some m /\ 0 <= ptr /\ 0 <= len /\ ptr + len <= Memory.len m /\
    bs = slice (Z.to_nat ptr) (Z.to_nat (ptr + len)) (Memory.data m).
Proof.
  unfold read_bytes. case_match eqn:Hneg; [done|]. intros (m & h1 & Hm & Hr)%stM_bind_inv.
  apply exported_inv in Hm as [Hm ->]; [|done]. apply stM_bind_inv in Hr as (e & h2 & He & Hr).
  apply lift_checked_inv in He as (-> & -> & _). case_match eqn:Hlen; [done|]. injection Hr as <- <-.
  unfold mem_len in *. bool_props. split; [done|]. exists m. split_and!; try done; lia.
Qed.

Create HintDb host.

(** Follow the structure of a host function down to its effects. *)
Ltac keeps_step :=
  match goal with
  | |- keeps _ (_ ≫= _) => apply keeps_bind
  | |- keeps _ (mret _) => apply keeps_ret
  | |- keeps _ (fail _) => apply keeps_fail
  | |- keeps _ (lift _) => apply keeps_lift
  | |- keeps _ get_state => apply keeps_get
  | |- keeps _ (bail _ _) => apply keeps_bail
  | |- keeps _ (exported _) => apply keeps_exported
  | |- keeps _ (or_record _ _) => apply keeps_or_record
  | |- keeps _ (match ?x with _ => _ end) => let E := fresh "E" in destruct x eqn:E in |- *
  end.

(** The calls that leave the guest's memory alone. *)
Definition memory_frame (c : hostcall) : bool :=
  match c with MemcpyD2H _ _ _ _ | LastErrorCopy _ _ | Launch _ _ _ _ _ _ | Sync => false | _ => true end.

(** ** Invariants the host functions keep

    [text] is what the recorded messages satisfy and [quiet] what a driver call
    does to the driver.  [Stable] lists the effects of the host functions other
    than registering a kernel and writing the guest's memory. *)
Record Texts (text : str -> Prop) : Prop := {
  text_app a b : text a -> text b -> text (a ++ b);
  text_lit s : Utf8.valid (bytes_of s) = true -> text (bytes_of s);
  text_dec z : text (dec z);
  text_signed z : text (signed_dec z);
}.

Record StableContext {D} (text : str -> Prop) (quiet : D -> D -> Prop) (I : @Caller D -> Prop) : Prop := {
  st_texts : Texts text;
  st_lock h e : I h -> primary_ctx h = Some (Err e) -> text e;
  st_primary r h : (forall e, r = Err e -> text e) -> I h -> I (set_primary_ctx r h);
  st_driver d h : quiet (driver h) d -> I h -> I (set_driver d h);
}.

Record Stable {D} (text : str -> Prop) (quiet : D -> D -> Prop) (I : @Caller D -> Prop) : Prop := {
  st_context :> StableContext text quiet I;
  st_error msg h : text msg -> I h ->
    I (set_cx (set_last_error (Some (Utf8.truncate_chars MAX_RECORDED_ERROR_BYTES msg)) (cx h)) h);
  st_shared sh h : I h -> I (set_shared sh h);
  st_ptrs p h : I h -> I (set_tables p (modules h) h);
  st_args a h : I h -> I (set_cx (set_args a (cx h)) h);
  st_rejection h : I h -> I (set_cx (record_back_pressure_rejection (cx h)) h);
  st_launched h : I h -> I (set_cx (record_kernel_launched (cx h)) h);
}.
Arguments st_texts {D text quiet I}. Arguments st_error {D text quiet I}. Arguments st_lock {D text quiet I}. Arguments st_primary {D text quiet I}. Arguments st_driver {D text quiet I}.
Arguments st_shared {D text quiet I}. Arguments st_ptrs {D text quiet I}. Arguments st_args {D text quiet I}.
Arguments st_rejection {D text quiet I}. Arguments st_launched {D text quiet I}.

Definition calm {D A} (text : str -> Prop) (quiet : D -> D -> Prop) (call : D -> result str A * D) : Prop :=
  forall d, quiet d (call d).2 /\ forall e, (call d).1 = Err e -> text e.

Record CalmContext {D} (text : str -> Prop) (quiet : D -> D -> Prop) (drv : Driver D) : Prop := {
  calm_init : calm text quiet (cuInit drv);
  calm_device n : calm text quiet (cuDeviceGet drv n);
  calm_retain n : calm text quiet (cuDevicePrimaryCtxRetain drv n);
  calm_current c : calm text quiet (cuCtxSetCurrent drv c);
}.

(** Every driver call but the two that concern a launch's arguments. *)
Record Calm {D} (text : str -> Prop) (quiet : D -> D -> Prop) (drv : Driver D) : Prop := {
  calm_context :> CalmContext text quiet drv;
  calm_alloc n : calm text quiet (cuMemAlloc drv n);
  calm_free p : calm text quiet (cuMemFree drv p);
  calm_h2d p bs : calm text quiet (cuMemcpyHtoD drv p bs);
  calm_d2h p bs d : quiet d (cuMemcpyDtoH drv p bs d).2 /\ forall e, (cuMemcpyDtoH drv p bs d).1.1 = Err e -> text e;
  calm_module ptx : calm text quiet (module_from_ptx drv ptx);
  calm_function m n : calm text quiet (get_function drv m n);
  calm_stream : calm text quiet (stream_new drv);
  calm_event : calm text quiet (event_new drv);
  calm_record e s : calm text quiet (event_record drv e s);
  calm_wait s : calm text quiet (stream_synchronize drv s);
  calm_sync : calm text quiet (context_synchronize drv);
}.
Arguments calm_init {D text quiet drv}. Arguments calm_device {D text quiet drv}.
Arguments calm_retain {D text quiet drv}. Arguments calm_current {D text quiet drv}. Arguments calm_alloc {D text quiet drv}.
Arguments calm_free {D text quiet drv}. Arguments calm_h2d {D text quiet drv}. Arguments calm_d2h {D text quiet drv}.
Arguments calm_module {D text quiet drv}. Arguments calm_function {D text quiet drv}. Arguments calm_stream {D text quiet drv}.
Arguments calm_event {D text quiet drv}. Arguments calm_record {D text quiet drv}. Arguments calm_wait {D text quiet drv}.
Arguments calm_sync {D text quiet drv}.

Section context.
Context {D : Type} (drv : Driver D) (text : str -> Prop) (quiet : D -> D -> Prop) (I : @Caller D -> Prop).
Hypothesis HS : StableContext text quiet I.
Hypothesis HC : CalmContext text quiet drv.

Ltac text :=
  repeat (apply (text_app _ (st_texts HS)) || (apply (text_lit _ (st_texts HS)); by vm_compute) || assumption).

(** A step with a message for an error keeps the invariant, and its message is a
    text. *)
Definition told {A} (m : stM (@Caller D) str A) : Prop :=
  forall h, I h -> I (m h).2 /\ forall e, (m h).1 = Err e -> text e.

Lemma told_call {A} (f : D -> result str A * D) msg :
  calm text quiet f -> (forall e, text e -> text (msg e)) -> told (call f msg).
Proof.
  intros Hf Hmsg h HI. destruct (Hf (driver h)) as [Hq He]. unfold call.
  destruct (f (driver h)) as [[a|e] d]; cbn [fst snd] in *; (split; [by apply (st_driver HS)|]); [done|].
  intros e' [= <-]. by apply Hmsg, He.
Qed.

Lemma told_bind {A B} (m : stM (@Caller D) str A) (f : A -> stM (@Caller D) str B) :
  told m -> (forall a, told (f a)) -> told (m ≫= f).
Proof.
  intros Hm Hf h HI. destruct (Hm h HI) as [HI' He]. unfold mbind, stM_bind.
  destruct (m h) as [[a|e] h']; cbn [fst snd] in *; [by apply Hf|]. split; [done|]. intros e' [= <-]. by apply He.
Qed.

Lemma told_retain msg : (forall e, text e -> text (msg e)) -> told (retain drv msg).
Proof.
  intros Hmsg. unfold retain.
  apply told_bind; [by apply told_call, Hmsg; apply (calm_init HC)|intros _].
  apply told_bind; [apply told_call; [apply (calm_device HC)|intros; text]|intros dev].
  apply told_call; [apply (calm_retain HC)|intros; text].
Qed.

Lemma told_ensure : told (ensure_current_context drv).
Proof.
  unfold ensure_current_context. apply told_bind.
  - intros h HI. unfold get_or_init. destruct (primary_ctx h) as [r|] eqn:Hlock.
    + split; [done|]. cbn. intros e ->. by apply (st_lock HS h).
    + assert (told (retain_primary_ctx drv)) as Hr by (apply told_retain; intros; text).
      destruct (Hr h HI) as [HI' He]. destruct (retain_primary_ctx drv h) as [r h']. cbn [fst snd] in *.
      split; [by apply (st_primary HS)|done].
  - intros _. apply told_bind; [apply told_retain; intros; text|intros ctx].
    apply told_call; [apply (calm_current HC)|intros; text].
Qed.

End context.

Section stable.
Context {D : Type} (feature : option (Driver D)) (param_base : Z).
Context (text : str -> Prop) (quiet : D -> D -> Prop) (I : @Caller D -> Prop).
Hypothesis HS : Stable text quiet I.
Hypothesis HD : forall drv, feature = Some drv -> Calm text quiet drv.

Lemma text_name e : text (bytes_of (error_name e)).
Proof. apply (text_lit _ (st_texts HS)). by destruct e. Qed.

Lemma keeps_error msg : text msg -> keeps I (record_error msg).
Proof. intros Ht h. by apply (st_error HS). Qed.

Ltac text :=
  repeat (apply (text_app _ (st_texts HS)) || apply (text_dec _ (st_texts HS)) || apply (text_signed _ (st_texts HS)) ||
          apply text_name || (apply (text_lit _ (st_texts HS)); by vm_compute) || assumption).

Lemma keeps_drive {A} (call : D -> result str A * D) handler :
  calm text quiet call -> (forall e, text e -> keeps I (handler e)) -> keeps I (drive call handler).
Proof.
  intros Hc Hh h HI. destruct (Hc (driver h)) as [Hq He]. unfold drive.
  destruct (call (driver h)) as [[a|e] d]; simpl in *; [by apply (st_driver HS)|].
  apply Hh; [by apply He|by apply (st_driver HS)].
Qed.

Ltac calm :=
  match goal with
  | Hf : feature = Some ?drv |- _ =>
      pose proof (HD drv Hf) as Hdrv;
      first [apply (calm_alloc Hdrv) | apply (calm_free Hdrv) | apply (calm_h2d Hdrv)
            | apply (calm_module Hdrv) | apply (calm_function Hdrv) | apply (calm_stream Hdrv) | apply (calm_event Hdrv)
            | apply (calm_record Hdrv) | apply (calm_wait Hdrv) | apply (calm_sync Hdrv)]
  end.

Ltac host :=
  repeat (intros; first [keeps_step | match goal with
  | |- keeps _ (record_error _) => apply keeps_error; text
  | |- keeps _ (drive _ _) => apply keeps_drive; [calm|]
  end | solve [eauto with host]]).

Lemma keeps_bind_context drv name e :
  feature = Some drv -> Utf8.valid (bytes_of name) = true -> keeps I (bind_context drv name e).
Proof.
  intros Hf Hn h HI. destruct (told_ensure drv text quiet I HS (HD drv Hf) h HI) as [HI' He]. unfold bind_context.
  destruct (ensure_current_context drv h) as [[[]|msg] h']; cbn [fst snd] in *; [done|].
  apply keeps_bail; [|done]. apply keeps_error. text. by apply He.
Qed.

Lemma keeps_insert_entry e : keeps I (@insert_entry D e).
Proof. intros h HI. unfold insert_entry. by repeat case_match; apply (st_shared HS). Qed.

Lemma keeps_free_entry handle : keeps I (@free_entry D handle).
Proof. intros h HI. unfold free_entry. by repeat case_match; apply (st_shared HS). Qed.

Lemma keeps_release drv ptr : feature = Some drv -> keeps I (release drv ptr).
Proof.
  intros Hf h HI. destruct (told_ensure drv text quiet I HS (HD drv Hf) h HI) as [HI' He]. unfold release.
  destruct (ensure_current_context drv h) as [[[]|e] h']; cbn [fst snd] in *;
    [|by apply keeps_error; [text; apply (He e)|]].
  destruct (calm_free (HD drv Hf) ptr (driver h')) as [Hq He'].
  destruct (cuMemFree drv ptr (driver h')) as [[[]|e] d]; cbn [fst snd] in *; [by apply (st_driver HS)|].
  apply keeps_error; [text; by apply (He' e)|by apply (st_driver HS)].
Qed.

Lemma keeps_lookup_entry handle : keeps I (@lookup_entry D handle).
Proof. by intros h. Qed.
#[local] Hint Resolve keeps_bind_context keeps_insert_entry keeps_free_entry keeps_release keeps_lookup_entry : host.

Lemma keeps_copy_checks name side handle ptr len :
  Utf8.valid (bytes_of name) = true -> Utf8.valid (bytes_of side) = true ->
  keeps I (@copy_checks D name side handle ptr len).
Proof. intros Hn Hs. unfold copy_checks, checked_guest_region. host. Qed.

Lemma keeps_read_bytes ptr len : keeps I (@read_bytes D ptr len).
Proof. unfold read_bytes. host. Qed.

Lemma keeps_publish drv e ptr : feature = Some drv -> keeps I (publish drv e ptr).
Proof.
  intros Hf h HI. unfold publish. pose proof (keeps_insert_entry e h HI) as HI'.
  destruct (insert_entry e h) as [[handle|err] h']; cbn [fst snd] in *; [by apply (st_ptrs HS)|].
  apply (st_driver HS); [|done]. by destruct (calm_free (HD drv Hf) ptr (driver h')).
Qed.
#[local] Hint Resolve keeps_copy_checks keeps_read_bytes keeps_publish : host.

Lemma keeps_alloc size : keeps I (alloc_impl feature size).
Proof. unfold alloc_impl. host. Qed.

Lemma keeps_free handle : keeps I (free_impl feature handle).
Proof. unfold free_impl. host. apply keeps_modify. intros h. by apply (st_ptrs HS). Qed.

Lemma keeps_h2d handle src len : keeps I (memcpy_h2d_impl feature handle src len).
Proof. unfold memcpy_h2d_impl. host. Qed.

Lemma keeps_validate kid d ap al : keeps I (@validate_launch_args D kid d ap al).
Proof. unfold validate_launch_args, check_args_region, check_dims, three. host. Qed.

Lemma keeps_resolve ap al : keeps I (@resolve D ap al).
Proof. unfold resolve. host. Qed.

Lemma keeps_set_args a : keeps I (on_cx (set_args a)).
Proof. intros h. by apply (st_args HS). Qed.

Lemma keeps_launched : keeps I (on_cx record_kernel_launched).
Proof. intros h. by apply (st_launched HS). Qed.

Lemma keeps_rejection : keeps I (on_cx record_back_pressure_rejection).
Proof. intros h. by apply (st_rejection HS). Qed.

#[local] Hint Resolve keeps_validate keeps_resolve keeps_set_args keeps_launched keeps_rejection : host.

Hypothesis Hattr : forall drv p d, feature = Some drv -> text (cuPointerGetAttribute drv p d).1.1.2 /\
  quiet d (cuPointerGetAttribute drv p d).2.

Lemma keeps_check_pointers drv args : feature = Some drv -> keeps I (check_pointers drv args).
Proof.
  intros Hf. induction args as [|[] args IH]; simpl; try done; host.
  intros h HI. destruct (Hattr drv host_ptr (driver h) Hf) as [Ht Hq]. unfold check_managed.
  destruct (cuPointerGetAttribute _ _ _) as [[[success res] managed] d]; cbn [fst snd] in *.
  case_match; [|by apply (st_driver HS)].
  apply keeps_bail; [|by apply (st_driver HS)]. apply keeps_error. unfold not_managed. text.
Qed.

(** A kernel is registered under a valid name of bounded length, with a module
    exactly on CUDA builds. *)
Hypothesis Hregister : forall entry ptx module, Utf8.valid entry = true ->
  Z.of_nat (length entry) <= MAX_ENTRY_NAME_BYTES -> (is_Some module <-> is_Some feature) ->
  keeps I (@register D entry ptx module).

Lemma keeps_directives ptx ds :
  Forall (fun d => Utf8.valid (bytes_of d) = true) ds -> keeps I (@require_directives D ptx ds).
Proof. induction 1; cbn [require_directives]; host. Qed.

Lemma keeps_load_ptx pp pl ep el : keeps I (load_ptx_impl feature pp pl ep el).
Proof.
  unfold load_ptx_impl, not_utf8. apply keeps_bind; [host|intros _].
  keeps_step; [host|]. keeps_step; [host|]. bool_props. apply keeps_bind; [host|intros ptx].
  apply (keeps_bind_post _ _ _ (fun bs => Z.of_nat (length bs) = el)); [host| |].
  { intros h bs h' _ (-> & m & _ & ? & ? & ? & ->)%read_bytes_inv. unfold Memory.len in *. rewrite slice_length; lia. }
  intros entry Hlen. host; bool_props.
  - intros module. apply Hregister; [done|lia|]. rewrite E1. by split; eexists.
  - apply keeps_directives. by repeat constructor.
  - intros _. apply Hregister; [done|lia|]. by rewrite E1.
Qed.

(** Every host function but those that write the guest's memory keeps the
    invariant; those do where it says nothing of that memory. *)
Lemma keeps_frame c h : memory_frame c = true -> I h -> I (host_fn feature param_base c h).2.
Proof.
  intros Hc HI. unfold host_fn. case_match; [done|]. unfold answer.
  destruct c; try done; match goal with
  | |- context [let '(_, _) := ?m ?h in _] => assert (keeps I m) as Hm; [|specialize (Hm h HI); by destruct (m h)]
  end.
  - apply keeps_load_ptx.
  - apply keeps_alloc.
  - apply keeps_free.
  - apply keeps_h2d.
Qed.

(** The driver's launch, and the names in its messages. *)
Hypothesis Hlaunch : forall drv f dims s st, feature = Some drv -> calm text quiet (cuLaunchKernel drv f dims s st).
Hypothesis Hentry : forall h id who k, I h -> KernelRegistry.lookup (registry (cx h)) id who = Ok k ->
  text (KernelRegistry.entry k).

(** Invariants that the kernels' writes to the guest's memory keep. *)
Section kernels.
Hypothesis Hkernels : forall drv h, feature = Some drv -> I h -> I (kernels_write drv h).

Lemma keeps_drive_kernels {A} drv (call : D -> result str A * D) handler :
  feature = Some drv -> calm text quiet call -> (forall e, text e -> keeps I (handler e)) -> keeps I (drive_kernels drv call handler).
Proof.
  intros Hf Hc Hh h HI. destruct (Hc (driver h)) as [Hq He]. unfold drive_kernels.
  destruct (call (driver h)) as [[a|e] d]; simpl in *; [by apply Hkernels, (st_driver HS)|].
  apply Hh; [by apply He|by apply Hkernels, (st_driver HS)].
Qed.

Lemma keeps_sync : keeps I (sync_impl feature).
Proof. unfold sync_impl. host. intros. apply keeps_drive_kernels; [done|calm|host]. Qed.

Lemma keeps_wait drv stream joined : feature = Some drv -> keeps I (wait_for_stream drv stream joined).
Proof.
  intros Hf h HI. unfold wait_for_stream. set (m := ensure_current_context drv ≫= _).
  assert (told text I m) as Hm.
  { apply told_bind; [by apply (told_ensure drv text quiet I HS (HD drv Hf))|intros _].
    apply (told_call text quiet I HS); [apply (calm_wait (HD drv Hf))|intros; text]. }
  destruct (Hm h HI) as [HI' He]. destruct (m h) as [[[]|e] h'], joined; cbn [fst snd] in *; try by apply Hkernels.
  apply keeps_bail; [|by apply Hkernels]. apply keeps_error. text. by apply He.
Qed.
#[local] Hint Resolve keeps_wait : host.

Lemma keeps_launch_cuda drv kid k args d :
  feature = Some drv -> text (KernelRegistry.entry k) -> keeps I (resolve_and_launch_cuda param_base drv kid k args d).
Proof.
  intros Hf Hk. unfold resolve_and_launch_cuda. host.
  - by apply keeps_check_pointers.
  - apply keeps_drive_kernels; [done|by apply Hlaunch|]. host.
Qed.

Lemma keeps_launch permit joined kid d ap al :
  keeps I (launch_impl_async_inner feature param_base permit joined kid d ap al).
Proof.
  unfold launch_impl_async_inner. apply keeps_bind; [host|intros id]. destruct permit; [|host].
  apply keeps_bind; [host|intros args]. apply keeps_bind; [host|intros _].
  apply (keeps_bind_post _ _ _ I); [host|by intros h ? ? ? [= <-]|intros h Hh].
  apply (keeps_bind_post _ _ _ (fun k => text (KernelRegistry.entry k))); [host| |intros k Hk].
  - intros h' k h'' _ [= Hl _]. eauto.
  - host. by apply keeps_launch_cuda.
Qed.
End kernels.

Section writing.
Hypothesis Hwrite : forall m h, I h -> I (set_memory m h).

Lemma keeps_copy_out drv ptr start end_ m : feature = Some drv -> keeps I (copy_out drv ptr start end_ m).
Proof.
  intros Hf h HI. unfold copy_out.
  destruct (calm_d2h (HD drv Hf) ptr (slice (Z.to_nat start) (Z.to_nat end_) (Memory.data m)) (driver h)) as [Hq He].
  destruct (cuMemcpyDtoH _ _ _ _) as [[[[]|e] buf] d]; cbn [fst snd] in *.
  - by apply (st_driver HS), Hwrite.
  - apply keeps_bail; [|by apply (st_driver HS), Hwrite]. apply keeps_error. text. by apply He.
Qed.

Lemma keeps_d2h dst handle len : keeps I (memcpy_d2h_impl feature dst handle len).
Proof. unfold memcpy_d2h_impl. host. intros h. by apply keeps_copy_out. Qed.

Lemma keeps_last_error_copy dst len : keeps I (@last_error_copy D dst len).
Proof. unfold last_error_copy. host. apply keeps_modify. auto. Qed.

Lemma keeps_host_fn c h : I h -> I (host_fn feature param_base c h).2.
Proof.
  intros HI. destruct (memory_frame c) eqn:Hc; [by apply keeps_frame|].
  destruct c; try done; unfold host_fn, answer; (case_match; [done|]).
  - pose proof (keeps_launch (fun _ h _ => Hwrite _ h) permit joined kernel_id d args_ptr args_len h HI). by destruct (launch_impl_async_inner _ _ _ _ _ _ _ _ _).
  - pose proof (keeps_sync (fun _ h _ => Hwrite _ h) h HI). by destruct (sync_impl _ _).
  - pose proof (keeps_d2h dst_ptr (join_u64 handle_lo handle_hi) len h HI). by destruct (memcpy_d2h_impl _ _ _ _ _).
  - pose proof (keeps_last_error_copy dst_ptr dst_len h HI). by destruct (last_error_copy _ _ _).
Qed.

Lemma keeps_run cs h : I h -> I (run feature param_base cs h).
Proof.
  unfold run. revert h. induction cs as [|c cs IH]; intros h HI; [done|]. cbn [foldl]. apply IH. by apply keeps_host_fn.
Qed.
End writing.
End stable.
End HostFacts.

Module HostClaims.
Import KernelArgs Host HostFacts.

(** ** The guest's memory *)
Definition anything {D : Type} (d d' : D) : Prop := True.
Definition any_text (s : str) : Prop := True.

Lemma any_texts : Texts any_text.
Proof. done. Qed.

Lemma any_calm {D} (drv : Driver D) : Calm any_text anything drv.
Proof. done. Qed.

(** [m'] is [m] with at most the bytes of [lo, hi) changed. *)
Record untouched (lo hi : Z) (m m' : Memory.t) : Prop := {
  un_len : Memory.len m' = Memory.len m;
  un_pages : Memory.max_pages m' = Memory.max_pages m;
  un_byte i : Z.of_nat i < lo \/ hi <= Z.of_nat i -> Memory.data m' !! i = Memory.data m !! i;
}.

Lemma untouched_refl lo hi m : untouched lo hi m m.
Proof. done. Qed.

Lemma untouched_weaken lo hi hi' m m' : untouched lo hi m m' -> hi <= hi' -> untouched lo hi' m m'.
Proof. intros [] Hle. split; [done|done|]. intros i Hi. apply un_byte0. lia. Qed.

Lemma write_untouched m addr bs m' hi :
  Memory.write m addr bs = Some m' -> addr + Z.of_nat (length bs) <= hi -> untouched addr hi m m'.
Proof.
  intros Hw Hhi. split; [by apply MemoryFacts.write_len in Hw|..];
    apply MemoryFacts.write_Some in Hw as (Ha & Hl & ->); [done|].
  unfold Memory.len in *. simpl. intros i [Hi|Hi].
  - rewrite lookup_app_l by (rewrite length_take; lia). by rewrite lookup_take_lt by lia.
  - rewrite lookup_app_r, lookup_app_r, lookup_drop by (rewrite ?length_take; lia). f_equal. rewrite length_take. lia.
Qed.

Section memory.
Context {D : Type} (feature : option (Driver D)) (param_base : Z).

Definition memory_is (m : option Memory.t) (b : Z) (h : @Caller D) : Prop := memory h = m /\ base h = b.

Lemma memory_stable m b : Stable any_text anything (memory_is m b).
Proof. split; try done. Qed.

Lemma frame_call c h : memory_frame c = true -> memory_is (memory h) (base h) (host_fn feature param_base c h).2.
Proof.
  intros Hc. eapply (keeps_frame _ _ any_text anything); try done.
  intros e ptx module _ _ _ h' Hh. unfold register. destruct (KernelRegistry.register _ _) as [[] ?]; apply Hh.
Qed.

Lemma bind_context_frame drv name e h r h' :
  bind_context drv name e h = (r, h') -> memory_is (memory h) (base h) h'.
Proof.
  intros Hb. assert (memory_is (memory h) (base h) (bind_context drv name e h).2) as Hm; [|by rewrite Hb in Hm].
  unfold bind_context.
  pose proof (told_ensure drv any_text anything _ (memory_stable (memory h) (base h)) (any_calm drv) h ltac:(done)) as [Hm _].
  by destruct (ensure_current_context drv h) as [[]].
Qed.

Lemma or_record_inv {A} (m : stM (@Caller D) AbiError A) msg h a h' :
  or_record m msg h = (Ok a, h') -> m h = (Ok a, h').
Proof. unfold or_record. by destruct (m h) as [[]]. Qed.

Lemma copy_checks_inv name side handle ptr len (h : @Caller D) dev start end_ h' :
  copy_checks name side handle ptr len h = (Ok (dev, (start, end_)), h') ->
  h' = h /\ 0 <= len /\ DeviceMem.lookup (shared h) (device_mem (cx h)) handle (instance_id (cx h)) = Ok dev /\
  as_u32 len <= DeviceMem.size dev /\ start = as_u32 ptr /\ end_ = start + as_u32 len /\
  exists m, memory h = Some m /\ end_ <= Memory.len m.
Proof.
  unfold copy_checks. intros (n & h1 & Hn%or_record_inv & Hr)%stM_bind_inv.
  unfold lift, checked_nonneg_len in Hn. case_match eqn:Hneg; [done|]. injection Hn as <- <-.
  apply stM_bind_inv in Hr as (e & h2 & [= Hl ->]%or_record_inv & Hr). case_match eqn:Hsize; [done|].
  apply stM_bind_inv in Hr as (region & h3 & Hg%or_record_inv & Hr). injection Hr as -> -> ->.
  apply stM_bind_inv in Hg as (m & h4 & Hm & Hg). apply exported_inv in Hm as [Hm ->]; [|done].
  apply stM_bind_inv in Hg as (z & h5 & (-> & -> & _)%lift_checked_inv & Hg). case_match eqn:Hlen; [done|].
  injection Hg as <- <- <-. unfold mem_len in *. bool_props. split_and!; try done. by exists m.
Qed.

(** What a call may make of the guest's memory at the address [b]; kernels run,
    and write it, during a launch and a synchronisation. *)
Definition kernel_step (b : Z) (m m' : Memory.t) : Prop :=
  exists drv d, feature = Some drv /\ m' = kernel_wrote drv b d m.

Definition memory_after (c : hostcall) (b : Z) (m m' : Memory.t) : Prop :=
  match c with
  | MemcpyD2H dst _ _ len => untouched (as_u32 dst) (as_u32 dst + len) m m'
  | LastErrorCopy dst len => untouched dst (dst + len) m m'
  | Launch _ _ _ _ _ _ | Sync => rtc (kernel_step b) m m'
  | _ => m' = m
  end.

(** The guest's memory is [m] but for what kernels wrote. *)
Definition kernels_only (b : Z) (m : Memory.t) (h : @Caller D) : Prop :=
  base h = b /\ exists m', memory h = Some m' /\ rtc (kernel_step b) m m'.

Lemma kernels_only_stable b m : Stable any_text anything (kernels_only b m).
Proof. by split. Qed.

Lemma kernels_only_write b m drv h : feature = Some drv -> kernels_only b m h -> kernels_only b m (kernels_write drv h).
Proof.
  intros Hf (<- & m' & Hm & Hr). split; [done|]. unfold kernels_write. rewrite Hm. eexists. split; [done|].
  eapply rtc_r; [done|]. by exists drv, (driver h).
Qed.

Lemma kernels_call c h m :
  match c with Launch _ _ _ _ _ _ | Sync => True | _ => False end ->
  memory h = Some m -> kernels_only (base h) m (host_fn feature param_base c h).2.
Proof.
  intros Hc Hm. assert (kernels_only (base h) m h) as HI by (split; eauto using rtc_refl).
  unfold host_fn, answer. destruct (negb _); [done|]. destruct c; try done.
  - pose proof (keeps_launch feature param_base any_text anything _ (kernels_only_stable (base h) m) (fun drv _ => any_calm drv)
      ltac:(done) ltac:(done) ltac:(done) (kernels_only_write (base h) m) permit joined kernel_id d args_ptr args_len h HI).
    by destruct (launch_impl_async_inner _ _ _ _ _ _ _ _ _).
  - pose proof (keeps_sync feature any_text anything _ (kernels_only_stable (base h) m) (fun drv _ => any_calm drv)
      (kernels_only_write (base h) m) h HI). by destruct (sync_impl _ _).
Qed.

Hypothesis kernels_law : forall drv b bs d, feature = Some drv -> length (device_writes drv b bs d) = length bs.

Lemma kernels_len b m m' : rtc (kernel_step b) m m' -> Memory.len m' = Memory.len m.
Proof.
  induction 1 as [|m1 m2 m3 (drv & d & Hf & ->) _ IH]; [done|]. rewrite IH. unfold Memory.len, kernel_wrote. cbn.
  by rewrite kernels_law.
Qed.

Hypothesis buffer_law : forall drv p bs d, feature = Some drv -> length (cuMemcpyDtoH drv p bs d).1.2 = length bs.

Lemma copy_out_memory drv ptr start end_ m h :
  feature = Some drv -> 0 <= start <= end_ -> end_ <= Memory.len m ->
  exists m', memory (copy_out drv ptr start end_ m h).2 = Some m' /\ untouched start end_ m m'.
Proof.
  intros Hf Hs Hl. unfold copy_out, Memory.len in *.
  pose proof (buffer_law drv ptr (slice (Z.to_nat start) (Z.to_nat end_) (Memory.data m)) (driver h) Hf) as Hbuf.
  rewrite slice_length in Hbuf by lia. destruct (cuMemcpyDtoH _ _ _ _) as [[r buf] d]. cbn [fst snd] in *.
  destruct (Memory.write m start buf) as [m'|] eqn:Hw.
  - exists m'. split; [by destruct r|]. eapply write_untouched; [done|lia].
  - unfold Memory.write, Memory.len in Hw. case_match eqn:Hb; [done|]. bool_props. lia.
Qed.

Lemma d2h_memory dst handle len h m :
  memory h = Some m -> exists m', memory (memcpy_d2h_impl feature dst handle len h).2 = Some m' /\
    untouched (as_u32 dst) (as_u32 dst + len) m m'.
Proof.
  intros Hm. unfold memcpy_d2h_impl, mbind, stM_bind.
  destruct (copy_checks _ _ _ _ _ h) as [[[dev [start end_]]|e] h1] eqn:Hc.
  - apply copy_checks_inv in Hc as (-> & Hlen & _ & _ & -> & -> & m0 & Hm0 & Hin). simplify_eq.
    destruct feature as [drv|] eqn:Hf in |- *; [|by exists m].
    destruct (bind_context _ _ _ h) as [[[]|e] h1] eqn:Hb; apply bind_context_frame in Hb as [Hb _]; cbn [fst snd];
      [|exists m; split; [congruence|done]].
    unfold exported. rewrite Hb, Hm. cbn.
    pose proof (Z.mod_pos_bound dst (2 ^ 32)). pose proof (Z.mod_pos_bound len (2 ^ 32)).
    pose proof (Z.mod_le len (2 ^ 32)). fold (as_u32 dst) (as_u32 len) in *.
    destruct (copy_out_memory drv (device_ptr handle h1) (as_u32 dst) (as_u32 dst + as_u32 len) m h1) as (m' & Hm' & Hu);
      [done|lia|done|]. exists m'. split; [done|]. eapply untouched_weaken; [done|lia].
  - exists m. split; [|done].
    pose proof (keeps_copy_checks any_text anything _ (memory_stable (memory h) (base h)) "memcpy_d2h" "dest" handle dst len
      eq_refl eq_refl h (conj eq_refl eq_refl)) as [Hk _]. rewrite Hc in Hk. cbn [fst snd] in *. congruence.
Qed.

Lemma last_error_memory dst len (h : @Caller D) m :
  memory h = Some m -> exists m', memory (last_error_copy dst len h).2 = Some m' /\ untouched dst (dst + len) m m'.
Proof.
  intros Hm. unfold last_error_copy. case_match eqn:Hneg; [by exists m|]. case_match eqn:Hz; [by exists m|].
  unfold mbind, stM_bind. cbn [get_state]. destruct (last_error (cx h)) as [msg|] eqn:Hmsg; [|by exists m].
  unfold exported. rewrite Hm. unfold lift. destruct (ok_or _ _); [|by exists m]. case_match; [by exists m|].
  destruct (Memory.write _ _ _) as [m'|] eqn:Hw; [|by exists m]. exists m'. split; [done|].
  eapply write_untouched; [done|]. rewrite length_take. bool_props. lia.
Qed.
(** C31: a host call writes the guest's memory only where its arguments point.
    [memcpy_d2h] and [last_error_copy] stay inside the destination the guest
    named; during [launch] and [sync] only kernels write it, whatever the device
    makes of it; every other call leaves it as it was, and no call changes its
    size.  The driver is assumed to fill the buffer of a copy and no more, and
    kernels to change bytes and not the size of managed memory. *)
Theorem guest_memory_safe c h m :
  memory h = Some m ->
  exists m', memory (host_fn feature param_base c h).2 = Some m' /\ Memory.len m' = Memory.len m /\
    memory_after c (base h) m m'.
Proof.
  intros Hm. assert (memory_frame c = true -> memory (host_fn feature param_base c h).2 = Some m) as Hframe.
  { intros Hc. destruct (frame_call c h Hc) as [-> _]. done. }
  destruct c; try (exists m; split_and!; [by apply Hframe|done..]).
  - destruct (kernels_call (Launch permit joined kernel_id d args_ptr args_len) h m) as (_ & m' & Hm' & Hr); [done..|].
    eauto using kernels_len.
  - destruct (kernels_call Sync h m) as (_ & m' & Hm' & Hr); [done..|]. eauto using kernels_len.
  - unfold host_fn, answer. case_match; [by exists m|].
    destruct (d2h_memory dst_ptr (join_u64 handle_lo handle_hi) len h m Hm) as (m' & Hm' & Hu).
    exists m'. split_and!; [by destruct (memcpy_d2h_impl _ _ _ _ _)|apply Hu|done].
  - unfold host_fn, answer. case_match; [by exists m|].
    destruct (last_error_memory dst_ptr dst_len h m Hm) as (m' & Hm' & Hu).
    exists m'. split_and!; [by destruct (last_error_copy _ _ _)|apply Hu|done].
Qed.
End memory.

(** ** What reaches the driver's launch

    [recording] keeps a log of the pointer queries and launches a driver is
    asked for. *)
Inductive trace :=
| Queried (p : Z) (managed : bool)
| Launched (func : Z) (d : LaunchDims) (stream : Z) (storage : KernelParamStorage).

Definition is_query (t : trace) : bool := match t with Queried _ _ => true | _ => false end.

Definition lifted {D A} (call : D -> A * D) (d : D * list trace) : A * (D * list trace) :=
  let '(a, d') := call d.1 in (a, (d', d.2)).

Definition recording {D} (drv : Driver D) : Driver (D * list trace) :=
  mkDriver _ (lifted (cuInit drv)) (fun n => lifted (cuDeviceGet drv n)) (fun n => lifted (cuDevicePrimaryCtxRetain drv n))
    (fun c => lifted (cuCtxSetCurrent drv c)) (fun n => lifted (cuMemAlloc drv n)) (fun p => lifted (cuMemFree drv p))
    (fun p bs => lifted (cuMemcpyHtoD drv p bs)) (fun p bs => lifted (cuMemcpyDtoH drv p bs))
    (fun ptx => lifted (module_from_ptx drv ptx)) (fun m n => lifted (get_function drv m n)) (lifted (stream_new drv))
    (fun p d => let '(success, res, managed, d') := cuPointerGetAttribute drv p d.1 in
                (success, res, managed, (d', d.2 ++ [Queried p (success && negb (managed =? 0))])))
    (fun f dims s st d => let '(r, d') := cuLaunchKernel drv f dims s st d.1 in (r, (d', d.2 ++ [Launched f dims s st])))
    (lifted (event_new drv)) (fun e s => lifted (event_record drv e s)) (fun s => lifted (stream_synchronize drv s))
    (lifted (context_synchronize drv)) (fun b bs d => device_writes drv b bs d.1).

Definition same_log {D} (d d' : D * list trace) : Prop := d'.2 = d.2.

Lemma lifted_calm {D A} (call : D -> result str A * D) : calm any_text same_log (lifted call).
Proof. intros d. unfold lifted. by destruct (call d.1). Qed.

Lemma recording_calm {D} (drv : Driver D) : Calm any_text same_log (recording drv).
Proof.
  split; [split|..]; intros; try apply lifted_calm. split; [|done]. simpl. unfold lifted. by destruct (cuMemcpyDtoH _ _ _ _) as [[]].
Qed.

Section launches.
Context {D : Type} (drv : Driver D) (param_base : Z).
Abbreviation feature := (Some (recording drv)).
Abbreviation C := (@Caller (D * list trace)).
Abbreviation M := (stM C AbiError).
Abbreviation log h := ((driver h).2).

(** What a launch reads, and the log. *)
Record frame (h0 h : C) : Prop := {
  fr_log : log h = log h0;
  fr_registry : registry (cx h) = registry (cx h0);
  fr_instance : instance_id (cx h) = instance_id (cx h0);
  fr_memory : memory h = memory h0;
  fr_base : base h = base h0;
}.

Lemma frame_stable h0 : Stable any_text same_log (frame h0).
Proof.
  split; [split; [done|done|..]|..]; intros; match goal with Hf : frame _ _ |- _ => destruct Hf end;
    unfold same_log in *; split; cbn; congruence.
Qed.

Definition emits {A} (m : M A) (Q : list trace -> Prop) (h : C) : Prop :=
  exists seg, log (m h).2 = log h ++ seg /\ Q seg.

Lemma emits_bind {A B} (m : M A) (f : A -> M B) Q h :
  keeps (frame h) m -> Q [] -> (forall a h', frame h h' -> m h = (Ok a, h') -> emits (f a) Q h') -> emits (m ≫= f) Q h.
Proof.
  intros Hm HQ Hf. pose proof (Hm h ltac:(done)) as Hfr. unfold emits, mbind, stM_bind.
  destruct (m h) as [[a|e] h'] eqn:Hmh; cbn [fst snd] in *.
  - destruct (Hf a h' Hfr eq_refl) as (seg & Hs & HQs). exists seg. by rewrite Hs, (fr_log _ _ Hfr).
  - exists []. rewrite app_nil_r. by split; [apply Hfr|].
Qed.

Lemma emits_after {A B} (m : M A) (f : A -> M B) Q h :
  emits m Q h -> (forall a h', log (f a h').2 = log h') -> emits (m ≫= f) Q h.
Proof.
  intros (seg & Hs & HQ) Hf. exists seg. split; [|done]. rewrite <-Hs. unfold mbind, stM_bind.
  by destruct (m h) as [[a|e] h']; [apply Hf|].
Qed.

Lemma log_stable (h : C) : Stable any_text same_log (fun h' : C => log h' = log h).
Proof. split; [split|..]; try done; unfold same_log; cbn; congruence. Qed.

Lemma emits_frame {A} (m : M A) (Q : list trace -> Prop) h : keeps (frame h) m -> Q [] -> emits m Q h.
Proof. intros Hm HQ. exists []. rewrite app_nil_r. split; [|done]. by apply (Hm h). Qed.
Lemma recording_feature drv' : feature = Some drv' -> Calm any_text same_log drv'.
Proof. intros [= <-]. apply recording_calm. Qed.

Definition pointers (args : list LoweredArg) : list Z :=
  omap (fun a => match a with Ptr p _ _ => Some p | _ => None end) args.

Lemma check_pointers_log args h :
  exists qs, log (check_pointers (recording drv) args h).2 = log h ++ qs /\ forallb is_query qs = true /\
    ((check_pointers (recording drv) args h).1 = Ok () -> qs = (fun p => Queried p true) <$> pointers args).
Proof.
  revert h. induction args as [|a args IH]; intros h.
  { exists []. rewrite app_nil_r. by split_and!. }
  destruct a; try apply IH. cbn [check_pointers]. unfold mbind, stM_bind, check_managed. cbn.
  destruct (cuPointerGetAttribute drv host_ptr (driver h).1) as [[[success res] managed] d]. cbn.
  destruct (negb success || (managed =? 0)) eqn:Hbad.
  - eexists [_]. split_and!; done.
  - destruct (IH (set_driver (d, log h ++ [Queried host_ptr (success && negb (managed =? 0))]) h)) as (qs & Hl & Hq & Hok).
    eexists (_ :: qs). split_and!.
    + rewrite Hl. cbn. by rewrite <-app_assoc.
    + done.
    + intros Hr. rewrite (Hok Hr). cbn. bool_props. subst. by rewrite (proj2 (Z.eqb_neq _ _)).
Qed.

(** The log of a launch that reached the driver: every pointer argument was
    asked about and managed, and then the kernel was launched with these
    arguments. *)
Definition launched (d : LaunchDims) (args : list LoweredArg) (seg : list trace) : Prop :=
  exists func stream, seg = ((fun p => Queried p true) <$> pointers args) ++
    [Launched func d stream (build_kernel_param_storage param_base args)].

Definition quiet_or (P : list trace -> Prop) (seg : list trace) : Prop := forallb is_query seg = true \/ P seg.

Lemma quiet_error h msg : keeps (frame h) (record_error msg).
Proof. by apply (keeps_error any_text same_log _ (frame_stable h)). Qed.

Lemma quiet_drive {A} h (call : D -> result str A * D) handler :
  (forall e, keeps (frame h) (handler e)) -> keeps (frame h) (drive (lifted call) handler).
Proof. intros Hh. apply (keeps_drive any_text same_log _ (frame_stable h)); [apply lifted_calm|auto]. Qed.

Ltac quiet := repeat (intros; first [keeps_step | apply quiet_error | apply quiet_drive]).

Lemma start_kernel_log func d stream args (h : C) {B} (f : () -> M B) (handler : str -> M ()) :
  (forall e h', keeps (frame h') (handler e)) -> (forall u h', keeps (frame h') (f u)) ->
  let storage := build_kernel_param_storage param_base args in
  emits (drive_kernels (recording drv) (cuLaunchKernel (recording drv) func d stream storage) handler ≫= f)
    (fun seg => seg = [Launched func d stream storage]) h.
Proof.
  intros Hh Hf storage. apply emits_after; [|intros a h'; by apply (Hf a h' h')].
  eexists [_]. split; [|done]. unfold drive_kernels. cbn.
  destruct (cuLaunchKernel _ _ _ _ _ _) as [[a|e] d']; [done|].
  set (h1 := kernels_write _ _). by destruct (Hh e h1 h1 ltac:(done)) as [-> _ _ _ _].
Qed.

Lemma launch_cuda_log kid k args d h :
  emits (resolve_and_launch_cuda param_base (recording drv) kid k args d) (quiet_or (launched d args)) h.
Proof.
  unfold resolve_and_launch_cuda.
  apply emits_bind; [by eapply keeps_bind_context; eauto using frame_stable, recording_feature|by left|intros _ h1 _ _].
  apply emits_bind; [quiet|by left|intros h0 h2 _ _]. apply emits_bind; [quiet|by left|intros module h3 _ _].
  apply emits_bind; [quiet|by left|intros func h4 _ _]. apply emits_bind; [quiet|by left|intros stream h5 _ _].
  destruct (check_pointers_log args h5) as (qs & Hl & Hq & Hok). unfold emits, mbind at 1, stM_bind at 1.
  destruct (check_pointers _ _ _) as [[[]|e] h6]; cbn [fst snd] in *; [|exists qs; split; [done|by left]].
  match goal with |- context [(drive_kernels _ _ ?handler ≫= ?f) h6] =>
    destruct (start_kernel_log func d stream args h6 f handler) as (seg & Hs & ->); [quiet|quiet|] end.
  exists (qs ++ [Launched func d stream (build_kernel_param_storage param_base args)]).
  rewrite app_assoc, <-Hl, <-Hs. split; [done|]. right. exists func, stream. by rewrite (Hok eq_refl).
Qed.
Definition i32 (z : Z) : Prop := - 2 ^ 31 <= z < 2 ^ 31.

(** The dimensions are values of the parameters' type. *)
Definition typed_dims (d : LaunchDims) : Prop :=
  i32 (grid_x d) /\ i32 (grid_y d) /\ i32 (grid_z d) /\ i32 (block_x d) /\ i32 (block_y d) /\ i32 (block_z d) /\
  i32 (shared_mem d).

Record dims_ok (d : LaunchDims) : Prop := {
  do_grid : 0 < grid_x d /\ 0 < grid_y d /\ 0 < grid_z d;
  do_block : 0 < block_x d <= 1024 /\ 0 < block_y d <= 1024 /\ 0 < block_z d <= 1024;
  do_threads : block_x d * block_y d * block_z d <= 1024;
  do_shared : 0 <= shared_mem d <= 228 * 1024;
}.

Lemma check_dims_inv d (h : C) u h' : typed_dims d -> check_dims d h = (Ok u, h') -> dims_ok d /\ h' = h.
Proof.
  unfold typed_dims, i32, check_dims. intros Ht Hr. repeat (case_match; [done|]). bool_props.
  unfold MAX_BLOCK_DIM, MAX_DYNAMIC_SHARED_MEM_BYTES, MAX_THREADS_PER_BLOCK, as_u32, as_u64, checked_mul in *.
  rewrite !Z.mod_small in * by lia. assert (0 < block_x d * block_y d <= 1024 * 1024) by nia.
  assert (block_x d * block_y d * block_z d <= 1024 * 1024 * 1024) by nia.
  rewrite (proj2 (Z.leb_le _ _)) in Hr by lia. cbn [mbind option_bind] in Hr.
  rewrite (proj2 (Z.leb_le _ _)) in Hr by lia. repeat (case_match; [done|]). bool_props. injection Hr as <- <-.
  split; [|done]. split; lia.
Qed.

Lemma check_args_region_inv ap al (h : C) u h' :
  check_args_region ap al h = (Ok u, h') ->
  h' = h /\ 0 <= ap /\ 0 <= al /\ (0 < al -> exists m, memory h = Some m /\ ap + al <= Memory.len m).
Proof.
  unfold check_args_region. case_match eqn:Hneg; [done|]. bool_props. case_match eqn:Hal; bool_props.
  - intros (m & h1 & Hm & Hr)%stM_bind_inv. apply exported_inv in Hm as [Hm ->]; [|done].
    destruct (checked_add _ _ _) eqn:Hadd; [|done]. case_match eqn:Hlen; [done|]. injection Hr as <- <-. bool_props.
    split_and!; try done. intros _. exists m. split; [done|lia].
  - intros [= <- <-]. split_and!; [done|done|done|lia].
Qed.

(** The arguments a launch decodes from the guest's memory. *)
Definition decoded (h : C) (ap al : Z) (args : list LoweredArg) : Prop :=
  al = 0 /\ args = [] \/
  exists m, memory h = Some m /\ 0 <= ap /\ ap + al <= Memory.len m /\
    slice (Z.to_nat ap) (Z.to_nat (ap + al)) (Memory.data m) = encode_argv args /\
    (length args <= MAX_KERNEL_ARGS)%nat /\ Forall (KernelArgsFacts.arg_ok (base h) (Memory.len m)) args.

Lemma parse_argv_inv b n buf args : parse_argv b n buf = Ok args ->
  buf = encode_argv args /\ (length args <= MAX_KERNEL_ARGS)%nat /\ Forall (KernelArgsFacts.arg_ok b n) args.
Proof.
  unfold parse_argv. case_bool_decide; [done|].
  intros (args' & -> & <- & Hok & Hl)%KernelArgsFacts.parse_inv; [|done|simpl; lia]. by split_and!.
Qed.

Lemma resolve_inv ap al (h : C) args h' :
  0 <= ap -> 0 <= al -> (0 < al -> exists m, memory h = Some m /\ ap + al <= Memory.len m) ->
  resolve ap al h = (Ok args, h') -> decoded h ap al args.
Proof.
  intros Hap Hal Hmem. unfold resolve. case_match eqn:Hz; bool_props; [intros [= <- <-]; left; split; [lia|done]|].
  destruct (Hmem ltac:(lia)) as (m & Hm & Hin). intros (m' & h1 & Hm' & Hr)%stM_bind_inv.
  apply exported_inv in Hm' as [Hm' ->]; [|done]. simplify_eq. apply stM_bind_inv in Hr as (? & ? & [= <- <-] & Hr).
  apply or_record_inv in Hr as [= Hp _]. apply parse_argv_inv in Hp as (? & ? & ?). right. exists m. by split_and!.
Qed.
Definition typed_call (c : hostcall) : Prop :=
  match c with Launch _ _ _ d _ _ => typed_dims d | _ => True end.

(** The launch that [c] asks for, when it is one the host may make. *)
Definition may_launch (c : hostcall) (h : C) (seg : list trace) : Prop :=
  exists joined kid d ap al args k,
    c = Launch (Ok ()) joined kid d ap al /\ wasi_cuda_enabled (cx h) = true /\ dims_ok d /\ decoded h ap al args /\
    KernelRegistry.lookup (registry (cx h)) (as_u64 kid) (instance_id (cx h)) = Ok k /\ launched d args seg.

Lemma after_launch_log stream joined args (h : C) :
  log ((wait_for_stream (recording drv) stream joined ≫= fun _ =>
        on_cx (set_args args) ≫= fun _ => on_cx record_kernel_launched) h).2 = log h.
Proof.
  pose proof (log_stable h) as HS. set (I := fun h' : C => log h' = log h) in *.
  assert (forall m : M (), keeps I m -> log (m h).2 = log h) as Hk by (intros m Hm; by apply (Hm h)).
  apply Hk. apply keeps_bind; [|intros _; apply keeps_bind; [|intros _]];
    eauto using keeps_set_args, keeps_launched.
  by apply (keeps_wait feature any_text same_log I HS recording_feature).
Qed.

Lemma launch_log joined kid d ap al h :
  typed_dims d -> wasi_cuda_enabled (cx h) = true ->
  emits (launch_impl_async_inner feature param_base (Ok ()) joined kid d ap al)
    (quiet_or (may_launch (Launch (Ok ()) joined kid d ap al) h)) h.
Proof.
  intros Ht Hen. unfold launch_impl_async_inner.
  apply emits_bind; [by eapply keeps_validate, frame_stable|by left|].
  intros id h1 Hf1 Hv. unfold validate_launch_args in Hv. apply stM_bind_inv in Hv as (u & h1' & Hregion & Hv).
  apply check_args_region_inv in Hregion as (-> & Hap & Hal & Hmem). case_match eqn:Hkid; [done|].
  apply stM_bind_inv in Hv as (u' & h1' & Hdims & Hv). apply check_dims_inv in Hdims as [Hdims ->]; [|done].
  injection Hv as <- <-.
  apply emits_bind; [by eapply keeps_resolve, frame_stable|by left|]. intros args h2 Hf2 Hres.
  apply resolve_inv in Hres; [|done..].
  apply emits_bind; [by eapply keeps_set_args, frame_stable|by left|]. intros _ h3 Hf3 _.
  apply emits_bind; [quiet|by left|]. intros h3' h4 _ [= <- <-].
  apply emits_bind; [quiet|by left|]. intros k h5 _ [= Hk <-].
  apply emits_after; [|intros stream h'; by apply after_launch_log].
  destruct (launch_cuda_log (as_u64 kid) k args d h3) as (seg & Hs & Hq). exists seg. split; [done|].
  destruct Hq as [?|?]; [by left|]. right. exists joined, kid, d, ap, al, args, k. split_and!; try done.
  by rewrite <-(fr_registry _ _ Hf2), <-(fr_registry _ _ Hf3), <-(fr_instance _ _ Hf2), <-(fr_instance _ _ Hf3).
Qed.

Lemma other_calls_log c h :
  match c with Launch _ _ _ _ _ _ => False | _ => True end -> log (host_fn feature param_base c h).2 = log h.
Proof.
  intros Hc. unfold host_fn. destruct (negb _); [done|]. set (I := fun h' : C => log h' = log h).
  pose proof (log_stable h : Stable any_text same_log I) as HS.
  assert (forall A (f : A -> Z) (m : M A), keeps I m -> log (answer f m h).2 = log h) as Hans.
  { intros A f m Hm. specialize (Hm h eq_refl). unfold answer. by destruct (m h). }
  destruct c; try done; apply Hans.
  - eapply keeps_load_ptx; [done|apply recording_feature|].
    intros e ptx module _ _ _ h' Hh. unfold register. destruct (KernelRegistry.register _ _) as [[] ?]; apply Hh.
  - eapply keeps_sync; [done|apply recording_feature|done].
  - eapply keeps_alloc; [done|apply recording_feature].
  - eapply keeps_free; [done|apply recording_feature].
  - eapply keeps_h2d; [done|apply recording_feature].
  - eapply keeps_d2h; [done|apply recording_feature|done].
  - by apply keeps_last_error_copy.
Qed.

(** C2: a kernel is launched only for an enabled guest's [launch] call that
    passed every check.  On a CUDA build whose driver records what it is asked,
    each call adds to the record either pointer queries only, or one launch:
    of a kernel the instance owns, with grid, block and shared-memory sizes
    inside the device's limits, with the arguments the guest's buffer encodes
    -- each pointer in the bounds of its linear memory -- and after the driver
    confirmed for every pointer that it is managed memory. *)
Theorem launches_validated c h :
  typed_call c ->
  exists seg, log (host_fn feature param_base c h).2 = log h ++ seg /\ quiet_or (may_launch c h) seg.
Proof.
  intros Ht. destruct (wasi_cuda_enabled (cx h)) eqn:Hen; cycle 1.
  { exists []. unfold host_fn. rewrite Hen, app_nil_r. split; [done|by left]. }
  destruct c as [|permit joined kid d ap al| | | | | | |];
    try (exists []; rewrite app_nil_r, other_calls_log by done; split; [done|by left]).
  unfold host_fn, answer. rewrite Hen. cbn [negb]. destruct permit as [[]|e].
  - pose proof (launch_log joined kid d ap al h Ht Hen). unfold emits in *. by destruct (launch_impl_async_inner _ _ _ _ _ _ _ _ _).
  - destruct (emits_frame (launch_impl_async_inner feature param_base (Err e) joined kid d ap al)
      (quiet_or (may_launch (Launch (Err e) joined kid d ap al) h)) h) as (seg & ? & ?); [|by left|].
    + unfold launch_impl_async_inner. apply keeps_bind; [by eapply keeps_validate, frame_stable|intros _].
      apply keeps_bind; [by eapply keeps_rejection, frame_stable|quiet].
    + exists seg. by destruct (launch_impl_async_inner _ _ _ _ _ _ _ _ _).
Qed.
End launches.

(** ** The state a guest leaves behind *)
Definition utf8 (s : str) : Prop := Utf8.valid s = true.

Lemma digits_utf8 x s : utf8 (bytes_of s) -> utf8 (bytes_of (pretty_N_go x s)).
Proof.
  revert s. induction (N.lt_wf_0 x) as [x _ IH]. intros s Hs. destruct (decide (0 < x)%N) as [Hx|Hx]; cycle 1.
  { assert (x = 0%N) as -> by lia. by rewrite pretty_N_go_0. }
  rewrite pretty_N_go_step by done. apply IH; [by apply N.div_lt|]. revert Hs. unfold utf8.
  assert (x mod 10 < 10)%N as Hd by (by apply N.mod_lt). revert Hd. generalize (x mod 10)%N. intros d Hd Hs.
  change (Utf8.valid ([Ascii.byte_of_ascii (pretty_N_char d)] ++ bytes_of s) = true).
  apply Utf8Facts.valid_app; [|done].
  assert (d = 0 \/ d = 1 \/ d = 2 \/ d = 3 \/ d = 4 \/ d = 5 \/ d = 6 \/ d = 7 \/ d = 8 \/ d = 9)%N as Hcases by lia.
  by repeat destruct Hcases as [-> | Hcases]; subst.
Qed.

Lemma utf8_texts : Texts utf8.
Proof.
  assert (forall z, utf8 (dec z)) as Hdec.
  { intros z. unfold dec, pretty, pretty_N. case_decide; [done|]. by apply digits_utf8. }
  split; try done; [apply Utf8Facts.valid_app|]. intros z. unfold signed_dec. case_match; [|done].
  apply Utf8Facts.valid_app; [done|apply Hdec].
Qed.

Lemma lookup_kernel reg id who k :
  KernelRegistry.lookup reg id who = Ok k -> KernelRegistry.entries reg !! id = Some k.
Proof. unfold KernelRegistry.lookup. intros Hl. inv_bind Hl. unfold ok_or in *. repeat case_match; by simplify_eq. Qed.

Section invariant.
Context {D : Type} (feature : option (Driver D)) (param_base : Z).

(** The driver's messages are Rust strings. *)
Record utf8_driver (drv : Driver D) : Prop := {
  ud_calm : Calm utf8 anything drv;
  ud_attr p d : utf8 (cuPointerGetAttribute drv p d).1.1.2;
  ud_launch f dims s st : calm utf8 anything (cuLaunchKernel drv f dims s st);
}.
Hypothesis texts : forall drv, feature = Some drv -> utf8_driver drv.

Definition SEED_MAX : Z := 0x7fffffffffff0001.

Record host_ok (h : @Caller D) : Prop := {
  ho_error s : last_error (cx h) = Some s -> utf8 s /\ (length s <= MAX_RECORDED_ERROR_BYTES + 3)%nat;
  ho_lock e : primary_ctx h = Some (Err e) -> utf8 e;
  ho_registry : KernelRegistryFacts.registry_ok (registry (cx h));
  ho_next : KernelRegistry.next_id (registry (cx h)) <= SEED_MAX + Z.of_nat (size (KernelRegistry.entries (registry (cx h))));
  ho_kernel id e : KernelRegistry.entries (registry (cx h)) !! id = Some e ->
    KernelRegistry.owner e = instance_id (cx h) /\ utf8 (KernelRegistry.entry e) /\
    Z.of_nat (length (KernelRegistry.entry e)) <= MAX_ENTRY_NAME_BYTES /\
    (is_Some feature -> is_Some (modules h !! id));
}.

Lemma host_ok_stable : Stable utf8 anything host_ok.
Proof.
  split; [split; [apply utf8_texts|intros h e Hh; apply Hh|..]|..]; intros;
    match goal with Hh : host_ok _ |- _ => destruct Hh end; split; try done.
  - intros e [= ->]. by auto.
  - cbn. intros s [= <-]. by apply Utf8Facts.truncate_chars_ok.
Qed.

Lemma register_host_ok entry ptx module :
  utf8 entry -> Z.of_nat (length entry) <= MAX_ENTRY_NAME_BYTES -> (is_Some module <-> is_Some feature) ->
  keeps host_ok (@register D entry ptx module).
Proof.
  intros He Hl Hm h [Herr Hlock Hreg Hnext Hk]. unfold register.
  set (e := KernelRegistry.mkKernelEntry _ _ _).
  pose proof (KernelRegistryFacts.register_ok (registry (cx h)) e Hreg ltac:(cbn; lia)) as [Hreg' Hout].
  unfold KernelRegistry.register in *. destruct (_ <=? _); [by split|]. destruct (_ <? _); [by split|]. cbn [fst snd] in *.
  destruct Hout as [Hnone _]. split; [done|done|done|..].
  - cbn. rewrite map_size_insert_None by done. lia.
  - cbn. intros id e' [[<- <-]|[Hne Hl']]%lookup_insert_Some.
    + split_and!; try done. intros [m ->]%Hm. by rewrite lookup_insert_eq.
    + destruct (Hk _ _ Hl') as (? & ? & ? & Hmod). split_and!; try done. intros Hf.
      destruct module; [by rewrite lookup_insert_ne; auto|auto].
Qed.

(** C33: whatever calls a guest makes and whatever the driver answers, the
    instance's state stays well formed: the recorded error is valid UTF-8 of
    bounded length, the kernel registry respects its caps, its ids fit a
    positive [i64], and every kernel in it belongs to this instance, has a
    valid name of bounded length and, on a CUDA build, a compiled module. *)
Theorem host_invariant cs h : host_ok h -> host_ok (run feature param_base cs h).
Proof.
  apply (keeps_run _ _ utf8 anything); [apply host_ok_stable|by intros drv ?%texts; apply ud_calm|..].
  - intros drv p d Hf. split; [|done]. by apply ud_attr, texts.
  - apply register_host_ok.
  - intros drv f dims s st Hf. by apply ud_launch, texts.
  - intros h' id who k Hh Hl. by destruct (ho_kernel _ Hh id k) as (_ & ? & _); [apply (lookup_kernel _ _ who)|].
  - intros m h' []. by split.
Qed.
End invariant.

(** The recorded text can exceed the constant that caps it, by the ellipsis. *)
Lemma recorded_error_over_cap {D} (h : @Caller D) :
  exists s, last_error (cx (record_error (replicate 513 Byte.x61) h).2) = Some s /\
    length s = (MAX_RECORDED_ERROR_BYTES + 3)%nat.
Proof. by eexists. Qed.

(** ** Copies to and from the device *)
Lemma answer_zero {D A} (m : stM (@Caller D) AbiError A) h h' :
  answer (fun _ => 0) m h = (0, h') -> exists a, m h = (Ok a, h').
Proof. unfold answer. destruct (m h) as [[a|[]] h1]; intros [= <-]; eauto. Qed.

Section copies.
Context {D : Type} (drv : Driver D) (param_base : Z) (contents : D -> Z -> list u8).

(** A copy to the device is what its memory then holds, a copy from it returns
    what it holds, and binding the context changes nothing. *)
Definition same_contents (d d' : D) : Prop := forall p, contents d' p = contents d p.

Record memory_laws : Prop := {
  law_context : CalmContext any_text same_contents drv;
  law_h2d p bs d : (cuMemcpyHtoD drv p bs d).1 = Ok () -> take (length bs) (contents (cuMemcpyHtoD drv p bs d).2 p) = bs;
  law_d2h p buf d : (cuMemcpyDtoH drv p buf d).1.1 = Ok () -> (cuMemcpyDtoH drv p buf d).1.2 = take (length buf) (contents d p);
}.
Hypothesis laws : memory_laws.

(** Binding the context changes neither the device's memory nor what a copy
    reads of the caller. *)
Record bound (h h' : @Caller D) : Prop := {
  bo_contents : same_contents (driver h) (driver h');
  bo_cx : cx h' = cx h;
  bo_memory : memory h' = memory h;
  bo_ptrs : device_ptrs h' = device_ptrs h;
}.

Lemma bind_context_Ok name e h u h' : bind_context drv name e h = (Ok u, h') -> bound h h'.
Proof.
  assert (StableContext any_text same_contents (bound h)) as HS.
  { split; try done; intros d h1; unfold same_contents; intros; match goal with Hb : bound _ _ |- _ => destruct Hb end;
      split; try done; cbn. intros p. by rewrite H, bo_contents0. }
  destruct (told_ensure drv any_text same_contents _ HS (law_context laws) h ltac:(done)) as [Hb _].
  unfold bind_context. destruct (ensure_current_context drv h) as [[]]; [|done]. by intros [= <- <-].
Qed.

Lemma h2d_inv handle src len h h' :
  memcpy_h2d_impl (Some drv) handle src len h = (Ok (), h') ->
  exists m dev, memory h = Some m /\ 0 <= len /\ as_u32 src + as_u32 len <= Memory.len m /\
    DeviceMem.lookup (shared h) (device_mem (cx h)) handle (instance_id (cx h)) = Ok dev /\ as_u32 len <= DeviceMem.size dev /\
    take (Z.to_nat (as_u32 len)) (contents (driver h') (device_ptr handle h)) =
      slice (Z.to_nat (as_u32 src)) (Z.to_nat (as_u32 src + as_u32 len)) (Memory.data m) /\
    cx h' = cx h /\ memory h' = memory h /\ device_ptrs h' = device_ptrs h.
Proof.
  unfold memcpy_h2d_impl. intros ([dev [start end_]] & h1 & Hc & Hr)%stM_bind_inv.
  apply copy_checks_inv in Hc as (-> & Hlen & Hdev & Hsize & -> & -> & m & Hm & Hin).
  apply stM_bind_inv in Hr as (u & h1 & Hb%bind_context_Ok & Hr). apply stM_bind_inv in Hr as (m' & h2 & Hm' & Hr).
  apply exported_inv in Hm' as [Hm' ->]; [|done]. rewrite (bo_memory _ _ Hb), Hm in Hm'. simplify_eq.
  apply stM_bind_inv in Hr as (? & ? & [= <- <-] & Hr). exists m', dev. do 5 (split; [done|]). revert Hr. unfold drive.
  set (bs := slice _ _ _). replace (device_ptr handle h1) with (device_ptr handle h) by (unfold device_ptr; by rewrite (bo_ptrs _ _ Hb)).
  pose proof (law_h2d laws (device_ptr handle h) bs (driver h1)) as Hlaw.
  destruct (cuMemcpyHtoD _ _ _ _) as [[[]|e] d]; [|done]. intros [= <-]. cbn in *. specialize (Hlaw eq_refl).
  split; [|split_and!; apply Hb]. etrans; [|exact Hlaw]. f_equal. unfold bs, Memory.len in *.
  pose proof (Z.mod_pos_bound src (2 ^ 32)). pose proof (Z.mod_pos_bound len (2 ^ 32)). fold (as_u32 src) (as_u32 len) in *.
  rewrite slice_length; lia.
Qed.

Lemma d2h_inv dst handle len h h' :
  memcpy_d2h_impl (Some drv) dst handle len h = (Ok (), h') ->
  exists m, memory h = Some m /\ as_u32 dst + as_u32 len <= Memory.len m /\
    memory h' = Memory.write m (as_u32 dst) (take (Z.to_nat (as_u32 len)) (contents (driver h) (device_ptr handle h))).
Proof.
  unfold memcpy_d2h_impl. intros ([dev [start end_]] & h1 & Hc & Hr)%stM_bind_inv.
  apply copy_checks_inv in Hc as (-> & Hlen & _ & _ & -> & -> & m & Hm & Hin).
  apply stM_bind_inv in Hr as (u & h1 & Hb%bind_context_Ok & Hr). apply stM_bind_inv in Hr as (m' & h2 & Hm' & Hr).
  apply exported_inv in Hm' as [Hm' ->]; [|done]. rewrite (bo_memory _ _ Hb), Hm in Hm'. simplify_eq.
  apply stM_bind_inv in Hr as (? & ? & [= <- <-] & Hr). exists m'. do 2 (split; [done|]). revert Hr. unfold copy_out.
  set (buf := slice _ _ _). replace (device_ptr handle h1) with (device_ptr handle h) by (unfold device_ptr; by rewrite (bo_ptrs _ _ Hb)).
  pose proof (law_d2h laws (device_ptr handle h) buf (driver h1)) as Hlaw.
  destruct (cuMemcpyDtoH _ _ _ _) as [[[[]|e] out] d]; [|done]. intros [= <-]. cbn in *. rewrite Hlaw by done. f_equal.
  rewrite (bo_contents _ _ Hb). f_equal. unfold buf, Memory.len in *.
  pose proof (Z.mod_pos_bound dst (2 ^ 32)). pose proof (Z.mod_pos_bound len (2 ^ 32)). fold (as_u32 dst) (as_u32 len) in *.
  rewrite slice_length; lia.
Qed.

(** C32: a guest gets back what it stored.  When [memcpy_h2d] to a device buffer
    and then [memcpy_d2h] from it both succeed, the destination holds the bytes
    the source held, both lie inside the guest's memory, and the buffer is one
    this instance owns and is large enough.  The driver's copies are assumed to
    keep what they store. *)
Theorem device_roundtrip h h1 h2 m lo hi src dst len :
  memory h = Some m -> i32 len ->
  host_fn (Some drv) param_base (MemcpyH2D lo hi src len) h = (0, h1) ->
  host_fn (Some drv) param_base (MemcpyD2H dst lo hi len) h1 = (0, h2) ->
  exists m2 bs dev, memory h2 = Some m2 /\ Memory.read m (as_u32 src) (Z.to_nat len) = Some bs /\
    Memory.read m2 (as_u32 dst) (Z.to_nat len) = Some bs /\
    DeviceMem.lookup (shared h) (device_mem (cx h)) (join_u64 lo hi) (instance_id (cx h)) = Ok dev /\
    len <= DeviceMem.size dev.
Proof.
  intros Hm Hlen. unfold host_fn. destruct (negb (wasi_cuda_enabled (cx h))); [done|].
  intros [[] Hh2d]%answer_zero. destruct (negb (wasi_cuda_enabled (cx h1))); [done|]. intros [[] Hd2h]%answer_zero.
  apply h2d_inv in Hh2d as (m0 & dev & Hm0 & Hpos & Hin & Hdev & Hsize & Hstored & Hcx & Hmem & Hptrs).
  apply d2h_inv in Hd2h as (m1 & Hm1 & Hin1 & Hm2). simplify_eq. rewrite Hmem, Hm in Hm1. simplify_eq. unfold i32 in *.
  assert (as_u32 len = len) as Hl by (unfold as_u32; rewrite Z.mod_small; lia). rewrite Hl in *.
  pose proof (Z.mod_pos_bound src (2 ^ 32)). pose proof (Z.mod_pos_bound dst (2 ^ 32)). fold (as_u32 src) (as_u32 dst) in *.
  replace (device_ptr _ h1) with (device_ptr (join_u64 lo hi) h) in Hm2 by (unfold device_ptr; by rewrite Hptrs).
  rewrite Hstored in Hm2. set (bs := slice (Z.to_nat (as_u32 src)) _ _) in *.
  assert (Memory.read m1 (as_u32 src) (Z.to_nat len) = Some bs) as Hread.
  { unfold Memory.read, bs. rewrite (proj2 (Z.leb_le _ _)), (proj2 (Z.leb_le _ _)) by lia. cbn [andb]. repeat f_equal. lia. }
  assert (length bs = Z.to_nat len) as Hbs by (unfold bs, Memory.len in *; rewrite slice_length; lia).
  destruct (Memory.write m1 (as_u32 dst) bs) as [m2|] eqn:Hw.
  - exists m2, bs, dev. split_and!; try done. rewrite <-Hbs. by eapply MemoryFacts.read_write.
  - unfold Memory.write, Memory.len in *. case_match eqn:Hb; [done|]. bool_props. lia.
Qed.
End copies.
End HostClaims.

(** ** A simulated device

    One device whose memory is a map from pointers to buffers, and whose only
    kernel writes four bytes of the managed memory at 4096; it is what the
    theorems above are tried on. *)
Module Sim.
Import KernelArgs Host HostFacts HostClaims.

Definition Device : Type := Z * gmap Z (list u8).

Definition contents (d : Device) (p : Z) : list u8 := default [] (d.2 !! p).

Definition done {A} (a : A) (d : Device) : result str A * Device := (Ok a, d).

Definition driver : Driver Device :=
  mkDriver Device (done ()) (fun _ => done 0) (fun _ => done 5) (fun _ => done ()) (fun n d => (Ok d.1, (d.1 + 1, <[d.1 := replicate (Z.to_nat n) Byte.x00]> d.2)))
    (fun p d => (Ok (), (d.1, delete p d.2)))
    (fun p bs d => (Ok (), (d.1, <[p := bs ++ drop (length bs) (contents d p)]> d.2)))
    (fun p buf d =>
       if bool_decide (length buf <= length (contents d p))%nat then (Ok (), take (length buf) (contents d p), d)
       else (Err (bytes_of "CUDA_ERROR_INVALID_VALUE"), buf, d))
    (fun _ => done 7) (fun m _ => done m) (done 1) (fun p d => (true, bytes_of "CUDA_SUCCESS", 1, d))
    (fun _ _ _ _ d => (Ok (), (d.1, <[4096 := replicate 4 Byte.x2a]> d.2)))
    (done 2) (fun _ _ => done ()) (fun _ => done ()) (done ())
    (fun b bs d => take (length bs) (contents d b ++ drop (length (contents d b)) bs)).

Lemma sim_laws : memory_laws driver contents.
Proof.
  split; [by split|..].
  - intros p bs d _. unfold contents. cbn [driver cuMemcpyHtoD snd]. rewrite lookup_insert_eq. apply take_app_length.
  - intros p buf d. cbn. by case_bool_decide.
Qed.

Lemma sim_buffer p bs d : length (cuMemcpyDtoH driver p bs d).1.2 = length bs.
Proof. cbn. case_bool_decide; [|done]. cbn. rewrite length_take. lia. Qed.

Lemma sim_kernels b bs d : length (device_writes driver b bs d) = length bs.
Proof. cbn. rewrite length_take, length_app, length_drop. lia. Qed.

Lemma sim_utf8 : utf8_driver driver.
Proof.
  split; [split; [split|..]|..]; try done. intros p bs d. split; [done|]. cbn. case_bool_decide; [done|]. by intros e [= <-].
Qed.

(** A guest whose memory holds a kernel's text, its name and an argument
    buffer with an integer and a pointer to the memory's first four bytes. *)
Definition guest : list u8 :=
  bytes_of "ptxk" ++ encode_argv [I32 5; ptr_for_encoding 0 4] ++ replicate 8 Byte.x00.

Definition caller {D} (d : D) : @Caller D :=
  mkCaller (enable_wasi_cuda (new 9 12345678 0)) (Some (Memory.mk guest 1)) 4096 (DeviceMem.run [DeviceMem.NewRegistry 0] (DeviceMem.initial 1)).1
    ∅ ∅ None d.

Definition first : @Caller Device := caller (100, ∅).
Definition after (cs : list hostcall) : Caller := run (Some driver) 0 cs first.
Definition store : hostcall := MemcpyH2D 1 0 0 4.
Definition allocated : Caller := after [Alloc 8 0].
Definition stored : Caller := (host_fn (Some driver) 0 store allocated).2.
Definition fetch : hostcall := MemcpyD2H 18 1 0 4.

Lemma stored_answers : (host_fn (Some driver) 0 store allocated).1 = 0 /\
  (host_fn (Some driver) 0 fetch stored).1 = 0.
Proof. by vm_compute. Qed.

Lemma answered {A} (p : Z * A) : p.1 = 0 -> p = (0, p.2).
Proof. destruct p. cbn. congruence. Qed.

Lemma device_roundtrip_witness : exists m2 bs dev,
  memory (host_fn (Some driver) 0 fetch stored).2 = Some m2 /\
  Memory.read (Memory.mk guest 1) (as_u32 0) (Z.to_nat 4) = Some bs /\ Memory.read m2 (as_u32 18) (Z.to_nat 4) = Some bs /\
  DeviceMem.lookup (shared allocated) (device_mem (cx allocated)) (join_u64 1 0)
    (instance_id (cx allocated)) = Ok dev /\ 4 <= DeviceMem.size dev.
Proof.
  apply (device_roundtrip driver 0 contents sim_laws allocated stored _ (Memory.mk guest 1) 1 0 0 18 4).
  - by vm_compute.
  - by vm_compute.
  - apply answered, stored_answers.
  - apply answered, stored_answers.
Defined.

Definition dims : LaunchDims := mkDims 2 1 1 32 1 1 0.
Definition start : @Caller (Device * list trace) := caller ((100, ∅), []).
Definition loaded : Caller := run (Some (recording driver)) 0 [LoadPtx 0 3 3 1] start.
Definition launch : hostcall := Launch (Ok ()) true 12320769 dims 4 14.

(** The launch of the witness is one that reaches the driver. *)
Lemma sim_launched :
  (host_fn (Some (recording driver)) 0 launch loaded).1 = 0 /\
  Host.driver (host_fn (Some (recording driver)) 0 launch loaded).2 =
    ((100, {[4096 := replicate 4 Byte.x2a]}), [Queried 4096 true; Launched 7 dims 1 (build_kernel_param_storage 0 [I32 5; Ptr 4096 4 0])]).
Proof. by vm_compute. Qed.

(** A copy that fills four bytes of the guest's memory, and a launch whose
    kernel writes the first four. *)
Lemma guest_memory_safe_witness :
  (exists m', memory (host_fn (Some driver) 0 fetch stored).2 = Some m' /\ Memory.len m' = Memory.len (Memory.mk guest 1) /\
     untouched 18 22 (Memory.mk guest 1) m') /\
  (exists m', memory (host_fn (Some driver) 0 launch (after [LoadPtx 0 3 3 1])).2 = Some m' /\ Memory.len m' = Memory.len (Memory.mk guest 1) /\
     rtc (kernel_step (Some driver) 4096) (Memory.mk guest 1) m').
Proof.
  split; [apply (guest_memory_safe (Some driver) 0) with (c := fetch) (h := stored) (m := Memory.mk guest 1)
         |apply (guest_memory_safe (Some driver) 0) with (c := launch) (h := after [LoadPtx 0 3 3 1]) (m := Memory.mk guest 1)].
  - intros drv b bs d [= <-]. apply sim_kernels.
  - intros drv p bs d [= <-]. apply sim_buffer.
  - by vm_compute.
  - intros drv b bs d [= <-]. apply sim_kernels.
  - intros drv p bs d [= <-]. apply sim_buffer.
  - by vm_compute.
Defined.

Lemma sim_kernel_wrote :
  (fun m => take 5 (Memory.data m)) <$> memory (host_fn (Some driver) 0 launch (after [LoadPtx 0 3 3 1])).2 =
    Some (bytes_of "****" ++ take 1 (encode_argv [I32 5])).
Proof. by vm_compute. Qed.

Lemma launches_validated_witness : exists seg,
  (Host.driver (host_fn (Some (recording driver)) 0 launch loaded).2).2 = (Host.driver loaded).2 ++ seg /\
  quiet_or (may_launch 0 launch loaded) seg.
Proof. apply (launches_validated driver 0 launch loaded). by vm_compute. Defined.

Lemma first_ok : host_ok (Some driver) first.
Proof. by split. Qed.

Lemma host_invariant_witness : host_ok (Some driver) (after [LoadPtx 0 3 3 1; Alloc 8 0; store]).
Proof.
  apply (host_invariant (Some driver) 0).
  - intros drv [= <-]. apply sim_utf8.
  - apply first_ok.
Defined.
End Sim.
