(* ===== verification/SignedKernels.v ===== *)
(** * [tensor-wasm-jit/src/registry.rs]: the registry of signed kernels

    Manifests signed with an HMAC over a canonical encoding, the in-memory
    registry, and the registry on disk: an in-memory key map over the artifact
    store of [Artifacts].  bincode is the parameter [ManifestCodec].  A directory
    listing is the list [ArtifactStore::list] answered, in any order; iteration
    over a map is in the model map's order, which the code leaves unspecified.
    [publish] is the checks followed by the commit, which are separate steps
    where publishers interleave. *)

From stdpp Require Import sorting.
From S2P Require Import Prelude Core Primitives Artifacts Ir.

Module SignedKernels.
Import Artifacts.

Record KernelManifest := mkManifest {
  name : str;
  version : str;
  sm_version : Z;
  digest : list u8;
  signature : list u8;
  published_unix_ms : Z;
  publisher : str;
  launch_geometry : option (Z * Z);
}.

#[global] Instance KernelManifest_eq_dec : EqDecision KernelManifest.
Proof. solve_decision. Defined.

Definition new (name version : str) (sm_version : Z) (digest signature : list u8) (published_unix_ms : Z) (publisher : str) :
    KernelManifest :=
  mkManifest name version sm_version digest signature published_unix_ms publisher None.

Definition with_launch_geometry (m : KernelManifest) (g : option (Z * Z)) : KernelManifest :=
  mkManifest (name m) (version m) (sm_version m) (digest m) (signature m) (published_unix_ms m) (publisher m) g.

Definition digest_as_u64 (m : KernelManifest) : Z := from_le_bytes (take 8 (digest m)).

Definition SIGNED_BYTES_MAGIC_V2 : list u8 := bytes_of "twasm-kmf-v2".

Definition push_len_prefixed (buf bytes : list u8) : list u8 := (buf ++ to_le_bytes 8 (zlen bytes)) ++ bytes.

Definition canonical_signed_bytes (m : KernelManifest) : list u8 :=
  let buf := SIGNED_BYTES_MAGIC_V2 in
  let buf := push_len_prefixed buf (name m) in
  let buf := push_len_prefixed buf (version m) in
  let buf := push_len_prefixed buf (publisher m) in
  let buf := push_len_prefixed buf (to_le_bytes 8 (published_unix_ms m)) in
  let buf := push_len_prefixed buf (to_le_bytes 4 (sm_version m)) in
  push_len_prefixed buf (digest m).

(** [Storage] carries the store's error, of which the code keeps the text. *)
Inductive RegistryError :=
| NotFound (key : str)
| BadSignature (name : str)
| DigestMismatch (name : str)
| AlreadyRegistered (key : str)
| PublisherNotAllowed (name : str)
| Storage (e : ArtifactError)
| Codec (e : str).

Definition at_key (name version : str) : str := name ++ bytes_of "@" ++ version.

Definition DISK_REGISTRY_DEFAULT_LIMIT : nat := 100.
Definition DISK_REGISTRY_MAX_LIMIT : nat := 1000.
Definition DISK_REGISTRY_DEFAULT_LIST : nat * nat := (0%nat, DISK_REGISTRY_DEFAULT_LIMIT).

(** ** Resolving a blueprint *)
Definition BlueprintResolver := gmap (Z * Z) (str * str).
Definition resolver_insert (r : BlueprintResolver) (fp sm : Z) (n v : str) : BlueprintResolver := <[(fp, sm) := (n, v)]> r.
Definition resolve (r : BlueprintResolver) (fp sm : Z) : option (str * str) := r !! (fp, sm).

Abbreviation ManifestBlob := (KernelManifest * str)%type.
Abbreviation triple := (str * str * Z)%type.

(** What a registry offers the cache and the routes.  A listing visits the
    entries in the hash map's own order, which is an argument. *)
Abbreviation visiting := (list KernelManifest -> list KernelManifest).
Class KernelRegistry (S : Type) := {
  reg_get : S -> str -> str -> result RegistryError ManifestBlob;
  reg_list : visiting -> S -> list KernelManifest;
}.

(** The default page of a listing. *)
Definition page {A} (offset limit : nat) (l : list A) : list A := take (Nat.min limit DISK_REGISTRY_MAX_LIMIT) (drop offset l).

(** bincode on a manifest and its PTX. *)
Class ManifestCodec := {
  encode_to_vec : ManifestBlob -> result str (list u8);
  decode_from_slice : list u8 -> result str ManifestBlob;
}.

Class ManifestCodecOk `{!ManifestCodec} : Prop := {
  codec_roundtrip b bytes : encode_to_vec b = Ok bytes -> decode_from_slice bytes = Ok b;
}.

Definition map_err {E F A} (f : E -> F) (r : result E A) : result F A := match r with Ok a => Ok a | Err e => Err (f e) end.

Definition encode_manifest_blob `{!ManifestCodec} (b : ManifestBlob) : result RegistryError (list u8) :=
  map_err Codec (encode_to_vec b).
Definition decode_manifest_blob `{!ManifestCodec} (bytes : list u8) : result RegistryError ManifestBlob :=
  map_err Codec (decode_from_slice bytes).

Section registry.
Context `{!Primitives}.

(** ** Signatures *)
Definition verify_manifest_signature (m : KernelManifest) (hmac_key : list u8) : result RegistryError () :=
  if bool_decide (hmac_sha256 hmac_key (canonical_signed_bytes m) = signature m) then Ok () else Err (BadSignature (name m)).

Definition sign_manifest (unsigned : KernelManifest) (hmac_key : list u8) : list u8 :=
  hmac_sha256 hmac_key (canonical_signed_bytes unsigned).

(** ** The registry in memory *)
Record InMemoryRegistry := mkMemory { entries : gmap str ManifestBlob; mem_key : list u8 }.

Definition mem_new (key : list u8) : InMemoryRegistry := mkMemory ∅ key.

Definition mem_publish (m : KernelManifest) (ptx : str) : stM InMemoryRegistry RegistryError () :=
  r ← get_state;
  if negb (bool_decide (blake3 ptx = digest m)) then fail (DigestMismatch (name m))
  else
    lift (verify_manifest_signature m (mem_key r)) ≫= fun _ =>
    let key := at_key (name m) (version m) in
    if bool_decide (is_Some (entries r !! key)) then fail (AlreadyRegistered key)
    else put_state (mkMemory (<[key := (m, ptx)]> (entries r)) (mem_key r)).

Definition mem_lookup (r : InMemoryRegistry) (n v : str) : result RegistryError ManifestBlob :=
  ok_or (NotFound (at_key n v)) (entries r !! at_key n v).

Definition mem_listing (order : visiting) (r : InMemoryRegistry) : list KernelManifest :=
  order (map_to_list (fst <$> entries r)).*2.

#[global] Instance memory_registry : KernelRegistry InMemoryRegistry := {
  reg_get := mem_lookup;
  reg_list := mem_listing;
}.

(** ** The registry on disk *)
Context `{!ManifestCodec}.

Record KeymapEntry := mkEntry { hash : list u8; manifest : KernelManifest }.
Definition key_of (m : KernelManifest) : triple := (name m, version m, sm_version m).

Record DiskRegistry := mkDisk {
  keymap : gmap triple KeymapEntry;
  sm_index : gmap (str * str) (list Z);
  hmac_key : list u8;
  publisher_allowlist : option (gset str);
}.

Definition artifact_store (r : DiskRegistry) : DiskArtifactStore := Artifacts.new (hmac_key r).

(** [slice::binary_search] on a sorted list. *)
Fixpoint binary_search (l : list Z) (x : Z) (pos : nat) : nat + nat :=
  match l with
  | [] => inr pos
  | y :: l => if y =? x then inl pos else if x <? y then inr pos else binary_search l x (S pos)
  end.

Definition index_sm_version (index : gmap (str * str) (list Z)) (n v : str) (sm : Z) : gmap (str * str) (list Z) :=
  let entry := default [] (index !! (n, v)) in
  <[(n, v) := match binary_search entry sm 0 with
              | inl _ => entry
              | inr pos => take pos entry ++ sm :: drop pos entry
              end]> index.

Definition with_publisher_allowlist (r : DiskRegistry) (allow : gset str) : DiskRegistry :=
  mkDisk (keymap r) (sm_index r) (hmac_key r) (Some allow).

Definition insert_entry (m : KernelManifest) (h : list u8) (r : DiskRegistry) : DiskRegistry :=
  mkDisk (<[key_of m := mkEntry h m]> (keymap r)) (index_sm_version (sm_index r) (name m) (version m) (sm_version m))
    (hmac_key r) (publisher_allowlist r).

(** A blob that cannot be read, decoded or verified is skipped. *)
Definition recover (d : Dir) (r : DiskRegistry) (h : list u8) : DiskRegistry :=
  match Artifacts.get (artifact_store r) h d with
  | Err _ => r
  | Ok raw =>
      match decode_manifest_blob raw with
      | Err _ => r
      | Ok (m, _) =>
          match verify_manifest_signature m (hmac_key r) with
          | Err _ => r
          | Ok _ => insert_entry m h r
          end
      end
  end.

Definition open (key : list u8) (listed : result ArtifactError (list (list u8))) (d : Dir) : result RegistryError DiskRegistry :=
  hashes ← map_err Storage listed;
  Ok (foldl (recover d) (mkDisk ∅ ∅ key None) hashes).

(** Steps 1 to 4 of [publish]. *)
Definition publish_checks (r : DiskRegistry) (m : KernelManifest) (ptx : str) : result RegistryError () :=
  if negb (match publisher_allowlist r with Some allow => bool_decide (publisher m ∈ allow) | None => true end)
  then Err (PublisherNotAllowed (name m))
  else if negb (bool_decide (blake3 ptx = digest m)) then Err (DigestMismatch (name m))
  else
    verify_manifest_signature m (hmac_key r) ≫= fun _ =>
    if bool_decide (is_Some (keymap r !! key_of m))
    then Err (AlreadyRegistered (at_key (name m) (version m) ++ bytes_of " (sm_" ++ dec (sm_version m) ++ bytes_of ")"))
    else Ok ().

(** Step 5: the blob first, then the map and the index. *)
Definition publish_commit (fault : option put_fault) (now : option Z) (m : KernelManifest) (ptx : str) :
    stM (DiskRegistry * Dir) RegistryError () := fun s =>
  let '(r, d) := s in
  match encode_manifest_blob (m, ptx) with
  | Err e => (Err e, s)
  | Ok bytes =>
      match Artifacts.put (artifact_store r) fault now bytes d with
      | (Err e, d) => (Err (Storage e), (r, d))
      | (Ok h, d) => (Ok (), (insert_entry m h r, d))
      end
  end.

Definition publish (fault : option put_fault) (now : option Z) (m : KernelManifest) (ptx : str) :
    stM (DiskRegistry * Dir) RegistryError () :=
  s ← get_state;
  lift (publish_checks s.1 m ptx) ≫= fun _ => publish_commit fault now m ptx.

Definition lookup (r : DiskRegistry) (d : Dir) (n v : str) : result RegistryError ManifestBlob :=
  let best_sm := sm_index r !! (n, v) ≫= last in
  let hit := best_sm ≫= fun sm => hash <$> keymap r !! (n, v, sm) in
  h ← ok_or (NotFound (at_key n v)) hit;
  raw ← map_err (fun e => match e with NotFoundArtifact _ => NotFound (at_key n v) | other => Storage other end)
          (Artifacts.get (artifact_store r) h d);
  decode_manifest_blob raw.

Fixpoint walk {A} (offset limit i : nat) (out l : list A) : list A :=
  match l with
  | [] => out
  | x :: l =>
      if (i <? offset)%nat then walk offset limit (S i) out l
      else if (limit <=? length out)%nat then out
      else walk offset limit (S i) (out ++ [x]) l
  end.

Definition list_paginated (order : visiting) (r : DiskRegistry) (offset limit : nat) : list KernelManifest :=
  walk offset (Nat.min limit DISK_REGISTRY_MAX_LIMIT) 0 [] (order (map_to_list (manifest <$> keymap r)).*2).

#[global] Instance disk_registry : KernelRegistry (DiskRegistry * Dir) := {
  reg_get s := lookup s.1 s.2;
  reg_list order s := list_paginated order s.1 DISK_REGISTRY_DEFAULT_LIST.1 DISK_REGISTRY_DEFAULT_LIST.2;
}.
End registry.
End SignedKernels.

Module SignedKernelsFacts.
Import Artifacts SignedKernels Refinement ReadFacts.

(** ** What a signature covers *)
Definition field (b : list u8) : list u8 := to_le_bytes 8 (zlen b) ++ b.

Lemma field_inj a b x y :
  zlen a < 2 ^ 64 -> zlen b < 2 ^ 64 -> field a ++ x = field b ++ y -> a = b /\ x = y.
Proof.
  unfold field. intros Ha Hb. rewrite <-!app_assoc. intros [Hl Hr]%app_inj_1; [|by rewrite !length_to_le_bytes].
  assert (zlen a = zlen b) as Hlen.
  { rewrite <-(from_to_le_bytes 8 (zlen a)), <-(from_to_le_bytes 8 (zlen b)), Hl; [done|unfold zlen in *; lia..]. }
  unfold zlen in Hlen. apply app_inj_1 in Hr; [done|lia].
Qed.

Lemma canonical_fields m :
  canonical_signed_bytes m = SIGNED_BYTES_MAGIC_V2 ++ field (name m) ++ field (version m) ++ field (publisher m) ++
    field (to_le_bytes 8 (published_unix_ms m)) ++ field (to_le_bytes 4 (sm_version m)) ++ field (digest m) ++ [].
Proof. unfold canonical_signed_bytes, push_len_prefixed, field. by rewrite <-!app_assoc, app_nil_r. Qed.

(** A manifest as the types of its fields allow. *)
Record typed (m : KernelManifest) : Prop := {
  ty_name : zlen (name m) < 2 ^ 64;
  ty_version : zlen (version m) < 2 ^ 64;
  ty_publisher : zlen (publisher m) < 2 ^ 64;
  ty_time : 0 <= published_unix_ms m < 2 ^ 64;
  ty_sm : 0 <= sm_version m < 2 ^ 32;
  ty_digest : length (digest m) = 32%nat;
}.

(** What is signed of a manifest. *)
Definition signed_part (m : KernelManifest) : KernelManifest :=
  new (name m) (version m) (sm_version m) (digest m) [] (published_unix_ms m) (publisher m).

(** the signed bytes determine the manifest.  Two manifests with the same
    canonical bytes have the same name, version, publisher, time, compute
    capability and digest, whatever those strings contain: no byte can be moved
    from one field into the next without changing what was signed.  Only the
    signature itself and the launch geometry are left open. *)
Theorem canonical_signed_bytes_inj m m' :
  typed m -> typed m' -> canonical_signed_bytes m = canonical_signed_bytes m' -> signed_part m = signed_part m'.
Proof.
  intros [] []. rewrite !canonical_fields. intros Hc. apply app_inj_1 in Hc as [_ Hc]; [|done].
  do 6 (apply field_inj in Hc as [? Hc]; [|unfold zlen in *; rewrite ?length_to_le_bytes; lia..]).
  unfold signed_part. f_equal; [done|done| |done| |done].
  - rewrite <-(from_to_le_bytes 4 (sm_version m)), <-(from_to_le_bytes 4 (sm_version m')) by (cbn; lia). congruence.
  - rewrite <-(from_to_le_bytes 8 (published_unix_ms m)), <-(from_to_le_bytes 8 (published_unix_ms m')) by (cbn; lia). congruence.
Qed.

Lemma walk_page {A} offset limit (l : list A) : forall i out, (length out <= limit)%nat ->
  walk offset limit i out l = out ++ take (limit - length out) (drop (offset - i) l).
Proof.
  induction l as [|x l IH]; intros i out Hout; cbn [walk].
  { by rewrite drop_nil, take_nil, app_nil_r. }
  destruct (i <? offset)%nat eqn:Hi; [apply Nat.ltb_lt in Hi|apply Nat.ltb_ge in Hi].
  - rewrite IH by done. by replace (offset - i)%nat with (S (offset - S i)) by lia.
  - replace (offset - i)%nat with 0%nat by lia. destruct (limit <=? length out)%nat eqn:Hl.
    + apply Nat.leb_le in Hl. replace (limit - length out)%nat with 0%nat by lia. by rewrite app_nil_r.
    + apply Nat.leb_gt in Hl. rewrite IH by (rewrite length_app; simpl; lia).
      rewrite length_app. replace (offset - S i)%nat with 0%nat by lia. cbn [length].
      replace (limit - length out)%nat with (S (limit - (length out + 1))) by lia. by rewrite <-app_assoc.
Qed.

(** ** The sorted index *)
Lemma binary_search_inl l x : forall pos p, binary_search l x pos = inl p -> x ∈ l.
Proof.
  induction l as [|y l IH]; intros pos p; cbn [binary_search]; [done|].
  destruct (y =? x) eqn:Hy; bool_props; [subst; constructor|]. destruct (x <? y); [done|]. intros ?%IH. by constructor.
Qed.

Lemma binary_search_inr l x : StronglySorted Z.lt l -> forall pos p, binary_search l x pos = inr p ->
  (pos <= p)%nat /\ Forall (fun y => y < x) (take (p - pos) l) /\ Forall (fun y => x < y) (drop (p - pos) l).
Proof.
  induction 1 as [|y l Hs IH Hy]; intros pos p; cbn [binary_search]; [intros [= <-]; by rewrite take_nil, drop_nil|].
  destruct (y =? x) eqn:Heq; [done|]. destruct (x <? y) eqn:Hlt; bool_props.
  - intros [= <-]. replace (pos - pos)%nat with 0%nat by lia. cbn. split_and!; [done|done|]. constructor; [done|].
    eapply Forall_impl; [exact Hy|]. intros z Hz. cbn in Hz. lia.
  - intros (Hp & Ht & Hd)%IH. replace (p - pos)%nat with (S (p - S pos)) by lia. cbn. split_and!; [lia| |done].
    constructor; [lia|done].
Qed.

Lemma sorted_app_insert l1 x l2 :
  StronglySorted Z.lt (l1 ++ l2) -> Forall (fun y => y < x) l1 -> Forall (fun y => x < y) l2 ->
  StronglySorted Z.lt (l1 ++ x :: l2).
Proof.
  induction l1 as [|y l1 IH]; cbn; intros Hs H1 H2.
  - by constructor.
  - apply StronglySorted_inv in Hs as [Hs Hy]. apply Forall_cons_1 in H1 as [Hyx H1]. constructor; [by apply IH|].
    apply Forall_app in Hy as [Hy1 Hy2]. apply Forall_app. split; [done|]. by constructor.
Qed.

Definition indexed (l : list Z) (sm : Z) : list Z :=
  match binary_search l sm 0 with inl _ => l | inr pos => take pos l ++ sm :: drop pos l end.

Lemma indexed_spec l sm : StronglySorted Z.lt l ->
  StronglySorted Z.lt (indexed l sm) /\ forall x, x ∈ indexed l sm <-> x = sm \/ x ∈ l.
Proof.
  intros Hs. unfold indexed. destruct (binary_search l sm 0) as [p|p] eqn:Hb.
  - apply binary_search_inl in Hb. split; [done|]. intros x. split; [by right|]. by intros [-> |].
  - apply binary_search_inr in Hb as (_ & Ht & Hd); [|done]. rewrite Nat.sub_0_r in *. split.
    + apply sorted_app_insert; [by rewrite take_drop|done|done].
    + intros x. rewrite <-(take_drop p l) at 3. rewrite !elem_of_app, elem_of_cons. tauto.
Qed.

Lemma sorted_last l m : StronglySorted Z.lt l -> last l = Some m -> m ∈ l /\ forall x, x ∈ l -> x <= m.
Proof.
  intros Hs Hl. apply last_Some in Hl as [l' ->]. split; [set_solver|]. intros x [Hx|Hx%list_elem_of_singleton]%elem_of_app; [|lia].
  induction l' as [|y l' IH]; [by apply not_elem_of_nil in Hx|]. cbn in Hs. apply StronglySorted_inv in Hs as [Hs Hy].
  apply elem_of_cons in Hx as [-> |Hx]; [|by apply IH]. apply Forall_app in Hy as [_ Hm].
  apply Forall_cons_1 in Hm as [Hm _]. lia.
Qed.

(** ** The registry's invariant *)
Definition index_ok (o : option (list Z)) (P : Z -> Prop) : Prop :=
  match o with
  | None => forall sm, ~ P sm
  | Some l => l <> [] /\ StronglySorted Z.lt l /\ forall sm, sm ∈ l <-> P sm
  end.

Lemma sorted_nodup l : StronglySorted Z.lt l -> NoDup l.
Proof.
  induction 1 as [|x l Hs IH Hx]; constructor; [|done]. intros Hin. rewrite Forall_forall in Hx. specialize (Hx x Hin). lia.
Qed.

Lemma index_ok_unique o o' P : index_ok o P -> index_ok o' P -> o = o'.
Proof.
  destruct o as [l|], o' as [l'|]; cbn; [|intros (Hne & _ & Hl) Hno|intros Hno (Hne & _ & Hl)|done].
  - intros (_ & Hs & Hl) (_ & Hs' & Hl'). f_equal. apply (StronglySorted_unique_strong Z.lt); [|done|done|].
    + intros x1 x2 _ _. lia.
    + apply NoDup_Permutation; [by apply sorted_nodup..|]. intros x. by rewrite Hl, Hl'.
  - destruct l as [|x l]; [done|]. by destruct (Hno x), (Hl x); apply Hl; constructor.
  - destruct l' as [|x l]; [done|]. by destruct (Hno x), (Hl x); apply Hl; constructor.
Qed.

Section invariant.
Context `{!Primitives, !PrimitivesOk, !ManifestCodec, !ManifestCodecOk} (key : list u8).
Abbreviation st := (Artifacts.new key).

(** A blob the registry may hold: signed under the key, with its PTX. *)
Record genuine (m : KernelManifest) (ptx : str) (bytes : list u8) : Prop := {
  ge_signed : verify_manifest_signature m key = Ok ();
  ge_digest : blake3 ptx = digest m;
  ge_bytes : encode_to_vec (m, ptx) = Ok bytes;
}.

Record reg_ok (r : DiskRegistry) (d : Dir) (store : MemStore) : Prop := {
  ro_rep : represents key d store;
  ro_key : hmac_key r = key;
  ro_entry k e : keymap r !! k = Some e -> k = key_of (manifest e) /\
    exists ptx bytes, genuine (manifest e) ptx bytes /\ hash e = blake3 bytes /\ store !! hash e = Some bytes;
  ro_blob h p : store !! h = Some p -> exists k e, keymap r !! k = Some e /\ hash e = h;
  ro_index n v : index_ok (sm_index r !! (n, v)) (fun sm => is_Some (keymap r !! (n, v, sm)));
}.

Lemma insert_index r m h n v :
  index_ok (sm_index r !! (n, v)) (fun sm => is_Some (keymap r !! (n, v, sm))) ->
  index_ok (sm_index (insert_entry m h r) !! (n, v)) (fun sm => is_Some (keymap (insert_entry m h r) !! (n, v, sm))).
Proof.
  unfold insert_entry, index_sm_version, key_of. cbn. destruct (decide ((name m, version m) = (n, v))) as [[= <- <-]|Hne].
  - rewrite lookup_insert_eq. intros Hok. fold (indexed (default [] (sm_index r !! (name m, version m))) (sm_version m)).
    assert (StronglySorted Z.lt (default [] (sm_index r !! (name m, version m))) /\
            forall sm, sm ∈ default [] (sm_index r !! (name m, version m)) <-> is_Some (keymap r !! (name m, version m, sm)))
      as [Hs Hl].
    { destruct (sm_index r !! _) as [l|]; cbn in *; [by destruct Hok as (_ & ? & ?)|]. split; [constructor|].
      intros sm. split; [by intros ?%not_elem_of_nil|by intros ?%Hok]. }
    destruct (indexed_spec _ (sm_version m) Hs) as [Hs' Hl']. cbn. split_and!; [|done|].
    + intros Hnil. assert (sm_version m ∈ []) as Hin by (rewrite <-Hnil; apply Hl'; by left). by apply not_elem_of_nil in Hin.
    + intros sm. rewrite Hl', Hl. destruct (decide (sm = sm_version m)) as [-> |Hsm].
      * rewrite lookup_insert_eq. split; [by eexists|by left].
      * rewrite lookup_insert_ne by congruence. split; [by intros [|]|by right].
  - rewrite lookup_insert_ne by done. intros Hok.
    assert (forall sm, <[(name m, version m, sm_version m) := mkEntry h m]> (keymap r) !! (n, v, sm) = keymap r !! (n, v, sm))
      as Heq by (intros sm; apply lookup_insert_ne; congruence).
    destruct (sm_index r !! (n, v)) as [l|]; cbn in *.
    + destruct Hok as (? & ? & Hl). split_and!; [done..|]. intros sm. by rewrite Heq, Hl.
    + intros sm. rewrite Heq. apply Hok.
Qed.
Lemma rep_files d d' store : files d' = files d -> represents key d store -> represents key d' store.
Proof. intros Hf [Hb Ho]. split; rewrite Hf; done. Qed.

(** No two of the blobs stored and this one have the same hash. *)
Definition fresh_hash (store : MemStore) (bytes : list u8) : Prop :=
  forall p, store !! blake3 bytes = Some p -> p = bytes.

Lemma publish_checks_inv r m ptx u :
  hmac_key r = key -> publish_checks r m ptx = Ok u ->
  (forall allow, publisher_allowlist r = Some allow -> publisher m ∈ allow) /\ blake3 ptx = digest m /\
  verify_manifest_signature m key = Ok () /\ keymap r !! key_of m = None.
Proof.
  intros Hkey. unfold publish_checks. destruct (negb (match publisher_allowlist r with _ => _ end)) eqn:Ha; [done|].
  destruct (negb (bool_decide (blake3 ptx = digest m))) eqn:Hd; [done|]. rewrite Hkey. intros Hr. inv_bind Hr. destruct a.
  case_bool_decide as Hk; [done|]. bool_props. split_and!; [|done|done|by apply eq_None_not_Some].
  intros allow Hallow. rewrite Hallow in Ha. by bool_props.
Qed.

Lemma commit_ok r d store fault now m ptx bytes h d' :
  reg_ok r d store -> keymap r !! key_of m = None -> genuine m ptx bytes -> fresh_hash store bytes ->
  Artifacts.put st fault now bytes d = (Ok h, d') ->
  h = blake3 bytes /\ reg_ok (insert_entry m h r) d' (<[h := bytes]> store).
Proof.
  intros [Hrep Hkey Hentry Hblob Hindex] Hnew Hgen Hfresh Hput.
  apply put_Ok_written in Hput as (Hlen & -> & ->). split; [done|]. split.
  - apply rep_written; [done..|]. rewrite zstd_roundtrip. cbn. by rewrite app_nil_r.
  - done.
  - cbn. intros k e [[<- <-]|[Hne He]]%lookup_insert_Some.
    + split; [done|]. exists ptx, bytes. split_and!; [done|done|]. apply lookup_insert_eq.
    + destruct (Hentry _ _ He) as (-> & ptx' & bytes' & Hgen' & Hh & Hs). split; [done|]. exists ptx', bytes'.
      split_and!; [done|done|]. destruct (decide (blake3 bytes = hash e)) as [Heq|]; [|by rewrite lookup_insert_ne].
      rewrite Heq, lookup_insert_eq. f_equal. symmetry. apply Hfresh. by rewrite Heq.
  - intros h' p [[<- <-]|[Hne Hp]]%lookup_insert_Some.
    + exists (key_of m), (mkEntry (blake3 bytes) m). split; [apply lookup_insert_eq|done].
    + destruct (Hblob _ _ Hp) as (k & e & He & Hh). exists k, e. split; [|done]. cbn. rewrite lookup_insert_ne; [done|].
      intros Heq. congruence.
  - intros n v. by apply insert_index.
Qed.

Lemma publish_keeps_ok r d store fault now m ptx :
  reg_ok r d store -> (forall bytes, encode_to_vec (m, ptx) = Ok bytes -> fresh_hash store bytes) ->
  let '(res, (r', d')) := publish fault now m ptx (r, d) in
  match res with
  | Ok _ => exists bytes, genuine m ptx bytes /\ keymap r !! key_of m = None /\ r' = insert_entry m (blake3 bytes) r /\
              reg_ok r' d' (<[blake3 bytes := bytes]> store)
  | Err _ => r' = r /\ reg_ok r d' store
  end.
Proof.
  intros Hok Hfresh. unfold publish, publish_commit, mbind, stM_bind. cbn [get_state fst lift].
  destruct (publish_checks r m ptx) as [u|e] eqn:Hc; cbn [lift]; [|done].
  apply publish_checks_inv in Hc as (_ & Hd & Hv & Hnew); [|apply Hok].
  unfold encode_manifest_blob. destruct (encode_to_vec (m, ptx)) as [bytes|e] eqn:He; [|done]. cbn [map_err].
  unfold artifact_store. rewrite (ro_key _ _ _ Hok).
  pose proof (failed_put_changes_nothing st fault now bytes [] d) as (Hfail & _ & _).
  destruct (Artifacts.put st fault now bytes d) as [[h|e] d'] eqn:Hput; cbn [fst snd is_ok] in *.
  - apply (commit_ok r d store _ _ m ptx) in Hput as [-> Hok']; [|done|done|done|by apply Hfresh]. exists bytes. split_and!; done.
  - split; [done|]. destruct Hok. split; try done. eapply rep_files; [|done]. by apply Hfail.
Qed.
Lemma read_store r d store h p :
  reg_ok r d store -> store !! h = Some p -> Artifacts.get st h d = Ok p.
Proof.
  intros Hok Hp. pose proof (ro_rep _ _ _ Hok) as Hrep.
  rewrite get_eq. assert (length h = 32%nat) as Hl by (eapply rep_length; [done|by eexists]).
  unfold Artifacts.new, with_key_provider. rewrite (get_represented key _ _ d store h Hrep Hl). unfold mem_get. by rewrite Hp.
Qed.

Lemma entry_blob r d store k e :
  reg_ok r d store -> keymap r !! k = Some e ->
  exists ptx bytes, genuine (manifest e) ptx bytes /\ Artifacts.get st (hash e) d = Ok bytes /\
    decode_manifest_blob bytes = Ok (manifest e, ptx).
Proof.
  intros Hok He. destruct (ro_entry _ _ _ Hok _ _ He) as (_ & ptx & bytes & Hgen & _ & Hs). exists ptx, bytes.
  split_and!; [done|by eapply read_store|]. unfold decode_manifest_blob. by rewrite (codec_roundtrip _ _ (ge_bytes _ _ _ Hgen)).
Qed.

(** A name and version resolve to the entry of the greatest compute
    capability. *)
Lemma lookup_cases r d store n v : reg_ok r d store ->
  (exists sm e ptx bytes, keymap r !! (n, v, sm) = Some e /\
     (forall sm', is_Some (keymap r !! (n, v, sm')) -> sm' <= sm) /\ genuine (manifest e) ptx bytes /\
     hash e = blake3 bytes /\ store !! hash e = Some bytes /\ lookup r d n v = Ok (manifest e, ptx)) \/
  (lookup r d n v = Err (NotFound (at_key n v)) /\ forall sm, keymap r !! (n, v, sm) = None).
Proof.
  intros Hok. unfold lookup. pose proof (ro_index _ _ _ Hok n v) as Hidx.
  destruct (sm_index r !! (n, v)) as [l|] eqn:Hl; cbn [index_ok mbind option_bind] in *;
    [|right; split; [done|]; intros sm; by apply eq_None_not_Some].
  destruct Hidx as (Hne & Hs & Hin). destruct (last l) as [sm|] eqn:Hlast; [|by apply last_None in Hlast].
  destruct (sorted_last _ _ Hs Hlast) as [[e He]%Hin Hmax].
  cbn [mbind option_bind]. rewrite He. cbn [fmap option_fmap option_map ok_or mbind result_bind].
  destruct (ro_entry _ _ _ Hok _ _ He) as (_ & ptx & bytes & Hgen & Hh & Hb). left. exists sm, e, ptx, bytes.
  split_and!; try done; [intros sm' Hsm'; by apply Hmax, Hin|].
  unfold artifact_store. rewrite (ro_key _ _ _ Hok), (read_store _ _ _ _ _ Hok Hb). cbn [map_err mbind result_bind].
  unfold decode_manifest_blob. by rewrite (codec_roundtrip _ _ (ge_bytes _ _ _ Hgen)).
Qed.

(** ** Restarting *)
Record recovered (r : DiskRegistry) (hs : list (list u8)) (r' : DiskRegistry) : Prop := {
  re_key : hmac_key r' = key;
  re_allow : publisher_allowlist r' = None;
  re_keymap k e : keymap r' !! k = Some e <-> keymap r !! k = Some e /\ hash e ∈ hs;
  re_index n v : index_ok (sm_index r' !! (n, v)) (fun sm => is_Some (keymap r' !! (n, v, sm)));
}.

Lemma recover_step r d store hs r' h :
  reg_ok r d store -> is_Some (store !! h) -> recovered r hs r' -> recovered r (hs ++ [h]) (recover d r' h).
Proof.
  intros Hok [p Hp] [Hkey Hallow Hmap Hidx]. destruct (ro_blob _ _ _ Hok _ _ Hp) as (k & e & He & <-).
  destruct (entry_blob _ _ _ _ _ Hok He) as (ptx & bytes & Hgen & Hget & Hdec).
  destruct (ro_entry _ _ _ Hok _ _ He) as (-> & _).
  unfold recover, artifact_store. rewrite Hkey, Hget, Hdec, (ge_signed _ _ _ Hgen). destruct e as [h m].
  cbn [hash manifest] in *. split; [done|done| |].
  - intros k' e'. cbn [keymap insert_entry]. rewrite lookup_insert_Some, Hmap, elem_of_app, list_elem_of_singleton. split.
    + intros [[<- <-]|[Hne [Hk' Hin]]]; [by split; [|right]|]. split; [done|by left].
    + intros [Hk' [Hin|Hh]].
      * destruct (decide (key_of m = k')) as [<-|]; [left|by right]. split; [done|]. congruence.
      * left. destruct (entry_blob _ _ _ _ _ Hok Hk') as (ptx' & bytes' & _ & Hget' & Hdec').
        rewrite Hh, Hget in Hget'. injection Hget' as <-. rewrite Hdec in Hdec'. injection Hdec' as Hm _.
        destruct (ro_entry _ _ _ Hok _ _ Hk') as (-> & _). destruct e' as [h' m'].
        cbn [hash manifest] in *. by subst.
  - intros n v. by apply insert_index.
Qed.

Lemma recover_all r d store hs : forall done r',
  reg_ok r d store -> Forall (fun h => is_Some (store !! h)) hs -> recovered r done r' ->
  recovered r (done ++ hs) (foldl (recover d) r' hs).
Proof.
  induction hs as [|h hs IH]; intros done r' Hok Hhs Hr; cbn; [by rewrite app_nil_r|].
  apply Forall_cons_1 in Hhs as [Hh Hhs]. replace (done ++ h :: hs) with ((done ++ [h]) ++ hs) by (by rewrite <-app_assoc).
  apply IH; [done..|]. by eapply recover_step.
Qed.

Lemma open_recovers r d store hashes :
  reg_ok r d store -> hashes ≡ₚ elements (Artifacts.list_ st d) ->
  exists r', open key (Ok hashes) d = Ok r' /\ keymap r' = keymap r /\ sm_index r' = sm_index r /\ hmac_key r' = key /\
    publisher_allowlist r' = None.
Proof.
  intros Hok Hperm. eexists. split; [done|]. set (r' := foldl _ _ _).
  assert (forall h, h ∈ hashes <-> is_Some (store !! h)) as Hh.
  { intros h. rewrite Hperm, elem_of_elements. unfold Artifacts.new, with_key_provider.
    rewrite (list_represented key _ _ d store (ro_rep _ _ _ Hok)). unfold mem_list. apply elem_of_dom. }
  assert (recovered r ([] ++ hashes) r') as [Hkey Hallow Hmap Hidx].
  { eapply recover_all; [done|by apply Forall_forall; intros h ?%Hh|]. split; [done|done| |].
    - intros k e. cbn. rewrite lookup_empty. split; [done|by intros [_ ?%not_elem_of_nil]].
    - intros n v. cbn. rewrite lookup_empty. intros sm. rewrite lookup_empty. by intros []. }
  assert (keymap r' = keymap r) as Heq.
  { apply map_eq. intros k. apply option_eq. intros e. rewrite Hmap. split; [by intros []|]. intros He. split; [done|].
    apply Hh. destruct (ro_entry _ _ _ Hok _ _ He) as (_ & ? & bytes & _ & _ & Hs). by eexists. }
  split_and!; [done| |done|done]. apply map_eq. intros [n v]. eapply index_ok_unique; [apply Hidx|].
  rewrite Heq. apply (ro_index _ _ _ Hok).
Qed.
End invariant.

(** ** The registry as a map

    What the registry promises: a map from name, version and compute capability
    to a manifest and its PTX, that forgets nothing when the process restarts. *)
Record Catalog := mkCatalog { kernels : gmap triple ManifestBlob; allow : option (gset str) }.

Inductive reg_op :=
| OpPublish (now : option Z) (m : KernelManifest) (ptx : str)
| OpGet (n v : str)
| OpList (order : visiting) (offset limit : nat)
| OpRestart (order : list (list u8) -> list (list u8)) (allowed : option (gset str)).

Inductive reg_reply :=
| RPublished (r : result RegistryError ())
| RGot (r : result RegistryError ManifestBlob)
| RListed (l : list KernelManifest)
| ROpened (ok : bool).

Section catalog.
Context `{!Primitives, !ManifestCodec} (key : list u8).

Definition better (n v : str) (k : triple) (b : ManifestBlob) (best : option (Z * ManifestBlob)) : option (Z * ManifestBlob) :=
  if bool_decide (k.1 = (n, v)) then
    match best with
    | Some (sm, _) => if sm <? k.2 then Some (k.2, b) else best
    | None => Some (k.2, b)
    end
  else best.

Definition best (c : gmap triple ManifestBlob) (n v : str) : option (Z * ManifestBlob) := map_fold (better n v) None c.

Definition catalog_publish (m : KernelManifest) (ptx : str) (c : Catalog) : result RegistryError () * Catalog :=
  if negb (match allow c with Some a => bool_decide (publisher m ∈ a) | None => true end)
  then (Err (PublisherNotAllowed (name m)), c)
  else if negb (bool_decide (blake3 ptx = digest m)) then (Err (DigestMismatch (name m)), c)
  else if negb (bool_decide (sign_manifest m key = signature m)) then (Err (BadSignature (name m)), c)
  else if bool_decide (is_Some (kernels c !! key_of m))
  then (Err (AlreadyRegistered (at_key (name m) (version m) ++ bytes_of " (sm_" ++ dec (sm_version m) ++ bytes_of ")")), c)
  else
    match encode_to_vec (m, ptx) with
    | Err e => (Err (Codec e), c)
    | Ok bytes =>
        if MAX_PAYLOAD_LEN <? zlen bytes then (Err (Storage (TooLarge (zlen bytes) MAX_PAYLOAD_LEN)), c)
        else (Ok (), mkCatalog (<[key_of m := (m, ptx)]> (kernels c)) (allow c))
    end.

Definition catalog_step (o : reg_op) (c : Catalog) : reg_reply * Catalog :=
  match o with
  | OpPublish _ m ptx => let '(r, c) := catalog_publish m ptx c in (RPublished r, c)
  | OpGet n v => (RGot (match best (kernels c) n v with Some (_, b) => Ok b | None => Err (NotFound (at_key n v)) end), c)
  | OpList order offset limit => (RListed (page offset limit (order (map_to_list (fst <$> kernels c)).*2)), c)
  | OpRestart _ allowed => (ROpened true, mkCatalog (kernels c) allowed)
  end.

Definition reopen (order : list (list u8) -> list (list u8)) (allowed : option (gset str)) (s : DiskRegistry * Dir) :
    result RegistryError DiskRegistry :=
  r ← open key (Ok (order (elements (Artifacts.list_ (Artifacts.new key) s.2)))) s.2;
  Ok (match allowed with Some a => with_publisher_allowlist r a | None => r end).

Definition registry_step (o : reg_op) (s : DiskRegistry * Dir) : reg_reply * (DiskRegistry * Dir) :=
  match o with
  | OpPublish now m ptx => let '(r, s) := publish None now m ptx s in (RPublished r, s)
  | OpGet n v => (RGot (lookup s.1 s.2 n v), s)
  | OpList order offset limit => (RListed (list_paginated order s.1 offset limit), s)
  | OpRestart order allowed =>
      match reopen order allowed s with Ok r => (ROpened true, (r, s.2)) | Err _ => (ROpened false, s) end
  end.
End catalog.

Lemma best_spec c n v :
  match best c n v with
  | Some (sm, b) => c !! (n, v, sm) = Some b /\ forall sm', is_Some (c !! (n, v, sm')) -> sm' <= sm
  | None => forall sm, c !! (n, v, sm) = None
  end.
Proof.
  unfold best. apply (map_fold_weak_ind (fun acc c => match acc with
    | Some (sm, b) => c !! (n, v, sm) = Some b /\ forall sm', is_Some (c !! (n, v, sm')) -> sm' <= sm
    | None => forall sm, c !! (n, v, sm) = None end)); [done|].
  intros [[n' v'] sm] b c' acc Hnew IH. unfold better. case_bool_decide as Hk; cbn in *; cycle 1.
  { assert (forall x, <[(n', v', sm) := b]> c' !! (n, v, x) = c' !! (n, v, x)) as Heq
      by (intros x; apply lookup_insert_ne; by intros [= -> -> ->]).
    destruct acc as [[]|]; [|intros x; by rewrite Heq]. destruct IH as [IH Hmax]. split; [by rewrite Heq|].
    intros x. rewrite Heq. apply Hmax. }
  injection Hk as -> ->.
  assert (forall x, is_Some (<[(n, v, sm) := b]> c' !! (n, v, x)) -> x = sm \/ is_Some (c' !! (n, v, x))) as Hin.
  { intros x. destruct (decide (x = sm)); [by left|]. rewrite lookup_insert_ne by congruence. by right. }
  destruct acc as [[sm' b']|].
  - destruct IH as [IH Hmax]. destruct (sm' <? sm) eqn:Hlt; bool_props.
    + split; [apply lookup_insert_eq|]. intros x [-> |?%Hmax]%Hin; lia.
    + split; [rewrite lookup_insert_ne; [done|]; congruence|]. intros x [-> |?%Hmax]%Hin; lia.
  - split; [apply lookup_insert_eq|]. intros x [-> |Hx]%Hin; [done|]. rewrite IH in Hx. by destruct Hx.
Qed.

(** ** The refinement *)
Section refinement.
Context `{!Primitives, !PrimitivesOk, !ManifestCodec, !ManifestCodecOk} (key : list u8).

(** The blobs that may be stored, among which the hash has no collision. *)
Context (U : list u8 -> Prop).
Hypothesis collision_free : forall a b, U a -> U b -> blake3 a = blake3 b -> a = b.

Record related (s : DiskRegistry * Dir) (c : Catalog) : Prop := {
  rl_store : exists store, reg_ok key s.1 s.2 store /\ forall h p, store !! h = Some p -> U p;
  rl_allow : publisher_allowlist s.1 = allow c;
  rl_kernels k : match keymap s.1 !! k with
    | Some e => exists ptx bytes, kernels c !! k = Some (manifest e, ptx) /\ encode_to_vec (manifest e, ptx) = Ok bytes /\
                  hash e = blake3 bytes /\ U bytes
    | None => kernels c !! k = None
    end;
}.

Definition op_ok (o : reg_op) : Prop :=
  match o with
  | OpPublish _ m ptx => forall bytes, encode_to_vec (m, ptx) = Ok bytes -> U bytes
  | OpGet _ _ => True
  | OpList order _ _ => forall l, order l ≡ₚ l
  | OpRestart order _ => forall l, order l ≡ₚ l
  end.

Lemma related_same s c k : related s c -> is_Some (keymap s.1 !! k) <-> is_Some (kernels c !! k).
Proof.
  intros Hrel. pose proof (rl_kernels _ _ Hrel k) as Hk. destruct (keymap s.1 !! k) as [e|].
  - destruct Hk as (ptx & bytes & -> & _). split; by eexists.
  - by rewrite Hk.
Qed.

Lemma get_refines r d c n v :
  related (r, d) c ->
  lookup r d n v = match best (kernels c) n v with Some (_, b) => Ok b | None => Err (NotFound (at_key n v)) end.
Proof.
  intros Hrel. destruct (rl_store _ _ Hrel) as (store & Hok & HU). cbn [fst snd] in *.
  pose proof (best_spec (kernels c) n v) as Hbest.
  destruct (lookup_cases key r d store n v Hok) as [(sm & e & ptx & bytes & He & Hmax & Hgen & Hh & Hb & ->)|[-> Hnone]].
  - pose proof (rl_kernels _ _ Hrel (n, v, sm)) as Hk. cbn [fst] in Hk. rewrite He in Hk.
    destruct Hk as (ptx' & bytes' & Hc & Henc & Hh' & HU').
    assert (bytes = bytes') as <- by (apply collision_free; [by eapply HU|done|congruence]).
    assert ((manifest e, ptx) = (manifest e, ptx')) as ->.
    { pose proof (codec_roundtrip _ _ (ge_bytes _ _ _ _ Hgen)). pose proof (codec_roundtrip _ _ Henc). congruence. }
    destruct (best (kernels c) n v) as [[sm' b]|]; [|by rewrite Hbest in Hc]. destruct Hbest as [Hb' Hmax'].
    assert (sm <= sm') by (apply Hmax'; by eexists).
    assert (sm' <= sm) by (apply Hmax, (related_same _ _ _ Hrel); by eexists). assert (sm' = sm) as -> by lia. congruence.
  - destruct (best (kernels c) n v) as [[sm b]|]; [|done]. destruct Hbest as [Hb _].
    pose proof (rl_kernels _ _ Hrel (n, v, sm)) as Hk. cbn [fst] in Hk. rewrite Hnone in Hk. congruence.
Qed.
Lemma list_refines r d c order offset limit :
  related (r, d) c -> list_paginated order r offset limit = page offset limit (order (map_to_list (fst <$> kernels c)).*2).
Proof.
  intros Hrel. unfold list_paginated. rewrite walk_page by (simpl; lia). cbn [length app].
  assert (manifest <$> keymap r = fst <$> kernels c) as ->.
  { apply map_eq. intros k. rewrite !lookup_fmap. pose proof (rl_kernels _ _ Hrel k) as Hk. cbn [fst] in Hk.
    destruct (keymap r !! k) as [e|]; [by destruct Hk as (ptx & bytes & -> & _)|by rewrite Hk]. }
  unfold page. f_equal; [lia|]. f_equal. lia.
Qed.

Lemma put_too_large now bytes d :
  MAX_PAYLOAD_LEN < zlen bytes ->
  Artifacts.put (Artifacts.new key) None now bytes d = (Err (TooLarge (zlen bytes) MAX_PAYLOAD_LEN), d).
Proof. intros Hl. unfold Artifacts.put. by rewrite (proj2 (Z.ltb_lt _ _)). Qed.

Lemma publish_refines r d c now m ptx :
  related (r, d) c -> op_ok (OpPublish now m ptx) ->
  (publish None now m ptx (r, d)).1 = (catalog_publish key m ptx c).1 /\
  related (publish None now m ptx (r, d)).2 (catalog_publish key m ptx c).2.
Proof.
  intros Hrel HU. pose proof Hrel as [(store & Hok & HUs) Hallow Hk]. cbn [fst snd op_ok] in *.
  unfold publish, publish_commit, publish_checks, catalog_publish, mbind, stM_bind. cbn [get_state fst].
  rewrite Hallow. destruct (negb (match allow c with _ => _ end)); [done|].
  case_bool_decide as Hd; [|done]. cbn [negb]. unfold verify_manifest_signature, sign_manifest. rewrite (ro_key _ _ _ _ Hok).
  destruct (bool_decide (hmac_sha256 key _ = signature m)) eqn:Hs; [|done]. bool_props. cbn [negb mbind result_bind].
  assert (bool_decide (is_Some (keymap r !! key_of m)) = bool_decide (is_Some (kernels c !! key_of m))) as ->
    by (apply bool_decide_ext, (related_same _ _ _ Hrel)).
  case_bool_decide as Hnew; [done|]. cbn [lift]. unfold encode_manifest_blob.
  destruct (encode_to_vec (m, ptx)) as [bytes|e] eqn:He; [|done]. cbn [map_err]. unfold artifact_store.
  rewrite (ro_key _ _ _ _ Hok). destruct (MAX_PAYLOAD_LEN <? zlen bytes) eqn:Hlen; bool_props.
  - by rewrite put_too_large.
  - destruct (Artifacts.put (Artifacts.new key) None now bytes d) as [r0 d'] eqn:Hput.
    pose proof (put_written key DEFAULT_ZSTD_LEVEL Full bytes now d Hlen) as Hw.
    change (build _ _ _) with (Artifacts.new key) in Hw. rewrite Hw in Hput. injection Hput as <- <-.
    split; [done|].
    assert (genuine key m ptx bytes) as Hgen by (split; [unfold verify_manifest_signature; by rewrite bool_decide_eq_true_2|done..]).
    assert (keymap r !! key_of m = None) as Hnone
      by (apply eq_None_not_Some; by rewrite (related_same (r, d) c (key_of m) Hrel)).
    pose proof (commit_ok key r d store None now m ptx bytes (blake3 bytes) _ Hok Hnone Hgen ltac:(intros p Hp;
      apply collision_free; [by eapply HUs|by apply HU|]; symmetry; by apply (rep_blob _ _ _ (ro_rep _ _ _ _ Hok) _ _ Hp)) Hw)
      as [_ Hok'].
    split; cbn [fst snd insert_entry publisher_allowlist keymap kernels allow]; [|done|].
    + eexists. split; [exact Hok'|]. intros h p [[<- <-]|[_ Hp]]%lookup_insert_Some; [by apply HU|by eapply HUs].
    + intros k. destruct (decide (key_of m = k)) as [<-|Hne].
      * rewrite !lookup_insert_eq. exists ptx, bytes. split_and!; [done..|by apply HU].
      * rewrite !lookup_insert_ne by done. apply Hk.
Qed.

Lemma restart_refines r d c order allowed :
  related (r, d) c -> op_ok (OpRestart order allowed) ->
  exists r', reopen key order allowed (r, d) = Ok r' /\ related (r', d) (mkCatalog (kernels c) allowed).
Proof.
  intros [(store & Hok & HUs) Hallow Hk] Horder. cbn [fst snd] in *.
  destruct (open_recovers key r d store (order (elements (Artifacts.list_ (Artifacts.new key) d))) Hok (Horder _))
    as (r' & Hopen & Hkeys & Hidx & Hkey & Hal).
  unfold reopen. cbn [fst snd]. rewrite Hopen. cbn [mbind result_bind]. eexists. split; [done|].
  assert (forall a, reg_ok key (mkDisk (keymap r') (sm_index r') (hmac_key r') a) d store) as Hok'.
  { intros a. destruct Hok. rewrite Hkeys, Hidx, Hkey. by split. }
  split; cbn [fst snd].
  - exists store. split; [|done]. destruct allowed as [a|]; [apply Hok'|]. specialize (Hok' None). destruct r'. cbn in *. by subst.
  - by destruct allowed.
  - intros k. cbn. replace (keymap (match allowed with _ => _ end)) with (keymap r) by (by destruct allowed). apply Hk.
Qed.

Lemma registry_step_refines o s c :
  related s c -> op_ok o ->
  (registry_step key o s).1 = (catalog_step key o c).1 /\ related (registry_step key o s).2 (catalog_step key o c).2.
Proof.
  destruct s as [r d]. intros Hrel Ho. destruct o as [now m ptx|n v|order offset limit|order allowed]; cbn [registry_step catalog_step].
  - destruct (publish_refines r d c now m ptx Hrel Ho) as [Hr Hrel'].
    destruct (publish None now m ptx (r, d)), (catalog_publish key m ptx c). cbn [fst snd] in *. by subst.
  - cbn [fst snd]. by rewrite (get_refines r d c n v Hrel).
  - cbn [fst snd]. by rewrite (list_refines r d c order offset limit Hrel).
  - destruct (restart_refines r d c order allowed Hrel Ho) as (r' & -> & Hrel'). done.
Qed.

Fixpoint run_ops {S} (step : reg_op -> S -> reg_reply * S) (os : list reg_op) (s : S) : list reg_reply * S :=
  match os with
  | [] => ([], s)
  | o :: os => let '(r, s) := step o s in let '(rs, s) := run_ops step os s in (r :: rs, s)
  end.

Lemma run_ops_refines os : forall s c,
  related s c -> Forall op_ok os ->
  (run_ops (registry_step key) os s).1 = (run_ops (catalog_step key) os c).1.
Proof.
  induction os as [|o os IH]; intros s c Hrel Hos; [done|]. apply Forall_cons_1 in Hos as [Ho Hos]. cbn [run_ops].
  destruct (registry_step_refines o s c Hrel Ho) as [Hr Hrel'].
  destruct (registry_step key o s) as [r1 s1], (catalog_step key o c) as [r2 c1]. cbn [fst snd] in *. subst.
  specialize (IH s1 c1 Hrel' Hos). destruct (run_ops _ os s1), (run_ops _ os c1). cbn [fst] in *. by subst.
Qed.
End refinement.

(** C4: the registry on disk implements a map, one operation at a time.  Opened
    on a directory without blobs of its key, and with a disk that does not fail,
    it gives to every sequence of publishes, resolutions, listings and restarts
    -- whatever order a listing or a restart visits the entries in -- the replies
    of a map from name, version and compute capability: a publish is refused
    exactly for a publisher outside the list, a digest that is not the PTX's, a
    bad signature, a key that is taken or a blob over the store's limit; a
    resolution answers the manifest and PTX published for the greatest compute
    capability; and a listing answers the asked page, of at most a thousand, of
    all the manifests.  The stored blobs are assumed not to collide under the
    hash. *)
Theorem disk_registry_refines_map `{!Primitives, !PrimitivesOk, !ManifestCodec, !ManifestCodecOk} key U allowed d os :
  (forall a b, U a -> U b -> blake3 a = blake3 b -> a = b) ->
  (forall name f h, files d !! name = Some f -> parse_blob_filename name <> Some (h, key_fingerprint_hex key)) ->
  Forall (op_ok U) os ->
  (run_ops (registry_step key) os (mkDisk ∅ ∅ key allowed, d)).1 = (run_ops (catalog_step key) os (mkCatalog ∅ allowed)).1.
Proof.
  intros Hcr Hd Hos. apply (run_ops_refines key U Hcr); [|done]. split; cbn [fst snd keymap kernels publisher_allowlist allow].
  - exists ∅. split; [|intros h p; by rewrite lookup_empty]. split; try done.
    + split; [intros h p; by rewrite lookup_empty|]. intros name f Hf. right. intros h. by eapply Hd.
    + intros n v. cbn. rewrite lookup_empty. intros sm. rewrite lookup_empty. by intros [].
  - done.
  - intros k. by rewrite !lookup_empty.
Qed.
End SignedKernelsFacts.

(** ** A small instance *)
Module SmallRegistry.
Import Artifacts SignedKernels SignedKernelsFacts Toy.

Definition signed (n v ptx who : string) (sm : Z) : ManifestBlob :=
  let m := new (bytes_of n) (bytes_of v) sm (blake3 (bytes_of ptx)) [] 7 (bytes_of who) in
  (new (name m) (version m) sm (digest m) (sign_manifest m []) 7 (publisher m), bytes_of ptx).

Definition k80 : ManifestBlob := signed "matmul" "1" "ptx80" "alice" 80.
Definition k90 : ManifestBlob := signed "matmul" "1" "ptx90" "alice" 90.
Definition k90' : ManifestBlob := signed "matmul" "1" "other" "bob" 90.
Definition table : list ManifestBlob := [k80; k90; k90'].

(** A codec for the kernels of the table. *)
#[export] Instance table_codec : ManifestCodec := {
  encode_to_vec b := match list_find (eq b) table with Some (i, _) => Ok (to_le_bytes 4 (Z.of_nat i + 1)) | None => Err [] end;
  decode_from_slice bs := ok_or [] (table !! Z.to_nat (from_le_bytes bs - 1));
}.

#[export] Instance table_codec_ok : ManifestCodecOk.
Proof.
  split. intros b bytes. cbn [encode_to_vec decode_from_slice table_codec].
  destruct (list_find (eq b) table) as [[i x]|] eqn:Hf; [|done]. intros [= <-].
  apply list_find_Some in Hf as (Hi & <- & _). pose proof (lookup_lt_Some _ _ _ Hi) as Hlt. cbn in Hlt.
  rewrite from_to_le_bytes by (cbn; lia). replace (Z.to_nat _) with i by lia. by rewrite Hi.
Qed.

Definition blobs (b : list u8) : Prop := b ∈ [to_le_bytes 4 1; to_le_bytes 4 2; to_le_bytes 4 3].

Lemma blobs_distinct a b : blobs a -> blobs b -> blake3 a = blake3 b -> a = b.
Proof.
  unfold blobs. intros Ha Hb. rewrite !elem_of_cons in Ha, Hb.
  destruct Ha as [-> |[-> |[-> |Ha]]]; [..|by apply not_elem_of_nil in Ha];
    (destruct Hb as [-> |[-> |[-> |Hb]]]; [..|by apply not_elem_of_nil in Hb]); vm_compute; congruence.
Qed.

Definition ops : list reg_op :=
  [OpPublish None k80.1 k80.2; OpPublish None k90.1 k90.2; OpPublish None k90'.1 k90'.2; OpRestart reverse None;
   OpGet (bytes_of "matmul") (bytes_of "1"); OpList reverse 1 5].

Lemma table_80 : encode_to_vec (k80.1, k80.2) = Ok (to_le_bytes 4 1).
Proof. by vm_compute. Qed.

Lemma table_90 : encode_to_vec (k90.1, k90.2) = Ok (to_le_bytes 4 2).
Proof. by vm_compute. Qed.

Lemma table_90' : encode_to_vec (k90'.1, k90'.2) = Ok (to_le_bytes 4 3).
Proof. by vm_compute. Qed.

Lemma ops_fine : Forall (op_ok blobs) ops.
Proof.
  unfold ops, blobs. rewrite !Forall_cons. split_and!; cbn [op_ok]; [..|done| |by apply Forall_nil].
  1-3: intros bytes Hb; rewrite ?table_80, ?table_90, ?table_90' in Hb; injection Hb as <-; rewrite !elem_of_cons; tauto.
  all: intros l; apply reverse_Permutation.
Qed.

Lemma disk_registry_refines_map_witness :
  (run_ops (registry_step []) ops (mkDisk ∅ ∅ [] None, None)).1 = (run_ops (catalog_step []) ops (mkCatalog ∅ None)).1.
Proof.
  apply (disk_registry_refines_map [] blobs None None ops).
  - apply blobs_distinct.
  - intros name f h Hf. unfold files in Hf. cbn in Hf. by rewrite lookup_empty in Hf.
  - apply ops_fine.
Defined.

(** The sequence of the witness resolves to the kernel for the newer device. *)
Lemma small_resolves :
  (run_ops (catalog_step []) ops (mkCatalog ∅ None)).1 =
    [RPublished (Ok ()); RPublished (Ok ()); RPublished (Err (AlreadyRegistered (bytes_of "matmul@1 (sm_90)")));
     ROpened true; RGot (Ok k90); RListed [k90.1]].
Proof. by vm_compute. Qed.

Lemma canonical_signed_bytes_inj_witness :
  signed_part k80.1 = signed_part (with_launch_geometry k80.1 (Some (1, 2))).
Proof.
  apply canonical_signed_bytes_inj.
  - by split; vm_compute.
  - by split; vm_compute.
  - done.
Defined.

(** ** What the registries do not promise *)

(** [publish] tests the key map and inserts into it later: two publishers of one
    key can both pass the test, and then both are told that they published. *)
Lemma concurrent_publish_overwrites :
  let s0 : DiskRegistry * Dir := (mkDisk ∅ ∅ [] None, None) in
  let s1 := (publish_commit None None k90.1 k90.2 s0).2 in
  let s2 := (publish_commit None None k90'.1 k90'.2 s1).2 in
  publish_checks s0.1 k90.1 k90.2 = Ok () /\ publish_checks s0.1 k90'.1 k90'.2 = Ok () /\
  (publish_commit None None k90.1 k90.2 s0).1 = Ok () /\ (publish_commit None None k90'.1 k90'.2 s1).1 = Ok () /\
  lookup s1.1 s1.2 (bytes_of "matmul") (bytes_of "1") = Ok k90 /\
  lookup s2.1 s2.2 (bytes_of "matmul") (bytes_of "1") = Ok k90'.
Proof. by vm_compute. Qed.

(** The in-memory registry joins name and version with an at sign, which both
    may contain: a kernel answers to another's name and version. *)
Lemma names_run_together :
  let r := (mem_publish (signed "a@b" "c" "x" "eve" 80).1 (bytes_of "x") (mem_new [])).2 in
  mem_lookup r (bytes_of "a") (bytes_of "b@c") = Ok (signed "a@b" "c" "x" "eve" 80).
Proof. by vm_compute. Qed.
End SmallRegistry.
