(* ===== verification/Routes.v ===== *)
(** * The routes of the HTTP gateway

    The handlers of routes.rs as programs over the gateway's shared state: the
    function and job maps, the gauge of outstanding jobs and the executor.  A
    handler is a tree of atomic actions ([prog]), one per access to the shared
    state and one per [await], so that [Gateway] can interleave handlers, the
    tasks they detach and the panics and dropped futures that unwind them.

    The executor is any executor: [Executor] models this repository's.  The
    third-party base64, uuid, wasmparser and serde_json functions are the class
    [Libraries]. *)

From stdpp Require Import gmap list sorting.
From S2P Require Import Prelude Core Ir Artifacts Primitives Auth Snapshot.

Module Envelope.
Import Auth.Text.

Definition text_of (b : str) : text := u8_to_Z <$> b.
Definition decimal (n : Z) : text := text_of (dec n).

Record ApiError := mkError { status : Z; kind : text; message : text }.

Definition bad_request (k m : text) : ApiError := mkError 400 k m.
Definition forbidden (k m : text) : ApiError := mkError 403 k m.
Definition not_found (m : text) : ApiError := mkError 404 (chars "not_found") m.
Definition conflict (k m : text) : ApiError := mkError 409 k m.
Definition service_unavailable (k m : text) : ApiError := mkError 503 k m.
Definition internal (m : text) : ApiError := mkError 500 (chars "internal") m.
Definition body_too_large (m : text) : ApiError := mkError 413 (chars "body_too_large") m.
Definition to_kind_message (e : ApiError) : text * text := (kind e, message e).

(** What the code reads of axum's [JsonRejection]. *)
Record JsonRejection := mkRejection { rej_status : Z; body_text : text }.

Definition from_json_rejection (rej : JsonRejection) : ApiError :=
  if rej_status rej =? 413 then body_too_large (body_text rej)
  else bad_request (chars "invalid_json") (body_text rej).

Inductive ExecError :=
| Wasmtime (chain : text)
| NotFound (id : Z)
| MissingExport (name : text)
| Timeout (id elapsed_ms deadline_ms : Z)
| ModuleMemoryTooLarge (requested_bytes limit_bytes : Z)
| CapacityExhausted (active limit : Z)
| TenantCapacityExhausted (tenant active limit : Z)
| ModuleTooLarge (len max : Z)
| EpochTickerNotRunning
| UnsupportedReturnType (ty : text).

Definition sanitised_exec_error_message (err : ExecError) : text :=
  chars match err with
        | NotFound _ => "function not found"
        | MissingExport _ => "requested export not found in module"
        | Timeout _ _ _ => "invocation deadline exceeded"
        | Wasmtime _ => "internal execution error"
        | ModuleMemoryTooLarge _ _ => "module declares memory above per-instance cap"
        | CapacityExhausted _ _ => "engine instance capacity exhausted; retry later"
        | TenantCapacityExhausted _ _ _ => "tenant instance quota exhausted; reduce concurrency or retry later"
        | ModuleTooLarge _ _ => "module bytes above per-tenant cap"
        | EpochTickerNotRunning => "engine deadline ticker not running"
        | UnsupportedReturnType _ => "export returned an unsupported value type"
        end.

Definition from_exec_error (err : ExecError) : ApiError :=
  let '(s, k) :=
    match err with
    | NotFound _ => (404, "instance_not_found")
    | MissingExport _ => (400, "missing_export")
    | Timeout _ _ _ => (504, "invoke_timeout")
    | Wasmtime _ => (500, "wasmtime")
    | ModuleMemoryTooLarge _ _ => (413, "module_memory_too_large")
    | CapacityExhausted _ _ => (503, "capacity_exhausted")
    | TenantCapacityExhausted _ _ _ => (429, "tenant_capacity_exhausted")
    | ModuleTooLarge _ _ => (413, "module_too_large")
    | EpochTickerNotRunning => (500, "epoch_ticker_not_running")
    | UnsupportedReturnType _ => (400, "unsupported_return_type")
    end%string in
  mkError s (chars k) (sanitised_exec_error_message err).
End Envelope.

Module Json.
Import Auth.Text.

Abbreviation i64_max := 9223372036854775807%Z.
Abbreviation i32_min := (-2147483648)%Z.

(** serde_json's values; a float by its bits. *)
Inductive Number := PosInt (n : Z) | NegInt (n : Z) | Float (bits : Z).

Inductive Value :=
| Null
| Bool (b : bool)
| Num (n : Number)
| String (s : text)
| Array (items : list Value)
| Object (fields : list (text * Value)).

Definition as_i64 (n : Number) : option Z :=
  match n with
  | PosInt n => if n <=? i64_max then Some n else None
  | NegInt n => Some n
  | Float _ => None
  end.

Inductive WasmArg := I32 (v : Z) | I64 (v : Z) | F32 (bits : Z) | F64 (bits : Z).
End Json.

Class Libraries := {
  uuid_string : Z -> Auth.Text.text;
  uuid_parse : Auth.Text.text -> option Z;
  base64_encode : list u8 -> Auth.Text.text;
  base64_decode : Auth.Text.text -> option (list u8);
  wasm_valid : list u8 -> bool;
  value_string : Json.Value -> Auth.Text.text;
  as_f64 : Json.Number -> option Z;
}.

(** Standard base64, padded. *)
Class LibrariesOk `{!Libraries} : Prop := {
  base64_roundtrip b : base64_decode (base64_encode b) = Some b;
}.

Module Routes.
Import Auth.Text Auth.TokenScope Envelope Json.
Import Artifacts.Artifacts (zlen).

(** Durations in milliseconds. *)
Definition INVOKE_DEFAULT_DEADLINE : Z := 30000.
Definition WASM_MIN_HEADER_BYTES : Z := 8.
Definition BASE64_OFFLOAD_THRESHOLD : Z := 32 * 1024.
Definition MAX_FUNCTION_NAME_BYTES : Z := 256.
Definition MAX_INVOKE_ARGS : Z := 256.
Definition MAX_OUTSTANDING_ASYNC_JOBS : Z := 256.
Definition MAX_JOB_RECORDS : nat := 4096.
Definition STREAMING_CHANNEL_BUFFER : nat := 32.

Definition Uuid := Z.
Definition TenantId := Z.
Definition InstanceId := Z.

Record FunctionRecord := mkFunction {
  fn_id : Uuid;
  fn_tenant_id : TenantId;
  fn_name : text;
  wasm_bytes : list u8;
  fn_created_unix_ms : Z;
}.

Inductive JobStatus := Pending | Completed | Failed.

Record JobRecord := mkJob {
  job_id : Uuid;
  function_id : Uuid;
  job_tenant_id : TenantId;
  job_status : JobStatus;
  job_result : option Value;
  created_unix_ms : Z;
}.

Record AppConfig := mkAppConfig { snapshot_hmac_key : option (list u8); snapshot_require_signature : bool }.

(** A spawn request; [streaming] names the stream the sender belongs to. *)
Record SpawnConfig := mkSpawn {
  tenant_id : TenantId;
  deadline : option Z;
  args : list WasmArg;
  streaming : option nat;
  input : list u8;
}.

Definition for_tenant (t : TenantId) : SpawnConfig := mkSpawn t None [] None [].
Definition with_deadline (d : Z) (c : SpawnConfig) : SpawnConfig :=
  mkSpawn (tenant_id c) (Some d) (args c) (streaming c) (input c).
Definition with_args (a : list WasmArg) (c : SpawnConfig) : SpawnConfig :=
  mkSpawn (tenant_id c) (deadline c) a (streaming c) (input c).
Definition with_streaming (sid : nat) (c : SpawnConfig) : SpawnConfig :=
  mkSpawn (tenant_id c) (deadline c) (args c) (Some sid) (input c).
Definition with_input (i : list u8) (c : SpawnConfig) : SpawnConfig :=
  mkSpawn (tenant_id c) (deadline c) (args c) (streaming c) i.

Record CreateFunctionRequest := mkCreate { req_name : text; wasm_b64 : text }.
Record InvokeRequest := mkInvoke { export : option text; req_args : list Value }.

Inductive Reply :=
| CreateFunctionResponse (id : Uuid)
| NoContent
| Invoked (v : Value)
| Accepted (job_id : Uuid)
| JobResponse (r : JobRecord)
| StreamResponse (sid : nat) (sse : bool)
| SnapshotSaveResponse (id : Uuid) (snapshot_b64 : text) (signed : bool)
| SnapshotRestoreResponse (tenant : TenantId) (instance : text) (total_uncompressed_bytes version : Z)
(** The answers of the OpenAI routes: a status with a JSON body, or a stream
    whose events carry the identifier, the time and the model. *)
| OpenAiResponse (status : Z) (body : Value)
| OpenAiStream (sid : nat) (response_id : text) (created : Z) (model : text) (chat : bool)
| TaskEnd.

Record StreamTerminalError := mkTerminal { term_kind : text; term_message : text }.

(** The closures handed to [tokio::spawn], by what they capture. *)
Inductive Task :=
| JobTask (bytes : list u8) (tenant : TenantId) (fn : Uuid) (export_override : option text) (a : list WasmArg) (job : Uuid)
| StreamTask (bytes : list u8) (tenant : TenantId) (export_override : option text) (a : list WasmArg) (sid : nat)
| OpenAiTask (bytes : list u8) (tenant : TenantId) (prompt : list u8) (a : list WasmArg) (sid : nat).

(** The tasks of the native routes own the guard of the job they run. *)
Definition owns_guard (t : Task) : bool :=
  match t with JobTask _ _ _ _ _ _ | StreamTask _ _ _ _ _ => true | OpenAiTask _ _ _ _ _ => false end.

(** What a task sends over its oneshot, or answers to who joins it. *)
Inductive Signal := NativeDone (t : result StreamTerminalError ()) | OpenAiDone (r : result ExecError ()).

(** The atomic steps of a handler, with the type of their answers.
    [Blocking x] is [spawn_blocking] of a closure that computes [x]: its
    answer is [x], or the panic that ended the closure.  [RecvAll] drains a
    stream's channel until it closes; [JoinTask] awaits its task. *)
Inductive action : Type -> Type :=
| Now : action Z
| NewV4 : action Uuid
| Blocking {A} (x : A) : action (result text A)
| FnGet (id : Uuid) : action (option FunctionRecord)
| FnInsert (id : Uuid) (r : FunctionRecord) : action ()
| FnRemove (id : Uuid) : action bool
| JobGet (id : Uuid) : action (option JobRecord)
| JobInsert (id : Uuid) (r : JobRecord) : action ()
| JobResolve (id : Uuid) (outcome : result ApiError Value) : action ()
| JobRemove (id : Uuid) : action ()
| JobLen : action nat
| JobScan : action (list (Z * Uuid * bool))
| GaugeGet : action Z
| GuardNew : action ()
| GuardRelease : action ()
| TokioSpawn (t : Task) : action ()
| StreamOpen : action nat
| StreamDone (sid : nat) (signal : Signal) : action ()
| RecvAll (sid : nat) : action (list (list u8))
| JoinTask (sid : nat) : action (result text (result ExecError ()))
| SpawnInstance (cfg : SpawnConfig) (bytes : list u8) : action (result ExecError InstanceId)
| CallThenTerminate (id : InstanceId) (name : text) (a : list WasmArg) : action (result ExecError Value).

Inductive prog (A : Type) : Type :=
| Ret (a : A)
| Act {R : Type} (op : action R) (k : R -> prog A).
#[global] Arguments Ret {A} a.
#[global] Arguments Act {A R} op k.

Fixpoint pbind {A B} (m : prog A) (f : A -> prog B) : prog B :=
  match m with Ret a => f a | Act op k => Act op (fun r => pbind (k r) f) end.

(** A handler: a program that answers or fails. *)
Definition handler (A : Type) : Type := prog (result ApiError A).

Definition hbind {A B} (m : handler A) (f : A -> handler B) : handler B :=
  pbind m (fun r => match r with Ok a => f a | Err e => Ret (Err e) end).

Definition act {R} (op : action R) : prog R := Act op Ret.
Definition try_ {E A B} (r : result E A) (conv : E -> ApiError) (f : A -> handler B) : handler B :=
  match r with Ok a => f a | Err e => Ret (Err (conv e)) end.

Declare Scope prog_scope.
Delimit Scope prog_scope with prog.
Notation "x <- m ;; k" := (pbind m (fun x => k)) (at level 100, m at next level, right associativity) : prog_scope.
Notation "m ;;; k" := (pbind m (fun _ => k)) (at level 100, right associativity) : prog_scope.
Notation "x <~ m ;; k" := (hbind m (fun x => k)) (at level 100, m at next level, right associativity) : prog_scope.
Notation "'let?' x ':=' r ;; k" := (try_ r (fun e => e) (fun x => k))
  (at level 100, x name, r at level 99, right associativity) : prog_scope.
#[local] Open Scope prog_scope.

Section handlers.
Context `{!Libraries}.

Definition len_utf8 (c : Z) : Z :=
  if c <? 0x80 then 1 else if c <? 0x800 then 2 else if c <? 0x10000 then 3 else 4.
Definition byte_len (s : text) : Z := sumZ len_utf8 s.
Definition is_control (c : Z) : bool := (c <? 0x20) || ((0x7F <=? c) && (c <=? 0x9F)).

Definition validate_function_name (name : text) : result ApiError () :=
  let refuse m := Err (bad_request (chars "invalid_name") (chars m)) in
  if bool_decide (trim name = []) then refuse "function name must not be empty"%string
  else if MAX_FUNCTION_NAME_BYTES <? byte_len name then refuse "function name exceeds 256 bytes"%string
  else if existsb is_control name then refuse "function name contains control characters"%string
  else Ok ().

Definition base64_decode_error : ApiError := bad_request (chars "invalid_base64") (chars "invalid base64 payload").

Definition decode_wasm_b64 (b64 : text) : handler (list u8) :=
  if byte_len b64 <? BASE64_OFFLOAD_THRESHOLD then Ret (ok_or base64_decode_error (base64_decode b64))
  else
    joined <- act (Blocking (base64_decode b64)) ;;
    let? decoded := match joined with
                   | Ok d => Ok d
                   | Err e => Err (internal (chars "base64 decoder panicked: " ++ e))
                   end ;;
    Ret (ok_or base64_decode_error decoded).

Definition authorize_tenant (sc : TenantScope) (tenant : TenantId) : result ApiError () :=
  if allows sc tenant then Ok ()
  else Err (forbidden (chars "tenant_scope_denied")
              (chars "bearer token is not scoped to tenant " ++ decimal tenant ++
               chars "; extend the token's tenant= clause in TENSOR_WASM_API_TOKENS")).

Definition require_authorize (auth : option TenantScope) (tenant : TenantId) : result ApiError () :=
  match auth with
  | Some sc => authorize_tenant sc tenant
  | None => Err (internal (chars "auth context missing: router misconfigured"))
  end.

Definition function_missing (id : Uuid) : ApiError :=
  not_found (chars "function " ++ uuid_string id ++ chars " not found").
Definition foreign_function : ApiError :=
  forbidden (chars "tenant_scope_denied") (chars "function belongs to a different tenant").

Definition create_function (tenant : option TenantId) (auth : option TenantScope)
    (payload : result JsonRejection CreateFunctionRequest) : handler Reply :=
  let tenant := default 0 tenant in
  let? _ := require_authorize auth tenant ;;
  try_ payload from_json_rejection (fun req =>
  let? _ := validate_function_name (req_name req) ;;
  bytes <~ decode_wasm_b64 (wasm_b64 req) ;;
  if zlen bytes <? WASM_MIN_HEADER_BYTES then
    Ret (Err (bad_request (chars "invalid_wasm")
                (chars "module too short: " ++ decimal (zlen bytes) ++ chars " bytes (minimum 8)")))
  else
    joined <- act (Blocking (wasm_valid bytes)) ;;
    match joined with
    | Err e => Ret (Err (internal (chars "wasm validator panicked: " ++ e)))
    | Ok false => Ret (Err (bad_request (chars "invalid_wasm") (chars "invalid wasm module")))
    | Ok true =>
        id <- act NewV4 ;;
        now <- act Now ;;
        act (FnInsert id (mkFunction id tenant (req_name req) bytes now)) ;;;
        Ret (Ok (CreateFunctionResponse id))
    end).

Definition delete_function (id : Uuid) (tenant : option TenantId) (auth : option TenantScope) : handler Reply :=
  let tenant := default 0 tenant in
  let? _ := require_authorize auth tenant ;;
  entry <- act (FnGet id) ;;
  match entry with
  | None => Ret (Err (function_missing id))
  | Some r =>
      if negb (fn_tenant_id r =? tenant) then Ret (Err foreign_function)
      else
        removed <- act (FnRemove id) ;;
        Ret (if removed : bool then Ok NoContent else Err (function_missing id))
  end.

Definition from_json (v : Value) : result text WasmArg :=
  match v with
  | Num n =>
      match as_i64 n with
      | Some i => Ok (if (i32_min <=? i) && (i <=? i32_max) then I32 i else I64 i)
      | None =>
          match as_f64 n with
          | Some f => Ok (F64 f)
          | None => Err (chars "unsupported number")
          end
      end
  | _ => Err (chars "unsupported arg type " ++ [0x2014] ++ chars " only numbers")
  end.

(** The first element that does not convert decides the answer. *)
Fixpoint convert_args (i : Z) (raw : list Value) : result ApiError (list WasmArg) :=
  match raw with
  | [] => Ok []
  | v :: raw =>
      match from_json v with
      | Err msg =>
          Err (bad_request (chars "invalid_args")
                 (chars "args[" ++ decimal i ++ chars "]: " ++ msg ++ chars " (value: " ++ value_string v ++ chars ")"))
      | Ok a => rest ← convert_args (i + 1) raw; Ok (a :: rest)
      end
  end.

Definition parse_invoke_args (raw : list Value) : result ApiError (list WasmArg) :=
  if MAX_INVOKE_ARGS <? zlen raw then
    Err (bad_request (chars "too_many_args")
           (chars "args list has " ++ decimal (zlen raw) ++ chars " elements (maximum 256)"))
  else convert_args 0 raw.

Definition build_cfg (tenant : TenantId) (a : list WasmArg) : SpawnConfig :=
  let cfg := with_deadline INVOKE_DEFAULT_DEADLINE (for_tenant tenant) in
  if bool_decide (a = []) then cfg else with_args a cfg.

Definition payload_result (v : Value) : Value :=
  match v with Array [] => String (chars "ok") | _ => v end.

(** Spawn, call and terminate: the export asked for, or [_start] and then, in
    a fresh instance, [main]. *)
Definition call_discovering (first retry : SpawnConfig) (bytes : list u8) (export_override : option text) (a : list WasmArg) :
    prog (result ExecError Value) :=
  spawned <- act (SpawnInstance first bytes) ;;
  match spawned with
  | Err e => Ret (Err e)
  | Ok iid =>
      match export_override with
      | Some name => act (CallThenTerminate iid name a)
      | None =>
          called <- act (CallThenTerminate iid (chars "_start") a) ;;
          match called with
          | Err (MissingExport _) =>
              respawned <- act (SpawnInstance retry bytes) ;;
              match respawned with
              | Err e => Ret (Err e)
              | Ok retry_id => act (CallThenTerminate retry_id (chars "main") a)
              end
          | r => Ret r
          end
      end
  end.

(** The OpenAI routes call [_start] and nothing else. *)
Definition call_start (cfg : SpawnConfig) (bytes : list u8) (a : list WasmArg) : prog (result ExecError ()) :=
  spawned <- act (SpawnInstance cfg bytes) ;;
  match spawned with
  | Err e => Ret (Err e)
  | Ok iid =>
      called <- act (CallThenTerminate iid (chars "_start") a) ;;
      Ret (match called with Ok _ => Ok () | Err e => Err e end)
  end.

Definition run_invoke (bytes : list u8) (tenant : TenantId) (fn : Uuid) (export_override : option text) (a : list WasmArg) :
    handler Value :=
  called <- call_discovering (build_cfg tenant a) (build_cfg tenant a) bytes export_override a ;;
  try_ called from_exec_error (fun v =>
  Ret (Ok (Object [(chars "function_id", String (uuid_string fn)); (chars "result", payload_result v)]))).

Definition read_invoke_request (payload : result JsonRejection InvokeRequest) : result ApiError InvokeRequest :=
  match payload with
  | Ok req => Ok req
  | Err rej =>
      if (rej_status rej =? 415) || bool_decide (trim (body_text rej) = []) then Ok (mkInvoke None [])
      else Err (from_json_rejection rej)
  end.

(** The function's bytes, once it is known to be the tenant's. *)
Definition owned_bytes (id : Uuid) (tenant : TenantId) : handler (list u8) :=
  entry <- act (FnGet id) ;;
  match entry with
  | None => Ret (Err (function_missing id))
  | Some r => if negb (fn_tenant_id r =? tenant) then Ret (Err foreign_function) else Ret (Ok (wasm_bytes r))
  end.

Definition invoke_function (id : Uuid) (tenant : option TenantId) (auth : option TenantScope)
    (payload : result JsonRejection InvokeRequest) : handler Reply :=
  let tenant := default 0 tenant in
  let? _ := require_authorize auth tenant ;;
  let? req := read_invoke_request payload ;;
  let? a := parse_invoke_args (req_args req) ;;
  bytes <~ owned_bytes id tenant ;;
  v <~ run_invoke bytes tenant id (export req) a ;;
  Ret (Ok (Invoked v)).

Definition is_terminal (s : JobStatus) : bool := match s with Completed | Failed => true | Pending => false end.

(** Terminal records first, then the oldest. *)
Definition evicts_before (a b : Z * Uuid * bool) : Prop :=
  let '(ta, _, da) := a in
  let '(tb, _, db) := b in
  if Bool.eqb da db then ta <= tb else da = true.

#[global] Instance evicts_before_dec a b : Decision (evicts_before a b).
Proof. destruct a as [[? ?] []], b as [[? ?] []]; cbn; apply _. Defined.

Fixpoint remove_all (ids : list (Z * Uuid * bool)) : prog () :=
  match ids with
  | [] => Ret ()
  | (_, id, _) :: ids => act (JobRemove id) ;;; remove_all ids
  end.

Definition evict_jobs_if_over_cap : prog () :=
  len <- act JobLen ;;
  if (len <=? MAX_JOB_RECORDS)%nat then Ret ()
  else
    let overflow := (len - MAX_JOB_RECORDS)%nat in
    entries <- act JobScan ;;
    remove_all (take overflow (merge_sort evicts_before entries)).

(** The admission gate of the detached invocations; passing it takes a slot. *)
Definition admit_job : handler () :=
  active <- act GaugeGet ;;
  if MAX_OUTSTANDING_ASYNC_JOBS <=? active then
    Ret (Err (service_unavailable (chars "capacity_exhausted")
                (chars "outstanding async-job capacity exhausted; retry later")))
  else act GuardNew ;;; Ret (Ok ()).

Definition invoke_function_async (id : Uuid) (tenant : option TenantId) (auth : option TenantScope)
    (payload : result JsonRejection InvokeRequest) : handler Reply :=
  let tenant := default 0 tenant in
  let? _ := require_authorize auth tenant ;;
  let? req := read_invoke_request payload ;;
  let? a := parse_invoke_args (req_args req) ;;
  bytes <~ owned_bytes id tenant ;;
  _ <~ admit_job ;;
  job <- act NewV4 ;;
  now <- act Now ;;
  act (JobInsert job (mkJob job id tenant Pending None now)) ;;;
  evict_jobs_if_over_cap ;;;
  act (TokioSpawn (JobTask bytes tenant id (export req) a job)) ;;;
  Ret (Ok (Accepted job)).

Definition SSE_MIME : text := chars "text/event-stream".

(** [accept] is the header's text, when it has one. *)
Definition accept_wants_sse (accept : option text) : bool :=
  match accept with
  | None => false
  | Some s => existsb (fun part => starts_with SSE_MIME (to_ascii_lowercase <$> trim part)) (split 44 s)
  end.

Definition invoke_function_stream (id : Uuid) (tenant : option TenantId) (auth : option TenantScope)
    (accept : option text) (payload : result JsonRejection InvokeRequest) : handler Reply :=
  let tenant := default 0 tenant in
  let? _ := require_authorize auth tenant ;;
  bytes <~ owned_bytes id tenant ;;
  let? req := read_invoke_request payload ;;
  let? a := parse_invoke_args (req_args req) ;;
  _ <~ admit_job ;;
  sid <- act StreamOpen ;;
  act (TokioSpawn (StreamTask bytes tenant (export req) a sid)) ;;;
  Ret (Ok (StreamResponse sid (accept_wants_sse accept))).

Definition stream_terminal (outcome : result ExecError Value) : result StreamTerminalError () :=
  match outcome with
  | Ok _ => Ok ()
  | Err (Timeout _ elapsed_ms deadline_ms) =>
      Err (mkTerminal (chars "deadline_elapsed")
             (chars "instance exceeded deadline (" ++ decimal elapsed_ms ++ chars " ms / " ++
              decimal deadline_ms ++ chars " ms)"))
  | Err e => Err (mkTerminal (chars "wasm_error") (sanitised_exec_error_message e))
  end.

(** What the detached tasks run. *)
Definition job_task (bytes : list u8) (tenant : TenantId) (fn : Uuid) (export_override : option text) (a : list WasmArg)
    (job : Uuid) : handler Reply :=
  outcome <- run_invoke bytes tenant fn export_override a ;;
  act (JobResolve job outcome) ;;;
  act GuardRelease ;;;
  Ret (Ok TaskEnd).

Definition stream_task (bytes : list u8) (tenant : TenantId) (export_override : option text) (a : list WasmArg)
    (sid : nat) : handler Reply :=
  let cfg := with_deadline INVOKE_DEFAULT_DEADLINE (for_tenant tenant) in
  outcome <- call_discovering (with_streaming sid cfg) cfg bytes export_override a ;;
  act (StreamDone sid (NativeDone (stream_terminal outcome))) ;;;
  act GuardRelease ;;;
  Ret (Ok TaskEnd).

Definition OPENAI_INVOKE_DEADLINE : Z := 30000.

Definition openai_task (bytes : list u8) (tenant : TenantId) (prompt : list u8) (a : list WasmArg) (sid : nat) :
    handler Reply :=
  let cfg := with_input prompt (with_streaming sid (with_deadline OPENAI_INVOKE_DEADLINE (for_tenant tenant))) in
  outcome <- call_start cfg bytes a ;;
  act (StreamDone sid (OpenAiDone outcome)) ;;;
  Ret (Ok TaskEnd).

Definition task_body (t : Task) : handler Reply :=
  match t with
  | JobTask bytes tenant fn export_override a job => job_task bytes tenant fn export_override a job
  | StreamTask bytes tenant export_override a sid => stream_task bytes tenant export_override a sid
  | OpenAiTask bytes tenant prompt a sid => openai_task bytes tenant prompt a sid
  end.

Definition job_missing (id : Uuid) : ApiError := not_found (chars "job " ++ uuid_string id ++ chars " not found").

Definition get_job (id : Uuid) (tenant : option TenantId) (auth : option TenantScope) : handler Reply :=
  let tenant := default 0 tenant in
  let? _ := require_authorize auth tenant ;;
  owner <- act (JobGet id) ;;
  match owner with
  | None => Ret (Err (job_missing id))
  | Some r =>
      if negb (job_tenant_id r =? tenant) then
        Ret (Err (forbidden (chars "tenant_scope_denied") (chars "job belongs to a different tenant")))
      else
        rec <- act (JobGet id) ;;
        Ret (match rec with Some r => Ok (JobResponse r) | None => Err (job_missing id) end)
  end.

Section snapshots.
Context `{!Primitives, !SnapshotPrimitives}.
Variable app_config : AppConfig.

Definition signing_not_configured (route : string) : ApiError :=
  service_unavailable (chars "snapshot_signing_not_configured")
    (chars "snapshot signing key is not configured; set TENSOR_WASM_API_SNAPSHOT_HMAC_KEY to enable /snapshot/" ++
     chars route).

(** [function_id.as_u128() & u64::MAX] *)
Definition instance_of (id : Uuid) : InstanceId := Z.land id u64_max.
Definition instance_string (i : InstanceId) : text := chars "I#" ++ decimal i.

Definition save_writer (key : list u8) : Writer.SnapshotWriter :=
  Writer.with_legacy_envelope (Writer.with_hmac_sha256_key Writer.new key).
Definition restore_reader (key : list u8) : Reader.SnapshotReader :=
  Reader.requiring_signature (Reader.with_hmac_sha256_key Reader.new key).

(** The reading of the clock inside [capture]. *)
Definition snapshot_save (clock : option Z) (tenant : option TenantId) (auth : option TenantScope)
    (payload : result JsonRejection Uuid) : handler Reply :=
  let tenant := default 0 tenant in
  let? _ := require_authorize auth tenant ;;
  match snapshot_hmac_key app_config with
  | None => Ret (Err (signing_not_configured "save"))
  | Some key =>
      try_ payload from_json_rejection (fun fn =>
      bytes <~ owned_bytes fn tenant ;;
      joined <- act (Blocking (Writer.capture (save_writer key) clock
                                 (mkInstanceState tenant (instance_of fn) bytes [] []))) ;;
      Ret (match joined with
           | Err e => Err (internal (chars "snapshot capture task panicked: " ++ e))
           | Ok (Err _) => Err (internal (chars "snapshot capture failed"))
           | Ok (Ok snapshot_bytes) => Ok (SnapshotSaveResponse fn (base64_encode snapshot_bytes) true)
           end))
  end.

Definition snapshot_restore (clock : option Z) (tenant : option TenantId) (auth : option TenantScope)
    (payload : result JsonRejection text) : handler Reply :=
  let tenant := default 0 tenant in
  let? _ := require_authorize auth tenant ;;
  match snapshot_hmac_key app_config with
  | None => Ret (Err (signing_not_configured "restore"))
  | Some key =>
      try_ payload from_json_rejection (fun snapshot_b64 =>
      let? snapshot_bytes := ok_or base64_decode_error (base64_decode snapshot_b64) ;;
      joined <- act (Blocking (Reader.restore (restore_reader key) clock snapshot_bytes)) ;;
      Ret (match joined with
           | Err e => Err (internal (chars "snapshot restore task panicked: " ++ e))
           | Ok (Err _) =>
               Err (forbidden (chars "snapshot_signature_invalid")
                      (chars "snapshot signature verification failed or blob is malformed"))
           | Ok (Ok s) =>
               let md := sn_metadata s in
               if negb (md_tenant_id md =? tenant) then
                 Err (forbidden (chars "tenant_scope_denied") (chars "snapshot was captured for a different tenant"))
               else Ok (SnapshotRestoreResponse (md_tenant_id md) (instance_string (md_instance_id md))
                          (md_total_uncompressed_bytes md) (sn_version s))
           end))
  end.

End snapshots.
End handlers.
End Routes.
