(* ===== verification/OpenAi.v ===== *)
(** * The OpenAI-compatible routes

    openai_translator.rs and openai.rs: the model map, the translation of a
    completion request into a call, and the two handlers as programs over the
    gateway's shared state ([Routes.prog]).  JSON objects list their fields in
    the order of the source; a float is its bits. *)

From stdpp Require Import gmap list.
From S2P Require Import Prelude Core Text Artifacts Auth Routes.

Module Translator.
Import Auth.Text Envelope Json Routes.Routes.

Record CompletionsRequest := mkCompletions {
  model : text;
  prompt : Value;
  max_tokens : option Z;
  temperature : option Z;
  stream : option bool;
  echo : option bool;
  n : option Z;
  user : option text;
}.

Record ChatMessage := mkMessage { role : text; content : Value; msg_name : option text }.

Record ChatCompletionsRequest := mkChat {
  chat_model : text;
  messages : list ChatMessage;
  chat_max_tokens : option Z;
  chat_temperature : option Z;
  chat_stream : option bool;
  chat_n : option Z;
  tools : option Value;
  chat_user : option text;
}.

Record OpenAiError := mkOpenAiError { err_message : text; err_type : text; param : option text; code : option text }.

Definition invalid_request (m : text) (p : option text) : OpenAiError :=
  mkOpenAiError m (chars "invalid_request_error") p (Some (chars "openai_invalid_request")).
Definition with_code (e : OpenAiError) (c : text) : OpenAiError :=
  mkOpenAiError (err_message e) (err_type e) (param e) (Some c).
Definition model_not_found (m : text) : OpenAiError :=
  mkOpenAiError m (chars "invalid_request_error") (Some (chars "model")) (Some (chars "model_not_found")).
Definition server_error (m c : text) : OpenAiError := mkOpenAiError m (chars "server_error") None (Some c).
Definition tenant_scope_denied (m : text) : OpenAiError :=
  mkOpenAiError m (chars "invalid_request_error") None (Some (chars "tenant_scope_denied")).

(** [IntoResponse]: the status goes by the type and the code. *)
Definition status_of (e : OpenAiError) : Z :=
  if bool_decide (err_type e = chars "invalid_request_error") then
    if bool_decide (code e = Some (chars "model_not_found")) then 404
    else if bool_decide (code e = Some (chars "tenant_scope_denied")) then 403
    else 400
  else if bool_decide (err_type e = chars "server_error") then 500
  else 501.

Definition opt_string (o : option text) : Value := match o with Some s => String s | None => Null end.

Definition error_body (e : OpenAiError) : Value :=
  Object [(chars "error", Object [(chars "message", String (err_message e)); (chars "type", String (err_type e));
                                  (chars "param", opt_string (param e)); (chars "code", opt_string (code e))])].

Section model_map.
Context `{!Libraries}.

Definition model_entry (entry : text) : option (text * Uuid) :=
  let frag := trim entry in
  if bool_decide (frag = []) then None
  else
    match split_once 58 frag with
    | None => None
    | Some (m, u) =>
        if bool_decide (trim m = []) then None
        else match uuid_parse (trim u) with Some id => Some (trim m, id) | None => None end
    end.

Definition parse_model_map_env (raw : text) : gmap text Uuid :=
  let trimmed := trim raw in
  if bool_decide (trimmed = []) then ∅
  else foldl (fun out entry => match model_entry entry with Some (m, id) => <[m := id]> out | None => out end)
         ∅ (split 44 trimmed).
End model_map.

Record TranslatedRequest := mkTranslated {
  tr_function_id : Uuid;
  tr_prompt : text;
  prompt_len_hint : Z;
  tr_args : list WasmArg;
  tr_stream : bool;
}.

Definition as_str (v : Value) : option text := match v with String s => Some s | _ => None end.

(** [Value::get] with a string. *)
Definition get (name : text) (v : Value) : option Value :=
  match v with Object fields => (fun p => p.2.2) <$> list_find (fun kv => kv.1 = name) fields | _ => None end.

Definition extract_prompt_text (p : Value) : text :=
  match p with String s => s | Array items => join 10 (omap as_str items) | _ => [] end.

Definition extract_message_content (m : ChatMessage) : text :=
  match content m with
  | String s => s
  | Array parts => join 32 (omap (fun p => get (chars "text") p ≫= as_str) parts)
  | _ => []
  end.

Definition message_line (m : ChatMessage) : text :=
  (if bool_decide (role m = []) then chars "user" else role m) ++ chars ": " ++ extract_message_content m ++ [10].

Definition assemble_chat_prompt (ms : list ChatMessage) : text :=
  foldl (fun out m => out ++ message_line m) [] ms ++ chars "assistant:".

Definition lookup_model (m : text) (model_map : gmap text Uuid) : result OpenAiError Uuid :=
  match model_map !! m with
  | Some id => Ok id
  | None =>
      Err (model_not_found
             (chars "model `" ++ m ++ chars "` is not configured in TENSOR_WASM_API_OPENAI_MODEL_MAP; ask your operator to add a `"
              ++ m ++ chars ":<function_uuid>` entry"))
  end.

(** The numbers a knob can be: [m * 2^e], or none of them (an infinity or a
    NaN, equal to no default).  Widening to [f64] is exact. *)
Inductive f64 := Finite (m e : Z) | NotFinite.

Definition f64_of_u32 (v : Z) : f64 := Finite v 0.

Definition f64_of_f32 (bits : Z) : f64 :=
  let negative := Z.testbit bits 31 in
  let exponent := Z.land (Z.shiftr bits 23) 0xFF in
  let fraction := Z.land bits 0x7FFFFF in
  let signed m := if negative then - m else m in
  if exponent =? 0xFF then NotFinite
  else if exponent =? 0 then Finite (signed fraction) (-149)
  else Finite (signed (fraction + 0x800000)) (exponent - 150).

Definition f64_eqb (a b : f64) : bool :=
  match a, b with
  | Finite m e, Finite m' e' =>
      let low := Z.min e e' in
      m * 2 ^ (e - low) =? m' * 2 ^ (e' - low)
  | _, _ => false
  end.

Definition unsupported (m field : text) : OpenAiError :=
  with_code (invalid_request m (Some field)) (chars "unsupported_parameter").

Definition reject_unsupported_knob (field : text) (value honored_default : option f64) : result OpenAiError () :=
  match value with
  | None => Ok ()
  | Some v =>
      if match honored_default with Some d => f64_eqb v d | None => false end then Ok ()
      else Err (unsupported (chars "`" ++ field ++
                  chars "` is not supported by this gateway: the underlying executor exposes no sampling controls. Omit `" ++
                  field ++ chars "` and retry.") field)
  end.

Definition reject_unsupported_bool (field : text) (value : option bool) : result OpenAiError () :=
  if bool_decide (value = Some true) then
    Err (unsupported (chars "`" ++ field ++
           chars "` is not supported by this gateway: the underlying executor cannot echo the prompt. Omit `" ++
           field ++ chars "` (or send `" ++ field ++ chars ": false`) and retry.") field)
  else Ok ().

Definition reject_unsupported_tools (ts : option Value) : result OpenAiError () :=
  let populated :=
    match ts with
    | None | Some Null => false
    | Some (Array a) => negb (bool_decide (length a = 0%nat))
    | Some _ => true
    end in
  if populated then
    Err (unsupported (chars "`tools` is not supported by this gateway: the underlying executor has no tool-calling dispatch. Omit `tools` and retry.")
           (chars "tools"))
  else Ok ().

Definition clamp_len_to_i32 (len : Z) : Z := if i32_max <? len then i32_max else len.

Definition one : f64 := Finite 1 0.

Definition translated (id : Uuid) (p : text) (s : option bool) : TranslatedRequest :=
  mkTranslated id p (clamp_len_to_i32 (byte_len p)) [] (default false s).

Definition translate_completions_request (req : CompletionsRequest) (model_map : gmap text Uuid) :
    result OpenAiError TranslatedRequest :=
  id ← lookup_model (model req) model_map;
  _ ← reject_unsupported_knob (chars "max_tokens") (f64_of_u32 <$> max_tokens req) None;
  _ ← reject_unsupported_knob (chars "temperature") (f64_of_f32 <$> temperature req) (Some one);
  _ ← reject_unsupported_knob (chars "n") (f64_of_u32 <$> n req) (Some one);
  _ ← reject_unsupported_bool (chars "echo") (echo req);
  Ok (translated id (extract_prompt_text (prompt req)) (stream req)).

Definition translate_chat_completions_request (req : ChatCompletionsRequest) (model_map : gmap text Uuid) :
    result OpenAiError TranslatedRequest :=
  id ← lookup_model (chat_model req) model_map;
  _ ← reject_unsupported_knob (chars "max_tokens") (f64_of_u32 <$> chat_max_tokens req) None;
  _ ← reject_unsupported_knob (chars "temperature") (f64_of_f32 <$> chat_temperature req) (Some one);
  _ ← reject_unsupported_knob (chars "n") (f64_of_u32 <$> chat_n req) (Some one);
  _ ← reject_unsupported_tools (tools req);
  Ok (translated id (assemble_chat_prompt (messages req)) (chat_stream req)).
End Translator.

Module OpenAi.
Import Auth.Text Auth.TokenScope Envelope Json Routes.Routes Translator.
Import Artifacts.Artifacts (zlen).
#[local] Open Scope prog_scope.

Definition OPENAI_STREAM_BUFFER : nat := 32.
Definition MAX_BUFFERED_BYTES : Z := 16 * 1024 * 1024.

Definition unix_seconds (now_ms : Z) : Z := now_ms / 1000.

Definition estimate_tokens (s : text) : Z :=
  let chars := zlen s in
  if chars =? 0 then 0 else Z.max ((chars + 3) / 4) 1.

Definition number (z : Z) : Value := Num (PosInt z).

Definition usage_block (prompt_tokens completion_tokens : Z) : Value :=
  Object [(chars "prompt_tokens", number prompt_tokens); (chars "completion_tokens", number completion_tokens);
          (chars "total_tokens", number (Z.min (prompt_tokens + completion_tokens) u64_max))].

Inductive OpenAiObject := TextCompletion | ChatCompletion.

Definition object_kind (o : OpenAiObject) : text :=
  chars match o with TextCompletion => "text_completion" | ChatCompletion => "chat.completion" end.
Definition chunk_object_kind (o : OpenAiObject) : text :=
  chars match o with TextCompletion => "text_completion" | ChatCompletion => "chat.completion.chunk" end.
Definition id_prefix (o : OpenAiObject) : text :=
  chars match o with TextCompletion => "cmpl-" | ChatCompletion => "chatcmpl-" end.
Definition is_chat (o : OpenAiObject) : bool := match o with TextCompletion => false | ChatCompletion => true end.

(** [Display] of the executor's errors. *)
Definition exec_error_display (err : ExecError) : text :=
  match err with
  | Wasmtime _ => chars "wasmtime error"
  | NotFound id => chars "no such instance: I#" ++ decimal id
  | MissingExport name => chars "instance has no export `" ++ name ++ chars "`"
  | Timeout id elapsed_ms deadline_ms =>
      chars "instance I#" ++ decimal id ++ chars " exceeded deadline (elapsed " ++ decimal elapsed_ms ++
      chars " ms, deadline " ++ decimal deadline_ms ++ chars " ms)"
  | ModuleMemoryTooLarge requested limit =>
      chars "module-declared linear memory " ++ decimal requested ++ chars " bytes exceeds engine cap " ++
      decimal limit ++ chars " bytes"
  | CapacityExhausted active limit =>
      chars "instance capacity exhausted: " ++ decimal active ++ chars " active, limit " ++ decimal limit
  | TenantCapacityExhausted tenant active limit =>
      chars "tenant T#" ++ decimal tenant ++ chars " instance capacity exhausted: " ++ decimal active ++
      chars " active, limit " ++ decimal limit
  | ModuleTooLarge len max =>
      chars "wasm module byte length " ++ decimal len ++ chars " exceeds cap " ++ decimal max
  | EpochTickerNotRunning =>
      chars "epoch ticker not running " ++ [0x2014] ++
      chars " refusing spawn with deadline; call `engine.spawn_epoch_ticker()` first"
  | UnsupportedReturnType ty => chars "export returned an unsupported value type: " ++ ty
  end.

Definition exec_error_code (err : ExecError) : text :=
  chars match err with
        | Timeout _ _ _ => "deadline_elapsed"
        | CapacityExhausted _ _ => "capacity_exhausted"
        | TenantCapacityExhausted _ _ _ => "tenant_capacity_exhausted"
        | ModuleMemoryTooLarge _ _ => "module_memory_too_large"
        | ModuleTooLarge _ _ => "module_too_large"
        | MissingExport _ => "missing_export"
        | EpochTickerNotRunning => "epoch_ticker_not_running"
        | NotFound _ => "instance_not_found"
        | Wasmtime _ => "wasm_error"
        | UnsupportedReturnType _ => "unsupported_return_type"
        end.

Definition map_exec_error_to_openai (err : ExecError) : OpenAiError :=
  server_error (exec_error_display err) (exec_error_code err).

(** The chunks up to the first that would pass the ceiling. *)
Fixpoint collect (collected : list u8) (chunks : list (list u8)) : list u8 :=
  match chunks with
  | [] => collected
  | chunk :: chunks =>
      if MAX_BUFFERED_BYTES <? zlen collected + zlen chunk then collected else collect (collected ++ chunk) chunks
  end.

(** The fields every body and event starts with. *)
Definition heading (id kind : text) (created : Z) (model : text) : list (text * Value) :=
  [(chars "id", String id); (chars "object", String kind); (chars "created", number created); (chars "model", String model)].

Definition envelope (o : OpenAiObject) (id : text) (created : Z) (model s : text) (usage : Value) : Value :=
  let choice :=
    match o with
    | TextCompletion =>
        [(chars "text", String s); (chars "index", number 0); (chars "finish_reason", String (chars "stop"));
         (chars "logprobs", Null)]
    | ChatCompletion =>
        [(chars "index", number 0);
         (chars "message", Object [(chars "role", String (chars "assistant")); (chars "content", String s)]);
         (chars "finish_reason", String (chars "stop"))]
    end in
  Object (heading id (object_kind o) created model ++ [(chars "choices", Array [Object choice]); (chars "usage", usage)]).

(** The payloads of the events of a stream. *)
Definition chunk_payload (id : text) (created : Z) (model : text) (o : OpenAiObject) (chunk : list u8) : Value :=
  let s := Utf8.from_utf8_lossy chunk in
  let choice :=
    match o with
    | TextCompletion =>
        [(chars "text", String s); (chars "index", number 0); (chars "finish_reason", Null); (chars "logprobs", Null)]
    | ChatCompletion =>
        [(chars "index", number 0); (chars "delta", Object [(chars "content", String s)]); (chars "finish_reason", Null)]
    end in
  Object (heading id (chunk_object_kind o) created model ++ [(chars "choices", Array [Object choice])]).

Definition terminal_payload (id : text) (created : Z) (model : text) (o : OpenAiObject) (err : option ExecError) : Value :=
  match err with
  | Some err =>
      Object (heading id (chunk_object_kind o) created model ++
        [(chars "error", Object [(chars "message", String (sanitised_exec_error_message err));
                                 (chars "type", String (chars "server_error"));
                                 (chars "code", String (exec_error_code err))])])
  | None =>
      let choice :=
        match o with
        | TextCompletion =>
            [(chars "text", String []); (chars "index", number 0); (chars "finish_reason", String (chars "stop"));
             (chars "logprobs", Null)]
        | ChatCompletion =>
            [(chars "index", number 0); (chars "delta", Object []); (chars "finish_reason", String (chars "stop"))]
        end in
      Object (heading id (chunk_object_kind o) created model ++ [(chars "choices", Array [Object choice])])
  end.

Section handlers.
Context `{!Libraries}.

Definition refuse (e : OpenAiError) : handler Reply := Ret (Ok (OpenAiResponse (status_of e) (error_body e))).

Definition run_buffered (tenant : TenantId) (bytes : list u8) (t : TranslatedRequest) (model_echo : text) (o : OpenAiObject) :
    handler Reply :=
  sid <- act StreamOpen ;;
  let prompt_tokens := estimate_tokens (tr_prompt t) in
  act (TokioSpawn (OpenAiTask bytes tenant (Utf8.encode_utf8 (tr_prompt t)) (tr_args t) sid)) ;;;
  chunks <- act (RecvAll sid) ;;
  let collected := collect [] chunks in
  joined <- act (JoinTask sid) ;;
  match joined with
  | Err e => refuse (server_error (chars "executor task panicked: " ++ e) (chars "wasm_error"))
  | Ok (Err e) => refuse (map_exec_error_to_openai e)
  | Ok (Ok _) =>
      let s := Utf8.from_utf8_lossy collected in
      let usage := usage_block prompt_tokens (estimate_tokens s) in
      id <- act NewV4 ;;
      now <- act Now ;;
      Ret (Ok (OpenAiResponse 200 (envelope o (id_prefix o ++ uuid_string id) (unix_seconds now) model_echo s usage)))
  end.

Definition run_streaming (tenant : TenantId) (bytes : list u8) (t : TranslatedRequest) (model_echo : text) (o : OpenAiObject) :
    handler Reply :=
  sid <- act StreamOpen ;;
  act (TokioSpawn (OpenAiTask bytes tenant (Utf8.encode_utf8 (tr_prompt t)) (tr_args t) sid)) ;;;
  id <- act NewV4 ;;
  now <- act Now ;;
  Ret (Ok (OpenAiStream sid (id_prefix o ++ uuid_string id) (unix_seconds now) model_echo (is_chat o))).

Definition run_translated (tenant : TenantId) (t : TranslatedRequest) (model_echo : text) (o : OpenAiObject) :
    handler Reply :=
  entry <- act (FnGet (tr_function_id t)) ;;
  match entry with
  | None =>
      refuse (model_not_found (chars "model maps to function " ++ uuid_string (tr_function_id t) ++
                               chars " which is no longer deployed"))
  | Some r =>
      if negb (fn_tenant_id r =? tenant) then
        refuse (tenant_scope_denied (chars "model maps to a function owned by a different tenant"))
      else if tr_stream t then run_streaming tenant (wasm_bytes r) t model_echo o
      else run_buffered tenant (wasm_bytes r) t model_echo o
  end.

Variable model_map : gmap text Uuid.


Definition completions_handler (tenant : option TenantId) (auth : option TenantScope)
    (payload : result JsonRejection CompletionsRequest) : handler Reply :=
  let tenant := default 0 tenant in
  let? _ := require_authorize auth tenant ;;
  match payload with
  | Err rej => Ret (Ok (OpenAiResponse 400 (error_body (invalid_request (body_text rej) None))))
  | Ok req =>
      match translate_completions_request req model_map with
      | Err e => refuse e
      | Ok t => run_translated tenant t (model req) TextCompletion
      end
  end.

Definition chat_completions_handler (tenant : option TenantId) (auth : option TenantScope)
    (payload : result JsonRejection ChatCompletionsRequest) : handler Reply :=
  let tenant := default 0 tenant in
  let? _ := require_authorize auth tenant ;;
  match payload with
  | Err rej => Ret (Ok (OpenAiResponse 400 (error_body (invalid_request (body_text rej) None))))
  | Ok req =>
      match translate_chat_completions_request req model_map with
      | Err e => refuse e
      | Ok t => run_translated tenant t (chat_model req) ChatCompletion
      end
  end.
End handlers.
End OpenAi.
