(* ===== verification/Gateway.v ===== *)
(** * The gateway: requests and detached tasks, interleaved

    The protected routes of server.rs over the handlers of [Routes] and
    [OpenAi], behind the layers of [Auth].  A schedule interleaves the atomic
    steps of requests and of the tasks they detach, with panics and dropped
    futures at any point.  Random identifiers, the clock, the executor's
    answers and the order of a map scan come from the environment ([Env]). *)

From stdpp Require Import gmap list.
From S2P Require Import Prelude Core Artifacts Primitives Auth Snapshot Routes OpenAi.

Module Gateway.
Import Auth.Text Auth.TokenScope Envelope Json Routes.Routes OpenAi.Translator OpenAi.OpenAi.

(** The protected routes, with the path and body the extractors parsed. *)
Inductive Route :=
| PostFunctions (payload : result JsonRejection CreateFunctionRequest)
| DeleteFunctions (id : Uuid)
| PostInvoke (id : Uuid) (payload : result JsonRejection InvokeRequest)
| PostInvokeAsync (id : Uuid) (payload : result JsonRejection InvokeRequest)
| PostInvokeStream (id : Uuid) (accept : option text) (payload : result JsonRejection InvokeRequest)
| GetJobs (id : Uuid)
| PostSnapshotSave (clock : option Z) (payload : result JsonRejection Uuid)
| PostSnapshotRestore (clock : option Z) (payload : result JsonRejection text)
| PostCompletions (payload : result JsonRejection CompletionsRequest)
| PostChatCompletions (payload : result JsonRejection ChatCompletionsRequest).

Section handle.
Context `{!Libraries, !Primitives, !SnapshotPrimitives}.
Variables (app_config : AppConfig) (model_map : gmap text Uuid).

Definition handle (route : Route) (tenant : option TenantId) (auth : option TenantScope) : handler Reply :=
  match route with
  | PostFunctions payload => create_function tenant auth payload
  | DeleteFunctions id => delete_function id tenant auth
  | PostInvoke id payload => invoke_function id tenant auth payload
  | PostInvokeAsync id payload => invoke_function_async id tenant auth payload
  | PostInvokeStream id accept payload => invoke_function_stream id tenant auth accept payload
  | GetJobs id => get_job id tenant auth
  | PostSnapshotSave clock payload => snapshot_save app_config clock tenant auth payload
  | PostSnapshotRestore clock payload => snapshot_restore app_config clock tenant auth payload
  | PostCompletions payload => completions_handler model_map tenant auth payload
  | PostChatCompletions payload => chat_completions_handler model_map tenant auth payload
  end.
End handle.

(** The shared part of [AppState].  A stream keeps what its task sent. *)
Record State := mkState {
  functions : gmap Uuid FunctionRecord;
  jobs : gmap Uuid JobRecord;
  jobs_active : Z;
  streams : list (option Signal);
}.

(** The environment's answer to an action.  A scan of a [DashMap] locks its
    shards one after the other, so under concurrent updates it answers no
    particular snapshot: [seen] is what it saw.  [joined] is the panic of a task
    that answered nothing. *)
Record Env := mkEnv {
  clock : option Z;
  random : Uuid;
  panicked : option text;
  seen : list (Z * Uuid * bool);
  spawned : result ExecError InstanceId;
  called : result ExecError Value;
  received : list (list u8);
  joined : text;
}.

(** [now_unix_ms]; the clock may be before the epoch. *)
Definition now_unix_ms (c : option Z) : Z := default 0 c.

Definition resolved (outcome : result ApiError Value) (r : JobRecord) : JobRecord :=
  let '(status, value) :=
    match outcome with
    | Ok v => (Completed, v)
    | Err e =>
        let '(k, m) := to_kind_message e in
        (Failed, Object [(chars "kind", String k); (chars "message", String m)])
    end in
  mkJob (job_id r) (function_id r) (job_tenant_id r) status (Some value) (created_unix_ms r).

Definition on_functions (f : gmap Uuid FunctionRecord -> gmap Uuid FunctionRecord) (s : State) : State :=
  mkState (f (functions s)) (jobs s) (jobs_active s) (streams s).
Definition on_jobs (f : gmap Uuid JobRecord -> gmap Uuid JobRecord) (s : State) : State :=
  mkState (functions s) (f (jobs s)) (jobs_active s) (streams s).
Definition add_active (d : Z) (s : State) : State := mkState (functions s) (jobs s) (jobs_active s + d) (streams s).
Definition on_streams (f : list (option Signal) -> list (option Signal)) (s : State) : State :=
  mkState (functions s) (jobs s) (jobs_active s) (f (streams s)).

Definition perform {R} (op : action R) (e : Env) (s : State) : R * State :=
  match op in action R return R * State with
  | Now => (now_unix_ms (clock e), s)
  | NewV4 => (random e, s)
  | Blocking x => (match panicked e with Some m => Err m | None => Ok x end, s)
  | FnGet id => (functions s !! id, s)
  | FnInsert id r => ((), on_functions <[id := r]> s)
  | FnRemove id => (bool_decide (is_Some (functions s !! id)), on_functions (delete id) s)
  | JobGet id => (jobs s !! id, s)
  | JobInsert id r => ((), on_jobs <[id := r]> s)
  | JobResolve id outcome => ((), on_jobs (alter (resolved outcome) id) s)
  | JobRemove id => ((), on_jobs (delete id) s)
  | JobLen => (size (jobs s), s)
  | JobScan => (seen e, s)
  | GaugeGet => (jobs_active s, s)
  | GuardNew => ((), add_active 1 s)
  | GuardRelease => ((), add_active (-1) s)
  | TokioSpawn _ => ((), s)
  | StreamOpen => (length (streams s), on_streams (fun l => l ++ [None]) s)
  | StreamDone sid signal => ((), on_streams <[sid := Some signal]> s)
  | RecvAll _ => (received e, s)
  | JoinTask sid =>
      (match streams s !! sid with Some (Some (OpenAiDone r)) => Ok r | _ => Err (joined e) end, s)
  | SpawnInstance _ _ => (spawned e, s)
  | CallThenTerminate _ _ _ => (called e, s)
  end.

(** How many guards the running thread holds after an action: a detached task
    takes its guard along. *)
Definition holding {R} (op : action R) (n : nat) : nat :=
  match op with
  | GuardNew => S n
  | GuardRelease => pred n
  | TokioSpawn t => if owns_guard t then pred n else n
  | _ => n
  end.

Inductive body :=
| Running (p : handler Reply)
| Over.

(** A request being served, or a task it detached; [number] tells it from all
    others. *)
Record Thread := mkThread { number : nat; headers : Auth.Auth.Request; detached : bool; guards : nat; rest : body }.

(** What happens: by which thread, for the request with which headers. *)
Inductive obs :=
| OArrive (i : nat) (h : Auth.Auth.Request) (route : Route)
| ODeploy (i : nat) (h : Auth.Auth.Request) (id : Uuid) (r : FunctionRecord)
| ORemove (i : nat) (h : Auth.Auth.Request) (id : Uuid)
| ODispatch (i : nat) (h : Auth.Auth.Request) (id : Uuid) (r : JobRecord)
| OResolve (i : nat) (h : Auth.Auth.Request) (id : Uuid) (outcome : result ApiError Value)
| OForget (i : nat) (h : Auth.Auth.Request) (id : Uuid)
| OOpen (i : nat) (h : Auth.Auth.Request) (sid : nat)
| ODetach (i : nat) (h : Auth.Auth.Request) (t : Task)
| ORun (i : nat) (h : Auth.Auth.Request) (cfg : SpawnConfig) (bytes : list u8) (r : result ExecError InstanceId)
| OCall (i : nat) (h : Auth.Auth.Request) (id : InstanceId) (name : text) (a : list WasmArg) (r : result ExecError Value)
| OReceive (i : nat) (h : Auth.Auth.Request) (sid : nat) (chunks : list (list u8))
| OReply (i : nat) (h : Auth.Auth.Request) (r : result ApiError Reply)
(** The layers turned the request away. *)
| ORefuse (h : Auth.Auth.Request) (r : Auth.Auth.Response).

(** An action with its answer, as an observation. *)
Definition observe {R} (i : nat) (h : Auth.Auth.Request) (op : action R) : R -> list obs :=
  match op in action R return R -> list obs with
  | FnInsert id r => fun _ => [ODeploy i h id r]
  | FnRemove id => fun _ => [ORemove i h id]
  | JobInsert id r => fun _ => [ODispatch i h id r]
  | JobResolve id outcome => fun _ => [OResolve i h id outcome]
  | JobRemove id => fun _ => [OForget i h id]
  | StreamOpen => fun sid => [OOpen i h sid]
  | TokioSpawn t => fun _ => [ODetach i h t]
  | SpawnInstance cfg bytes => fun r => [ORun i h cfg bytes r]
  | CallThenTerminate id name a => fun r => [OCall i h id name a r]
  | RecvAll sid => fun chunks => [OReceive i h sid chunks]
  | _ => fun _ => []
  end.

Record System := mkSystem { state : State; threads : list Thread; trace : list obs }.

Definition initial : System := mkSystem (mkState ∅ ∅ 0 []) [] [].

Section system.
Context `{!Libraries, !Primitives, !SnapshotPrimitives}.
Variables (auth_config : Auth.Auth.AuthConfig) (require_tenant : bool) (app_config : AppConfig).
Variable model_map : gmap text Uuid.
(** How many requests the concurrency limits let in at once. *)
Variable admitted : nat.

Inductive event :=
| Arrive (h : Auth.Auth.Request) (route : Route)
| Tick (i : nat) (e : Env)
(** The thread unwinds: its task panics, or its request future is dropped. *)
| Unwind (i : nat).

Definition in_flight (t : Thread) : bool :=
  negb (detached t) && match rest t with Running _ => true | Over => false end.

(** The layers of the router around a handler: [bearer_auth], [tenant_scope]. *)
Definition serve (h : Auth.Auth.Request) (route : Route) : result Auth.Auth.Response (handler Reply) :=
  sc ← Auth.Auth.bearer_auth auth_config h;
  tenant ← Auth.Auth.extract_tenant require_tenant h;
  Ok (handle app_config model_map route (Some tenant) (Some sc)).

Definition child (n : nat) (h : Auth.Auth.Request) (t : Task) : Thread :=
  mkThread n h true (if owns_guard t then 1 else 0) (Running (task_body t)).

Definition spawns {R} (n : nat) (h : Auth.Auth.Request) (op : action R) : list Thread :=
  match op with TokioSpawn t => [child n h t] | _ => [] end.

(** The thread ends; what it still holds is dropped. *)
Definition finish (i : nat) (t : Thread) (os : list obs) (sys : System) : System :=
  mkSystem (add_active (- Z.of_nat (guards t)) (state sys))
    (<[i := mkThread (number t) (headers t) (detached t) 0 Over]> (threads sys)) (trace sys ++ os).

Definition answers (t : Thread) (r : result ApiError Reply) : list obs :=
  if detached t then [] else [OReply (number t) (headers t) r].

Definition step (sys : System) (ev : event) : System :=
  match ev with
  | Arrive h route =>
      match serve h route with
      | Err r => mkSystem (state sys) (threads sys) (trace sys ++ [ORefuse h r])
      | Ok p =>
          if (admitted <=? length (filter in_flight (threads sys)))%nat then sys
          else
            let n := length (threads sys) in
            mkSystem (state sys) (threads sys ++ [mkThread n h false 0 (Running p)]) (trace sys ++ [OArrive n h route])
      end
  | Tick i e =>
      match threads sys !! i with
      | Some t =>
          match rest t with
          | Over => sys
          | Running (Ret r) => finish i t (answers t r) sys
          | Running (Act op k) =>
              let '(r, s) := perform op e (state sys) in
              mkSystem s
                (<[i := mkThread (number t) (headers t) (detached t) (holding op (guards t)) (Running (k r))]> (threads sys) ++
                 spawns (length (threads sys)) (headers t) op)
                (trace sys ++ observe (number t) (headers t) op r)
          end
      | None => sys
      end
  | Unwind i =>
      match threads sys !! i with
      | Some t => match rest t with Over => sys | Running _ => finish i t [] sys end
      | None => sys
      end
  end.

Definition run (evs : list event) : System := foldl step initial evs.
End system.
End Gateway.
