(* ===== verification/RoutesFacts.v ===== *)
(** * What the gateway guarantees under every schedule

    [RouteLogic.ok] is a rely-guarantee predicate on handlers: what a program
    may do next, given the facts its earlier answers established.  Facts are
    about the trace, which only grows, so no other thread can invalidate them.
    Each handler is proved [ok] once; [RouteInvariant] lifts this to the whole
    system, and [RouteClaims] states the results. *)

From stdpp Require Import gmap list sorting.
From S2P Require Import Prelude Core Text Ir Artifacts Primitives Auth Snapshot Routes OpenAi Gateway.

Module RouteLogic.
Import Auth.Text Auth.TokenScope Envelope Json Routes.Routes OpenAi.Translator OpenAi.OpenAi Gateway.Gateway.

(** Rights a thread holds: to create a record under a fresh identifier, and to
    resolve a job. *)
Inductive token := Fresh (id : Uuid) | Resolver (id : Uuid).

#[global] Instance token_eq_dec : EqDecision token.
Proof. solve_decision. Defined.

(** What a thread holds: guards, a passed admission check, a token. *)
Record res := mkRes { held : nat; passed : bool; tok : option token }.

Section logic.
Context `{!Libraries}.
Variables (auth_config : Auth.Auth.AuthConfig) (require_tenant : bool) (model_map : gmap text Uuid).

(** The layers and the handler's own check let the request act for the tenant. *)
Definition gate (h : Auth.Auth.Request) (t : TenantId) : Prop :=
  Auth.Auth.tenant_gate auth_config require_tenant h = Ok t.

(** The tenant, which the request may act for, deployed the bytes as the function. *)
Definition owned (h : Auth.Auth.Request) (t : TenantId) (fn : Uuid) (bytes : list u8) (tr : list obs) : Prop :=
  gate h t /\ exists j h' f, ODeploy j h' fn f ∈ tr /\ fn_tenant_id f = t /\ wasm_bytes f = bytes.

(** The export and the arguments that the body of an invocation names. *)
Definition asked (payload : result JsonRejection InvokeRequest) (e : option text) (a : list WasmArg) : Prop :=
  exists req, read_invoke_request payload = Ok req /\ export req = e /\ parse_invoke_args (req_args req) = Ok a.

(** What an OpenAI request asks of which function. *)
Definition translation (route : Route) (tq : TranslatedRequest) (m : text) (o : OpenAiObject) : Prop :=
  match route with
  | PostCompletions (Ok req) => translate_completions_request req model_map = Ok tq /\ m = model req /\ o = TextCompletion
  | PostChatCompletions (Ok req) => translate_chat_completions_request req model_map = Ok tq /\ m = chat_model req /\ o = ChatCompletion
  | _ => False
  end.

(** Why thread [i] may detach a task: the request it serves asks for it. *)
Definition justified (i : nat) (h : Auth.Auth.Request) (tk : Task) (tr : list obs) : Prop :=
  match tk with
  | JobTask bytes t fn e a job =>
      owned h t fn bytes tr /\ (exists payload, OArrive i h (PostInvokeAsync fn payload) ∈ tr /\ asked payload e a) /\
      exists r, ODispatch i h job r ∈ tr /\ function_id r = fn /\ job_tenant_id r = t
  | StreamTask bytes t e a sid =>
      OOpen i h sid ∈ tr /\ exists fn accept payload,
        OArrive i h (PostInvokeStream fn accept payload) ∈ tr /\ asked payload e a /\ owned h t fn bytes tr
  | OpenAiTask bytes t prompt a sid =>
      OOpen i h sid ∈ tr /\ exists route tq m o,
        OArrive i h route ∈ tr /\ translation route tq m o /\ owned h t (tr_function_id tq) bytes tr /\
        prompt = Utf8.encode_utf8 (tr_prompt tq) /\ a = tr_args tq
  end.

(** The task runs the bytes into the stream. *)
Definition feeds (tk : Task) (sid : nat) (bytes : list u8) : Prop :=
  match tk with
  | JobTask _ _ _ _ _ _ => False
  | StreamTask b _ _ _ s | OpenAiTask b _ _ _ s => s = sid /\ b = bytes
  end.

(** What thread [i] got from running the bytes for the tenant: the error of the
    spawn, or the answer of the call of the export asked for, which without one
    is [_start], or [main] where that is missing. *)
Definition ran (i : nat) (h : Auth.Auth.Request) (t : TenantId) (bytes : list u8) (e : option text) (a : list WasmArg)
    (r : result ExecError Value) (tr : list obs) : Prop :=
  exists cfg, tenant_id cfg = t /\
    ((exists x, ORun i h cfg bytes (Err x) ∈ tr /\ r = Err x) \/
     exists iid name, ORun i h cfg bytes (Ok iid) ∈ tr /\ OCall i h iid name a r ∈ tr /\
       match e with
       | Some n => name = n
       | None =>
           name = chars "_start" /\ (forall n, r <> Err (MissingExport n)) \/
           name = chars "main" /\ exists iid0 n, OCall i h iid0 (chars "_start") a (Err (MissingExport n)) ∈ tr
       end).

(** What an invocation of the function answers after such a run. *)
Definition answer (fn : Uuid) (r : result ExecError Value) : result ApiError Value :=
  match r with
  | Ok v =>
      let shown := match v with Array [] => String (chars "ok") | _ => v end in
      Ok (Object [(chars "function_id", String (uuid_string fn)); (chars "result", shown)])
  | Err x => Err (from_exec_error x)
  end.

(** Thread [i] ran the task that was detached for the job, to this outcome. *)
Definition job_ran (i : nat) (h : Auth.Auth.Request) (job : Uuid) (outcome : result ApiError Value) (tr : list obs) : Prop :=
  exists j bytes t fn e a r, ODetach j h (JobTask bytes t fn e a job) ∈ tr /\ ran i h t bytes e a r tr /\ outcome = answer fn r.

(** The record of a job: as dispatched, or as its one run left it. *)
Definition job_as_run (rec : JobRecord) (tr : list obs) : Prop :=
  exists j h r0, ODispatch j h (job_id rec) r0 ∈ tr /\
    (rec = r0 \/ exists i o, OResolve i h (job_id rec) o ∈ tr /\ rec = resolved o r0).

Section thread.
Variables (i : nat) (h : Auth.Auth.Request) (task : bool).

Definition demand {R} (op : action R) (w : res) (tr : list obs) : Prop :=
  match op with
  | NewV4 => tok w = None
  | FnInsert id r => tok w = Some (Fresh id) /\ gate h (fn_tenant_id r)
  | FnRemove id => exists j h' r, ODeploy j h' id r ∈ tr /\ gate h (fn_tenant_id r)
  | JobInsert id r =>
      tok w = Some (Fresh id) /\ gate h (job_tenant_id r) /\ job_id r = id /\ job_status r = Pending /\
      job_result r = None /\ exists j h' f, ODeploy j h' (function_id r) f ∈ tr /\ fn_tenant_id f = job_tenant_id r
  | JobResolve id o => tok w = Some (Resolver id) /\ job_ran i h id o tr
  | JobRemove id => exists job r, ODispatch i h job r ∈ tr
  | GaugeGet => task = false
  | GuardNew => passed w = true /\ held w = 0%nat
  | GuardRelease => held w = 1%nat
  | TokioSpawn tk =>
      justified i h tk tr /\
      match tk with
      | JobTask _ _ _ _ _ job => held w = 1%nat /\ tok w = Some (Resolver job)
      | StreamTask _ _ _ _ _ => held w = 1%nat
      | OpenAiTask _ _ _ _ _ => True
      end
  | RecvAll sid => OOpen i h sid ∈ tr
  | JoinTask sid => OOpen i h sid ∈ tr
  | SpawnInstance cfg bytes =>
      (exists fn, owned h (tenant_id cfg) fn bytes tr) /\ forall sid, streaming cfg = Some sid -> exists j tk, ODetach j h tk ∈ tr /\ feeds tk sid bytes
  | CallThenTerminate iid _ _ => exists cfg bytes, ORun i h cfg bytes (Ok iid) ∈ tr
  | _ => True
  end.

Definition yields {R} (op : action R) (w : res) : R -> res :=
  match op in action R return R -> res with
  | NewV4 => fun id => mkRes (held w) false (Some (Fresh id))
  | FnInsert _ _ => fun _ => mkRes (held w) false None
  | JobInsert id _ => fun _ => mkRes (held w) false (Some (Resolver id))
  | JobResolve _ _ => fun _ => mkRes (held w) false None
  | GaugeGet => fun n => mkRes (held w) (n <? MAX_OUTSTANDING_ASYNC_JOBS) (tok w)
  | TokioSpawn (JobTask _ _ _ _ _ _) => fun _ => mkRes (pred (held w)) false None
  | op' => fun _ => mkRes (holding op' (held w)) false (tok w)
  end.

(** What is known of an answer: the action is in the trace with it. *)
Definition told {R} (op : action R) (tr : list obs) (r : R) : Prop :=
  observe i h op r ⊆ tr /\
  match op in action R return R -> Prop with
  | FnGet id => fun o => forall f, o = Some f -> exists j h', ODeploy j h' id f ∈ tr
  | JobGet id => fun o => forall rec, o = Some rec -> job_id rec = id /\ job_as_run rec tr /\
      forall j h' r', ODispatch j h' id r' ∈ tr -> job_tenant_id r' = job_tenant_id rec
  | _ => fun _ => True
  end r.

Fixpoint ok {A} (post : A -> res -> list obs -> Prop) (w : res) (p : prog A) (tr : list obs) : Prop :=
  match p with
  | Ret a => post a w tr
  | Act op k => demand op w tr /\ forall r tr', tr ⊆ tr' -> told op tr' r -> ok post (yields op w r) (k r) tr'
  end.

(** Every fact is about what has happened. *)
Definition stable {A} (post : A -> res -> list obs -> Prop) : Prop :=
  forall a w tr tr', tr ⊆ tr' -> post a w tr -> post a w tr'.

Lemma owned_mono t fn bytes tr tr' : tr ⊆ tr' -> owned h t fn bytes tr -> owned h t fn bytes tr'.
Proof. unfold owned. set_solver. Qed.
Lemma justified_mono j tk tr tr' : tr ⊆ tr' -> justified j h tk tr -> justified j h tk tr'.
Proof. intros Hs. destruct tk; cbn; naive_solver eauto 10 using owned_mono. Qed.
Lemma ran_mono j t bytes e a r tr tr' : tr ⊆ tr' -> ran j h t bytes e a r tr -> ran j h t bytes e a r tr'.
Proof.
  intros Hs (cfg & Ht & Hr). exists cfg. split; [done|]. destruct Hr as [(x & Hx & ->)|(iid & name & Hi & Hc & Hn)]; [eauto|].
  right. exists iid, name. split_and!; [eauto..|]. destruct e; naive_solver.
Qed.
Lemma job_ran_mono j job o tr tr' : tr ⊆ tr' -> job_ran j h job o tr -> job_ran j h job o tr'.
Proof. intros Hs (k & bytes & t & fn & e & a & r & Hd & Hr & ->). unfold job_ran. eauto 15 using ran_mono. Qed.
Lemma job_as_run_mono rec tr tr' : tr ⊆ tr' -> job_as_run rec tr -> job_as_run rec tr'.
Proof.
  intros Hs (j & h0 & r0 & Hd & Hr). exists j, h0, r0. split; [by apply Hs|]. destruct Hr as [->|(k & o & Ho & ->)]; eauto 10.
Qed.

Lemma demand_mono {R} (op : action R) w tr tr' : tr ⊆ tr' -> demand op w tr -> demand op w tr'.
Proof.
  intros Hs. destruct op as [| | | | | | | | | | | | | | |tk| | | | | |]; cbn -[justified]; try done;
    try naive_solver eauto using job_ran_mono.
  - intros [Hj Ht]. split; [by eapply justified_mono|done].
  - intros [[fn Ho] Hsid]. split; [exists fn; by eapply owned_mono|]. intros sid Hc. destruct (Hsid sid Hc) as (j & tk & ? & ?); eauto.
Qed.

Lemma ok_mono {A} (post : A -> res -> list obs -> Prop) w p tr tr' :
  stable post -> tr ⊆ tr' -> ok post w p tr -> ok post w p tr'.
Proof.
  intros Hst Hs. destruct p as [a|R op k]; cbn; [by apply Hst|]. intros [Hd Hk]. split; [by eapply demand_mono|].
  intros r tr'' Hs'. apply Hk. by etrans.
Qed.

Lemma ok_bind {A B} (post : B -> res -> list obs -> Prop) w (m : prog A) (f : A -> prog B) tr :
  ok (fun a w tr => ok post w (f a) tr) w m tr -> ok post w (pbind m f) tr.
Proof.
  revert w tr. induction m as [a|R op k IH]; intros w tr; cbn; [done|]. intros [Hd Hk]. split; [done|].
  intros r tr' Hs Ht. by apply IH, Hk.
Qed.

Lemma ok_weaken {A} (post post' : A -> res -> list obs -> Prop) w p tr :
  (forall a w tr, post a w tr -> post' a w tr) -> ok post w p tr -> ok post' w p tr.
Proof.
  intros Hi. revert w tr. induction p as [a|R op k IH]; intros w tr; cbn; [apply Hi|]. intros [Hd Hk]. split; [done|]. eauto.
Qed.
End thread.
End logic.
End RouteLogic.

(** Every handler, and every task a handler detaches, is [ok]. *)
Module RouteHandlers.
Import Auth.Text Auth.TokenScope Envelope Json Routes.Routes OpenAi.Translator OpenAi.OpenAi Gateway.Gateway RouteLogic.

(** What a successful answer of thread [i] certifies. *)
Definition reply_ok `{!Libraries} auth_config require_tenant model_map (i : nat) (h : Auth.Auth.Request) (reply : Reply)
    (tr : list obs) : Prop :=
  let gate := gate auth_config require_tenant h in
  match reply with
  | CreateFunctionResponse id => exists r, ODeploy i h id r ∈ tr /\ gate (fn_tenant_id r)
  | NoContent => exists id, OArrive i h (DeleteFunctions id) ∈ tr /\ ORemove i h id ∈ tr
  | Invoked v => exists fn payload t bytes e a r,
      OArrive i h (PostInvoke fn payload) ∈ tr /\ asked payload e a /\
      owned auth_config require_tenant h t fn bytes tr /\ ran i h t bytes e a r tr /\ Ok v = answer fn r
  | Accepted job => exists bytes t fn e a, ODetach i h (JobTask bytes t fn e a job) ∈ tr
  | JobResponse rec => OArrive i h (GetJobs (job_id rec)) ∈ tr /\ gate (job_tenant_id rec) /\ job_as_run rec tr
  | StreamResponse sid _ => exists bytes t e a, ODetach i h (StreamTask bytes t e a sid) ∈ tr
  | SnapshotSaveResponse id _ _ => exists j h' r, ODeploy j h' id r ∈ tr /\ gate (fn_tenant_id r)
  | SnapshotRestoreResponse t _ _ _ => gate t
  | OpenAiResponse status body =>
      status <> 200 /\ (exists t, gate t) \/
      exists route tq m o bytes t sid chunks id created usage,
        OArrive i h route ∈ tr /\ translation model_map route tq m o /\
        ODetach i h (OpenAiTask bytes t (Utf8.encode_utf8 (tr_prompt tq)) (tr_args tq) sid) ∈ tr /\
        OReceive i h sid chunks ∈ tr /\ status = 200 /\
        body = envelope o id created m (Utf8.from_utf8_lossy (collect [] chunks)) usage
  | OpenAiStream sid _ _ m chat => exists route tq o bytes t,
      OArrive i h route ∈ tr /\ translation model_map route tq m o /\ chat = is_chat o /\
      ODetach i h (OpenAiTask bytes t (Utf8.encode_utf8 (tr_prompt tq)) (tr_args tq) sid) ∈ tr
  | TaskEnd => False
  end.

Section handlers.
Context `{!Libraries, !Primitives, !SnapshotPrimitives}.
Variables (auth_config : Auth.Auth.AuthConfig) (require_tenant : bool) (model_map : gmap text Uuid).
Variables (i : nat) (h : Auth.Auth.Request).
Abbreviation gate := (gate auth_config require_tenant h).
Abbreviation owned := (owned auth_config require_tenant h).
Abbreviation ok := (ok auth_config require_tenant model_map i h).

Definition replied (r : result ApiError Reply) (w : res) (tr : list obs) : Prop :=
  held w = 0%nat /\ forall reply, r = Ok reply -> reply_ok auth_config require_tenant model_map i h reply tr.

Definition ended (r : result ApiError Reply) (w : res) (tr : list obs) : Prop := held w = 0%nat.

Lemma replied_stable : stable replied.
Proof.
  intros r w tr tr' Hs [Hh Hr]. split; [done|]. intros reply ->. specialize (Hr _ eq_refl).
  destruct reply; cbn -[ran answer envelope] in *; try naive_solver eauto using job_as_run_mono.
  destruct Hr as (fn & payload & t & bytes & e & a & r & ? & ? & ? & ? & ?).
  exists fn, payload, t, bytes, e, a, r. split_and!; eauto using owned_mono, ran_mono.
Qed.
Lemma ended_stable : stable ended.
Proof. by intros r w tr tr' _. Qed.

Lemma replied_err e w tr : held w = 0%nat -> replied (Err e) w tr.
Proof. done. Qed.

(** The thread keeps what it holds; a passed check is spent. *)
Definition same (w w' : res) : Prop := held w' = held w /\ passed w' = false /\ tok w' = tok w.

Section parts.
Variable task : bool.

Lemma ok_act {R} (post : R -> res -> list obs -> Prop) w (op : action R) tr :
  demand auth_config require_tenant model_map i h task op w tr ->
  (forall r tr', tr ⊆ tr' -> told i h op tr' r -> post r (yields op w r) tr') -> ok task post w (act op) tr.
Proof. done. Qed.

Lemma ok_try {E A B} (post : result ApiError B -> res -> list obs -> Prop) w (r : result E A) conv f tr :
  (forall e, post (Err (conv e)) w tr) -> (forall a, r = Ok a -> ok task post w (f a) tr) ->
  ok task post w (try_ r conv f) tr.
Proof. destruct r; cbn; eauto. Qed.

Lemma ok_hbind {A B} (post : result ApiError B -> res -> list obs -> Prop) w (m : handler A) (f : A -> handler B) tr :
  ok task (fun r w tr => match r with Ok a => ok task post w (f a) tr | Err e => post (Err e) w tr end) w m tr ->
  ok task post w (hbind m f) tr.
Proof. intros Hm. apply ok_bind. eapply ok_weaken, Hm. by intros [] **. Qed.

Lemma ok_then {A B} (post : B -> res -> list obs -> Prop) (mid : A -> res -> list obs -> Prop) w (m : prog A) f tr :
  ok task (fun a w' tr' => tr ⊆ tr' /\ mid a w' tr') w m tr ->
  (forall a w' tr', tr ⊆ tr' -> mid a w' tr' -> ok task post w' (f a) tr') -> ok task post w (pbind m f) tr.
Proof. intros Hm Hf. apply ok_bind. eapply ok_weaken, Hm. cbn. intros a w' tr' [Hs Ha]. eauto. Qed.

Lemma ok_hthen {A B} (post : result ApiError B -> res -> list obs -> Prop) (mid : result ApiError A -> res -> list obs -> Prop)
    w (m : handler A) f tr :
  ok task (fun r w' tr' => tr ⊆ tr' /\ mid r w' tr') w m tr ->
  (forall e w' tr', tr ⊆ tr' -> mid (Err e) w' tr' -> post (Err e) w' tr') ->
  (forall a w' tr', tr ⊆ tr' -> mid (Ok a) w' tr' -> ok task post w' (f a) tr') -> ok task post w (hbind m f) tr.
Proof. intros Hm He Hf. eapply ok_then; [exact Hm|]. cbn. intros [a|e] w' tr' Hs Ha; cbn; eauto. Qed.

(** An action that is in the trace. *)
Lemma told_one {R} (op : action R) tr r : told i h op tr r -> match observe i h op r with [o] => o ∈ tr | _ => True end.
Proof. intros [Hs _]. destruct (observe i h op r) as [|o []]; [done| |done]. apply Hs. by left. Qed.

Definition fed (cfg : SpawnConfig) (bytes : list u8) (tr : list obs) : Prop :=
  forall sid, streaming cfg = Some sid -> exists j tk, ODetach j h tk ∈ tr /\ feeds tk sid bytes.

Lemma spawn_demand cfg bytes fn w tr tr' :
  tr ⊆ tr' -> owned (tenant_id cfg) fn bytes tr -> fed cfg bytes tr ->
  demand auth_config require_tenant model_map i h task (SpawnInstance cfg bytes) w tr'.
Proof.
  intros Hs Ho Hp. split; [exists fn; by eapply owned_mono|]. intros sid Hc. destruct (Hp sid Hc) as (j & tk & Hj & Hf).
  exists j, tk. split; [by apply Hs|done].
Qed.

Lemma call_discovering_ok w first retry bytes t fn e a tr :
  tenant_id first = t -> tenant_id retry = t -> owned t fn bytes tr -> fed first bytes tr -> fed retry bytes tr ->
  ok task (fun r w' tr' => tr ⊆ tr' /\ same w w' /\ ran i h t bytes e a r tr') w (call_discovering first retry bytes e a) tr.
Proof.
  intros Hf Hr Ho Hpf Hpr. cbn. split; [by apply (spawn_demand _ _ fn w tr); rewrite ?Hf|].
  intros [iid|x] tr1 Hs1 Ht1%told_one; cbn in *.
  2: { split_and!; [done..|]. exists first. split; [done|]. left. eauto. }
  destruct e as [name|]; cbn; (split; [by eauto|]); intros r tr2 Hs2 Ht2%told_one; cbn in Ht2.
  { split_and!; [by etrans|done..|]. exists first. split; [done|]. right. exists iid, name. split_and!; eauto. }
  assert (tr ⊆ tr2) as Hs12 by (by etrans).
  assert ((exists n, r = Err (MissingExport n)) \/ forall n, r <> Err (MissingExport n)) as [[n ->]|Hn]
    by (destruct r as [|[]]; eauto); cbn.
  2: { assert (ran i h t bytes None a r tr2) as Hran.
       { exists first. split; [done|]. right. exists iid, (chars "_start"). split_and!; eauto. }
       destruct r as [v|[]]; cbn; try by split_and!. by destruct (Hn name). }
  split; [by apply (spawn_demand _ _ fn w tr); rewrite ?Hr|].
  intros [i2|x] tr3 Hs3 Ht3%told_one; cbn in *.
  - split; [by eauto|]. intros r tr4 Hs4 Ht4%told_one; cbn in Ht4. split_and!; [by do 2 (etrans; [done|])|done..|].
    exists retry. split; [done|]. right. exists i2, (chars "main"). split_and!; [by apply Hs4|done|]. right. split; [done|].
    exists iid, n. by apply Hs4, Hs3.
  - split_and!; [by etrans|done..|]. exists retry. split; [done|]. left. eauto.
Qed.

Lemma run_invoke_ok w bytes t fn e a tr :
  owned t fn bytes tr ->
  ok task (fun r w' tr' => tr ⊆ tr' /\ same w w' /\ exists x, ran i h t bytes e a x tr' /\ r = answer fn x) w
    (run_invoke bytes t fn e a) tr.
Proof.
  intros Ho. assert (tenant_id (build_cfg t a) = t /\ streaming (build_cfg t a) = None) as [Ht Hst].
  { unfold build_cfg. by case_bool_decide. }
  unfold run_invoke. apply (ok_then _ (fun r w' tr' => same w w' /\ ran i h t bytes e a r tr')).
  { eapply call_discovering_ok; try done; intros sid; by rewrite Hst. }
  cbn -[ran]. intros [v|x] w' tr' Hs [Hw Hr]; cbn -[ran]; split_and!; try done; eexists; (split; [exact Hr|done]).
Qed.

Lemma owned_bytes_ok w id t tr :
  gate t ->
  ok task (fun r w' tr' => tr ⊆ tr' /\ same w w' /\ forall bytes, r = Ok bytes -> owned t id bytes tr') w (owned_bytes id t) tr.
Proof.
  intros Hg. cbn. split; [done|]. intros [r|] tr' Hs [_ Ht]; cbn; [|by split_and!].
  destruct (Ht r eq_refl) as (j & h' & Hd). destruct (fn_tenant_id r =? t) eqn:Ho; cbn; split_and!; try done.
  intros bytes [= <-]. bool_props. split; [done|]. by exists j, h', r.
Qed.

Lemma remove_all_ok w l job r tr :
  passed w = false -> ODispatch i h job r ∈ tr -> ok task (fun _ w' tr' => tr ⊆ tr' /\ same w w') w (remove_all l) tr.
Proof.
  revert w tr. induction l as [|[[t id] d] l IH]; intros w tr Hp Hd; cbn; [done|]. split; [by eauto|]. intros _ tr' Hs _.
  eapply ok_weaken, IH; [|done|by apply Hs]. cbn. intros _ w' tr'' [Hs' Hw]. split; [by etrans|done].
Qed.

Lemma evict_ok w job r tr :
  ODispatch i h job r ∈ tr -> ok task (fun _ w' tr' => tr ⊆ tr' /\ same w w') w evict_jobs_if_over_cap tr.
Proof.
  intros Hd. cbn. split; [done|]. intros len tr1 Hs1 _. destruct (_ <=? _)%nat; cbn; [done|]. split; [done|]. intros es tr2 Hs2 _.
  eapply ok_weaken, remove_all_ok; [|done|by apply Hs2, Hs1]. cbn. intros _ w' tr3 [Hs3 Hw]. split; [by do 2 (etrans; [done|])|done].
Qed.
End parts.
Definition nothing : res := mkRes 0 false None.

Section request.
Variables (sc : TenantScope) (t : TenantId).
Hypothesis authenticated : Auth.Auth.bearer_auth auth_config h = Ok sc.
Hypothesis addressed : Auth.Auth.extract_tenant require_tenant h = Ok t.

Lemma gated u : require_authorize (Some sc) t = Ok u -> gate t.
Proof.
  unfold gate, RouteLogic.gate, Auth.Auth.tenant_gate, Auth.Auth.authorize_tenant. cbn. unfold authorize_tenant.
  rewrite authenticated. cbn. rewrite addressed. cbn. by destruct (allows sc t).
Qed.

Lemma create_function_ok payload tr : ok false replied nothing (create_function (Some t) (Some sc) payload) tr.
Proof.
  unfold create_function. cbn [default]. apply ok_try; [done|]. intros u Hg%gated. apply ok_try; [done|]. intros req _.
  apply ok_try; [done|]. intros _ _.
  apply (ok_hthen _ _ (fun _ w' _ => same nothing w')).
  { unfold decode_wasm_b64. destruct (_ <? _); cbn; [done|]. split; [done|]. intros [d|e] tr' Hs _; cbn; done. }
  { by intros e w' tr' _ (Hh & _). }
  intros bytes w' tr' Hs (Hh & _ & Hk). destruct (_ <? _); [by apply replied_err|]. cbn. split; [done|].
  intros [[]|e] tr1 Hs1 _; cbn; try by split. split; [done|]. intros id tr2 Hs2 _. split; [done|]. intros now tr3 Hs3 _.
  split; [by split|]. intros [] tr4 Hs4 Hd%told_one. split; [done|]. intros reply [= <-]. cbn in *. eauto.
Qed.

Lemma delete_function_ok id tr :
  OArrive i h (DeleteFunctions id) ∈ tr -> ok false replied nothing (delete_function id (Some t) (Some sc)) tr.
Proof.
  intros Harr. unfold delete_function. cbn [default]. apply ok_try; [done|]. intros u Hg%gated. cbn. split; [done|].
  intros [r|] tr1 Hs1 [_ Hr]; cbn; [|done]. destruct (fn_tenant_id r =? t) eqn:Ho; cbn; [|done]. bool_props.
  destruct (Hr r eq_refl) as (j & h' & Hd). split; [exists j, h', r; by rewrite Ho|].
  intros [] tr2 Hs2 Hrem%told_one; [|done]. split; [done|].
  intros reply [= <-]. exists id. split; [by apply Hs2, Hs1|done].
Qed.

Lemma invoke_function_ok id payload tr :
  OArrive i h (PostInvoke id payload) ∈ tr -> ok false replied nothing (invoke_function id (Some t) (Some sc) payload) tr.
Proof.
  intros Harr. unfold invoke_function. cbn [default]. apply ok_try; [done|]. intros u Hg%gated. apply ok_try; [done|]. intros req Hreq.
  apply ok_try; [done|]. intros a Ha. eapply ok_hthen; [by apply owned_bytes_ok|by intros e w' tr' _ ((Hh & _) & _)|].
  intros bytes w' tr1 Hs1 ((Hh & _) & Hb). specialize (Hb _ eq_refl).
  eapply ok_hthen; [by apply run_invoke_ok|intros e w2 tr' _ ((Hh2 & _) & _); split; [by rewrite Hh2|done]|].
  intros v w2 tr2 Hs2 ((Hh2 & _) & x & Hran & Hx). split; [by rewrite Hh2|]. intros reply [= <-].
  exists id, payload, t, bytes, (export req), a, x. split_and!; [by apply Hs2, Hs1|by exists req|by eapply owned_mono|done..].
Qed.

(** The admission gate leaves the thread with a guard. *)
Lemma admit_job_ok w tr :
  held w = 0%nat ->
  ok false (fun r w' tr' => tr ⊆ tr' /\ tok w' = tok w /\ held w' = match r with Ok _ => 1%nat | Err _ => 0%nat end) w admit_job tr.
Proof.
  intros Hw. cbn. split; [done|]. intros n tr1 Hs1 _. destruct (MAX_OUTSTANDING_ASYNC_JOBS <=? n) eqn:Hn; cbn; [done|].
  split; [split; [bool_props; by apply Z.ltb_lt|done]|]. intros _ tr2 Hs2 _. split; [by etrans|]. by rewrite Hw.
Qed.

Lemma invoke_function_async_ok id payload tr :
  OArrive i h (PostInvokeAsync id payload) ∈ tr ->
  ok false replied nothing (invoke_function_async id (Some t) (Some sc) payload) tr.
Proof.
  intros Harr. unfold invoke_function_async. cbn [default]. apply ok_try; [done|]. intros u Hg%gated.
  apply ok_try; [done|]. intros req Hreq.
  apply ok_try; [done|]. intros a Ha. eapply ok_hthen; [by apply owned_bytes_ok|by intros e w' tr' _ ((Hh & _) & _)|].
  intros bytes w1 tr1 Hs1 ((Hh1 & _ & Hk1) & Hb). specialize (Hb _ eq_refl). pose proof Hb as (_ & j & h' & f & Hf & Hft & _).
  eapply ok_hthen; [by apply admit_job_ok|by intros e w' tr' _ (_ & Hh)|]. intros _ w2 tr2 Hs2 (Hk2 & Hh2).
  cbn [pbind act RouteLogic.ok]. split; [red; by rewrite Hk2, Hk1|]. intros job tr3 Hs3 _. split; [done|]. intros now tr4 Hs4 _.
  assert (tr1 ⊆ tr4) as Hs14 by (by do 2 (etrans; [done|])).
  split; [split_and!; try done; exists j, h', f; split; [by apply Hs14|done]|]. intros u5 tr5 Hs5 Hd%told_one. cbn in Hd.
  apply (ok_then _ _ (fun _ w' _ => same (mkRes 1 false (Some (Resolver job))) w')).
  { eapply ok_weaken, evict_ok, Hd. cbn. rewrite Hh2. done. }
  intros _ w6 tr6 Hs6 (Hh6 & _ & Hk6). cbn -[justified]. assert (tr1 ⊆ tr6) as Hs16 by (by do 2 (etrans; [done|])).
  split.
  { split; [|done]. split_and!; [by eapply owned_mono| |].
    - exists payload. split; [by apply Hs16, Hs1|by exists req].
    - eexists. split; [by apply Hs6|done]. }
  intros [] tr7 Hs7 Hdet%told_one. split; [cbn; by rewrite Hh6|]. intros reply [= <-]. do 5 eexists. exact Hdet.
Qed.

Lemma invoke_function_stream_ok id accept payload tr :
  OArrive i h (PostInvokeStream id accept payload) ∈ tr ->
  ok false replied nothing (invoke_function_stream id (Some t) (Some sc) accept payload) tr.
Proof.
  intros Harr. unfold invoke_function_stream. cbn [default]. apply ok_try; [done|]. intros u Hg%gated.
  eapply ok_hthen; [by apply owned_bytes_ok|by intros e w' tr' _ ((Hh & _) & _)|].
  intros bytes w1 tr1 Hs1 ((Hh1 & _ & Hk1) & Hb). specialize (Hb _ eq_refl).
  apply ok_try; [done|]. intros req Hreq. apply ok_try; [done|]. intros a Ha.
  eapply ok_hthen; [by apply admit_job_ok|by intros e w' tr' _ (_ & Hh)|]. intros _ w2 tr2 Hs2 (Hk2 & Hh2).
  cbn -[justified]. split; [done|]. intros sid tr3 Hs3 Hopen%told_one. assert (tr1 ⊆ tr3) as Hs13 by (by etrans). split.
  { split; [|done]. split; [done|]. exists id, accept, payload. split_and!; [by apply Hs13, Hs1|by exists req|by eapply owned_mono]. }
  intros [] tr4 Hs4 Hdet%told_one. split; [cbn; by rewrite Hh2|]. intros reply [= <-]. do 4 eexists. exact Hdet.
Qed.

Lemma get_job_ok id tr : OArrive i h (GetJobs id) ∈ tr -> ok false replied nothing (get_job id (Some t) (Some sc)) tr.
Proof.
  intros Harr. unfold get_job. cbn [default]. apply ok_try; [done|]. intros u Hg%gated. cbn. split; [done|].
  intros [r|] tr1 Hs1 [_ Hr]; cbn; [|done]. destruct (Hr r eq_refl) as (Hid & Hrun & Hu).
  destruct (job_tenant_id r =? t) eqn:Ho; cbn; [|done]. bool_props. split; [done|]. intros [r2|] tr2 Hs2 [_ Hr2]; cbn; [|done].
  split; [done|]. intros reply [= <-]. destruct (Hr2 r2 eq_refl) as (Hid2 & Hrun2 & Hu2).
  split; [rewrite Hid2; by apply Hs2, Hs1|]. split; [|done].
  destruct Hrun as (j1 & h1 & r1 & Hd1 & _). rewrite Hid in Hd1. rewrite <-(Hu2 _ _ _ (Hs2 _ Hd1)), (Hu _ _ _ Hd1). by rewrite Ho.
Qed.

Lemma snapshot_save_ok cfg clock payload tr :
  ok false replied nothing (snapshot_save cfg clock (Some t) (Some sc) payload) tr.
Proof.
  unfold snapshot_save. cbn [default]. apply ok_try; [done|]. intros u Hg%gated.
  destruct (snapshot_hmac_key cfg) as [key|]; [|done]. apply ok_try; [done|]. intros fn _.
  eapply ok_hthen; [by apply owned_bytes_ok|by intros e w' tr' _ ((Hh & _) & _)|].
  intros bytes w1 tr1 Hs1 ((Hh1 & _) & Hb). destruct (Hb _ eq_refl) as (_ & j & h' & f & Hf & Hft & _).
  cbn. split; [done|]. intros [[b|e]|e] tr2 Hs2 _; split; try done. intros reply [= <-]. exists j, h', f. split; [by apply Hs2|].
  by rewrite Hft.
Qed.

Lemma snapshot_restore_ok cfg clock payload tr :
  ok false replied nothing (snapshot_restore cfg clock (Some t) (Some sc) payload) tr.
Proof.
  unfold snapshot_restore. cbn [default]. apply ok_try; [done|]. intros u Hg%gated.
  destruct (snapshot_hmac_key cfg) as [key|]; [|done]. apply ok_try; [done|]. intros b64 _. apply ok_try; [done|]. intros bytes _.
  cbn. split; [done|]. intros [[s|e]|e] tr2 Hs2 _; split; try done. intros reply.
  destruct (md_tenant_id _ =? t) eqn:Ho; cbn; [|done]. intros [= <-]. bool_props. cbn. by rewrite Ho.
Qed.

Lemma openai_refused e w tr : gate t -> held w = 0%nat -> ok false replied w (refuse e) tr.
Proof.
  intros Hg Hw. split; [done|]. intros reply [= <-]. left. split; [|by exists t]. unfold status_of. by repeat case_bool_decide.
Qed.

Lemma run_translated_ok route tq m o tr :
  gate t -> OArrive i h route ∈ tr -> translation model_map route tq m o -> ok false replied nothing (run_translated t tq m o) tr.
Proof.
  intros Hg Harr Htq. cbn -[translation]. split; [done|]. intros [r|] tr1 Hs1 [_ Hr]; [|by apply openai_refused].
  destruct (fn_tenant_id r =? t) eqn:Ho; [|by apply openai_refused]. bool_props. cbn [negb].
  destruct (Hr r eq_refl) as (j & h' & Hd).
  assert (forall sid tr', tr1 ⊆ tr' -> OOpen i h sid ∈ tr' ->
    justified auth_config require_tenant model_map i h
      (OpenAiTask (wasm_bytes r) t (Utf8.encode_utf8 (tr_prompt tq)) (tr_args tq) sid) tr') as Hj.
  { intros sid tr' Hs Hopen. split; [done|]. exists route, tq, m, o. split; [by apply Hs, Hs1|]. split; [done|]. split; [|done].
    split; [done|]. exists j, h', r. split; [by apply Hs|done]. }
  destruct (tr_stream tq); cbn -[justified translation]; (split; [done|]); intros sid tr2 Hs2 Hopen%told_one;
    (split; [split; [by apply Hj|done]|]); intros [] tr3 Hs3 Hdet%told_one.
  - split; [done|]. intros id tr4 Hs4 _. split; [done|]. intros now tr5 Hs5 _. split; [done|]. intros reply [= <-].
    exists route, tq, o, (wasm_bytes r), t. split_and!; [by apply Hs5, Hs4, Hs3, Hs2, Hs1|done..|by apply Hs5, Hs4].
  - split; [by apply Hs3|]. intros chunks tr4 Hs4 Hrecv%told_one. split; [by apply Hs4, Hs3|].
    intros [[[]|e]|e] tr5 Hs5 _; [|by apply openai_refused..]. split; [done|]. intros id tr6 Hs6 _. split; [done|].
    intros now tr7 Hs7 _. split; [done|]. intros reply [= <-]. right.
    eexists route, tq, m, o, (wasm_bytes r), t, sid, chunks, _, _, _.
    split_and!; [by apply Hs7, Hs6, Hs5, Hs4, Hs3, Hs2, Hs1|done|by apply Hs7, Hs6, Hs5, Hs4|by apply Hs7, Hs6, Hs5|done..].
Qed.

Lemma completions_handler_ok payload tr :
  OArrive i h (PostCompletions payload) ∈ tr ->
  ok false replied nothing (completions_handler model_map (Some t) (Some sc) payload) tr.
Proof.
  intros Harr. unfold completions_handler. cbn [default]. apply ok_try; [done|]. intros u Hg%gated. destruct payload as [req|rej].
  - destruct (translate_completions_request _ _) eqn:Ht; [by eapply run_translated_ok|by apply openai_refused].
  - split; [done|]. intros reply [= <-]. left. split; [done|]. by exists t.
Qed.

Lemma chat_completions_handler_ok payload tr :
  OArrive i h (PostChatCompletions payload) ∈ tr ->
  ok false replied nothing (chat_completions_handler model_map (Some t) (Some sc) payload) tr.
Proof.
  intros Harr. unfold chat_completions_handler. cbn [default]. apply ok_try; [done|]. intros u Hg%gated. destruct payload as [req|rej].
  - destruct (translate_chat_completions_request _ _) eqn:Ht; [by eapply run_translated_ok|by apply openai_refused].
  - split; [done|]. intros reply [= <-]. left. split; [done|]. by exists t.
Qed.

Lemma handle_ok cfg route tr :
  OArrive i h route ∈ tr -> ok false replied nothing (handle cfg model_map route (Some t) (Some sc)) tr.
Proof.
  intros Harr. destruct route; cbn [handle]; eauto using create_function_ok, delete_function_ok, invoke_function_ok,
    invoke_function_async_ok, invoke_function_stream_ok, get_job_ok, snapshot_save_ok, snapshot_restore_ok,
    completions_handler_ok, chat_completions_handler_ok.
Qed.
End request.

(** What a task is given when it is detached. *)
Definition task_token (tk : Task) : option token :=
  match tk with JobTask _ _ _ _ _ job => Some (Resolver job) | _ => None end.

(** The task that thread [j] detaches is [ok] as thread [i]. *)
Lemma task_body_ok j tk tr :
  justified auth_config require_tenant model_map j h tk tr -> ODetach j h tk ∈ tr ->
  ok true ended (mkRes (if owns_guard tk then 1 else 0) false (task_token tk)) (task_body tk) tr.
Proof.
  destruct tk as [bytes t fn e a job|bytes t e a sid|bytes t prompt a sid]; cbn [task_body task_token owns_guard].
  - intros (Ho & _) Hdet. eapply ok_then; [by apply run_invoke_ok|]. intros o w1 tr1 Hs1 ((Hh & _ & Hk) & x & Hran & ->).
    cbn -[job_ran answer] in *. split.
    { split; [done|]. exists j, bytes, t, fn, e, a, x. split_and!; [by apply Hs1|done..]. }
    intros _ tr2 _ _. split; [done|]. intros _ tr3 _ _. red. cbn. by rewrite Hh.
  - intros (_ & fn & accept & payload & _ & _ & Ho) Hdet. eapply ok_then.
    { eapply (call_discovering_ok _ _ _ _ _ t fn); try done. intros ? [= <-]. by eexists j, _. }
    intros o w1 tr1 Hs1 ((Hh & _ & Hk) & _). cbn in *.
    split; [done|]. intros _ tr2 _ _. split; [done|]. intros _ tr3 _ _. red. cbn. by rewrite Hh.
  - intros (_ & route & tq & m & o & _ & _ & Ho & _) Hdet. cbn. split.
    { split; [by eexists|]. intros ? [= <-]. by eexists j, _. }
    intros [iid|e] tr1 _ Hrun%told_one; cbn; cbn in Hrun; (split; [by eauto|]); [|done].
    intros called tr2 _ _. split; [done|]. done.
Qed.
End handlers.
End RouteHandlers.

(** The invariant of the whole system. *)
Module RouteInvariant.
Import Auth.Text Auth.TokenScope Envelope Json Routes.Routes OpenAi.Translator OpenAi.OpenAi Gateway.Gateway RouteLogic RouteHandlers.

Lemma omap_unique {A B} (f : A -> option B) l x y k :
  NoDup (omap f l) -> x ∈ l -> y ∈ l -> f x = Some k -> f y = Some k -> x = y.
Proof.
  induction l as [|z l IH]; intros Hn Hx Hy Hfx Hfy; [by apply not_elem_of_nil in Hx|]. csimpl in Hn.
  assert (forall u, u ∈ l -> f u = Some k -> k ∈ omap f l) as Hin by (intros; apply list_elem_of_omap; eauto).
  apply elem_of_cons in Hx as [->|Hx], Hy as [->|Hy]; [done|..].
  - rewrite Hfx in Hn. apply NoDup_cons in Hn as [Hk _]. by destruct Hk; eauto.
  - rewrite Hfy in Hn. apply NoDup_cons in Hn as [Hk _]. by destruct Hk; eauto.
  - apply IH; try done. destruct (f z); [by apply NoDup_cons in Hn as [_ ?]|done].
Qed.

Lemma filter_atmost {A B} (f : A -> option B) (P : A -> bool) l k :
  NoDup (omap f l) -> (forall x, P x -> f x = Some k) -> (length (filter P l) <= 1)%nat.
Proof.
  intros Hn Hf. destruct (filter P l) as [|x [|y ys]] eqn:Hl; cbn; [lia..|].
  exfalso. revert Hn Hl. induction l as [|z l IH]; [done|]. csimpl. rewrite filter_cons. intros Hn. case_decide as Hz.
  - rewrite (Hf _ Hz) in Hn. apply NoDup_cons in Hn as [Hk _]. intros [= -> Hl]. apply Hk, list_elem_of_omap.
    assert (y ∈ filter P l) as [Hy Hin]%list_elem_of_filter by (rewrite Hl; by left). eauto.
  - apply IH. destruct (f z); [by apply NoDup_cons in Hn as [_ ?]|done].
Qed.

Lemma filter_once {A B} (f : A -> option B) (P : A -> bool) l k x :
  NoDup (omap f l) -> x ∈ l -> P x -> (forall x, P x -> f x = Some k) -> length (filter P l) = 1%nat.
Proof.
  intros Hn Hx HP Hf. pose proof (filter_atmost f P l k Hn Hf).
  assert (x ∈ filter P l) as Hin by (by apply list_elem_of_filter). destruct (filter P l); [by apply not_elem_of_nil in Hin|]. cbn in *. lia.
Qed.

Lemma delete_insert_list {A} (l : list A) i x : delete i (<[i := x]> l) = delete i l.
Proof. revert i. induction l as [|y l IH]; intros [|i]; cbn; [done..|]. f_equal. apply IH. Qed.

Definition tokens (ws : list res) : list token := omap tok ws.

Definition spends (o : obs) : option token :=
  match o with
  | ODeploy _ _ id _ | ODispatch _ _ id _ => Some (Fresh id)
  | OResolve _ _ id _ => Some (Resolver id)
  | _ => None
  end.
Definition spent (tr : list obs) : list token := omap spends tr.

(** The streams that were opened. *)
Definition opened (o : obs) : option nat := match o with OOpen _ _ sid => Some sid | _ => None end.

Lemma tokens_insert ws i w w' :
  ws !! i = Some w ->
  tokens ws ≡ₚ option_list (tok w) ++ tokens (delete i ws) /\
  tokens (<[i := w']> ws) ≡ₚ option_list (tok w') ++ tokens (delete i ws).
Proof.
  intros Hi. unfold tokens. split.
  - rewrite (delete_Permutation _ _ _ Hi) at 1. csimpl. by destruct (tok w).
  - rewrite (delete_Permutation (<[i := w']> ws) i w') by (apply list_lookup_insert_eq, lookup_lt_is_Some; eauto).
    rewrite delete_insert_list. csimpl. by destruct (tok w').
Qed.

(** Fresh identifiers were drawn, and a job is resolved only after its
    dispatch; no right is held twice or used again. *)
Record tokens_ok (past : list Uuid) (all used : list token) : Prop := {
  tk_once : NoDup all;
  tk_drawn id : Fresh id ∈ all -> id ∈ past;
  tk_dispatched id : Resolver id ∈ all -> Fresh id ∈ used;
}.

Lemma tokens_ok_perm past past' all all' used used' :
  all' ≡ₚ all -> used ⊆ used' -> past ⊆ past' -> tokens_ok past all used -> tokens_ok past' all' used'.
Proof.
  intros Hp Hu Hd [H1 H2 H3]. split.
  - by rewrite Hp.
  - intros id. rewrite Hp. eauto.
  - intros id. rewrite Hp. eauto.
Qed.

Lemma tokens_ok_drop past all all' t used : all ≡ₚ option_list t ++ all' -> tokens_ok past all used -> tokens_ok past all' used.
Proof.
  intros Hp [H1 H2 H3]. rewrite Hp in H1. apply NoDup_app in H1 as (_ & _ & ?).
  split; [done|..]; intros id Hid; [apply H2|apply H3]; rewrite Hp; apply elem_of_app; by right.
Qed.

Lemma tokens_ok_draw past all used id : id ∉ past -> tokens_ok past all used -> tokens_ok (id :: past) (Fresh id :: all) used.
Proof.
  intros Hn [H1 H2 H3]. split.
  - apply NoDup_cons. split; [by intros ?%H2|done].
  - intros id' [[= ->]|Hid]%elem_of_cons; [by left|right; eauto].
  - intros id' [[=]|Hid]%elem_of_cons. eauto.
Qed.

(** Using up the right to an identifier makes the right to resolve it. *)
Lemma tokens_ok_dispatch past rest used id :
  tokens_ok past (Fresh id :: rest) used -> Fresh id ∉ used ->
  tokens_ok past (Resolver id :: Fresh id :: rest) (Fresh id :: used).
Proof.
  intros [H1 H2 H3] Hn. split.
  - apply NoDup_cons. split; [by intros ?%H3|done].
  - intros id' [[=]|Hid]%elem_of_cons. eauto.
  - intros id' [[= ->]|Hid]%elem_of_cons; [by left|right; eauto].
Qed.

(** How a step moves the thread's right [a]: to [a'] for itself, [c] for the
    task it detaches, [s] used up. *)
Inductive token_move (r : Uuid) (a : option token) : option token -> list token -> list token -> Prop :=
| keeps : token_move r a a [] []
| draws : a = None -> token_move r a (Some (Fresh r)) [] []
| uses : token_move r a None [] (option_list a)
| dispatches id : a = Some (Fresh id) -> token_move r a (Some (Resolver id)) [] [Fresh id]
| hands_on : token_move r a None (option_list a) [].

Lemma token_move_ok past r a a' c s D S :
  r ∉ past -> token_move r a a' c s -> tokens_ok past ((option_list a ++ D) ++ S) S ->
  tokens_ok (r :: past) (((option_list a' ++ D) ++ c) ++ (S ++ s)) (S ++ s).
Proof.
  intros Hr Hm Hok. assert (S ⊆ S ++ s) as HS by set_solver. assert (past ⊆ r :: past) as HP by set_solver.
  destruct Hm as [ | -> | |id -> | ]; cbn [option_list] in *.
  - eapply tokens_ok_perm; [|done..|done]. by rewrite !app_nil_r.
  - rewrite !app_nil_r. by apply tokens_ok_draw.
  - eapply tokens_ok_perm; [|done..|done]. rewrite app_nil_r. cbn. solve_Permutation.
  - eapply (tokens_ok_perm past); [| |done|apply (tokens_ok_dispatch _ (D ++ S) S id); [exact Hok|]].
    + cbn. rewrite app_nil_r. apply Permutation_skip. solve_Permutation.
    + set_solver.
    + destruct Hok as [Hn _ _]. cbn in Hn. apply NoDup_cons in Hn as [Hn _]. set_solver.
  - eapply tokens_ok_perm; [|done..|done]. rewrite app_nil_r. cbn. solve_Permutation.
Qed.

(** The resources of the task an action detaches. *)
Definition detaches {R} (op : action R) : list res :=
  match op with TokioSpawn tk => [mkRes (if owns_guard tk then 1 else 0) false (task_token tk)] | _ => [] end.

Definition waiting (w : res) : Z := if passed w then 1 else 0.
Definition flying (t : Thread) : Z := if in_flight t then 1 else 0.

Lemma in_flight_count ts : Z.of_nat (length (filter in_flight ts)) = sumZ flying ts.
Proof.
  induction ts as [|t ts IH]; [done|]. rewrite filter_cons. change (sumZ flying (t :: ts)) with (flying t + sumZ flying ts).
  unfold flying at 1. destruct (in_flight t); case_decide; try done; cbn [length]; lia.
Qed.

Definition admissible (w : res) (t : Thread) : Prop := passed w = true -> in_flight t = true.

Lemma waiting_flying ws ts : Forall2 admissible ws ts -> sumZ waiting ws <= sumZ flying ts.
Proof.
  unfold sumZ. induction 1 as [|w t ws ts Hp _ IH]; [done|]. cbn [foldr]. unfold waiting, flying, admissible in *.
  destruct (passed w); [rewrite Hp by done; lia|]. destruct (in_flight t); lia.
Qed.

Section invariant.
Context `{!Libraries, !Primitives, !SnapshotPrimitives}.
Variables (auth_config : Auth.Auth.AuthConfig) (require_tenant : bool) (app_config : AppConfig) (model_map : gmap text Uuid) (admitted : nat).
Abbreviation gate := (gate auth_config require_tenant).
Abbreviation owned := (owned auth_config require_tenant).

(** What happened was allowed by what had happened. *)
Definition permitted (tr : list obs) (o : obs) : Prop :=
  match o with
  | OArrive i h route =>
      exists sc t, Auth.Auth.bearer_auth auth_config h = Ok sc /\ Auth.Auth.extract_tenant require_tenant h = Ok t
  | ODeploy i h id r => gate h (fn_tenant_id r)
  | ORemove i h id => exists j h' r, ODeploy j h' id r ∈ tr /\ gate h (fn_tenant_id r)
  | ODispatch i h id r =>
      gate h (job_tenant_id r) /\ job_id r = id /\ job_status r = Pending /\ job_result r = None /\
      exists j h' f, ODeploy j h' (function_id r) f ∈ tr /\ fn_tenant_id f = job_tenant_id r
  | OResolve i h id outcome => job_ran i h id outcome tr
  | OForget i h id => exists job r, ODispatch i h job r ∈ tr
  | OOpen i h sid => True
  | ODetach i h tk => justified auth_config require_tenant model_map i h tk tr
  | ORun i h cfg bytes _ =>
      (exists fn, owned h (tenant_id cfg) fn bytes tr) /\ forall sid, streaming cfg = Some sid -> exists j tk, ODetach j h tk ∈ tr /\ feeds tk sid bytes
  | OCall i h iid _ _ _ => exists cfg bytes, ORun i h cfg bytes (Ok iid) ∈ tr
  | OReceive i h sid _ => OOpen i h sid ∈ tr
  | OReply i h (Ok reply) => reply_ok auth_config require_tenant model_map i h reply tr
  | OReply _ _ (Err _) | ORefuse _ _ => True
  end.

Definition program_ok (t : Thread) (w : res) (p : handler Reply) (tr : list obs) : Prop :=
  ok auth_config require_tenant model_map (number t) (headers t) (detached t)
    (if detached t then ended else replied auth_config require_tenant model_map (number t) (headers t)) w p tr.

Definition thread_ok (tr : list obs) (w : res) (t : Thread) : Prop :=
  held w = guards t /\ (guards t <= 1)%nat /\ admissible w t /\
  match rest t with Over => w = nothing | Running p => program_ok t w p tr end.

Definition job_ok (tr : list obs) (id : Uuid) (r : JobRecord) : Prop :=
  job_id r = id /\ exists j h r0, ODispatch j h id r0 ∈ tr /\
    ((r = r0 /\ Resolver id ∉ spent tr) \/ exists i o, OResolve i h id o ∈ tr /\ r = resolved o r0).

Record inv (past : list Uuid) (sys : System) (ws : list res) : Prop := {
  i_threads : Forall2 (thread_ok (trace sys)) ws (threads sys);
  i_gauge : jobs_active (state sys) = sumZ (fun w => Z.of_nat (held w)) ws;
  i_admitted : (length (filter in_flight (threads sys)) <= admitted)%nat;
  i_bound : jobs_active (state sys) + sumZ waiting ws <= MAX_OUTSTANDING_ASYNC_JOBS - 1 + Z.of_nat admitted;
  i_tokens : tokens_ok past (tokens ws ++ spent (trace sys)) (spent (trace sys));
  i_streams : omap opened (trace sys) = seq 0 (length (streams (state sys)));
  i_functions id r : functions (state sys) !! id = Some r -> exists j h, ODeploy j h id r ∈ trace sys;
  i_jobs id r : jobs (state sys) !! id = Some r -> job_ok (trace sys) id r;
  i_permitted o : o ∈ trace sys -> permitted (trace sys) o;
}.
Lemma spent_app tr os : spent (tr ++ os) = spent tr ++ spent os.
Proof. apply omap_app. Qed.

Lemma permitted_mono tr tr' o : tr ⊆ tr' -> permitted tr o -> permitted tr' o.
Proof.
  intros Hs. destruct o as [| | | | | | | | | | |i h [reply|]|]; cbn -[justified reply_ok]; try done;
    try naive_solver eauto using job_ran_mono.
  - by apply justified_mono.
  - intros [[fn Ho] Hsid]. split; [exists fn; by eapply owned_mono|]. intros sid Hc. destruct (Hsid sid Hc) as (j & tk & ? & ?); eauto.
  - intros Hr. eapply (replied_stable _ _ _ i h (Ok reply) nothing tr); [done|by split; [|intros ? [= <-]]|done].
Qed.

Lemma thread_ok_mono tr tr' w t : tr ⊆ tr' -> thread_ok tr w t -> thread_ok tr' w t.
Proof.
  intros Hs (H1' & H2' & H3' & H4'). split_and!; try done. destruct (rest t) as [p|]; [|done].
  eapply ok_mono; [|done|exact H4']. destruct (detached t); [apply ended_stable|apply replied_stable].
Qed.

Lemma job_ok_later tr os id r : Resolver id ∉ spent os -> job_ok tr id r -> job_ok (tr ++ os) id r.
Proof.
  intros Hn (Hid & j & h & r0 & Hd & Hr). split; [done|]. exists j, h, r0. rewrite spent_app. set_solver.
Qed.

Section step.
Variables (past : list Uuid) (sys : System) (ws : list res).
Hypothesis Hinv : inv past sys ws.
Variables (i : nat) (t : Thread) (w : res).
Hypothesis (Ht : threads sys !! i = Some t) (Hw : ws !! i = Some w).
Abbreviation tr := (trace sys).

Lemma spent_once : NoDup (spent tr).
Proof. destruct Hinv as [_ _ _ _ [Hn _ _] _ _ _ _]. by apply NoDup_app in Hn as (_ & _ & ?). Qed.

Lemma dispatch_unique j h r j' h' r' id :
  ODispatch j h id r ∈ tr -> ODispatch j' h' id r' ∈ tr -> j = j' /\ h = h' /\ r = r'.
Proof. intros Hd Hd'. pose proof (omap_unique spends _ _ _ (Fresh id) spent_once Hd Hd' eq_refl eq_refl). by simplify_eq. Qed.

(** A right the thread holds has not been used. *)
Lemma held_unused k : tok w = Some k -> k ∉ spent tr.
Proof.
  intros Hk Hs. destruct Hinv as [_ _ _ _ [Hn _ _] _ _ _ _]. apply NoDup_app in Hn as (_ & Hn & _). apply (Hn k); [|done].
  apply list_elem_of_omap. exists w. split; [by eapply list_elem_of_lookup_2|done].
Qed.

Lemma job_ok_seen id r : job_ok tr id r ->
  job_id r = id /\ job_as_run r tr /\ forall j' h' r', ODispatch j' h' id r' ∈ tr -> job_tenant_id r' = job_tenant_id r.
Proof.
  intros (Hid & j & h & r0 & Hd & Hr). split; [done|]. split.
  - exists j, h, r0. rewrite Hid. split; [done|]. naive_solver.
  - intros j' h' r' Hd'. destruct (dispatch_unique _ _ _ _ _ _ _ Hd Hd') as (_ & _ & <-).
    destruct Hr as [[-> _]|(i' & o & _ & ->)]; [done|]. unfold resolved. by destruct o.
Qed.

(** The job a task was detached for was dispatched by the same thread. *)
Lemma detached_dispatched j h bytes t' fn e a job :
  ODetach j h (JobTask bytes t' fn e a job) ∈ tr ->
  exists r, ODispatch j h job r ∈ tr /\ function_id r = fn /\ job_tenant_id r = t'.
Proof. intros Hd. by destruct (i_permitted _ _ _ Hinv _ Hd) as (_ & _ & ?). Qed.

Section action.
Context {R : Type}.
Variables (op : action R) (e : Env).
Abbreviation seen := (observe (number t) (headers t) op (perform op e (state sys)).1).

Lemma told_ok : told (number t) (headers t) op (tr ++ seen) (perform op e (state sys)).1.
Proof.
  split; [set_solver|]. destruct op; cbn; try done.
  - intros r Hr. destruct (i_functions _ _ _ Hinv _ _ Hr) as (j & h & Hd). exists j, h. by rewrite app_nil_r.
  - intros r Hr. rewrite app_nil_r. by apply job_ok_seen, (i_jobs _ _ _ Hinv).
Qed.

Lemma functions_ok id r : functions (perform op e (state sys)).2 !! id = Some r -> exists j h, ODeploy j h id r ∈ tr ++ seen.
Proof.
  assert (functions (state sys) !! id = Some r -> exists j h, ODeploy j h id r ∈ tr ++ seen) as Hold.
  { intros Hr. destruct (i_functions _ _ _ Hinv _ _ Hr) as (j & h & Hd). exists j, h. apply elem_of_app. by left. }
  destruct op; cbn in *; try done.
  - intros [[-> ->]|[_ Hr]]%lookup_insert_Some; [|eauto]. exists (number t), (headers t). apply elem_of_app. right. by left.
  - intros [_ Hr]%lookup_delete_Some. eauto.
Qed.

Lemma streams_ok : omap opened (tr ++ seen) = seq 0 (length (streams (perform op e (state sys)).2)).
Proof.
  rewrite omap_app, (i_streams _ _ _ Hinv). destruct op; cbn; rewrite ?app_nil_r; try done.
  - by rewrite length_app, seq_app.
  - by rewrite length_insert.
Qed.

Lemma jobs_ok id r :
  demand auth_config require_tenant model_map (number t) (headers t) (detached t) op w tr ->
  jobs (perform op e (state sys)).2 !! id = Some r -> job_ok (tr ++ seen) id r.
Proof.
  intros Hd. assert (jobs (state sys) !! id = Some r -> Resolver id ∉ spent seen -> job_ok (tr ++ seen) id r) as Hold.
  { intros Hr Hn. apply job_ok_later; [done|]. by apply (i_jobs _ _ _ Hinv). }
  destruct op as [| | | | | | |id' r'|id' o|id'| | | | | | | | | | | |]; cbn in *; try (intros Hr; apply Hold; set_solver).
  - destruct Hd as (Hk & _ & Hid & _). intros [[-> ->]|[Hne Hr]]%lookup_insert_Some; [|apply Hold; set_solver].
    split; [done|]. exists (number t), (headers t), r. split; [set_solver|]. left. split; [done|]. rewrite spent_app.
    intros [Hs|Hs]%elem_of_app; [|set_solver]. apply (held_unused _ Hk).
    apply (tk_dispatched _ _ _ (i_tokens _ _ _ Hinv)). apply elem_of_app. by right.
  - destruct Hd as (Hk & j & bytes & t' & fn & e' & a & x & Hdet & _). destruct (detached_dispatched _ _ _ _ _ _ _ _ Hdet) as (r1 & Hd & _).
    rewrite lookup_alter. case_decide as He; [subst id'|intros Hr; apply Hold; [done|set_solver]].
    intros (r' & Hr & ->)%fmap_Some. destruct (i_jobs _ _ _ Hinv _ _ Hr) as (Hid & j0 & h & r0 & Hd0 & Hj).
    destruct (dispatch_unique _ _ _ _ _ _ _ Hd Hd0) as (<- & <- & <-). destruct Hj as [[-> _]|(i' & o' & Ho & _)].
    + split; [unfold resolved; by destruct o|]. exists j, (headers t), r1. split; [set_solver|]. right. exists (number t), o.
      split; [set_solver|done].
    + destruct (held_unused _ Hk). apply list_elem_of_omap. eauto.
  - intros [_ Hr]%lookup_delete_Some. apply Hold; set_solver.
Qed.

Lemma demand_moves :
  demand auth_config require_tenant model_map (number t) (headers t) (detached t) op w tr ->
  token_move (random e) (tok w) (tok (yields op w (perform op e (state sys)).1)) (tokens (detaches op)) (spent seen).
Proof.
  destruct op as [| | | | | | | | | | | | | | |[]| | | | | |]; cbn; intros Hd; try exact (keeps _ _).
  - by apply draws.
  - destruct Hd as (-> & _). exact (uses _ (Some _)).
  - destruct Hd as (-> & _). by apply dispatches.
  - destruct Hd as (-> & _). exact (uses _ (Some _)).
  - destruct Hd as (_ & _ & ->). exact (hands_on _ (Some _)).
Qed.

Lemma observed_permitted o :
  demand auth_config require_tenant model_map (number t) (headers t) (detached t) op w tr -> o ∈ seen -> permitted (tr ++ seen) o.
Proof.
  intros Hd Ho. apply (permitted_mono tr); [set_solver|].
  destruct op; cbn -[justified] in *; try by apply not_elem_of_nil in Ho.
  all: apply list_elem_of_singleton in Ho as ->; cbn -[justified]; destruct_and?; done.
Qed.

Lemma holding_yields r : held (yields op w r) = holding op (held w).
Proof. by destruct op as [| | | | | | | | | | | | | | |[]| | | | | |]. Qed.

(** The gauge counts the guards, and the check bounds it. *)
Lemma gauge_step :
  demand auth_config require_tenant model_map (number t) (headers t) (detached t) op w tr ->
  let ws' := <[i := yields op w (perform op e (state sys)).1]> ws ++ detaches op in
  jobs_active (perform op e (state sys)).2 = sumZ (fun w => Z.of_nat (held w)) ws' /\
  (holding op (guards t) <= 1)%nat.
Proof.
  intros Hd. cbn zeta. rewrite sumZ_app, (sumZ_insert _ _ _ _ _ Hw), holding_yields, <-(i_gauge _ _ _ Hinv).
  destruct (Forall2_lookup_lr _ _ _ _ _ _ (i_threads _ _ _ Hinv) Hw Ht) as (Hh & Hle & _).
  rewrite <-Hh in *. destruct op as [| | | | | | | | | | | | | | |[]| | | | | |]; cbn -[justified] in *; destruct_and?; lia.
Qed.

Lemma bound_step :
  demand auth_config require_tenant model_map (number t) (headers t) (detached t) op w tr ->
  (detached t = false -> in_flight t = true) ->
  jobs_active (perform op e (state sys)).2 +
    sumZ waiting (<[i := yields op w (perform op e (state sys)).1]> ws ++ detaches op) <=
  MAX_OUTSTANDING_ASYNC_JOBS - 1 + Z.of_nat admitted.
Proof.
  intros Hd Hfly. pose proof (i_bound _ _ _ Hinv) as Hb.
  rewrite sumZ_app, (sumZ_insert _ _ _ _ _ Hw).
  assert (sumZ waiting (detaches op) = 0) as -> by (destruct op as [| | | | | | | | | | | | | | |[]| | | | | |]; done).
  assert (0 <= waiting w) by (unfold waiting; by destruct (passed w)).
  destruct op as [| | | | | | | | | | | | | | |[]| | | | | |]; unfold waiting in *; cbn in *; try lia.
  - destruct (_ <? _) eqn:Hn; [|lia]. bool_props. pose proof (i_admitted _ _ _ Hinv).
    enough (sumZ waiting ws - waiting w + waiting (mkRes (held w) true (tok w)) <= sumZ flying (threads sys)) as Hf
      by (rewrite <-in_flight_count in Hf; unfold waiting at 2 3 in Hf; cbn [passed] in Hf; unfold waiting in *; lia).
    rewrite <-(list_insert_id _ _ _ Ht), <-(sumZ_insert waiting ws i w (mkRes (held w) true (tok w)) Hw).
    apply waiting_flying, Forall2_insert; [|by intros _; apply Hfly].
    eapply Forall2_impl; [apply (i_threads _ _ _ Hinv)|]. by intros ? ? (_ & _ & ? & _).
  - destruct Hd as [-> _]. lia.
Qed.

Lemma children_ok n :
  demand auth_config require_tenant model_map (number t) (headers t) (detached t) op w tr ->
  Forall2 (thread_ok (tr ++ seen)) (detaches op) (spawns n (headers t) op).
Proof.
  destruct op as [| | | | | | | | | | | | | | |tk| | | | | |]; cbn [detaches spawns]; intros Hd; try by constructor.
  constructor; [|constructor]. split_and!; [done|cbn; case_match; lia|done|]. cbn [rest child].
  apply (task_body_ok _ _ _ _ _ (number t)); [|set_solver]. eapply justified_mono, (proj1 Hd). set_solver.
Qed.

Lemma children_detached n : sumZ flying (spawns n (headers t) op) = 0.
Proof. by destruct op. Qed.

Lemma act_inv k :
  rest t = Running (Act op k) -> random e ∉ past ->
  exists ws', inv (random e :: past)
    (mkSystem (perform op e (state sys)).2
      (<[i := mkThread (number t) (headers t) (detached t) (holding op (guards t)) (Running (k (perform op e (state sys)).1))]> (threads sys) ++
       spawns (length (threads sys)) (headers t) op)
      (tr ++ seen)) ws'.
Proof.
  intros Hrest Hr. assert (tr ⊆ tr ++ seen) as Hs by set_solver.
  destruct (Forall2_lookup_lr _ _ _ _ _ _ (i_threads _ _ _ Hinv) Hw Ht) as (Hh & Hle & Hadm & Hp).
  rewrite Hrest in Hp. destruct Hp as [Hd Hk]. specialize (Hk _ _ Hs told_ok).
  assert (detached t = false -> in_flight t = true) as Hfly by (unfold in_flight; rewrite Hrest; by intros ->).
  destruct (gauge_step Hd) as [Hg Hle'].
  exists (<[i := yields op w (perform op e (state sys)).1]> ws ++ detaches op). split; cbn [state threads trace].
  - apply Forall2_app; [|by apply children_ok]. apply Forall2_insert.
    + eapply Forall2_impl; [apply (i_threads _ _ _ Hinv)|]. intros. by eapply thread_ok_mono.
    + split_and!; [rewrite holding_yields; cbn; by rewrite Hh|done| |done]. intros Hpass. unfold in_flight. cbn.
      destruct op as [| | | | | | | | | | | | | | |[]| | | | | |]; try done. cbn in Hd. by rewrite Hd.
  - done.
  - apply Nat2Z.inj_le. rewrite in_flight_count, sumZ_app, children_detached, (sumZ_insert _ _ _ _ _ Ht).
    pose proof (i_admitted _ _ _ Hinv) as Ha. apply Nat2Z.inj_le in Ha. rewrite in_flight_count in Ha.
    assert (flying (mkThread (number t) (headers t) (detached t) (holding op (guards t)) (Running (k (perform op e (state sys)).1))) = flying t) as ->
      by (unfold flying, in_flight; by rewrite Hrest). lia.
  - by apply bound_step.
  - rewrite spent_app. destruct (tokens_insert ws i w (yields op w (perform op e (state sys)).1) Hw) as [Hp1 Hp2].
    assert (tokens_ok past ((option_list (tok w) ++ tokens (delete i ws)) ++ spent tr) (spent tr)) as Htk
      by (eapply tokens_ok_perm, (i_tokens _ _ _ Hinv); [by rewrite Hp1|done..]).
    eapply tokens_ok_perm, (token_move_ok _ _ _ _ _ _ _ _ Hr (demand_moves Hd) Htk); [|done..].
    unfold tokens at 1. rewrite omap_app. fold (tokens (detaches op)). by rewrite <-Hp2.
  - apply streams_ok.
  - intros id r. apply functions_ok.
  - intros id r. by apply jobs_ok.
  - intros o [Ho|Ho]%elem_of_app; [|by apply observed_permitted]. eapply permitted_mono; [done|]. by apply (i_permitted _ _ _ Hinv).
Qed.
End action.

(** A thread that ends gives up what it holds. *)
Lemma finish_inv p os :
  rest t = Running p -> spent os = [] -> omap opened os = [] -> (forall o, o ∈ os -> permitted tr o) ->
  inv past (finish i t os sys) (<[i := nothing]> ws).
Proof.
  intros Hrest Hos Hst Hperm. assert (tr ⊆ tr ++ os) as Hs by set_solver.
  destruct (Forall2_lookup_lr _ _ _ _ _ _ (i_threads _ _ _ Hinv) Hw Ht) as (Hh & Hle & Hadm & _).
  assert (0 <= waiting w) by (unfold waiting; by destruct (passed w)).
  split; cbn [finish state threads trace add_active jobs_active functions jobs].
  - apply Forall2_insert; [|by split_and!; try done; cbn; lia].
    eapply Forall2_impl; [apply (i_threads _ _ _ Hinv)|]. intros. by eapply thread_ok_mono.
  - rewrite (sumZ_insert _ _ _ _ _ Hw), (i_gauge _ _ _ Hinv). cbn. lia.
  - apply Nat2Z.inj_le. rewrite in_flight_count, (sumZ_insert _ _ _ _ _ Ht).
    pose proof (i_admitted _ _ _ Hinv) as Ha. apply Nat2Z.inj_le in Ha. rewrite in_flight_count in Ha.
    assert (0 <= flying t) by (unfold flying; by destruct (in_flight t)).
    unfold flying at 3, in_flight. cbn. rewrite andb_false_r. lia.
  - pose proof (i_bound _ _ _ Hinv). rewrite (sumZ_insert _ _ _ _ _ Hw). unfold waiting at 3. cbn. lia.
  - rewrite spent_app, Hos, app_nil_r. destruct (tokens_insert ws i w nothing Hw) as [Hp1 Hp2].
    eapply tokens_ok_perm; [by rewrite Hp2|done..|]. cbn. eapply (tokens_ok_drop _ _ _ (tok w)), (i_tokens _ _ _ Hinv).
    by rewrite Hp1, (assoc _).
  - by rewrite omap_app, Hst, app_nil_r, (i_streams _ _ _ Hinv).
  - intros id r Hr. destruct (i_functions _ _ _ Hinv _ _ Hr) as (j & h & Hd). exists j, h. by apply Hs.
  - intros id r Hr. apply job_ok_later; [by rewrite Hos; apply not_elem_of_nil|]. by apply (i_jobs _ _ _ Hinv).
  - intros o [Ho|Ho]%elem_of_app; (eapply permitted_mono; [done|]); [by apply (i_permitted _ _ _ Hinv)|eauto].
Qed.
End step.

Lemma inv_more past past' sys ws : past ⊆ past' -> inv past sys ws -> inv past' sys ws.
Proof. intros Hp []. split; try done. by eapply tokens_ok_perm. Qed.

Definition drawn (ev : event) : option Uuid := match ev with Tick _ e => Some (random e) | _ => None end.

(** The identifiers the generator answers along a schedule. *)
Definition randoms (evs : list event) : list Uuid := omap drawn evs.

Lemma replied_permitted sys ws past i t w r o :
  inv past sys ws -> threads sys !! i = Some t -> ws !! i = Some w -> rest t = Running (Ret r) ->
  o ∈ answers t r -> permitted (trace sys) o.
Proof.
  intros Hinv Ht Hw Hrest. unfold answers. destruct (detached t) eqn:Hdet; [by intros ?%not_elem_of_nil|].
  intros ->%list_elem_of_singleton. destruct (Forall2_lookup_lr _ _ _ _ _ _ (i_threads _ _ _ Hinv) Hw Ht) as (_ & _ & _ & Hp).
  rewrite Hrest in Hp. unfold program_ok in Hp. rewrite Hdet in Hp. destruct Hp as [_ Hp]. destruct r as [reply|]; [|done]. by apply Hp.
Qed.

(** The arrival of a request adds to the trace, and to nothing else yet. *)
Lemma noted_inv past sys ws o :
  inv past sys ws -> spends o = None -> opened o = None -> (forall tr, permitted tr o) ->
  inv past (mkSystem (state sys) (threads sys) (trace sys ++ [o])) ws.
Proof.
  intros Hinv Hsp Hop Hperm. assert (trace sys ⊆ trace sys ++ [o]) as Hs by set_solver.
  assert (spent (trace sys ++ [o]) = spent (trace sys)) as Hspent by (rewrite spent_app; csimpl; unfold spent at 2; csimpl; by rewrite Hsp, app_nil_r).
  pose proof Hinv as []. split; cbn [state threads trace]; try done.
  - eapply Forall2_impl; [done|]. intros. by eapply thread_ok_mono.
  - by rewrite Hspent.
  - rewrite omap_app. csimpl. by rewrite Hop, app_nil_r.
  - intros id r' Hr. destruct (i_functions0 _ _ Hr) as (j & h' & Hd). exists j, h'. by apply Hs.
  - intros id r' Hr. apply job_ok_later; [|eauto]. unfold spent. csimpl. rewrite Hsp. apply not_elem_of_nil.
  - intros o' [Ho|Ho]%elem_of_app; [eapply permitted_mono; eauto|]. by apply list_elem_of_singleton in Ho as ->.
Qed.

Lemma served_inv past sys ws h route p :
  inv past sys ws -> serve auth_config require_tenant app_config model_map h route = Ok p ->
  (length (filter in_flight (threads sys)) < admitted)%nat ->
  let n := length (threads sys) in
  inv past (mkSystem (state sys) (threads sys ++ [mkThread n h false 0 (Running p)]) (trace sys ++ [OArrive n h route])) (ws ++ [nothing]).
Proof.
  intros Hinv Hserve Hroom. unfold serve in Hserve. inv_bind Hserve. inv_bind Hserve. simplify_eq. cbn zeta.
  apply (noted_inv _ _ _ (OArrive (length (threads sys)) h route)) in Hinv; [|done..|by eexists _, _].
  assert (tokens (ws ++ [nothing]) = tokens ws) as Htk by (unfold tokens; by rewrite omap_app, app_nil_r).
  destruct Hinv. cbn [state threads trace] in *. split; cbn [state threads trace]; try done.
  - apply Forall2_app; [done|]. constructor; [|constructor]. split_and!; [done|cbn; lia|done|]. eapply handle_ok; try done. set_solver.
  - rewrite sumZ_app, i_gauge0. cbn. lia.
  - rewrite filter_app, length_app.
    pose proof (length_filter in_flight [mkThread (length (threads sys)) h false 0 (Running (handle app_config model_map route (Some a0) (Some a)))]). cbn [length] in *. lia.
  - rewrite sumZ_app. cbn. lia.
  - by rewrite Htk.
Qed.

Lemma gateway_step_inv past sys ws ev :
  inv past sys ws -> (forall id, drawn ev = Some id -> id ∉ past) ->
  exists ws', inv (option_list (drawn ev) ++ past) (step auth_config require_tenant app_config model_map admitted sys ev) ws'.
Proof.
  intros Hinv Hfresh. assert (past ⊆ option_list (drawn ev) ++ past) as Hpast by set_solver.
  assert (exists ws', inv (option_list (drawn ev) ++ past) sys ws') as Hsame by (exists ws; by eapply inv_more).
  destruct ev as [h route|i e|i]; cbn [step].
  - destruct (serve _ _ _ _ _ _) as [p|r] eqn:Hserve.
    + destruct (_ <=? _)%nat eqn:Hfull; [done|]. eexists. eapply served_inv; [by eapply inv_more|done|]. by apply Nat.leb_gt.
    + exists ws. by apply noted_inv; [apply (inv_more past)|..].
  - destruct (threads sys !! i) as [t|] eqn:Ht; [|done]. destruct (rest t) as [p|] eqn:Hrest; [|done].
    destruct (Forall2_lookup_r _ _ _ _ _ (i_threads _ _ _ Hinv) Ht) as (w & Hw & _). destruct p as [r|R op k].
    + eexists. eapply inv_more, finish_inv; try done; [by unfold answers; destruct (detached t)..|].
      intros o. by eapply replied_permitted.
    + destruct (perform op e (state sys)) as [r s] eqn:Hperf. destruct (act_inv past sys ws Hinv i t w Ht Hw op e k Hrest) as [ws' Hi]; [by apply Hfresh|].
      exists ws'. by rewrite Hperf in Hi.
  - destruct (threads sys !! i) as [t|] eqn:Ht; [|done]. destruct (rest t) as [p|] eqn:Hrest; [|done].
    destruct (Forall2_lookup_r _ _ _ _ _ (i_threads _ _ _ Hinv) Ht) as (w & Hw & _).
    eexists. eapply inv_more, finish_inv; try done. by intros o ?%not_elem_of_nil.
Qed.

Abbreviation run := (run auth_config require_tenant app_config model_map admitted).

Theorem gateway_run_inv evs : NoDup (randoms evs) -> exists ws, inv (reverse (randoms evs)) (run evs) ws.
Proof.
  induction evs as [|ev evs IH] using rev_ind; intros Hn.
  - exists []. split; cbn; try done; try (unfold MAX_OUTSTANDING_ASYNC_JOBS; lia); try (intros ? ?; by rewrite lookup_empty).
    + split; [constructor|by intros ? ?%not_elem_of_nil..].
    + by intros o ?%not_elem_of_nil.
  - unfold randoms in *. rewrite omap_app in *. apply NoDup_app in Hn as (Hn & Hd & _). destruct (IH Hn) as [ws Hinv].
    destruct (gateway_step_inv _ _ _ ev Hinv) as [ws' Hi].
    { intros id Hid Hin. apply (Hd id); [by apply elem_of_reverse|]. csimpl. rewrite Hid. by left. }
    exists ws'. unfold run, Gateway.run. rewrite foldl_app. cbn [foldl]. csimpl.
    destruct (drawn ev) as [id|]; [by rewrite reverse_snoc|by rewrite app_nil_r].
Qed.

End invariant.
End RouteInvariant.

(** Results for every schedule of requests, tasks, panics and dropped futures. *)
Module RouteClaims.
Import Auth.Text Auth.TokenScope Envelope Json Routes.Routes OpenAi.Translator OpenAi.OpenAi Gateway.Gateway RouteLogic RouteHandlers RouteInvariant.

Section claims.
Context `{!Libraries, !Primitives, !SnapshotPrimitives}.
Variables (auth_config : Auth.Auth.AuthConfig) (require_tenant : bool) (app_config : AppConfig) (model_map : gmap text Uuid) (admitted : nat).
Abbreviation run := (run auth_config require_tenant app_config model_map admitted).

(** C3: tenants are isolated.  In every interleaving of requests, detached
    tasks, panics and dropped request futures, with distinct random
    identifiers, all that happens is for a tenant that the request's bearer
    token and tenant header were checked to allow: functions are deployed for
    it, and only functions deployed for it are removed, dispatched, run (with
    exactly the bytes deployed, by the native and the OpenAI routes alike) and
    snapshotted.  A task is detached only as the request asks for it, a call
    goes to an instance the same thread spawned, and a job is resolved with the
    outcome of the run of its own task.  What a client is shown is its own: an
    invocation's answer is that of the run of its thread, a job record is one of
    its tenant, a stream is the one its request opened, which no other request
    opens and into which only runs of the bytes of a task that this request
    detached write, and a completion is the text received from that stream.  One effect crosses tenants: a
    request that has dispatched a job may evict records of the bounded job
    table, whoever they belong to. *)
Theorem gateway_isolated evs :
  NoDup (randoms evs) ->
  let tr := trace (run evs) in
  (forall o, o ∈ tr -> permitted auth_config require_tenant model_map tr o) /\
  (forall i h j h' sid, OOpen i h sid ∈ tr -> OOpen j h' sid ∈ tr -> i = j /\ h = h').
Proof.
  intros Hn tr. destruct (gateway_run_inv auth_config require_tenant app_config model_map admitted evs Hn) as [ws Hinv].
  split; [apply (i_permitted _ _ _ _ _ _ _ Hinv)|]. intros i h j h' sid Hi Hj.
  assert (NoDup (omap opened tr)) as Hnd by (unfold tr; rewrite (i_streams _ _ _ _ _ _ _ Hinv); apply NoDup_seq).
  pose proof (omap_unique opened _ _ _ sid Hnd Hi Hj eq_refl eq_refl). by simplify_eq.
Qed.

(** C36: the gauge of outstanding jobs never drifts.  In every interleaving it
    equals the number of guards that requests and tasks hold, each at most
    one and none once it has ended, however it ended; and the admission check
    keeps it below its ceiling plus the number of requests let in at once. *)
Theorem jobs_gauge_exact evs :
  NoDup (randoms evs) ->
  let sys := run evs in
  jobs_active (state sys) = sumZ (fun t => Z.of_nat (guards t)) (threads sys) /\
  0 <= jobs_active (state sys) <= MAX_OUTSTANDING_ASYNC_JOBS - 1 + Z.of_nat admitted /\
  Forall (fun t => (guards t <= 1)%nat /\ (rest t = Over -> guards t = 0%nat)) (threads sys).
Proof.
  intros Hn. cbn zeta. destruct (gateway_run_inv auth_config require_tenant app_config model_map admitted evs Hn) as [ws Hinv].
  destruct Hinv as [Hth Hg _ Hb _ _ _ _ _].
  assert (sumZ (fun w => Z.of_nat (held w)) ws = sumZ (fun t => Z.of_nat (guards t)) (threads (run evs))) as Heq.
  { clear -Hth. unfold sumZ. induction Hth as [|w t ws ts (Hh & _) _ IH]; [done|]. cbn. by rewrite IH, Hh. }
  assert (0 <= sumZ waiting ws) by (apply sumZ_nonneg, Forall_true; intros w; unfold waiting; by destruct (passed w)).
  assert (0 <= sumZ (fun w => Z.of_nat (held w)) ws) by (apply sumZ_nonneg, Forall_true; intros; lia).
  split_and!; [congruence|lia|lia|]. apply Forall_lookup. intros j t Ht.
  destruct (Forall2_lookup_r _ _ _ _ _ Hth Ht) as (w & _ & Hh & Hle & _ & Hr). split; [done|]. intros Ho. rewrite Ho in Hr. by rewrite <-Hh, Hr.
Qed.

Definition dispatches (job : Uuid) (o : obs) : bool := match o with ODispatch _ _ id _ => id =? job | _ => false end.
Definition resolves (job : Uuid) (o : obs) : bool := match o with OResolve _ _ id _ => id =? job | _ => false end.

(** The record after the run of its job. *)
Definition concluded (r0 : JobRecord) (r : result ExecError Value) : JobRecord :=
  match r with
  | Ok v =>
      mkJob (job_id r0) (function_id r0) (job_tenant_id r0) Completed
        (Some (Object [(chars "function_id", String (uuid_string (function_id r0)));
                       (chars "result", match v with Array [] => String (chars "ok") | _ => v end)])) (created_unix_ms r0)
  | Err x =>
      mkJob (job_id r0) (function_id r0) (job_tenant_id r0) Failed
        (Some (Object [(chars "kind", String (kind (from_exec_error x)));
                       (chars "message", String (message (from_exec_error x)))])) (created_unix_ms r0)
  end.

Lemma resolved_concluded r0 r : resolved (answer (function_id r0) r) r0 = concluded r0 r.
Proof. by destruct r. Qed.

(** C37: a poll shows the job's one run.  In every interleaving the record that
    [GET /jobs/{id}] answers is the record of the only dispatch of that job,
    either still pending and without a result, or concluded by the one
    resolution of the job: the thread that resolved it ran, for the job's
    tenant, the bytes deployed as the job's function, on the export and the
    arguments that the dispatching request asked for, and the record is
    completed with the value the guest returned, or failed with the kind and
    message of the error the executor answered. *)
Theorem polled_jobs_are_their_runs evs i h rec :
  NoDup (randoms evs) ->
  let tr := trace (run evs) in
  OReply i h (Ok (JobResponse rec)) ∈ tr ->
  exists j h0 r0,
    ODispatch j h0 (job_id rec) r0 ∈ tr /\ job_status r0 = Pending /\ job_result r0 = None /\
    length (filter (dispatches (job_id rec)) tr) = 1%nat /\ (length (filter (resolves (job_id rec)) tr) <= 1)%nat /\
    (rec = r0 \/
     exists k o payload e a bytes r,
       OResolve k h0 (job_id rec) o ∈ tr /\
       OArrive j h0 (PostInvokeAsync (function_id r0) payload) ∈ tr /\ asked payload e a /\
       owned auth_config require_tenant h0 (job_tenant_id r0) (function_id r0) bytes tr /\
       ran k h0 (job_tenant_id r0) bytes e a r tr /\ rec = concluded r0 r).
Proof.
  intros Hn tr Hr. destruct (gateway_run_inv auth_config require_tenant app_config model_map admitted evs Hn) as [ws Hinv].
  pose proof (i_permitted _ _ _ _ _ _ _ Hinv) as Hperm. pose proof (spent_once _ _ _ _ _ _ _ Hinv) as Honce.
  destruct (Hperm _ Hr) as (_ & _ & j & h0 & r0 & Hd & Hrec). exists j, h0, r0.
  destruct (Hperm _ Hd) as (_ & _ & Hst & Hres & _). split_and!; [done..| | |].
  - apply (filter_once spends _ _ (Fresh (job_id rec)) _ Honce Hd); [cbn; by rewrite Z.eqb_refl|].
    intros [] Ho%Is_true_true; cbn in *; bool_props; by subst.
  - apply (filter_atmost spends _ _ (Resolver (job_id rec)) Honce). intros [] Ho%Is_true_true; cbn in *; bool_props; by subst.
  - destruct Hrec as [->|(k & o & Ho & Hrec)]; [by left|right].
    destruct (Hperm _ Ho) as (j' & bytes & t & fn & e & a & r & Hdet & Hran & ->).
    destruct (Hperm _ Hdet) as (Hown & (payload & Harr & Hask) & r1 & Hd1 & <- & <-).
    destruct (dispatch_unique _ _ _ _ _ _ _ Hinv _ _ _ _ _ _ _ Hd1 Hd) as (-> & _ & ->).
    exists k, (answer (function_id r0) r), payload, e, a, bytes, r. split_and!; try done. by rewrite <-resolved_concluded.
Qed.
End claims.
End RouteClaims.

(** A program that no other thread interrupts. *)
Module RouteAlone.
Import Auth.Text Auth.TokenScope Envelope Json Routes.Routes OpenAi.Translator OpenAi.OpenAi Gateway.Gateway.

Definition entry (id : Uuid) (r : JobRecord) : Z * Uuid * bool := (created_unix_ms r, id, is_terminal (job_status r)).
Definition entries (m : gmap Uuid JobRecord) : list (Z * Uuid * bool) := (fun '(id, r) => entry id r) <$> map_to_list m.

(** A scan then sees every record once, in some order. *)
Definition seeing (e : Env) (l : list (Z * Uuid * bool)) : Env :=
  mkEnv (clock e) (random e) (panicked e) l (spawned e) (called e) (received e) (joined e).

Section alone.
Variables (e : Env) (scan : gmap Uuid JobRecord -> list (Z * Uuid * bool)).

Fixpoint alone {A} (p : prog A) (s : State) : A * State :=
  match p with
  | Ret a => (a, s)
  | Act op k => let '(r, s') := perform op (seeing e (scan (jobs s))) s in alone (k r) s'
  end.

Lemma alone_bind {A B} (m : prog A) (f : A -> prog B) s :
  alone (pbind m f) s = let '(a, s') := alone m s in alone (f a) s'.
Proof. revert s. induction m as [a|R op k IH]; intros s; [done|]. cbn. destruct (perform _ _ _). apply IH. Qed.

Lemma alone_hbind {A B} (m : handler A) (f : A -> handler B) s :
  alone (hbind m f) s = match alone m s with (Ok a, s') => alone (f a) s' | (Err x, s') => (Err x, s') end.
Proof. unfold hbind. rewrite alone_bind. by destruct (alone m s) as [[a|x] s']. Qed.

#[global] Instance evicts_before_total : Total evicts_before.
Proof. intros [[t ?] []] [[t' ?] []]; cbn; try (by left); try (by right); lia. Qed.
#[global] Instance evicts_before_trans : Transitive evicts_before.
Proof. intros [[t ?] []] [[t' ?] []] [[t'' ?] []]; cbn; try done; lia. Qed.

Lemma remove_all_alone l s :
  let s' := (alone (remove_all l) s).2 in
  functions s' = functions s /\ jobs_active s' = jobs_active s /\ streams s' = streams s /\
  jobs s' = filter (fun '(id, _) => id ∉ (snd ∘ fst) <$> l) (jobs s).
Proof.
  revert s. induction l as [|[[t id] d] l IH]; intros s; cbn.
  - split_and!; try done. symmetry. apply map_filter_id. set_solver.
  - destruct (IH (on_jobs (delete id) s)) as (-> & -> & -> & ->). split_and!; try done. cbn. apply map_eq. intros id'.
    apply option_eq. intros r. rewrite !map_lookup_filter_Some, lookup_delete_Some. cbn. set_solver.
Qed.

Hypothesis scanned : forall m, scan m ≡ₚ entries m.

Definition id_of : Z * Uuid * bool -> Uuid := snd ∘ fst.
Definition ordered (m : gmap Uuid JobRecord) : list (Z * Uuid * bool) := merge_sort evicts_before (scan m).

Lemma ordered_entries m : ordered m ≡ₚ entries m.
Proof. unfold ordered. by rewrite merge_sort_Permutation. Qed.

Lemma ordered_ids m : id_of <$> ordered m ≡ₚ (map_to_list m).*1.
Proof. rewrite ordered_entries. unfold entries. rewrite <-list_fmap_compose. by erewrite (list_fmap_ext _ fst) by (by intros ? [] _). Qed.

Lemma ordered_entry m id r : m !! id = Some r -> entry id r ∈ ordered m.
Proof. intros Hr%elem_of_map_to_list. rewrite ordered_entries. by apply (list_elem_of_fmap_2 (fun '(id, r) => entry id r) _ (id, r)). Qed.

Lemma evicted_size m n :
  (n <= size m)%nat -> size (filter (fun '(id, _) => id ∉ id_of <$> take n (ordered m)) m) = (size m - n)%nat.
Proof.
  intros Hn. pose proof (ordered_ids m) as Hp. pose proof (NoDup_fst_map_to_list m) as Hnd. rewrite <-Hp in Hnd.
  assert (length (ordered m) = size m) as Hlen.
  { rewrite <-(length_fmap id_of), Hp, length_fmap. apply length_map_to_list. }
  assert (dom (filter (fun '(id, _) => id ∉ id_of <$> take n (ordered m)) m) =
    dom m ∖ list_to_set (id_of <$> take n (ordered m))) as Hdom.
  { apply set_eq. intros id. rewrite elem_of_difference, elem_of_list_to_set, !elem_of_dom. split.
    - intros [r [Hr Hni]%map_lookup_filter_Some]. split; [by eexists|done].
    - intros [[r Hr] Hni]. exists r. by apply map_lookup_filter_Some. }
  rewrite <-size_dom, Hdom, size_difference.
  - rewrite size_dom, size_list_to_set, length_fmap, length_take by (rewrite <-(take_drop n (ordered m)), fmap_app in Hnd; by apply NoDup_app in Hnd as [? _]). lia.
  - intros id. rewrite elem_of_list_to_set. intros Hid. assert (id ∈ id_of <$> ordered m) as Hj
      by (rewrite <-(take_drop n (ordered m)), fmap_app; apply elem_of_app; by left).
    rewrite Hp in Hj. apply elem_of_dom. apply list_elem_of_fmap in Hj as ([id' r] & -> & Hr).
    exists r. by apply elem_of_map_to_list.
Qed.

Lemma entry_ordered m x : x ∈ ordered m -> exists r, m !! id_of x = Some r /\ x = entry (id_of x) r.
Proof.
  rewrite ordered_entries. intros ([id r] & -> & Hr)%list_elem_of_fmap. exists r. by apply elem_of_map_to_list in Hr.
Qed.

(** A removed record precedes the kept ones in the order of eviction. *)
Lemma evicted_before m n id r id' r' :
  m !! id = Some r -> filter (fun '(id, _) => id ∉ id_of <$> take n (ordered m)) m !! id = None ->
  m !! id' = Some r' -> id' ∉ id_of <$> take n (ordered m) -> evicts_before (entry id r) (entry id' r').
Proof.
  intros Hr Hgone Hr' Hkept.
  pose proof (StronglySorted_merge_sort evicts_before (scan m)) as Hs. fold (ordered m) in Hs.
  rewrite <-(take_drop n (ordered m)) in Hs. eapply StronglySorted_app_1_elem_of; [exact Hs|..].
  - assert (id ∈ id_of <$> take n (ordered m)) as Hid.
    { destruct (decide (id ∈ id_of <$> take n (ordered m))) as [|Hni]; [done|].
      apply map_lookup_filter_None in Hgone as [Hg|Hg]; [congruence|]. by destruct (Hg r Hr Hni). }
    apply list_elem_of_fmap in Hid as (x & -> & Hx). destruct (entry_ordered m x) as (r0 & Hr0 & He).
    + rewrite <-(take_drop n (ordered m)). apply elem_of_app. by left.
    + rewrite Hr0 in Hr. simplify_eq. by rewrite <-He.
  - pose proof (ordered_entry m id' r' Hr') as Hin. rewrite <-(take_drop n (ordered m)) in Hin.
    apply elem_of_app in Hin as [Hin|]; [|done]. destruct Hkept. by apply (list_elem_of_fmap_2 id_of _ (entry id' r')).
Qed.

(** C38: job records stay bounded, and the right ones are forgotten.  The
    eviction pass that follows each dispatch leaves at most [MAX_JOB_RECORDS]
    records and removes no more than that takes, changes no record it keeps
    and nothing else, and forgets a pending job only when every record left is
    pending; among records that are alike in that it forgets the oldest. *)
Theorem eviction_keeps_newest s :
  let s' := (alone evict_jobs_if_over_cap s).2 in
  functions s' = functions s /\ jobs_active s' = jobs_active s /\ streams s' = streams s /\
  jobs s' ⊆ jobs s /\ size (jobs s') = Nat.min (size (jobs s)) MAX_JOB_RECORDS /\
  forall id r id' r', jobs s !! id = Some r -> jobs s' !! id = None -> jobs s' !! id' = Some r' ->
    (job_status r = Pending -> job_status r' = Pending) /\
    (is_terminal (job_status r) = is_terminal (job_status r') -> created_unix_ms r <= created_unix_ms r').
Proof.
  cbn [evict_jobs_if_over_cap act pbind alone perform]. destruct (_ <=? _)%nat eqn:Hlen.
  { apply Nat.leb_le in Hlen. cbn. split_and!; try done; [lia|]. congruence. }
  apply Nat.leb_gt in Hlen. cbn [alone perform seen seeing]. fold (ordered (jobs s)).
  set (n := (size (jobs s) - MAX_JOB_RECORDS)%nat).
  destruct (remove_all_alone (take n (ordered (jobs s))) s) as (-> & -> & -> & ->). fold id_of.
  split_and!; try done; [apply map_filter_subseteq|rewrite evicted_size by lia; lia|].
  intros id r id' r' Hr Hgone [Hr' Hkept]%map_lookup_filter_Some.
  pose proof (evicted_before _ _ _ _ _ _ Hr Hgone Hr' Hkept) as Hb.
  unfold entry in Hb. cbn in Hb. destruct (job_status r), (job_status r'); cbn in *; split; try done; lia.
Qed.
End alone.
End RouteAlone.

(** Saving and restoring over HTTP. *)
Module SnapshotRoutes.
Import Auth.Text Auth.TokenScope Envelope Json Routes.Routes OpenAi.Translator OpenAi.OpenAi Gateway.Gateway RouteAlone SnapshotFacts.
Import Artifacts.Artifacts (zlen).

Section snapshots.
Context `{!Libraries, !LibrariesOk, !Primitives, !PrimitivesOk, !SnapshotPrimitives, !SnapshotPrimitivesOk}.
Variables (e : Env) (scan : gmap Uuid JobRecord -> list (Z * Uuid * bool)).
Hypothesis no_panic : panicked e = None.
Variables (cfg : AppConfig) (key : list u8).
Hypothesis configured : snapshot_hmac_key cfg = Some key.

(** What [/snapshot/save] captures of a function. *)
Definition saved_state (fn : Uuid) (f : FunctionRecord) : InstanceState :=
  mkInstanceState (fn_tenant_id f) (instance_of fn) (wasm_bytes f) [] [].

(** The blob fits the reader's limits, and its compressed bytes do not end in
    what reads as an Ed25519 trailer. *)
Definition restorable (clock : option Z) (fn : Uuid) (f : FunctionRecord) : Prop :=
  forall snap bytes, captured (save_writer key) clock (saved_state fn f) = Ok snap ->
    Writer.capture (save_writer key) clock (saved_state fn f) = Ok bytes ->
    zlen bytes <= Writer.MAX_INPUT_BYTES /\ zlen (Writer.encode_to_vec snap) <= Writer.MAX_DECOMPRESSED_BYTES /\
    Reader.trailer_at bytes Format.Ed25519 = false.

Lemma saved_inputs_wf clock fn f :
  fits u64_max (fn_tenant_id f) -> (forall ms, clock = Some ms -> 0 <= ms) ->
  inputs_wf (save_writer key) clock (saved_state fn f).
Proof.
  intros Ht Hc. split; cbn; try done. unfold instance_of. change u64_max with (Z.ones 64). rewrite Z.land_ones by done.
  pose proof (Z.mod_pos_bound fn (2 ^ 64)). unfold fits. lia.
Qed.

Lemma saved_total clock fn f snap :
  captured (save_writer key) clock (saved_state fn f) = Ok snap ->
  md_total_uncompressed_bytes (sn_metadata snap) = zlen (wasm_bytes f).
Proof.
  unfold captured, captured_as, Writer.build_metadata. intros Hs. inv_bind Hs. do 4 inv_bind E. destruct a as [m crc].
  simplify_eq. cbn -[zlen Z.add]. unfold zlen. cbn. lia.
Qed.

(** C39: a saved snapshot restores, for its own tenant only.  When
    [/snapshot/save] of a function answers a blob, [/snapshot/restore] of that
    blob, by any caller whose token covers the function's tenant, reports that
    tenant, the function's instance, the size of its bytes and version 3; a
    caller for another tenant is refused, whatever its token covers. *)
Theorem snapshot_routes_roundtrip sc sc' t t' clock clock' fn f s s' b64 signed :
  allows sc t = true -> allows sc' t' = true -> functions s !! fn = Some f ->
  fits u64_max t -> (forall ms, clock = Some ms -> 0 <= ms) -> restorable clock fn f ->
  (alone e scan (snapshot_save cfg clock (Some t) (Some sc) (Ok fn)) s).1 = Ok (SnapshotSaveResponse fn b64 signed) ->
  (alone e scan (snapshot_restore cfg clock' (Some t') (Some sc') (Ok b64)) s').1 =
    if t =? t' then Ok (SnapshotRestoreResponse t (instance_string (instance_of fn)) (zlen (wasm_bytes f)) 3)
    else Err (forbidden (chars "tenant_scope_denied") (chars "snapshot was captured for a different tenant")).
Proof.
  intros Hsc Hsc' Hf Ht Hclk Hres Hsave. unfold snapshot_save, snapshot_restore in *. cbn [from_option id require_authorize] in *.
  unfold authorize_tenant, id in *. rewrite configured, ?Hsc, ?Hsc' in *. cbn [try_] in *.
  rewrite alone_hbind in Hsave. unfold owned_bytes in Hsave. cbn [act pbind alone perform] in Hsave. rewrite Hf in Hsave.
  destruct (fn_tenant_id f =? t) eqn:Ho; [|done]. apply Z.eqb_eq in Ho.
  cbn -[Writer.capture] in Hsave. rewrite no_panic in Hsave.
  rewrite <-Ho in Hsave. fold (saved_state fn f) in Hsave.
  destruct (Writer.capture _ _ _) as [bytes|] eqn:Hcap; [|done]. cbn in Hsave. injection Hsave as <- _.
  rewrite base64_roundtrip. cbn -[Reader.restore Z.eqb]. rewrite no_panic.
  assert (exists snap, captured (save_writer key) clock (saved_state fn f) = Ok snap) as [snap Hsnap].
  { unfold captured, captured_as. cbn in Hcap. unfold Writer.capture_legacy in Hcap. inv_bind Hcap. rewrite E. destruct a. eexists. done. }
  destruct (Hres _ _ Hsnap Hcap) as (Hin & Hdec & Htrail).
  destruct (captured_restores (save_writer key) (restore_reader key) clock clock' (saved_state fn f) snap bytes)
    as (Hrest & Hst & Hver); try done.
  { by apply saved_inputs_wf; [rewrite Ho|]. }
  { split; [left|done]. }
  { unfold Writer.MAX_TOTAL_PAYLOAD_BYTES, Writer.MAX_WASM_MEMORY_BYTES, Writer.MAX_GPU_MEMORY_BYTES, Writer.MAX_REGISTERS_BYTES, Writer.MAX_DECOMPRESSED_BYTES in *. lia. }
  rewrite Hrest, (saved_total _ _ _ _ Hsnap), Hver. unfold state_of, saved_state in Hst.
  injection Hst as -> -> _ _ _. rewrite Ho. by destruct (t =? t').
Qed.
End snapshots.
End SnapshotRoutes.

(** A small gateway, to evaluate. *)
Module SmallGateway.
Import Auth.Text Auth.TokenScope Envelope Json Routes.Routes OpenAi.Translator OpenAi.OpenAi Gateway.Gateway RouteLogic RouteInvariant RouteAlone SnapshotRoutes.
Import SnapshotFacts SnapshotToy.

#[export] Instance small_libraries : Libraries := {
  uuid_string := decimal;
  uuid_parse := parse_u64;
  base64_encode b := u8_to_Z <$> b;
  base64_decode s := Some (u8_of_Z <$> s);
  wasm_valid b := bool_decide (take 4 b = bytes_of "wasm");
  value_string v := [];
  as_f64 n := match n with Float bits => Some bits | _ => None end;
}.

#[export] Instance small_libraries_ok : LibrariesOk.
Proof.
  split. intros b. cbn. f_equal. rewrite <-list_fmap_compose. rewrite <-(list_fmap_id b) at 2.
  apply list_fmap_ext. intros i x _. apply u8_of_to_Z.
Qed.

Definition tokens : Auth.Auth.AuthConfig := Auth.Auth.from_env (Some (chars "alpha:tenant=7")) None.
Definition alpha : Auth.Auth.Request :=
  Auth.Auth.mkReq [Auth.Auth.mkHeader 12 (Some (chars "Bearer alpha"))] [Auth.Auth.mkHeader 1 (Some (chars "7"))].
Definition config : AppConfig := mkAppConfig (Some (bytes_of "key")) true.
(** One model, backed by the function deployed below. *)
Definition models : gmap text Uuid := parse_model_map_env (chars "tiny:101").
Definition env (n : Z) : Env := mkEnv (Some 5) n None [] (Ok 1) (Ok (Array [])) [bytes_of "hi"] (chars "task panicked").

(** [k] ticks of thread [i], drawing identifiers from [n] on. *)
Definition ticks (i : nat) (n : Z) (k : nat) : list event := (fun j => Tick i (env (n + Z.of_nat j))) <$> seq 0 k.

Definition deploy : Route := PostFunctions (Ok (mkCreate (chars "f") (chars "wasm0000"))).
Definition dispatch : list event :=
  [Arrive alpha deploy] ++ ticks 0 100 5 ++ [Arrive alpha (PostInvokeAsync 101 (Ok (mkInvoke None [])))] ++ ticks 1 200 9.

(** The job runs to its end, or its task panics; then the client polls. *)
Definition completes : list event := dispatch ++ ticks 2 300 5 ++ [Arrive alpha (GetJobs 203)] ++ ticks 3 400 3.
Definition panics : list event := dispatch ++ ticks 2 300 1 ++ [Unwind 2; Arrive alpha (GetJobs 203)] ++ ticks 3 400 3.

Abbreviation small := (run tokens true config models 4).

Definition done_job : JobRecord :=
  mkJob 203 101 7 Completed
    (Some (Object [(chars "function_id", String (chars "101")); (chars "result", String (chars "ok"))])) 5.

Lemma completes_fresh : NoDup (randoms completes).
Proof. apply (bool_decide_unpack _). vm_compute. exact I. Qed.

Lemma completes_polled : OReply 3 alpha (Ok (JobResponse done_job)) ∈ trace (small completes).
Proof. apply (list_elem_of_lookup_2 _ 11). vm_compute. reflexivity. Qed.

Lemma gateway_isolated_witness :
  NoDup (randoms completes) /\
  permitted tokens true models (trace (small completes)) (OReply 3 alpha (Ok (JobResponse done_job))).
Proof.
  split; [apply completes_fresh|].
  apply (proj1 (RouteClaims.gateway_isolated tokens true config models 4 completes completes_fresh)), completes_polled.
Defined.

Lemma jobs_gauge_exact_witness :
  0 <= jobs_active (state (small completes)) <= MAX_OUTSTANDING_ASYNC_JOBS - 1 + 4.
Proof. apply (RouteClaims.jobs_gauge_exact tokens true config models 4 completes completes_fresh). Defined.

Lemma polled_jobs_are_their_runs_witness :
  exists j h0 r0,
    ODispatch j h0 (job_id done_job) r0 ∈ trace (small completes) /\ job_status r0 = Pending /\ job_result r0 = None /\
    length (filter (RouteClaims.dispatches (job_id done_job)) (trace (small completes))) = 1%nat /\
    (length (filter (RouteClaims.resolves (job_id done_job)) (trace (small completes))) <= 1)%nat /\
    (done_job = r0 \/
     exists k o payload e a bytes r,
       OResolve k h0 (job_id done_job) o ∈ trace (small completes) /\
       OArrive j h0 (PostInvokeAsync (function_id r0) payload) ∈ trace (small completes) /\ asked payload e a /\
       owned tokens true h0 (job_tenant_id r0) (function_id r0) bytes (trace (small completes)) /\
       ran k h0 (job_tenant_id r0) bytes e a r (trace (small completes)) /\ done_job = RouteClaims.concluded r0 r).
Proof. exact (RouteClaims.polled_jobs_are_their_runs tokens true config models 4 completes 3 alpha done_job completes_fresh completes_polled). Defined.

(** A job whose task panicked is pending for good: its guard is gone and no
    thread is left to resolve it. *)
Lemma panicked_job_stays_pending :
  let sys := small panics in
  OReply 3 alpha (Ok (JobResponse (mkJob 203 101 7 Pending None 5))) ∈ trace sys /\
  jobs_active (state sys) = 0 /\ rest <$> threads sys = [Over; Over; Over; Over].
Proof. split; [apply (list_elem_of_lookup_2 _ 9)|]; by vm_compute. Qed.

Definition one_job : State := mkState ∅ {[203 := done_job]} 0 [].

Lemma eviction_keeps_newest_witness :
  size (jobs (alone (env 0) entries evict_jobs_if_over_cap one_job).2) = 1%nat.
Proof. apply (eviction_keeps_newest (env 0) entries (fun m => reflexivity _) one_job). Defined.

Definition deployed : FunctionRecord := mkFunction 101 7 (chars "f") (bytes_of "wasm0000") 5.
Definition with_function : State := mkState {[101 := deployed]} ∅ 0 [].
Definition scope7 : TenantScope := Set_ {[7]}.
Definition saved_b64 : text :=
  match (alone (env 0) entries (snapshot_save config (Some 2000) (Some 7) (Some scope7) (Ok 101)) with_function).1 with
  | Ok (SnapshotSaveResponse _ b64 _) => b64
  | _ => []
  end.

Lemma small_saved :
  (alone (env 0) entries (snapshot_save config (Some 2000) (Some 7) (Some scope7) (Ok 101)) with_function).1 =
    Ok (SnapshotSaveResponse 101 saved_b64 true).
Proof. vm_compute. reflexivity. Qed.

Lemma small_restorable : restorable (bytes_of "key") (Some 2000) 101 deployed.
Proof. intros snap bytes Hs Hc. vm_compute in Hs, Hc. simplify_eq. split_and!; by vm_compute. Qed.

Lemma snapshot_routes_roundtrip_witness :
  (alone (env 0) entries (snapshot_restore config (Some 2500) (Some 8) (Some All) (Ok saved_b64)) with_function).1 =
    Err (forbidden (chars "tenant_scope_denied") (chars "snapshot was captured for a different tenant")).
Proof.
  apply (snapshot_routes_roundtrip (env 0) entries eq_refl config (bytes_of "key") eq_refl scope7 All 7 8 (Some 2000) (Some 2500)
           101 deployed with_function with_function saved_b64 true);
    [done|done|done|done|by intros ms [= <-]|apply small_restorable|apply small_saved].
Defined.
End SmallGateway.
