(* ===== verification/OpenAiFacts.v ===== *)
(** * What the OpenAI-compatible routes answer

    The translation accepts exactly the requests it can honour, and a buffered
    completion carries exactly the text the guest emitted.  [every] runs a
    handler against all answers of the environment that a predicate allows. *)

From stdpp Require Import gmap list.
From S2P Require Import Prelude Core Text Artifacts Primitives Auth Snapshot Routes OpenAi Gateway RoutesFacts.

Module TranslatorFacts.
Import Auth.Text Envelope Json Routes.Routes Translator.

(** [1.0_f32] *)
Definition ONE_F32 : Z := 0x3F800000.

Lemma f32_one bits : fits u32_max bits -> f64_eqb (f64_of_f32 bits) one = true <-> bits = ONE_F32.
Proof.
  unfold fits, f64_of_f32, one, f64_eqb, ONE_F32. intros Hb. split; [|by intros ->].
  change 0xFF with (Z.ones 8). change 0x7FFFFF with (Z.ones 23). rewrite !Z.land_ones, Z.shiftr_div_pow2 by done.
  rewrite Z.testbit_odd, Z.shiftr_div_pow2 by done. change (Z.ones 8) with 255.
  pose proof (Z.mod_pos_bound (bits / 2 ^ 23) (2 ^ 8)). pose proof (Z.mod_pos_bound bits (2 ^ 23)).
  assert (bits = (bits / 2 ^ 23) mod 2 ^ 8 * 2 ^ 23 + bits mod 2 ^ 23 + 2 ^ 31 * (bits / 2 ^ 31)) as Hsplit
    by (Z.to_euclidean_division_equations; lia).
  assert (0 <= bits / 2 ^ 31 <= 1) as Hsign by (Z.to_euclidean_division_equations; lia).
  set (x := (bits / 2 ^ 23) mod 2 ^ 8) in *. set (f := bits mod 2 ^ 23) in *. set (g := bits / 2 ^ 31) in *.
  clearbody x f g. assert (0 < 2 ^ 150) by done. specialize (H ltac:(done)). specialize (H0 ltac:(done)).
  destruct (x =? 255) eqn:Hx1; [done|]. destruct (x =? 0) eqn:Hx0; bool_props.
  { rewrite Z.min_l by done. intros He. bool_props. destruct (Z.odd g); cbn -[Z.pow] in He; change (2 ^ (0 - -149)) with (2 ^ 149) in He; lia. }
  assert (g = 0 \/ g = 1) as [-> | ->] by lia; cbn [Z.odd]; intros He; bool_props.
  - destruct (Z.le_gt_cases 150 x).
    { rewrite Z.min_r, Z.sub_0_r in He by lia. pose proof (Z.pow_pos_nonneg 2 (x - 150)). nia. }
    rewrite Z.min_l, Z.sub_diag, Z.mul_1_r, Z.mul_1_l in He by lia.
    assert (0 - (x - 150) = 23) as Hk; [|rewrite Hk in He; lia].
    destruct (Z.lt_trichotomy (0 - (x - 150)) 23) as [Hk|[Hk|Hk]]; [|done|]; exfalso.
    + pose proof (Z.pow_le_mono_r 2 (0 - (x - 150)) 22). lia.
    + pose proof (Z.pow_le_mono_r 2 24 (0 - (x - 150))). lia.
  - exfalso. pose proof (Z.pow_pos_nonneg 2 (x - 150 - Z.min (x - 150) 0)). pose proof (Z.pow_nonneg 2 (0 - Z.min (x - 150) 0)). nia.
Qed.

(** The values of the knobs that change nothing. *)
Definition neutral (max_tokens temperature n : option Z) : Prop :=
  max_tokens = None /\ (forall b, temperature = Some b -> b = ONE_F32) /\ (forall v, n = Some v -> v = 1).

Lemma knob_max_tokens v : reject_unsupported_knob (chars "max_tokens") (f64_of_u32 <$> v) None = Ok () <-> v = None.
Proof. by destruct v. Qed.

Lemma knob_temperature v :
  (forall b, v = Some b -> fits u32_max b) ->
  reject_unsupported_knob (chars "temperature") (f64_of_f32 <$> v) (Some one) = Ok () <-> (forall b, v = Some b -> b = ONE_F32).
Proof.
  destruct v as [b|]; intros Hf; cbn -[f64_of_f32]; [|done]. specialize (Hf b eq_refl). pose proof (f32_one b Hf) as H.
  destruct (f64_eqb _ _); naive_solver.
Qed.

Lemma knob_n v : reject_unsupported_knob (chars "n") (f64_of_u32 <$> v) (Some one) = Ok () <-> (forall b, v = Some b -> b = 1).
Proof.
  destruct v as [b|]; cbn -[Z.mul]; [|done]. rewrite !Z.mul_1_r. destruct (b =? 1) eqn:E; bool_props; naive_solver.
Qed.

Lemma echo_off v : reject_unsupported_bool (chars "echo") v = Ok () <-> v <> Some true.
Proof. unfold reject_unsupported_bool. case_bool_decide; naive_solver. Qed.

Lemma tools_off v : reject_unsupported_tools v = Ok () <-> v ∈ [None; Some Null; Some (Array [])].
Proof.
  unfold reject_unsupported_tools. destruct v as [[| | | |[|x l]|]|]; cbn; split; try done; try set_solver.
Qed.

Lemma bind_unit {E A} (m : result E ()) (k : result E A) r : (_ ← m; k) = Ok r <-> m = Ok () /\ k = Ok r.
Proof. destruct m as [[]|e]; cbn; naive_solver. Qed.

(** Whatever knob is refused, the refusal is a bad request. *)
Definition bad (r : result OpenAiError ()) : Prop := forall e, r = Err e -> status_of e = 400.

Lemma knobs_bad field v d b ts :
  bad (reject_unsupported_knob field v d) /\ bad (reject_unsupported_bool field b) /\ bad (reject_unsupported_tools ts).
Proof.
  split_and!; intros e.
  - unfold reject_unsupported_knob. repeat case_match; by intros [= <-].
  - unfold reject_unsupported_bool. case_match; by intros [= <-].
  - unfold reject_unsupported_tools. cbv zeta. repeat case_match; by intros [= <-].
Qed.

Lemma bind_bad {A} (m : result OpenAiError ()) (k : result OpenAiError A) e :
  (_ ← m; k) = Err e -> bad m -> (k = Err e -> status_of e = 400) -> status_of e = 400.
Proof. destruct m as [[]|e']; cbn; [naive_solver|]. intros [= <-] Hb _. by apply Hb. Qed.

Lemma lookup_model_ok (m : text) mm id : lookup_model m mm = Ok id <-> mm !! m = Some id.
Proof. unfold lookup_model. case_match; naive_solver. Qed.

(** The refusals of a translation: an unknown model, or a knob. *)
Definition refusal (known : bool) : Z := if known then 400 else 404.

Lemma lookup_bind_bad {A : Type} (m : text) (mm : gmap text Uuid) (k : Uuid -> result OpenAiError A) (e : OpenAiError) :
  (id ← lookup_model m mm; k id) = Err e -> (forall id, k id = Err e -> status_of e = 400) ->
  status_of e = refusal (bool_decide (is_Some (mm !! m))).
Proof.
  unfold lookup_model. destruct (mm !! m) as [id|]; cbn; [eauto|by intros [= <-]].
Qed.

Section translation.
Variable mm : gmap text Uuid.

Lemma completions_accepted req t :
  (forall b, temperature req = Some b -> fits u32_max b) ->
  translate_completions_request req mm = Ok t <->
  mm !! model req = Some (tr_function_id t) /\ neutral (max_tokens req) (temperature req) (n req) /\ echo req <> Some true /\
  t = translated (tr_function_id t) (extract_prompt_text (prompt req)) (stream req).
Proof.
  intros Hf. unfold translate_completions_request. rewrite <-lookup_model_ok. unfold neutral.
  rewrite <-knob_max_tokens, <-(knob_temperature _ Hf), <-knob_n, <-echo_off.
  destruct (lookup_model _ _) as [id|e]; cbn [mbind result_bind]; [|naive_solver]. rewrite !bind_unit.
  split; [by intros (? & ? & ? & ? & [= <-])|]. intros ([= Hid] & (? & ? & ?) & ? & Ht). by rewrite Hid, <-Ht.
Qed.

Lemma chat_accepted req t :
  (forall b, chat_temperature req = Some b -> fits u32_max b) ->
  translate_chat_completions_request req mm = Ok t <->
  mm !! chat_model req = Some (tr_function_id t) /\ neutral (chat_max_tokens req) (chat_temperature req) (chat_n req) /\
  tools req ∈ [None; Some Null; Some (Array [])] /\
  t = translated (tr_function_id t) (assemble_chat_prompt (messages req)) (chat_stream req).
Proof.
  intros Hf. unfold translate_chat_completions_request. rewrite <-lookup_model_ok. unfold neutral.
  rewrite <-knob_max_tokens, <-(knob_temperature _ Hf), <-knob_n, <-tools_off.
  destruct (lookup_model _ _) as [id|e]; cbn [mbind result_bind]; [|naive_solver]. rewrite !bind_unit.
  split; [by intros (? & ? & ? & ? & [= <-])|]. intros ([= Hid] & (? & ? & ?) & ? & Ht). by rewrite Hid, <-Ht.
Qed.

Lemma completions_refused req e :
  translate_completions_request req mm = Err e -> status_of e = refusal (bool_decide (is_Some (mm !! model req))).
Proof.
  intros H. eapply lookup_bind_bad; [exact H|]. intros id Hk.
  do 4 (eapply bind_bad; [exact Hk|apply (knobs_bad _ _ _ (Some true) None) || apply (knobs_bad _ None None _ None)|clear Hk; intros Hk]). done.
Qed.

Lemma chat_refused req e :
  translate_chat_completions_request req mm = Err e -> status_of e = refusal (bool_decide (is_Some (mm !! chat_model req))).
Proof.
  intros H. eapply lookup_bind_bad; [exact H|]. intros id Hk.
  do 4 (eapply bind_bad; [exact Hk|apply (knobs_bad _ _ _ (Some true) None) || apply (knobs_bad [] None None None)|clear Hk; intros Hk]). done.
Qed.

(** C34: the OpenAI translation is honest.  A completion request is translated
    exactly when its model is configured and every knob it sets (max_tokens,
    temperature, n, echo, tools) is at a value that changes nothing, and then
    into a call of the configured function with the prompt the request spells
    out and no arguments; otherwise it is refused, with 404 for an unknown
    model and 400 for a knob, so no setting is silently ignored. *)
Theorem translation_honest :
  (forall req t, (forall b, temperature req = Some b -> fits u32_max b) ->
     translate_completions_request req mm = Ok t <->
     mm !! model req = Some (tr_function_id t) /\ neutral (max_tokens req) (temperature req) (n req) /\
     echo req <> Some true /\ t = translated (tr_function_id t) (extract_prompt_text (prompt req)) (stream req)) /\
  (forall req t, (forall b, chat_temperature req = Some b -> fits u32_max b) ->
     translate_chat_completions_request req mm = Ok t <->
     mm !! chat_model req = Some (tr_function_id t) /\ neutral (chat_max_tokens req) (chat_temperature req) (chat_n req) /\
     tools req ∈ [None; Some Null; Some (Array [])] /\
     t = translated (tr_function_id t) (assemble_chat_prompt (messages req)) (chat_stream req)) /\
  (forall req e, translate_completions_request req mm = Err e ->
     status_of e = if bool_decide (is_Some (mm !! model req)) then 400 else 404) /\
  (forall req e, translate_chat_completions_request req mm = Err e ->
     status_of e = if bool_decide (is_Some (mm !! chat_model req)) then 400 else 404).
Proof. split_and!; eauto using completions_accepted, chat_accepted, completions_refused, chat_refused. Qed.
End translation.
End TranslatorFacts.

Module OpenAiFacts.
Import Auth.Text Auth.TokenScope Envelope Json Routes.Routes Translator OpenAi.OpenAi TranslatorFacts.
Import Artifacts.Artifacts (zlen).

(** Every answer of a program, with the tasks it detached, the environment
    answering as [resp] allows. *)
Fixpoint every {A} (resp : forall R, action R -> R -> Prop) (post : list Task -> A -> Prop) (ts : list Task) (p : prog A) : Prop :=
  match p with
  | Ret a => post ts a
  | Act op k =>
      forall r, resp _ op r -> every resp post (ts ++ match op with TokioSpawn t => [t] | _ => [] end) (k r)
  end.

(** A function as deployed, a guest that emits the chunks, and a task that
    ends with the status. *)
Definition guest (id : Uuid) (f : option FunctionRecord) (chunks : list (list u8)) (status : result text (result ExecError ()))
    (R : Type) (op : action R) : R -> Prop :=
  match op in action R return R -> Prop with
  | FnGet id' => fun r => id' = id -> r = f
  | RecvAll _ => fun r => r = chunks
  | JoinTask _ => fun r => r = status
  | _ => fun _ => True
  end.

Lemma collect_all acc chunks :
  zlen acc + zlen (concat chunks) <= MAX_BUFFERED_BYTES -> collect acc chunks = acc ++ concat chunks.
Proof.
  revert acc. induction chunks as [|c chunks IH]; intros acc; cbn; [by rewrite app_nil_r|]. unfold zlen in *. rewrite length_app.
  intros Hl. destruct (_ <? _) eqn:E; bool_props; [lia|]. rewrite IH; [by rewrite (assoc _)|]. rewrite length_app. lia.
Qed.

Lemma collect_bounded acc chunks : zlen acc <= MAX_BUFFERED_BYTES -> zlen (collect acc chunks) <= MAX_BUFFERED_BYTES.
Proof.
  revert acc. induction chunks as [|c chunks IH]; intros acc Hl; cbn; [done|]. destruct (_ <? _) eqn:E; [done|]. bool_props.
  apply IH. unfold zlen in *. rewrite length_app. lia.
Qed.

Lemma estimate_tokens_spec s : zlen s <= 4 * estimate_tokens s < zlen s + 4.
Proof.
  unfold estimate_tokens, zlen. destruct (_ =? 0) eqn:E; bool_props; [lia|]. Z.to_euclidean_division_equations. lia.
Qed.

Section completions.
Context `{!Libraries}.
Variables (mm : gmap text Uuid) (tenant : TenantId) (sc : TenantScope).
Hypothesis authorized : allows sc tenant = true.

(** One task was detached, which runs the function on the prompt, and the
    answer is [s] in the envelope. *)
Definition completed (f : FunctionRecord) (t : TranslatedRequest) (m : text) (o : OpenAiObject) (s : text)
    (ts : list Task) (r : result ApiError Reply) : Prop :=
  exists sid id created,
    ts = [OpenAiTask (wasm_bytes f) tenant (Utf8.encode_utf8 (tr_prompt t)) (tr_args t) sid] /\
    r = Ok (OpenAiResponse 200 (envelope o (id_prefix o ++ uuid_string id) created m s
              (usage_block (estimate_tokens (tr_prompt t)) (estimate_tokens s)))).

Lemma run_translated_completed f t m o s chunks :
  fn_tenant_id f = tenant -> tr_stream t = false -> forallb Utf8.scalar s = true -> concat chunks = Utf8.encode_utf8 s ->
  zlen (concat chunks) <= MAX_BUFFERED_BYTES ->
  every (guest (tr_function_id t) (Some f) chunks (Ok (Ok ()))) (completed f t m o s) [] (run_translated tenant t m o).
Proof.
  intros Hf Hst Hs Hc Hl. cbn. intros r Hr. rewrite (Hr eq_refl), Hf, Z.eqb_refl, Hst. cbn.
  intros sid _ _ _ ? -> ? -> id _ now _. exists sid, id, (unix_seconds now). split; [done|].
  rewrite collect_all by done. cbn [app]. by rewrite Hc, Utf8Facts.from_utf8_lossy_encode.
Qed.

(** C35: a buffered completion is the guest's text.  For a request that may act
    for the tenant and translates to the tenant's own function, when the guest
    emits the UTF-8 bytes of a text in chunks cut anywhere, up to 16 MiB, and
    ends without error, both OpenAI routes detach exactly one task, which runs
    the function on the prompt, and answer 200 with exactly that text and the
    token counts estimated from the prompt and the text. *)
Theorem buffered_completion_exact f t s chunks :
  fn_tenant_id f = tenant -> tr_stream t = false -> forallb Utf8.scalar s = true -> concat chunks = Utf8.encode_utf8 s ->
  zlen (concat chunks) <= MAX_BUFFERED_BYTES ->
  let resp := guest (tr_function_id t) (Some f) chunks (Ok (Ok ())) in
  (forall req, translate_completions_request req mm = Ok t ->
     every resp (completed f t (model req) TextCompletion s) [] (completions_handler mm (Some tenant) (Some sc) (Ok req))) /\
  (forall req, translate_chat_completions_request req mm = Ok t ->
     every resp (completed f t (chat_model req) ChatCompletion s) [] (chat_completions_handler mm (Some tenant) (Some sc) (Ok req))).
Proof.
  intros Hf Hst Hs Hc Hl. cbn zeta. split; intros req Ht; unfold completions_handler, chat_completions_handler;
    cbn [default require_authorize]; unfold authorize_tenant; cbn [from_option]; unfold id; rewrite authorized; cbn [try_]; rewrite Ht;
    by apply run_translated_completed.
Qed.
End completions.
End OpenAiFacts.

(** The small gateway of [RoutesFacts] with one model. *)
Module SmallOpenAi.
Import Auth.Text Auth.TokenScope Envelope Json Routes.Routes Translator OpenAi.OpenAi Gateway.Gateway RouteInvariant SmallGateway.
Import TranslatorFacts OpenAiFacts SnapshotToy.

Definition ask (streamed : bool) : CompletionsRequest :=
  mkCompletions (chars "tiny") (String (chars "say hi")) None (Some ONE_F32) (Some streamed) None None None.
Definition tiny : TranslatedRequest := translated 101 (chars "say hi") (Some false).

Lemma tiny_translated : translate_completions_request (ask false) models = Ok tiny.
Proof. vm_compute. reflexivity. Qed.

Lemma buffered_completion_exact_witness :
  every (guest 101 (Some deployed) [[Byte.xe2]; [Byte.x82; Byte.xac]] (Ok (Ok ())))
    (completed 7 deployed tiny (chars "tiny") TextCompletion [0x20AC]) []
    (completions_handler models (Some 7) (Some scope7) (Ok (ask false))).
Proof.
  refine (proj1 (buffered_completion_exact models 7 scope7 eq_refl deployed tiny [0x20AC] [[Byte.xe2]; [Byte.x82; Byte.xac]]
            eq_refl eq_refl eq_refl eq_refl _) (ask false) tiny_translated). by vm_compute.
Defined.

(** [n] streamed completions, each served while the tasks of the earlier ones run. *)
Definition streamed (k : nat) : list event :=
  [Arrive alpha (PostCompletions (Ok (ask true)))] ++ ticks (1 + 2 * k) (1000 * Z.of_nat (1 + k)) 6.
Definition flood (n : nat) : list event := [Arrive alpha deploy] ++ ticks 0 100 5 ++ concat (streamed <$> seq 0 n).

(** The detached tasks of the OpenAI routes are not counted: one more than the
    ceiling on outstanding jobs run at once, and the gauge is still zero. *)
Lemma openai_tasks_uncounted :
  let sys := small (flood 257) in
  jobs_active (state sys) = 0 /\
  Z.of_nat (length (filter (fun t => detached t && match rest t with Running _ => true | Over => false end) (threads sys))) =
    MAX_OUTSTANDING_ASYNC_JOBS + 1.
Proof. vm_compute. done. Qed.

(** A token scoped to tenant 7, without the tenant header OpenAI clients do
    not send, is taken to act for tenant 0 and refused. *)
Definition headerless : Auth.Auth.Request :=
  Auth.Auth.mkReq [Auth.Auth.mkHeader 12 (Some (chars "Bearer alpha"))] [].

Lemma scoped_token_refused :
  exists m, trace (run tokens false config models 4 [Arrive headerless (PostCompletions (Ok (ask false))); Tick 0 (env 0)]) =
    [OArrive 0 headerless (PostCompletions (Ok (ask false)));
     OReply 0 headerless (Err (forbidden (chars "tenant_scope_denied") m))].
Proof. eexists. vm_compute. reflexivity. Qed.

(** A buffered answer repeats the executor's figures that the streamed one hides. *)
Lemma buffered_error_shows_figures tenant active limit :
  let e := TenantCapacityExhausted tenant active limit in
  err_message (map_exec_error_to_openai e) =
    chars "tenant T#" ++ decimal tenant ++ chars " instance capacity exhausted: " ++ decimal active ++ chars " active, limit " ++ decimal limit /\
  sanitised_exec_error_message e = chars "tenant instance quota exhausted; reduce concurrency or retry later".
Proof. done. Qed.
End SmallOpenAi.
