(* ===== verification/RouteStream.v ===== *)
(** * The response streams of the gateway

    The writer that turns a guest's chunks into frames of the response:
    the [stream::unfold] state machine of [invoke_function_stream], one atomic
    step per poll, against the guest's end of the bounded chunk channel and
    the task's end of the oneshot that carries the terminal status.  The
    writer of the OpenAI routes is the same machine with another status, and
    another answer to a task that died; [OpenAiWriter] adds its end marker. *)

From S2P Require Import Prelude Core Text Auth Routes OpenAi.

Module StreamWriter.
Import Auth.Text Envelope Json Routes.Routes.

Abbreviation chunk := (list u8).

(** The capacity of the channel, the errors of a task, and what the writer
    takes the status of a dead task to be. *)
Section writer.
Context {E : Type}.
Variables (buffer : nat) (dead : result E ()).
Abbreviation terminal := (result E ()).

Inductive StreamFrame := Chunk (c : chunk) | Done (t : terminal).

(** The oneshot, seen from its receiver. *)
Inductive oneshot := Waiting | Sent (t : terminal) | Dropped | Taken.

(** [StreamWriterState], with the points between two polls of one turn:
    [PollDone] after [recv] was pending, [TryRecv] with the terminal status in
    hand, [AwaitDone] after the channel closed.  [Gone]: the client left. *)
Inductive StreamWriterState :=
| Streaming
| PollDone
| TryRecv (t : terminal)
| AwaitDone
| DrainOnly (t : option terminal)
| WriterDone
| Gone.

(** [sent]: the chunks whose [send] succeeded. *)
Record Stream := mkStream {
  queue : list chunk;
  sender : bool;
  done_rx : oneshot;
  writer : StreamWriterState;
  frames : list StreamFrame;
  chunks_emitted_total : Z;
  sent : list chunk;
}.

Definition open : Stream := mkStream [] true Waiting Streaming [] 0 [].

Inductive event :=
(** The guest's [emit_chunk]. *)
| Emit (c : chunk)
(** The instance, and the sender with it, is dropped. *)
| DropSender
(** The task sends its status, or unwinds. *)
| Finish (t : terminal)
| Die
(** The body is polled; [pending] is whether the runtime's cooperative budget
    makes a ready channel answer pending. *)
| Poll (pending : bool)
| Disconnect.

Definition set_writer (w : StreamWriterState) (s : Stream) : Stream :=
  mkStream (queue s) (sender s) (done_rx s) w (frames s) (chunks_emitted_total s) (sent s).

(** One chunk out of the channel and into the response. *)
Definition deliver (c : chunk) (q : list chunk) (w : StreamWriterState) (s : Stream) : Stream :=
  mkStream q (sender s) (done_rx s) w (frames s ++ [Chunk c]) (chunks_emitted_total s + 1) (sent s).

Definition close (t : terminal) (s : Stream) : Stream :=
  mkStream (queue s) (sender s) (done_rx s) WriterDone (frames s ++ [Done t]) (chunks_emitted_total s) (sent s).

(** What the receiver finds: the status, or that its sender is gone. *)
Definition received (o : oneshot) : option terminal :=
  match o with Sent t => Some t | Dropped => Some dead | Waiting | Taken => None end.

Definition take_done (w : StreamWriterState) (s : Stream) : Stream :=
  mkStream (queue s) (sender s) Taken w (frames s) (chunks_emitted_total s) (sent s).

Definition poll (pending : bool) (s : Stream) : Stream :=
  match writer s with
  | Streaming =>
      if pending then set_writer PollDone s
      else
        match queue s with
        | c :: q => deliver c q Streaming s
        | [] => set_writer (if sender s then PollDone else AwaitDone) s
        end
  | PollDone =>
      match received (done_rx s) with
      | Some t => take_done (TryRecv t) s
      | None => set_writer Streaming s
      end
  | TryRecv t =>
      match queue s with
      | c :: q => deliver c q (DrainOnly (Some t)) s
      | [] => close t s
      end
  | AwaitDone =>
      match received (done_rx s) with
      | Some t => close t (take_done AwaitDone s)
      | None => s
      end
  | DrainOnly t =>
      match queue s with
      | c :: q => deliver c q (DrainOnly t) s
      | [] => close (default (Ok ()) t) s
      end
  | WriterDone | Gone => s
  end.

(** The guest runs only while its task waits for the call. *)
Definition step (s : Stream) (ev : event) : Stream :=
  match ev with
  | Emit c =>
      match done_rx s, writer s with
      | Waiting, Gone => s
      | Waiting, _ =>
          if sender s && (length (queue s) <? buffer)%nat
          then mkStream (queue s ++ [c]) true Waiting (writer s) (frames s) (chunks_emitted_total s) (sent s ++ [c])
          else s
      | _, _ => s
      end
  | DropSender => mkStream (queue s) false (done_rx s) (writer s) (frames s) (chunks_emitted_total s) (sent s)
  | Finish t =>
      match done_rx s with
      | Waiting => mkStream (queue s) (sender s) (Sent t) (writer s) (frames s) (chunks_emitted_total s) (sent s)
      | _ => s
      end
  | Die =>
      match done_rx s with
      | Waiting => mkStream (queue s) (sender s) Dropped (writer s) (frames s) (chunks_emitted_total s) (sent s)
      | _ => s
      end
  | Poll pending => poll pending s
  | Disconnect => set_writer (match writer s with WriterDone => WriterDone | _ => Gone end) s
  end.

Definition run (evs : list event) : Stream := foldl step open evs.
End writer.
#[global] Arguments StreamFrame : clear implicits.
#[global] Arguments oneshot : clear implicits.
#[global] Arguments StreamWriterState : clear implicits.
#[global] Arguments Stream : clear implicits.
#[global] Arguments event : clear implicits.

Definition dropped : StreamTerminalError :=
  mkTerminal (chars "wasm_error") (chars "executor task dropped without signalling").

(** The writer of invoke-stream. *)
Definition native (evs : list (event StreamTerminalError)) : Stream StreamTerminalError :=
  run STREAMING_CHANNEL_BUFFER (Err dropped) evs.

(** The frame as a chunk of the body, without content negotiation. *)
Section chunked.
Context `{!Libraries}.

Definition event_text (name : string) (data : Value) : text :=
  chars "event: " ++ chars name ++ [10] ++ chars "data: " ++ value_string data ++ [10; 10].

Definition chunked (f : StreamFrame StreamTerminalError) : list u8 :=
  match f with
  | Chunk c => c
  | Done (Ok ()) => Utf8.encode_utf8 (event_text "done" (Object [(chars "status", String (chars "ok"))]))
  | Done (Err e) =>
      Utf8.encode_utf8 (event_text "error"
        (Object [(chars "reason", String (term_kind e)); (chars "message", String (term_message e))]))
  end.
End chunked.
End StreamWriter.

(** The writer of the OpenAI routes. *)
Module OpenAiWriter.
Import Auth.Text Envelope Json Routes.Routes OpenAi.OpenAi StreamWriter.

(** A dead task counts as one that succeeded. *)
Abbreviation base := (step OPENAI_STREAM_BUFFER (Ok () : result ExecError ())).

(** After the terminal frame the machine is at [EmitDone], and [Closed] once
    the end marker is out. *)
Record Writer := mkWriter { stream : Stream ExecError; closed : bool }.

Definition step (w : Writer) (ev : event ExecError) : Writer :=
  match ev, writer (stream w) with
  | Poll _, WriterDone => mkWriter (stream w) true
  | _, _ => mkWriter (base (stream w) ev) (closed w)
  end.

Definition run (evs : list (event ExecError)) : Writer := foldl step (mkWriter open false) evs.

Inductive sse := Data (payload : Value) | DoneMarker.

Section events.
Variables (id : text) (created : Z) (model : text) (o : OpenAiObject).

Definition sse_of (f : StreamFrame ExecError) : sse :=
  Data match f with
       | Chunk c => chunk_payload id created model o c
       | Done (Ok ()) => terminal_payload id created model o None
       | Done (Err e) => terminal_payload id created model o (Some e)
       end.

Definition events (w : Writer) : list sse := (sse_of <$> frames (stream w)) ++ if closed w then [DoneMarker] else [].
End events.
End OpenAiWriter.

Module StreamWriterFacts.
Import Auth.Text Envelope Json Routes.Routes StreamWriter.

Section facts.
Context {E : Type}.
Variables (buffer : nat) (dead : result E ()).
Abbreviation terminal := (result E ()).
Abbreviation Stream := (Stream E).
Abbreviation event := (event E).
Abbreviation run := (run buffer dead).
Abbreviation step := (step buffer dead).
Abbreviation poll := (poll dead).
Abbreviation received := (received dead).

Definition chunks_of (fs : list (StreamFrame E)) : list chunk :=
  omap (fun f => match f with Chunk c => Some c | Done _ => None end) fs.

#[local] Arguments chunks_of : simpl never.

(** How the task ended: the first signal counts. *)
Definition signal (ev : event) : option terminal :=
  match ev with Finish t => Some t | Die => Some dead | _ => None end.
Definition verdict (evs : list event) : option terminal := head (omap signal evs).

(** What the writer knows of the verdict [v]. *)
Definition oneshot_ok (v : option terminal) (s : Stream) : Prop :=
  match done_rx s with Taken => is_Some v | o => received o = v end.

Definition writer_ok (v : option terminal) (s : Stream) : Prop :=
  match writer s with
  | Streaming | PollDone => done_rx s <> Taken
  | TryRecv t | DrainOnly (Some t) => done_rx s = Taken /\ v = Some t
  | AwaitDone => queue s = [] /\ sender s = false /\ done_rx s <> Taken
  | DrainOnly None => False
  | WriterDone => queue s = [] /\ done_rx s = Taken
  | Gone => True
  end.

Definition frames_ok (v : option terminal) (s : Stream) : Prop :=
  match writer s with
  | WriterDone => exists t, v = Some t /\ frames s = (Chunk <$> chunks_of (frames s)) ++ [Done t]
  | _ => frames s = Chunk <$> chunks_of (frames s)
  end.

Record inv (v : option terminal) (s : Stream) : Prop := {
  i_sent : sent s = chunks_of (frames s) ++ queue s;
  i_total : chunks_emitted_total s = Z.of_nat (length (chunks_of (frames s)));
  i_bound : (length (queue s) <= buffer)%nat;
  i_oneshot : oneshot_ok v s;
  i_writer : writer_ok v s;
  i_frames : frames_ok v s;
}.

Lemma chunks_of_chunk fs c : chunks_of (fs ++ [Chunk c]) = chunks_of fs ++ [c].
Proof. unfold chunks_of. by rewrite omap_app. Qed.
Lemma chunks_of_done fs t : chunks_of (fs ++ [Done t]) = chunks_of fs.
Proof. unfold chunks_of. by rewrite omap_app, app_nil_r. Qed.

Lemma deliver_inv v c q w s :
  inv v s -> queue s = c :: q -> writer s <> WriterDone -> w <> WriterDone ->
  writer_ok v (deliver c q w s) -> inv v (deliver c q w s).
Proof.
  intros [Hs Ht Hb Ho _ Hf] Hq Hw Hw' Hok. split; cbn; try done.
  - rewrite chunks_of_chunk, Hs, Hq. by rewrite <-(assoc _).
  - rewrite chunks_of_chunk, length_app, Ht. cbn. lia.
  - rewrite Hq in Hb. cbn in Hb. lia.
  - assert (frames s ++ [Chunk c] = Chunk <$> chunks_of (frames s ++ [Chunk c])) as He.
    { rewrite chunks_of_chunk, fmap_app. cbn. f_equal. unfold frames_ok in Hf. by destruct (writer s). }
    unfold frames_ok. cbn. by destruct w.
Qed.

Lemma close_inv v t s :
  inv v s -> queue s = [] -> done_rx s = Taken -> writer s <> WriterDone -> v = Some t -> inv v (close t s).
Proof.
  intros [Hs Ht Hb Ho _ Hf] Hq Hd Hw Hv. split; cbn; try done; rewrite ?chunks_of_done; try done.
  exists t. split; [done|]. cbn. rewrite ?chunks_of_done. f_equal. unfold frames_ok in Hf. by destruct (writer s).
Qed.

Lemma move_inv v s s' :
  inv v s -> queue s' = queue s -> frames s' = frames s -> sent s' = sent s ->
  chunks_emitted_total s' = chunks_emitted_total s -> (writer s = WriterDone <-> writer s' = WriterDone) ->
  oneshot_ok v s' -> writer_ok v s' -> inv v s'.
Proof.
  intros [Hs Ht Hb _ _ Hf] Hq Hfr Hse Hc Hw Ho Hok. split; rewrite ?Hfr, ?Hse, ?Hc, ?Hq; try done.
  unfold frames_ok in *. rewrite Hfr. destruct (writer s), (writer s'); try done; naive_solver.
Qed.

Lemma received_verdict v s t : oneshot_ok v s -> received (done_rx s) = Some t -> v = Some t.
Proof. unfold oneshot_ok. destruct (done_rx s); cbn; congruence. Qed.

Lemma poll_inv v pending s : inv v s -> inv v (poll pending s).
Proof.
  intros Hi. pose proof Hi as [_ _ _ Ho Hw _]. unfold poll, writer_ok in *. destruct (writer s) eqn:Ew.
  - destruct pending; [by apply (move_inv _ s); try done; cbn; rewrite Ew|].
    destruct (queue s) as [|c q] eqn:Hq; [|by apply deliver_inv; rewrite ?Ew].
    apply (move_inv _ s); try done; cbn; destruct (sender s) eqn:Hs; try done; by rewrite ?Ew.
  - destruct (received _) as [t|] eqn:Hr; [|by apply (move_inv _ s); try done; cbn; rewrite Ew].
    apply (received_verdict _ _ _ Ho) in Hr as Hv. apply (move_inv _ s); try done; cbn; rewrite ?Ew; by rewrite ?Hv.
  - destruct Hw as [Hd Hv]. destruct (queue s) as [|c q] eqn:Hq; [by apply close_inv; rewrite ?Ew|by apply deliver_inv; rewrite ?Ew].
  - destruct Hw as (Hq & Hs & Hd). destruct (received _) as [t|] eqn:Hr; [|done]. apply (received_verdict _ _ _ Ho) in Hr as Hv.
    change (inv v (close t (take_done (TryRecv t) s))). apply close_inv; try done; cbn.
    apply (move_inv _ s); try done; cbn; rewrite ?Ew; by rewrite ?Hv.
  - destruct t as [t|]; [|done]. destruct Hw as [Hd Hv].
    destruct (queue s) as [|c q] eqn:Hq; [by apply close_inv; rewrite ?Ew|by apply deliver_inv; rewrite ?Ew].
  - done.
  - done.
Qed.

(** Only the first signal of the task changes the verdict. *)
Definition update (v : option terminal) (ev : event) : option terminal :=
  match v with Some t => Some t | None => signal ev end.

Lemma oneshot_update v ev s : oneshot_ok v s -> done_rx s <> Waiting -> update v ev = v.
Proof. unfold oneshot_ok. destruct (done_rx s); cbn; [done|by intros <-|by intros <-|by intros [t ->]]. Qed.

Lemma emit_inv v c s : inv v s -> inv v (step s (Emit c)).
Proof.
  intros Hi. cbn [step]. destruct (done_rx s) eqn:Hd; try done. destruct (sender s) eqn:Hse; [|by destruct (writer s)].
  cbn [andb]. destruct (_ <? _)%nat eqn:Hl; [|by destruct (writer s)]. apply Nat.ltb_lt in Hl. pose proof Hi as [Hs Ht Hb Ho Hw Hf].
  unfold oneshot_ok, writer_ok, frames_ok in *. rewrite Hd in *.
  destruct (writer s) as [| | | |[]| |]; destruct_and?; try done; try exact Hi; split; unfold oneshot_ok, writer_ok, frames_ok; cbn; try done;
    rewrite ?Hs, ?length_app, <-?(assoc _); cbn; first [done|lia|congruence].
Qed.

Lemma signal_inv v ev s o t :
  inv v s -> signal ev = Some t -> done_rx s = Waiting -> received o = Some t -> o <> Taken ->
  inv (Some t) (mkStream (queue s) (sender s) o (writer s) (frames s) (chunks_emitted_total s) (sent s)).
Proof.
  intros [Hs Ht Hb Ho Hw Hf] Hsig Hd Hr Hn. unfold oneshot_ok, writer_ok, frames_ok in *. rewrite Hd in *. cbn in Ho.
  split; unfold oneshot_ok, writer_ok, frames_ok; cbn; try done; [by destruct o|..].
  - destruct (writer s) as [| | | |[]| |]; destruct_and?; done.
  - destruct (writer s) as [| | | |[]| |]; destruct_and?; try done.
Qed.

Lemma stream_step_inv v ev s : inv v s -> inv (update v ev) (step s ev).
Proof.
  intros Hi. pose proof (i_oneshot _ _ Hi) as Ho. destruct ev as [c| |t| |pending|].
  - replace (update v (Emit c)) with v by (by destruct v). by apply emit_inv.
  - replace (update v DropSender) with v by (by destruct v). apply (move_inv _ s); try done.
    destruct Hi as [_ _ _ _ Hw _]. unfold writer_ok in *. cbn. destruct (writer s) as [| | | |[]| |]; naive_solver.
  - cbn. destruct (done_rx s) eqn:Hd; try by (rewrite (oneshot_update _ _ s); rewrite ?Hd).
    unfold oneshot_ok in Ho. rewrite Hd in Ho. rewrite <-Ho. by eapply (signal_inv v (Finish t)).
  - cbn. destruct (done_rx s) eqn:Hd; try by (rewrite (oneshot_update _ _ s); rewrite ?Hd).
    unfold oneshot_ok in Ho. rewrite Hd in Ho. rewrite <-Ho. by eapply (signal_inv v Die).
  - replace (update v (Poll pending)) with v by (by destruct v). by apply poll_inv.
  - replace (update v Disconnect) with v by (by destruct v). destruct Hi as [Hs Ht Hb _ Hw Hf].
    unfold writer_ok, frames_ok in *. cbn. destruct (writer s) eqn:Ew; split; unfold writer_ok, frames_ok; cbn; done.
Qed.

Lemma stream_run_inv evs : inv (verdict evs) (run evs).
Proof.
  induction evs as [|ev evs IH] using rev_ind.
  - split; unfold oneshot_ok, writer_ok, frames_ok; cbn; try done. lia.
  - unfold run. rewrite foldl_app. apply (stream_step_inv _ ev) in IH. replace (verdict (evs ++ [ev])) with (update (verdict evs) ev); [done|].
    unfold verdict. rewrite omap_app. destruct (omap signal evs); [|done]. cbn. by destruct (signal ev).
Qed.

(** Polls left until the stream ends, once the task has. *)
Definition left (s : Stream) : nat :=
  match writer s with
  | Streaming => length (queue s) + 3
  | PollDone => length (queue s) + 2
  | TryRecv _ | DrainOnly _ | AwaitDone => length (queue s) + 1
  | WriterDone | Gone => 0
  end.

Lemma poll_left t s : inv (Some t) s -> (left (poll false s) <= pred (left s))%nat.
Proof.
  intros [_ _ _ Ho Hw _]. unfold poll, left, writer_ok, oneshot_ok in *. destruct (writer s) eqn:Ew; rewrite ?Ew; cbn; try lia.
  - destruct (queue s) as [|c q] eqn:Hq; cbn; rewrite ?Hq; [destruct (sender s); cbn|cbn]; lia.
  - destruct (done_rx s); cbn in *; simplify_eq; cbn; try done; lia.
  - destruct (queue s) as [|c q] eqn:Hq; cbn; lia.
  - destruct Hw as (Hq & _ & Hd). destruct (done_rx s); cbn in *; simplify_eq; cbn; try done; lia.
  - destruct (queue s) as [|c q] eqn:Hq; cbn; lia.
Qed.

Lemma polls_end t n s : inv (Some t) s -> (left s <= n)%nat -> writer s <> Gone ->
  writer (foldl step s (replicate n (Poll false))) = WriterDone.
Proof.
  revert s. induction n as [|n IH]; intros s Hi Hl Hg.
  - cbn. unfold left in Hl. destruct (writer s); cbn in *; try lia; done.
  - cbn [replicate foldl]. apply IH.
    + apply (stream_step_inv _ (Poll false)) in Hi. exact Hi.
    + pose proof (poll_left _ _ Hi). cbn. lia.
    + cbn. unfold poll. destruct (writer s) as [| | | |[]| |] eqn:Ew; cbn; repeat case_match; cbn; congruence.
Qed.

(** What holds of the machine, whatever the answer for a dead task. *)
Lemma machine_complete evs :
  let s := run evs in
  sent s = chunks_of (frames s) ++ queue s /\ (length (queue s) <= buffer)%nat /\
  chunks_emitted_total s = Z.of_nat (length (chunks_of (frames s))) /\
  (writer s <> WriterDone -> frames s = Chunk <$> chunks_of (frames s)) /\
  (writer s = WriterDone -> exists t, verdict evs = Some t /\ frames s = (Chunk <$> sent s) ++ [Done t]) /\
  (is_Some (verdict evs) -> writer s <> Gone -> forall n, (length (queue s) + 3 <= n)%nat ->
     writer (run (evs ++ replicate n (Poll false))) = WriterDone).
Proof.
  cbn zeta. pose proof (stream_run_inv evs) as Hi. pose proof Hi as [Hs Ht Hb Ho Hw Hf]. split_and!; try done.
  - intros Hne. unfold frames_ok in Hf. by destruct (writer (run evs)).
  - intros He. unfold frames_ok, writer_ok in *. rewrite He in *. destruct Hw as [Hq _]. by rewrite Hs, Hq, app_nil_r.
  - intros [t Hv] Hg n Hn. unfold run. rewrite foldl_app. rewrite Hv in Hi. apply (polls_end t); [done| |done].
    fold (run evs). unfold left. destruct (writer (run evs)); lia.
Qed.

End facts.

(** In the body without content negotiation the guest's bytes and the
    gateway's frames are not told apart: a guest can send what reads as the
    frame of a success and fail afterwards. *)
Lemma terminal_frame_forgeable `{!Libraries} e :
  let ok := chunked (Done (Ok ())) in
  let evs := [Emit ok; Finish (Err e); DropSender; Poll false; Poll false; Poll false] in
  frames (native evs) = [Chunk ok; Done (Err e)] /\
  concat (chunked <$> frames (native evs)) = chunked (Done (Ok ())) ++ chunked (Done (Err e)).
Proof. cbn. by rewrite app_nil_r. Qed.
End StreamWriterFacts.

(** How a task ended, whichever writer listens: it sent its status, or it died.
    The first signal counts. *)
Inductive ended (E : Type) := EndedWith (t : result E ()) | Died.
#[global] Arguments EndedWith {E}.
#[global] Arguments Died {E}.

Definition ending {E} (evs : list (StreamWriter.event E)) : option (ended E) :=
  head (omap (fun ev => match ev with
    | StreamWriter.Finish t => Some (EndedWith t)
    | StreamWriter.Die => Some Died
    | _ => None end) evs).

Lemma verdict_ending {E} (dead : result E ()) evs :
  StreamWriterFacts.verdict dead evs = (fun d => match d with EndedWith t => t | Died => dead end) <$> ending evs.
Proof.
  unfold StreamWriterFacts.verdict, ending. induction evs as [|[] evs IH]; cbn; try done; by rewrite IH.
Qed.

Module OpenAiWriterFacts.
Import Auth.Text Envelope Json Routes.Routes OpenAi.OpenAi StreamWriter StreamWriterFacts OpenAiWriter.

Abbreviation machine := (StreamWriter.run OPENAI_STREAM_BUFFER (Ok () : result ExecError ())).

Lemma stream_run evs : stream (run evs) = machine evs.
Proof.
  induction evs as [|ev evs IH] using rev_ind; [done|]. unfold run, StreamWriter.run in *. rewrite !foldl_app, <-IH. cbn.
  unfold step. set (w := foldl _ _ evs). destruct ev; try done. cbn. unfold poll. by destruct (writer (stream w)) eqn:Ew; cbn.
Qed.

Lemma closed_done evs : closed (run evs) = true -> writer (machine evs) = WriterDone.
Proof.
  rewrite <-stream_run. induction evs as [|ev evs IH] using rev_ind; [done|]. unfold run in *. rewrite foldl_app. cbn.
  set (w := foldl _ _ evs) in *. unfold step at 1 2.
  destruct ev; cbn; [| | | |destruct (writer (stream w)) eqn:Ew; cbn; try done|]; intros Hc; try (specialize (IH Hc); try congruence).
  all: rewrite ?IH; repeat case_match; cbn; done.
Qed.

(** The end marker comes last, right after the one terminal event, and a
    connected client gets it once the task has ended. *)
Lemma openai_stream_ends id created model o evs :
  (closed (run evs) = true -> exists t, verdict (Ok ()) evs = Some t /\
     events id created model o (run evs) =
       (sse_of id created model o <$> (Chunk <$> sent (machine evs)) ++ [Done t]) ++ [DoneMarker]) /\
  (closed (run evs) = false -> DoneMarker ∉ events id created model o (run evs)) /\
  (is_Some (verdict (Ok ()) evs) -> writer (machine evs) <> Gone -> forall n, (length (queue (machine evs)) + 3 <= n)%nat ->
     closed (run (evs ++ replicate (S n) (Poll false))) = true).
Proof.
  pose proof (stream_run_inv OPENAI_STREAM_BUFFER (Ok () : result ExecError ()) evs) as Hi. split_and!.
  - intros Hc. pose proof (closed_done evs Hc) as Hw. pose proof Hi as [Hs _ _ _ Hq Hf]. unfold frames_ok, writer_ok in *.
    rewrite Hw in *. destruct Hf as (t & Hv & Hf). exists t. split; [done|]. unfold events. rewrite Hc, stream_run. f_equal.
    rewrite Hf at 1. destruct Hq as [Hq _]. by rewrite Hs, Hq, app_nil_r.
  - intros Hc. unfold events. rewrite Hc, app_nil_r. by intros (f & [=] & _)%list_elem_of_fmap.
  - intros [t Hv] Hg n Hn. rewrite replicate_S_end, (assoc _). unfold run. rewrite foldl_app. cbn. fold (run (evs ++ replicate n (Poll false))).
    unfold step. rewrite stream_run. rewrite Hv in Hi.
    replace (writer (machine (evs ++ replicate n (Poll false)))) with (WriterDone (E := ExecError)); [done|].
    symmetry. unfold StreamWriter.run. rewrite foldl_app. apply (polls_end OPENAI_STREAM_BUFFER (Ok ()) t); [done| |done].
    fold (machine evs). unfold left. destruct (writer (machine evs)); lia.
Qed.

(** C40: a streamed response is complete and ends, on both kinds of route.
    However the guest's emissions, its end, the death of its task, the dropping
    of its sender and the polls of the response interleave, the frames delivered
    so far and the chunks still in the channel, at most its capacity, are the
    chunks the guest sent, in order.  A native stream ends with one terminal
    frame after every chunk, with the status the task sent or, if it died, the
    error that says so.  An OpenAI stream ends with one terminal event and the
    end marker after the events of every chunk, and no marker comes before: the
    event carries the error the task sent and reads as a success otherwise, also
    when the task died.  Once the task has ended, a connected client's stream
    ends within three, or four, more polls than there are chunks in the
    channel. *)
Theorem stream_complete (evs : list (event StreamTerminalError)) (oevs : list (event ExecError)) id created model o :
  (let s := native evs in
   sent s = chunks_of (frames s) ++ queue s /\ (length (queue s) <= STREAMING_CHANNEL_BUFFER)%nat /\
   chunks_emitted_total s = Z.of_nat (length (chunks_of (frames s))) /\
   (writer s <> WriterDone -> frames s = Chunk <$> chunks_of (frames s)) /\
   (writer s = WriterDone -> exists d, ending evs = Some d /\
      frames s = (Chunk <$> sent s) ++ [Done (match d with EndedWith t => t | Died => Err dropped end)]) /\
   (is_Some (ending evs) -> writer s <> Gone -> forall n, (length (queue s) + 3 <= n)%nat ->
      writer (native (evs ++ replicate n (Poll false))) = WriterDone)) /\
  (let w := run oevs in
   let s := stream w in
   sent s = chunks_of (frames s) ++ queue s /\ (length (queue s) <= OPENAI_STREAM_BUFFER)%nat /\
   (closed w = true -> exists d, ending oevs = Some d /\
      events id created model o w =
        ((fun c => Data (chunk_payload id created model o c)) <$> sent s) ++
        [Data (terminal_payload id created model o (match d with EndedWith (Err e) => Some e | _ => None end)); DoneMarker]) /\
   (closed w = false -> DoneMarker ∉ events id created model o w) /\
   (is_Some (ending oevs) -> writer s <> Gone -> forall n, (length (queue s) + 4 <= n)%nat ->
      closed (run (oevs ++ replicate n (Poll false))) = true)).
Proof.
  split; cbn zeta.
  - destruct (machine_complete STREAMING_CHANNEL_BUFFER (Err dropped) evs) as (Hs & Hq & Ht & Hopen & Hend & Hlive).
    rewrite verdict_ending in *. split_and!; try done.
    + intros (t & Hv & Hf)%Hend. apply fmap_Some in Hv as (d & Hd & ->). eauto.
    + intros Hd. apply Hlive. by apply fmap_is_Some.
  - destruct (machine_complete OPENAI_STREAM_BUFFER (Ok ()) oevs) as (Hs & Hq & _).
    destruct (openai_stream_ends id created model o oevs) as (Hc & Hn & Hlive). rewrite verdict_ending in *. rewrite stream_run.
    split_and!; try done.
    + intros (t & Hv & He)%Hc. apply fmap_Some in Hv as (d & Hd & ->). exists d. split; [done|].
      rewrite He, fmap_app, <-list_fmap_compose, <-app_assoc. f_equal. by destruct d as [[[]|]|].
    + intros Hd Hg n Hle. destruct n as [|n]; [lia|]. apply Hlive; [by apply fmap_is_Some|done|lia].
Qed.

(** A task that dies after its first chunk reads as a completion that stopped. *)
Lemma dead_task_reads_complete id created model o c :
  events id created model o (run [Emit c; Die; DropSender; Poll false; Poll false; Poll false; Poll false]) =
    [Data (chunk_payload id created model o c); Data (terminal_payload id created model o None); DoneMarker].
Proof. done. Qed.

(** Chunks are decoded one by one: a character that two of them share is lost,
    which the decoding of the whole text keeps. *)
Lemma split_character_lost :
  let chunks := [[Byte.xe2; Byte.x82]; [Byte.xac]] in
  Utf8.from_utf8_lossy (concat chunks) = [0x20AC] /\
  Utf8.from_utf8_lossy <$> chunks = [[Utf8.REPLACEMENT_CHARACTER]; [Utf8.REPLACEMENT_CHARACTER]].
Proof. done. Qed.
End OpenAiWriterFacts.
